(* ===== verification/_CoqProject ===== *)
-Q . S2P
Prelude.v
Buffers.v
WireConst.v
WireCrc.v
WireFrame.v
Codec.v
WirePayload.v
WireDgram.v
WirePreface.v
WireMsg.v
WireWindow.v
GoTime.v
SchedEvidence.v
SchedRank.v
SchedTiming.v
SchedCadence.v
SchedSelector.v
CarrierBuf.v
Spans.v
RecvSegs.v
RecvProofs.v
RecvCopy.v
RecvFrame.v
SessState.v
SessDuty.v
SessRecv.v
SessRecvProofs.v
SessFin.v
SessSend.v
CarrierBatch.v
BatchWire.v
SessFill.v
SessStep.v
SessDeliver.v
SessSendInv.v
SessFillProofs.v
SessFillCtl.v
SessLink.v
SessNet.v
SessEnds.v
