(* ===== verification/Prelude.v ===== *)
(** * A verification of rendr

    rendr (src/) carries byte-stream and packet sessions over several carriers
    at once: TCP or QUIC streams, or datagram paths. This library models the
    parts of it that decide what is written, accepted, ordered, retransmitted
    and delivered, and proves them correct. It is written against the Go
    sources under src/internal; a definition keeps the name of the function it
    models where Rocq allows it.

    ** The program and the files

    [internal/wire]: the frame format. [WireConst] (const.go), [WireCrc] and
    [WireFrame] (frame.go), [Codec], [WirePayload] and [WireDgram] (payload.go,
    detach.go, down.go, dgram.go), [WirePreface] (preface.go), [WireMsg] (the
    per-type tables and messages end to end), [WireWindow] (window.go).

    [internal/sched]: pure scheduling decisions. [GoTime] (the time package's
    arithmetic), [SchedEvidence] (evidence.go), [SchedRank] (rank.go,
    group.go, SRTTOrder), [SchedTiming] (rto.go, formula.go), [SchedCadence]
    (cadence.go, race.go), [SchedSelector] (selector.go).

    [internal/carrier]: what a carrier writes. [CarrierBuf] (buf.go: classes
    and Budget), [CarrierBatch] and [BatchWire] (batch.go: the frames of one
    physical write on a stream carrier).

    [internal/session]: one session. [Spans] (spanList of stream.go),
    [RecvSegs] with [RecvProofs], [RecvCopy] and [RecvFrame] (segments of
    stream.go and the buffer operations of recv.go), [SessState] (state.go,
    types.go: the state record, the lane cells and the state monad),
    [SessDuty] (the ACK duty and wake-ups: ack.go, wake.go, race.go,
    helpers.go), [SessRecv] and [SessRecvProofs] (recv.go, early_recv.go, the
    Read of app.go), [SessFin] (fin.go), [SessSend] (send.go, the Write of
    app.go, the received ACK of ack.go, helpers.go), [SessFill] (fill.go,
    race.go, ack.go, lane_ep.go), [SessStep] (lane_ep.go, app.go, deadline.go,
    helpers.go: every critical section as a call), [SessDeliver] (executions
    of the receive side), [SessSendInv], [SessFillProofs] and [SessFillCtl]
    (the invariant of the send side and what a Fill places), [SessLink],
    [SessNet] and [SessEnds] (two ends joined by a network; the dispatch of
    carrier/reader.go).

    [Prelude] holds the shared kit (this file): results with panics, machine
    integers, hint databases, list and integer lemmas. [Buffers] models slices
    that are written by index.

    ** How the code is represented

    A w-bit integer is a Z; [wrap w], [u32], [u64], [i64] write out every
    wrap-around the Go code performs, and [fits w] says that a value is in
    range. A fallible function returns [res err A] ([Ok], [Err], [Panic]), so
    an index out of range is a value a theorem can exclude. time.Time is its
    nanosecond count, with 0 for the zero Time; a Duration is an int64. float64
    is IEEE binary64 through SpecFloat. A session is the record [Session]; a
    function that runs under s.mu is a computation of the state monad [M], a
    Fill is one of [FM], which also threads the batch and may panic. time.Now
    reads the session's [clock], an arbitrary function, at the next tick. A
    lane pointer is an index into the cells [heap]; the shared lanes, the ACK
    duty lane and the rescue holder are such indices, so aliasing is the
    aliasing of the code. Waking a lane, ringing the actor and triggering a
    deferred open are recorded effects.

    The application's Read and Write copy outside the lock, so each is several
    steps: [readBegin] and [readCommit], [writeRoundLocked], [writeCopy] and
    [writeCommit]. The relation [rstep] of [SessDeliver] interleaves them with
    frames, control frames, Fill, the actor's calls ([exec]) and environment
    steps in any order.

    ** What the theorems show

    Frames and payloads: encoding and decoding are inverse on all well-formed
    values, decoding accepts exactly the canonical encodings and never panics,
    a strict prefix is reported as short, a burst of up to four bytes is
    detected by the CRC ([WireFrame], [WireMsg], [WirePreface]); the two
    sliding windows implement windows that never forget ([WireWindow]).

    Scheduling: the sample ring implements its abstract window, the classes of
    evidence change exactly when NextChange says, rankings are the documented
    total orders, a quality switch happens only after an uninterrupted dwell
    and never later than the announced wake-up, timers are exact in spite of
    int64 ([SchedEvidence] to [SchedSelector]).

    Batches: any sequence of additions, sealed and written, is read back by
    the decoder as exactly the frames that were placed, in order, with
    consecutive numbers ([BatchWire.batch_round], across the interface of
    [WireFrame]).

    Two ends ([SessEnds]): with frames lost, repeated and reordered at will on
    any number of lanes, what Reads return at one end is a prefix of what
    Writes committed at the other, and all of it when io.EOF is returned; a
    byte that was written and not read by the peer's application is held, and
    unsent, queued or in flight; no DATA frame is refused; every Fill places
    well-formed frames that say what is true. Early data is outside this
    composition, and [early_requeue_beyond_window] shows why.

    Streams: whatever the interleaving, the bytes Reads return are a prefix of
    the peer's stream, EOF is returned only at its end, no frame panics, an
    acceptable frame is taken and a bad one is refused without a change, a
    Read with bytes to return returns some ([SessDeliver]); span lists are the
    sets of offsets they stand for ([Spans]); the SCHED counter check is exact
    over 64-bit overflow ([SessFin]).

    ** Fuel

    Loops that are not structural carry fuel that is proved sufficient or
    bounded by the loop's own measure: the copy loops of [RecvCopy] take the
    length of the payload, each pass consuming at least one byte; the binary
    searches take the length of the list; clearRing takes n/64 + 2 words; the
    loops of a Fill take one more than the frames a batch can hold, since
    every pass that does not stop places one ([fillFuel]).

    ** Not modelled

    The actor's event loop (opening, lanes, death, termination) and packet
    sessions; it appears only as the calls it makes and as environment steps
    that leave the stream fields alone. The carriers' goroutines, sockets,
    establishment, probing, the trunk's view table and the datagram mode of a
    batch; the reference counts of buffers; the call semaphores, which are the
    assumption that one Read copies at a time. Adapters, port forwarding, the
    public API and the test support are I/O around this core. *)

From Stdlib Require Import ZArith Lia.
From stdpp Require Import base numbers list.

Declare Scope rendr_scope.
Delimit Scope rendr_scope with rendr.
Open Scope Z_scope.
Open Scope rendr_scope.

Create HintDb rendr.
Create HintDb rendr_const.
Create Rewrite HintDb rendr_len.

(** ** Outcomes of Go code

    A function of the source that can fail returns a value or an error; one
    that indexes a slice out of range panics.  [Panic] is an outcome of its
    own, so "never panics" is a statement about the model. *)

Inductive res (E A : Type) : Type :=
| Ok (a : A)
| Err (e : E)
| Panic.

Arguments Ok {E A} a.
Arguments Err {E A} e.
Arguments Panic {E A}.

Definition res_bind {E A B} (m : res E A) (k : A → res E B) : res E B :=
  match m with
  | Ok a => k a
  | Err e => Err e
  | Panic => Panic
  end.

Notation "'let!' x ':=' m 'in' k" := (res_bind m (λ x, k))
  (at level 10, x pattern, m at level 150, k at level 200) : rendr_scope.

Definition is_ok {E A} (m : res E A) : bool :=
  match m with Ok _ => true | _ => false end.

Lemma res_bind_ok {E A B} (m : res E A) (k : A → res E B) b :
  res_bind m k = Ok b ↔ ∃ a, m = Ok a ∧ k a = Ok b.
Proof. destruct m; naive_solver. Qed.

Lemma res_bind_no_panic {E A B} (m : res E A) (k : A → res E B) :
  m ≠ Panic → (∀ a, m = Ok a → k a ≠ Panic) → res_bind m k ≠ Panic.
Proof. destruct m; naive_solver. Qed.

(** ** Machine integers *)

(** [fits w x]: [x] is a value of the unsigned type of [w] bits. *)
Definition fits (w x : Z) : Prop := 0 ≤ x < 2 ^ w.
Definition fitsb (w x : Z) : bool := (0 <=? x) && (x <? 2 ^ w).

Abbreviation is_u8 := (fits 8).
Abbreviation is_u16 := (fits 16).
Abbreviation is_u32 := (fits 32).
Abbreviation is_u64 := (fits 64).

#[global] Instance fits_dec w x : Decision (fits w x).
Proof. unfold fits. apply _. Defined.

Lemma fitsb_spec w x : fitsb w x = true ↔ fits w x.
Proof. unfold fitsb, fits. lia. Qed.

(** Conversion to an unsigned type of [w] bits: Go truncates. *)
Definition wrap (w x : Z) : Z := x mod 2 ^ w.

(** Reinterpretation of the low [w] bits as a two's complement value: Go's
    conversion to a signed type, and signed arithmetic. *)
Definition swrap (w x : Z) : Z := (x + 2 ^ (w - 1)) mod 2 ^ w - 2 ^ (w - 1).

Abbreviation u32 := (wrap 32).
Abbreviation u64 := (wrap 64).
Abbreviation i32 := (swrap 32).
Abbreviation i64 := (swrap 64).

Lemma wrap_fits w x : 0 ≤ w → fits w (wrap w x).
Proof. intros. unfold wrap, fits. apply Z.mod_pos_bound. lia. Qed.

Lemma wrap_le w x : 0 ≤ w → 0 ≤ x → wrap w x ≤ x.
Proof. intros. unfold wrap. apply Z.mod_le; [done|]. by apply Z.pow_pos_nonneg. Qed.

Lemma wrap_small w x : fits w x → wrap w x = x.
Proof. intros. unfold wrap. apply Z.mod_small. done. Qed.

Lemma wrap_wrap w x : 0 ≤ w → wrap w (wrap w x) = wrap w x.
Proof. intros. apply wrap_small. by apply wrap_fits. Qed.

Lemma swrap_small w x : 0 < w → - 2 ^ (w - 1) ≤ x < 2 ^ (w - 1) → swrap w x = x.
Proof.
  intros Hw Hx. unfold swrap.
  assert (2 ^ w = 2 * 2 ^ (w - 1)) as Hp.
  { rewrite <- Z.pow_succ_r by lia. f_equal. lia. }
  rewrite Z.mod_small; lia.
Qed.

(** [swrap] depends only on the low bits. *)
Lemma swrap_congr w x y : x mod 2 ^ w = y mod 2 ^ w → swrap w x = swrap w y.
Proof.
  intros H. unfold swrap. f_equal.
  by rewrite (Zplus_mod x), H, <- Zplus_mod.
Qed.

Lemma swrap_unsigned w x :
  0 < w → fits w x → swrap w x = if x <? 2 ^ (w - 1) then x else x - 2 ^ w.
Proof.
  intros Hw Hx. unfold fits in Hx.
  assert (2 ^ w = 2 * 2 ^ (w - 1)) as Hp.
  { rewrite <- Z.pow_succ_r by lia. f_equal. lia. }
  destruct (Z.ltb_spec x (2 ^ (w - 1))); [apply swrap_small; lia|].
  rewrite (swrap_congr w x (x - 2 ^ w)); [apply swrap_small; lia|].
  replace x with (x - 2 ^ w + 1 * 2 ^ w) at 1 by lia. apply Z.mod_add. lia.
Qed.

(** Or-ing into the low bits a shift left free is addition. *)
Lemma lor_shiftl_add x y k :
  0 ≤ k → 0 ≤ y < 2 ^ k → Z.lor (Z.shiftl x k) y = x * 2 ^ k + y.
Proof.
  intros Hk Hy. rewrite <- Z.shiftl_mul_pow2 by done.
  rewrite <- (Z.add_lor_land (Z.shiftl x k) y).
  assert (Z.land (Z.shiftl x k) y = 0) as ->; [|lia].
  apply Z.bits_inj'. intros n Hn. rewrite Z.land_spec, Z.bits_0.
  destruct (Z.lt_ge_cases n k); [by rewrite Z.shiftl_spec_low|].
  rewrite <- (Z.mod_small y (2 ^ k)) by done.
  rewrite Z.mod_pow2_bits_high by lia. apply andb_false_r.
Qed.

(** ** Byte sequences *)

Abbreviation bytes := (list Z).

Definition len {A} (p : list A) : Z := Z.of_nat (length p).

(** Every element is a byte. *)
Abbreviation Bytes := (Forall (fits 8)).

Lemma len_nil {A} : len (@nil A) = 0. Proof. done. Qed.
Lemma len_cons {A} (x : A) p : len (x :: p) = 1 + len p.
Proof. unfold len. simpl. lia. Qed.
Lemma len_app {A} (p q : list A) : len (p ++ q) = len p + len q.
Proof. unfold len. rewrite length_app. lia. Qed.
Lemma len_nonneg {A} (p : list A) : 0 ≤ len p.
Proof. unfold len. lia. Qed.
Lemma len_replicate {A} n (x : A) : len (replicate n x) = Z.of_nat n.
Proof. unfold len. by rewrite length_replicate. Qed.
Lemma len_0_nil {A} (p : list A) : len p = 0 → p = [].
Proof. unfold len. destruct p; simpl; [done|lia]. Qed.

(** [slice p i j] is Go's [p[i:j]] for indexes in range. *)
Definition slice {A} (p : list A) (i j : Z) : list A :=
  take (Z.to_nat (j - i)) (drop (Z.to_nat i) p).

Lemma len_slice {A} (p : list A) i j :
  0 ≤ i → i ≤ j → j ≤ len p → len (slice p i j) = j - i.
Proof. unfold len, slice. rewrite length_take, length_drop. lia. Qed.

Lemma len_drop {A} n (p : list A) : len (drop n p) = Z.max 0 (len p - Z.of_nat n).
Proof. unfold len. rewrite length_drop. lia. Qed.
Lemma len_take {A} n (p : list A) : len (take n p) = Z.min (Z.of_nat n) (len p).
Proof. unfold len. rewrite length_take. lia. Qed.

Lemma slice_full {A} (p : list A) j : j = len p → slice p 0 j = p.
Proof. intros ->. unfold slice, len. simpl. apply take_ge. lia. Qed.

Lemma slice_nil {A} (p : list A) i : slice p i i = [].
Proof. unfold slice. by rewrite Z.sub_diag. Qed.

Lemma slice_app_l {A} (p q : list A) i j :
  0 ≤ i → i ≤ j → j ≤ len p → slice (p ++ q) i j = slice p i j.
Proof.
  unfold len, slice. intros. rewrite drop_app_le by lia.
  apply take_app_le. rewrite length_drop. lia.
Qed.

Lemma slice_app_r {A} (p q : list A) i j :
  len p ≤ i → slice (p ++ q) i j = slice q (i - len p) (j - len p).
Proof.
  unfold len, slice. intros. rewrite drop_app_ge by lia.
  f_equal; [lia|f_equal; lia].
Qed.

Lemma slice_join {A} (p : list A) i j k :
  0 ≤ i → i ≤ j → j ≤ k → slice p i j ++ slice p j k = slice p i k.
Proof.
  unfold slice. intros.
  replace (Z.to_nat (k - i)) with (Z.to_nat (j - i) + Z.to_nat (k - j))%nat by lia.
  rewrite <- take_take_drop, drop_drop. f_equal. f_equal. f_equal. lia.
Qed.

Lemma slice_tail {A} (p : list A) i :
  0 ≤ i ≤ len p → slice p i (len p) = drop (Z.to_nat i) p.
Proof.
  unfold slice, len. intros. apply take_ge. rewrite length_drop. lia.
Qed.

Lemma slice_slice {A} (p : list A) i j k l :
  0 ≤ i → 0 ≤ k → k ≤ l → i + l ≤ j →
  slice (slice p i j) k l = slice p (i + k) (i + l).
Proof.
  unfold slice. intros.
  replace (Z.to_nat (j - i)) with (Z.to_nat k + (Z.to_nat (j - i) - Z.to_nat k))%nat by lia.
  rewrite <- take_drop_commute, take_take, drop_drop.
  f_equal; [lia|f_equal; lia].
Qed.

Lemma Bytes_slice p i j : Bytes p → Bytes (slice p i j).
Proof. intros. unfold slice. by apply Forall_take, Forall_drop. Qed.

#[export] Hint Resolve Bytes_slice : rendr.
#[export] Hint Rewrite @len_nil @len_cons @len_app @len_replicate : rendr_len.

(** ** Big-endian integers (package encoding/binary) *)

(** The [n] low bytes of [x], most significant first. *)
Fixpoint be (n : nat) (x : Z) : bytes :=
  match n with
  | O => []
  | S k => (Z.shiftr x (8 * Z.of_nat k)) mod 256 :: be k x
  end.

(** The value of a byte sequence read most significant byte first. *)
Fixpoint be_val (p : bytes) : Z :=
  match p with
  | [] => 0
  | b :: q => b * 2 ^ (8 * len q) + be_val q
  end.

Lemma len_be n x : len (be n x) = Z.of_nat n.
Proof. induction n; simpl; [done|]. rewrite len_cons, IHn. lia. Qed.
#[export] Hint Rewrite len_be : rendr_len.

Lemma Bytes_be n x : Bytes (be n x).
Proof.
  induction n; simpl; constructor; [|done].
  unfold fits. apply Z.mod_pos_bound. lia.
Qed.
#[export] Hint Resolve Bytes_be : rendr.

Lemma pow2_bytes_S (k : nat) :
  2 ^ (8 * Z.of_nat (S k)) = 256 * 2 ^ (8 * Z.of_nat k).
Proof.
  replace (8 * Z.of_nat (S k)) with (8 + 8 * Z.of_nat k) by lia.
  rewrite Z.pow_add_r by lia. done.
Qed.

Lemma be_val_be n x : be_val (be n x) = x mod 2 ^ (8 * Z.of_nat n).
Proof.
  induction n; cbn [be be_val].
  - by rewrite Z.mod_1_r.
  - rewrite len_be, IHn, pow2_bytes_S, Z.shiftr_div_pow2 by lia.
    rewrite (Z.mul_comm 256), Z.rem_mul_r by lia. lia.
Qed.

Lemma be_val_bound p : Bytes p → 0 ≤ be_val p < 2 ^ (8 * len p).
Proof.
  induction 1 as [|b q Hb Hq IH]; cbn [be_val]; [done|].
  unfold fits in Hb. unfold len in *. simpl length.
  rewrite pow2_bytes_S. nia.
Qed.

Lemma be_shift_above n x y :
  be n (y * 2 ^ (8 * Z.of_nat n) + x) = be n x.
Proof.
  revert y. induction n; intros y; cbn [be]; [done|]. f_equal.
  - rewrite !Z.shiftr_div_pow2 by lia. rewrite pow2_bytes_S.
    replace (y * (256 * 2 ^ (8 * Z.of_nat n)) + x)
      with (x + (y * 256) * 2 ^ (8 * Z.of_nat n)) by lia.
    rewrite Z.div_add by lia. by rewrite Z.mod_add.
  - rewrite pow2_bytes_S.
    replace (y * (256 * 2 ^ (8 * Z.of_nat n)) + x)
      with ((y * 256) * 2 ^ (8 * Z.of_nat n) + x) by lia. apply IHn.
Qed.

Lemma be_be_val p n : Bytes p → n = length p → be n (be_val p) = p.
Proof.
  intros Hp ->. induction Hp as [|b q Hb Hq IH]; [done|].
  cbn [length be be_val]. unfold len. rewrite be_shift_above, IH. f_equal.
  rewrite Z.shiftr_div_pow2 by lia.
  pose proof (be_val_bound q Hq) as Hv. unfold len in Hv.
  rewrite Z.div_add_l by lia. rewrite Z.div_small by lia.
  rewrite Z.add_0_r. apply Z.mod_small. done.
Qed.

Lemma be_val_inj p q :
  Bytes p → Bytes q → length p = length q → be_val p = be_val q → p = q.
Proof.
  intros Hp Hq Hl He.
  by rewrite <- (be_be_val p (length p)), <- (be_be_val q (length p)), He.
Qed.

Lemma be_inj n x y :
  fits (8 * Z.of_nat n) x → fits (8 * Z.of_nat n) y → be n x = be n y → x = y.
Proof.
  intros Hx Hy H. apply (f_equal be_val) in H.
  rewrite !be_val_be, !Z.mod_small in H by done. done.
Qed.

#[global] Arguments be : simpl never.
#[global] Arguments slice : simpl never.
