(* ===== verification/Buffers.v ===== *)
(** Go byte slices as the codecs use them: bounds-checked reads and writes.

    [idx], [sub] and [get] are [p[i]], [p[i:j]] and
    [binary.BigEndian.UintN(p[i:j])]; a read outside the slice is [Panic].
    [put] is a write into [dst[off:off+n]] and [puts] a sequence of such
    writes.  The lemmas turn guarded reads into the pure [field] view and
    contiguous writes into a concatenation, which is what the round-trip
    proofs of the codecs use. *)

From Stdlib Require Import ZArith Lia.
From stdpp Require Import base numbers list.
From S2P Require Import Prelude.

Open Scope Z_scope.
Open Scope rendr_scope.

(** ** Reads *)

Definition byte_at (p : bytes) (i : Z) : Z := nth (Z.to_nat i) p 0.

Definition idx {E} (p : bytes) (i : Z) : res E Z :=
  if (0 <=? i) && (i <? len p) then Ok (byte_at p i) else Panic.

Definition sub {E} (p : bytes) (i j : Z) : res E bytes :=
  if (0 <=? i) && (i <=? j) && (j <=? len p) then Ok (slice p i j) else Panic.

(** [binary.BigEndian.UintN(s)] for [N = 8·n]: it reads the first [n] bytes
    and panics when there are fewer. *)
Definition Uint {E} (n : nat) (s : bytes) : res E Z :=
  if len s <? Z.of_nat n then Panic else Ok (be_val (take n s)).

(** [binary.BigEndian.UintN(p[i:j])] with [N = 8·(j−i)]. *)
Definition get {E} (p : bytes) (i j : Z) : res E Z :=
  let! s := sub p i j in Uint (Z.to_nat (j - i)) s.

(** The number at [p[i:j]], for indexes in range. *)
Definition field (p : bytes) (i j : Z) : Z := be_val (slice p i j).

Lemma byte_at_field p i : 0 ≤ i < len p → byte_at p i = field p i (i + 1).
Proof.
  intros Hi. unfold byte_at, field, slice, len in *.
  replace (i + 1 - i) with 1 by lia.
  assert (Z.to_nat i < length p)%nat as Hl by lia.
  destruct (lookup_lt_is_Some_2 p _ Hl) as [b Hb].
  rewrite (drop_S p b _ Hb). simpl. rewrite Z.mul_1_r, Z.add_0_r.
  apply nth_lookup_Some with (d := 0) in Hb. done.
Qed.

Lemma idx_ok {E} p i : 0 ≤ i < len p → @idx E p i = Ok (field p i (i + 1)).
Proof.
  intros Hi. unfold idx. rewrite <- byte_at_field by done.
  destruct (Z.leb_spec 0 i), (Z.ltb_spec i (len p)); try lia; done.
Qed.

Lemma sub_ok {E} p i j : 0 ≤ i → i ≤ j → j ≤ len p → @sub E p i j = Ok (slice p i j).
Proof.
  intros. unfold sub.
  destruct (Z.leb_spec 0 i), (Z.leb_spec i j), (Z.leb_spec j (len p)); try lia; done.
Qed.

Lemma get_ok {E} p i j : 0 ≤ i → i ≤ j → j ≤ len p → @get E p i j = Ok (field p i j).
Proof.
  intros. unfold get, field. rewrite sub_ok by done. simpl. unfold Uint.
  pose proof (len_slice p i j) as Hl. specialize (Hl ltac:(done) ltac:(done) ltac:(done)).
  destruct (Z.ltb_spec (len (slice p i j)) (Z.of_nat (Z.to_nat (j - i)))); [lia|].
  rewrite take_ge; [done|]. unfold len in Hl. lia.
Qed.

Lemma Uint_ok {E} n s : Z.of_nat n ≤ len s → @Uint E n s = Ok (field s 0 (Z.of_nat n)).
Proof.
  intros. unfold Uint, field, slice.
  destruct (Z.ltb_spec (len s) (Z.of_nat n)); [lia|].
  simpl. do 3 f_equal. lia.
Qed.

(** ** Fields of a concatenation *)

Lemma field_app_l p q i j :
  0 ≤ i → i ≤ j → j ≤ len p → field (p ++ q) i j = field p i j.
Proof. intros. unfold field. by rewrite slice_app_l. Qed.

Lemma field_app_r p q i j :
  len p ≤ i → field (p ++ q) i j = field q (i - len p) (j - len p).
Proof. intros. unfold field. by rewrite slice_app_r. Qed.

Lemma field_be n x i j :
  i = 0 → j = Z.of_nat n → fits (8 * Z.of_nat n) x → field (be n x) i j = x.
Proof.
  intros -> -> Hx. unfold field. rewrite slice_full by (by rewrite len_be).
  rewrite be_val_be. by apply Z.mod_small.
Qed.

Lemma field_fits p i j n :
  Bytes p → 0 ≤ i → i ≤ j → j ≤ len p → n = 8 * (j - i) → fits n (field p i j).
Proof.
  intros Hp ??? ->. unfold fits, field.
  pose proof (be_val_bound (slice p i j) (Bytes_slice p i j Hp)) as Hb.
  by rewrite len_slice in Hb.
Qed.

Lemma be_field p i j n :
  Bytes p → 0 ≤ i → i ≤ j → j ≤ len p → Z.of_nat n = j - i →
  be n (field p i j) = slice p i j.
Proof.
  intros Hp ??? Hn. apply be_be_val; [by apply Bytes_slice|].
  pose proof (len_slice p i j) as Hl. unfold len in Hl at 2. lia.
Qed.

Lemma field_slice p i j k l :
  0 ≤ i → 0 ≤ k → k ≤ l → i + l ≤ j → field (slice p i j) k l = field p (i + k) (i + l).
Proof. intros. unfold field. by rewrite slice_slice. Qed.

Lemma slice_all {A} (p : list A) i j : i = 0 → j = len p → slice p i j = p.
Proof. intros -> ->. by apply slice_full. Qed.

(** Splitting a field at its first byte. *)
Lemma field_cons p i j :
  0 ≤ i → i < j → j ≤ len p →
  field p i j = field p i (i + 1) * 2 ^ (8 * (j - (i + 1))) + field p (i + 1) j.
Proof.
  intros. unfold field. rewrite <- (slice_join p i (i + 1) j) by lia.
  assert (len (slice p i (i + 1)) = 1) as Hl by (rewrite len_slice; lia).
  pose proof (len_slice p (i + 1) j) as Hr. unfold len in Hl.
  destruct (slice p i (i + 1)) as [|b [|]]; simpl in Hl; try lia.
  change ([b] ++ slice p (i + 1) j) with (b :: slice p (i + 1) j).
  cbn [be_val]. rewrite Hr by lia. rewrite (len_nil (A := Z)). lia.
Qed.

(** ** Writes *)

(** A write of [src] into [dst[off : off+len src]]. *)
Definition put {E} (dst : bytes) (off : Z) (src : bytes) : res E bytes :=
  if (0 <=? off) && (off + len src <=? len dst)
  then Ok (take (Z.to_nat off) dst ++ src ++ drop (Z.to_nat (off + len src)) dst)
  else Panic.

Fixpoint puts {E} (dst : bytes) (fs : list (Z * bytes)) : res E bytes :=
  match fs with
  | [] => Ok dst
  | (off, src) :: r => let! d := put dst off src in puts d r
  end.

Lemma puts_app {E} dst fs gs :
  @puts E dst (fs ++ gs) = let! d := puts dst fs in puts d gs.
Proof.
  revert dst. induction fs as [|[o src] r IH]; intros dst; [done|].
  cbn [puts app]. destruct (put dst o src); [apply IH|done|done].
Qed.

(** The fields start where the previous one ends. *)
Fixpoint contig (off : Z) (fs : list (Z * bytes)) : Prop :=
  match fs with
  | [] => True
  | (o, src) :: r => o = off ∧ contig (off + len src) r
  end.

Definition fields_of (fs : list (Z * bytes)) : bytes := concat (map snd fs).

Lemma put_ok {E} dst off src :
  0 ≤ off → off + len src ≤ len dst →
  @put E dst off src =
    Ok (take (Z.to_nat off) dst ++ src ++ drop (Z.to_nat (off + len src)) dst).
Proof.
  intros. unfold put.
  destruct (Z.leb_spec 0 off), (Z.leb_spec (off + len src) (len dst)); try lia; done.
Qed.

Lemma puts_contig_gen {E} fs : ∀ pre rest,
  contig (len pre) fs → len (fields_of fs) ≤ len rest →
  @puts E (pre ++ rest) fs =
    Ok (pre ++ fields_of fs ++ drop (length (fields_of fs)) rest).
Proof.
  induction fs as [|[o src] r IH]; intros pre rest Hc Hl; [done|].
  destruct Hc as [-> Hc].
  change (fields_of ((len pre, src) :: r)) with (src ++ fields_of r) in *.
  rewrite len_app in Hl. pose proof (len_nonneg (fields_of r)).
  cbn [puts]. rewrite put_ok by (rewrite ?len_app; pose proof (len_nonneg pre); lia).
  cbn [res_bind].
  rewrite take_app_length' by (unfold len; lia).
  rewrite drop_app_ge by (unfold len; lia).
  replace (Z.to_nat (len pre + len src) - length pre)%nat with (length src)
    by (unfold len; lia).
  rewrite app_assoc, IH.
  - by rewrite length_app, drop_drop, !app_assoc.
  - by rewrite len_app.
  - rewrite len_drop. unfold len in *. lia.
Qed.

(** Contiguous writes from the start of a large enough buffer leave the
    concatenation of the fields in front of what the buffer held after them. *)
Lemma puts_contig {E} dst fs :
  contig 0 fs → len (fields_of fs) ≤ len dst →
  @puts E dst fs = Ok (fields_of fs ++ drop (length (fields_of fs)) dst).
Proof. intros. exact (puts_contig_gen fs [] dst H H0). Qed.

(** A head of contiguous fields, then a body written behind it. *)
Lemma puts_put {E B} dst fs o body (k : bytes → res E B) :
  contig 0 (fs ++ [(o, body)]) → len (fields_of fs ++ body) ≤ len dst →
  (let! b := puts dst fs in let! b := put b o body in k b) =
    k ((fields_of fs ++ body) ++ drop (length (fields_of fs ++ body)) dst).
Proof.
  intros Hc Hl. pose proof (puts_app (E := E) dst fs [(o, body)]) as Ha. cbn [puts] in Ha.
  assert (fields_of (fs ++ [(o, body)]) = fields_of fs ++ body) as Hf.
  { unfold fields_of. rewrite map_app, concat_app. cbn. by rewrite app_nil_r. }
  rewrite puts_contig in Ha by (done || by rewrite Hf). rewrite Hf in Ha.
  destruct (puts dst fs) as [b| |]; cbn [res_bind] in *; [|done|done].
  destruct (put b o body) as [b'| |]; cbn [res_bind] in *; [|done|done].
  by injection Ha as <-.
Qed.

(** ** Automation *)

(** Normalise lengths, then decide with [lia]. *)
Ltac len_lia :=
  autounfold with rendr_const in *;
  autorewrite with rendr_len in *; lia.

(** Evaluate constant positions. *)
Ltac closed_pos p :=
  lazymatch p with xH => idtac | xO ?q => closed_pos q | xI ?q => closed_pos q end.
Ltac lit i :=
  let i' := eval compute in i in
  lazymatch i' with
  | Z0 => i'
  | Zpos ?q => let _ := match goal with _ => closed_pos q end in i'
  end.
Ltac norm_pos :=
  repeat match goal with
  | |- context [field ?p ?i ?j] =>
      let i' := lit i in let j' := lit j in
      progress change (field p i j) with (field p i' j')
  | |- context [slice ?p ?i ?j] =>
      let i' := lit i in let j' := lit j in
      progress change (slice p i j) with (slice p i' j')
  end.

(** Turn every guarded read in the goal into the pure view. *)
Ltac reads :=
  repeat first
    [ rewrite idx_ok by len_lia
    | rewrite sub_ok by len_lia
    | rewrite get_ok by len_lia
    | rewrite Uint_ok by len_lia ]; cbn [res_bind]; norm_pos.

(** Evaluate a [field] or [slice] of a concatenation of encoded fields. *)
Ltac fields :=
  repeat first
    [ rewrite field_app_r by len_lia
    | rewrite slice_app_r by len_lia
    | rewrite field_app_l by len_lia
    | rewrite slice_app_l by len_lia
    | rewrite field_be by (first [len_lia | unfold fits in *; len_lia])
    | rewrite slice_all by len_lia ].

(** A field of a byte string in range fits its width. *)
Ltac fits_field := eapply field_fits; (done || len_lia).

(** Reassemble a byte string from its fields. *)
Ltac rejoin :=
  rewrite ?be_field by (done || len_lia);
  autounfold with rendr_const in *;
  rewrite ?slice_join by lia;
  try (apply slice_full; lia).
