(* ===== verification/WireConst.v ===== *)
(** Wire format v2: sizes, limits, enumerations and the per-type tables.

    Models internal/wire/const.go, the constants of dgram.go, detach.go and
    down.go, errors.go and PayloadBounds of frame.go.  Every enumeration of
    the source is a Go integer type whose unknown values reach the parsers,
    so types, statuses and reasons are numbers here too. *)

From Stdlib Require Import ZArith Lia String.
From stdpp Require Import base numbers list.
From S2P Require Import Prelude.

Open Scope Z_scope.

(** ** errors.go *)
Inductive werr :=
| ErrShort | ErrTrailing | ErrMagic | ErrMajor | ErrFeature | ErrMalformed
| ErrCRC | ErrType | ErrFlags | ErrHandle | ErrLength | ErrReserved | ErrValue
| ErrFlowHeader.

#[global] Instance werr_eq_dec : EqDecision werr.
Proof. solve_decision. Defined.

(** ** Sizes and limits *)
Definition Major : Z := 2.
Definition Minor : Z := 0.
Definition PrefaceLen : Z := 40.
Definition HeaderLen : Z := 13.
Definition TrailerLen : Z := 4.
Definition FrameOverhead : Z := HeaderLen + TrailerLen.
Definition MaxFramePayload : Z := Z.shiftl 1 20.
Definition DataPrefixLen : Z := 8.
Definition DataHeadLen : Z := HeaderLen + DataPrefixLen.
Definition OpenFixedLen : Z := 32.
Definition OpenAckFixedLen : Z := 10.
Definition JoinLen : Z := 25.
Definition JoinAckLen : Z := 9.
Definition AckLen : Z := 16.
Definition FinLen : Z := 8.
Definition RstFixedLen : Z := 5.
Definition SchedFixedLen : Z := 29.
Definition PingFixedLen : Z := 20.
Definition ReasonLen : Z := 1.
Definition MaxSchedIDs : Z := 16.
Definition MaxMsg : Z := 255.
Definition MaxMetadata : Z := 65535.
Definition MaxPingPad : Z := Z.shiftl 64 10 - PingFixedLen.
Definition FirstFseq : Z := 1.
Definition SessionHandle : Z := 1.
Definition KnownRequired : Z := 0.
Definition OptMux : Z := Z.shiftl 1 0.
Definition OptEndCode : Z := Z.shiftl 1 1.
Definition KnownOptional : Z := Z.lor OptMux OptEndCode.
Definition ModeRace : Z := 3.
Definition MaxMode : Z := ModeRace.
Definition Magic : bytes := [82; 78; 68; 50]. (* "RND2" *)

(** dgram.go *)
Definition DgramPrefixLen : Z := 8.
Definition DgramOverhead : Z := FrameOverhead + DgramPrefixLen.
Definition PackLen : Z := 20.
Definition RelHeadLen : Z := 10.
Definition RelMaxPayload : Z := RelHeadLen + OpenAckFixedLen + MaxMsg.
Definition RackLen : Z := 8.
Definition RelWindow : Z := 8.
Definition FirstCseq : Z := 1.
Definition FlowHeaderLen : Z := 9.
Definition FlowVersion : Z := 2.
Definition MinPacketPayload : Z := 512.
Definition MaxPacketPayload : Z := 65507.
Definition MinFrameBudget : Z := MinPacketPayload + DgramOverhead.
Definition MaxDatagram : Z := 65507.
Definition ControlFloor : Z := 300.
Definition FseqWindowBits : Z := 8192.
Definition DefaultSeqWindowBits : Z := 16384.

(** detach.go, down.go *)
Definition DetachLen : Z := 5.
Definition DownLen : Z := 4.

(** ** Enumerations *)
Definition KindStream : Z := 1.
Definition KindDatagram : Z := 2.
Definition RoleDialer : Z := 1.
Definition RolePassive : Z := 2.

Definition PrefaceOK : Z := 0.
Definition PrefaceVersion : Z := 1.
Definition PrefaceFeature : Z := 2.
Definition PrefaceGoingAway : Z := 3.
Definition PrefaceCapacity : Z := 4.

Definition TypeOpen : Z := 0x01.
Definition TypeOpenAck : Z := 0x02.
Definition TypeJoin : Z := 0x03.
Definition TypeJoinAck : Z := 0x04.
Definition TypeData : Z := 0x10.
Definition TypeAck : Z := 0x11.
Definition TypeFin : Z := 0x12.
Definition TypeRst : Z := 0x13.
Definition TypeSched : Z := 0x14.
Definition TypePing : Z := 0x30.
Definition TypePong : Z := 0x31.
Definition TypeClose : Z := 0x32.
Definition TypeGoAway : Z := 0x33.
Definition TypeDgram : Z := 0x20.
Definition TypePack : Z := 0x21.
Definition TypeRel : Z := 0x34.
Definition TypeRack : Z := 0x35.
Definition TypeReservedR : Z := 0x52.
Definition TypeDetach : Z := 0x36.
Definition TypeDown : Z := 0x37.

Definition FlagAckFinDelivered : Z := Z.shiftl 1 0.
Definition FlagAckDone : Z := Z.shiftl 1 1.
Definition FlagPingBusy : Z := Z.shiftl 1 0.
Definition SchedCauseMask : Z := 0x03.
Definition FlagPackFinDelivered : Z := Z.shiftl 1 0.
Definition FlagPackDone : Z := Z.shiftl 1 1.

Definition SchedInitial : Z := 0.
Definition SchedDeath : Z := 1.
Definition SchedQuality : Z := 2.
Definition SchedExplicit : Z := 3.

Definition StatusOK : Z := 0.
Definition StatusUnknownSession : Z := 1.
Definition StatusCapacity : Z := 2.
Definition StatusRejected : Z := 3.
Definition StatusBadRequest : Z := 4.
Definition StatusGoingAway : Z := 5.

Definition OpenFlagEarly : Z := Z.shiftl 1 0.
Definition EarlyWindow : Z := Z.shiftl 1 16.
Definition CloseRetire : Z := 1.
Definition CloseCapacity : Z := 2.
Definition GoAwayShutdown : Z := 1.
Definition DetachEnded : Z := 1.
Definition DetachRetired : Z := 2.

#[export] Hint Unfold Major Minor PrefaceLen HeaderLen TrailerLen FrameOverhead
  DataPrefixLen DataHeadLen OpenFixedLen OpenAckFixedLen JoinLen
  JoinAckLen AckLen FinLen RstFixedLen SchedFixedLen PingFixedLen ReasonLen
  MaxSchedIDs MaxMsg MaxMetadata ModeRace MaxMode DgramPrefixLen DgramOverhead
  PackLen RelHeadLen RelMaxPayload RackLen RelWindow FlowHeaderLen FlowVersion
  MinPacketPayload MaxPacketPayload MinFrameBudget MaxDatagram DetachLen DownLen
  KindStream KindDatagram RoleDialer RolePassive PrefaceOK PrefaceVersion
  PrefaceFeature PrefaceGoingAway PrefaceCapacity StatusOK StatusUnknownSession
  StatusCapacity StatusRejected StatusBadRequest StatusGoingAway CloseRetire
  CloseCapacity GoAwayShutdown DetachEnded DetachRetired : rendr_const.

Lemma MaxFramePayload_eq : MaxFramePayload = 1048576. Proof. done. Qed.
Lemma MaxPingPad_eq : MaxPingPad = 65516. Proof. done. Qed.

(** [t] is one of the values listed: Go's [switch] with one case. *)
Definition oneof (t : Z) (l : list Z) : bool := existsb (Z.eqb t) l.

Lemma oneof_In t l : oneof t l = true ↔ t ∈ l.
Proof.
  unfold oneof. rewrite existsb_exists, list_elem_of_In.
  split; [intros (x & Hx & He); by apply Z.eqb_eq in He as ->|].
  intros Ht. exists t. split; [done|]. by apply Z.eqb_eq.
Qed.

(** ** Type tables *)
Definition Extension (t : Z) : bool := 0x80 <=? t.

Definition CarrierLevel (t : Z) : bool :=
  oneof t [TypePing; TypePong; TypeClose; TypeGoAway; TypeRel; TypeRack;
           TypeDetach; TypeDown].

Definition Known (t : Z) : bool :=
  oneof t [TypeOpen; TypeOpenAck; TypeJoin; TypeJoinAck; TypeData; TypeAck;
           TypeFin; TypeRst; TypeSched; TypePing; TypePong; TypeClose; TypeGoAway;
           TypeDgram; TypePack; TypeRel; TypeRack; TypeDetach; TypeDown].

Definition Wrappable (t : Z) : bool :=
  oneof t [TypeOpen; TypeOpenAck; TypeJoin; TypeJoinAck; TypeFin; TypeRst;
           TypeSched; TypeClose; TypeGoAway; TypePack; TypeDetach; TypeDown].

Definition AllowedFlags (t : Z) : Z :=
  if Extension t then 0xFF
  else if t =? TypeAck then Z.lor FlagAckFinDelivered FlagAckDone
  else if t =? TypePack then Z.lor FlagPackFinDelivered FlagPackDone
  else if t =? TypePing then FlagPingBusy
  else if t =? TypeSched then SchedCauseMask
  else 0.

(** [handleOK]: 0 exactly for a carrier-level type. *)
Definition handleOK (t handle : Z) : bool := Bool.eqb (CarrierLevel t) (handle =? 0).

(** PayloadBounds: [None] is the source's [ok = false]. *)
Definition PayloadBounds (t : Z) : option (Z * Z) :=
  if Extension t then Some (0, MaxFramePayload)
  else if t =? TypeOpen then Some (OpenFixedLen, OpenFixedLen + MaxMetadata)
  else if t =? TypeOpenAck then Some (OpenAckFixedLen, OpenAckFixedLen + MaxMsg)
  else if t =? TypeJoin then Some (JoinLen, JoinLen)
  else if t =? TypeJoinAck then Some (JoinAckLen, JoinAckLen)
  else if t =? TypeData then Some (DataPrefixLen + 1, MaxFramePayload)
  else if t =? TypeAck then Some (AckLen, AckLen)
  else if t =? TypeFin then Some (FinLen, FinLen)
  else if t =? TypeRst then Some (RstFixedLen, RstFixedLen + MaxMsg)
  else if t =? TypeSched then Some (SchedFixedLen + 4, SchedFixedLen + 4 * MaxSchedIDs)
  else if oneof t [TypePing; TypePong] then Some (PingFixedLen, PingFixedLen + MaxPingPad)
  else if oneof t [TypeClose; TypeGoAway] then Some (ReasonLen, ReasonLen)
  else if t =? TypeDgram then Some (DgramPrefixLen, MaxFramePayload)
  else if t =? TypePack then Some (PackLen, PackLen)
  else if t =? TypeRel then Some (RelHeadLen, MaxFramePayload)
  else if t =? TypeRack then Some (RackLen, RackLen)
  else if t =? TypeDetach then Some (DetachLen, DetachLen)
  else if t =? TypeDown then Some (DownLen, DownLen)
  else None.

(** The [(lo, hi)] the callers use; Go's zero results for an unknown type. *)
Definition bounds_of (t : Z) : Z * Z := default (0, 0) (PayloadBounds t).

(** Type.String: the name, or "0xNN" in lower-case hexadecimal. *)
Definition hexdigit (d : Z) : string :=
  String.substring (Z.to_nat d) 1 "0123456789abcdef".

Definition Type_String (t : Z) : string :=
  if t =? TypeOpen then "OPEN"
  else if t =? TypeOpenAck then "OPEN_ACK"
  else if t =? TypeJoin then "JOIN"
  else if t =? TypeJoinAck then "JOIN_ACK"
  else if t =? TypeData then "DATA"
  else if t =? TypeAck then "ACK"
  else if t =? TypeFin then "FIN"
  else if t =? TypeRst then "RST"
  else if t =? TypeSched then "SCHED"
  else if t =? TypePing then "PING"
  else if t =? TypePong then "PONG"
  else if t =? TypeClose then "CLOSE"
  else if t =? TypeGoAway then "GOAWAY"
  else if t =? TypeDgram then "DGRAM"
  else if t =? TypePack then "PACK"
  else if t =? TypeRel then "REL"
  else if t =? TypeRack then "RACK"
  else if t =? TypeDetach then "DETACH"
  else if t =? TypeDown then "DOWN"
  else "0x" ++ hexdigit (Z.shiftr t 4) ++ hexdigit (Z.land t 0x0f).

(** ** Facts about the tables *)

(** The type bytes, for statements checked by evaluation. *)
Definition all_types : list Z := map Z.of_nat (seq 0 256).

Lemma all_types_spec t : is_u8 t → t ∈ all_types.
Proof.
  intros Ht. unfold fits in Ht. unfold all_types. apply list_elem_of_In, in_map_iff.
  exists (Z.to_nat t). rewrite in_seq. lia.
Qed.

(** Prove [∀ t, is_u8 t → P t = true] by evaluating [P] on all 256 bytes. *)
Lemma by_all_types (P : Z → bool) :
  forallb P all_types = true → ∀ t, is_u8 t → P t = true.
Proof.
  intros H t Ht. rewrite forallb_forall in H. apply H, list_elem_of_In.
  by apply all_types_spec.
Qed.

(** What the tables promise each other, for every type byte. *)
Definition type_tables_ok (t : Z) : bool :=
  implb (Known t) (negb (Extension t)) &&
  implb (CarrierLevel t) (Known t) &&
  implb (Wrappable t) (Known t && negb (t =? TypeRel) && negb (t =? TypeRack)) &&
  Bool.eqb (bool_decide (is_Some (PayloadBounds t))) (Known t || Extension t) &&
  (0 <=? fst (bounds_of t)) &&
  implb (Known t || Extension t)
    ((fst (bounds_of t) <=? snd (bounds_of t)) && (snd (bounds_of t) <=? MaxFramePayload)) &&
  (0 <=? AllowedFlags t) && (AllowedFlags t <=? 255) &&
  (negb (t =? TypeReservedR) || negb (Known t || Extension t)).
