(* ===== verification/WireCrc.v ===== *)
(** CRC32C (Castagnoli) as every preface and frame carries it.

    [MakeTable] and [Update] are hash/crc32's table construction and
    byte-wise update (reflected polynomial 0x82f63b78), executable on 32-bit
    numbers; [CRC] and [CRCUpdate] are the two functions of
    internal/wire/frame.go.  The theorems: chaining over pieces equals one
    pass, and a change confined to four consecutive bytes always changes the
    checksum. *)

From Stdlib Require Import ZArith Lia.
From stdpp Require Import base numbers list.
From S2P Require Import Prelude.

Open Scope Z_scope.

Definition Castagnoli : Z := 0x82f63b78.

(** hash/crc32 simpleMakeTable: entry [i]. *)
Fixpoint tab_loop (k : nat) (crc : Z) : Z :=
  match k with
  | O => crc
  | S k => tab_loop k (if Z.land crc 1 =? 1
                       then Z.lxor (Z.shiftr crc 1) Castagnoli
                       else Z.shiftr crc 1)
  end.

Definition Table : list Z := Eval vm_compute in map (λ i, tab_loop 8 (Z.of_nat i)) (seq 0 256).

#[global] Opaque Table.

Definition tab (i : Z) : Z := nth (Z.to_nat i) Table 0.

Definition crc_not (x : Z) : Z := Z.lxor x 0xFFFFFFFF.

(** hash/crc32 simpleUpdate: one byte. *)
Definition crc_step (crc v : Z) : Z :=
  Z.lxor (tab (Z.lxor (Z.land crc 0xFF) v)) (Z.shiftr crc 8).

Definition crc_run (crc : Z) (b : bytes) : Z := foldl crc_step crc b.

Definition CRCUpdate (crc : Z) (b : bytes) : Z := crc_not (crc_run (crc_not crc) b).

Definition CRC (b : bytes) : Z := CRCUpdate 0 b.

(** The check value of CRC-32C: "123456789". *)
Example CRC_check : CRC [49; 50; 51; 52; 53; 54; 55; 56; 57] = 0xe3069283.
Proof. reflexivity. Qed.

(** ** Ranges *)

Lemma fits_lxor w x y : 0 ≤ w → fits w x → fits w y → fits w (Z.lxor x y).
Proof.
  unfold fits. intros Hw Hx Hy.
  assert (0 ≤ Z.lxor x y) as Hn by (apply Z.lxor_nonneg; lia).
  split; [done|].
  destruct (Z.eq_dec (Z.lxor x y) 0) as [->|Hne]; [lia|].
  apply Z.log2_lt_pow2; [lia|].
  eapply Z.le_lt_trans; [apply Z.log2_lxor; lia|].
  assert (0 < w).
  { destruct (Z.eq_dec w 0) as [->|]; [|lia].
    assert (x = 0) as -> by lia. assert (y = 0) as -> by lia. done. }
  apply Z.max_lub_lt.
  - destruct (Z.eq_dec x 0) as [->|]; [simpl; lia|]. apply Z.log2_lt_pow2; lia.
  - destruct (Z.eq_dec y 0) as [->|]; [simpl; lia|]. apply Z.log2_lt_pow2; lia.
Qed.

Lemma land_ff x : Z.land x 0xFF = x mod 2 ^ 8.
Proof. by rewrite <- Z.land_ones. Qed.

Lemma fits_land_ff x : is_u8 (Z.land x 0xFF).
Proof. rewrite land_ff. by apply (wrap_fits 8). Qed.

Lemma fits_shiftr8 x : is_u32 x → fits 24 (Z.shiftr x 8).
Proof.
  unfold fits. rewrite Z.shiftr_div_pow2 by lia. intros.
  split; [apply Z.div_pos; lia|]. apply Z.div_lt_upper_bound; lia.
Qed.

Lemma Forall_nth_Z {A} (P : A → Prop) l d i : Forall P l → 0 ≤ i < len l → P (nth (Z.to_nat i) l d).
Proof.
  intros Hl Hi. unfold len in Hi.
  apply Forall_forall with (x := nth (Z.to_nat i) l d) in Hl; [done|].
  apply list_elem_of_In, nth_In. lia.
Qed.

Lemma tab_fits i : is_u8 i → is_u32 (tab i).
Proof.
  intros Hi. unfold tab. apply Forall_nth_Z; [|exact Hi].
  apply (bool_decide_eq_true_1 (Forall (fits 32) Table)). vm_compute. done.
Qed.

Lemma crc_index_fits s v : is_u8 v → is_u8 (Z.lxor (Z.land s 0xFF) v).
Proof. intros. apply fits_lxor; [lia|apply fits_land_ff|done]. Qed.

Lemma crc_step_fits s v : is_u32 s → is_u8 v → is_u32 (crc_step s v).
Proof.
  intros Hs Hv. unfold crc_step. apply fits_lxor; [lia| |].
  - by apply tab_fits, crc_index_fits.
  - pose proof (fits_shiftr8 s Hs). unfold fits in *. lia.
Qed.

Lemma crc_run_fits b : ∀ s, is_u32 s → Bytes b → is_u32 (crc_run s b).
Proof.
  induction b as [|v b IH]; intros s Hs Hb; [done|].
  inversion Hb; subst. simpl. apply IH; [|done]. by apply crc_step_fits.
Qed.

Lemma crc_not_fits x : is_u32 x → is_u32 (crc_not x).
Proof. intros. apply fits_lxor; [lia|done|]. unfold fits. lia. Qed.

Lemma CRC_fits b : Bytes b → is_u32 (CRC b).
Proof.
  intros. apply crc_not_fits, crc_run_fits; [|done]. vm_compute. split; congruence.
Qed.
#[export] Hint Resolve CRC_fits : rendr.

Lemma crc_not_involutive x : crc_not (crc_not x) = x.
Proof. unfold crc_not. rewrite Z.lxor_assoc, Z.lxor_nilpotent. apply Z.lxor_0_r. Qed.

Lemma crc_not_inj x y : crc_not x = crc_not y → x = y.
Proof. intros H. apply (f_equal crc_not) in H. by rewrite !crc_not_involutive in H. Qed.

Lemma crc_run_app s a b : crc_run s (a ++ b) = crc_run (crc_run s a) b.
Proof. apply foldl_app. Qed.

(** ** Error detection *)

(** The top bytes of the table's entries are pairwise different. *)
Lemma tab_top_inj i j :
  is_u8 i → is_u8 j → Z.shiftr (tab i) 24 = Z.shiftr (tab j) 24 → i = j.
Proof.
  intros Hi Hj He.
  assert (NoDup (map (λ x, Z.shiftr x 24) Table)) as Hnd.
  { apply (bool_decide_eq_true_1 (NoDup _)). vm_compute. done. }
  rewrite NoDup_alt in Hnd. unfold fits in *.
  assert (Z.to_nat i = Z.to_nat j) as Hij; [|lia].
  assert (∀ k, 0 ≤ k < 256 →
    map (λ x, Z.shiftr x 24) Table !! Z.to_nat k = Some (Z.shiftr (tab k) 24)) as Hl.
  { intros k Hk. rewrite list_lookup_fmap. unfold tab.
    assert (Z.to_nat k < length Table)%nat as Hlt by (change (length Table) with 256%nat; lia).
    destruct (lookup_lt_is_Some_2 Table _ Hlt) as [x Hx].
    by rewrite Hx, (nth_lookup_Some _ _ 0 _ Hx). }
  eapply Hnd; [by apply Hl|]. rewrite He. by apply Hl.
Qed.

Lemma lxor_cancel_l a x y : Z.lxor a x = Z.lxor a y → x = y.
Proof.
  intros H. apply (f_equal (Z.lxor a)) in H.
  by rewrite <- !Z.lxor_assoc, !Z.lxor_nilpotent, !Z.lxor_0_l in H.
Qed.

Lemma shiftr_u32_24 s k : is_u32 s → 0 ≤ k → Z.shiftr (Z.shiftr s 8) (24 + k) = 0.
Proof.
  intros Hs Hk. pose proof (fits_shiftr8 s Hs) as H. unfold fits in H.
  rewrite Z.shiftr_div_pow2 by lia. apply Z.div_small. split; [lia|].
  eapply Z.lt_le_trans; [apply H|]. apply Z.pow_le_mono_r; lia.
Qed.

(** Going back over one byte: equal high parts of two states after a step
    determine the table index used, and equal high parts (eight bits fewer)
    before it. *)
Lemma crc_step_back s s' v v' k :
  is_u32 s → is_u32 s' → is_u8 v → is_u8 v' → 0 ≤ k ≤ 24 →
  Z.shiftr (crc_step s v) k = Z.shiftr (crc_step s' v') k →
  Z.lxor (Z.land s 0xFF) v = Z.lxor (Z.land s' 0xFF) v' ∧
  Z.shiftr s (k + 8) = Z.shiftr s' (k + 8).
Proof.
  intros Hs Hs' Hv Hv' Hk He. unfold crc_step in He.
  assert (Z.lxor (Z.land s 0xFF) v = Z.lxor (Z.land s' 0xFF) v') as Hi.
  { apply tab_top_inj; [by apply crc_index_fits..|].
    apply (f_equal (λ x, Z.shiftr x (24 - k))) in He.
    rewrite !Z.shiftr_shiftr in He by lia.
    replace (k + (24 - k)) with (24 + 0) in He by lia.
    rewrite !Z.shiftr_lxor, !shiftr_u32_24, !Z.lxor_0_r in He by (done || lia). done. }
  split; [done|]. rewrite Hi, !Z.shiftr_lxor in He. apply lxor_cancel_l in He.
  rewrite !Z.shiftr_shiftr in He by lia.
  by replace (k + 8) with (8 + k) by lia.
Qed.

Lemma crc_step_inj s s' v : is_u32 s → is_u32 s' → is_u8 v →
  crc_step s v = crc_step s' v → s = s'.
Proof.
  intros Hs Hs' Hv He.
  destruct (crc_step_back s s' v v 0 Hs Hs' Hv Hv) as [Hi Hh]; [lia|by rewrite He|].
  rewrite (Z.lxor_comm (Z.land s _)), (Z.lxor_comm (Z.land s' _)) in Hi.
  apply lxor_cancel_l in Hi. rewrite !land_ff in Hi.
  rewrite !Z.shiftr_div_pow2 in Hh by lia.
  rewrite (Z.div_mod s (2 ^ 8)), (Z.div_mod s' (2 ^ 8)) by lia.
  change (0 + 8) with 8 in Hh. by rewrite Hi, Hh.
Qed.

Lemma crc_run_inj b : ∀ s s', is_u32 s → is_u32 s' → Bytes b →
  crc_run s b = crc_run s' b → s = s'.
Proof.
  induction b as [|v b IH]; intros s s' Hs Hs' Hb He; [done|].
  inversion Hb; subst. simpl in He.
  apply (crc_step_inj s s' v); [done..|].
  apply IH in He; [done|by apply crc_step_fits..|done].
Qed.

(** Runs of at most four bytes from the same state: equal high parts force
    equal bytes.  [k] is the number of low bits already given up. *)
Lemma crc_run_burst_gen b : ∀ b' s k,
  is_u32 s → Bytes b → Bytes b' → length b = length b' →
  0 ≤ k → k + 8 * len b ≤ 32 →
  Z.shiftr (crc_run s b) k = Z.shiftr (crc_run s b') k → b = b'.
Proof.
  induction b as [|v b IH] using rev_ind; intros b' s k Hs Hb Hb' Hl Hk Hlen He.
  { by destruct b'. }
  destruct b' as [|v' b' _] using rev_ind; [rewrite length_app in Hl; simpl in Hl; lia|].
  rewrite !length_app in Hl. simpl in Hl. rewrite len_app, len_cons, len_nil in Hlen.
  pose proof (len_nonneg b).
  apply Forall_app in Hb as [Hb Hv]. apply Forall_app in Hb' as [Hb' Hv'].
  inversion Hv; inversion Hv'; subst.
  rewrite !crc_run_app in He. simpl in He.
  destruct (crc_step_back (crc_run s b) (crc_run s b') v v' k) as [Hi Hh];
    [by apply crc_run_fits..|done|done|lia|done|].
  assert (b = b') as -> by (apply (IH b' s (k + 8)); (done || lia)).
  f_equal. f_equal. by apply lxor_cancel_l in Hi.
Qed.

Lemma crc_run_burst s b b' :
  is_u32 s → Bytes b → Bytes b' → length b = length b' → len b ≤ 4 →
  crc_run s b = crc_run s b' → b = b'.
Proof.
  intros ????? He. apply (crc_run_burst_gen b b' s 0); (done || lia || by rewrite He).
Qed.

(** Chaining CRC32C over pieces is CRC32C of the whole. *)
Lemma CRCUpdate_chain c a b : CRCUpdate (CRCUpdate c a) b = CRCUpdate c (a ++ b).
Proof. unfold CRCUpdate. by rewrite crc_not_involutive, crc_run_app. Qed.

(** Two messages that differ only inside a window of at most four bytes have
    different checksums. *)
Lemma CRC_detects_burst a b b' c :
  Bytes a → Bytes b → Bytes b' → Bytes c →
  length b = length b' → len b ≤ 4 → b ≠ b' → CRC (a ++ b ++ c) ≠ CRC (a ++ b' ++ c).
Proof.
  intros Ha Hb Hb' Hc Hl Hlen Hne He. apply Hne. unfold CRC, CRCUpdate in He.
  apply crc_not_inj in He. rewrite !crc_run_app in He.
  assert (is_u32 (crc_run (crc_not 0) a)) as Hs.
  { apply crc_run_fits; [|done]. vm_compute. split; congruence. }
  apply (crc_run_burst _ b b' Hs Hb Hb' Hl Hlen).
  apply (crc_run_inj c); [by apply crc_run_fits..|done|done].
Qed.
