(* ===== verification/WireFrame.v ===== *)
(** Frames of wire format v2: header, trailer and whole-frame codec.

    Models internal/wire/frame.go.  Frame layout, big-endian:
    type u8, flags u8, len u24, fseq u32, handle u32, payload, crc32c u32. *)

From Stdlib Require Import ZArith Lia.
From stdpp Require Import base numbers list.
From S2P Require Import Prelude Buffers WireConst WireCrc.

Open Scope Z_scope.
Open Scope rendr_scope.

Record Header := mkHeader {
  h_Type : Z;
  h_Flags : Z;
  h_Len : Z;
  h_Fseq : Z;
  h_Handle : Z
}.

(** The field types of the struct. *)
Definition header_fits (h : Header) : Prop :=
  is_u8 (h_Type h) ∧ is_u8 (h_Flags h) ∧ is_u32 (h_Len h) ∧
  is_u32 (h_Fseq h) ∧ is_u32 (h_Handle h).

Definition PutHeader (b : bytes) (h : Header) : res werr bytes :=
  if MaxFramePayload <? h_Len h then Panic
  else if len b <? HeaderLen then Panic
  else puts b [ (0, be 1 (h_Type h)); (1, be 1 (h_Flags h)); (2, be 3 (h_Len h));
                (5, be 4 (h_Fseq h)); (9, be 4 (h_Handle h)) ].

(** The checks of ParseHeader after the fields were read, in their order. *)
Definition check_header (h : Header) : option werr :=
  if MaxFramePayload <? h_Len h then Some ErrLength
  else if Extension (h_Type h) then None
  else if negb (Known (h_Type h)) then Some ErrType
  else if negb (Z.ldiff (h_Flags h) (AllowedFlags (h_Type h)) =? 0) then Some ErrFlags
  else if negb (handleOK (h_Type h) (h_Handle h)) then Some ErrHandle
  else
    let '(lo, hi) := bounds_of (h_Type h) in
    if (h_Len h <? lo) || (hi <? h_Len h) then Some ErrLength else None.

Definition ParseHeader (b : bytes) : res werr Header :=
  if len b <? HeaderLen then Err ErrShort
  else
    let! t := idx b 0 in
    let! fl := idx b 1 in
    let! b2 := idx b 2 in
    let! b3 := idx b 3 in
    let! b4 := idx b 4 in
    let! fseq := get b 5 9 in
    let! handle := get b 9 13 in
    let h := mkHeader t fl (Z.lor (Z.lor (Z.shiftl b2 16) (Z.shiftl b3 8)) b4) fseq handle in
    match check_header h with
    | Some e => Err e
    | None => Ok h
    end.

Definition PutTrailer (b : bytes) (crc : Z) : res werr bytes :=
  if len b <? 4 then Panic else puts b [(0, be 4 crc)].

Definition Trailer (b : bytes) : res werr Z :=
  let! b0 := idx b 0 in
  let! b1 := idx b 1 in
  let! b2 := idx b 2 in
  let! b3 := idx b 3 in
  Ok (Z.lor (Z.lor (Z.lor (Z.shiftl b0 24) (Z.shiftl b1 16)) (Z.shiftl b2 8)) b3).

(** AppendFrame: the header bytes and the trailer bytes are written into
    memory the append made room for, whose former content is overwritten. *)
Definition AppendFrame (dst : bytes) (h : Header) (payload : bytes) : res werr bytes :=
  if MaxFramePayload <? len payload then Panic
  else
    let h := mkHeader (h_Type h) (h_Flags h) (u32 (len payload)) (h_Fseq h) (h_Handle h) in
    let! hb := PutHeader (replicate (Z.to_nat HeaderLen) 0) h in
    let frame := hb ++ payload in
    let! tb := PutTrailer (replicate (Z.to_nat TrailerLen) 0) (CRC frame) in
    Ok (dst ++ frame ++ tb).

Record Frame := mkFrame { f_Header : Header; f_Payload : bytes }.

Definition DecodeFrame (b : bytes) : res werr (Frame * Z) :=
  let! h := ParseHeader b in
  let fend := HeaderLen + h_Len h in
  if len b - TrailerLen <? fend then Err ErrShort
  else
    let! body := sub b 0 fend in
    let! tail := sub b fend (len b) in
    let! t := Trailer tail in
    if negb (CRC body =? t) then Err ErrCRC
    else
      let! payload := sub b HeaderLen fend in
      Ok (mkFrame h payload, fend + TrailerLen).

(** RFC 1982 serial comparison on uint32. *)
Definition SeqLess (a b : Z) : bool := negb (a =? b) && (0 <? i32 (b - a)).

(** ** The pure views *)

Definition enc_header (h : Header) : bytes :=
  be 1 (h_Type h) ++ be 1 (h_Flags h) ++ be 3 (h_Len h) ++
  be 4 (h_Fseq h) ++ be 4 (h_Handle h).

Definition dec_header (b : bytes) : Header :=
  mkHeader (field b 0 1) (field b 1 2) (field b 2 5) (field b 5 9) (field b 9 13).

Definition enc_frame (h : Header) (payload : bytes) : bytes :=
  let b := enc_header h ++ payload in b ++ be 4 (CRC b).

Lemma len_enc_header h : len (enc_header h) = 13.
Proof. unfold enc_header. len_lia. Qed.
#[export] Hint Rewrite len_enc_header : rendr_len.

Lemma Bytes_enc_header h : Bytes (enc_header h).
Proof. unfold enc_header. repeat apply Forall_app_2; auto with rendr. Qed.
#[export] Hint Resolve Bytes_enc_header : rendr.

Lemma PutHeader_ok b h :
  HeaderLen ≤ len b → h_Len h ≤ MaxFramePayload →
  PutHeader b h = Ok (enc_header h ++ drop (Z.to_nat HeaderLen) b).
Proof.
  intros Hb Hl. unfold PutHeader.
  destruct (Z.ltb_spec MaxFramePayload (h_Len h)); [lia|].
  destruct (Z.ltb_spec (len b) HeaderLen); [lia|].
  rewrite puts_contig; [done|cbn; len_lia|].
  unfold fields_of. simpl. len_lia.
Qed.

Lemma PutTrailer_ok b c :
  TrailerLen ≤ len b → PutTrailer b c = Ok (be 4 c ++ drop (Z.to_nat TrailerLen) b).
Proof.
  intros Hb. unfold PutTrailer, TrailerLen in *. destruct (Z.ltb_spec (len b) 4); [lia|].
  by rewrite puts_contig.
Qed.

Lemma lor3 x y z : is_u8 y → is_u8 z →
  Z.lor (Z.lor (Z.shiftl x 16) (Z.shiftl y 8)) z = x * 2 ^ 16 + y * 2 ^ 8 + z.
Proof.
  intros Hy Hz. change 16 with (8 + 8) at 1.
  rewrite <- Z.shiftl_shiftl, <- Z.shiftl_lor by lia.
  rewrite !lor_shiftl_add by (done || lia). lia.
Qed.

Lemma lor4 x y z w : is_u8 y → is_u8 z → is_u8 w →
  Z.lor (Z.lor (Z.lor (Z.shiftl x 24) (Z.shiftl y 16)) (Z.shiftl z 8)) w =
  x * 2 ^ 24 + y * 2 ^ 16 + z * 2 ^ 8 + w.
Proof.
  intros Hy Hz Hw. change 24 with (8 + 16) at 1.
  rewrite <- Z.shiftl_shiftl, <- Z.shiftl_lor by lia.
  change 16 with (8 + 8) at 1.
  rewrite <- Z.shiftl_shiftl, <- Z.shiftl_lor by lia.
  rewrite !lor_shiftl_add by (done || lia). lia.
Qed.

Lemma ParseHeader_eq b :
  Bytes b → HeaderLen ≤ len b →
  ParseHeader b = match check_header (dec_header b) with
                  | Some e => Err e | None => Ok (dec_header b) end.
Proof.
  intros HB Hb. unfold ParseHeader, dec_header.
  destruct (Z.ltb_spec (len b) HeaderLen); [lia|].
  reads.
  rewrite lor3 by (apply (field_fits b); (done || len_lia)).
  rewrite (field_cons b 2 5), (field_cons b (2 + 1) 5) by len_lia.
  by rewrite <- Z.add_assoc.
Qed.

Lemma ParseHeader_short b : len b < HeaderLen → ParseHeader b = Err ErrShort.
Proof. intros. unfold ParseHeader. by destruct (Z.ltb_spec (len b) HeaderLen); [|lia]. Qed.

Lemma Trailer_eq b : Bytes b → TrailerLen ≤ len b → Trailer b = Ok (field b 0 4).
Proof.
  intros HB Hb. unfold Trailer, TrailerLen in *. reads.
  rewrite lor4 by (apply (field_fits b); (done || len_lia)).
  rewrite (field_cons b 0 4), (field_cons b (0 + 1) 4), (field_cons b (0 + 1 + 1) 4) by lia.
  f_equal. norm_pos. lia.
Qed.

Lemma dec_header_fits b : Bytes b → HeaderLen ≤ len b → header_fits (dec_header b).
Proof.
  intros HB Hb. unfold dec_header. repeat split; simpl;
    try (eapply field_fits; (done || len_lia)).
  all: assert (fits 24 (field b 2 5)) as Hf by (apply field_fits; (done || len_lia));
    unfold fits in *; lia.
Qed.

Lemma enc_dec_header b :
  Bytes b → HeaderLen ≤ len b → enc_header (dec_header b) = slice b 0 HeaderLen.
Proof.
  intros HB Hb. unfold enc_header, dec_header.
  cbn [h_Type h_Flags h_Len h_Fseq h_Handle].
  rewrite !be_field by (done || len_lia). unfold HeaderLen.
  rewrite !slice_join by lia. done.
Qed.

Lemma dec_enc_header h rest :
  header_fits h → h_Len h ≤ MaxFramePayload → dec_header (enc_header h ++ rest) = h.
Proof.
  intros (Ht & Hf & Hl & Hs & Hh) Hm. destruct h as [t fl l fs hd].
  cbn [h_Type h_Flags h_Len h_Fseq h_Handle] in *.
  rewrite MaxFramePayload_eq in Hm.
  unfold dec_header, enc_header.
  cbn [h_Type h_Flags h_Len h_Fseq h_Handle].
  rewrite <- !app_assoc. by fields.
Qed.

Lemma check_header_max h : check_header h = None → h_Len h ≤ MaxFramePayload.
Proof. unfold check_header. by destruct (Z.ltb_spec MaxFramePayload (h_Len h)). Qed.

(** A header the codec accepts. *)
Definition header_valid (h : Header) : Prop := header_fits h ∧ check_header h = None.

Definition with_len (h : Header) (n : Z) : Header :=
  mkHeader (h_Type h) (h_Flags h) n (h_Fseq h) (h_Handle h).

Lemma len_enc_frame h p : len (enc_frame h p) = FrameOverhead + len p.
Proof. unfold enc_frame. len_lia. Qed.

Lemma Bytes_enc_frame h p : Bytes p → Bytes (enc_frame h p).
Proof. intros. unfold enc_frame. repeat apply Forall_app_2; auto with rendr. Qed.

Lemma AppendFrame_eq dst h p :
  len p ≤ MaxFramePayload →
  AppendFrame dst h p = Ok (dst ++ enc_frame (with_len h (len p)) p).
Proof.
  intros Hp. unfold AppendFrame.
  destruct (Z.ltb_spec MaxFramePayload (len p)); [lia|].
  rewrite wrap_small by (rewrite MaxFramePayload_eq in *; pose proof (len_nonneg p); unfold fits; lia).
  rewrite PutHeader_ok by (done || len_lia). cbn [res_bind].
  rewrite drop_ge by (rewrite length_replicate; done). rewrite app_nil_r.
  rewrite PutTrailer_ok by len_lia. cbn [res_bind].
  rewrite drop_ge by (rewrite length_replicate; done). by rewrite app_nil_r.
Qed.

Lemma DecodeFrame_eq b :
  Bytes b → HeaderLen ≤ len b → check_header (dec_header b) = None →
  let h := dec_header b in
  let e := HeaderLen + h_Len h in
  DecodeFrame b =
    if len b - TrailerLen <? e then Err ErrShort
    else if CRC (slice b 0 e) =? field b e (e + TrailerLen)
         then Ok (mkFrame h (slice b HeaderLen e), e + TrailerLen)
         else Err ErrCRC.
Proof.
  intros HB Hb Hc h e. unfold DecodeFrame. rewrite ParseHeader_eq, Hc by done.
  cbn [res_bind]. fold h. fold e.
  destruct (Z.ltb_spec (len b - TrailerLen) e); [done|].
  pose proof (dec_header_fits b HB Hb) as (_ & _ & [Hl _] & _).
  assert (0 ≤ e ∧ HeaderLen ≤ e ∧ e + 4 ≤ len b) as (? & ? & ?).
  { subst e h. unfold TrailerLen, HeaderLen in *. lia. }
  rewrite !sub_ok by (unfold HeaderLen in *; lia). cbn [res_bind].
  rewrite Trailer_eq; [|by apply Bytes_slice|rewrite len_slice; unfold TrailerLen; lia].
  cbn [res_bind]. unfold field. rewrite slice_slice by lia.
  rewrite Z.add_0_r. change (e + TrailerLen) with (e + 4).
  by destruct (CRC (slice b 0 e) =? _).
Qed.

Lemma DecodeFrame_enc h p rest :
  header_valid h → h_Len h = len p → Bytes p → Bytes rest →
  DecodeFrame (enc_frame h p ++ rest) = Ok (mkFrame h p, len (enc_frame h p)).
Proof.
  intros [Hf Hc] Hl Hp Hr. pose proof (check_header_max h Hc) as Hm.
  pose proof (len_enc_frame h p) as Hlen. pose proof (len_nonneg p). pose proof (len_nonneg rest).
  assert (dec_header (enc_frame h p ++ rest) = h) as Hd.
  { unfold enc_frame. rewrite <- !app_assoc. by apply dec_enc_header. }
  rewrite DecodeFrame_eq; rewrite ?Hd; try done.
  2:{ apply Forall_app_2; [by apply Bytes_enc_frame|done]. }
  2:{ len_lia. }
  rewrite len_app, Hlen, Hl. unfold FrameOverhead.
  destruct (Z.ltb_spec (HeaderLen + TrailerLen + len p + len rest - TrailerLen) (HeaderLen + len p));
    [lia|].
  assert (len (enc_header h ++ p) = HeaderLen + len p) as He by len_lia.
  assert (slice (enc_frame h p ++ rest) 0 (HeaderLen + len p) = enc_header h ++ p) as ->.
  { unfold enc_frame. rewrite <- app_assoc, slice_app_l by (unfold HeaderLen in *; lia).
    by apply slice_full. }
  assert (field (enc_frame h p ++ rest) (HeaderLen + len p) (HeaderLen + len p + TrailerLen)
          = CRC (enc_header h ++ p)) as ->.
  { unfold enc_frame. rewrite <- app_assoc, field_app_r by lia. rewrite He.
    rewrite field_app_l by len_lia. replace (_ - _) with 0 by lia.
    apply field_be; [done|unfold TrailerLen; lia|].
    apply CRC_fits, Forall_app_2; auto with rendr. }
  rewrite Z.eqb_refl. f_equal. f_equal; [|unfold HeaderLen, TrailerLen; lia].
  f_equal. unfold enc_frame. rewrite <- !app_assoc.
  rewrite slice_app_r by len_lia. rewrite len_enc_header. change 13 with HeaderLen.
  replace (HeaderLen - HeaderLen) with 0 by lia.
  replace (HeaderLen + len p - HeaderLen) with (len p) by lia.
  rewrite slice_app_l by lia. by apply slice_full.
Qed.

Lemma DecodeFrame_inv b f n :
  Bytes b → DecodeFrame b = Ok (f, n) →
  header_valid (f_Header f) ∧ h_Len (f_Header f) = len (f_Payload f) ∧
  n = FrameOverhead + len (f_Payload f) ∧ n ≤ len b ∧ HeaderLen ≤ len b ∧
  f_Header f = dec_header b ∧
  slice b 0 n = enc_frame (f_Header f) (f_Payload f).
Proof.
  intros HB H.
  destruct (Z.lt_ge_cases (len b) HeaderLen) as [Hs|Hb].
  { unfold DecodeFrame in H. by rewrite ParseHeader_short in H. }
  destruct (check_header (dec_header b)) eqn:Hc.
  { unfold DecodeFrame in H. by rewrite ParseHeader_eq, Hc in H. }
  rewrite DecodeFrame_eq in H by done. cbv zeta in H.
  pose proof (dec_header_fits b HB Hb) as Hf.
  set (e := HeaderLen + h_Len (dec_header b)) in *.
  destruct (Z.ltb_spec (len b - TrailerLen) e); [done|].
  destruct (Z.eqb_spec (CRC (slice b 0 e)) (field b e (e + TrailerLen))) as [Hcrc|]; [|done].
  injection H as <- <-. cbn [f_Header f_Payload].
  assert (0 ≤ h_Len (dec_header b)) by apply Hf.
  assert (HeaderLen ≤ e) by (subst e; lia).
  assert (len (slice b HeaderLen e) = h_Len (dec_header b)) as Hlp.
  { rewrite len_slice; unfold TrailerLen, HeaderLen in *; lia. }
  split_and!; try done; [by rewrite Hlp; unfold FrameOverhead; lia|lia|].
  unfold enc_frame. rewrite enc_dec_header by done.
  rewrite slice_join by (unfold HeaderLen in *; lia).
  rewrite Hcrc. rewrite be_field by (try done; unfold TrailerLen, HeaderLen in *; lia).
  symmetry. apply slice_join; unfold TrailerLen, HeaderLen in *; lia.
Qed.

Lemma DecodeFrame_no_panic b : Bytes b → DecodeFrame b ≠ Panic.
Proof.
  intros HB. destruct (Z.lt_ge_cases (len b) HeaderLen) as [Hs|Hb].
  { unfold DecodeFrame. by rewrite ParseHeader_short. }
  destruct (check_header (dec_header b)) eqn:Hc.
  { unfold DecodeFrame. by rewrite ParseHeader_eq, Hc. }
  rewrite DecodeFrame_eq by done. cbv zeta.
  by repeat (case_match; try done).
Qed.

(** ** Properties *)

(** C8. Round trip: AppendFrame appends the encoding of the frame to what it is
    given, and DecodeFrame reads exactly that frame back, whatever follows. *)
Theorem frame_roundtrip h p dst rest :
  header_valid (with_len h (len p)) → Bytes p → Bytes rest →
  ∃ e, AppendFrame dst h p = Ok (dst ++ e) ∧
       DecodeFrame (e ++ rest) = Ok (mkFrame (with_len h (len p)) p, len e).
Proof.
  intros Hv Hp Hr. exists (enc_frame (with_len h (len p)) p). split.
  - apply AppendFrame_eq. destruct Hv as [_ Hc]. by apply check_header_max in Hc.
  - by apply DecodeFrame_enc.
Qed.

(** A PING frame of 20 payload bytes. *)
Definition frame_demo : bytes :=
  enc_frame (mkHeader TypePing 1 20 7 0) (be 20 12345).

Lemma frame_demo_bytes : Bytes frame_demo.
Proof. apply Bytes_enc_frame. apply Bytes_be. Qed.

Lemma frame_demo_decode :
  DecodeFrame frame_demo = Ok (mkFrame (mkHeader TypePing 1 20 7 0) (be 20 12345), 37).
Proof. vm_compute. reflexivity. Qed.

Lemma frame_roundtrip_witness :
  ∃ e, AppendFrame [1] (mkHeader TypePing 1 0 7 0) (be 20 12345) = Ok ([1] ++ e) ∧
       DecodeFrame (e ++ [9]) = Ok (mkFrame (mkHeader TypePing 1 20 7 0) (be 20 12345), len e).
Proof.
  apply (frame_roundtrip (mkHeader TypePing 1 0 7 0) (be 20 12345) [1] [9]).
  - split; vm_compute; repeat split; discriminate.
  - apply Bytes_be.
  - constructor; [vm_compute; split; (reflexivity || discriminate)|constructor].
Defined.

(** C9. Canonicity: DecodeFrame never panics, and the bytes it consumed are the one
    encoding of the frame it returned: re-encoding gives them back. *)
Theorem frame_canonical b :
  Bytes b →
  DecodeFrame b ≠ Panic ∧
  ∀ f n, DecodeFrame b = Ok (f, n) →
    AppendFrame [] (f_Header f) (f_Payload f) = Ok (slice b 0 n) ∧ FrameOverhead ≤ n ≤ len b.
Proof.
  intros HB. split; [by apply DecodeFrame_no_panic|]. intros f n H. apply DecodeFrame_inv in H as (Hv & Hl & Hn & Hnb & _ & _ & Hs); [|done].
  pose proof (len_nonneg (f_Payload f)).
  split; [|lia]. destruct Hv as [_ Hc]. apply check_header_max in Hc.
  rewrite AppendFrame_eq, Hs, <- Hl by lia. by destruct (f_Header f).
Qed.

Lemma frame_canonical_witness :
  AppendFrame [] (mkHeader TypePing 1 20 7 0) (be 20 12345) = Ok (slice frame_demo 0 37).
Proof.
  destruct (frame_canonical frame_demo frame_demo_bytes) as [_ H].
  exact (proj1 (H _ _ frame_demo_decode)).
Defined.

Lemma dec_header_prefix b k :
  HeaderLen ≤ k → k ≤ len b → dec_header (slice b 0 k) = dec_header b.
Proof.
  intros. unfold dec_header, field, HeaderLen in *. by rewrite !slice_slice by lia.
Qed.

Lemma dec_header_app b c : HeaderLen ≤ len b → dec_header (b ++ c) = dec_header b.
Proof. intros. unfold dec_header, HeaderLen in *. by rewrite !field_app_l by lia. Qed.

(** C11. Every strict prefix of an accepted frame is ErrShort: a reader that waits
    for more bytes on ErrShort never gives up on a valid frame. *)
Theorem frame_prefix_short b f n k :
  Bytes b → DecodeFrame b = Ok (f, n) → 0 ≤ k < n → DecodeFrame (slice b 0 k) = Err ErrShort.
Proof.
  intros HB H Hk. apply DecodeFrame_inv in H as (Hv & Hl & Hn & Hnb & Hb & Hh & _); [|done].
  pose proof (len_slice b 0 k ltac:(lia) ltac:(lia) ltac:(lia)) as Hlk.
  destruct (Z.lt_ge_cases k HeaderLen).
  { unfold DecodeFrame. rewrite ParseHeader_short by lia. done. }
  assert (dec_header (slice b 0 k) = f_Header f) as Hd.
  { rewrite Hh. apply dec_header_prefix; lia. }
  rewrite DecodeFrame_eq; rewrite ?Hd; [|by apply Bytes_slice|lia|apply Hv].
  cbv zeta. rewrite Hlk.
  destruct (Z.ltb_spec (k - 0 - TrailerLen) (HeaderLen + h_Len (f_Header f))); [done|].
  unfold FrameOverhead in *. lia.
Qed.

Lemma frame_prefix_short_witness : DecodeFrame (slice frame_demo 0 36) = Err ErrShort.
Proof.
  apply (frame_prefix_short frame_demo _ 37 36 frame_demo_bytes frame_demo_decode).
  split; [discriminate|reflexivity].
Defined.

(** C10. A change of an accepted frame that is confined to four consecutive bytes
    before the trailer and leaves the length field alone is rejected; behind
    the header the error is ErrCRC. *)
Theorem frame_corruption_detected f a x x' c t :
  let b := a ++ x ++ c ++ t in
  let b' := a ++ x' ++ c ++ t in
  Bytes b → Bytes x' → len t = TrailerLen → length x = length x' → len x ≤ 4 → x ≠ x' →
  DecodeFrame b = Ok (f, len b) → h_Len (dec_header b') = h_Len (dec_header b) →
  ∃ e, DecodeFrame b' = Err e ∧ (HeaderLen ≤ len a → e = ErrCRC).
Proof.
  intros b b' HB HX Ht Hlx Hx4 Hne H Hlen.
  assert (Bytes a ∧ Bytes x ∧ Bytes c ∧ Bytes t) as (Ha & Hx & Hc & HT).
  { subst b. rewrite !Forall_app in HB. naive_solver. }
  assert (len b' = len b) as Hbl by (unfold b, b'; rewrite !len_app; unfold len; lia).
  assert (Bytes b') as HB' by (unfold b'; rewrite !Forall_app; done).
  apply DecodeFrame_inv in H as (Hv & Hl & Hn & _ & Hb & Hh & Hs); [|done].
  destruct (check_header (dec_header b')) as [e|] eqn:Hck.
  { exists e. split; [unfold DecodeFrame; rewrite ParseHeader_eq by (done || lia); by rewrite Hck|].
    intros Hha. exfalso. destruct Hv as [_ Hv]. rewrite Hh in Hv.
    unfold b, b' in Hv, Hck. rewrite dec_header_app in Hv, Hck by done. congruence. }
  exists ErrCRC. split; [|done].
  rewrite DecodeFrame_eq by (done || lia). cbv zeta. rewrite Hlen, Hbl, <- Hh, Hl.
  set (e := HeaderLen + len (f_Payload f)).
  assert (len b = e + TrailerLen) as He by (subst e; rewrite Hn; unfold FrameOverhead; lia).
  destruct (Z.ltb_spec (len b - TrailerLen) e); [lia|].
  assert (∀ y, length y = length x → len (a ++ y ++ c) = e) as Hay.
  { intros y Hy. unfold b in He. rewrite !len_app in *. unfold len in *. lia. }
  assert (∀ y, length y = length x → slice ((a ++ y ++ c) ++ t) 0 e = a ++ y ++ c ∧
    field ((a ++ y ++ c) ++ t) e (e + TrailerLen) = be_val t) as Hsf.
  { intros y Hy. specialize (Hay y Hy). pose proof (len_nonneg (a ++ y ++ c)).
    split; [rewrite slice_app_l by lia; by apply slice_full|].
    rewrite field_app_r, Hay by lia. unfold field. f_equal. rewrite Z.sub_diag.
    apply slice_full. lia. }
  assert (CRC (a ++ x ++ c) = be_val t) as Hcrc.
  { rewrite slice_full in Hs by done. unfold enc_frame in Hs.
    assert (b = (a ++ x ++ c) ++ t) as Hbt by (unfold b; by rewrite <- !app_assoc).
    rewrite Hbt in Hs. apply app_inj_1 in Hs as [Hs1 Hs2].
    - rewrite <- Hs1 in Hs2. rewrite Hs2, be_val_be. symmetry. apply Z.mod_small, CRC_fits.
      by rewrite !Forall_app.
    - specialize (Hay x eq_refl). pose proof (len_app (enc_header (f_Header f)) (f_Payload f)) as Hle.
      rewrite len_enc_header in Hle. unfold e, HeaderLen in Hay. unfold len in *. lia. }
  assert (b' = (a ++ x' ++ c) ++ t) as -> by (unfold b'; by rewrite <- !app_assoc).
  destruct (Hsf x') as [-> ->]; [done|].
  destruct (Z.eqb_spec (CRC (a ++ x' ++ c)) (be_val t)) as [Heq|]; [|done].
  exfalso. rewrite <- Hcrc in Heq. symmetry in Heq. revert Heq. by apply CRC_detects_burst.
Qed.

Lemma frame_corruption_detected_witness :
  ∃ e, DecodeFrame (take 20 frame_demo ++ [255; 1] ++ drop 22 (take 33 frame_demo) ++ drop 33 frame_demo) = Err e.
Proof.
  assert (frame_demo = take 20 frame_demo ++ take 2 (drop 20 frame_demo) ++
    drop 22 (take 33 frame_demo) ++ drop 33 frame_demo) as Hsplit by (vm_compute; reflexivity).
  pose proof frame_demo_bytes as HB. pose proof frame_demo_decode as HD.
  rewrite Hsplit in HB, HD.
  destruct (frame_corruption_detected (mkFrame (mkHeader TypePing 1 20 7 0) (be 20 12345)) (take 20 frame_demo) (take 2 (drop 20 frame_demo)) [255; 1]
    (drop 22 (take 33 frame_demo)) (drop 33 frame_demo) HB) as (e & He & _).
  - repeat (constructor; [vm_compute; split; (reflexivity || discriminate)|]). constructor.
  - vm_compute. reflexivity.
  - vm_compute. reflexivity.
  - vm_compute. discriminate.
  - vm_compute. discriminate.
  - exact HD.
  - vm_compute. reflexivity.
  - exists e. exact He.
Defined.

(** The serial comparison of fseqs, epochs and PING ids: [SeqLess a b] holds
    exactly when [b] lies 1 to 2^31 − 1 ahead of [a], across the wrap. *)
Lemma SeqLess_step a d :
  is_u32 a → 0 ≤ d < 2 ^ 32 → SeqLess a (u32 (a + d)) = (0 <? d) && (d <? 2 ^ 31).
Proof.
  intros Ha Hd. unfold SeqLess.
  rewrite (swrap_congr 32 _ d).
  2:{ unfold wrap. rewrite Zminus_mod_idemp_l. f_equal. lia. }
  rewrite swrap_unsigned by (done || lia). change (32 - 1) with 31.
  unfold wrap, fits in *.
  assert ((a + d) mod 2 ^ 32 = if a + d <? 2 ^ 32 then a + d else a + d - 2 ^ 32) as ->.
  { destruct (Z.ltb_spec (a + d) (2 ^ 32)); [apply Z.mod_small; lia|].
    replace (a + d) with (a + d - 2 ^ 32 + 1 * 2 ^ 32) at 1 by lia.
    rewrite Z.mod_add by lia. apply Z.mod_small. lia. }
  destruct (Z.ltb_spec (a + d) (2 ^ 32)), (Z.ltb_spec d (2 ^ 31)); lia.
Qed.
