(* ===== verification/Codec.v ===== *)
(** The interface between the payload codecs and their users.

    Every payload of internal/wire has a [Put] function that writes into
    caller memory and a [Parse] function that reads a payload.  [Codec] states
    what such a pair promises: what Put writes for a well-formed value is read
    back as that value; what Parse accepts is the one encoding of a well-formed
    value; Parse never panics.  The lemmas below use only these laws, so they
    hold of every instance (WirePayload.v, WireDgram.v). *)

From Stdlib Require Import ZArith Lia.
From stdpp Require Import base numbers list.
From S2P Require Import Prelude Buffers WireConst WireCrc WireFrame.

Open Scope Z_scope.
Open Scope rendr_scope.

Class Codec (A : Type) := {
  c_wf : A → Prop;
  c_put : bytes → A → res werr (bytes * Z);
  c_parse : bytes → res werr A;
  c_size : A → Z;
  c_roundtrip x : c_wf x → ∃ e, Bytes e ∧ len e = c_size x ∧ c_parse e = Ok x ∧
    ∀ dst, c_size x ≤ len dst → c_put dst x = Ok (e ++ drop (length e) dst, len e);
  c_canonical p x : Bytes p → c_parse p = Ok x → c_wf x ∧ c_size x = len p ∧
    ∀ dst, len p ≤ len dst → c_put dst x = Ok (p ++ drop (length p) dst, len p);
  c_no_panic p : Bytes p → c_parse p ≠ Panic
}.

Section CodecLaws.
Context {A : Type} `{Codec A}.

(** Put is injective on well-formed values. *)
Lemma codec_put_inj x y dst :
  c_wf x → c_wf y → c_size x ≤ len dst → c_size y ≤ len dst →
  c_put dst x = c_put dst y → x = y.
Proof.
  intros Hx Hy Hsx Hsy Heq.
  destruct (c_roundtrip x Hx) as (e & _ & He & Hpe & Hput).
  destruct (c_roundtrip y Hy) as (f & _ & Hf & Hpf & Hputf).
  rewrite Hput, Hputf in Heq by done. injection Heq as Hb Hn.
  apply app_inj_1 in Hb as [Hef _]; [|unfold len in *; lia].
  rewrite Hef in Hpe. congruence.
Qed.

(** Parse is injective: two different payloads never decode to one value. *)
Lemma codec_parse_inj p q x :
  Bytes p → Bytes q → c_parse p = Ok x → c_parse q = Ok x → p = q.
Proof.
  intros Hp Hq Hx Hy.
  destruct (c_canonical p x Hp Hx) as (_ & Hsp & Hp').
  destruct (c_canonical q x Hq Hy) as (_ & Hsq & Hq').
  specialize (Hp' p ltac:(lia)). specialize (Hq' p ltac:(lia)).
  rewrite Hp' in Hq'. injection Hq' as Hb Hn.
  apply app_inj_1 in Hb as [? _]; [done|]. unfold len in *; lia.
Qed.

(** A value put into a payload, framed and decoded again is the value. *)
Lemma codec_frame_roundtrip x h dst rest :
  c_wf x → header_valid (with_len h (c_size x)) → c_size x = len dst → Bytes rest →
  ∃ payload frame f, c_put dst x = Ok (payload, len payload) ∧
    AppendFrame [] h payload = Ok frame ∧
    DecodeFrame (frame ++ rest) = Ok (f, len frame) ∧
    f_Header f = with_len h (c_size x) ∧ c_parse (f_Payload f) = Ok x.
Proof.
  intros Hx Hv Hd Hr.
  destruct (c_roundtrip x Hx) as (e & He & Hle & Hpe & Hput).
  rewrite <- Hle in Hv.
  exists e, (enc_frame (with_len h (len e)) e), (mkFrame (with_len h (len e)) e). split_and!.
  - rewrite Hput by lia. rewrite drop_ge by (unfold len in *; lia).
    by rewrite app_nil_r.
  - apply AppendFrame_eq. destruct Hv as [_ Hc]. by apply check_header_max in Hc.
  - by apply DecodeFrame_enc.
  - by rewrite <- Hle.
  - done.
Qed.
End CodecLaws.

(** What a component proves of its pure encoding, from which the laws follow. *)
Record layout {A} (wf : A → Prop) (put : bytes → A → res werr (bytes * Z))
    (parse : bytes → res werr A) (enc : A → bytes) : Prop := mkLayout {
  l_parse_enc x : wf x → parse (enc x) = Ok x;
  l_parse_inv p x : Bytes p → parse p = Ok x → wf x ∧ enc x = p;
  l_bytes x : wf x → Bytes (enc x);
  l_put dst x : wf x → len (enc x) ≤ len dst →
    put dst x = Ok (enc x ++ drop (length (enc x)) dst, len (enc x));
  l_no_panic p : Bytes p → parse p ≠ Panic
}.

Program Definition build_codec {A wf put parse enc} (L : @layout A wf put parse enc) : Codec A := {|
  c_wf := wf; c_put := put; c_parse := parse; c_size := λ x, len (enc x);
  c_no_panic := l_no_panic _ _ _ _ L |}.
Next Obligation.
  intros A wf put parse enc L x Hx. exists (enc x).
  split_and!; [by apply L|done|by apply L|]. intros dst Hd. by apply L.
Qed.
Next Obligation.
  intros A wf put parse enc L p x HB Hp. destruct (l_parse_inv _ _ _ _ L p x HB Hp) as [Hx <-].
  split_and!; [done|done|]. intros dst Hd. by apply L.
Qed.

(** Bytes of an encoding: every field is a byte sequence. *)
Ltac enc_bytes := intros; repeat apply Forall_app_2; auto with rendr.
