(* ===== verification/WirePayload.v ===== *)
(** Payloads of the stream-session frames: OPEN, OPEN_ACK, JOIN, JOIN_ACK,
    DATA, ACK, FIN, RST, SCHED, PING, CLOSE and GOAWAY.

    Models internal/wire/payload.go.  [PutX] writes into caller memory and
    panics like the source; [ParseX] makes the source's checks in the source's
    order.  Each pair is an instance of [Codec]. *)

From Stdlib Require Import ZArith Lia.
From stdpp Require Import base numbers list.
From S2P Require Import Prelude Buffers WireConst WireCrc WireFrame Codec.

Open Scope Z_scope.
Open Scope rendr_scope.

(** exactTail: fewer bytes than wanted is ErrShort, more is ErrTrailing. *)
Definition exactTail (have want : Z) : option werr :=
  if have <? want then Some ErrShort
  else if want <? have then Some ErrTrailing
  else None.

(** [if err := e; err != nil { return err }]. *)
Definition check {A} (e : option werr) (k : res werr A) : res werr A :=
  match e with Some e => Err e | None => k end.

Definition zero16 : bytes := replicate 16 0.

Lemma exactTail_None a b : exactTail a b = None ↔ a = b.
Proof. unfold exactTail. repeat case_match; split; intros; try done; lia. Qed.

Lemma exactTail_eq a b : a = b → exactTail a b = None.
Proof. by rewrite exactTail_None. Qed.

Lemma check_ok {A} e (k : res werr A) x : check e k = Ok x ↔ e = None ∧ k = Ok x.
Proof. destruct e; naive_solver. Qed.

Lemma check_no_panic {A} e (k : res werr A) : (e = None → k ≠ Panic) → check e k ≠ Panic.
Proof. destruct e; naive_solver. Qed.

(** Solve [contig] and length goals about a literal list of fields. *)
Ltac contig_tac := unfold fields_of; cbn [contig map snd concat]; len_lia.

(** Destruct the outermost conditional of a hypothesis or goal. *)
Ltac split_if :=
  match goal with
  | |- context [if ?b then _ else _] => destruct b eqn:?
  | H : context [if ?b then _ else _] |- _ => destruct b eqn:?
  end.

(** Discharge the first bounds guard of a goal, whose failing branch the
    hypotheses exclude. *)
Ltac pass_guard :=
  match goal with
  | |- context [if ?m <? ?n then _ else _] =>
      destruct (Z.ltb_spec m n); [solve [len_lia | done]|]
  end.

(** [Put] of a fixed layout: the guards, then the contiguous writes. *)
Ltac put_layout := repeat pass_guard; rewrite puts_contig by contig_tac; cbn [res_bind];
  unfold fields_of; cbn [map snd concat]; rewrite ?app_nil_r.

(** ** OPEN *)
Module Open.
Record Open := mkOpen {
  SID : bytes; Kind : Z; Mode : Z; Flags : Z; RetainMs : Z; Window : Z; PMTU : Z;
  Metadata : bytes
}.

Definition PutOpen (dst : bytes) (o : Open) : res werr (bytes * Z) :=
  if MaxMetadata <? len (Metadata o) then Panic
  else
    let n := OpenFixedLen + len (Metadata o) in
    if len dst <? n then Panic
    else
      let! d := puts dst
        [ (0, SID o); (16, be 1 (Kind o)); (17, be 1 (Mode o)); (18, be 2 (Flags o));
          (20, be 4 (RetainMs o)); (24, be 4 (Window o)); (28, be 2 (PMTU o));
          (30, be 2 (len (Metadata o))); (OpenFixedLen, Metadata o) ] in
      Ok (d, n).

(** The [switch] of ParseOpen. *)
Definition check_open (o : Open) : option werr :=
  if bool_decide (SID o = zero16) then Some ErrReserved
  else if negb (Kind o =? KindStream) && negb (Kind o =? KindDatagram) then Some ErrValue
  else if (Mode o <? 1) || (MaxMode <? Mode o) then Some ErrValue
  else if negb (Z.ldiff (Flags o) OpenFlagEarly =? 0) then Some ErrReserved
  else if negb (Z.land (Flags o) OpenFlagEarly =? 0) && negb (Kind o =? KindStream)
       then Some ErrReserved
  else if (Kind o =? KindStream) && negb (PMTU o =? 0) then Some ErrReserved
  else if (Kind o =? KindDatagram) &&
          ((PMTU o <? MinPacketPayload) || (MaxPacketPayload <? PMTU o)) then Some ErrValue
  else if (Kind o =? KindDatagram) && negb (Window o =? 0) &&
          ((Window o <? MinFrameBudget) || (MaxDatagram <? Window o)) then Some ErrValue
  else None.

Definition clamp_meta (maxMeta : Z) : Z := Z.min (Z.max maxMeta 0) MaxMetadata.

Definition ParseOpen (p : bytes) (maxMeta : Z) : res werr Open :=
  if len p <? OpenFixedLen then Err ErrShort
  else
    let! mlen := get p 30 32 in
    if clamp_meta maxMeta <? mlen then Err ErrLength
    else check (exactTail (len p - OpenFixedLen) mlen) (
      let! kind := idx p 16 in
      let! mode := idx p 17 in
      let! flags := get p 18 20 in
      let! retain := get p 20 24 in
      let! window := get p 24 28 in
      let! pmtu := get p 28 30 in
      let! sid := sub p 0 16 in
      let o := mkOpen sid kind mode flags retain window pmtu [] in
      check (check_open o) (
        if 0 <? mlen then
          let! md := sub p OpenFixedLen (len p) in
          Ok (mkOpen sid kind mode flags retain window pmtu md)
        else Ok o)).

Definition wf (maxMeta : Z) (o : Open) : Prop :=
  Bytes (SID o) ∧ len (SID o) = 16 ∧ is_u8 (Kind o) ∧ is_u8 (Mode o) ∧
  is_u16 (Flags o) ∧ is_u32 (RetainMs o) ∧ is_u32 (Window o) ∧ is_u16 (PMTU o) ∧
  Bytes (Metadata o) ∧ len (Metadata o) ≤ clamp_meta maxMeta ∧ check_open o = None.

Definition enc (o : Open) : bytes :=
  SID o ++ be 1 (Kind o) ++ be 1 (Mode o) ++ be 2 (Flags o) ++ be 4 (RetainMs o) ++
  be 4 (Window o) ++ be 2 (PMTU o) ++ be 2 (len (Metadata o)) ++ Metadata o.

Lemma open_len_enc o : len (SID o) = 16 → len (enc o) = OpenFixedLen + len (Metadata o).
Proof. intros H. unfold enc. len_lia. Qed.

Lemma open_put_eq dst o :
  len (SID o) = 16 → len (Metadata o) ≤ MaxMetadata →
  OpenFixedLen + len (Metadata o) ≤ len dst →
  PutOpen dst o = Ok (enc o ++ drop (length (enc o)) dst, len (enc o)).
Proof.
  intros Hs Hm Hd. unfold PutOpen.
  destruct (Z.ltb_spec MaxMetadata (len (Metadata o))); [lia|].
  destruct (Z.ltb_spec (len dst) (OpenFixedLen + len (Metadata o))); [lia|].
  rewrite puts_contig by contig_tac. cbn [res_bind]. rewrite open_len_enc by done.
  unfold fields_of. cbn [map snd concat]. by rewrite app_nil_r.
Qed.

Lemma open_parse_enc maxMeta o : wf maxMeta o → ParseOpen (enc o) maxMeta = Ok o.
Proof.
  intros (HS & Hs & Hk & Hmo & Hf & Hr & Hw & Hp & HM & Hm & Hc).
  pose proof (open_len_enc o Hs) as Hl. pose proof (len_nonneg (Metadata o)) as Hn.
  assert (clamp_meta maxMeta ≤ MaxMetadata) as Hcl by (unfold clamp_meta; lia).
  unfold ParseOpen. destruct (Z.ltb_spec (len (enc o)) OpenFixedLen); [lia|].
  reads. unfold enc. fields.
  fold (enc o). destruct (Z.ltb_spec (clamp_meta maxMeta) (len (Metadata o))); [lia|].
  rewrite exactTail_eq by lia. cbn [check].
  replace (check_open _) with (check_open o) by done. rewrite Hc. cbn [check].
  destruct (Z.ltb_spec 0 (len (Metadata o))); [by destruct o|].
  destruct o; simpl in *. f_equal. f_equal. symmetry. apply len_0_nil. lia.
Qed.

Lemma open_parse_inv maxMeta p o :
  Bytes p → ParseOpen p maxMeta = Ok o → wf maxMeta o ∧ enc o = p.
Proof.
  intros HB H. unfold ParseOpen in H.
  destruct (Z.ltb_spec (len p) OpenFixedLen); [done|].
  revert H. reads. intros H.
  destruct (Z.ltb_spec (clamp_meta maxMeta) (field p 30 32)) as [|Hcl]; [done|].
  apply check_ok in H as [Ht H]. apply exactTail_None in Ht.
  revert H. reads. intros H. apply check_ok in H as [Hc H].
  pose proof (field_fits p 30 32 16 HB) as Hmf.
  specialize (Hmf ltac:(lia) ltac:(lia) ltac:(len_lia) ltac:(lia)).
  assert (o = mkOpen (slice p 0 16) (field p 16 17) (field p 17 18) (field p 18 20)
    (field p 20 24) (field p 24 28) (field p 28 30) (slice p OpenFixedLen (len p))) as ->.
  { destruct (Z.ltb_spec 0 (field p 30 32)).
    - revert H. reads. by intros [= <-].
    - injection H as <-. f_equal. unfold fits in Hmf.
      replace (len p) with OpenFixedLen by lia. by rewrite slice_nil. }
  assert (len (slice p OpenFixedLen (len p)) = field p 30 32) as Hlm
    by (rewrite len_slice; len_lia).
  split.
  - unfold wf. cbn [SID Kind Mode Flags RetainMs Window PMTU Metadata].
    split_and!; try (eapply field_fits; (done || len_lia)); auto with rendr.
    + rewrite len_slice; len_lia.
    + by rewrite Hlm.
  - unfold enc. cbn [SID Kind Mode Flags RetainMs Window PMTU Metadata].
    rewrite Hlm, !be_field by (done || len_lia).
    unfold OpenFixedLen in *. rewrite !slice_join by lia. by apply slice_full.
Qed.
End Open.

(** ** OPEN_ACK *)
Module OpenAck.
Record OpenAck := mkOpenAck { Status : Z; Window : Z; Code : Z; Msg : bytes }.

(** The fields PutOpenAck writes: the canonical zero fields whatever the
    value holds. *)
Definition canonical (a : OpenAck) : OpenAck :=
  if Status a =? StatusOK then mkOpenAck (Status a) (Window a) 0 []
  else mkOpenAck (Status a) 0 (Code a) (Msg a).

Definition PutOpenAck (dst : bytes) (a : OpenAck) : res werr (bytes * Z) :=
  if MaxMsg <? len (Msg a) then Panic
  else
    let '(window, code, msg) :=
      if Status a =? StatusOK then (Window a, 0, []) else (0, Code a, Msg a) in
    let n := OpenAckFixedLen + len msg in
    if len dst <? n then Panic
    else
      let! d := puts dst
        [ (0, be 1 (Status a)); (1, be 4 window); (5, be 4 code);
          (9, be 1 (len msg)); (OpenAckFixedLen, msg) ] in
      Ok (d, n).

Definition ParseOpenAck (p : bytes) : res werr OpenAck :=
  if len p <? OpenAckFixedLen then Err ErrShort
  else
    let! mlen := idx p 9 in
    check (exactTail (len p - OpenAckFixedLen) mlen) (
      let! status := idx p 0 in
      let! window := get p 1 5 in
      let! code := get p 5 9 in
      if StatusGoingAway <? status then Err ErrValue
      else
        let fin :=
          if 0 <? mlen then
            let! msg := sub p OpenAckFixedLen (len p) in
            Ok (mkOpenAck status window code msg)
          else Ok (mkOpenAck status window code []) in
        if status =? StatusOK then
          if negb (code =? 0) || negb (mlen =? 0) then Err ErrReserved else fin
        else if negb (window =? 0) then Err ErrReserved
        else fin).

Definition fits_types (a : OpenAck) : Prop :=
  is_u8 (Status a) ∧ is_u32 (Window a) ∧ is_u32 (Code a) ∧ Bytes (Msg a) ∧
  len (Msg a) ≤ MaxMsg.

Definition wf (a : OpenAck) : Prop :=
  fits_types a ∧ Status a ≤ StatusGoingAway ∧ canonical a = a.

Definition enc (a : OpenAck) : bytes :=
  be 1 (Status a) ++ be 4 (Window a) ++ be 4 (Code a) ++ be 1 (len (Msg a)) ++ Msg a.

Lemma openack_len_enc a : len (enc a) = OpenAckFixedLen + len (Msg a).
Proof. unfold enc. len_lia. Qed.

Lemma openack_put_eq dst a :
  len (Msg a) ≤ MaxMsg → len (enc (canonical a)) ≤ len dst →
  PutOpenAck dst a =
    Ok (enc (canonical a) ++ drop (length (enc (canonical a))) dst, len (enc (canonical a))).
Proof.
  rewrite openack_len_enc. unfold PutOpenAck, canonical. intros Hm Hd.
  destruct (Z.ltb_spec MaxMsg (len (Msg a))); [lia|].
  destruct (Status a =? StatusOK); cbn [Status Window Code Msg] in *.
  all: match goal with |- context [?m <? ?n] => destruct (Z.ltb_spec m n); [lia|] end.
  all: rewrite puts_contig by contig_tac; cbn [res_bind];
    unfold fields_of, enc; cbn [map snd concat Status Window Code Msg];
    by rewrite ?app_nil_r.
Qed.

Lemma openack_parse_enc a : wf a → ParseOpenAck (enc a) = Ok a.
Proof.
  intros ((Hs & Hw & Hc & HM & Hm) & Hg & Hcan).
  pose proof (openack_len_enc a) as Hl. pose proof (len_nonneg (Msg a)) as Hn.
  unfold ParseOpenAck. destruct (Z.ltb_spec (len (enc a)) OpenAckFixedLen); [lia|].
  reads. unfold enc. fields. fold (enc a).
  rewrite exactTail_eq by lia. cbn [check].
  destruct (Z.ltb_spec StatusGoingAway (Status a)); [lia|].
  unfold canonical in Hcan. destruct a as [st w c m]; cbn [Status Window Code Msg] in *.
  destruct (st =? StatusOK); injection Hcan; intros; subst.
  - done.
  - destruct (Z.ltb_spec 0 (len m)); [done|].
    by rewrite (len_0_nil m) by lia.
Qed.

Lemma openack_parse_inv p a : Bytes p → ParseOpenAck p = Ok a → wf a ∧ enc a = p.
Proof.
  intros HB H. unfold ParseOpenAck in H.
  destruct (Z.ltb_spec (len p) OpenAckFixedLen); [done|].
  revert H. reads. intros H. apply check_ok in H as [Ht H]. apply exactTail_None in Ht.
  assert (is_u8 (field p 9 10)) as Hmf by fits_field. unfold fits in Hmf.
  revert H. reads. norm_pos. intros H.
  assert (len (slice p OpenAckFixedLen (len p)) = field p 9 10) as Hlm
    by (rewrite len_slice; len_lia).
  destruct (Z.ltb_spec StatusGoingAway (field p 0 1)); [done|].
  assert (a = mkOpenAck (field p 0 1) (field p 1 5) (field p 5 9) (slice p OpenAckFixedLen (len p))
    ∧ canonical a = a) as [-> Hcan].
  { assert (field p 9 10 = 0 → slice p OpenAckFixedLen (len p) = []) as Hz.
    { intros Hz. apply len_0_nil. lia. }
    unfold canonical. destruct (Z.eqb_spec (field p 0 1) StatusOK) as [Hok|Hok].
    - destruct (Z.eqb_spec (field p 5 9) 0) as [Hc|]; [|done].
      destruct (Z.eqb_spec (field p 9 10) 0) as [Hm|]; [|done].
      rewrite Hm in H. cbn in H. injection H as <-. rewrite (Hz Hm), Hc.
      cbn [Status Window Code Msg]. by rewrite (proj2 (Z.eqb_eq _ _) Hok).
    - destruct (Z.eqb_spec (field p 1 5) 0) as [Hw|]; [|done].
      destruct (Z.ltb_spec 0 (field p 9 10)).
      + injection H as <-. rewrite Hw. cbn [Status Window Code Msg].
        by rewrite (proj2 (Z.eqb_neq _ _) Hok).
      + injection H as <-. rewrite Hw, Hz by lia. cbn [Status Window Code Msg].
        by rewrite (proj2 (Z.eqb_neq _ _) Hok). }
  split.
  - unfold wf, fits_types. cbn [Status Window Code Msg]. rewrite Hlm.
    split_and!; try fits_field; auto with rendr; unfold MaxMsg; lia.
  - unfold enc. cbn [Status Window Code Msg]. rewrite Hlm. by rejoin.
Qed.

Lemma openack_no_panic p : Bytes p → ParseOpenAck p ≠ Panic.
Proof.
  intros HB. unfold ParseOpenAck.
  destruct (Z.ltb_spec (len p) OpenAckFixedLen); [done|].
  reads. apply check_no_panic. intros _. reads.
  by repeat case_match.
Qed.
End OpenAck.

(** ** JOIN *)
Module Join.
Record Join := mkJoin { SID : bytes; Mode : Z; RxNext : Z }.

Definition PutJoin (dst : bytes) (j : Join) : res werr (bytes * Z) :=
  if len dst <? JoinLen then Panic
  else
    let! d := puts dst [ (0, SID j); (16, be 1 (Mode j)); (17, be 8 (RxNext j)) ] in
    Ok (d, JoinLen).

Definition ParseJoin (p : bytes) : res werr Join :=
  check (exactTail (len p) JoinLen) (
    let! mode := idx p 16 in
    let! rx := get p 17 25 in
    let! sid := sub p 0 16 in
    if bool_decide (sid = zero16) then Err ErrReserved
    else if (mode <? 1) || (MaxMode <? mode) then Err ErrValue
    else Ok (mkJoin sid mode rx)).

Definition wf (j : Join) : Prop :=
  Bytes (SID j) ∧ len (SID j) = 16 ∧ SID j ≠ zero16 ∧ 1 ≤ Mode j ≤ MaxMode ∧
  is_u64 (RxNext j).

Definition enc (j : Join) : bytes := SID j ++ be 1 (Mode j) ++ be 8 (RxNext j).

Lemma join_len_enc j : len (SID j) = 16 → len (enc j) = JoinLen.
Proof. intros. unfold enc. len_lia. Qed.

Lemma join_put_eq dst j : len (SID j) = 16 → JoinLen ≤ len dst →
  PutJoin dst j = Ok (enc j ++ drop (length (enc j)) dst, len (enc j)).
Proof. intros Hs Hd. rewrite join_len_enc by done. unfold PutJoin. by put_layout. Qed.

Lemma join_parse_enc j : wf j → ParseJoin (enc j) = Ok j.
Proof.
  intros (HS & Hs & Hz & Hm & Hr). pose proof (join_len_enc j Hs) as Hl.
  assert (is_u8 (Mode j)) by (unfold fits; unfold MaxMode, ModeRace in *; lia).
  unfold ParseJoin. rewrite exactTail_eq by done. cbn [check].
  reads. unfold enc. fields. rewrite bool_decide_eq_false_2 by done.
  destruct (Z.ltb_spec (Mode j) 1); [lia|].
  destruct (Z.ltb_spec MaxMode (Mode j)); [lia|]. by destruct j.
Qed.

Lemma join_parse_inv p j : Bytes p → ParseJoin p = Ok j → wf j ∧ enc j = p.
Proof.
  intros HB H. unfold ParseJoin in H. apply check_ok in H as [Ht H].
  apply exactTail_None in Ht. revert H. reads. intros H.
  case_bool_decide as Hz; [done|].
  destruct (Z.ltb_spec (field p 16 17) 1); [done|].
  destruct (Z.ltb_spec MaxMode (field p 16 17)); [done|].
  injection H as <-. split.
  - unfold wf. cbn [SID Mode RxNext]. split_and!; auto with rendr; try fits_field.
    rewrite len_slice; len_lia.
  - unfold enc. cbn [SID Mode RxNext]. by rejoin.
Qed.

Lemma join_no_panic p : ParseJoin p ≠ Panic.
Proof.
  unfold ParseJoin. apply check_no_panic. intros Ht%exactTail_None.
  reads. by repeat case_match.
Qed.
End Join.

(** ** JOIN_ACK, on a dedicated carrier and on a view of a MUX trunk *)
Module JoinAck.
Record JoinAck := mkJoinAck { Status : Z; RxNext : Z }.

Definition PutJoinAck (dst : bytes) (a : JoinAck) : res werr (bytes * Z) :=
  if len dst <? JoinAckLen then Panic
  else
    let rx := if negb (Status a =? StatusOK) then 0 else RxNext a in
    let! d := puts dst [ (0, be 1 (Status a)); (1, be 8 rx) ] in
    Ok (d, JoinAckLen).

Definition ParseJoinAck (p : bytes) : res werr JoinAck :=
  check (exactTail (len p) JoinAckLen) (
    let! status := idx p 0 in
    let! rx := get p 1 9 in
    if StatusGoingAway <? status then Err ErrValue
    else if negb (status =? StatusOK) && negb (rx =? 0) then Err ErrReserved
    else Ok (mkJoinAck status rx)).

Definition PutJoinAckMux (dst : bytes) (a : JoinAck) (code : Z) : res werr (bytes * Z) :=
  let! (d, n) := PutJoinAck dst a in
  if negb (Status a =? StatusOK) then
    let! d := put d 1 (be 8 code) in Ok (d, n)
  else Ok (d, n).

Definition ParseJoinAckMux (p : bytes) : res werr (JoinAck * Z) :=
  check (exactTail (len p) JoinAckLen) (
    let! status := idx p 0 in
    let! rx := get p 1 9 in
    if StatusGoingAway <? status then Err ErrValue
    else if status =? StatusOK then Ok (mkJoinAck status rx, 0)
    else if negb (Z.shiftr rx 32 =? 0) then Err ErrReserved
    else Ok (mkJoinAck status 0, u32 rx)).

Definition wf (a : JoinAck) : Prop :=
  0 ≤ Status a ≤ StatusGoingAway ∧ is_u64 (RxNext a) ∧
  (Status a ≠ StatusOK → RxNext a = 0).

(** A view's answer: a refusal carries a 32-bit code, an acceptance none. *)
Definition wf_mux (ac : JoinAck * Z) : Prop :=
  wf ac.1 ∧ is_u32 ac.2 ∧ (Status ac.1 = StatusOK → ac.2 = 0).

Definition enc (a : JoinAck) : bytes := be 1 (Status a) ++ be 8 (RxNext a).

Definition enc_mux (ac : JoinAck * Z) : bytes :=
  be 1 (Status ac.1) ++
  be 8 (if Status ac.1 =? StatusOK then RxNext ac.1 else ac.2).

Lemma joinack_len_enc a : len (enc a) = JoinAckLen.
Proof. unfold enc. len_lia. Qed.
Lemma len_enc_mux ac : len (enc_mux ac) = JoinAckLen.
Proof. unfold enc_mux. len_lia. Qed.

Lemma joinack_put_eq dst a : wf a → JoinAckLen ≤ len dst →
  PutJoinAck dst a = Ok (enc a ++ drop (length (enc a)) dst, len (enc a)).
Proof.
  intros (_ & _ & Hr) Hd. rewrite joinack_len_enc. unfold PutJoinAck.
  destruct (Z.eqb_spec (Status a) StatusOK) as [Ho|Ho]; cbn [negb]; put_layout; [done|].
  unfold enc. by rewrite Hr.
Qed.

Lemma put_mux_eq dst ac : wf_mux ac → JoinAckLen ≤ len dst →
  PutJoinAckMux dst ac.1 ac.2 =
    Ok (enc_mux ac ++ drop (length (enc_mux ac)) dst, len (enc_mux ac)).
Proof.
  intros (Hw & Hc & Ho) Hd. unfold PutJoinAckMux. rewrite joinack_put_eq by done.
  cbn [res_bind]. unfold enc_mux.
  destruct (Z.eqb_spec (Status ac.1) StatusOK); cbn [negb]; [done|].
  pose proof (joinack_len_enc ac.1) as Hl.
  rewrite put_ok by (rewrite ?len_app; try len_lia; pose proof (len_nonneg (drop (length (enc ac.1)) dst)); len_lia).
  reflexivity.
Qed.

Lemma joinack_parse_enc a : wf a → ParseJoinAck (enc a) = Ok a.
Proof.
  intros (Hs & Hr & Hz). assert (is_u8 (Status a)) by (unfold fits; len_lia).
  pose proof (joinack_len_enc a) as Hl. unfold ParseJoinAck. rewrite exactTail_eq by done.
  cbn [check]. reads. unfold enc. fields.
  destruct (Z.ltb_spec StatusGoingAway (Status a)); [lia|].
  destruct (Z.eqb_spec (Status a) StatusOK) as [|Hne]; cbn [negb andb]; [by destruct a|].
  destruct a; cbn in *. by rewrite Hz by done.
Qed.

Lemma parse_mux_enc ac : wf_mux ac → ParseJoinAckMux (enc_mux ac) = Ok ac.
Proof.
  intros ((Hs & Hr & Hz) & Hc & Ho). destruct ac as [[st rx] code]. cbn [fst snd Status RxNext] in *.
  assert (is_u8 st) by (unfold fits; len_lia).
  pose proof (len_enc_mux (mkJoinAck st rx, code)) as Hl.
  unfold ParseJoinAckMux. rewrite exactTail_eq by done. cbn [check]. reads.
  unfold enc_mux. cbn [fst snd Status RxNext].
  assert (is_u64 (if st =? StatusOK then rx else code)).
  { destruct (st =? StatusOK); [done|]. unfold fits in *. lia. }
  fields. destruct (Z.ltb_spec StatusGoingAway st); [lia|].
  destruct (Z.eqb_spec st StatusOK) as [He|Hne]; [by rewrite Ho|].
  rewrite Z.shiftr_div_pow2, Z.div_small by done. cbn [Z.eqb negb].
  rewrite wrap_small by done. by rewrite Hz.
Qed.

Lemma joinack_parse_inv p a : Bytes p → ParseJoinAck p = Ok a → wf a ∧ enc a = p.
Proof.
  intros HB H. unfold ParseJoinAck in H. apply check_ok in H as [Ht%exactTail_None H].
  revert H. reads. intros H.
  destruct (Z.ltb_spec StatusGoingAway (field p 0 1)); [done|].
  assert (is_u8 (field p 0 1)) as [? ?] by fits_field.
  assert (is_u64 (field p 1 9)) by fits_field.
  destruct (Z.eqb_spec (field p 0 1) StatusOK), (Z.eqb_spec (field p 1 9) 0);
    cbn [negb andb] in H; try done; injection H as <-; (split;
      [unfold wf; cbn [Status RxNext]; done | unfold enc; cbn [Status RxNext]; by rejoin]).
Qed.

Lemma parse_mux_inv p ac : Bytes p → ParseJoinAckMux p = Ok ac → wf_mux ac ∧ enc_mux ac = p.
Proof.
  intros HB H. unfold ParseJoinAckMux in H. apply check_ok in H as [Ht%exactTail_None H].
  revert H. reads. intros H.
  destruct (Z.ltb_spec StatusGoingAway (field p 0 1)); [done|].
  assert (is_u8 (field p 0 1)) as [? ?] by fits_field.
  assert (is_u64 (field p 1 9)) as Hu by fits_field.
  destruct (Z.eqb_spec (field p 0 1) StatusOK) as [He|He].
  { injection H as <-. unfold wf_mux, wf, enc_mux. cbn [fst snd Status RxNext].
    rewrite (proj2 (Z.eqb_eq _ _) He). split; [done|]. by rejoin. }
  destruct (Z.eqb_spec (Z.shiftr (field p 1 9) 32) 0) as [Hh|]; [|done].
  injection H as <-. cbn [negb] in *. unfold fits in Hu.
  assert (field p 1 9 < 2 ^ 32).
  { rewrite Z.shiftr_div_pow2 in Hh by lia. apply Z.div_small_iff in Hh; lia. }
  assert (u32 (field p 1 9) = field p 1 9) as Hw by (apply wrap_small; unfold fits; lia).
  unfold wf_mux, wf, enc_mux. cbn [fst snd Status RxNext].
  rewrite (proj2 (Z.eqb_neq _ _) He), Hw. unfold fits. split; [|by rejoin].
  split_and!; try done; lia.
Qed.

Lemma joinack_no_panic p : ParseJoinAck p ≠ Panic.
Proof.
  unfold ParseJoinAck. apply check_no_panic. intros Ht%exactTail_None.
  reads. by repeat case_match.
Qed.
Lemma mux_no_panic p : ParseJoinAckMux p ≠ Panic.
Proof.
  unfold ParseJoinAckMux. apply check_no_panic. intros Ht%exactTail_None.
  reads. by repeat case_match.
Qed.
End JoinAck.

(** ** DATA *)
Module Data.
Definition PutDataOffset (dst : bytes) (off : Z) : res werr bytes :=
  if len dst <? 8 then Panic else puts dst [(0, be 8 off)].

Definition DataEnd (off n : Z) : res werr Z :=
  if (n <? 1) || (MaxFramePayload - DataPrefixLen <? n) then Err ErrLength
  else if 2 ^ 64 - 1 - n <? off then Err ErrValue
  else Ok (u64 (off + n)).

Definition ParseDataOffset (p : bytes) : res werr Z :=
  if len p <? DataPrefixLen then Err ErrLength
  else
    let! off := get p 0 DataPrefixLen in
    let! _ := DataEnd off (len p - DataPrefixLen) in
    Ok off.

(** The end of a DATA frame never wraps: an accepted range ends at off + n. *)
Lemma DataEnd_ok off n e :
  is_u64 off → DataEnd off n = Ok e →
  e = off + n ∧ 1 ≤ n ≤ MaxFramePayload - DataPrefixLen ∧ is_u64 e.
Proof.
  unfold DataEnd. intros Ho H.
  destruct (Z.ltb_spec n 1); [done|].
  destruct (Z.ltb_spec (MaxFramePayload - DataPrefixLen) n); [done|].
  cbn [orb] in H. destruct (Z.ltb_spec (2 ^ 64 - 1 - n) off); [done|].
  injection H as <-. unfold fits in *.
  rewrite wrap_small by (unfold fits; lia). lia.
Qed.

Lemma DataEnd_complete off n :
  is_u64 off → 1 ≤ n ≤ MaxFramePayload - DataPrefixLen → off + n < 2 ^ 64 →
  DataEnd off n = Ok (off + n).
Proof.
  unfold DataEnd, fits. intros Ho Hn He.
  destruct (Z.ltb_spec n 1); [lia|].
  destruct (Z.ltb_spec (MaxFramePayload - DataPrefixLen) n); [lia|].
  cbn [orb]. destruct (Z.ltb_spec (2 ^ 64 - 1 - n) off); [lia|].
  rewrite wrap_small by (unfold fits; lia). done.
Qed.

Definition wf (d : Z * bytes) : Prop :=
  is_u64 d.1 ∧ Bytes d.2 ∧ 1 ≤ len d.2 ≤ MaxFramePayload - DataPrefixLen ∧
  d.1 + len d.2 < 2 ^ 64.

Lemma data_parse_spec p off :
  Bytes p → (ParseDataOffset p = Ok off ↔
    ∃ data, wf (off, data) ∧ p = be 8 off ++ data).
Proof.
  intros HB. unfold ParseDataOffset. split.
  - destruct (Z.ltb_spec (len p) DataPrefixLen); [done|].
    reads. intros [e [He [= <-]]]%res_bind_ok.
    apply DataEnd_ok in He as (-> & Hn & Hu); [|fits_field].
    exists (slice p 8 (len p)). unfold wf. cbn [fst snd].
    assert (is_u64 (field p 0 DataPrefixLen)) by fits_field.
    rewrite len_slice by len_lia.
    split; [split_and!; auto with rendr; unfold fits in *; len_lia|].
    symmetry. by rejoin.
  - intros (data & (Ho & HD & Hn & He) & ->). cbn [fst snd] in *.
    rewrite len_app, len_be.
    destruct (Z.ltb_spec (Z.of_nat 8 + len data) DataPrefixLen); [len_lia|].
    reads. unfold DataPrefixLen. fields.
    replace (Z.of_nat 8 + len data - 8) with (len data) by lia.
    by rewrite DataEnd_complete.
Qed.

Lemma data_no_panic p : ParseDataOffset p ≠ Panic.
Proof.
  unfold ParseDataOffset. destruct (Z.ltb_spec (len p) DataPrefixLen); [done|].
  reads. unfold DataEnd. by repeat case_match.
Qed.
End Data.

(** ** ACK *)
Module Ack.
Record Ack := mkAck { Delivered : Z; Window : Z; EpochEcho : Z }.

Definition PutAck (dst : bytes) (a : Ack) : res werr (bytes * Z) :=
  if len dst <? AckLen then Panic
  else
    let! d := puts dst [ (0, be 8 (Delivered a)); (8, be 4 (Window a));
                         (12, be 4 (EpochEcho a)) ] in
    Ok (d, AckLen).

Definition ParseAck (p : bytes) : res werr Ack :=
  check (exactTail (len p) AckLen) (
    let! d := get p 0 8 in
    let! w := get p 8 12 in
    let! e := get p 12 16 in
    Ok (mkAck d w e)).

Definition wf (a : Ack) : Prop :=
  is_u64 (Delivered a) ∧ is_u32 (Window a) ∧ is_u32 (EpochEcho a).

Definition enc (a : Ack) : bytes :=
  be 8 (Delivered a) ++ be 4 (Window a) ++ be 4 (EpochEcho a).

Lemma ack_len_enc a : len (enc a) = AckLen.
Proof. unfold enc. len_lia. Qed.

Lemma ack_put_eq dst a : AckLen ≤ len dst →
  PutAck dst a = Ok (enc a ++ drop (length (enc a)) dst, len (enc a)).
Proof. intros Hd. rewrite ack_len_enc. unfold PutAck. by put_layout. Qed.

Lemma ack_parse_enc a : wf a → ParseAck (enc a) = Ok a.
Proof.
  intros (Hd & Hw & He). pose proof (ack_len_enc a) as Hl.
  unfold ParseAck. rewrite exactTail_eq by done. cbn [check].
  reads. unfold enc. fields. by destruct a.
Qed.

Lemma ack_parse_inv p a : Bytes p → ParseAck p = Ok a → wf a ∧ enc a = p.
Proof.
  intros HB H. unfold ParseAck in H. apply check_ok in H as [Ht%exactTail_None H].
  revert H. reads. intros [= <-]. split.
  - unfold wf. cbn [Delivered Window EpochEcho]. split_and!; fits_field.
  - unfold enc. cbn [Delivered Window EpochEcho]. by rejoin.
Qed.

Lemma ack_no_panic p : ParseAck p ≠ Panic.
Proof. unfold ParseAck. apply check_no_panic. intros Ht%exactTail_None. by reads. Qed.
End Ack.

(** ** FIN *)
Module Fin.
Definition PutFin (dst : bytes) (off : Z) : res werr (bytes * Z) :=
  if len dst <? FinLen then Panic
  else let! d := puts dst [(0, be 8 off)] in Ok (d, FinLen).

Definition ParseFin (p : bytes) : res werr Z :=
  check (exactTail (len p) FinLen) (get p 0 8).

Lemma fin_put_eq dst off : FinLen ≤ len dst →
  PutFin dst off = Ok (be 8 off ++ drop (length (be 8 off)) dst, len (be 8 off)).
Proof. intros Hd. unfold PutFin. by put_layout. Qed.

Lemma fin_parse_enc off : is_u64 off → ParseFin (be 8 off) = Ok off.
Proof.
  intros Ho. unfold ParseFin. rewrite exactTail_eq by len_lia. cbn [check].
  reads. by fields.
Qed.

Lemma fin_parse_inv p off : Bytes p → ParseFin p = Ok off → is_u64 off ∧ be 8 off = p.
Proof.
  intros HB H. unfold ParseFin in H. apply check_ok in H as [Ht%exactTail_None H].
  revert H. reads. intros [= <-]. split; [fits_field|by rejoin].
Qed.

Lemma fin_no_panic p : ParseFin p ≠ Panic.
Proof. unfold ParseFin. apply check_no_panic. intros Ht%exactTail_None. by reads. Qed.
End Fin.

(** ** RST *)
Module Rst.
Record Rst := mkRst { Code : Z; Msg : bytes }.

Definition PutRst (dst : bytes) (r : Rst) : res werr (bytes * Z) :=
  if MaxMsg <? len (Msg r) then Panic
  else
    let n := RstFixedLen + len (Msg r) in
    if len dst <? n then Panic
    else
      let! d := puts dst [ (0, be 4 (Code r)); (4, be 1 (len (Msg r)));
                           (RstFixedLen, Msg r) ] in
      Ok (d, n).

Definition ParseRst (p : bytes) : res werr Rst :=
  if len p <? RstFixedLen then Err ErrShort
  else
    let! mlen := idx p 4 in
    check (exactTail (len p - RstFixedLen) mlen) (
      let! code := get p 0 4 in
      if 0 <? mlen then
        let! msg := sub p RstFixedLen (len p) in Ok (mkRst code msg)
      else Ok (mkRst code [])).

Definition wf (r : Rst) : Prop := is_u32 (Code r) ∧ Bytes (Msg r) ∧ len (Msg r) ≤ MaxMsg.

Definition enc (r : Rst) : bytes := be 4 (Code r) ++ be 1 (len (Msg r)) ++ Msg r.

Lemma rst_len_enc r : len (enc r) = RstFixedLen + len (Msg r).
Proof. unfold enc. len_lia. Qed.

Lemma rst_put_eq dst r : len (Msg r) ≤ MaxMsg → len (enc r) ≤ len dst →
  PutRst dst r = Ok (enc r ++ drop (length (enc r)) dst, len (enc r)).
Proof. rewrite rst_len_enc. intros Hm Hd. unfold PutRst. by put_layout. Qed.

Lemma rst_parse_enc r : wf r → ParseRst (enc r) = Ok r.
Proof.
  intros (Hc & HM & Hm). pose proof (rst_len_enc r) as Hl. pose proof (len_nonneg (Msg r)).
  unfold ParseRst. pass_guard. reads. unfold enc. fields. fold (enc r).
  rewrite exactTail_eq by lia. cbn [check]. destruct r as [c m]; cbn [Code Msg] in *.
  destruct (Z.ltb_spec 0 (len m)); [done|]. by rewrite (len_0_nil m) by lia.
Qed.

Lemma rst_parse_inv p r : Bytes p → ParseRst p = Ok r → wf r ∧ enc r = p.
Proof.
  intros HB H. unfold ParseRst in H. destruct (Z.ltb_spec (len p) RstFixedLen); [done|].
  revert H. reads. intros H. apply check_ok in H as [Ht%exactTail_None H].
  assert (is_u8 (field p 4 5)) as Hm by fits_field. unfold fits in Hm.
  assert (len (slice p RstFixedLen (len p)) = field p 4 5) as Hlm
    by (rewrite len_slice; len_lia).
  assert (r = mkRst (field p 0 4) (slice p RstFixedLen (len p))) as ->.
  { destruct (Z.ltb_spec 0 (field p 4 5)); revert H; reads; intros [= <-]; [done|].
    f_equal. symmetry. apply len_0_nil. lia. }
  split.
  - unfold wf. cbn [Code Msg]. rewrite Hlm. split_and!; [fits_field|auto with rendr|len_lia].
  - unfold enc. cbn [Code Msg]. rewrite Hlm. by rejoin.
Qed.

Lemma rst_no_panic p : Bytes p → ParseRst p ≠ Panic.
Proof.
  intros HB. unfold ParseRst. destruct (Z.ltb_spec (len p) RstFixedLen); [done|].
  reads. apply check_no_panic. intros _. reads. by repeat case_match.
Qed.
End Rst.

(** ** SCHED *)
Module Sched.
(** [IDs] is the 16-entry array; entries beyond [N] are not sent. *)
Record Sched := mkSched {
  Epoch : Z; Death : Z; Quality : Z; Explicit : Z; N : Z; IDs : list Z
}.

(** The writes of the loop over [IDs[:N]], from index [i] on. *)
Fixpoint id_fields (i : Z) (ids : list Z) : list (Z * bytes) :=
  match ids with
  | [] => []
  | id :: r => (SchedFixedLen + 4 * i, be 4 id) :: id_fields (i + 1) r
  end.

Definition PutSched (dst : bytes) (s : Sched) : res werr (bytes * Z) :=
  if (N s <? 1) || (MaxSchedIDs <? N s) then Panic
  else
    let n := SchedFixedLen + 4 * N s in
    if len dst <? n then Panic
    else
      let! d := puts dst
        ([ (0, be 4 (Epoch s)); (4, be 8 (Death s)); (12, be 8 (Quality s));
           (20, be 8 (Explicit s)); (28, be 1 (N s)) ]
         ++ id_fields 0 (take (Z.to_nat (N s)) (IDs s))) in
      Ok (d, n).

(** The loop of ParseSched: [k] IDs are left, [acc] is [s.IDs[:i]]. *)
Fixpoint parse_ids (p : bytes) (i : Z) (k : nat) (acc : list Z) : res werr (list Z) :=
  match k with
  | O => Ok acc
  | S k =>
      let! tail := sub p (SchedFixedLen + 4 * i) (len p) in
      let! id := Uint 4 tail in
      if id =? 0 then Err ErrValue
      else if existsb (Z.eqb id) acc then Err ErrValue
      else parse_ids p (i + 1) k (acc ++ [id])
  end.

Definition ParseSched (p : bytes) : res werr Sched :=
  if len p <? SchedFixedLen then Err ErrShort
  else
    let! n := idx p 28 in
    if (n <? 1) || (MaxSchedIDs <? n) then Err ErrValue
    else check (exactTail (len p - SchedFixedLen) (4 * n)) (
      let! epoch := get p 0 4 in
      let! death := get p 4 12 in
      let! quality := get p 12 20 in
      let! explicit := get p 20 28 in
      let! ids := parse_ids p 0 (Z.to_nat n) [] in
      Ok (mkSched epoch death quality explicit n
            (ids ++ replicate (Z.to_nat (MaxSchedIDs - n)) 0))).

Definition wf (s : Sched) : Prop :=
  is_u32 (Epoch s) ∧ is_u64 (Death s) ∧ is_u64 (Quality s) ∧ is_u64 (Explicit s) ∧
  1 ≤ N s ≤ MaxSchedIDs ∧
  ∃ ids, len ids = N s ∧ Forall (λ id, is_u32 id ∧ id ≠ 0) ids ∧ NoDup ids ∧
    IDs s = ids ++ replicate (Z.to_nat (MaxSchedIDs - N s)) 0.

Definition enc_ids (ids : list Z) : bytes := concat (map (be 4) ids).

Definition enc (s : Sched) : bytes :=
  be 4 (Epoch s) ++ be 8 (Death s) ++ be 8 (Quality s) ++ be 8 (Explicit s) ++
  be 1 (N s) ++ enc_ids (take (Z.to_nat (N s)) (IDs s)).

(** The ID fields of a payload. *)
Fixpoint ids_at (p : bytes) (i : Z) (k : nat) : list Z :=
  match k with
  | O => []
  | S k => field p (SchedFixedLen + 4 * i) (SchedFixedLen + 4 * i + 4) :: ids_at p (i + 1) k
  end.

Lemma len_enc_ids ids : len (enc_ids ids) = 4 * len ids.
Proof.
  unfold enc_ids. induction ids as [|x l IH]; [done|].
  cbn [map concat]. rewrite len_app, len_be, IH, len_cons. lia.
Qed.

Lemma fields_of_ids ids : ∀ i, fields_of (id_fields i ids) = enc_ids ids.
Proof.
  induction ids as [|x l IH]; intros i; [done|].
  unfold fields_of in *. cbn [id_fields map snd concat]. rewrite IH. done.
Qed.

Lemma contig_ids ids : ∀ i, contig (SchedFixedLen + 4 * i) (id_fields i ids).
Proof.
  induction ids as [|x l IH]; intros i; [done|]. cbn [id_fields contig].
  split; [done|]. rewrite len_be.
  replace (SchedFixedLen + 4 * i + Z.of_nat 4) with (SchedFixedLen + 4 * (i + 1)) by lia.
  apply IH.
Qed.

Lemma length_ids_at p k : ∀ i, length (ids_at p i k) = k.
Proof. induction k; intros i; simpl; auto. Qed.

Lemma enc_ids_at p k : ∀ i, Bytes p → 0 ≤ i → SchedFixedLen + 4 * (i + Z.of_nat k) ≤ len p →
  enc_ids (ids_at p i k) = slice p (SchedFixedLen + 4 * i) (SchedFixedLen + 4 * (i + Z.of_nat k)).
Proof.
  induction k; intros i HB Hi Hl.
  { cbn. rewrite Z.add_0_r. by rewrite slice_nil. }
  cbn [ids_at]. unfold enc_ids in *. cbn [map concat].
  unfold SchedFixedLen in *. rewrite IHk by (done || lia).
  rewrite be_field by (done || lia).
  replace (29 + 4 * (i + 1)) with (29 + 4 * i + 4) by lia.
  rewrite slice_join by lia. f_equal. lia.
Qed.

Lemma ids_at_enc ids : ∀ pre i, Forall (fits 32) ids → len pre = SchedFixedLen + 4 * i → 0 ≤ i →
  ids_at (pre ++ enc_ids ids) i (length ids) = ids.
Proof.
  induction ids as [|x l IH]; intros pre i Hf Hp Hi; [done|].
  inversion Hf; subst. cbn [length ids_at]. unfold enc_ids. cbn [map concat].
  change (concat (map (be 4) l)) with (enc_ids l). unfold SchedFixedLen in *. f_equal.
  - rewrite field_app_r by lia. rewrite field_app_l by len_lia. apply field_be; [lia|lia|done].
  - rewrite app_assoc. apply IH; [done| |lia]. len_lia.
Qed.

Lemma parse_ids_ok p k : ∀ i acc r, 0 ≤ i → SchedFixedLen + 4 * (i + Z.of_nat k) ≤ len p →
  Forall (λ id, id ≠ 0) acc → NoDup acc →
  (parse_ids p i k acc = Ok r ↔
   r = acc ++ ids_at p i k ∧ Forall (λ id, id ≠ 0) r ∧ NoDup r).
Proof.
  induction k; intros i acc r Hi Hl Hz Hn; cbn [parse_ids ids_at].
  { rewrite app_nil_r. split; [by intros [= ->]|by intros [-> _]]. }
  rewrite sub_ok by len_lia. cbn [res_bind].
  rewrite Uint_ok by (rewrite len_slice; len_lia). cbn [res_bind].
  unfold SchedFixedLen in *. rewrite field_slice by lia. rewrite Z.add_0_r.
  change (Z.of_nat 4) with 4.
  set (id := field p (29 + 4 * i) (29 + 4 * i + 4)).
  destruct (Z.eqb_spec id 0) as [H0|H0].
  { split; [done|]. intros (-> & Hf & _). apply Forall_app in Hf as [_ Hf].
    inversion Hf; done. }
  change (existsb (Z.eqb id) acc) with (oneof id acc).
  destruct (oneof id acc) eqn:He.
  { split; [done|]. intros (-> & _ & Hd). apply oneof_In in He.
    apply NoDup_app in Hd as (_ & Hd & _). exfalso. apply (Hd id He). left. }
  assert (id ∉ acc) as Hni by (rewrite <- oneof_In; by rewrite He).
  rewrite IHk; [|lia|lia| |].
  - by rewrite <- app_assoc.
  - apply Forall_app_2; [done|]. by constructor.
  - apply NoDup_app. split_and!; [done| |apply NoDup_singleton].
    intros x Hx ->%list_elem_of_singleton. done.
Qed.

Lemma parse_ids_no_panic p k : ∀ i acc, 0 ≤ i → SchedFixedLen + 4 * (i + Z.of_nat k) ≤ len p →
  parse_ids p i k acc ≠ Panic.
Proof.
  induction k; intros i acc Hi Hl; cbn [parse_ids]; [done|].
  rewrite sub_ok by len_lia. cbn [res_bind].
  rewrite Uint_ok by (rewrite len_slice; len_lia). cbn [res_bind].
  repeat case_match; try done. apply IHk; lia.
Qed.

Lemma ids_at_fits p k : ∀ i, Bytes p → 0 ≤ i → SchedFixedLen + 4 * (i + Z.of_nat k) ≤ len p →
  Forall (fits 32) (ids_at p i k).
Proof.
  induction k; intros i HB Hi Hl; cbn [ids_at]; constructor; [|apply IHk; (done || lia)].
  fits_field.
Qed.

Lemma wf_take s : wf s → len (take (Z.to_nat (N s)) (IDs s)) = N s.
Proof.
  intros (_ & _ & _ & _ & Hn & ids & Hl & _ & _ & ->). unfold len in Hl.
  rewrite take_app_le, take_ge by lia. unfold len. lia.
Qed.

Lemma sched_len_enc s : wf s → len (enc s) = SchedFixedLen + 4 * N s.
Proof. intros H. unfold enc. pose proof (wf_take s H). pose proof (len_enc_ids (take (Z.to_nat (N s)) (IDs s))). len_lia. Qed.

Lemma sched_put_eq dst s : wf s → len (enc s) ≤ len dst →
  PutSched dst s = Ok (enc s ++ drop (length (enc s)) dst, len (enc s)).
Proof.
  intros Hw Hd. pose proof (wf_take s Hw) as Ht. rewrite sched_len_enc in * by done.
  unfold PutSched.
  destruct (Z.ltb_spec (N s) 1); [destruct Hw; lia|].
  destruct (Z.ltb_spec MaxSchedIDs (N s)); [destruct Hw; lia|]. cbn [orb].
  destruct (Z.ltb_spec (len dst) (SchedFixedLen + 4 * N s)); [lia|].
  assert (fields_of ([(0, be 4 (Epoch s)); (4, be 8 (Death s)); (12, be 8 (Quality s));
           (20, be 8 (Explicit s)); (28, be 1 (N s))]
         ++ id_fields 0 (take (Z.to_nat (N s)) (IDs s))) = enc s) as Hf.
  { unfold fields_of, enc. cbn [app map snd concat].
    change (concat (map snd ?l)) with (fields_of l). by rewrite fields_of_ids. }
  rewrite puts_contig; rewrite ?Hf; [done| |by rewrite sched_len_enc].
  cbn [app contig]. autorewrite with rendr_len. split_and!; try done.
  exact (contig_ids _ 0).
Qed.

Lemma sched_parse_enc s : wf s → ParseSched (enc s) = Ok s.
Proof.
  intros Hw. pose proof (sched_len_enc s Hw) as Hl. pose proof (wf_take s Hw) as Ht.
  destruct Hw as (He & Hd & Hq & Hx & Hn & ids & Hli & Hfi & Hnd & Hids).
  assert (take (Z.to_nat (N s)) (IDs s) = ids) as Htk.
  { rewrite Hids. unfold len in Hli. rewrite take_app_le, take_ge by lia. done. }
  assert (is_u8 (N s)) by (unfold fits; unfold MaxSchedIDs in *; lia).
  unfold ParseSched. pass_guard. reads. unfold enc. fields. fold (enc s).
  destruct (Z.ltb_spec (N s) 1); [lia|].
  destruct (Z.ltb_spec MaxSchedIDs (N s)); [lia|]. cbn [orb].
  rewrite exactTail_eq by lia. cbn [check]. reads. unfold enc. fields. fold (enc s).
  assert (ids_at (enc s) 0 (Z.to_nat (N s)) = ids) as Hat.
  { unfold enc. rewrite Htk, !app_assoc. replace (Z.to_nat (N s)) with (length ids) by (unfold len in Hli; lia).
    apply ids_at_enc; [|len_lia|lia]. eapply Forall_impl; [done|]. by intros ? []. }
  assert (parse_ids (enc s) 0 (Z.to_nat (N s)) [] = Ok ids) as ->.
  { apply parse_ids_ok; [lia|unfold SchedFixedLen in *; lia|constructor|constructor|].
    rewrite Hat. split_and!; [done| |done]. eapply Forall_impl; [done|]. by intros ? []. }
  cbn [res_bind]. rewrite <- Hids. by destruct s.
Qed.

Lemma sched_parse_inv p s : Bytes p → ParseSched p = Ok s → wf s ∧ enc s = p.
Proof.
  intros HB H. unfold ParseSched in H. destruct (Z.ltb_spec (len p) SchedFixedLen); [done|].
  revert H. reads. intros H.
  destruct (Z.ltb_spec (field p 28 29) 1); [done|].
  destruct (Z.ltb_spec MaxSchedIDs (field p 28 29)); [done|]. cbn [orb] in H.
  apply check_ok in H as [Ht%exactTail_None H]. revert H. reads. intros H.
  apply res_bind_ok in H as (ids & Hids & [= <-]).
  apply parse_ids_ok in Hids as (Hat & Hz & Hnd);
    [|lia|unfold SchedFixedLen in *; lia|constructor|constructor]. cbn [app] in Hat.
  assert (len ids = field p 28 29) as Hli by (unfold len; rewrite Hat, length_ids_at; lia).
  split.
  - unfold wf. cbn [Epoch Death Quality Explicit N IDs].
    split_and!; try fits_field; try lia. exists ids. split_and!; try done.
    apply Forall_forall. intros x Hx. split.
    + pose proof (ids_at_fits p (Z.to_nat (field p 28 29)) 0 HB) as Hf.
      rewrite <- Hat in Hf. rewrite Forall_forall in Hf.
      apply Hf; [lia|unfold SchedFixedLen in *; lia|done].
    + rewrite Forall_forall in Hz. by apply Hz.
  - unfold enc. cbn [Epoch Death Quality Explicit N IDs].
    rewrite take_app_le, take_ge by (unfold len in Hli; lia).
    rewrite Hat, enc_ids_at by (done || (unfold SchedFixedLen in *; lia)).
    rewrite !be_field by (done || len_lia). unfold SchedFixedLen in *.
    rewrite !slice_join by lia. apply slice_full. lia.
Qed.

Lemma sched_no_panic p : Bytes p → ParseSched p ≠ Panic.
Proof.
  intros HB. unfold ParseSched. destruct (Z.ltb_spec (len p) SchedFixedLen); [done|].
  reads. destruct (Z.ltb_spec (field p 28 29) 1); [done|].
  case_match; [done|]. apply check_no_panic. intros Ht%exactTail_None. reads.
  apply res_bind_no_panic; [|done]. apply parse_ids_no_panic; unfold SchedFixedLen in *; lia.
Qed.
End Sched.

(** ** PING and PONG *)
Module Ping.
Record Ping := mkPing { ID : Z; TS : Z; Nonce : Z; Pad : Z }.

Definition PutPing (dst : bytes) (p : Ping) : res werr (bytes * Z) :=
  if (Pad p <? 0) || (MaxPingPad <? Pad p) then Panic
  else
    let n := PingFixedLen + Pad p in
    if len dst <? n then Panic
    else
      let! d := puts dst [ (0, be 4 (ID p)); (4, be 8 (TS p)); (12, be 8 (Nonce p));
                           (PingFixedLen, replicate (Z.to_nat (Pad p)) 0) ] in
      Ok (d, n).

(** binary.LittleEndian.Uint64 of eight bytes. *)
Definition le8 (b0 b1 b2 b3 b4 b5 b6 b7 : Z) : Z :=
  b0 + 2 ^ 8 * b1 + 2 ^ 16 * b2 + 2 ^ 24 * b3 + 2 ^ 32 * b4 + 2 ^ 40 * b5 +
  2 ^ 48 * b6 + 2 ^ 56 * b7.

(** CheckPad: eight bytes at a time, then the rest one by one. *)
Fixpoint CheckPad (b : bytes) : option werr :=
  match b with
  | b0 :: b1 :: b2 :: b3 :: b4 :: b5 :: b6 :: b7 :: r =>
      if negb (le8 b0 b1 b2 b3 b4 b5 b6 b7 =? 0) then Some ErrReserved else CheckPad r
  | _ => if existsb (λ c, negb (c =? 0)) b then Some ErrReserved else None
  end.

Definition ParsePing (p : bytes) : res werr Ping :=
  if len p <? PingFixedLen then Err ErrShort
  else
    let pad := len p - PingFixedLen in
    if MaxPingPad <? pad then Err ErrLength
    else
      let! tail := sub p PingFixedLen (len p) in
      check (CheckPad tail) (
        let! id := get p 0 4 in
        let! ts := get p 4 12 in
        let! nonce := get p 12 20 in
        Ok (mkPing id ts nonce pad)).

Lemma scan_spec b : existsb (λ c, negb (c =? 0)) b = false ↔ b = replicate (length b) 0.
Proof.
  induction b as [|c b IH]; [done|]. cbn [existsb length replicate].
  rewrite orb_false_iff, IH. destruct (Z.eqb_spec c 0) as [->|Hc]; cbn [negb].
  - split; [by intros [_ <-]|by intros [= <-]].
  - split; [by intros []|by intros [= ? _]].
Qed.

(** The word-wise scan is the byte-wise one. *)
Lemma CheckPad_spec b : Bytes b → CheckPad b = None ↔ b = replicate (length b) 0.
Proof.
  assert (∀ n b, (length b ≤ n)%nat → Bytes b →
    CheckPad b = None ↔ b = replicate (length b) 0) as Hgen; [|intros; by eapply Hgen].
  clear b. induction n as [|n IH]; intros b Hl HB.
  { destruct b; [done|simpl in Hl; lia]. }
  do 8 (destruct b as [|?c b];
    [rewrite <- scan_spec; cbn [CheckPad]; destruct (existsb _ _); naive_solver|]).
  repeat match goal with H : Bytes (_ :: _) |- _ => inversion H; clear H; subst end.
  unfold fits in *.
  cbn [CheckPad length replicate].
  destruct (Z.eqb_spec (le8 c c0 c1 c2 c3 c4 c5 c6) 0) as [He|He]; cbn [negb].
  - unfold le8 in He. assert (c = 0 ∧ c0 = 0 ∧ c1 = 0 ∧ c2 = 0 ∧ c3 = 0 ∧ c4 = 0 ∧ c5 = 0 ∧ c6 = 0)
      as (-> & -> & -> & -> & -> & -> & -> & ->) by lia.
    rewrite IH by (done || (simpl in Hl; lia)). split; [by intros <-|by intros [= <-]].
  - split; [done|]. intros [= -> -> -> -> -> -> -> -> _]. by destruct He.
Qed.

Definition wf (p : Ping) : Prop :=
  is_u32 (ID p) ∧ is_u64 (TS p) ∧ is_u64 (Nonce p) ∧ 0 ≤ Pad p ≤ MaxPingPad.

Definition enc (p : Ping) : bytes :=
  be 4 (ID p) ++ be 8 (TS p) ++ be 8 (Nonce p) ++ replicate (Z.to_nat (Pad p)) 0.

Lemma ping_len_enc p : 0 ≤ Pad p → len (enc p) = PingFixedLen + Pad p.
Proof. intros. unfold enc. len_lia. Qed.

Lemma ping_put_eq dst p : 0 ≤ Pad p ≤ MaxPingPad → len (enc p) ≤ len dst →
  PutPing dst p = Ok (enc p ++ drop (length (enc p)) dst, len (enc p)).
Proof.
  intros Hp. rewrite ping_len_enc by lia. intros Hd. unfold PutPing.
  destruct (Z.ltb_spec (Pad p) 0); [lia|].
  destruct (Z.ltb_spec MaxPingPad (Pad p)); [lia|]. cbn [orb]. by put_layout.
Qed.

Lemma Bytes_zeros n : Bytes (replicate n 0).
Proof. apply Forall_replicate. unfold fits. lia. Qed.

Lemma ping_parse_enc p : wf p → ParsePing (enc p) = Ok p.
Proof.
  intros (Hi & Ht & Hn & Hp). pose proof (ping_len_enc p) as Hl. specialize (Hl ltac:(lia)).
  unfold ParsePing. pass_guard. pass_guard. reads. unfold enc. fields. fold (enc p).
  rewrite (proj2 (CheckPad_spec _ (Bytes_zeros _))) by (by rewrite length_replicate).
  cbn [check]. rewrite Hl. destruct p; cbn [Pad ID TS Nonce]. do 2 f_equal. lia.
Qed.

Lemma ping_parse_inv q p : Bytes q → ParsePing q = Ok p → wf p ∧ enc p = q.
Proof.
  intros HB H. unfold ParsePing in H. destruct (Z.ltb_spec (len q) PingFixedLen); [done|].
  destruct (Z.ltb_spec MaxPingPad (len q - PingFixedLen)); [done|].
  revert H. reads. intros H. apply check_ok in H as [Hz H].
  apply CheckPad_spec in Hz; [|auto with rendr]. injection H as <-. split.
  - unfold wf. cbn [ID TS Nonce Pad]. split_and!; try fits_field; lia.
  - unfold enc. cbn [ID TS Nonce Pad].
    assert (replicate (Z.to_nat (len q - PingFixedLen)) 0 = slice q PingFixedLen (len q)) as ->.
    { assert (len (slice q PingFixedLen (len q)) = len q - PingFixedLen) as Hl
        by (rewrite len_slice; len_lia).
      rewrite Hz. f_equal. unfold len in *. lia. }
    by rejoin.
Qed.

Lemma ping_no_panic p : ParsePing p ≠ Panic.
Proof.
  unfold ParsePing. destruct (Z.ltb_spec (len p) PingFixedLen); [done|].
  case_match; [done|]. reads. by apply check_no_panic.
Qed.
End Ping.

(** ** CLOSE and GOAWAY *)
Module Reason.
Definition PutReason (dst : bytes) (r : Z) : res werr (bytes * Z) :=
  let! d := put dst 0 (be 1 r) in Ok (d, ReasonLen).

Definition ParseClose (p : bytes) : res werr Z :=
  check (exactTail (len p) ReasonLen) (
    let! r := idx p 0 in
    if oneof r [CloseRetire; CloseCapacity] then Ok r else Err ErrValue).

Definition ParseGoAway (p : bytes) : res werr Z :=
  check (exactTail (len p) ReasonLen) (
    let! r := idx p 0 in
    if r =? GoAwayShutdown then Ok r else Err ErrValue).

Definition wf_close (r : Z) : Prop := r = CloseRetire ∨ r = CloseCapacity.
Definition wf_goaway (r : Z) : Prop := r = GoAwayShutdown.

Lemma reason_put_eq dst r : ReasonLen ≤ len dst →
  PutReason dst r = Ok (be 1 r ++ drop (length (be 1 r)) dst, len (be 1 r)).
Proof. intros Hd. unfold PutReason. rewrite put_ok by len_lia. done. Qed.

Lemma close_enc r : wf_close r → ParseClose (be 1 r) = Ok r.
Proof. by intros [-> | ->]. Qed.
Lemma goaway_enc r : wf_goaway r → ParseGoAway (be 1 r) = Ok r.
Proof. by intros ->. Qed.

Lemma close_inv p r : Bytes p → ParseClose p = Ok r → wf_close r ∧ be 1 r = p.
Proof.
  intros HB H. unfold ParseClose in H. apply check_ok in H as [Ht%exactTail_None H].
  revert H. reads. destruct (oneof _ _) eqn:Ho; [|done]. intros [= <-]. split; [|by rejoin].
  apply oneof_In in Ho. unfold wf_close. rewrite !elem_of_cons, elem_of_nil in Ho. tauto.
Qed.

Lemma goaway_inv p r : Bytes p → ParseGoAway p = Ok r → wf_goaway r ∧ be 1 r = p.
Proof.
  intros HB H. unfold ParseGoAway in H. apply check_ok in H as [Ht%exactTail_None H].
  revert H. reads. destruct (Z.eqb_spec (field p 0 1) GoAwayShutdown) as [He|]; [|done].
  intros [= <-]. split; [done|by rejoin].
Qed.

Lemma close_no_panic p : ParseClose p ≠ Panic.
Proof. unfold ParseClose. apply check_no_panic. intros Ht%exactTail_None. reads. by case_match. Qed.
Lemma goaway_no_panic p : ParseGoAway p ≠ Panic.
Proof. unfold ParseGoAway. apply check_no_panic. intros Ht%exactTail_None. reads. by case_match. Qed.
End Reason.

(** ** Instances of the codec interface *)

Lemma Open_no_panic m p : Bytes p → Open.ParseOpen p m ≠ Panic.
Proof.
  intros HB. unfold Open.ParseOpen. destruct (Z.ltb_spec (len p) OpenFixedLen); [done|].
  reads. case_match; [done|]. apply check_no_panic. intros _. reads.
  apply check_no_panic. intros _. reads. by case_match.
Qed.

Lemma Open_layout m :
  layout (Open.wf m) Open.PutOpen (λ p, Open.ParseOpen p m) Open.enc.
Proof.
  split.
  - intros x. apply Open.open_parse_enc.
  - intros p x. apply Open.open_parse_inv.
  - intros x (HS & _ & _ & _ & _ & _ & _ & _ & HM & _). unfold Open.enc. enc_bytes.
  - intros dst x (_ & Hs & _ & _ & _ & _ & _ & _ & _ & Hm & _) Hd.
    rewrite Open.open_len_enc in Hd by done. apply Open.open_put_eq; try done.
    unfold Open.clamp_meta in Hm. lia.
  - intros p. apply Open_no_panic.
Qed.

Definition Open_codec (m : Z) : Codec Open.Open := build_codec (Open_layout m).

Lemma OpenAck_layout :
  layout OpenAck.wf OpenAck.PutOpenAck OpenAck.ParseOpenAck OpenAck.enc.
Proof.
  split.
  - apply OpenAck.openack_parse_enc.
  - apply OpenAck.openack_parse_inv.
  - intros x ((_ & _ & _ & HM & _) & _). unfold OpenAck.enc. enc_bytes.
  - intros dst x ((_ & _ & _ & _ & Hm) & _ & Hc) Hd.
    pose proof (OpenAck.openack_put_eq dst x Hm) as Hp. rewrite Hc in Hp. auto.
  - apply OpenAck.openack_no_panic.
Qed.

#[export] Instance OpenAck_codec : Codec OpenAck.OpenAck := build_codec OpenAck_layout.

Lemma Join_layout :
  layout Join.wf Join.PutJoin Join.ParseJoin Join.enc.
Proof.
  split.
  - apply Join.join_parse_enc.
  - apply Join.join_parse_inv.
  - intros x (HS & _). unfold Join.enc. enc_bytes.
  - intros dst x (_ & Hs & _) Hd. rewrite Join.join_len_enc in Hd by done. by apply Join.join_put_eq.
  - intros p _. apply Join.join_no_panic.
Qed.

#[export] Instance Join_codec : Codec Join.Join := build_codec Join_layout.

Lemma JoinAck_layout :
  layout JoinAck.wf JoinAck.PutJoinAck JoinAck.ParseJoinAck JoinAck.enc.
Proof.
  split.
  - apply JoinAck.joinack_parse_enc.
  - apply JoinAck.joinack_parse_inv.
  - intros x _. unfold JoinAck.enc. enc_bytes.
  - intros dst x Hw Hd. rewrite JoinAck.joinack_len_enc in Hd. by apply JoinAck.joinack_put_eq.
  - intros p _. apply JoinAck.joinack_no_panic.
Qed.

#[export] Instance JoinAck_codec : Codec JoinAck.JoinAck := build_codec JoinAck_layout.

Lemma JoinAckMux_layout :
  layout JoinAck.wf_mux (λ dst ac, JoinAck.PutJoinAckMux dst ac.1 ac.2)
    JoinAck.ParseJoinAckMux JoinAck.enc_mux.
Proof.
  split.
  - apply JoinAck.parse_mux_enc.
  - apply JoinAck.parse_mux_inv.
  - intros x _. unfold JoinAck.enc_mux. enc_bytes.
  - intros dst x Hw Hd. rewrite JoinAck.len_enc_mux in Hd. by apply JoinAck.put_mux_eq.
  - intros p _. apply JoinAck.mux_no_panic.
Qed.

#[export] Instance JoinAckMux_codec : Codec (JoinAck.JoinAck * Z) := build_codec JoinAckMux_layout.

Lemma Ack_layout :
  layout Ack.wf Ack.PutAck Ack.ParseAck Ack.enc.
Proof.
  split.
  - apply Ack.ack_parse_enc.
  - apply Ack.ack_parse_inv.
  - intros x _. unfold Ack.enc. enc_bytes.
  - intros dst x _ Hd. rewrite Ack.ack_len_enc in Hd. by apply Ack.ack_put_eq.
  - intros p _. apply Ack.ack_no_panic.
Qed.

#[export] Instance Ack_codec : Codec Ack.Ack := build_codec Ack_layout.

Lemma Fin_layout :
  layout (fits 64) Fin.PutFin Fin.ParseFin (be 8).
Proof.
  split.
  - apply Fin.fin_parse_enc.
  - apply Fin.fin_parse_inv.
  - intros x _. enc_bytes.
  - intros dst x _ Hd. apply Fin.fin_put_eq. len_lia.
  - intros p _. apply Fin.fin_no_panic.
Qed.

Definition Fin_codec : Codec Z := build_codec Fin_layout.

Lemma Rst_layout :
  layout Rst.wf Rst.PutRst Rst.ParseRst Rst.enc.
Proof.
  split.
  - apply Rst.rst_parse_enc.
  - apply Rst.rst_parse_inv.
  - intros x (_ & HM & _). unfold Rst.enc. enc_bytes.
  - intros dst x (_ & _ & Hm) Hd. by apply Rst.rst_put_eq.
  - apply Rst.rst_no_panic.
Qed.

#[export] Instance Rst_codec : Codec Rst.Rst := build_codec Rst_layout.

Lemma Sched_layout :
  layout Sched.wf Sched.PutSched Sched.ParseSched Sched.enc.
Proof.
  split.
  - apply Sched.sched_parse_enc.
  - apply Sched.sched_parse_inv.
  - intros x _. unfold Sched.enc. enc_bytes. unfold Sched.enc_ids.
    induction (take (Z.to_nat (Sched.N x)) (Sched.IDs x)); cbn [map concat]; enc_bytes.
  - intros dst x Hw Hd. by apply Sched.sched_put_eq.
  - apply Sched.sched_no_panic.
Qed.

#[export] Instance Sched_codec : Codec Sched.Sched := build_codec Sched_layout.

Lemma Ping_layout :
  layout Ping.wf Ping.PutPing Ping.ParsePing Ping.enc.
Proof.
  split.
  - apply Ping.ping_parse_enc.
  - apply Ping.ping_parse_inv.
  - intros x _. unfold Ping.enc. enc_bytes. apply Ping.Bytes_zeros.
  - intros dst x (_ & _ & _ & Hp) Hd. by apply Ping.ping_put_eq.
  - intros p _. apply Ping.ping_no_panic.
Qed.

#[export] Instance Ping_codec : Codec Ping.Ping := build_codec Ping_layout.

Lemma Close_layout :
  layout Reason.wf_close Reason.PutReason Reason.ParseClose (be 1).
Proof.
  split.
  - apply Reason.close_enc.
  - apply Reason.close_inv.
  - intros x _. enc_bytes.
  - intros dst x _ Hd. apply Reason.reason_put_eq. len_lia.
  - intros p _. apply Reason.close_no_panic.
Qed.

Definition Close_codec : Codec Z := build_codec Close_layout.

Lemma GoAway_layout :
  layout Reason.wf_goaway Reason.PutReason Reason.ParseGoAway (be 1).
Proof.
  split.
  - apply Reason.goaway_enc.
  - apply Reason.goaway_inv.
  - intros x _. enc_bytes.
  - intros dst x _ Hd. apply Reason.reason_put_eq. len_lia.
  - intros p _. apply Reason.goaway_no_panic.
Qed.

Definition GoAway_codec : Codec Z := build_codec GoAway_layout.
