(* ===== verification/WireDgram.v ===== *)
(** The datagram additions of wire format v2: DGRAM, PACK, REL, RACK, the
    raw-UDP flow header, DETACH, DOWN and the packet window field.

    Models the codecs of internal/wire/dgram.go, detach.go and down.go. *)

From Stdlib Require Import ZArith Lia String.
From stdpp Require Import base numbers list.
From S2P Require Import Prelude Buffers WireConst WireCrc WireFrame Codec WirePayload.

Open Scope Z_scope.
Open Scope rendr_scope.

(** ** DGRAM *)
Module Dgram.
Definition PutDgramSeq (dst : bytes) (seq : Z) : res werr bytes :=
  if len dst <? DgramPrefixLen then Panic else puts dst [(0, be 8 seq)].

Definition ParseDgram (p : bytes) : res werr (Z * bytes) :=
  if len p <? DgramPrefixLen then Err ErrShort
  else
    let! seq := get p 0 DgramPrefixLen in
    let! data := sub p DgramPrefixLen (len p) in
    Ok (seq, data).

Definition enc (d : Z * bytes) : bytes := be 8 d.1 ++ d.2.
Definition wf (d : Z * bytes) : Prop := is_u64 d.1 ∧ Bytes d.2.

(** The writer places the prefix, then the datagram's bytes behind it. *)
Definition put_frame (dst : bytes) (d : Z * bytes) : res werr (bytes * Z) :=
  let! b := PutDgramSeq dst d.1 in
  let! b := put b DgramPrefixLen d.2 in
  Ok (b, DgramPrefixLen + len d.2).

Lemma dgram_layout : layout wf put_frame ParseDgram enc.
Proof.
  split.
  - intros [q d] [Hq HD]. cbn [fst snd] in *. pose proof (len_nonneg d).
    assert (len (enc (q, d)) = 8 + len d) as Hl by (unfold enc; cbn [fst snd]; len_lia).
    unfold ParseDgram. pass_guard. reads. unfold enc, DgramPrefixLen. cbn [fst snd].
    by fields.
  - intros p [q d] HB H. unfold ParseDgram in H.
    destruct (Z.ltb_spec (len p) DgramPrefixLen); [done|].
    revert H. reads. intros [= <- <-]. unfold wf, enc. cbn [fst snd].
    split; [split; [fits_field|auto with rendr]|]. by rejoin.
  - intros [q d] [_ HD]. unfold enc. cbn [fst snd] in *. enc_bytes.
  - intros dst [q d] _ Hd. unfold enc in *. cbn [fst snd] in *.
    pose proof (len_nonneg d). unfold put_frame, PutDgramSeq. cbn [fst snd].
    pass_guard. rewrite puts_put; unfold fields_of; cbn [map snd concat app contig];
      rewrite ?app_nil_r; [|len_lia|len_lia].
    by replace (len (be 8 q ++ d)) with (DgramPrefixLen + len d) by len_lia.
  - intros p HB. unfold ParseDgram. case_match; [done|].
    destruct (Z.ltb_spec (len p) DgramPrefixLen); [done|]. by reads.
Qed.
End Dgram.

(** ** PACK *)
Module Pack.
Record Pack := mkPack { HighestSeq : Z; Received : Z; EpochEcho : Z }.

Definition PutPack (dst : bytes) (p : Pack) : res werr (bytes * Z) :=
  if len dst <? PackLen then Panic
  else
    let hi := if Received p =? 0 then 0 else HighestSeq p in
    let! d := puts dst [ (0, be 8 hi); (8, be 8 (Received p)); (16, be 4 (EpochEcho p)) ] in
    Ok (d, PackLen).

Definition ParsePack (p : bytes) : res werr Pack :=
  check (exactTail (len p) PackLen) (
    let! h := get p 0 8 in
    let! r := get p 8 16 in
    let! e := get p 16 20 in
    if (r =? 0) && negb (h =? 0) then Err ErrReserved else Ok (mkPack h r e)).

(** What PutPack puts on the wire for [p]. *)
Definition canonical (p : Pack) : Pack :=
  mkPack (if Received p =? 0 then 0 else HighestSeq p) (Received p) (EpochEcho p).

Definition fits_types (p : Pack) : Prop :=
  is_u64 (HighestSeq p) ∧ is_u64 (Received p) ∧ is_u32 (EpochEcho p).

Definition wf (p : Pack) : Prop := fits_types p ∧ (Received p = 0 → HighestSeq p = 0).

Definition enc (p : Pack) : bytes :=
  be 8 (HighestSeq p) ++ be 8 (Received p) ++ be 4 (EpochEcho p).

Lemma pack_len_enc p : len (enc p) = PackLen.
Proof. unfold enc. len_lia. Qed.

Lemma pack_put_eq dst p : PackLen ≤ len dst →
  PutPack dst p =
    Ok (enc (canonical p) ++ drop (length (enc (canonical p))) dst, len (enc (canonical p))).
Proof. intros Hd. rewrite pack_len_enc. unfold PutPack. by put_layout. Qed.

Lemma pack_canonical p : (Received p = 0 → HighestSeq p = 0) → canonical p = p.
Proof.
  intros Hr. unfold canonical. destruct p as [h r e]. cbn [HighestSeq Received EpochEcho] in *.
  destruct (Z.eqb_spec r 0); [by rewrite Hr|done].
Qed.

Lemma pack_canonical_wf p : fits_types p → wf (canonical p).
Proof.
  intros (Hh & Hr & He). unfold wf, fits_types, canonical. cbn [HighestSeq Received EpochEcho].
  destruct (Z.eqb_spec (Received p) 0); split_and!; try done; try lia.
Qed.

Lemma pack_layout : layout wf PutPack ParsePack enc.
Proof.
  split.
  - intros p [(Hh & Hr & He) Hc]. pose proof (pack_len_enc p).
    unfold ParsePack. rewrite exactTail_eq by done. cbn [check].
    reads. unfold enc. fields. destruct p as [h r e]. cbn [HighestSeq Received EpochEcho] in *.
    destruct (Z.eqb_spec r 0), (Z.eqb_spec h 0); try done. naive_solver.
  - intros b p HB H. unfold ParsePack in H. apply check_ok in H as [Ht%exactTail_None H].
    revert H. reads. destruct (Z.eqb_spec (field b 8 16) 0), (Z.eqb_spec (field b 0 8) 0);
      try done; cbn [andb negb]; intros [= <-]; unfold wf, fits_types, enc;
      cbn [HighestSeq Received EpochEcho].
    all: split; [split; [split_and!; fits_field|lia]|by rejoin].
  - intros p _. unfold enc. enc_bytes.
  - intros dst p [_ Hc] Hd. rewrite pack_len_enc in Hd. rewrite pack_put_eq by done.
    by rewrite pack_canonical.
  - intros b _. unfold ParsePack. apply check_no_panic. intros Ht%exactTail_None.
    reads. by case_match.
Qed.
End Pack.

#[export] Instance Pack_codec : Codec Pack.Pack := build_codec Pack.pack_layout.
#[export] Instance Dgram_codec : Codec (Z * bytes) := build_codec Dgram.dgram_layout.

(** ** REL *)
Module Rel.
Record RelHead := mkRelHead { Cseq : Z; RType : Z; RFlags : Z; RHandle : Z }.

Definition PutRelHead (dst : bytes) (h : RelHead) : res werr bytes :=
  if len dst <? RelHeadLen then Panic
  else puts dst [ (0, be 4 (Cseq h)); (4, be 1 (RType h)); (5, be 1 (RFlags h));
                  (6, be 4 (RHandle h)) ].

(** The checks of ParseRel behind the length, in the source's order; [n] is
    the inner length. *)
Definition check_rel (h : RelHead) (n : Z) : option werr :=
  if negb (Wrappable (RType h)) then Some ErrType
  else if negb (Z.ldiff (RFlags h) (AllowedFlags (RType h)) =? 0) then Some ErrFlags
  else if negb (handleOK (RType h) (RHandle h)) then Some ErrHandle
  else let '(lo, hi) := bounds_of (RType h) in
       if (n <? lo) || (hi <? n) then Some ErrLength else None.

Definition ParseRel (p : bytes) : res werr (RelHead * bytes) :=
  if len p <? RelHeadLen then Err ErrShort
  else
    let! c := get p 0 4 in
    let! t := idx p 4 in
    let! f := idx p 5 in
    let! d := get p 6 10 in
    let h := mkRelHead c t f d in
    check (check_rel h (len p - RelHeadLen)) (
      let! inner := sub p RelHeadLen (len p) in Ok (h, inner)).

(** A REL payload: the head, then the inner payload behind it. *)
Definition put_frame (dst : bytes) (r : RelHead * bytes) : res werr (bytes * Z) :=
  let! b := PutRelHead dst r.1 in
  let! b := put b RelHeadLen r.2 in
  Ok (b, RelHeadLen + len r.2).

Definition wf (r : RelHead * bytes) : Prop :=
  is_u32 (Cseq r.1) ∧ is_u8 (RType r.1) ∧ is_u8 (RFlags r.1) ∧ is_u32 (RHandle r.1) ∧
  Bytes r.2 ∧ check_rel r.1 (len r.2) = None.

Definition enc (r : RelHead * bytes) : bytes :=
  be 4 (Cseq r.1) ++ be 1 (RType r.1) ++ be 1 (RFlags r.1) ++ be 4 (RHandle r.1) ++ r.2.

Lemma rel_len_enc r : len (enc r) = RelHeadLen + len r.2.
Proof. unfold enc. len_lia. Qed.

Lemma rel_parse_enc r : wf r → ParseRel (enc r) = Ok r.
Proof.
  destruct r as [[c t f d] inner]. unfold wf. cbn [fst snd Cseq RType RFlags RHandle].
  intros (Hc & Ht & Hf & Hd & HB & Hck).
  pose proof (rel_len_enc (mkRelHead c t f d, inner)) as Hl. cbn [snd] in Hl.
  pose proof (len_nonneg inner). unfold ParseRel. pass_guard.
  reads. rewrite Hl. replace (RelHeadLen + len inner - RelHeadLen) with (len inner) by lia.
  unfold enc. cbn [fst snd Cseq RType RFlags RHandle]. fields. rewrite Hck. cbn [check].
  unfold RelHeadLen. by fields.
Qed.

Lemma rel_parse_inv p r : Bytes p → ParseRel p = Ok r → wf r ∧ enc r = p.
Proof.
  intros HB H. unfold ParseRel in H. destruct (Z.ltb_spec (len p) RelHeadLen); [done|].
  revert H. reads. intros [Hck H]%check_ok. revert H. intros [= <-].
  unfold wf, enc. cbn [fst snd Cseq RType RFlags RHandle]. split.
  - split_and!; try fits_field; [auto with rendr|].
    rewrite len_slice by len_lia. exact Hck.
  - by rejoin.
Qed.

Lemma rel_put_eq dst r : len (enc r) ≤ len dst →
  put_frame dst r = Ok (enc r ++ drop (length (enc r)) dst, len (enc r)).
Proof.
  rewrite rel_len_enc. intros Hd. pose proof (len_nonneg r.2).
  unfold put_frame, PutRelHead. pass_guard.
  rewrite puts_put; unfold fields_of; cbn [map snd concat app contig];
    rewrite ?app_nil_r, <- ?app_assoc; [done|len_lia|len_lia].
Qed.

Lemma rel_layout : layout wf put_frame ParseRel enc.
Proof.
  split.
  - apply rel_parse_enc.
  - apply rel_parse_inv.
  - intros r (_ & _ & _ & _ & HB & _). unfold enc. enc_bytes.
  - intros dst r _. apply rel_put_eq.
  - intros p _. unfold ParseRel. case_match; [done|].
    destruct (Z.ltb_spec (len p) RelHeadLen); [done|]. reads.
    apply check_no_panic. intros _. by reads.
Qed.
End Rel.

#[export] Instance Rel_codec : Codec (Rel.RelHead * bytes) := build_codec Rel.rel_layout.

(** ** RACK *)
Module Rack.
Record Rack := mkRack { CumAck : Z; Sack : Z }.

Definition rackSackMask : Z := Z.shiftl 1 (RelWindow - 1) - 1.

Definition PutRack (dst : bytes) (r : Rack) : res werr (bytes * Z) :=
  if len dst <? RackLen then Panic
  else let! d := puts dst [ (0, be 4 (CumAck r)); (4, be 4 (Sack r)) ] in Ok (d, RackLen).

Definition ParseRack (p : bytes) : res werr Rack :=
  check (exactTail (len p) RackLen) (
    let! c := get p 0 4 in
    let! s := get p 4 8 in
    if negb (Z.ldiff s rackSackMask =? 0) then Err ErrReserved else Ok (mkRack c s)).

Definition wf (r : Rack) : Prop :=
  is_u32 (CumAck r) ∧ is_u32 (Sack r) ∧ Z.ldiff (Sack r) rackSackMask = 0.

Definition enc (r : Rack) : bytes := be 4 (CumAck r) ++ be 4 (Sack r).

Lemma rack_layout : layout wf PutRack ParseRack enc.
Proof.
  assert (∀ r, len (enc r) = RackLen) as Hlen by (intros; unfold enc; len_lia).
  split.
  - intros r (Hc & Hs & Hm). specialize (Hlen r).
    unfold ParseRack. rewrite exactTail_eq by done. cbn [check].
    reads. unfold enc. fields. rewrite Hm. by destruct r.
  - intros b r HB H. unfold ParseRack in H. apply check_ok in H as [Ht%exactTail_None H].
    revert H. reads. destruct (Z.eqb_spec (Z.ldiff (field b 4 8) rackSackMask) 0); [|done].
    intros [= <-]. unfold wf, enc. cbn [CumAck Sack].
    split; [split_and!; (fits_field || done)|by rejoin].
  - intros r _. unfold enc. enc_bytes.
  - intros dst r _ Hd. rewrite Hlen in *. unfold PutRack. by put_layout.
  - intros b _. unfold ParseRack. apply check_no_panic. intros Ht%exactTail_None.
    reads. by case_match.
Qed.

(** The defined sack bits: exactly bits 0 … RelWindow − 2. *)
Lemma rack_sack_bits r i : wf r → 0 ≤ i → Z.testbit (Sack r) i = true → i < RelWindow - 1.
Proof.
  intros (_ & _ & Hm) Hi Hb. apply (f_equal (λ z, Z.testbit z i)) in Hm.
  rewrite Z.ldiff_spec, Hb, Z.bits_0 in Hm. cbn [andb] in Hm.
  apply negb_false_iff in Hm. unfold rackSackMask, RelWindow in *.
  destruct (Z.lt_ge_cases i 7); [done|].
  change (Z.shiftl 1 (8 - 1) - 1) with (Z.ones 7) in Hm.
  rewrite Z.ones_spec_high in Hm by lia. done.
Qed.
End Rack.

#[export] Instance Rack_codec : Codec Rack.Rack := build_codec Rack.rack_layout.

(** ** DETACH and DOWN *)
Module Detach.
Record Detach := mkDetach { DHandle : Z; DReason : Z }.

Definition PutDetach (dst : bytes) (d : Detach) : res werr (bytes * Z) :=
  if len dst <? DetachLen then Panic
  else let! b := puts dst [ (0, be 4 (DHandle d)); (4, be 1 (DReason d)) ] in Ok (b, DetachLen).

Definition ParseDetach (p : bytes) : res werr Detach :=
  check (exactTail (len p) DetachLen) (
    let! h := get p 0 4 in
    let! r := idx p 4 in
    if (h =? 0) || (r <? DetachEnded) || (DetachRetired <? r) then Err ErrValue
    else Ok (mkDetach h r)).

Definition wf (d : Detach) : Prop :=
  is_u32 (DHandle d) ∧ DHandle d ≠ 0 ∧ DetachEnded ≤ DReason d ≤ DetachRetired.

Definition enc (d : Detach) : bytes := be 4 (DHandle d) ++ be 1 (DReason d).

Lemma detach_layout : layout wf PutDetach ParseDetach enc.
Proof.
  assert (∀ d, len (enc d) = DetachLen) as Hlen by (intros; unfold enc; len_lia).
  split.
  - intros [h r] (Hh & Hz & Hr). specialize (Hlen (mkDetach h r)).
    cbn [DHandle DReason] in *. assert (is_u8 r) by (unfold fits; len_lia).
    unfold ParseDetach. rewrite exactTail_eq by done. cbn [check].
    reads. unfold enc. cbn [DHandle DReason]. fields.
    destruct (Z.eqb_spec h 0), (Z.ltb_spec r DetachEnded), (Z.ltb_spec DetachRetired r);
      try done; lia.
  - intros b d HB H. unfold ParseDetach in H. apply check_ok in H as [Ht%exactTail_None H].
    revert H. reads.
    destruct (Z.eqb_spec (field b 0 4) 0), (Z.ltb_spec (field b 4 5) DetachEnded),
      (Z.ltb_spec DetachRetired (field b 4 5)); try done. cbn [orb].
    intros [= <-]. unfold wf, enc. cbn [DHandle DReason].
    split; [split_and!; (fits_field || done)|by rejoin].
  - intros d _. unfold enc. enc_bytes.
  - intros dst d _ Hd. rewrite Hlen in *. unfold PutDetach. by put_layout.
  - intros b _. unfold ParseDetach. apply check_no_panic. intros Ht%exactTail_None.
    reads. by case_match.
Qed.
End Detach.

#[export] Instance Detach_codec : Codec Detach.Detach := build_codec Detach.detach_layout.

Module Down.
Definition PutDown (dst : bytes) (carrierID : Z) : res werr (bytes * Z) :=
  if len dst <? DownLen then Panic
  else let! b := puts dst [(0, be 4 carrierID)] in Ok (b, DownLen).

Definition ParseDown (p : bytes) : res werr Z :=
  check (exactTail (len p) DownLen) (
    let! id := get p 0 DownLen in if id =? 0 then Err ErrValue else Ok id).

Definition wf (id : Z) : Prop := is_u32 id ∧ id ≠ 0.

Lemma down_layout : layout wf PutDown ParseDown (be 4).
Proof.
  assert (∀ i, len (be 4 i) = DownLen) as Hlen by (intros; len_lia).
  split.
  - intros i (Hi & Hz). specialize (Hlen i).
    unfold ParseDown. rewrite exactTail_eq by done. cbn [check].
    reads. fields. by destruct (Z.eqb_spec i 0).
  - intros b d HB H. unfold ParseDown in H. apply check_ok in H as [Ht%exactTail_None H].
    revert H. reads. destruct (Z.eqb_spec (field b 0 4) 0); [done|].
    intros [= <-]. unfold wf. split; [split; [fits_field|done]|by rejoin].
  - intros d _. enc_bytes.
  - intros dst d _ Hd. rewrite Hlen in *. unfold PutDown. by put_layout.
  - intros b _. unfold ParseDown. apply check_no_panic. intros Ht%exactTail_None.
    reads. by case_match.
Qed.
End Down.

Definition Down_codec : Codec Z := build_codec Down.down_layout.

(** ** The raw-UDP flow header *)
Module Flow.
Definition PutFlowHeader (dst : bytes) (flow : Z) : res werr bytes :=
  if flow =? 0 then Panic
  else if len dst <? FlowHeaderLen then Panic
  else puts dst [ (0, be 1 FlowVersion); (1, be 8 flow) ].

Definition ParseFlowHeader (d : bytes) : res werr (Z * bytes) :=
  if len d <? FlowHeaderLen then Err ErrFlowHeader
  else
    let! v := idx d 0 in
    if negb (v =? FlowVersion) then Err ErrFlowHeader
    else
      let! flow := get d 1 FlowHeaderLen in
      if flow =? 0 then Err ErrFlowHeader
      else let! rest := sub d FlowHeaderLen (len d) in Ok (flow, rest).

(** A raw-UDP datagram: the header, then the rendr bytes behind it. *)
Definition put_frame (dst : bytes) (d : Z * bytes) : res werr (bytes * Z) :=
  let! b := PutFlowHeader dst d.1 in
  let! b := put b FlowHeaderLen d.2 in
  Ok (b, FlowHeaderLen + len d.2).

Definition wf (d : Z * bytes) : Prop := is_u64 d.1 ∧ d.1 ≠ 0 ∧ Bytes d.2.
Definition enc (d : Z * bytes) : bytes := be 1 FlowVersion ++ be 8 d.1 ++ d.2.

Lemma flow_layout : layout wf put_frame ParseFlowHeader enc.
Proof.
  assert (∀ d, len (enc d) = FlowHeaderLen + len d.2) as Hlen by (intros; unfold enc; len_lia).
  split.
  - intros [q d] (Hq & Hz & HD). specialize (Hlen (q, d)). cbn [fst snd] in *.
    pose proof (len_nonneg d). unfold ParseFlowHeader. pass_guard. reads.
    unfold enc, FlowHeaderLen. cbn [fst snd].
    rewrite (field_app_l (be 1 FlowVersion)), field_be by (try len_lia; by vm_compute).
    rewrite Z.eqb_refl. cbn [negb]. fields. by destruct (Z.eqb_spec q 0).
  - intros p [q d] HB H. unfold ParseFlowHeader in H.
    destruct (Z.ltb_spec (len p) FlowHeaderLen); [done|].
    revert H. reads. destruct (Z.eqb_spec (field p 0 1) FlowVersion) as [Hv|]; [|done].
    cbn [negb]. destruct (Z.eqb_spec (field p 1 9) 0); [done|].
    intros [= <- <-]. unfold wf, enc. cbn [fst snd]. rewrite <- Hv.
    split; [split_and!; [fits_field|done|auto with rendr]|]. by rejoin.
  - intros [q d] (_ & _ & HD). unfold enc. cbn [fst snd] in *. enc_bytes.
  - intros dst [q d] (_ & Hz & _) Hd. rewrite Hlen in *. cbn [fst snd] in *.
    pose proof (len_nonneg d). unfold put_frame, PutFlowHeader. cbn [fst snd].
    destruct (Z.eqb_spec q 0); [done|]. pass_guard.
    rewrite puts_put; unfold fields_of; cbn [map snd concat app contig];
      rewrite ?app_nil_r, <- ?app_assoc; [done|len_lia|len_lia].
  - intros p _. unfold ParseFlowHeader. destruct (Z.ltb_spec (len p) FlowHeaderLen); [done|].
    reads. case_match; [done|]. case_match; [done|]. by reads.
Qed.
End Flow.

Definition Flow_codec : Codec (Z * bytes) := build_codec Flow.flow_layout.

(** ** IsPreface *)
Definition IsPreface (b : bytes) : bool :=
  (PrefaceLen <=? len b) &&
  forallb (λ i, byte_at b i =? byte_at Magic i) [0; 1; 2; 3].

(** A frame never starts with the magic: no frame type is 'R'. *)
Lemma preface_not_frame b h : Bytes b → IsPreface b = true → ParseHeader b = Ok h → False.
Proof.
  intros HB Hp Hh. unfold IsPreface in Hp. apply andb_true_iff in Hp as [Hl Hm].
  apply Z.leb_le in Hl. apply andb_true_iff in Hm as [Hm _]. apply Z.eqb_eq in Hm.
  rewrite ParseHeader_eq in Hh by (done || len_lia).
  rewrite byte_at_field in Hm by len_lia.
  assert (h_Type (dec_header b) = TypeReservedR) as Ht by (unfold dec_header; exact Hm).
  unfold check_header in Hh. rewrite Ht in Hh.
  destruct (MaxFramePayload <? _); [done|]. by vm_compute in Hh.
Qed.

(** ** PacketWindow *)
Definition PacketWindow (pmtu cmtu : Z) : Z := Z.lor (u32 (Z.shiftl pmtu 16)) cmtu.
Definition SplitPacketWindow (w : Z) : Z * Z := (wrap 16 (Z.shiftr w 16), wrap 16 w).

Lemma PacketWindow_eq pmtu cmtu : is_u16 pmtu → is_u16 cmtu →
  PacketWindow pmtu cmtu = pmtu * 2 ^ 16 + cmtu.
Proof.
  intros Hp Hc. unfold PacketWindow. rewrite wrap_small.
  - by apply lor_shiftl_add.
  - rewrite Z.shiftl_mul_pow2 by lia. unfold fits in *. lia.
Qed.

Lemma SplitPacketWindow_PacketWindow pmtu cmtu : is_u16 pmtu → is_u16 cmtu →
  SplitPacketWindow (PacketWindow pmtu cmtu) = (pmtu, cmtu).
Proof.
  intros Hp Hc. rewrite PacketWindow_eq by done. unfold SplitPacketWindow.
  rewrite Z.shiftr_div_pow2, Z.div_add_l, Z.div_small by (unfold fits in *; lia).
  rewrite Z.add_0_r, (wrap_small 16 pmtu) by done. f_equal.
  unfold wrap. rewrite Z.add_comm, Z.mod_add by lia. by apply Z.mod_small.
Qed.

Lemma PacketWindow_SplitPacketWindow w : is_u32 w →
  PacketWindow (SplitPacketWindow w).1 (SplitPacketWindow w).2 = w.
Proof.
  intros Hw. unfold SplitPacketWindow. cbn [fst snd].
  rewrite PacketWindow_eq by (apply wrap_fits; lia).
  rewrite Z.shiftr_div_pow2 by lia. rewrite (wrap_small 16 (w / 2 ^ 16)).
  - unfold wrap. rewrite Z.mul_comm. symmetry. apply Z.div_mod. lia.
  - unfold fits in *. split; [apply Z.div_pos; lia|].
    apply Z.div_lt_upper_bound; lia.
Qed.
