(* ===== verification/WirePreface.v ===== *)
(** The 40-byte PREFACE and PREFACE_ACK that open a carrier direction.

    Models internal/wire/preface.go.  The parsers return Go's pair of a value
    and an error: ErrFeature alone comes with the decoded value. *)

From Stdlib Require Import ZArith Lia.
From stdpp Require Import base numbers list.
From S2P Require Import Prelude Buffers WireConst WireCrc WireFrame Codec WirePayload WireDgram.

Open Scope Z_scope.
Open Scope rendr_scope.

(** Byte 6 is the kind of a PREFACE and the status of a PREFACE_ACK; the two
    structs have the same fields otherwise. *)
Record Preface := mkPreface {
  p_Minor : Z; p_Kind : Z; p_Req : Z; p_Opt : Z; p_Instance : bytes; p_CarrierID : Z
}.
Record PrefaceAck := mkPrefaceAck {
  a_Minor : Z; a_Status : Z; a_Req : Z; a_Opt : Z; a_Instance : bytes; a_CarrierID : Z
}.

Definition zeroPreface : Preface := mkPreface 0 0 0 0 zero16 0.
Definition zeroPrefaceAck : PrefaceAck := mkPrefaceAck 0 0 0 0 zero16 0.

Definition putPreface (b : bytes) (minor b6 role req opt : Z) (inst : bytes) (id : Z)
    : res werr bytes :=
  if len b <? PrefaceLen then Panic
  else
    let! b := puts b [ (0, Magic); (4, be 1 Major); (5, be 1 minor); (6, be 1 b6);
                       (7, be 1 role); (8, be 4 req); (12, be 4 opt); (16, inst);
                       (32, be 4 id) ] in
    let! head := sub b 0 36 in
    put b 36 (be 4 (CRC head)).

Definition PutPreface (b : bytes) (p : Preface) : res werr bytes :=
  putPreface b (p_Minor p) (p_Kind p) RoleDialer (p_Req p) (p_Opt p) (p_Instance p) (p_CarrierID p).

Definition PutPrefaceAck (b : bytes) (a : PrefaceAck) : res werr bytes :=
  putPreface b (a_Minor a) (a_Status a) RolePassive (a_Req a) (a_Opt a) (a_Instance a) (a_CarrierID a).

Definition PrefaceFseq (b : bytes) : res werr Z := get b 36 PrefaceLen.

Definition checkPreface (b : bytes) (role : Z) : res werr (option werr) :=
  if len b <? PrefaceLen then Ok (Some ErrShort)
  else if PrefaceLen <? len b then Ok (Some ErrTrailing)
  else
    let! m0 := idx b 0 in
    let! m1 := idx b 1 in
    let! m2 := idx b 2 in
    let! m3 := idx b 3 in
    if negb (m0 =? byte_at Magic 0) || negb (m1 =? byte_at Magic 1) ||
       negb (m2 =? byte_at Magic 2) || negb (m3 =? byte_at Magic 3) then Ok (Some ErrMagic)
    else
      let! head := sub b 0 36 in
      let! crc := get b 36 40 in
      if negb (CRC head =? crc) then Ok (Some ErrCRC)
      else
        let! major := idx b 4 in
        if negb (major =? Major) then Ok (Some ErrMajor)
        else
          let! r := idx b 7 in
          if negb (r =? role) then Ok (Some ErrMalformed) else Ok None.

Definition ParsePreface (b : bytes) : res werr (Preface * option werr) :=
  let! err := checkPreface b RoleDialer in
  match err with
  | Some e => Ok (zeroPreface, Some e)
  | None =>
      let! minor := idx b 5 in
      let! kind := idx b 6 in
      let! req := get b 8 12 in
      let! opt := get b 12 16 in
      let! id := get b 32 36 in
      let! inst := sub b 16 32 in
      if negb (kind =? KindStream) && negb (kind =? KindDatagram)
      then Ok (zeroPreface, Some ErrMalformed)
      else if bool_decide (inst = zero16) || (id =? 0) then Ok (zeroPreface, Some ErrMalformed)
      else
        let p := mkPreface minor kind req opt inst id in
        if negb (Z.ldiff req KnownRequired =? 0) then Ok (p, Some ErrFeature)
        else Ok (p, None)
  end.

Definition ParsePrefaceAck (b : bytes) : res werr (PrefaceAck * option werr) :=
  let! err := checkPreface b RolePassive in
  match err with
  | Some e => Ok (zeroPrefaceAck, Some e)
  | None =>
      let! minor := idx b 5 in
      let! status := idx b 6 in
      let! req := get b 8 12 in
      let! opt := get b 12 16 in
      let! id := get b 32 36 in
      let! inst := sub b 16 32 in
      if PrefaceCapacity <? status then Ok (zeroPrefaceAck, Some ErrMalformed)
      else if bool_decide (inst = zero16) || (id =? 0) then Ok (zeroPrefaceAck, Some ErrMalformed)
      else
        let a := mkPrefaceAck minor status req opt inst id in
        if negb (Z.ldiff req KnownRequired =? 0) then Ok (a, Some ErrFeature)
        else Ok (a, None)
  end.

Definition EchoOpt (offered : Z) : Z := Z.land offered KnownOptional.

Definition MuxNegotiated (sent answered : Z) : bool * option werr :=
  if negb (Z.land answered OptMux =? 0) && (Z.land sent OptMux =? 0)
  then (false, Some ErrMalformed)
  else (negb (Z.land (Z.land sent answered) OptMux =? 0), None).

(** ** The common layout *)

(** The 36 bytes the CRC covers; [pv] is major, minor, byte 6 and role. *)
Definition enc_head (pv : Z * Z * Z * Z) (req opt : Z) (inst : bytes) (id : Z) : bytes :=
  let '(major, minor, b6, role) := pv in
  Magic ++ be 1 major ++ be 1 minor ++ be 1 b6 ++ be 1 role ++ be 4 req ++ be 4 opt ++ inst ++ be 4 id.

Definition enc_preface (pv : Z * Z * Z * Z) (req opt : Z) (inst : bytes) (id : Z) : bytes :=
  enc_head pv req opt inst id ++ be 4 (CRC (enc_head pv req opt inst id)).

Definition inst_ok (i : bytes) : Prop := Bytes i ∧ len i = 16.

Lemma len_Magic : len Magic = 4. Proof. done. Qed.
#[export] Hint Rewrite len_Magic : rendr_len.

Lemma len_enc_head pv req opt inst id : len inst = 16 → len (enc_head pv req opt inst id) = 36.
Proof. intros. destruct pv as [[[? ?] ?] ?]. unfold enc_head. len_lia. Qed.

Lemma len_enc_preface pv req opt inst id :
  len inst = 16 → len (enc_preface pv req opt inst id) = PrefaceLen.
Proof. intros. unfold enc_preface. rewrite len_app, len_enc_head, len_be by done. done. Qed.

Lemma Bytes_Magic : Bytes Magic.
Proof. unfold Magic. repeat constructor; done. Qed.

Lemma Bytes_enc_head pv req opt inst id : Bytes inst → Bytes (enc_head pv req opt inst id).
Proof.
  intros. destruct pv as [[[? ?] ?] ?]. unfold enc_head.
  repeat apply Forall_app_2; auto using Bytes_Magic with rendr.
Qed.

Lemma Bytes_enc_preface pv req opt inst id : Bytes inst → Bytes (enc_preface pv req opt inst id).
Proof.
  intros. unfold enc_preface. apply Forall_app_2; [by apply Bytes_enc_head|auto with rendr].
Qed.

Lemma putPreface_eq b minor b6 role req opt inst id :
  len inst = 16 → PrefaceLen ≤ len b →
  putPreface b minor b6 role req opt inst id =
    Ok (enc_preface (Major, minor, b6, role) req opt inst id ++ drop 40 b).
Proof.
  intros Hi Hb. unfold putPreface. pass_guard. rewrite puts_contig by contig_tac.
  cbn [res_bind]. unfold fields_of. cbn [map snd concat]. rewrite app_nil_r.
  fold (enc_head (Major, minor, b6, role) req opt inst id).
  set (e := enc_head _ _ _ _ _).
  assert (len e = 36) as He by (by apply len_enc_head).
  assert (length e = 36%nat) as He' by (unfold len in He; lia). rewrite He'.
  rewrite sub_ok by (rewrite ?len_app, ?len_drop; len_lia). cbn [res_bind].
  rewrite slice_app_l, slice_full by lia.
  rewrite put_ok by (rewrite ?len_app, ?len_drop, ?len_be; len_lia).
  unfold enc_preface. fold e. rewrite len_be. change (Z.to_nat 36) with 36%nat.
  change (Z.to_nat (36 + Z.of_nat 4)) with 40%nat.
  rewrite take_app_length' by done. rewrite drop_app_ge by lia. rewrite He', drop_drop.
  by rewrite <- app_assoc.
Qed.

(** Reading the common layout back, field by field. *)
Lemma enc_preface_fields pv req opt inst id :
  let '(major, minor, b6, role) := pv in
  let b := enc_preface pv req opt inst id in
  is_u8 major → is_u8 minor → is_u8 b6 → is_u8 role → is_u32 req → is_u32 opt → is_u32 id →
  inst_ok inst →
  slice b 0 4 = Magic ∧ field b 4 5 = major ∧ field b 5 6 = minor ∧ field b 6 7 = b6 ∧
  field b 7 8 = role ∧ field b 8 12 = req ∧ field b 12 16 = opt ∧ slice b 16 32 = inst ∧
  field b 32 36 = id ∧ slice b 0 36 = enc_head pv req opt inst id ∧
  field b 36 40 = CRC (enc_head pv req opt inst id).
Proof.
  destruct pv as [[[major minor] b6] role]. cbv zeta. intros ??????? [HB Hi].
  pose proof (len_enc_head (major, minor, b6, role) req opt inst id Hi) as He.
  assert (is_u32 (CRC (enc_head (major, minor, b6, role) req opt inst id))) as Hc
    by (by apply CRC_fits, Bytes_enc_head).
  unfold enc_preface. split_and!.
  all: try (rewrite (slice_app_l (enc_head _ _ _ _ _)) by lia; by apply slice_full).
  all: try (rewrite (field_app_r (enc_head _ _ _ _ _)) by lia; rewrite He;
            apply field_be; (done || lia)).
  all: unfold enc_head; rewrite <- ?app_assoc; by fields.
Qed.

Lemma magic_bytes b :
  len b = PrefaceLen →
  slice b 0 4 = Magic ↔ field b 0 1 = 82 ∧ field b 1 2 = 78 ∧ field b 2 3 = 68 ∧ field b 3 4 = 50.
Proof.
  intros Hl. rewrite <- (slice_join b 0 1 4), <- (slice_join b 1 2 4), <- (slice_join b 2 3 4) by lia.
  assert (∀ i, 0 ≤ i < 4 → slice b i (i + 1) = [field b i (i + 1)]) as Hs.
  { intros i Hi. pose proof (len_slice b i (i + 1) ltac:(lia) ltac:(lia) ltac:(len_lia)) as Hn.
    unfold field. unfold len in Hn. destruct (slice b i (i + 1)) as [|x [|y r]]; simpl in Hn; try lia.
    cbn [be_val]. rewrite (len_nil (A := Z)). f_equal. lia. }
  assert (slice b 0 1 = [field b 0 1]) as -> by (apply (Hs 0); lia).
  assert (slice b 1 2 = [field b 1 2]) as -> by (apply (Hs 1); lia).
  assert (slice b 2 3 = [field b 2 3]) as -> by (apply (Hs 2); lia).
  assert (slice b 3 4 = [field b 3 4]) as -> by (apply (Hs 3); lia).
  cbn [app]. unfold Magic.
  split; [by intros [= -> -> -> ->]|by intros (-> & -> & -> & ->)].
Qed.

(** checkPreface on 40 bytes, in terms of the fields. *)
Lemma checkPreface_eq b role : len b = PrefaceLen →
  checkPreface b role = Ok (
    if negb (bool_decide (slice b 0 4 = Magic)) then Some ErrMagic
    else if negb (CRC (slice b 0 36) =? field b 36 40) then Some ErrCRC
    else if negb (field b 4 5 =? Major) then Some ErrMajor
    else if negb (field b 7 8 =? role) then Some ErrMalformed else None).
Proof.
  intros Hl. unfold checkPreface. rewrite Hl. cbn [Z.ltb Z.compare PrefaceLen].
  reads. change (byte_at Magic 0) with 82. change (byte_at Magic 1) with 78.
  change (byte_at Magic 2) with 68. change (byte_at Magic 3) with 50.
  pose proof (magic_bytes b Hl) as Hm.
  destruct (bool_decide_reflect (slice b 0 4 = Magic)) as [Hs|Hs].
  - apply Hm in Hs as (-> & -> & -> & ->). cbn. by repeat case_match.
  - rewrite Hm in Hs. cbn [negb].
    destruct (Z.eqb_spec (field b 0 1) 82), (Z.eqb_spec (field b 1 2) 78),
      (Z.eqb_spec (field b 2 3) 68), (Z.eqb_spec (field b 3 4) 50); try done; naive_solver.
Qed.

(** Well-formed values: the struct's field types and what the parser demands
    of every field but the required bits. *)
Definition preface_wf (p : Preface) : Prop :=
  is_u8 (p_Minor p) ∧ (p_Kind p = KindStream ∨ p_Kind p = KindDatagram) ∧
  is_u32 (p_Req p) ∧ is_u32 (p_Opt p) ∧ inst_ok (p_Instance p) ∧ p_Instance p ≠ zero16 ∧
  is_u32 (p_CarrierID p) ∧ p_CarrierID p ≠ 0.

Definition preface_ack_wf (a : PrefaceAck) : Prop :=
  is_u8 (a_Minor a) ∧ 0 ≤ a_Status a ≤ PrefaceCapacity ∧
  is_u32 (a_Req a) ∧ is_u32 (a_Opt a) ∧ inst_ok (a_Instance a) ∧ a_Instance a ≠ zero16 ∧
  is_u32 (a_CarrierID a) ∧ a_CarrierID a ≠ 0.

(** The error that comes with a well-formed value: unknown required bits. *)
Definition feature_err (req : Z) : option werr :=
  if req =? 0 then None else Some ErrFeature.

Definition enc_p (p : Preface) : bytes :=
  enc_preface (Major, p_Minor p, p_Kind p, RoleDialer) (p_Req p) (p_Opt p) (p_Instance p)
    (p_CarrierID p).
Definition enc_a (a : PrefaceAck) : bytes :=
  enc_preface (Major, a_Minor a, a_Status a, RolePassive) (a_Req a) (a_Opt a) (a_Instance a)
    (a_CarrierID a).

Lemma KnownRequired_ldiff req : (Z.ldiff req KnownRequired =? 0) = (req =? 0).
Proof. unfold KnownRequired. by rewrite Z.ldiff_0_r. Qed.

Lemma is_u8_small k : 0 ≤ k ≤ 4 → is_u8 k.
Proof. unfold fits. lia. Qed.

Lemma ParsePreface_enc p : preface_wf p → ParsePreface (enc_p p) = Ok (p, feature_err (p_Req p)).
Proof.
  intros (Hm & Hk & Hr & Ho & Hi & Hz & Hid & Hid0).
  assert (is_u8 (p_Kind p)) as Hk8 by (apply is_u8_small; len_lia).
  pose proof (len_enc_preface (Major, p_Minor p, p_Kind p, RoleDialer) (p_Req p) (p_Opt p)
    (p_Instance p) (p_CarrierID p) (proj2 Hi)) as Hl.
  pose proof (enc_preface_fields (Major, p_Minor p, p_Kind p, RoleDialer) (p_Req p) (p_Opt p)
    (p_Instance p) (p_CarrierID p)) as Hf. cbv beta iota zeta in Hf.
  destruct Hf as (F0 & F4 & F5 & F6 & F7 & F8 & F12 & F16 & F32 & F36 & F40); try done.
  fold (enc_p p) in *. unfold ParsePreface. rewrite checkPreface_eq by done. cbn [res_bind].
  rewrite F0, F4, F7, F36, F40, !Z.eqb_refl, bool_decide_eq_true_2 by done. cbn [negb].
  reads. rewrite F5, F6, F8, F12, F16, F32, KnownRequired_ldiff.
  rewrite (bool_decide_eq_false_2 (p_Instance p = zero16)) by done.
  destruct (Z.eqb_spec (p_CarrierID p) 0); [done|]. unfold feature_err.
  destruct p as [mi k rq op ins id]; cbn [p_Minor p_Kind p_Req p_Opt p_Instance p_CarrierID] in *.
  by destruct Hk as [-> | ->]; destruct (rq =? 0).
Qed.

Lemma ParsePrefaceAck_enc a :
  preface_ack_wf a → ParsePrefaceAck (enc_a a) = Ok (a, feature_err (a_Req a)).
Proof.
  intros (Hm & Hk & Hr & Ho & Hi & Hz & Hid & Hid0).
  assert (is_u8 (a_Status a)) as Hk8 by (apply is_u8_small; len_lia).
  pose proof (len_enc_preface (Major, a_Minor a, a_Status a, RolePassive) (a_Req a) (a_Opt a)
    (a_Instance a) (a_CarrierID a) (proj2 Hi)) as Hl.
  pose proof (enc_preface_fields (Major, a_Minor a, a_Status a, RolePassive) (a_Req a) (a_Opt a)
    (a_Instance a) (a_CarrierID a)) as Hf. cbv beta iota zeta in Hf.
  destruct Hf as (F0 & F4 & F5 & F6 & F7 & F8 & F12 & F16 & F32 & F36 & F40); try done.
  fold (enc_a a) in *. unfold ParsePrefaceAck. rewrite checkPreface_eq by done. cbn [res_bind].
  rewrite F0, F4, F7, F36, F40, !Z.eqb_refl, bool_decide_eq_true_2 by done. cbn [negb].
  reads. rewrite F5, F6, F8, F12, F16, F32, KnownRequired_ldiff.
  rewrite (bool_decide_eq_false_2 (a_Instance a = zero16)) by done.
  destruct (Z.eqb_spec (a_CarrierID a) 0); [done|]. unfold feature_err.
  destruct (Z.ltb_spec PrefaceCapacity (a_Status a)); [lia|].
  by destruct a, (a_Req _ =? 0).
Qed.

(** 40 bytes that pass checkPreface are the layout of their own fields. *)
Lemma checkPreface_pass b role :
  Bytes b → checkPreface b role = Ok None →
  len b = PrefaceLen ∧
  b = enc_preface (Major, field b 5 6, field b 6 7, role) (field b 8 12) (field b 12 16)
        (slice b 16 32) (field b 32 36).
Proof.
  intros HB H. assert (len b = PrefaceLen) as Hl.
  { unfold checkPreface in H.
    destruct (Z.ltb_spec (len b) PrefaceLen), (Z.ltb_spec PrefaceLen (len b)); (done || lia). }
  split; [done|]. rewrite checkPreface_eq in H by done.
  case_bool_decide as Hm; [|done]. cbn [negb] in H.
  destruct (Z.eqb_spec (CRC (slice b 0 36)) (field b 36 40)) as [Hc|]; [|done].
  destruct (Z.eqb_spec (field b 4 5) Major) as [Hj|]; [|done].
  destruct (Z.eqb_spec (field b 7 8) role) as [Hr|]; [|done].
  rewrite <- Hj, <- Hr. unfold enc_preface, enc_head. rewrite <- Hm.
  rewrite !be_field by (done || len_lia). rewrite !slice_join by lia.
  rewrite Hc, be_field, slice_join, slice_full by (done || len_lia). done.
Qed.

Lemma checkPreface_cases b role :
  ∃ e, checkPreface b role = Ok e ∧ e ≠ Some ErrFeature.
Proof.
  destruct (Z.eq_dec (len b) PrefaceLen) as [Hl|Hl].
  - rewrite checkPreface_eq by done. eexists. split; [done|]. by repeat case_match.
  - unfold checkPreface. destruct (Z.ltb_spec (len b) PrefaceLen); [by eexists|].
    destruct (Z.ltb_spec PrefaceLen (len b)); [by eexists|lia].
Qed.

Lemma ParsePreface_inv b p e :
  Bytes b → ParsePreface b = Ok (p, e) → e = None ∨ e = Some ErrFeature →
  preface_wf p ∧ e = feature_err (p_Req p) ∧ b = enc_p p.
Proof.
  intros HB H He. unfold ParsePreface in H. apply res_bind_ok in H as ([e0|] & Hc & H).
  - exfalso. injection H as _ <-. destruct (checkPreface_cases b RoleDialer) as (e1 & Hc' & Hn).
    rewrite Hc in Hc'. injection Hc' as <-. by destruct He as [|[= ->]].
  - destruct (checkPreface_pass b RoleDialer HB Hc) as [Hl Hb]. revert H. reads.
    destruct (Z.eqb_spec (field b 6 7) KindStream), (Z.eqb_spec (field b 6 7) KindDatagram);
      cbn [negb andb]; try (intros [= <- <-]; naive_solver).
    all: case_bool_decide; cbn [orb]; try (intros [= <- <-]; naive_solver).
    all: destruct (Z.eqb_spec (field b 32 36) 0); try (intros [= <- <-]; naive_solver).
    all: rewrite KnownRequired_ldiff; intros H';
      assert (p = mkPreface (field b 5 6) (field b 6 7) (field b 8 12) (field b 12 16)
                (slice b 16 32) (field b 32 36) ∧ e = feature_err (field b 8 12)) as [-> ->]
        by (unfold feature_err; destruct (field b 8 12 =? 0); by injection H' as <- <-).
    all: unfold preface_wf, inst_ok, enc_p;
      cbn [p_Minor p_Kind p_Req p_Opt p_Instance p_CarrierID];
      split_and!; try fits_field; auto with rendr; rewrite len_slice; len_lia.
Qed.

Lemma ParsePrefaceAck_inv b a e :
  Bytes b → ParsePrefaceAck b = Ok (a, e) → e = None ∨ e = Some ErrFeature →
  preface_ack_wf a ∧ e = feature_err (a_Req a) ∧ b = enc_a a.
Proof.
  intros HB H He. unfold ParsePrefaceAck in H. apply res_bind_ok in H as ([e0|] & Hc & H).
  - exfalso. injection H as _ <-. destruct (checkPreface_cases b RolePassive) as (e1 & Hc' & Hn).
    rewrite Hc in Hc'. injection Hc' as <-. by destruct He as [|[= ->]].
  - destruct (checkPreface_pass b RolePassive HB Hc) as [Hl Hb]. revert H. reads.
    assert (is_u8 (field b 6 7)) as H6 by fits_field.
    destruct (Z.ltb_spec PrefaceCapacity (field b 6 7)); [intros [= <- <-]; naive_solver|].
    case_bool_decide; cbn [orb]; [intros [= <- <-]; naive_solver|].
    destruct (Z.eqb_spec (field b 32 36) 0); [intros [= <- <-]; naive_solver|].
    rewrite KnownRequired_ldiff; intros H';
      assert (a = mkPrefaceAck (field b 5 6) (field b 6 7) (field b 8 12) (field b 12 16)
                (slice b 16 32) (field b 32 36) ∧ e = feature_err (field b 8 12)) as [-> ->]
        by (unfold feature_err; destruct (field b 8 12 =? 0); by injection H' as <- <-).
    unfold preface_ack_wf, inst_ok, enc_a;
      cbn [a_Minor a_Status a_Req a_Opt a_Instance a_CarrierID].
    split_and!; try fits_field; auto with rendr; try (rewrite len_slice; len_lia).
Qed.

Lemma ParsePreface_total b :
  Bytes b → ∃ p e, ParsePreface b = Ok (p, e) ∧
    (e = None ∨ e = Some ErrFeature ∨ p = zeroPreface).
Proof.
  intros HB. unfold ParsePreface.
  destruct (checkPreface_cases b RoleDialer) as (e & Hc & _). rewrite Hc. cbn [res_bind].
  destruct e as [e|]; [by eauto 10|].
  destruct (checkPreface_pass b RoleDialer HB Hc) as [Hl _]. reads.
  repeat (case_match; [eauto 6|]). eauto 6.
Qed.

(** ** Properties *)

(** C16. PREFACE and PREFACE_ACK round trip: what PutPreface (PutPrefaceAck) writes
    for a well-formed value is read back as that value; the error is nil, or
    ErrFeature when the value has required bits this build does not know; and
    PrefaceFseq of the bytes is their checksum, the first fseq of the
    direction. *)
Theorem preface_roundtrip p a :
  preface_wf p → preface_ack_wf a →
  (∃ b, PutPreface (replicate 40 0) p = Ok b ∧ len b = PrefaceLen ∧
     ParsePreface b = Ok (p, feature_err (p_Req p)) ∧ IsPreface b = true ∧
     PrefaceFseq b = Ok (CRC (slice b 0 36))) ∧
  (∃ b, PutPrefaceAck (replicate 40 0) a = Ok b ∧ len b = PrefaceLen ∧
     ParsePrefaceAck b = Ok (a, feature_err (a_Req a)) ∧ IsPreface b = true ∧
     PrefaceFseq b = Ok (CRC (slice b 0 36))).
Proof.
  intros Hp Ha.
  assert (∀ pv req opt inst id, inst_ok inst →
    IsPreface (enc_preface pv req opt inst id) = true ∧
    PrefaceFseq (enc_preface pv req opt inst id) =
      Ok (CRC (slice (enc_preface pv req opt inst id) 0 36))) as Hcommon.
  { intros [[[mj mi] b6] ro] req opt inst id Hi. pose proof Hi as [HB Hl].
    pose proof (len_enc_preface (mj, mi, b6, ro) req opt inst id Hl) as Hlen. split.
    - unfold IsPreface. rewrite Hlen. done.
    - unfold PrefaceFseq. reads. unfold enc_preface in *.
      pose proof (len_enc_head (mj, mi, b6, ro) req opt inst id Hl) as He.
      rewrite field_app_r, He by lia. rewrite slice_app_l, slice_full by lia.
      f_equal. apply field_be; [done|done|]. by apply CRC_fits, Bytes_enc_head. }
  split.
  - pose proof Hp as (_ & _ & _ & _ & Hi & _). exists (enc_p p). unfold PutPreface.
    rewrite putPreface_eq, drop_ge, app_nil_r by (try done; apply Hi).
    split_and!; [done|by apply len_enc_preface, Hi|by apply ParsePreface_enc|by apply Hcommon|
      by apply Hcommon].
  - pose proof Ha as (_ & _ & _ & _ & Hi & _). exists (enc_a a). unfold PutPrefaceAck.
    rewrite putPreface_eq, drop_ge, app_nil_r by (try done; apply Hi).
    split_and!; [done|by apply len_enc_preface, Hi|by apply ParsePrefaceAck_enc|by apply Hcommon|
      by apply Hcommon].
Qed.

(** C17. PREFACE parsing is total and canonical: it never panics; an accepted
    PREFACE (ErrFeature included) is the one encoding of a well-formed value;
    every other error comes with the zero value. *)
Theorem preface_canonical b :
  Bytes b → ∃ p e, ParsePreface b = Ok (p, e) ∧
    match e with
    | None | Some ErrFeature =>
        preface_wf p ∧ e = feature_err (p_Req p) ∧ PutPreface (replicate 40 0) p = Ok b
    | Some _ => p = zeroPreface
    end.
Proof.
  intros HB. destruct (ParsePreface_total b HB) as (p & e & Hp & Hz).
  exists p, e. split; [done|].
  assert (e = None ∨ e = Some ErrFeature →
    preface_wf p ∧ e = feature_err (p_Req p) ∧ PutPreface (replicate 40 0) p = Ok b) as Hok.
  { intros He. destruct (ParsePreface_inv b p e HB Hp He) as (Hw & Hf & ->).
    split_and!; [done|done|]. pose proof Hw as (_ & _ & _ & _ & [_ Hi] & _).
    unfold PutPreface. by rewrite putPreface_eq, drop_ge, app_nil_r. }
  destruct Hz as [->|[->| Hz]]; [apply Hok; by left|apply Hok; by right|].
  destruct e as [[]|]; first [exact Hz | apply Hok; by (left + right)].
Qed.


Definition preface_demo : Preface := mkPreface 0 KindStream 0 1 (replicate 16 7) 9.
Definition preface_ack_demo : PrefaceAck := mkPrefaceAck 0 PrefaceOK 4 1 (replicate 16 8) 9.

Lemma preface_roundtrip_witness :
  preface_wf preface_demo ∧ preface_ack_wf preface_ack_demo ∧
  ∃ b, PutPreface (replicate 40 0) preface_demo = Ok b ∧ ParsePreface b = Ok (preface_demo, None).
Proof.
  assert (preface_wf preface_demo) as Hp.
  { unfold preface_wf, inst_ok, fits. cbn. split_and!; try lia; try (repeat constructor; lia); discriminate. }
  assert (preface_ack_wf preface_ack_demo) as Ha.
  { unfold preface_ack_wf, inst_ok, fits. cbn. split_and!; try lia; try (repeat constructor; lia); discriminate. }
  split; [exact Hp|]. split; [exact Ha|].
  destruct (preface_roundtrip preface_demo preface_ack_demo Hp Ha) as [(b & H1 & _ & H2 & _) _].
  exists b. split; [exact H1|exact H2].
Defined.

Lemma preface_canonical_witness : ∃ p e, ParsePreface [82; 78; 68; 50] = Ok (p, e) ∧ e = Some ErrShort ∧ p = zeroPreface.
Proof.
  destruct (preface_canonical [82; 78; 68; 50]) as (p & e & H & Hm).
  - repeat (constructor; [vm_compute; split; (reflexivity || discriminate)|]). constructor.
  - exists p, e. vm_compute in H. injection H as <- <-. repeat split.
Defined.
