(* ===== verification/WireMsg.v ===== *)
(** Every frame type with its payload codec, and messages end to end.

    [codec_of] is the dispatch by frame type the carriers and sessions make:
    the codec that encodes and decodes the payload of a type.  The theorems
    take a message through Put, AppendFrame, DecodeFrame and Parse, and relate
    the codecs to the PayloadBounds table of the header check. *)

From Stdlib Require Import ZArith Lia String.
From stdpp Require Import base numbers list.
From S2P Require Import Prelude Buffers WireConst WireCrc WireFrame Codec WirePayload WireDgram.

Open Scope Z_scope.
Open Scope rendr_scope.

(** A whole DATA payload: the offset prefix, then the bytes behind it. *)
Definition put_data (dst : bytes) (d : Z * bytes) : res werr (bytes * Z) :=
  let! b := Data.PutDataOffset dst d.1 in
  let! b := put b DataPrefixLen d.2 in
  Ok (b, DataPrefixLen + len d.2).

Definition parse_data (p : bytes) : res werr (Z * bytes) :=
  let! off := Data.ParseDataOffset p in
  let! data := sub p DataPrefixLen (len p) in
  Ok (off, data).

Definition enc_data (d : Z * bytes) : bytes := be 8 d.1 ++ d.2.

Lemma len_enc_data d : len (enc_data d) = DataPrefixLen + len d.2.
Proof. unfold enc_data. len_lia. Qed.

Lemma data_layout : layout Data.wf put_data parse_data enc_data.
Proof.
  split.
  - intros [off d] Hw. unfold parse_data.
    assert (Bytes (enc_data (off, d))) as HB.
    { destruct Hw as (_ & HD & _). unfold enc_data. cbn [fst snd] in *. enc_bytes. }
    rewrite (proj2 (Data.data_parse_spec _ off HB)) by (exists d; done). cbn [res_bind].
    pose proof (len_enc_data (off, d)) as Hl. cbn [snd] in Hl. pose proof (len_nonneg d).
    reads. unfold enc_data, DataPrefixLen. cbn [fst snd]. by fields.
  - intros p [off d] HB H. unfold parse_data in H. apply res_bind_ok in H as (o & Ho & H).
    apply Data.data_parse_spec in Ho as (d' & Hw & ->); [|done].
    assert (len (be 8 o ++ d') = DataPrefixLen + len d') as Hl by len_lia.
    pose proof (len_nonneg d'). revert H. reads. unfold DataPrefixLen. fields.
    intros [= <- <-]. done.
  - intros [off d] (_ & HD & _). unfold enc_data. cbn [fst snd] in *. enc_bytes.
  - intros dst [off d] _ Hd. rewrite len_enc_data in *. cbn [fst snd] in *.
    pose proof (len_nonneg d). unfold put_data, Data.PutDataOffset. cbn [fst snd]. pass_guard.
    rewrite puts_put; unfold fields_of; cbn [map snd concat app contig];
      rewrite ?app_nil_r; [done|len_lia|len_lia].
  - intros p _. unfold parse_data. apply res_bind_no_panic; [apply Data.data_no_panic|].
    intros o Ho. unfold Data.ParseDataOffset in Ho.
    destruct (Z.ltb_spec (len p) DataPrefixLen); [done|]. by reads.
Qed.

Definition Data_codec : Codec (Z * bytes) := build_codec data_layout.

(** ** The codec of each frame type *)
Definition codec_of (t : Z) : option (sigT Codec) :=
  if t =? TypeOpen then Some (existT _ (Open_codec MaxMetadata))
  else if t =? TypeOpenAck then Some (existT _ OpenAck_codec)
  else if t =? TypeJoin then Some (existT _ Join_codec)
  else if t =? TypeJoinAck then Some (existT _ JoinAck_codec)
  else if t =? TypeData then Some (existT _ Data_codec)
  else if t =? TypeAck then Some (existT _ Ack_codec)
  else if t =? TypeFin then Some (existT _ Fin_codec)
  else if t =? TypeRst then Some (existT _ Rst_codec)
  else if t =? TypeSched then Some (existT _ Sched_codec)
  else if (t =? TypePing) || (t =? TypePong) then Some (existT _ Ping_codec)
  else if t =? TypeClose then Some (existT _ Close_codec)
  else if t =? TypeGoAway then Some (existT _ GoAway_codec)
  else if t =? TypeDgram then Some (existT _ Dgram_codec)
  else if t =? TypePack then Some (existT _ Pack_codec)
  else if t =? TypeRel then Some (existT _ Rel_codec)
  else if t =? TypeRack then Some (existT _ Rack_codec)
  else if t =? TypeDetach then Some (existT _ Detach_codec)
  else if t =? TypeDown then Some (existT _ Down_codec)
  else None.

Definition known_types : list Z :=
  [TypeOpen; TypeOpenAck; TypeJoin; TypeJoinAck; TypeData; TypeAck; TypeFin; TypeRst;
   TypeSched; TypePing; TypePong; TypeClose; TypeGoAway; TypeDgram; TypePack; TypeRel;
   TypeRack; TypeDetach; TypeDown].

Lemma Known_types t : Known t = true ↔ t ∈ known_types.
Proof. apply oneof_In. Qed.

(** Case analysis over the known types. *)
Ltac each_known H :=
  apply Known_types in H; unfold known_types in H;
  repeat (apply elem_of_cons in H as [-> | H]); [.. | by apply elem_of_nil in H].

Lemma codec_of_known t : Known t = true → is_Some (codec_of t).
Proof. intros H. each_known H; by eexists. Qed.

Lemma rel_len_bound h n : is_u8 (Rel.RType h) → Rel.check_rel h n = None → 0 ≤ n ≤ 65567.
Proof.
  intros Ht. unfold Rel.check_rel. destruct (Wrappable (Rel.RType h)) eqn:Hw; [|done].
  cbn [negb]. case_match; [done|]. case_match; [done|].
  assert ((0 <=? fst (bounds_of (Rel.RType h))) && (snd (bounds_of (Rel.RType h)) <=? 65567) = true)
    as Hb.
  { apply oneof_In in Hw. repeat (apply elem_of_cons in Hw as [-> | Hw]; [done|]).
    by apply elem_of_nil in Hw. }
  destruct (bounds_of (Rel.RType h)) as [lo hi]. cbn [fst snd] in Hb.
  destruct (Z.ltb_spec n lo), (Z.ltb_spec hi n); try done. intros _. lia.
Qed.

(** The value type and the operations of a packed codec. *)
Abbreviation val s := (projT1 s).
Definition wf_of (s : sigT Codec) : val s → Prop := @c_wf _ (projT2 s).
Definition size_of (s : sigT Codec) : val s → Z := @c_size _ (projT2 s).
Definition put_of (s : sigT Codec) : bytes → val s → res werr (bytes * Z) := @c_put _ (projT2 s).
Definition parse_of (s : sigT Codec) : bytes → res werr (val s) := @c_parse _ (projT2 s).

(** The size of a well-formed value lies within its type's PayloadBounds,
    unless it exceeds what any frame carries. *)
Lemma codec_bounds t s x :
  Known t = true → codec_of t = Some s → wf_of s x → size_of s x ≤ MaxFramePayload →
  (bounds_of t).1 ≤ size_of s x ≤ (bounds_of t).2.
Proof.
  intros Hk Hs. revert x. each_known Hk; cbn in Hs; injection Hs as <-;
    intros x Hx Hm; unfold wf_of, size_of in *;
    cbn [projT1 projT2 c_wf c_size build_codec Open_codec OpenAck_codec Join_codec JoinAck_codec
         Data_codec Ack_codec Fin_codec Rst_codec Sched_codec Ping_codec Close_codec GoAway_codec
         Dgram_codec Pack_codec Rel_codec Rack_codec Detach_codec Down_codec] in *;
    rewrite MaxFramePayload_eq in *.
  1: destruct Hx as (_ & Hs & _ & _ & _ & _ & _ & _ & _ & Hl & _);
    rewrite Open.open_len_enc by done; unfold Open.clamp_meta in Hl; cbn -[len];
    pose proof (len_nonneg (Open.Metadata x)); len_lia.
  1: destruct Hx as ((_ & _ & _ & _ & Hl) & _); rewrite OpenAck.openack_len_enc; cbn -[len];
    pose proof (len_nonneg (OpenAck.Msg x)); len_lia.
  1: destruct Hx as (_ & Hs & _); by rewrite Join.join_len_enc.
  1: by rewrite JoinAck.joinack_len_enc.
  1: destruct Hx as (_ & _ & Hl & _); rewrite len_enc_data in *; cbn -[len];
    rewrite MaxFramePayload_eq in *; len_lia.
  1: by rewrite Ack.ack_len_enc.
  1: by rewrite len_be.
  1: destruct Hx as (_ & _ & Hl); rewrite Rst.rst_len_enc; cbn -[len];
    pose proof (len_nonneg (Rst.Msg x)); len_lia.
  1: rewrite Sched.sched_len_enc by done; destruct Hx as (_ & _ & _ & _ & Hl & _);
    cbn -[len]; len_lia.
  1,2: destruct Hx as (_ & _ & _ & Hl); rewrite Ping.ping_len_enc by lia;
    cbn -[len]; rewrite MaxPingPad_eq in *; len_lia.
  1,2: by rewrite len_be.
  1: unfold Dgram.enc in *; rewrite len_app, len_be in *; cbn -[len];
    rewrite MaxFramePayload_eq; pose proof (len_nonneg x.2); len_lia.
  1: by rewrite Pack.pack_len_enc.
  1: destruct Hx as (_ & Ht & _ & _ & _ & Hck); apply rel_len_bound in Hck; [|done];
    rewrite Rel.rel_len_enc in *; cbn -[len]; rewrite MaxFramePayload_eq; len_lia.
  1: unfold Rack.enc; by rewrite len_app, !len_be.
  1: unfold Detach.enc; by rewrite len_app, !len_be.
  by rewrite len_be.
Qed.

(** A header for a value of [size] bytes of type [t] passes the header check. *)
Lemma header_for t flags fseq handle size :
  Known t = true → is_u8 flags → Z.ldiff flags (AllowedFlags t) = 0 → is_u32 fseq →
  is_u32 handle → handleOK t handle = true → (bounds_of t).1 ≤ size ≤ (bounds_of t).2 →
  header_valid (mkHeader t flags size fseq handle).
Proof.
  intros Hk Hf Hfl Hs Hh Hok Hb.
  assert (is_u8 t ∧ 0 ≤ (bounds_of t).1 ∧ (bounds_of t).2 ≤ 1048576) as (Ht & Hlo & Hhi).
  { clear -Hk. each_known Hk; unfold fits; split_and!; by vm_compute. }
  split.
  - unfold header_fits. cbn [h_Type h_Flags h_Len h_Fseq h_Handle]. unfold fits in *.
    split_and!; lia.
  - unfold check_header. cbn [h_Type h_Flags h_Len h_Fseq h_Handle].
    rewrite MaxFramePayload_eq, Hk, Hfl, Hok.
    destruct (Z.ltb_spec 1048576 size); [lia|]. case_match; [done|]. cbn [negb Z.eqb].
    destruct (bounds_of t) as [lo hi]. cbn [fst snd] in *.
    destruct (Z.ltb_spec size lo), (Z.ltb_spec hi size); try lia; done.
Qed.

Definition has_codec (t : Z) : bool := match codec_of t with Some _ => true | None => false end.

Lemma has_codec_known t : is_u8 t → has_codec t = Known t.
Proof.
  intros Ht. apply Bool.eqb_prop.
  exact (by_all_types (λ t, Bool.eqb (has_codec t) (Known t)) eq_refl t Ht).
Qed.

Lemma codec_of_Known t s : is_u8 t → codec_of t = Some s → Known t = true.
Proof. intros Ht Hc. rewrite <- has_codec_known by done. unfold has_codec. by rewrite Hc. Qed.

Lemma Type_String_inj t u : is_u8 t → is_u8 u → Type_String t = Type_String u → t = u.
Proof.
  intros Ht Hu He.
  pose (P t := forallb (λ v, implb (String.eqb (Type_String t) (Type_String v)) (t =? v)) all_types).
  assert (P t = true) as Hp by (refine (by_all_types P _ t Ht); by vm_compute).
  unfold P in Hp. rewrite forallb_forall in Hp. specialize (Hp u).
  rewrite He, String.eqb_refl in Hp. apply Z.eqb_eq, Hp, list_elem_of_In.
  by apply all_types_spec.
Qed.

(** ** Properties *)

(** C39. The per-type tables agree, for every type byte: a known type is not an
    extension; the carrier-level and the wrappable types are known, REL and
    RACK are not wrappable; a type has payload bounds exactly when it is known
    or an extension, within MaxFramePayload; the reserved 'R' byte is neither;
    a type has a payload codec exactly when it is known; and no two types
    print alike. *)
Theorem type_tables t u :
  is_u8 t → is_u8 u →
  type_tables_ok t = true ∧
  (Known t = true ↔ is_Some (codec_of t)) ∧
  (Type_String t = Type_String u → t = u).
Proof.
  intros Ht Hu. split_and!.
  - refine (by_all_types type_tables_ok _ t Ht). by vm_compute.
  - rewrite <- has_codec_known by done. unfold has_codec.
    destruct (codec_of t); split; try done; by intros [? ?].
  - by apply Type_String_inj.
Qed.

(** C6. A message end to end: a well-formed payload value of any frame type, put
    into a payload and framed with any legal header, is decoded as a frame of
    that header whose payload parses back to the value, whatever follows it
    in the buffer. *)
Theorem message_roundtrip t s (x : val s) flags fseq handle rest :
  codec_of t = Some s → is_u8 t → wf_of s x → size_of s x ≤ MaxFramePayload →
  is_u8 flags → Z.ldiff flags (AllowedFlags t) = 0 → is_u32 fseq →
  is_u32 handle → handleOK t handle = true → Bytes rest →
  ∃ payload frame f,
    put_of s (replicate (Z.to_nat (size_of s x)) 0) x = Ok (payload, len payload) ∧
    AppendFrame [] (mkHeader t flags 0 fseq handle) payload = Ok frame ∧
    DecodeFrame (frame ++ rest) = Ok (f, len frame) ∧
    f_Header f = mkHeader t flags (size_of s x) fseq handle ∧
    parse_of s (f_Payload f) = Ok x.
Proof.
  intros Hc Ht Hx Hm Hf Hfl Hs Hh Hok Hr.
  pose proof (codec_of_Known t s Ht Hc) as Hk.
  pose proof (codec_bounds t s x Hk Hc Hx Hm) as Hb.
  assert (0 ≤ size_of s x) as H0.
  { destruct (c_roundtrip (Codec := projT2 s) x Hx) as (e & _ & He & _). unfold size_of.
    rewrite <- He. apply len_nonneg. }
  destruct (codec_frame_roundtrip (H := projT2 s) x (mkHeader t flags 0 fseq handle)
    (replicate (Z.to_nat (size_of s x)) 0) rest) as (payload & frame & f & H1 & H2 & H3 & H4 & H5).
  - done.
  - by apply header_for.
  - rewrite len_replicate. unfold size_of in *. lia.
  - done.
  - by exists payload, frame, f.
Qed.

(** C7. Canonicity of every payload: what a parser accepts is a well-formed value
    whose Put writes exactly those bytes back, so two different payloads
    never decode to one value; its length lies within the type's
    PayloadBounds; and no parser panics on any bytes. *)
Theorem payload_canonical t s p q x :
  codec_of t = Some s → is_u8 t → Bytes p → Bytes q → len p ≤ MaxFramePayload →
  parse_of s p ≠ Panic ∧
  (parse_of s p = Ok x →
     wf_of s x ∧ put_of s p x = Ok (p, len p) ∧
     (bounds_of t).1 ≤ len p ≤ (bounds_of t).2 ∧
     (parse_of s q = Ok x → p = q)).
Proof.
  intros Hc Ht Hp Hq Hm. split; [by apply (c_no_panic (Codec := projT2 s))|].
  intros Hx. destruct (c_canonical (Codec := projT2 s) p x Hp Hx) as (Hw & Hsz & Hput).
  assert ((bounds_of t).1 ≤ len p ≤ (bounds_of t).2) as Hb.
  { rewrite <- Hsz. apply codec_bounds; try done; [by apply (codec_of_Known t s)|].
    unfold size_of. by rewrite Hsz. }
  split_and!; try apply Hb; [done| |].
  - unfold put_of. rewrite Hput by lia. rewrite drop_ge by lia. by rewrite app_nil_r.
  - intros Hy. by apply (codec_parse_inj (H := projT2 s) p q x).
Qed.

Lemma message_roundtrip_witness :
  ∃ payload frame f,
    put_of (existT _ Ack_codec) (replicate 16 0) (Ack.mkAck 70000 65536 3) = Ok (payload, len payload) ∧
    AppendFrame [] (mkHeader TypeAck FlagAckDone 0 9 1) payload = Ok frame ∧
    DecodeFrame (frame ++ [1; 2]) = Ok (f, len frame) ∧
    f_Header f = mkHeader TypeAck FlagAckDone 16 9 1 ∧
    parse_of (existT _ Ack_codec) (f_Payload f) = Ok (Ack.mkAck 70000 65536 3).
Proof.
  apply (message_roundtrip TypeAck (existT _ Ack_codec) (Ack.mkAck 70000 65536 3) FlagAckDone 9 1 [1; 2]);
    first [reflexivity | vm_compute; repeat split; (reflexivity || discriminate) |
           repeat (constructor; [vm_compute; split; (reflexivity || discriminate)|]); constructor].
Defined.

Lemma payload_canonical_witness :
  parse_of (existT _ Down_codec) [0; 0; 1; 7] = Ok 263 ∧
  put_of (existT _ Down_codec) [0; 0; 1; 7] 263 = Ok ([0; 0; 1; 7], 4).
Proof.
  split; [reflexivity|].
  assert (Bytes [0; 0; 1; 7]) as HB.
  { repeat (constructor; [vm_compute; split; (reflexivity || discriminate)|]). constructor. }
  destruct (payload_canonical TypeDown (existT _ Down_codec) [0; 0; 1; 7] [] 263) as [_ H];
    [reflexivity|vm_compute; split; (reflexivity || discriminate)|exact HB|constructor|
     vm_compute; discriminate|].
  destruct (H eq_refl) as (_ & Hput & _). exact Hput.
Defined.

Lemma type_tables_witness : Type_String 0x37 = "DOWN"%string ∧ type_tables_ok 0x37 = true.
Proof.
  split; [reflexivity|].
  refine (proj1 (type_tables 0x37 0x37 _ _)); vm_compute; split; (reflexivity || discriminate).
Defined.
