(* ===== verification/WireWindow.v ===== *)
(** The two receive windows of the datagram protocols: circular bitmaps.

    Models internal/wire/window.go.  [Ring] is the bitmap the two windows
    share; [FseqWindow] is the anti-replay window of a datagram-carrier
    direction over u32 serial numbers, [SeqWindow] the receive dedup window of
    a packet session over u64 numbers.  Both are proved to implement an
    abstract window that remembers every number it accepted. *)

From Stdlib Require Import ZArith Lia.
From stdpp Require Import base numbers list gmap.
From S2P Require Import Prelude WireConst.

Open Scope Z_scope.
Open Scope rendr_scope.

(** WindowVerdict *)
Inductive WindowVerdict := WindowNew | WindowDuplicate | WindowLate | WindowAhead.

#[global] Instance WindowVerdict_eq_dec : EqDecision WindowVerdict.
Proof. solve_decision. Defined.

(** ** The circular bitmap *)

(** The index of the word of bit [i]: [(i/64) & uint64(len(bits)-1)]. *)
Definition ring_word (bits : list Z) (i : Z) : nat :=
  Z.to_nat (Z.land (i / 64) (len bits - 1)).

Definition setRing (bits : list Z) (i : Z) : list Z :=
  let j := ring_word bits i in
  <[j := Z.lor (nth j bits 0) (u64 (Z.shiftl 1 (i mod 64)))]> bits.

Definition markRing (bits : list Z) (i : Z) : list Z * WindowVerdict :=
  let j := ring_word bits i in
  let m := u64 (Z.shiftl 1 (i mod 64)) in
  if negb (Z.land (nth j bits 0) m =? 0) then (bits, WindowDuplicate)
  else (<[j := Z.lor (nth j bits 0) m]> bits, WindowNew).

(** One round of clearRing's loop: [k] bits of one word. *)
Definition clear_step (bits : list Z) (from k : Z) : list Z :=
  let j := ring_word bits from in
  <[j := Z.ldiff (nth j bits 0)
           (u64 (Z.shiftl (Z.shiftr (2 ^ 64 - 1) (64 - k)) (from mod 64)))]> bits.

Fixpoint clear_loop (fuel : nat) (bits : list Z) (from n : Z) : list Z :=
  match fuel with
  | O => bits
  | S fuel' =>
      if 0 <? n then
        let k := Z.min (64 - from mod 64) n in
        clear_loop fuel' (clear_step bits from k) (u64 (from + k)) (n - k)
      else bits
  end.

(** It touches at most [n/64 + 2] words. *)
Definition clearRing (bits : list Z) (from n : Z) : list Z :=
  clear_loop (Z.to_nat (n / 64) + 2) bits from n.

(** A bitmap: a power of two of 64-bit words. *)
Definition ring_ok (bits : list Z) : Prop :=
  ∃ e, 0 ≤ e ≤ 57 ∧ len bits = 2 ^ e ∧ Forall (fits 64) bits.

(** The number of bits. *)
Definition width (bits : list Z) : Z := len bits * 64.

(** Bit [i] modulo the width. *)
Definition ring_bit (bits : list Z) (i : Z) : bool :=
  Z.testbit (nth (ring_word bits i) bits 0) (i mod 64).

Section Ring.
Context (bits : list Z) (Hok : ring_ok bits).

Lemma ring_len_pos : 0 < len bits.
Proof. destruct Hok as (e & He & -> & _). lia. Qed.

Lemma ring_word_mod i : Z.of_nat (ring_word bits i) = (i / 64) mod len bits.
Proof.
  destruct Hok as (e & He & Hl & _). unfold ring_word. rewrite Hl.
  replace (2 ^ e - 1) with (Z.ones e) by (rewrite Z.ones_equiv; lia).
  rewrite Z.land_ones by lia. pose proof (Z.mod_pos_bound (i / 64) (2 ^ e)). lia.
Qed.

Lemma ring_word_lt i : (ring_word bits i < length bits)%nat.
Proof.
  pose proof (ring_word_mod i). pose proof ring_len_pos.
  pose proof (Z.mod_pos_bound (i / 64) (len bits)). unfold len in *. lia.
Qed.

(** A bit's position is its word and its place in the word. *)
Lemma ring_pos i : i mod width bits = Z.of_nat (ring_word bits i) * 64 + i mod 64.
Proof.
  rewrite ring_word_mod. pose proof ring_len_pos. unfold width.
  rewrite (Z.mul_comm (len bits)), Z.rem_mul_r by lia. lia.
Qed.

Lemma ring_pos_eq i j :
  i mod width bits = j mod width bits ↔
  ring_word bits i = ring_word bits j ∧ i mod 64 = j mod 64.
Proof.
  rewrite !ring_pos. pose proof (Z.mod_pos_bound i 64). pose proof (Z.mod_pos_bound j 64).
  split; [|by intros [-> ->]]. intros. split; lia.
Qed.

Lemma ring_bit_mod i j : i mod width bits = j mod width bits → ring_bit bits i = ring_bit bits j.
Proof. intros [Hw Ho]%ring_pos_eq. unfold ring_bit. by rewrite Hw, Ho. Qed.

Lemma ring_nth_fits j : is_u64 (nth j bits 0).
Proof.
  destruct Hok as (_ & _ & _ & HF). destruct (nth_lookup_or_length bits j 0) as [Hj|Hj].
  - by eapply Forall_lookup_1 in HF.
  - rewrite nth_overflow by done. done.
Qed.
End Ring.

(** Updating one word keeps the shape. *)
Lemma ring_ok_insert bits j v : ring_ok bits → is_u64 v → ring_ok (<[j := v]> bits).
Proof.
  intros (e & He & Hl & HF) Hv. exists e. unfold len in *. rewrite length_insert.
  split_and!; [lia|lia|done|]. by apply Forall_insert.
Qed.

Lemma ring_word_insert bits j v i : ring_word (<[j := v]> bits) i = ring_word bits i.
Proof. unfold ring_word, len. by rewrite length_insert. Qed.

Lemma width_insert bits j v : width (<[j := v]> bits) = width bits.
Proof. unfold width, len. by rewrite length_insert. Qed.

Lemma nth_insert_eq (l : list Z) j v : (j < length l)%nat → nth j (<[j := v]> l) 0 = v.
Proof. intros. apply nth_lookup_Some. by rewrite list_lookup_insert_eq. Qed.

Lemma nth_insert_ne (l : list Z) i j v : i ≠ j → nth i (<[j := v]> l) 0 = nth i l 0.
Proof. intros. rewrite !nth_lookup. by rewrite list_lookup_insert_ne. Qed.

Lemma ring_bit_insert bits i j v : ring_ok bits →
  ring_bit (<[ring_word bits j := v]> bits) i =
  if Nat.eqb (ring_word bits i) (ring_word bits j) then Z.testbit v (i mod 64)
  else ring_bit bits i.
Proof.
  intros Hok. unfold ring_bit. rewrite ring_word_insert.
  destruct (Nat.eqb_spec (ring_word bits i) (ring_word bits j)) as [->|Hn].
  - by rewrite nth_insert_eq by (by apply ring_word_lt).
  - by rewrite nth_insert_ne.
Qed.

Lemma fits_testbit w x : 0 ≤ w → 0 ≤ x → (∀ i, w ≤ i → Z.testbit x i = false) → fits w x.
Proof.
  intros Hw Hx Hb. unfold fits. split; [done|].
  destruct (Z.eq_dec x 0) as [->|]; [lia|]. apply Z.log2_lt_pow2; [lia|].
  destruct (Z.lt_ge_cases (Z.log2 x) w); [done|].
  specialize (Hb (Z.log2 x) ltac:(lia)). rewrite Z.bit_log2 in Hb by lia. done.
Qed.

Lemma fits_high w x i : fits w x → 0 ≤ w ≤ i → Z.testbit x i = false.
Proof.
  intros Hx Hi. rewrite <- (Z.mod_small x (2 ^ w)) by done. by apply Z.mod_pow2_bits_high.
Qed.

Lemma fits_lor w x y : 0 ≤ w → fits w x → fits w y → fits w (Z.lor x y).
Proof.
  intros Hw Hx Hy. apply fits_testbit; [done|apply Z.lor_nonneg; unfold fits in *; lia|].
  intros i Hi. rewrite Z.lor_spec. by rewrite !(fits_high w) by done.
Qed.

Lemma fits_ldiff w x y : 0 ≤ w → fits w x → fits w (Z.ldiff x y).
Proof.
  intros Hw Hx. apply fits_testbit; [done|apply Z.ldiff_nonneg; unfold fits in *; lia|].
  intros i Hi. rewrite Z.ldiff_spec. by rewrite (fits_high w) by done.
Qed.

Lemma one_bit_spec i j : 0 ≤ i < 64 → 0 ≤ j → Z.testbit (u64 (Z.shiftl 1 i)) j = (j =? i).
Proof.
  intros Hi Hj. rewrite wrap_small.
  - rewrite Z.shiftl_1_l. rewrite Z.pow2_bits_eqb by lia. apply Z.eqb_sym.
  - rewrite Z.shiftl_1_l. unfold fits. split; [lia|]. apply Z.pow_lt_mono_r; lia.
Qed.

Lemma setRing_ok bits i : ring_ok bits → ring_ok (setRing bits i).
Proof.
  intros Hok. apply ring_ok_insert; [done|].
  apply fits_lor; [lia|by apply ring_nth_fits|by apply wrap_fits].
Qed.

(** setRing marks exactly the numbers congruent to [j]. *)
Lemma setRing_spec bits i j : ring_ok bits →
  ring_bit (setRing bits j) i =
  (i mod width bits =? j mod width bits) || ring_bit bits i.
Proof.
  intros Hok. unfold setRing. rewrite ring_bit_insert by done.
  pose proof (ring_pos_eq bits Hok i j) as He.
  pose proof (Z.mod_pos_bound i 64). pose proof (Z.mod_pos_bound j 64).
  destruct (Nat.eqb_spec (ring_word bits i) (ring_word bits j)) as [Hw|Hw].
  - rewrite Z.lor_spec, one_bit_spec by lia. unfold ring_bit. rewrite Hw, orb_comm. f_equal.
    destruct (Z.eqb_spec (i mod 64) (j mod 64)), (Z.eqb_spec (i mod width bits) (j mod width bits));
      naive_solver.
  - destruct (Z.eqb_spec (i mod width bits) (j mod width bits)); naive_solver.
Qed.

(** markRing tests and sets the bit. *)
Lemma markRing_spec bits i : ring_ok bits →
  markRing bits i = if ring_bit bits i then (bits, WindowDuplicate)
                    else (setRing bits i, WindowNew).
Proof.
  intros Hok. unfold markRing, setRing, ring_bit.
  pose proof (Z.mod_pos_bound i 64 ltac:(lia)) as Hi.
  set (x := nth (ring_word bits i) bits 0). set (o := i mod 64) in *.
  assert (Z.land x (u64 (Z.shiftl 1 o)) = if Z.testbit x o then u64 (Z.shiftl 1 o) else 0) as ->.
  { apply Z.bits_inj'. intros n Hn. rewrite Z.land_spec, one_bit_spec by lia.
    destruct (Z.eqb_spec n o) as [->|].
    - destruct (Z.testbit x o) eqn:Hx; rewrite ?one_bit_spec, ?Z.bits_0 by lia; [|done].
      by rewrite Z.eqb_refl.
    - rewrite andb_false_r. destruct (Z.testbit x o); rewrite ?one_bit_spec, ?Z.bits_0 by lia; [|done].
      by destruct (Z.eqb_spec n o). }
  destruct (Z.testbit x o); [|done].
  destruct (Z.eqb_spec (u64 (Z.shiftl 1 o)) 0) as [H0|]; [|done].
  apply (f_equal (λ z, Z.testbit z o)) in H0. rewrite one_bit_spec, Z.bits_0, Z.eqb_refl in H0 by lia.
  done.
Qed.

(** The mask of one round: [k] bits from [off] on. *)
Lemma clear_mask_spec off k n :
  0 ≤ off → 0 < k → off + k ≤ 64 → 0 ≤ n →
  Z.testbit (u64 (Z.shiftl (Z.shiftr (2 ^ 64 - 1) (64 - k)) off)) n = (off <=? n) && (n <? off + k).
Proof.
  intros Ho Hk Hs Hn. unfold wrap. replace (2 ^ 64 - 1) with (Z.ones 64) by done.
  destruct (Z.lt_ge_cases n 64).
  - rewrite Z.mod_pow2_bits_low by lia. destruct (Z.leb_spec off n); cbn [andb].
    + rewrite Z.shiftl_spec by lia. rewrite Z.shiftr_spec by lia.
      destruct (Z.ltb_spec n (off + k)).
      * apply Z.ones_spec_low. lia.
      * apply Z.ones_spec_high. lia.
    + by rewrite Z.shiftl_spec_low by lia.
  - rewrite Z.mod_pow2_bits_high by lia. destruct (Z.leb_spec off n), (Z.ltb_spec n (off + k)); lia.
Qed.

Lemma clear_step_ok bits from k : ring_ok bits → ring_ok (clear_step bits from k).
Proof.
  intros Hok. apply ring_ok_insert; [done|]. apply fits_ldiff; [lia|by apply ring_nth_fits].
Qed.

(** The distance of [i] behind [from], going forward around the ring. *)
Lemma ring_dist bits i from : ring_ok bits →
  let pi := i mod width bits in let pf := from mod width bits in
  (i - from) mod width bits = if pf <=? pi then pi - pf else pi - pf + width bits.
Proof.
  intros Hok pi pf. pose proof (ring_len_pos bits Hok). assert (0 < width bits) by (unfold width; lia).
  pose proof (Z.mod_pos_bound i (width bits)). pose proof (Z.mod_pos_bound from (width bits)).
  rewrite Zminus_mod. fold pi pf.
  destruct (Z.leb_spec pf pi); [apply Z.mod_small; lia|].
  replace (pi - pf) with (pi - pf + width bits + (-1) * width bits) at 1 by lia.
  rewrite Z.mod_add by lia. apply Z.mod_small. lia.
Qed.

Lemma clear_step_spec bits from k i :
  ring_ok bits → 0 < k ≤ 64 - from mod 64 →
  ring_bit (clear_step bits from k) i =
  negb ((i - from) mod width bits <? k) && ring_bit bits i.
Proof.
  intros Hok Hk. unfold clear_step. rewrite ring_bit_insert by done.
  pose proof (Z.mod_pos_bound i 64 ltac:(lia)) as Hi.
  pose proof (Z.mod_pos_bound from 64 ltac:(lia)) as Hf.
  pose proof (ring_word_lt bits Hok i). pose proof (ring_word_lt bits Hok from).
  rewrite (ring_dist bits) by done. cbv zeta. rewrite !(ring_pos bits Hok). unfold width, len.
  destruct (Nat.eqb_spec (ring_word bits i) (ring_word bits from)) as [Hw|Hw].
  - rewrite Z.ldiff_spec, clear_mask_spec by lia. unfold ring_bit. rewrite Hw, andb_comm. f_equal.
    f_equal. destruct (Z.leb_spec (Z.of_nat (ring_word bits from) * 64 + from mod 64)
      (Z.of_nat (ring_word bits from) * 64 + i mod 64)); lia.
  - assert (Z.of_nat (ring_word bits i) ≠ Z.of_nat (ring_word bits from)) by lia.
    destruct (Z.leb_spec (Z.of_nat (ring_word bits from) * 64 + from mod 64)
      (Z.of_nat (ring_word bits i) * 64 + i mod 64));
      match goal with |- context [negb (?x <? ?y)] => destruct (Z.ltb_spec x y) end;
      cbn [negb andb]; (done || lia).
Qed.

Lemma width_clear_step bits from k : width (clear_step bits from k) = width bits.
Proof. apply width_insert. Qed.

(** Splitting a stretch of numbers on the ring. *)
Lemma ring_split N i from k n :
  0 < N → 0 < k ≤ n → n ≤ N →
  ((i - from) mod N <? k) || ((i - (from + k)) mod N <? n - k) = ((i - from) mod N <? n).
Proof.
  intros HN Hk Hn. pose proof (Z.mod_pos_bound (i - from) N HN) as Hd.
  replace (i - (from + k)) with ((i - from) - k) by lia.
  rewrite <- (Zminus_mod_idemp_l (i - from)). set (d := (i - from) mod N) in *.
  destruct (Z.ltb_spec d k).
  - destruct (Z.ltb_spec d n); [done|lia].
  - rewrite (Z.mod_small (d - k)) by lia. cbn [orb].
    destruct (Z.ltb_spec (d - k) (n - k)), (Z.ltb_spec d n); (done || lia).
Qed.

Lemma clear_loop_spec fuel : ∀ bits from n i,
  ring_ok bits → 0 ≤ from → 0 ≤ n ≤ width bits → from + n ≤ 2 ^ 64 →
  n ≤ (Z.of_nat fuel - 1) * 64 + (64 - from mod 64) →
  ring_ok (clear_loop fuel bits from n) ∧ width (clear_loop fuel bits from n) = width bits ∧
  ring_bit (clear_loop fuel bits from n) i = negb ((i - from) mod width bits <? n) && ring_bit bits i.
Proof.
  induction fuel as [|fuel IH]; intros bits from n i Hok Hf Hn Hs Hfuel; cbn [clear_loop].
  - pose proof (ring_len_pos bits Hok). pose proof (Z.mod_pos_bound from 64).
    assert (n = 0) as -> by lia. split_and!; [done|done|].
    pose proof (Z.mod_pos_bound (i - from) (width bits) ltac:(unfold width; lia)).
    by destruct (Z.ltb_spec ((i - from) mod width bits) 0); [lia|].
  - pose proof (ring_len_pos bits Hok). assert (0 < width bits) by (unfold width; lia).
    pose proof (Z.mod_pos_bound from 64 ltac:(lia)).
    destruct (Z.ltb_spec 0 n).
    2:{ split_and!; [done|done|]. pose proof (Z.mod_pos_bound (i - from) (width bits) ltac:(lia)).
        by destruct (Z.ltb_spec ((i - from) mod width bits) n); [lia|]. }
    set (k := Z.min (64 - from mod 64) n). assert (0 < k ≤ 64 - from mod 64) as Hk by lia.
    pose proof (clear_step_ok bits from k Hok) as Hok'.
    destruct (Z.eq_dec (n - k) 0) as [Hz|Hz].
    + assert (clear_loop fuel (clear_step bits from k) (u64 (from + k)) (n - k) =
        clear_step bits from k) as -> by (rewrite Hz; by destruct fuel).
      split_and!; [done|apply width_insert|]. rewrite clear_step_spec by done.
      by replace k with n by lia.
    + assert (is_u64 (from + k)) by (unfold fits; lia). rewrite wrap_small by done.
      assert ((from + k) mod 64 = 0) as Hmod.
      { replace k with (64 - from mod 64) by lia.
        replace (from + (64 - from mod 64)) with ((from / 64 + 1) * 64)
          by (rewrite (Z.div_mod from 64) at 2 by lia; lia). apply Z.mod_mul. lia. }
      destruct (IH (clear_step bits from k) (from + k) (n - k) i) as (A1 & A2 & A3);
        rewrite ?width_clear_step in *; try done; try lia.
      split_and!; [done|done|]. rewrite A3, clear_step_spec by done.
      rewrite <- (ring_split (width bits) i from k n) by lia.
      by rewrite negb_orb, andb_assoc, (andb_comm (negb (_ <? k))).
Qed.

(** clearRing clears the [n] numbers from [from] on and no other. *)
Lemma clearRing_spec bits from n i :
  ring_ok bits → 0 ≤ from → 0 ≤ n ≤ width bits → from + n ≤ 2 ^ 64 →
  ring_ok (clearRing bits from n) ∧ width (clearRing bits from n) = width bits ∧
  ring_bit (clearRing bits from n) i = negb ((i - from) mod width bits <? n) && ring_bit bits i.
Proof.
  intros Hok Hf Hn Hs. apply clear_loop_spec; try done.
  pose proof (Z.mod_pos_bound from 64 ltac:(lia)). pose proof (Z.div_mod n 64 ltac:(lia)).
  pose proof (Z.mod_pos_bound n 64 ltac:(lia)). pose proof (Z.div_pos n 64 ltac:(lia)). lia.
Qed.

(** ** FseqWindow *)
Record FseqWindow := mkFseqWindow { fw_top : Z; fw_bits : list Z }.

Definition FseqWindow_Init (first : Z) : FseqWindow :=
  mkFseqWindow (u32 (first - 1)) (replicate (Z.to_nat (FseqWindowBits / 64)) (2 ^ 64 - 1)).

Definition FseqWindow_Accept (w : FseqWindow) (f : Z) : FseqWindow * WindowVerdict :=
  let d := u32 (f - fw_top w) in
  if 0 <? i32 d then
    if FseqWindowBits <=? d then (w, WindowAhead)
    else
      let bits := clearRing (fw_bits w) (u64 (fw_top w + 1)) d in
      (mkFseqWindow f (setRing bits f), WindowNew)
  else if FseqWindowBits <=? u32 (fw_top w - f) then (w, WindowLate)
  else
    let '(bits, v) := markRing (fw_bits w) f in
    (mkFseqWindow (fw_top w) bits, v).

Definition FseqWindow_Jump (w : FseqWindow) (f : Z) : FseqWindow :=
  mkFseqWindow f (setRing (replicate (Z.to_nat (FseqWindowBits / 64)) 0) f).

(** ** SeqWindow *)
Record SeqWindow := mkSeqWindow { sw_top : Z; sw_started : bool; sw_bits : list Z }.

Definition minSeqWindowWords : Z := 16.

(** The result is [Panic] for a storage length that is no power of two ≥ 16. *)
Definition SeqWindow_Init (storage : list Z) : res werr SeqWindow :=
  let n := len storage in
  if (n <? minSeqWindowWords) || negb (Z.land n (n - 1) =? 0) then Panic
  else Ok (mkSeqWindow 0 false (replicate (length storage) 0)).

Definition SeqWindow_Accept (w : SeqWindow) (seq : Z) : SeqWindow * WindowVerdict :=
  let wd := u64 (len (sw_bits w) * 64) in
  let advance bits := (mkSeqWindow seq true (setRing bits seq), WindowNew) in
  if negb (sw_started w) then advance (sw_bits w)
  else if sw_top w <? seq then
    let d := u64 (seq - sw_top w) in
    if wd <=? d then advance (replicate (length (sw_bits w)) 0)
    else advance (clearRing (sw_bits w) (u64 (sw_top w + 1)) d)
  else if wd <=? u64 (sw_top w - seq) then (w, WindowLate)
  else
    let '(bits, v) := markRing (sw_bits w) seq in
    (mkSeqWindow (sw_top w) true bits, v).

(** ** The abstract window

    A window of [wd] numbers that never forgets: the newest number and every
    number accepted so far.  [reach] says how far ahead a number may be taken
    on its word ([None]: any distance). *)
Record awindow := mkAwindow { aw_top : Z; aw_seen : gset Z }.

Definition aw_accept (wd : Z) (reach : option Z) (a : awindow) (F : Z) : awindow * WindowVerdict :=
  if aw_top a <? F then
    if match reach with Some r => r <=? F - aw_top a | None => false end then (a, WindowAhead)
    else (mkAwindow F ({[F]} ∪ aw_seen a), WindowNew)
  else if wd <=? aw_top a - F then (a, WindowLate)
  else if bool_decide (F ∈ aw_seen a) then (a, WindowDuplicate)
  else (mkAwindow (aw_top a) ({[F]} ∪ aw_seen a), WindowNew).

Definition aw_jump (a : awindow) (F : Z) : awindow := mkAwindow F ({[F]} ∪ aw_seen a).

(** Nothing newer than the newest was seen. *)
Definition aw_inv (a : awindow) : Prop := ∀ j, j ∈ aw_seen a → j ≤ aw_top a.

(** The bitmap agrees with the abstract window on the numbers it covers. *)
Definition ring_repr (bits : list Z) (a : awindow) : Prop :=
  ∀ j, aw_top a - width bits < j ≤ aw_top a → ring_bit bits j = bool_decide (j ∈ aw_seen a).

Lemma mod_unique N i j : 0 < N → - N < i - j < N → i mod N = j mod N → i = j.
Proof.
  intros HN Hd He. pose proof (Z.div_mod i N ltac:(lia)) as Hi. pose proof (Z.div_mod j N ltac:(lia)) as Hj.
  rewrite He in Hi. set (q := i / N - j / N). assert (i - j = N * q) as Hq by (unfold q; lia).
  destruct (Z.lt_trichotomy q 0) as [|[|]]; nia.
Qed.

(** The one number of a stretch of [width] that a bit stands for. *)
Lemma ring_pos_unique bits i j :
  ring_ok bits → - width bits < i - j < width bits →
  (i mod width bits =? j mod width bits) = (i =? j).
Proof.
  intros Hok Hd. pose proof (ring_len_pos bits Hok). assert (0 < width bits) by (unfold width; lia).
  destruct (Z.eqb_spec (i mod width bits) (j mod width bits)) as [He|He], (Z.eqb_spec i j);
    try done; [|by subst]. exfalso. eauto using mod_unique.
Qed.

(** Marking a number of the window. *)
Lemma ring_repr_mark bits a F :
  ring_ok bits → ring_repr bits a → aw_top a - width bits < F ≤ aw_top a →
  ring_repr (setRing bits F) (mkAwindow (aw_top a) ({[F]} ∪ aw_seen a)).
Proof.
  intros Hok HR HF j. cbn [aw_top aw_seen]. rewrite setRing_spec by done.
  unfold setRing at 1. rewrite width_insert. intros Hj.
  rewrite ring_pos_unique, (HR j) by (done || lia).
  destruct (Z.eqb_spec j F) as [->|]; cbn [orb].
  - symmetry. apply bool_decide_eq_true_2. set_solver.
  - apply bool_decide_ext. set_solver.
Qed.

(** Moving the window forward to [F]: the numbers passed are unseen. *)
Lemma ring_repr_advance bits bits' a F :
  ring_ok bits' → width bits' = width bits → aw_inv a → aw_top a < F →
  (∀ j, F - width bits < j < F →
     ring_bit bits' j = (j <=? aw_top a) && bool_decide (j ∈ aw_seen a)) →
  ring_repr (setRing bits' F) (aw_jump a F).
Proof.
  intros Hok Hw Hi HF Hb j. cbn [aw_jump aw_top aw_seen]. rewrite setRing_spec by done.
  unfold setRing at 1. rewrite width_insert. intros Hj.
  rewrite ring_pos_unique by (done || lia).
  destruct (Z.eqb_spec j F) as [->|]; cbn [orb].
  - symmetry. apply bool_decide_eq_true_2. set_solver.
  - rewrite Hb by lia. destruct (Z.leb_spec j (aw_top a)); cbn [andb].
    + apply bool_decide_ext. set_solver.
    + symmetry. apply bool_decide_eq_false_2. intros Hin.
      assert (j ∈ aw_seen a) as Hs by set_solver. apply Hi in Hs. lia.
Qed.

Lemma aw_accept_inv wd reach a F : aw_inv a → aw_inv (aw_accept wd reach a F).1.
Proof.
  intros Hi. unfold aw_accept. repeat case_match; cbn [fst]; try done;
    intros j; cbn [aw_top aw_seen]; intros [Hj| Hj]%elem_of_union;
    try (apply Hi in Hj); rewrite ?elem_of_singleton in Hj; lia.
Qed.

(** The abstract window takes a number at most once. *)
Lemma aw_accept_cases wd reach a F a' v :
  aw_inv a → aw_accept wd reach a F = (a', v) →
  match v with
  | WindowNew => (F ∉ aw_seen a) ∧ aw_seen a' = {[F]} ∪ aw_seen a ∧ aw_top a' = Z.max (aw_top a) F
  | WindowAhead => a' = a ∧ match reach with Some r => r ≤ F - aw_top a | None => False end
  | WindowDuplicate => a' = a ∧ F ∈ aw_seen a
  | WindowLate => a' = a ∧ wd ≤ aw_top a - F
  end.
Proof.
  intros Hi. unfold aw_accept.
  destruct (Z.ltb_spec (aw_top a) F).
  - assert (F ∉ aw_seen a) by (intros Hs; apply Hi in Hs; lia).
    destruct reach as [r|]; [destruct (Z.leb_spec r (F - aw_top a))|]; intros [= <- <-]; cbn;
      split_and!; (done || lia).
  - destruct (Z.leb_spec wd (aw_top a - F)); [intros [= <- <-]; done|].
    case_bool_decide; intros [= <- <-]; cbn; split_and!; (done || lia).
Qed.

Lemma setRing_congr bits i j : ring_ok bits → i mod width bits = j mod width bits → setRing bits i = setRing bits j.
Proof. intros Hok [Hw Ho]%ring_pos_eq; [|done]. unfold setRing. by rewrite Hw, Ho. Qed.

Lemma width_setRing bits i : width (setRing bits i) = width bits.
Proof. apply width_insert. Qed.

(** After clearing the numbers the window passes. *)
Lemma ring_cleared bits a from d j :
  ring_ok bits → ring_repr bits a → 0 ≤ from → from + d ≤ 2 ^ 64 →
  (from - (aw_top a + 1)) mod width bits = 0 → 0 < d < width bits →
  aw_top a + d - width bits < j < aw_top a + d →
  ring_bit (clearRing bits from d) j = (j <=? aw_top a) && bool_decide (j ∈ aw_seen a).
Proof.
  intros Hok HR Hf Hs Hm Hd Hj.
  destruct (clearRing_spec bits from d j) as (_ & _ & ->); [done|done|lia|done|].
  assert ((j - from) mod width bits = (j - (aw_top a + 1)) mod width bits) as ->.
  { replace (j - (aw_top a + 1)) with ((j - from) + (from - (aw_top a + 1))) by lia.
    rewrite <- Zplus_mod_idemp_r, Hm. f_equal. lia. }
  destruct (Z.leb_spec j (aw_top a)) as [Hle|Hgt]; cbn [andb].
  - replace (j - (aw_top a + 1)) with (j - (aw_top a + 1) + width bits + (-1) * width bits) by lia.
    rewrite Z.mod_add, Z.mod_small by lia.
    destruct (Z.ltb_spec (j - (aw_top a + 1) + width bits) d); [lia|]. cbn [negb andb].
    apply HR. lia.
  - rewrite Z.mod_small by lia. by destruct (Z.ltb_spec (j - (aw_top a + 1)) d); [|lia].
Qed.

(** ** FseqWindow implements the abstract window *)

Definition fseq_rel (w : FseqWindow) (a : awindow) : Prop :=
  fw_top w = u32 (aw_top a) ∧ ring_ok (fw_bits w) ∧ width (fw_bits w) = FseqWindowBits ∧
  aw_inv a ∧ ring_repr (fw_bits w) a.

Lemma u32_mod_width F : u32 F mod FseqWindowBits = F mod FseqWindowBits.
Proof.
  unfold wrap, FseqWindowBits. apply Z.mod_mod_divide. by exists (2 ^ 19).
Qed.

(** The serial distance of two numbers less than half the space apart. *)
Lemma serial_diff F T :
  - 2 ^ 31 ≤ F - T < 2 ^ 31 → i32 (u32 (u32 F - u32 T)) = F - T.
Proof.
  intros Hd. rewrite (swrap_congr 32 _ (F - T)).
  - apply swrap_small; lia.
  - unfold wrap. rewrite Z.mod_mod by lia. by rewrite <- Zminus_mod.
Qed.

Lemma u32_diff F T : u32 (u32 F - u32 T) = u32 (F - T).
Proof. unfold wrap. by rewrite <- Zminus_mod. Qed.

Lemma fseq_advance w a F :
  fseq_rel w a → 0 < F - aw_top a < FseqWindowBits →
  fseq_rel (mkFseqWindow (u32 F)
    (setRing (clearRing (fw_bits w) (u64 (fw_top w + 1)) (F - aw_top a)) (u32 F))) (aw_jump a F).
Proof.
  intros (Ht & Hok & Hw & Hi & HR) HF. unfold FseqWindowBits in *.
  pose proof (wrap_fits 32 (aw_top a) ltac:(lia)) as Hu. unfold fits in Hu.
  rewrite (wrap_small 64) by (unfold fits; lia). rewrite Ht.
  destruct (clearRing_spec (fw_bits w) (u32 (aw_top a) + 1) (F - aw_top a) 0)
    as (Hok' & Hw' & _); [done|lia|lia|lia|].
  set (bits := clearRing _ _ _) in *.
  rewrite (setRing_congr bits (u32 F) F).
  2: done. 2: rewrite Hw', Hw; apply u32_mod_width.
  split_and!; cbn [fw_top fw_bits].
  - done.
  - by apply setRing_ok.
  - by rewrite width_setRing, Hw'.
  - intros j. cbn [aw_jump aw_top aw_seen]. intros [Hj|Hj]%elem_of_union;
      [apply elem_of_singleton in Hj; lia|apply Hi in Hj; lia].
  - apply (ring_repr_advance (fw_bits w)); try done; [lia|]. intros j Hj.
    apply ring_cleared; try done; try lia. rewrite Hw.
    pose proof (u32_mod_width (aw_top a)) as Hm. unfold FseqWindowBits in Hm.
    rewrite Zminus_mod, (Zplus_mod (u32 (aw_top a))), Hm, <- Zplus_mod, Z.sub_diag. done.
Qed.

Lemma fseq_accept_refines w a F w' v :
  fseq_rel w a → - 2 ^ 31 ≤ F - aw_top a < 2 ^ 31 →
  FseqWindow_Accept w (u32 F) = (w', v) →
  let '(a', v') := aw_accept FseqWindowBits (Some FseqWindowBits) a F in
  v = v' ∧ fseq_rel w' a'.
Proof.
  intros HR HF. pose proof HR as (Ht & Hok & Hw & Hi & Hrep).
  unfold FseqWindow_Accept, aw_accept. rewrite Ht, serial_diff, !u32_diff by done.
  destruct (Z.ltb_spec 0 (F - aw_top a)) as [Hlt|Hge].
  - rewrite (wrap_small 32 (F - aw_top a)) by (unfold fits; lia).
    destruct (Z.ltb_spec (aw_top a) F); [|lia].
    destruct (Z.leb_spec FseqWindowBits (F - aw_top a)); intros [= <- <-]; [done|].
    split; [done|]. rewrite <- Ht. by apply fseq_advance.
  - rewrite (wrap_small 32 (aw_top a - F)) by (unfold fits; lia).
    destruct (Z.ltb_spec (aw_top a) F); [lia|].
    destruct (Z.leb_spec FseqWindowBits (aw_top a - F)); [by intros [= <- <-]|].
    rewrite markRing_spec by done.
    assert (u32 F mod width (fw_bits w) = F mod width (fw_bits w)) as Hm
      by (rewrite Hw; apply u32_mod_width).
    rewrite (ring_bit_mod _ Hok (u32 F) F Hm), (setRing_congr _ (u32 F) F) by done.
    rewrite Hrep by lia. case_bool_decide; intros [= <- <-].
    + split; [done|]. by split_and!; cbn [fw_top fw_bits].
    + split; [done|]. split_and!; cbn [fw_top fw_bits].
      * done.
      * by apply setRing_ok.
      * by rewrite width_setRing.
      * intros j. cbn [aw_top aw_seen]. intros [Hj|Hj]%elem_of_union;
          [apply elem_of_singleton in Hj; lia|by apply Hi in Hj].
      * apply ring_repr_mark; try done. lia.
Qed.

Lemma ring_ok_replicate n e v : is_u64 v → 0 ≤ e ≤ 57 → Z.of_nat n = 2 ^ e → ring_ok (replicate n v).
Proof.
  intros Hv He Hn. exists e. rewrite len_replicate. split_and!; try lia. by apply Forall_replicate.
Qed.

Lemma ring_bit_zeros n i : ring_bit (replicate n 0) i = false.
Proof.
  unfold ring_bit. rewrite nth_lookup. destruct (replicate n 0 !! _) as [x|] eqn:Hx; simpl.
  - apply lookup_replicate in Hx as [-> _]. apply Z.bits_0.
  - apply Z.bits_0.
Qed.

Lemma fseq_jump_refines w a F :
  fseq_rel w a → FseqWindowBits ≤ F - aw_top a →
  fseq_rel (FseqWindow_Jump w (u32 F)) (aw_jump a F).
Proof.
  intros (Ht & Hok & Hw & Hi & Hrep) HF. unfold FseqWindow_Jump, FseqWindowBits in *.
  set (bits := replicate (Z.to_nat (8192 / 64)) 0).
  assert (ring_ok bits) as Hok' by (by apply (ring_ok_replicate _ 7)).
  assert (width bits = 8192) as Hw' by done.
  rewrite (setRing_congr bits (u32 F) F); [|done|rewrite Hw'; apply u32_mod_width].
  split_and!; cbn [fw_top fw_bits].
  - done.
  - by apply setRing_ok.
  - by rewrite width_setRing.
  - intros j. cbn [aw_jump aw_top aw_seen]. intros [Hj|Hj]%elem_of_union;
      [apply elem_of_singleton in Hj; lia|apply Hi in Hj; lia].
  - apply (ring_repr_advance (fw_bits w)); [done|by rewrite Hw|done|lia|]. intros j Hj.
    unfold bits. rewrite ring_bit_zeros. rewrite Hw in Hj. destruct (Z.leb_spec j (aw_top a)); [lia|done].
Qed.

(** Everything before the first number counts as seen. *)
Definition aw_init (first : Z) : awindow :=
  mkAwindow (first - 1) (list_to_set (seqZ (first - FseqWindowBits) FseqWindowBits)).

Lemma aw_init_seen first j :
  j ∈ aw_seen (aw_init first) ↔ first - FseqWindowBits ≤ j < first.
Proof. unfold aw_init. cbn [aw_seen]. rewrite elem_of_list_to_set, elem_of_seqZ. lia. Qed.

Lemma ring_bit_ones n i : (0 < n)%nat → ring_ok (replicate n (2 ^ 64 - 1)) →
  ring_bit (replicate n (2 ^ 64 - 1)) i = true.
Proof.
  intros Hn Hok. unfold ring_bit. pose proof (ring_word_lt _ Hok i) as Hl.
  rewrite length_replicate in Hl. rewrite nth_lookup, lookup_replicate_2 by done. simpl.
  change (2 ^ 64 - 1) with (Z.ones 64).
  apply Z.ones_spec_low. apply Z.mod_pos_bound. lia.
Qed.

Lemma fseq_init_rel first : fseq_rel (FseqWindow_Init first) (aw_init first).
Proof.
  unfold FseqWindow_Init. set (bits := replicate _ _).
  assert (ring_ok bits) as Hok by (by apply (ring_ok_replicate _ 7)).
  split; [reflexivity|]. split; [exact Hok|]. split; [reflexivity|]. split.
  - intros j Hj%aw_init_seen. cbn [aw_init aw_top]. lia.
  - intros j. cbn [aw_init aw_top fw_bits].
    assert (width bits = FseqWindowBits) as -> by reflexivity. intros Hj.
    unfold bits. rewrite ring_bit_ones by (done || vm_compute; lia). symmetry.
    apply bool_decide_eq_true_2, aw_init_seen. unfold FseqWindowBits in *. lia.
Qed.

(** What a carrier direction does with a CRC-verified frame of fseq [f]: it
    takes a new number; a forward jump it takes only with [proof]. *)
Definition fseq_offer (w : FseqWindow) (f : Z) (proof : bool) : FseqWindow * bool :=
  match FseqWindow_Accept w f with
  | (w', WindowNew) => (w', true)
  | (w', WindowAhead) => if proof then (FseqWindow_Jump w' f, true) else (w', false)
  | (w', _) => (w', false)
  end.

(** The numbers taken of a sequence of offers, oldest first.  An offer is the
    sender's frame number before truncation to 32 bits. *)
Fixpoint fseq_run (w : FseqWindow) (offers : list (Z * bool)) : list Z :=
  match offers with
  | [] => []
  | (F, proof) :: r =>
      let '(w', taken) := fseq_offer w (u32 F) proof in
      if taken then F :: fseq_run w' r else fseq_run w' r
  end.

(** Every offer lies within half the number space of the newest taken, [T]. *)
Fixpoint fseq_near (T : Z) (w : FseqWindow) (offers : list (Z * bool)) : Prop :=
  match offers with
  | [] => True
  | (F, proof) :: r =>
      - 2 ^ 31 ≤ F - T < 2 ^ 31 ∧
      let '(w', taken) := fseq_offer w (u32 F) proof in
      fseq_near (if taken then Z.max T F else T) w' r
  end.

Lemma fseq_offer_rel w a F proof w' taken :
  fseq_rel w a → - 2 ^ 31 ≤ F - aw_top a < 2 ^ 31 → fseq_offer w (u32 F) proof = (w', taken) →
  ∃ a', fseq_rel w' a' ∧
    if taken then (F ∉ aw_seen a) ∧ aw_seen a' = {[F]} ∪ aw_seen a ∧ aw_top a' = Z.max (aw_top a) F
    else a' = a.
Proof.
  intros HR HF Ho. unfold fseq_offer in Ho.
  destruct (FseqWindow_Accept w (u32 F)) as [w1 v] eqn:Ha.
  apply (fseq_accept_refines w a F) in Ha; [|done|done].
  pose proof HR as (_ & _ & _ & Hi & _).
  destruct (aw_accept _ _ a F) as [a1 v1] eqn:Hacc. destruct Ha as [-> HR'].
  apply aw_accept_cases in Hacc; [|done].
  destruct v1; simplify_eq.
  - by exists a1.
  - destruct Hacc as [-> _]. by exists a.
  - destruct Hacc as [-> _]. by exists a.
  - destruct Hacc as [-> Hr]. destruct proof; simplify_eq; [|by exists a].
    pose proof (fseq_jump_refines w1 a F HR' Hr) as HJ.
    exists (aw_jump a F). unfold FseqWindowBits in Hr. split; [done|]. split_and!.
    + intros Hs. apply Hi in Hs. lia.
    + done.
    + cbn [aw_jump aw_top]. lia.
Qed.

Lemma fseq_run_fresh offers : ∀ w a,
  fseq_rel w a → fseq_near (aw_top a) w offers →
  NoDup (fseq_run w offers) ∧ ∀ F, F ∈ fseq_run w offers → F ∉ aw_seen a.
Proof.
  induction offers as [|[F proof] r IH]; intros w a HR Hn; cbn [fseq_run].
  { split; [constructor|]. intros F HF. by apply elem_of_nil in HF. }
  destruct Hn as [HF Hn]. destruct (fseq_offer w (u32 F) proof) as [w' taken] eqn:Ho.
  destruct (fseq_offer_rel w a F proof w' taken HR HF Ho) as (a' & HR' & Ht).
  destruct taken; [|by subst; apply (IH w' a)].
  destruct Ht as (Hfresh & Hs & Htop). rewrite <- Htop in Hn.
  destruct (IH w' a' HR' Hn) as [Hnd Hfr]. split.
  - constructor; [|done]. intros Hin. apply Hfr in Hin. set_solver.
  - intros G [->|HG]%elem_of_cons; [done|]. apply Hfr in HG. set_solver.
Qed.

(** ** SeqWindow implements the abstract window *)

(** Before the first number nothing is seen and the bitmap is clear. *)
Definition seq_rel (w : SeqWindow) (a : awindow) : Prop :=
  ring_ok (sw_bits w) ∧ aw_inv a ∧ ring_repr (sw_bits w) a ∧
  if sw_started w then sw_top w = aw_top a ∧ is_u64 (aw_top a)
  else a = mkAwindow (-1) ∅ ∧ sw_bits w = replicate (length (sw_bits w)) 0.

Lemma ring_width_bound bits : ring_ok bits → 0 < width bits ≤ 2 ^ 63.
Proof.
  intros (e & He & Hl & _). unfold width. rewrite Hl.
  assert (2 ^ e ≤ 2 ^ 57) by (apply Z.pow_le_mono_r; lia).
  assert (0 < 2 ^ e) by (apply Z.pow_pos_nonneg; lia). lia.
Qed.

Lemma aw_jump_inv a F : aw_inv a → aw_top a < F → aw_inv (aw_jump a F).
Proof.
  intros Hi HF j. cbn [aw_jump aw_top aw_seen]. intros [Hj|Hj]%elem_of_union;
    [apply elem_of_singleton in Hj; lia|apply Hi in Hj; lia].
Qed.

(** Moving to a newer number over a bitmap that agrees below it. *)
Lemma seq_advance bits bits' a F :
  ring_ok bits' → width bits' = width bits → aw_inv a → aw_top a < F → is_u64 F →
  (∀ j, F - width bits < j < F →
     ring_bit bits' j = (j <=? aw_top a) && bool_decide (j ∈ aw_seen a)) →
  seq_rel (mkSeqWindow F true (setRing bits' F)) (aw_jump a F).
Proof.
  intros Hok Hw Hi HF Hu Hb. split; [by apply setRing_ok|]. split; [by apply aw_jump_inv|].
  split; [|done]. by apply (ring_repr_advance bits).
Qed.

Lemma ring_ok_zeros bits : ring_ok bits → ring_ok (replicate (length bits) 0).
Proof.
  intros (e & He & Hl & _). apply (ring_ok_replicate _ e); [done|done|]. unfold len in Hl. lia.
Qed.

Lemma width_zeros bits : width (replicate (length bits) 0) = width bits.
Proof. unfold width. by rewrite len_replicate. Qed.

Lemma seq_accept_refines w a seq w' v :
  seq_rel w a → is_u64 seq → SeqWindow_Accept w seq = (w', v) →
  let '(a', v') := aw_accept (width (sw_bits w)) None a seq in v = v' ∧ seq_rel w' a'.
Proof.
  intros (Hok & Hi & Hrep & Hst) Hu. pose proof (ring_width_bound _ Hok) as Hwb.
  unfold fits in Hu. unfold SeqWindow_Accept, aw_accept. fold (width (sw_bits w)).
  rewrite (wrap_small 64 (width (sw_bits w))) by (unfold fits; lia).
  destruct w as [top started bits]. cbn [sw_top sw_started sw_bits] in *.
  destruct started; cbn [negb].
  - destruct Hst as [-> Hut]. unfold fits in Hut.
    destruct (Z.ltb_spec (aw_top a) seq) as [Hlt|Hge].
    + rewrite (wrap_small 64 (seq - aw_top a)) by (unfold fits; lia).
      rewrite (wrap_small 64 (aw_top a + 1)) by (unfold fits; lia).
      destruct (Z.leb_spec (width bits) (seq - aw_top a)); intros [= <- <-]; (split; [done|]).
      * apply (seq_advance bits); try done; [by apply ring_ok_zeros|by apply width_zeros|].
        intros j Hj. rewrite ring_bit_zeros. destruct (Z.leb_spec j (aw_top a)); [lia|done].
      * destruct (clearRing_spec bits (aw_top a + 1) (seq - aw_top a) 0)
          as (Hok' & Hw' & _); [done|lia|lia|lia|].
        apply (seq_advance bits); try done. intros j Hj.
        apply ring_cleared; try done; try lia. by rewrite Z.sub_diag.
    + rewrite (wrap_small 64 (aw_top a - seq)) by (unfold fits; lia).
      destruct (Z.leb_spec (width bits) (aw_top a - seq)).
      { intros [= <- <-]. split; [done|]. by split_and!. }
      rewrite markRing_spec, Hrep by (done || lia).
      case_bool_decide; intros [= <- <-]; (split; [done|]); split_and!;
        cbn [sw_top sw_started sw_bits aw_top aw_seen]; try done.
      * by apply setRing_ok.
      * intros j Hj. cbn [aw_top aw_seen] in *. apply elem_of_union in Hj as [Hj|Hj];
          [apply elem_of_singleton in Hj; lia|by apply Hi in Hj].
      * apply ring_repr_mark; try done. lia.
  - destruct Hst as [-> Hz]. cbn [aw_top]. destruct (Z.ltb_spec (-1) seq); [|lia].
    intros [= <- <-]. split; [done|]. apply (seq_advance bits); try done.
    intros j Hj. rewrite Hz, ring_bit_zeros. by rewrite andb_false_r.
Qed.

(** The test [n & (n−1) == 0] of Init: a power of two. *)
Lemma land_pred_pow2 n : 0 < n → Z.land n (n - 1) = 0 → n = 2 ^ Z.log2 n.
Proof.
  intros Hn Hl. pose proof (Z.log2_spec n Hn) as [Hlo Hhi].
  destruct (Z.eq_dec n (2 ^ Z.log2 n)) as [|Hne]; [done|]. exfalso.
  assert (Z.log2 (n - 1) = Z.log2 n) as Hlog.
  { apply Z.log2_unique; [apply Z.log2_nonneg|]. split; lia. }
  assert (1 < n).
  { destruct (Z.eq_dec n 1) as [->|]; [done|lia]. }
  apply (f_equal (λ z, Z.testbit z (Z.log2 n))) in Hl.
  rewrite Z.land_spec, Z.bits_0, Z.bit_log2 in Hl by lia.
  rewrite <- Hlog, Z.bit_log2 in Hl by lia. done.
Qed.

Lemma seq_init_rel storage w :
  len storage ≤ 2 ^ 57 → SeqWindow_Init storage = Ok w →
  seq_rel w (mkAwindow (-1) ∅) ∧ width (sw_bits w) = len storage * 64.
Proof.
  intros Hm. unfold SeqWindow_Init, minSeqWindowWords.
  destruct (Z.ltb_spec (len storage) 16); [done|]. cbn [orb].
  destruct (Z.eqb_spec (Z.land (len storage) (len storage - 1)) 0) as [Hl|]; [|done].
  intros [= <-]. apply land_pred_pow2 in Hl; [|lia]. cbn [sw_bits].
  split; [|by rewrite width_zeros]. split_and!; cbn [sw_started sw_bits].
  - apply (ring_ok_replicate _ (Z.log2 (len storage))); [done| |unfold len in *; lia].
    split; [apply Z.log2_nonneg|]. apply (Z.pow_le_mono_r_iff 2); [lia|lia|]. by rewrite <- Hl.
  - intros j Hj. by apply elem_of_empty in Hj.
  - intros j Hj. by rewrite ring_bit_zeros.
  - by rewrite length_replicate.
Qed.

(** The seqs a packet session delivers of a sequence of arrivals. *)
Fixpoint seq_run (w : SeqWindow) (seqs : list Z) : list Z :=
  match seqs with
  | [] => []
  | s :: r =>
      let '(w', v) := SeqWindow_Accept w s in
      if bool_decide (v = WindowNew) then s :: seq_run w' r else seq_run w' r
  end.

Lemma seq_run_fresh seqs : ∀ w a,
  seq_rel w a → Forall (fits 64) seqs →
  NoDup (seq_run w seqs) ∧ ∀ F, F ∈ seq_run w seqs → F ∉ aw_seen a.
Proof.
  induction seqs as [|s r IH]; intros w a HR HF; cbn [seq_run].
  { split; [constructor|]. intros F HF'. by apply elem_of_nil in HF'. }
  apply Forall_cons in HF as [Hs HF]. destruct (SeqWindow_Accept w s) as [w' v] eqn:Hacc.
  apply (seq_accept_refines w a) in Hacc; [|done|done].
  destruct (aw_accept _ _ a s) as [a' v'] eqn:Ha. destruct Hacc as [-> HR'].
  apply aw_accept_cases in Ha; [|apply HR].
  case_bool_decide as Hv; [subst v'|].
  - destruct Ha as (Hfresh & Hse & _). destruct (IH w' a' HR' HF) as [Hnd Hfr]. split.
    + constructor; [|done]. intros Hin. apply Hfr in Hin. set_solver.
    + intros G [->|HG]%elem_of_cons; [done|]. apply Hfr in HG. set_solver.
  - assert (a' = a) as -> by (destruct v'; naive_solver). by apply (IH w' a).
Qed.

(** ** Properties *)

(** C13. The anti-replay window implements the abstract window that never forgets:
    from Init on, Accept gives the verdict the abstract window gives for the
    sender's untruncated frame number — across the 32-bit wrap, for every
    number less than half the space from the newest — and Jump, taken only on
    WindowAhead, keeps the two in step. *)
Theorem fseq_window_refines w a F first :
  fseq_rel w a → - 2 ^ 31 ≤ F - aw_top a < 2 ^ 31 →
  fseq_rel (FseqWindow_Init first) (aw_init first) ∧
  let '(w', v) := FseqWindow_Accept w (u32 F) in
  let '(a', v') := aw_accept FseqWindowBits (Some FseqWindowBits) a F in
  v = v' ∧ fseq_rel w' a' ∧
  (v = WindowAhead → fseq_rel (FseqWindow_Jump w' (u32 F)) (aw_jump a' F)).
Proof.
  intros HR HF. split; [apply fseq_init_rel|].
  destruct (FseqWindow_Accept w (u32 F)) as [w' v] eqn:Hw.
  apply (fseq_accept_refines w a F) in Hw; [|done|done].
  destruct (aw_accept _ _ a F) as [a' v'] eqn:Ha. destruct Hw as [-> HR'].
  split_and!; [done|done|]. intros ->. apply aw_accept_cases in Ha as [-> Hr]; [|apply HR].
  by apply fseq_jump_refines.
Qed.

Lemma fseq_window_refines_witness :
  fseq_rel (FseqWindow_Init 4294967290) (aw_init 4294967290) ∧
  (FseqWindow_Accept (FseqWindow_Init 4294967290) (u32 4294967300)).2 = WindowNew.
Proof.
  pose proof (fseq_window_refines (FseqWindow_Init 4294967290) (aw_init 4294967290) 4294967300
    4294967290 (fseq_init_rel 4294967290) ltac:(cbn [aw_init aw_top]; lia)) as H.
  split; [exact (proj1 H)|vm_compute; reflexivity].
Defined.

(** C14. No frame of a datagram-carrier direction is taken twice: over any sequence
    of offers, each within half the number space of the newest number taken,
    the numbers taken — Jumps included — are all different and none lies in
    the window before the direction's first. *)
Theorem fseq_at_most_once first offers :
  fseq_near (first - 1) (FseqWindow_Init first) offers →
  NoDup (fseq_run (FseqWindow_Init first) offers) ∧
  ∀ F, F ∈ fseq_run (FseqWindow_Init first) offers → ¬ (first - FseqWindowBits ≤ F < first).
Proof.
  intros Hn. destruct (fseq_run_fresh offers (FseqWindow_Init first) (aw_init first))
    as [Hnd Hfr]; [apply fseq_init_rel|done|]. split; [done|].
  intros F HF Hb. apply (Hfr F HF). by apply aw_init_seen.
Qed.

(** Frames across the 32-bit wrap, a replay, a reordered one and a jump. *)
Lemma fseq_at_most_once_witness :
  NoDup (fseq_run (FseqWindow_Init 4294967295)
    [(4294967295, false); (4294967297, false); (4294967295, false); (4294967296, false);
     (4295967296, false); (4295967296, true); (4294967297, false)]).
Proof.
  apply (fseq_at_most_once 4294967295). cbn [fseq_near]. vm_compute. repeat split; discriminate.
Defined.

(** C15. The receive dedup window of a packet session implements the abstract
    window: from Init on, every seq gets the abstract verdict — New exactly
    when it was never accepted and is newer than the newest or less than the
    width behind it — so, over any arrivals, no seq is delivered twice. *)
Theorem seq_window_refines storage w seqs :
  len storage ≤ 2 ^ 57 → SeqWindow_Init storage = Ok w → Forall (fits 64) seqs →
  seq_rel w (mkAwindow (-1) ∅) ∧
  (∀ w1 a s, seq_rel w1 a → is_u64 s →
     let '(w2, v) := SeqWindow_Accept w1 s in
     let '(a', v') := aw_accept (width (sw_bits w1)) None a s in v = v' ∧ seq_rel w2 a') ∧
  NoDup (seq_run w seqs).
Proof.
  intros Hl Hw Hs. destruct (seq_init_rel storage w Hl Hw) as [HR _]. split_and!.
  - done.
  - intros w1 a s HR1 Hu. destruct (SeqWindow_Accept w1 s) as [w2 v] eqn:Ha.
    by apply (seq_accept_refines w1 a).
  - by apply (seq_run_fresh seqs w (mkAwindow (-1) ∅)).
Qed.

Lemma seq_window_refines_witness :
  ∃ w, SeqWindow_Init (replicate 16 7) = Ok w ∧
    NoDup (seq_run w [5; 3; 5; 2000; 3; 1999; 1999]) ∧
    seq_run w [5; 3; 5; 2000; 3; 1999; 1999] = [5; 3; 2000; 1999].
Proof.
  exists (mkSeqWindow 0 false (replicate 16 0)). split; [reflexivity|].
  split; [|vm_compute; reflexivity].
  refine (proj2 (proj2 (seq_window_refines (replicate 16 7) _ _ _ _ _))).
  - vm_compute. discriminate.
  - reflexivity.
  - repeat (constructor; [vm_compute; split; [discriminate|reflexivity]|]). constructor.
Defined.
