(* ===== verification/GoTime.v ===== *)
(** Go's time and float64 as package internal/sched uses them.

    A [Duration] is an int64 of nanoseconds; arithmetic that the source does
    on int64 is written with its wrap-around.  A [Time] is an instant in
    nanoseconds counted from the zero Time, so the zero Time is 0 and every
    clock reading is positive; Sub saturates like time.Time.Sub.  A float64 is
    a binary64 number of the standard library's executable specification of
    IEEE 754 (round to nearest even, no fused multiply-add). *)

From Stdlib Require Import ZArith Lia SpecFloat.
From stdpp Require Import base numbers.
From S2P Require Import Prelude.

Open Scope Z_scope.

Definition MaxInt64 : Z := 2 ^ 63 - 1.
Definition MinInt64 : Z := - 2 ^ 63.

(** A value of an int64 type (time.Duration included). *)
Definition is_i64 (x : Z) : Prop := MinInt64 ≤ x ≤ MaxInt64.

#[global] Instance is_i64_dec x : Decision (is_i64 x).
Proof. unfold is_i64. apply _. Defined.

Lemma i64_small x : is_i64 x → i64 x = x.
Proof. unfold is_i64, MinInt64, MaxInt64. intros. apply swrap_small; lia. Qed.

Lemma swrap_range w x : 0 < w → - 2 ^ (w - 1) ≤ swrap w x < 2 ^ (w - 1).
Proof.
  intros Hw. unfold swrap. pose proof (Z.mod_pos_bound (x + 2 ^ (w - 1)) (2 ^ w)) as Hb.
  assert (2 ^ w = 2 * 2 ^ (w - 1)) as Hp.
  { rewrite <- Z.pow_succ_r by lia. f_equal. lia. }
  assert (0 < 2 ^ (w - 1)) by (apply Z.pow_pos_nonneg; lia). lia.
Qed.

Lemma i64_range x : is_i64 (i64 x).
Proof.
  unfold is_i64, MinInt64, MaxInt64. pose proof (swrap_range 64 x ltac:(lia)). simpl in *. lia.
Qed.

(** Go's integer division truncates towards zero. *)
Abbreviation quot := Z.quot.
Abbreviation rem := Z.rem.

(** ** Durations *)
Definition Nanosecond : Z := 1.
Definition Millisecond : Z := 1000000.
Definition Second : Z := 1000000000.

(** ** Times *)
Abbreviation Time := Z.
Abbreviation Duration := Z.

Definition zero_time : Time := 0.
Definition IsZero (t : Time) : bool := t =? 0.
Definition Before (t u : Time) : bool := t <? u.
Definition After (t u : Time) : bool := u <? t.
Definition Add (t : Time) (d : Duration) : Time := t + d.
Definition Sub (t u : Time) : Duration := Z.max MinInt64 (Z.min MaxInt64 (t - u)).

Lemma Sub_le t u d : d < MaxInt64 → MinInt64 ≤ d → Sub t u ≤ d ↔ t - u ≤ d.
Proof. unfold Sub, MaxInt64, MinInt64. lia. Qed.

(** earlier of internal/sched/selector.go: the earlier of two times, a zero
    time meaning "never". *)
Definition earlier (a b : Time) : Time :=
  if IsZero a || (negb (IsZero b) && Before b a) then b else a.

(** [w] is a wake-up no later than [t]. *)
Definition covers (w t : Time) : Prop := t ≠ 0 → w ≠ 0 ∧ w ≤ t.

Lemma earlier_covers a b : 0 ≤ a → 0 ≤ b → covers (earlier a b) a ∧ covers (earlier a b) b.
Proof.
  unfold covers, earlier, IsZero, Before. intros Ha Hb.
  destruct (Z.eqb_spec a 0), (Z.eqb_spec b 0), (Z.ltb_spec b a); cbn; lia.
Qed.

Lemma earlier_nonneg a b : 0 ≤ a → 0 ≤ b → 0 ≤ earlier a b.
Proof. unfold earlier. by case_match. Qed.

Lemma earlier_either a b : earlier a b = a ∨ earlier a b = b.
Proof. unfold earlier. case_match; auto. Qed.

Lemma covers_mono w w' t : covers w' w → covers w t → covers w' t.
Proof. unfold covers. intros H1 H2 Ht. destruct (H2 Ht) as [Hw Hl]. destruct (H1 Hw). lia. Qed.

(** ** float64 *)
Abbreviation float64 := spec_float.

Definition fadd : float64 → float64 → float64 := SFadd 53 1024.
Definition fsub : float64 → float64 → float64 := SFsub 53 1024.
Definition fmul : float64 → float64 → float64 := SFmul 53 1024.
Definition fdiv : float64 → float64 → float64 := SFdiv 53 1024.
Definition fsqrt : float64 → float64 := SFsqrt 53 1024.
Definition fle : float64 → float64 → bool := SFleb.
Definition flt : float64 → float64 → bool := SFltb.

(** Conversion of an integer: rounded to nearest even. *)
Definition f64 (z : Z) : float64 := binary_normalize 53 1024 z 0 false.

Definition is_NaN (x : float64) : bool := match x with S754_nan => true | _ => false end.
Definition is_Inf (x : float64) : bool := match x with S754_infinity _ => true | _ => false end.

(** The builtin [min] on float64. *)
Definition fmin (x y : float64) : float64 :=
  if is_NaN x || is_NaN y then S754_nan else if flt y x then y else x.

(** The integer part, towards zero; [None] for NaN and the infinities. *)
Definition ftrunc (x : float64) : option Z :=
  match x with
  | S754_zero _ => Some 0
  | S754_finite s m e =>
      let a := if 0 <=? e then Z.pos m * 2 ^ e else Z.pos m / 2 ^ (- e) in
      Some (if s then - a else a)
  | _ => None
  end.

(** math.Round: to the nearest integer, halfway cases away from zero. *)
Definition fround (x : float64) : option Z :=
  match x with
  | S754_zero _ => Some 0
  | S754_finite s m e =>
      let a := if 0 <=? e then Z.pos m * 2 ^ e
               else (2 * Z.pos m + 2 ^ (- e)) / (2 * 2 ^ (- e)) in
      Some (if s then - a else a)
  | _ => None
  end.

(** Conversion to an int64 type; a value out of range gives the "integer
    indefinite" of amd64. *)
Definition int64_of (z : option Z) : Z :=
  match z with
  | Some z => if (MinInt64 <=? z) && (z <=? MaxInt64) then z else MinInt64
  | None => MinInt64
  end.

Lemma int64_of_range z : is_i64 (int64_of z).
Proof.
  unfold int64_of, is_i64, MinInt64, MaxInt64. destruct z as [z|]; [|lia].
  destruct (Z.leb_spec (- 2 ^ 63) z), (Z.leb_spec z (2 ^ 63 - 1)); cbn [andb]; lia.
Qed.
