(* ===== verification/SchedEvidence.v ===== *)
(** RTT evidence of a factory: classification by age and the aggregator.

    Models internal/sched/evidence.go.  [Classify] and [NextChange] are the
    pure functions of a published [Summary]; the [Aggregator] keeps the last
    Window unloaded samples in a ring and restarts on a level shift.  The ring
    is proved to implement a bounded list. *)

From Stdlib Require Import ZArith Lia String SpecFloat.
From stdpp Require Import base numbers list sets sorting.
From S2P Require Import Prelude GoTime.

Open Scope Z_scope.

Definition MaxAggWindow : Z := 64.

Record AggParams := mkAggParams {
  Window : Z; MinEarlier : Z; ShiftRun : Z; SigmaK : float64; SigmaFloor : Duration
}.

Definition DefaultAggParams : AggParams := mkAggParams 32 3 2 (f64 3) (2 * Millisecond).

Definition normalized (p : AggParams) : AggParams :=
  let d := DefaultAggParams in
  mkAggParams
    (if Window p <=? 0 then Window d else if MaxAggWindow <? Window p then MaxAggWindow else Window p)
    (if MinEarlier p <=? 0 then MinEarlier d else MinEarlier p)
    (if ShiftRun p <=? 0 then ShiftRun d else ShiftRun p)
    (if negb (flt (f64 0) (SigmaK p)) || is_Inf (SigmaK p) then SigmaK d else SigmaK p)
    (if SigmaFloor p <=? 0 then SigmaFloor d else SigmaFloor p).

Record Summary := mkSummary {
  Seen : bool; Mean : Duration; N : Z; At : Time; LoadedAt : Time
}.

Inductive EvState := EvUnknown | EvFresh | EvHeld | EvStale.

#[global] Instance EvState_eq_dec : EqDecision EvState.
Proof. solve_decision. Defined.

Definition EvState_String (s : EvState) : string :=
  match s with
  | EvFresh => "fresh" | EvHeld => "held" | EvStale => "stale" | EvUnknown => "unknown"
  end.

Record Evidence := mkEvidence { State : EvState; RTT : Duration }.

#[global] Instance Evidence_eq_dec : EqDecision Evidence.
Proof. solve_decision. Defined.

Definition valued (s : Summary) : bool := (0 <? N s) && (0 <? Mean s) && negb (IsZero (At s)).

Definition within (now t : Time) (fresh : Duration) : bool :=
  negb (IsZero t) && (Sub now t <=? fresh).

Definition Classify (s : Summary) (now : Time) (fresh : Duration) : Evidence :=
  if negb (Seen s) then mkEvidence EvUnknown 0
  else if valued s && within now (At s) fresh then mkEvidence EvFresh (Mean s)
  else if within now (LoadedAt s) fresh then mkEvidence EvHeld (if valued s then Mean s else 0)
  else mkEvidence EvStale 0.

(** The breakpoints of NextChange: [c[:n]], in order. *)
Definition breakpoints (s : Summary) (fresh : Duration) : list Time :=
  let c0 := if valued s then [Add (Add (At s) fresh) 1] else [] in
  let c1 := if negb (IsZero (LoadedAt s)) then [Add (Add (LoadedAt s) fresh) 1] else [] in
  match c0 ++ c1 with
  | [x; y] => if Before y x then [y; x] else [x; y]
  | l => l
  end.

Fixpoint first_change (s : Summary) (now : Time) (fresh : Duration) (cur : Evidence) (c : list Time)
    : Time :=
  match c with
  | [] => zero_time
  | t :: r =>
      if After t now && negb (bool_decide (Classify s t fresh = cur)) then t
      else first_change s now fresh cur r
  end.

Definition NextChange (s : Summary) (now : Time) (fresh : Duration) : Time :=
  if negb (Seen s) then zero_time
  else first_change s now fresh (Classify s now fresh) (breakpoints s fresh).

(** ** The aggregator *)
Record Aggregator := mkAggregator {
  a_p : AggParams;
  a_ring : list Duration;
  a_head : Z;
  a_n : Z;
  a_seen : bool;
  a_last : Time;
  a_at : Time;
  a_loadedAt : Time;
  a_unloaded : Z;
  a_loaded : Z;
  a_shifts : Z
}.

Definition NewAggregator (p : AggParams) : Aggregator :=
  mkAggregator (normalized p) (replicate (Z.to_nat MaxAggWindow) 0) 0 0 false 0 0 0 0 0 0.

Definition Agg_Reset (a : Aggregator) : Aggregator :=
  mkAggregator (a_p a) (a_ring a) 0 0 false 0 0 0 (a_unloaded a) (a_loaded a) (a_shifts a).

(** The i-th sample of the window, 0 being the oldest. *)
Definition ring_at (a : Aggregator) (i : Z) : Duration :=
  nth (Z.to_nat (rem (a_head a + i) (Window (a_p a)))) (a_ring a) 0.

Definition sample (a : Aggregator) (i : Z) : float64 := f64 (ring_at a i).

(** [for i := lo; i < hi; i++] folding [f] over [sample i]. *)
Definition fold_samples {B} (a : Aggregator) (f : B → float64 → B) (lo hi : Z) (b : B) : B :=
  fold_left (λ b i, f b (sample a i)) (seqZ lo (hi - lo)) b.

(** The deviation test of levelShift for the first [e] samples. *)
Definition shifted (a : Aggregator) (e : Z) : bool :=
  let sum := fold_samples a fadd 0 e (f64 0) in
  let mean := fdiv sum (f64 e) in
  let ss := fold_samples a (λ ss x, let d := fsub x mean in fadd ss (fmul d d)) 0 e (f64 0) in
  let sigma := if 1 <? e then fsqrt (fdiv ss (f64 (e - 1))) else f64 0 in
  let f := f64 (SigmaFloor (a_p a)) in
  let sigma := if flt sigma f then f else sigma in
  let thr := fmul (SigmaK (a_p a)) sigma in
  let '(up, down) := fold_samples a
    (λ '(up, down) x,
       let d := fsub x mean in (up && flt thr d, down && flt d (SFopp thr)))
    e (a_n a) (true, true) in
  up || down.

Definition levelShift (a : Aggregator) : Aggregator :=
  let run := ShiftRun (a_p a) in
  let e := a_n a - run in
  if (e <=? 0) || (e <? MinEarlier (a_p a)) then a
  else if shifted a e then
    mkAggregator (a_p a) (a_ring a) (rem (a_head a + e) (Window (a_p a))) run (a_seen a)
      (a_last a) (a_at a) (a_loadedAt a) (a_unloaded a) (a_loaded a) (u64 (a_shifts a + 1))
  else a.

Definition Agg_Add (a : Aggregator) (at_ : Time) (rtt : Duration) (loaded : bool)
    : Aggregator * bool :=
  let p := if Window (a_p a) <=? 0 then normalized (a_p a) else a_p a in
  let a := mkAggregator p (a_ring a) (a_head a) (a_n a) (a_seen a) (a_last a) (a_at a)
             (a_loadedAt a) (a_unloaded a) (a_loaded a) (a_shifts a) in
  if IsZero at_ || (rtt <=? 0) || Before at_ (a_last a) then (a, false)
  else if loaded then
    (mkAggregator p (a_ring a) (a_head a) (a_n a) true at_ (a_at a) at_ (a_unloaded a)
       (u64 (a_loaded a + 1)) (a_shifts a), true)
  else
    let w := Window p in
    let '(ring, head, n) :=
      if a_n a <? w then
        (<[Z.to_nat (rem (a_head a + a_n a) w) := rtt]> (a_ring a), a_head a, a_n a + 1)
      else
        (<[Z.to_nat (a_head a) := rtt]> (a_ring a), rem (a_head a + 1) w, a_n a) in
    (levelShift (mkAggregator p ring head n true at_ at_ (a_loadedAt a) (u64 (a_unloaded a + 1))
       (a_loaded a) (a_shifts a)), true).

Definition Agg_Summary (a : Aggregator) : Summary :=
  mkSummary (a_seen a)
    (if 0 <? a_n a
     then int64_of (fround (fdiv (fold_samples a fadd 0 (a_n a) (f64 0)) (f64 (a_n a))))
     else 0)
    (a_n a) (a_at a) (a_loadedAt a).

Definition Agg_Counts (a : Aggregator) : Z * Z * Z := (a_unloaded a, a_loaded a, a_shifts a).

(** ** Classification *)

(** The timestamps of a summary are clock readings or zero. *)
Definition summary_times (s : Summary) : Prop := 0 ≤ At s ∧ 0 ≤ LoadedAt s.

Lemma within_age now t fresh : 0 ≤ fresh < MaxInt64 →
  within now t fresh = negb (t =? 0) && (now <? t + fresh + 1).
Proof.
  intros Hf. unfold within, IsZero. f_equal.
  destruct (Z.leb_spec (Sub now t) fresh) as [H|H], (Z.ltb_spec now (t + fresh + 1)); try done.
  - apply Sub_le in H; [lia|lia|unfold MinInt64; lia].
  - assert (Sub now t ≤ fresh); [|lia]. apply Sub_le; [lia|unfold MinInt64; lia|lia].
Qed.

(** The class depends only on which breakpoints lie after the instant. *)
Lemma Classify_breaks s now now' fresh :
  0 ≤ fresh < MaxInt64 →
  (valued s = true → now < At s + fresh + 1 ↔ now' < At s + fresh + 1) →
  (LoadedAt s ≠ 0 → now < LoadedAt s + fresh + 1 ↔ now' < LoadedAt s + fresh + 1) →
  Classify s now fresh = Classify s now' fresh.
Proof.
  intros Hf Ha Hl. unfold Classify. destruct (Seen s); [|done]. cbn [negb].
  assert (valued s && within now (At s) fresh = valued s && within now' (At s) fresh) as ->.
  { rewrite !within_age by done. destruct (valued s) eqn:Hv; [|done]. specialize (Ha eq_refl). cbn.
    f_equal. destruct (Z.ltb_spec now (At s + fresh + 1)), (Z.ltb_spec now' (At s + fresh + 1)); lia. }
  assert (within now (LoadedAt s) fresh = within now' (LoadedAt s) fresh) as ->; [|done].
  rewrite !within_age by done. destruct (Z.eqb_spec (LoadedAt s) 0) as [|Hz]; [done|].
  specialize (Hl Hz). cbn.
  destruct (Z.ltb_spec now (LoadedAt s + fresh + 1)), (Z.ltb_spec now' (LoadedAt s + fresh + 1)); lia.
Qed.

(** No breakpoint between two instants: the same class. *)
Lemma Classify_between s x y fresh :
  0 ≤ fresh < MaxInt64 → x ≤ y → (∀ t, t ∈ breakpoints s fresh → ¬ (x < t ≤ y)) →
  Classify s x fresh = Classify s y fresh.
Proof.
  intros Hf Hxy Hb.
  assert (valued s = true → At s + fresh + 1 ∈ breakpoints s fresh) as H0.
  { intros Hv. unfold breakpoints, Add, Before, IsZero. rewrite Hv.
    destruct (LoadedAt s =? 0); cbn; [|case_match]; set_solver. }
  assert (LoadedAt s ≠ 0 → LoadedAt s + fresh + 1 ∈ breakpoints s fresh) as H1.
  { intros Hz. unfold breakpoints, Add, Before, IsZero. destruct (Z.eqb_spec (LoadedAt s) 0); [done|].
    destruct (valued s); cbn; [case_match|]; set_solver. }
  apply Classify_breaks; [done| |].
  - intros Hv. specialize (Hb _ (H0 Hv)). lia.
  - intros Hz. specialize (Hb _ (H1 Hz)). lia.
Qed.

(** The breakpoints are in ascending order. *)
Lemma breakpoints_cases s fresh :
  breakpoints s fresh = [] ∨ (∃ x, breakpoints s fresh = [x]) ∨
  (∃ x y, breakpoints s fresh = [x; y] ∧ x ≤ y).
Proof.
  unfold breakpoints. destruct (valued s), (IsZero (LoadedAt s)); cbn; eauto.
  unfold Before. destruct (Z.ltb_spec (Add (Add (LoadedAt s) fresh) 1) (Add (Add (At s) fresh) 1));
    right; right; do 2 eexists; (split; [done|lia]).
Qed.

Lemma breakpoints_sorted s fresh : StronglySorted Z.le (breakpoints s fresh).
Proof.
  destruct (breakpoints_cases s fresh) as [->|[(x & ->)|(x & y & -> & Hxy)]];
    repeat constructor; done.
Qed.

Lemma first_change_spec s now fresh cur c : ∀ p,
  0 ≤ fresh < MaxInt64 → StronglySorted Z.le c → now ≤ p →
  (∀ t, t ∈ breakpoints s fresh → p < t → t ∈ c) →
  (∀ z, now ≤ z ≤ p → Classify s z fresh = cur) →
  (∀ t, t ∈ c → 0 < t) →
  let r := first_change s now fresh cur c in
  (r = 0 ∧ ∀ z, now ≤ z → Classify s z fresh = cur) ∨
  (now < r ∧ Classify s r fresh ≠ cur ∧ ∀ z, now ≤ z < r → Classify s z fresh = cur).
Proof.
  induction c as [|t c IH]; intros p Hf Hs Hp Hb Hz H0; cbn [first_change].
  { left. split; [done|]. intros z Hnz. destruct (Z.le_gt_cases z p); [apply Hz; lia|].
    rewrite <- (Hz p ltac:(lia)). symmetry. apply Classify_between; [done|lia|].
    intros t Ht Hpt. specialize (Hb t Ht ltac:(lia)). set_solver. }
  apply StronglySorted_inv in Hs as [Hs Hall]. rewrite Forall_forall in Hall.
  unfold After. destruct (Z.ltb_spec now t) as [Hnt|Hnt]; cbn [andb].
  2:{ apply (IH p); try done; [|set_solver]. intros u Hu Hpu. specialize (Hb u Hu Hpu).
      apply elem_of_cons in Hb as [->|]; [lia|done]. }
  case_bool_decide as Hc; cbn [negb].
  - apply (IH (Z.max p t)); try done; [lia| | |set_solver].
    + intros u Hu Hpu. specialize (Hb u Hu ltac:(lia)). apply elem_of_cons in Hb as [->|]; [lia|done].
    + intros z Hzz. destruct (Z.le_gt_cases z p); [apply Hz; lia|].
      destruct (Z.lt_ge_cases z t).
      * rewrite <- (Hz p ltac:(lia)). symmetry. apply Classify_between; [done|lia|].
        intros u Hu Hpu. specialize (Hb u Hu ltac:(lia)). apply elem_of_cons in Hb as [->|Hin]; [lia|].
        assert (t ≤ u) by (by apply Hall). lia.
      * by replace z with t by lia.
  - right. assert (p < t) as Hpt.
    { destruct (Z.lt_ge_cases p t); [done|]. exfalso. apply Hc, Hz. lia. }
    split_and!; [done|done|]. intros z Hzz. destruct (Z.le_gt_cases z p); [apply Hz; lia|].
    rewrite <- (Hz p ltac:(lia)). symmetry. apply Classify_between; [done|lia|].
    intros u Hu Hpu. specialize (Hb u Hu ltac:(lia)). apply elem_of_cons in Hb as [->|Hin]; [lia|].
    assert (t ≤ u) by (by apply Hall). lia.
Qed.

(** ** The ring implements a bounded list *)

(** The samples of the window, oldest first. *)
Definition contents (a : Aggregator) : list Duration := map (ring_at a) (seqZ 0 (a_n a)).

Definition params_ok (p : AggParams) : Prop :=
  1 ≤ Window p ≤ MaxAggWindow ∧ 1 ≤ MinEarlier p ∧ 1 ≤ ShiftRun p.

(** The invariant of an aggregator built by NewAggregator. *)
Definition agg_inv (a : Aggregator) : Prop :=
  params_ok (a_p a) ∧ len (a_ring a) = MaxAggWindow ∧
  0 ≤ a_head a < Window (a_p a) ∧ 0 ≤ a_n a ≤ Window (a_p a) ∧
  Forall (λ x, 0 < x) (contents a) ∧
  0 ≤ a_at a ≤ a_last a ∧ 0 ≤ a_loadedAt a ≤ a_last a ∧
  (a_seen a = false → a_n a = 0 ∧ a_last a = 0) ∧ (0 < a_n a → 0 < a_at a).

Lemma normalized_ok p : params_ok (normalized p).
Proof.
  unfold params_ok, normalized, MaxAggWindow. cbn.
  destruct (Z.leb_spec (Window p) 0), (Z.ltb_spec 64 (Window p)), (Z.leb_spec (MinEarlier p) 0),
    (Z.leb_spec (ShiftRun p) 0); lia.
Qed.

Lemma map_seqZ_ext {A} (f g : Z → A) m n :
  (∀ i, m ≤ i < m + n → f i = g i) → map f (seqZ m n) = map g (seqZ m n).
Proof.
  intros H. apply map_ext_in. intros i Hi. apply H. apply list_elem_of_In, elem_of_seqZ in Hi. lia.
Qed.

Lemma seqZ_snoc m n : 0 ≤ n → seqZ m (n + 1) = seqZ m n ++ [m + n].
Proof. intros. rewrite seqZ_app by lia. f_equal. Qed.

Lemma len_contents a : 0 ≤ a_n a → len (contents a) = a_n a.
Proof. intros. unfold contents, len. rewrite length_map, length_seqZ. lia. Qed.

Lemma rem_mod_pos x w : 0 ≤ x → 0 < w → rem x w = x mod w.
Proof. intros. apply Z.rem_mod_nonneg; lia. Qed.

(** Two positions of the window are different cells of the ring. *)
Lemma ring_cells_differ h i j w :
  0 < w → 0 ≤ i < w → 0 ≤ j < w → i ≠ j → (h + i) mod w ≠ (h + j) mod w.
Proof.
  intros Hw Hi Hj Hne He.
  pose proof (Z.div_mod (h + i) w ltac:(lia)) as H1. pose proof (Z.div_mod (h + j) w ltac:(lia)) as H2.
  rewrite He in H1. set (q := (h + i) / w - (h + j) / w).
  assert (i - j = w * q) as Hq by (unfold q; lia).
  destruct (Z.lt_trichotomy q 0) as [|[|]]; nia.
Qed.

Lemma nth_insert_Z (l : list Z) i j v : 0 ≤ i < len l → 0 ≤ j →
  nth (Z.to_nat j) (<[Z.to_nat i := v]> l) 0 = if i =? j then v else nth (Z.to_nat j) l 0.
Proof.
  intros Hi Hj. destruct (Z.eqb_spec i j) as [->|Hne].
  - apply nth_lookup_Some. rewrite list_lookup_insert_eq; [done|]. unfold len in Hi. lia.
  - rewrite !nth_lookup, list_lookup_insert_ne by lia. done.
Qed.

(** Below capacity the new sample goes behind the window. *)
Lemma contents_push_free a a' rtt :
  agg_inv a → a_n a < Window (a_p a) → a_p a' = a_p a → a_head a' = a_head a → a_n a' = a_n a + 1 →
  a_ring a' = <[Z.to_nat (rem (a_head a + a_n a) (Window (a_p a))) := rtt]> (a_ring a) →
  contents a' = contents a ++ [rtt].
Proof.
  intros (Hp & Hr & Hh & Hn & _) Hlt Ep Eh En Er. destruct Hp as ((Hw1 & Hw2) & _).
  unfold contents. rewrite En, seqZ_snoc, map_app by lia. f_equal.
  - apply map_seqZ_ext. intros i Hi. unfold ring_at. rewrite Ep, Eh, Er.
    rewrite !rem_mod_pos by lia.
    rewrite nth_insert_Z; [|rewrite Hr; unfold MaxAggWindow in *;
      pose proof (Z.mod_pos_bound (a_head a + a_n a) (Window (a_p a))); lia|
      apply Z.mod_pos_bound; lia].
    destruct (Z.eqb_spec ((a_head a + a_n a) mod Window (a_p a)) ((a_head a + i) mod Window (a_p a)))
      as [He|]; [|done].
    exfalso. by apply (ring_cells_differ (a_head a) (a_n a) i (Window (a_p a))) in He; lia.
  - cbn [map]. f_equal. unfold ring_at. rewrite Ep, Eh, Er. rewrite !rem_mod_pos by lia.
    rewrite nth_insert_Z; [|rewrite Hr; unfold MaxAggWindow in *;
      pose proof (Z.mod_pos_bound (a_head a + a_n a) (Window (a_p a))); lia|
      apply Z.mod_pos_bound; lia].
    by rewrite Z.add_0_l, Z.eqb_refl.
Qed.

(** At capacity the new sample replaces the oldest. *)
Lemma contents_push_full a a' rtt :
  agg_inv a → a_n a = Window (a_p a) → a_p a' = a_p a →
  a_head a' = rem (a_head a + 1) (Window (a_p a)) → a_n a' = a_n a →
  a_ring a' = <[Z.to_nat (a_head a) := rtt]> (a_ring a) →
  contents a' = drop 1 (contents a) ++ [rtt].
Proof.
  intros (Hp & Hr & Hh & Hn & _) Hfull Ep Eh En Er. destruct Hp as ((Hw1 & Hw2) & _).
  set (w := Window (a_p a)) in *.
  assert (∀ i, 0 ≤ i < w → ring_at a' i = if i =? w - 1 then rtt else ring_at a (i + 1)) as Hat.
  { intros i Hi. unfold ring_at. rewrite Ep, Eh, Er. fold w.
    pose proof (Z.mod_pos_bound (a_head a + 1) w ltac:(lia)).
    rewrite (rem_mod_pos (a_head a + 1)), !rem_mod_pos by lia.
    rewrite nth_insert_Z; [|rewrite Hr; unfold MaxAggWindow in *; lia|apply Z.mod_pos_bound; lia].
    rewrite Zplus_mod_idemp_l. replace (a_head a + 1 + i) with (a_head a + (i + 1)) by lia.
    destruct (Z.eqb_spec i (w - 1)) as [->|Hne].
    - replace (a_head a + (w - 1 + 1)) with (a_head a + 1 * w) by lia.
      rewrite Z.mod_add, Z.mod_small, Z.eqb_refl by lia. done.
    - destruct (Z.eqb_spec (a_head a) ((a_head a + (i + 1)) mod w)) as [He|]; [|done].
      exfalso. rewrite <- (Z.mod_small (a_head a) w) in He at 1 by lia.
      rewrite <- (Z.add_0_r (a_head a)) in He at 1.
      by apply (ring_cells_differ (a_head a) 0 (i + 1) w) in He; lia. }
  unfold contents. rewrite En, Hfull. fold w.
  replace w with (w - 1 + 1) at 1 by lia. rewrite seqZ_snoc, map_app by lia. f_equal.
  - replace w with (1 + (w - 1)) at 2 by lia. rewrite seqZ_app, map_app by lia.
    cbn [map seqZ]. change (map (ring_at a) (seqZ 0 1)) with [ring_at a 0]. cbn [drop app].
    change (0 + 1) with 1. rewrite <- (fmap_add_seqZ 1 0).
    etrans; [apply map_seqZ_ext|].
    + intros i Hi. rewrite Hat by lia. destruct (Z.eqb_spec i (w - 1)); [lia|]. reflexivity.
    + change (map (λ i, ring_at a (i + 1)) (seqZ 0 (w - 1)) =
        map (ring_at a) (map (Z.add 1) (seqZ 0 (w - 1)))).
      rewrite map_map. apply map_ext. intros i. f_equal. lia.
  - cbn [map]. rewrite Hat by lia. rewrite Z.add_0_l, Z.eqb_refl. done.
Qed.

(** *** Reference definitions on lists *)

Definition mean_of (l : list Duration) : float64 :=
  fdiv (fold_left (λ b x, fadd b (f64 x)) l (f64 0)) (f64 (len l)).

(** The sample standard deviation, at least SigmaFloor. *)
Definition sigma_of (p : AggParams) (l : list Duration) : float64 :=
  let ss := fold_left (λ b x, let d := fsub (f64 x) (mean_of l) in fadd b (fmul d d)) l (f64 0) in
  let sigma := if 1 <? len l then fsqrt (fdiv ss (f64 (len l - 1))) else f64 0 in
  if flt sigma (f64 (SigmaFloor p)) then f64 (SigmaFloor p) else sigma.

(** The newest samples all deviate in one direction by more than SigmaK·σ of
    the earlier ones. *)
Definition deviates (p : AggParams) (earlier newest : list Duration) : bool :=
  let thr := fmul (SigmaK p) (sigma_of p earlier) in
  forallb (λ x, flt thr (fsub (f64 x) (mean_of earlier))) newest ||
  forallb (λ x, flt (fsub (f64 x) (mean_of earlier)) (SFopp thr)) newest.

Definition shift_at (p : AggParams) (l : list Duration) : option nat :=
  let e := len l - ShiftRun p in
  if (e <=? 0) || (e <? MinEarlier p) then None
  else if deviates p (take (Z.to_nat e) l) (drop (Z.to_nat e) l) then Some (Z.to_nat e) else None.

(** Add of an unloaded sample: the oldest sample leaves a full window, then a
    level shift discards the samples before the newest ShiftRun. *)
Definition agg_push (p : AggParams) (l : list Duration) (rtt : Duration) : list Duration :=
  let l' := (if len l <? Window p then l else drop 1 l) ++ [rtt] in
  match shift_at p l' with Some e => drop e l' | None => l' end.

Lemma fold_samples_list {B} a (f : B → float64 → B) lo hi b :
  0 ≤ lo ≤ hi → hi ≤ a_n a →
  fold_samples a f lo hi b =
    fold_left (λ b x, f b (f64 x)) (take (Z.to_nat (hi - lo)) (drop (Z.to_nat lo) (contents a))) b.
Proof.
  intros Hl Hh. unfold fold_samples, contents.
  assert (seqZ 0 (a_n a) = seqZ 0 lo ++ seqZ lo (hi - lo) ++ seqZ hi (a_n a - hi)) as ->.
  { replace (a_n a) with (lo + ((hi - lo) + (a_n a - hi))) at 1 by lia.
    rewrite !seqZ_app by lia. f_equal. f_equal; f_equal; lia. }
  rewrite !map_app, drop_app_length', take_app_length' by (rewrite length_map, length_seqZ; lia).
  generalize b. induction (seqZ lo (hi - lo)) as [|i r IH]; intros b'; [done|].
  cbn [map fold_left]. apply IH.
Qed.

Lemma fold_up_down (p q : float64 → bool) (l : list Duration) u d :
  fold_left (λ b x, (λ '(up, down) x, (up && p x, down && q x)) b (f64 x)) l (u, d) =
  (u && forallb (λ x, p (f64 x)) l, d && forallb (λ x, q (f64 x)) l).
Proof.
  revert u d. induction l as [|x l IH]; intros u d; cbn [fold_left forallb].
  - by rewrite !andb_true_r.
  - rewrite IH. by rewrite !andb_assoc.
Qed.

Lemma shifted_list a e : 0 < e ≤ a_n a →
  shifted a e = deviates (a_p a) (take (Z.to_nat e) (contents a)) (drop (Z.to_nat e) (contents a)).
Proof.
  intros He. pose proof (len_contents a ltac:(lia)) as Hl. unfold shifted.
  rewrite !fold_samples_list by lia. rewrite Z.sub_0_r. change (drop (Z.to_nat 0) ?l) with l.
  rewrite (take_ge (drop (Z.to_nat e) (contents a)))
    by (rewrite length_drop; unfold len in Hl; lia).
  assert (len (take (Z.to_nat e) (contents a)) = e) as Hle by (rewrite len_take; lia).
  unfold deviates, sigma_of, mean_of. rewrite Hle. cbv zeta.
  set (mean := fdiv (fold_left (λ b x, fadd b (f64 x)) (take (Z.to_nat e) (contents a)) (f64 0)) (f64 e)). set (sg := if flt _ _ then _ else _).
  pose proof (fold_up_down (λ x, flt (fmul (SigmaK (a_p a)) sg) (fsub x mean))
    (λ x, flt (fsub x mean) (SFopp (fmul (SigmaK (a_p a)) sg)))
    (drop (Z.to_nat e) (contents a)) true true) as Hf.
  cbn [andb] in Hf.
  match goal with |- (let '(_, _) := ?t in _) = _ =>
    assert (t = (forallb (λ x, flt (fmul (SigmaK (a_p a)) sg) (fsub (f64 x) mean))
       (drop (Z.to_nat e) (contents a)),
     forallb (λ x, flt (fsub (f64 x) mean) (SFopp (fmul (SigmaK (a_p a)) sg)))
       (drop (Z.to_nat e) (contents a)))) as -> end; [|done].
  etrans; [|exact Hf]. reflexivity.
Qed.

Lemma contents_shift a a' e :
  agg_inv a → 0 ≤ e ≤ a_n a → a_p a' = a_p a → a_ring a' = a_ring a →
  a_head a' = rem (a_head a + e) (Window (a_p a)) → a_n a' = a_n a - e →
  contents a' = drop (Z.to_nat e) (contents a).
Proof.
  intros (Hp & Hr & Hh & Hn & _) He Ep Er Eh En. destruct Hp as ((Hw1 & Hw2) & _).
  unfold contents. rewrite En.
  replace (seqZ 0 (a_n a)) with (seqZ 0 e ++ seqZ e (a_n a - e))
    by (replace (a_n a) with (e + (a_n a - e)) at 2 by lia; rewrite seqZ_app by lia;
        f_equal; f_equal; lia).
  rewrite map_app, drop_app_length' by (rewrite length_map, length_seqZ; lia).
  replace (seqZ e (a_n a - e)) with (map (Z.add e) (seqZ 0 (a_n a - e)))
    by (etrans; [apply (fmap_add_seqZ e 0)|]; f_equal; lia).
  rewrite map_map. apply map_seqZ_ext. intros i Hi. unfold ring_at. rewrite Ep, Er, Eh.
  set (w := Window (a_p a)) in *. pose proof (Z.mod_pos_bound (a_head a + e) w ltac:(lia)).
  rewrite (rem_mod_pos (a_head a + e)), !rem_mod_pos by lia.
  rewrite Zplus_mod_idemp_l. do 3 f_equal. lia.
Qed.

(** levelShift applies the reference rule to the window. *)
Lemma levelShift_contents a : agg_inv a →
  contents (levelShift a) =
    match shift_at (a_p a) (contents a) with
    | Some e => drop e (contents a) | None => contents a end.
Proof.
  intros Ha. pose proof Ha as (Hp & _ & Hh & Hn & _). destruct Hp as (Hw & Hme & Hrun).
  unfold levelShift, shift_at. rewrite len_contents by lia. cbv zeta.
  set (e := a_n a - ShiftRun (a_p a)).
  destruct (Z.leb_spec e 0), (Z.ltb_spec e (MinEarlier (a_p a))); try done. cbn [orb].
  rewrite shifted_list by lia. case_match; [|done].
  apply (contents_shift a); cbn; try done; lia.
Qed.

Lemma levelShift_inv a : agg_inv a → agg_inv (levelShift a).
Proof.
  intros Ha. pose proof (levelShift_contents a Ha) as Hc.
  destruct Ha as (Hp & Hr & Hh & Hn & Hpos & Hat & Hl & Hs & H0).
  destruct Hp as (Hw & Hme & Hrun).
  unfold levelShift in *. cbv zeta in *. set (e := a_n a - ShiftRun (a_p a)) in *.
  destruct (Z.leb_spec e 0), (Z.ltb_spec e (MinEarlier (a_p a))); cbn [orb] in *; try done.
  destruct (shifted a e); [|done].
  pose proof (Z.mod_pos_bound (a_head a + e) (Window (a_p a)) ltac:(lia)).
  rewrite rem_mod_pos in Hc |- * by lia.
  split_and!; cbn [a_p a_ring a_head a_n a_seen a_last a_at a_loadedAt]; try done; try lia.
  - rewrite Hc. case_match; [by apply Forall_drop|done].
  - intros Hf. specialize (Hs Hf). lia.
Qed.

Lemma levelShift_p a : a_p (levelShift a) = a_p a.
Proof. unfold levelShift. by repeat case_match. Qed.
Lemma levelShift_last a : a_last (levelShift a) = a_last a.
Proof. unfold levelShift. by repeat case_match. Qed.
Lemma levelShift_seen a : a_seen (levelShift a) = a_seen a.
Proof. unfold levelShift. by repeat case_match. Qed.
Lemma levelShift_at a : a_at (levelShift a) = a_at a.
Proof. unfold levelShift. by repeat case_match. Qed.
Lemma levelShift_loadedAt a : a_loadedAt (levelShift a) = a_loadedAt a.
Proof. unfold levelShift. by repeat case_match. Qed.

(** Add: a rejected sample changes nothing but default parameters; a loaded
    one leaves the window alone; an unloaded one is pushed. *)
Lemma Agg_Add_spec a t rtt loaded a' ok :
  agg_inv a → Agg_Add a t rtt loaded = (a', ok) →
  agg_inv a' ∧ a_p a' = a_p a ∧
  ok = negb (IsZero t || (rtt <=? 0) || Before t (a_last a)) ∧
  contents a' = (if ok && negb loaded then agg_push (a_p a) (contents a) rtt else contents a) ∧
  (if ok then a_last a' = t ∧ a_seen a' = true ∧
     if loaded then a_loadedAt a' = t ∧ a_at a' = a_at a
     else a_at a' = t ∧ a_loadedAt a' = a_loadedAt a
   else a' = a).
Proof.
  intros Ha Hadd. pose proof Ha as (Hp & Hr & Hh & Hn & Hpos & Hat & Hl & Hs & H0).
  pose proof Hp as (Hw & Hme & Hrun). unfold Agg_Add in Hadd.
  destruct (Z.leb_spec (Window (a_p a)) 0); [lia|]. cbn [a_last a_ring a_head a_n] in Hadd.
  destruct (IsZero t || (rtt <=? 0) || Before t (a_last a)) eqn:Hrej.
  { injection Hadd as <- <-. destruct a. by split_and!. }
  apply orb_false_iff in Hrej as [Hrej Hb]. apply orb_false_iff in Hrej as [Hz Hrtt].
  unfold IsZero, Before in *. apply Z.eqb_neq in Hz. apply Z.leb_gt in Hrtt. apply Z.ltb_ge in Hb.
  destruct loaded.
  { injection Hadd as <- <-. split; [|by split_and!].
    unfold agg_inv. cbn [a_p a_ring a_head a_n a_seen a_last a_at a_loadedAt].
    split_and!; try done; try lia. }
  set (a1 := if a_n a <? Window (a_p a)
    then mkAggregator (a_p a) (<[Z.to_nat (rem (a_head a + a_n a) (Window (a_p a))) := rtt]> (a_ring a))
      (a_head a) (a_n a + 1) true t t (a_loadedAt a) (u64 (a_unloaded a + 1)) (a_loaded a) (a_shifts a)
    else mkAggregator (a_p a) (<[Z.to_nat (a_head a) := rtt]> (a_ring a))
      (rem (a_head a + 1) (Window (a_p a))) (a_n a) true t t (a_loadedAt a) (u64 (a_unloaded a + 1))
      (a_loaded a) (a_shifts a)).
  assert (a' = levelShift a1 ∧ ok = true) as [-> ->].
  { unfold a1. destruct (a_n a <? Window (a_p a)); by injection Hadd as <- <-. }
  assert (contents a1 = (if len (contents a) <? Window (a_p a) then contents a
    else drop 1 (contents a)) ++ [rtt]) as Hc1.
  { rewrite len_contents by lia. unfold a1. destruct (Z.ltb_spec (a_n a) (Window (a_p a))).
    - by apply contents_push_free.
    - apply contents_push_full; try done. lia. }
  assert (a_p a1 = a_p a) as Hp1 by (unfold a1; by destruct (a_n a <? Window (a_p a))).
  assert (agg_inv a1) as Ha1.
  { pose proof (Z.mod_pos_bound (a_head a + 1) (Window (a_p a)) ltac:(lia)).
    split; [by rewrite Hp1|]. rewrite Hp1, Hc1.
    unfold a1; destruct (Z.ltb_spec (a_n a) (Window (a_p a)));
      cbn [a_p a_ring a_head a_n a_seen a_last a_at a_loadedAt];
      rewrite ?rem_mod_pos by lia; unfold len in *; rewrite ?length_insert;
      split_and!; try done; try lia;
      apply Forall_app_2; try (by repeat constructor); case_match; try done; by apply Forall_drop. }
  pose proof (levelShift_contents a1 Ha1) as Hc. rewrite Hp1, Hc1 in Hc.
  split_and!; [by apply levelShift_inv|..].
  - by rewrite levelShift_p.
  - done.
  - exact Hc.
  - rewrite levelShift_last. unfold a1. by destruct (a_n a <? Window (a_p a)).
  - rewrite levelShift_seen. unfold a1. by destruct (a_n a <? Window (a_p a)).
  - rewrite levelShift_at. unfold a1. by destruct (a_n a <? Window (a_p a)).
  - rewrite levelShift_loadedAt. unfold a1. by destruct (a_n a <? Window (a_p a)).
Qed.

Lemma NewAggregator_inv p : agg_inv (NewAggregator p) ∧ contents (NewAggregator p) = [].
Proof.
  split; [|done]. split; [apply normalized_ok|]. pose proof (normalized_ok p) as (Hw & _).
  split_and!; try done; cbn [NewAggregator Agg_Reset a_p a_head a_n a_at a_last a_loadedAt a_seen]; lia.
Qed.

Lemma Agg_Reset_inv a : agg_inv a → agg_inv (Agg_Reset a) ∧ contents (Agg_Reset a) = [].
Proof.
  intros (Hp & Hr & Hh & _). split; [|done]. destruct Hp as (Hw & Hme & Hrun).
  split_and!; try done; cbn [NewAggregator Agg_Reset a_p a_head a_n a_at a_last a_loadedAt a_seen]; lia.
Qed.

(** The operations of an aggregator, in any order. *)
Inductive agg_op := OpAdd (t : Time) (rtt : Duration) (loaded : bool) | OpReset.

Definition agg_exec1 (a : Aggregator) (o : agg_op) : Aggregator :=
  match o with OpAdd t rtt l => (Agg_Add a t rtt l).1 | OpReset => Agg_Reset a end.
Definition agg_exec (a : Aggregator) (ops : list agg_op) : Aggregator := fold_left agg_exec1 ops a.

(** The same operations on the abstract window: the samples and the time of
    the newest accepted one. *)
Definition ref_exec1 (p : AggParams) (st : list Duration * Time) (o : agg_op) : list Duration * Time :=
  let '(l, last) := st in
  match o with
  | OpAdd t rtt loaded =>
      if (t =? 0) || (rtt <=? 0) || (t <? last) then (l, last)
      else (if loaded then l else agg_push p l rtt, t)
  | OpReset => ([], 0)
  end.

Lemma agg_exec1_ref p a o :
  agg_inv a → a_p a = p →
  agg_inv (agg_exec1 a o) ∧ a_p (agg_exec1 a o) = p ∧
  (contents (agg_exec1 a o), a_last (agg_exec1 a o)) = ref_exec1 p (contents a, a_last a) o.
Proof.
  intros Ha <-. destruct o as [t rtt loaded|]; cbn [agg_exec1 ref_exec1].
  - destruct (Agg_Add a t rtt loaded) as [a' ok] eqn:Hadd.
    destruct (Agg_Add_spec a t rtt loaded a' ok Ha Hadd) as (Hinv & Hp & Hok & Hc & Hrest).
    cbn [fst]. split_and!; [done|done|]. unfold IsZero, Before in Hok.
    destruct ((t =? 0) || (rtt <=? 0) || (t <? a_last a)); subst ok; cbn [negb andb] in *.
    + by rewrite Hc, Hrest.
    + destruct Hrest as (-> & _). rewrite Hc. by destruct loaded.
  - destruct (Agg_Reset_inv a Ha) as [Hi Hc]. by rewrite Hc.
Qed.

Lemma NextChange_exact s now fresh :
  summary_times s → 0 ≤ fresh < MaxInt64 →
  let r := NextChange s now fresh in
  let cur := Classify s now fresh in
  (r = 0 ∧ ∀ z, now ≤ z → Classify s z fresh = cur) ∨
  (now < r ∧ Classify s r fresh ≠ cur ∧ ∀ z, now ≤ z < r → Classify s z fresh = cur).
Proof.
  intros [HA HL] Hf. unfold NextChange.
  destruct (Seen s) eqn:Hs; cbn [negb].
  - apply (first_change_spec s now fresh _ (breakpoints s fresh) now); try done.
    + apply breakpoints_sorted.
    + intros z Hz. by replace z with now by lia.
    + intros t Ht. unfold breakpoints, valued, IsZero, Add, Before in Ht.
      destruct (Z.eqb_spec (At s) 0), (Z.eqb_spec (LoadedAt s) 0),
        (0 <? N s), (0 <? Mean s); cbn in Ht; repeat case_match; set_solver by lia.
  - left. split; [done|]. intros z Hz. unfold Classify. by rewrite Hs.
Qed.

Lemma NextChange_nonneg s now fresh : summary_times s → 0 ≤ fresh → 0 ≤ NextChange s now fresh.
Proof.
  intros [HA HL] Hf. unfold NextChange. case_match; [done|].
  assert (∀ t, t ∈ breakpoints s fresh → 0 ≤ t) as Hb.
  { intros t Ht. unfold breakpoints, IsZero, Add, Before in Ht. repeat case_match; set_solver by lia. }
  induction (breakpoints s fresh) as [|t l IH]; cbn [first_change]; [done|].
  case_match; [apply Hb; set_solver|]. apply IH. set_solver.
Qed.

(** ** Properties *)

(** C22. NextChange is exact: it returns the first instant after now at which the
    evidence class changes by ageing alone — the class is constant up to it and
    different at it — and the zero time exactly when it never changes. *)
Theorem next_change_exact s now fresh :
  summary_times s → 0 ≤ fresh < MaxInt64 →
  let r := NextChange s now fresh in
  let cur := Classify s now fresh in
  (r = 0 ∧ ∀ z, now ≤ z → Classify s z fresh = cur) ∨
  (now < r ∧ Classify s r fresh ≠ cur ∧ ∀ z, now ≤ z < r → Classify s z fresh = cur).
Proof. intros Hs Hf. by apply NextChange_exact. Qed.

Lemma next_change_exact_witness :
  let s := mkSummary true 7 3 100 150 in
  NextChange s 120 1000 = 1101 ∧
  ∀ z, 120 ≤ z < 1101 → Classify s z 1000 = mkEvidence EvFresh 7.
Proof.
  split; [reflexivity|].
  destruct (next_change_exact (mkSummary true 7 3 100 150) 120 1000) as [[H _]|(_ & _ & H)].
  - split; vm_compute; discriminate.
  - split; vm_compute; [discriminate|reflexivity].
  - discriminate H.
  - exact H.
Defined.



(** C24. The aggregator's ring implements the abstract window: after any sequence
    of Add and Reset from NewAggregator, the invariant holds and the window's
    samples are exactly those of the reference that keeps the newest Window
    samples of a list and cuts it at a level shift. *)
Theorem aggregator_refines p ops :
  let a := agg_exec (NewAggregator p) ops in
  agg_inv a ∧ len (contents a) ≤ Window (normalized p) ∧
  (contents a, a_last a) = fold_left (ref_exec1 (normalized p)) ops ([], 0).
Proof.
  assert (∀ a st, agg_inv a → a_p a = normalized p → (contents a, a_last a) = st →
    agg_inv (agg_exec a ops) ∧ a_p (agg_exec a ops) = normalized p ∧
    (contents (agg_exec a ops), a_last (agg_exec a ops)) =
      fold_left (ref_exec1 (normalized p)) ops st) as Hgen.
  { induction ops as [|o ops IH]; intros a st Ha Hp Hst; [done|]. cbn [agg_exec fold_left].
    destruct (agg_exec1_ref (normalized p) a o Ha Hp) as (Hi & Hp' & He).
    apply IH; [done|done|]. by rewrite He, Hst. }
  destruct (NewAggregator_inv p) as [Hi Hc].
  destruct (Hgen (NewAggregator p) ([], 0) Hi eq_refl ltac:(by rewrite Hc)) as (Ha & Hp & He).
  split_and!; [done| |done]. pose proof Ha as (_ & _ & _ & Hn & _).
  rewrite len_contents by lia. rewrite <- Hp. lia.
Qed.
