(* ===== verification/SchedRank.v ===== *)
(** Ranking of factories and lanes, and fate groups.

    Models internal/sched/rank.go, group.go and SRTTOrder of formula.go.  Rank
    and SRTTOrder are the same in-place insertion sort of positions; it is
    proved to produce the one sorted permutation. *)

From Stdlib Require Import ZArith Lia Permutation.
From stdpp Require Import base numbers list sets sorting gmap.
From S2P Require Import Prelude GoTime SchedEvidence WireWindow.

Open Scope Z_scope.

Record Candidate := mkCandidate { Index : Z; Ev : Evidence; Failed : bool; Class : Z }.

Definition measured (c : Candidate) : bool :=
  (bool_decide (State (Ev c) = EvFresh) || bool_decide (State (Ev c) = EvHeld)) && (0 <? RTT (Ev c)).

Definition Less (x y : Candidate) : bool :=
  if negb (Bool.eqb (Failed x) (Failed y)) then Failed y
  else if negb (Class x =? Class y) then Class x <? Class y
  else if negb (Failed x) && negb (Bool.eqb (measured x) (measured y)) then measured x
  else if negb (Failed x) && measured x && negb (RTT (Ev x) =? RTT (Ev y)) then RTT (Ev x) <? RTT (Ev y)
  else Index x <? Index y.

(** ** The insertion sort of positions *)
Section Sort.
Context (less : nat → nat → bool).

(** The inner loop: shift greater entries up from [out[j]], then store [p]. *)
Fixpoint sift (out : list nat) (p j : nat) : list nat :=
  match j with
  | O => <[O := p]> out
  | S j' =>
      if less p (nth j' out O) then sift (<[j := nth j' out O]> out) p j'
      else <[j := p]> out
  end.

Definition sort_positions (n : nat) : list nat :=
  fold_left (λ out i, sift out (nth i out O) i) (seq 1 (n - 1)) (seq 0 n).
End Sort.

Definition nilCandidate : Candidate := mkCandidate 0 (mkEvidence EvUnknown 0) false 0.
Definition cand (cs : list Candidate) (i : nat) : Candidate := nth i cs nilCandidate.

Definition Rank (cs : list Candidate) : list Z :=
  map (λ p, Index (cand cs p)) (sort_positions (λ a b, Less (cand cs a) (cand cs b)) (length cs)).

Definition srttLess (srtt : list Duration) (a b : nat) : bool :=
  let ka := 0 <? nth a srtt 0 in
  let kb := 0 <? nth b srtt 0 in
  if negb (Bool.eqb ka kb) then ka
  else if ka && negb (nth a srtt 0 =? nth b srtt 0) then nth a srtt 0 <? nth b srtt 0
  else Nat.ltb a b.

Definition SRTTOrder (srtt : list Duration) : list nat :=
  sort_positions (srttLess srtt) (length srtt).

(** ** Fate groups *)
Definition GroupFirst (order : list Z) (group : Z → Z) (failed : Z) : list Z :=
  if failed =? 0 then order
  else
    let healthy := fold_left (λ out f, if negb (group f =? failed) then out ++ [f] else out) order [] in
    fold_left (λ out f, if group f =? failed then out ++ [f] else out) order healthy.

(** The loop of OnePerGroup; [taken] is [[4]uint64], a group is a uint8. *)
Fixpoint one_per_group (group : Z → Z) (max : Z) (taken : list Z) (out order : list Z) : list Z :=
  match order with
  | [] => out
  | f :: r =>
      if max <=? len out then out
      else
        let g := group f in
        if negb (g =? 0) then
          let j := Z.to_nat (Z.shiftr g 6) in
          let m := u64 (Z.shiftl 1 (Z.land g 63)) in
          if negb (Z.land (nth j taken 0) m =? 0) then one_per_group group max taken out r
          else one_per_group group max (<[j := Z.lor (nth j taken 0) m]> taken) (out ++ [f]) r
        else one_per_group group max taken (out ++ [f]) r
  end.

Definition OnePerGroup (order : list Z) (group : Z → Z) (max : Z) : list Z :=
  one_per_group group max (replicate 4 0) [] order.

(** ** Correctness of the insertion sort *)

(** The order a strict comparison sorts by. *)
Definition not_after {A} (lt : A → A → bool) (x y : A) : Prop := lt y x = false.

Record strict_total {A} (lt : A → A → bool) (P : A → Prop) : Prop := {
  st_irrefl x : P x → lt x x = false;
  st_trans x y z : P x → P y → P z → lt x y = true → lt y z = true → lt x z = true;
  st_total x y : P x → P y → x ≠ y → lt x y = true ∨ lt y x = true
}.

Section SortSpec.
Context (less : nat → nat → bool) (n : nat).
Context (Hst : strict_total less (λ i, (i < n)%nat)).

Abbreviation below l := (Forall (λ i, (i < n)%nat) l).

Lemma not_after_trans x y z :
  (x < n)%nat → (y < n)%nat → (z < n)%nat →
  not_after less x y → not_after less y z → not_after less x z.
Proof.
  intros Hx Hy Hz H1 H2. unfold not_after in *.
  destruct (less z x) eqn:E; [|done]. exfalso.
  destruct (decide (x = y)) as [->|Hne]; [congruence|].
  destruct (st_total _ _ Hst x y Hx Hy Hne) as [H|H]; [|congruence].
  rewrite (st_trans _ _ Hst z x y) in H2 by done. done.
Qed.

(** What the inner loop does to the sorted prefix. *)
Fixpoint insert_back (p : nat) (rpre : list nat) : list nat :=
  match rpre with
  | [] => [p]
  | y :: r => if less p y then y :: insert_back p r else p :: y :: r
  end.

Lemma sift_spec pre p hole suf :
  sift less (pre ++ hole :: suf) p (length pre) = rev (insert_back p (rev pre)) ++ suf.
Proof.
  revert hole suf. induction pre as [|y pre IH] using rev_ind; intros hole suf; [done|].
  rewrite length_app. cbn [length]. replace (length pre + 1)%nat with (S (length pre)) by lia.
  cbn [sift]. rewrite <- !app_assoc. cbn [app].
  assert (nth (length pre) (pre ++ y :: hole :: suf) 0%nat = y) as ->.
  { rewrite app_nth2, Nat.sub_diag by lia. done. }
  assert (∀ v, <[S (length pre) := v]> (pre ++ y :: hole :: suf) = pre ++ y :: v :: suf) as Hins.
  { intros v. replace (S (length pre)) with (length pre + 1)%nat by lia.
    by rewrite insert_app_r. }
  rewrite !Hins, rev_app_distr. cbn [rev app insert_back].
  destruct (less p y); cbn [rev].
  - rewrite IH. by rewrite <- app_assoc.
  - rewrite <- !app_assoc. cbn [app]. by rewrite rev_involutive.
Qed.

Lemma insert_back_perm p l : insert_back p l ≡ₚ p :: l.
Proof.
  induction l as [|y l IH]; cbn [insert_back]; [done|]. case_match; [|done].
  rewrite IH. constructor.
Qed.

(** A reversed sorted list: every entry is not before those behind it. *)
Lemma insert_back_sorted p l :
  (p < n)%nat → below l → StronglySorted (flip (not_after less)) l →
  StronglySorted (flip (not_after less)) (insert_back p l).
Proof.
  intros Hp Hb Hs. induction Hs as [|y l Hs IH Hall]; cbn [insert_back].
  { repeat constructor. }
  apply Forall_cons in Hb as [Hy Hb]. destruct (less p y) eqn:E.
  - constructor; [by apply IH|]. rewrite insert_back_perm. constructor; [|done].
    unfold flip, not_after. destruct (less y p) eqn:E2; [|done].
    rewrite <- (st_irrefl _ _ Hst p Hp). symmetry. by apply (st_trans _ _ Hst p y p).
  - constructor; [by constructor|]. constructor; [done|].
    rewrite Forall_forall in *. intros z Hz. unfold flip in *.
    apply (not_after_trans z y p); auto.
Qed.

Definition sort_inv (i : nat) (out : list nat) : Prop :=
  out ≡ₚ seq 0 n ∧ StronglySorted (flip (not_after less)) (rev (take i out)).

Lemma seq_below l : l ≡ₚ seq 0 n → below l.
Proof. intros ->. apply Forall_forall. intros i Hi. apply elem_of_seq in Hi. lia. Qed.

Lemma sort_step i out :
  (i < n)%nat → sort_inv i out → sort_inv (S i) (sift less out (nth i out O) i).
Proof.
  intros Hi [Hp Hs]. pose proof (seq_below out Hp) as Hb.
  assert (length out = n) as Hl by (by rewrite Hp, length_seq).
  destruct (lookup_lt_is_Some_2 out i ltac:(lia)) as [x Hx].
  pose proof (take_drop_middle out i x Hx) as Hout.
  assert (nth i out O = x) as -> by (by apply nth_lookup_Some).
  set (pre := take i out) in *. set (suf := drop (S i) out) in *.
  assert (length pre = i) as Hlp by (unfold pre; rewrite length_take; lia).
  rewrite <- Hout, <- Hlp, sift_spec.
  assert (length (insert_back x (rev pre)) = S (length pre)) as Hli.
  { by rewrite insert_back_perm, <- (length_rev pre). }
  split.
  - rewrite <- Hp, <- Hout, <- !Permutation_rev, insert_back_perm, <- Permutation_rev.
    rewrite <- Permutation_middle. done.
  - rewrite take_app_length' by (by rewrite length_rev). rewrite rev_involutive.
    apply insert_back_sorted; [|rewrite <- Permutation_rev; by apply Forall_take|done].
    by eapply Forall_lookup_1 in Hb.
Qed.

Lemma sort_positions_inv : sort_inv n (sort_positions less n).
Proof.
  unfold sort_positions.
  assert (∀ k, (k < n)%nat → sort_inv (S k)
    (fold_left (λ out i, sift less out (nth i out O) i) (seq 1 k) (seq 0 n))) as Hk.
  { induction k as [|k IH]; intros Hk.
    - cbn [seq fold_left]. split; [done|]. destruct (seq 0 n); repeat constructor.
    - rewrite seq_S, fold_left_app. cbn [fold_left]. apply sort_step; [lia|]. apply IH. lia. }
  destruct (Nat.eq_dec n O) as [E|E].
  - rewrite E. split; [by rewrite E|constructor].
  - specialize (Hk (n - 1)%nat ltac:(lia)). by replace (S (n - 1)) with n in Hk by lia.
Qed.

(** The sort returns the sorted permutation of the positions. *)
Lemma sort_positions_sorted :
  sort_positions less n ≡ₚ seq 0 n ∧ StronglySorted (not_after less) (sort_positions less n).
Proof.
  destruct sort_positions_inv as [Hp Hs]. split; [done|].
  assert (length (sort_positions less n) = n) as Hl by (by rewrite Hp, length_seq).
  rewrite take_ge in Hs by lia. revert Hs. generalize (sort_positions less n). clear.
  intros l. rewrite <- (rev_involutive l) at 2. generalize (rev l). clear l. intros l Hs.
  induction Hs as [|y l Hs IH Hall]; cbn [rev]; [constructor|].
  apply StronglySorted_app_2; [|done|repeat constructor].
  intros a b Ha Hb. apply list_elem_of_singleton in Hb as ->.
  rewrite Forall_forall in Hall. apply Hall. by rewrite <- Permutation_rev in Ha.
Qed.
End SortSpec.

Lemma StronglySorted_map {A B} (R : relation A) (S : relation B) (f : A → B) l :
  (∀ x y, R x y → S (f x) (f y)) → StronglySorted R l → StronglySorted S (map f l).
Proof.
  intros HRS Hs. induction Hs as [|x l Hs IH Hall]; cbn [map]; constructor; [done|].
  apply Forall_map. eapply Forall_impl; [exact Hall|]. auto.
Qed.

(** ** The ranking order *)

Lemma Less_irrefl x : Less x x = false.
Proof.
  unfold Less. rewrite !Bool.eqb_reflx, !Z.eqb_refl. cbn [negb].
  by rewrite !andb_false_r, Z.ltb_irrefl.
Qed.

Lemma Less_trans x y z : Less x y = true → Less y z = true → Less x z = true.
Proof.
  unfold Less. generalize (measured x), (measured y), (measured z). intros mx my mz.
  destruct (Failed x), (Failed y), (Failed z); cbn; try done;
  destruct (Z.eqb_spec (Class x) (Class y)), (Z.eqb_spec (Class y) (Class z)),
    (Z.eqb_spec (Class x) (Class z)); cbn; try lia;
  destruct mx, my, mz; cbn; try done; try lia;
  destruct (Z.eqb_spec (RTT (Ev x)) (RTT (Ev y))), (Z.eqb_spec (RTT (Ev y)) (RTT (Ev z))),
    (Z.eqb_spec (RTT (Ev x)) (RTT (Ev z))); cbn; lia.
Qed.

Lemma Less_total x y : Index x ≠ Index y → Less x y = true ∨ Less y x = true.
Proof.
  intros Hi. unfold Less. generalize (measured x), (measured y). intros mx my.
  rewrite (Z.eqb_sym (Class y)), (Z.eqb_sym (RTT (Ev y))).
  destruct (Failed x), (Failed y); cbn; auto;
  destruct (Z.eqb_spec (Class x) (Class y)); cbn; try lia;
  destruct mx, my; cbn; auto; try lia;
  destruct (Z.eqb_spec (RTT (Ev x)) (RTT (Ev y))); cbn; lia.
Qed.

Lemma cand_lookup cs i c : cs !! i = Some c → cand cs i = c.
Proof. intros H. unfold cand. by apply nth_lookup_Some. Qed.

Lemma Less_positions cs :
  NoDup (map Index cs) →
  strict_total (λ a b, Less (cand cs a) (cand cs b)) (λ i, (i < length cs)%nat).
Proof.
  intros Hnd. split.
  - intros x _. apply Less_irrefl.
  - intros x y z _ _ _. apply Less_trans.
  - intros x y Hx Hy Hne. apply Less_total. intros He. apply Hne.
    destruct (lookup_lt_is_Some_2 cs x Hx) as [cx Hcx], (lookup_lt_is_Some_2 cs y Hy) as [cy Hcy].
    rewrite (cand_lookup _ _ _ Hcx), (cand_lookup _ _ _ Hcy) in He.
    eapply (NoDup_lookup (map Index cs)); [done| |]; rewrite list_lookup_fmap;
      rewrite ?Hcx, ?Hcy; cbn; [done|by rewrite He].
Qed.

Lemma map_cand_seq cs : map (cand cs) (seq 0 (length cs)) = cs.
Proof.
  apply list_eq. intros i. rewrite list_lookup_fmap. destruct (decide (i < length cs)%nat) as [Hi|Hi].
  - rewrite lookup_seq_lt by done. cbn. destruct (lookup_lt_is_Some_2 cs i Hi) as [c Hc].
    by rewrite Hc, (cand_lookup _ _ _ Hc).
  - rewrite lookup_seq_ge by lia. cbn. by rewrite lookup_ge_None_2 by lia.
Qed.

(** The candidates in ranked order. *)
Definition ranked (cs : list Candidate) : list Candidate :=
  map (cand cs) (sort_positions (λ a b, Less (cand cs a) (cand cs b)) (length cs)).

Lemma Rank_ranked cs : Rank cs = map Index (ranked cs).
Proof. unfold Rank, ranked. by rewrite map_map. Qed.

Lemma ranked_spec cs :
  NoDup (map Index cs) → ranked cs ≡ₚ cs ∧ StronglySorted (not_after Less) (ranked cs).
Proof.
  intros Hnd. destruct (sort_positions_sorted _ _ (Less_positions cs Hnd)) as [Hp Hs].
  unfold ranked. split.
  - rewrite Hp. by rewrite map_cand_seq.
  - eapply StronglySorted_map; [|exact Hs]. done.
Qed.

(** ** Properties *)



(** C26. Rank returns the Index values of the candidates in Less order: a
    permutation of the input, best first, and the same for every input order
    (Index is unique). *)
Theorem rank_sorted cs cs' :
  NoDup (map Index cs) → cs ≡ₚ cs' →
  Rank cs ≡ₚ map Index cs ∧
  (∃ order, Rank cs = map Index order ∧ order ≡ₚ cs ∧ StronglySorted (not_after Less) order) ∧
  Rank cs' = Rank cs.
Proof.
  intros Hnd Hperm. destruct (ranked_spec cs Hnd) as [Hp Hs].
  assert (NoDup (map Index cs')) as Hnd' by (by rewrite <- Hperm).
  destruct (ranked_spec cs' Hnd') as [Hp' Hs']. rewrite !Rank_ranked. split_and!.
  - by rewrite Hp.
  - by exists (ranked cs).
  - f_equal. apply (StronglySorted_unique_strong (not_after Less)); [|done|done|].
    + intros x y Hx Hy Hxy Hyx. rewrite Hp' in Hx. rewrite Hp in Hy.
      rewrite <- Hperm in Hx. destruct (decide (Index x = Index y)) as [He|Hne].
      * apply list_elem_of_lookup in Hx as [i Hi], Hy as [j Hj].
        assert (i = j) as ->; [|congruence].
        eapply (NoDup_lookup (map Index cs)); [done| |]; rewrite list_lookup_fmap;
          rewrite ?Hi, ?Hj; cbn; [done|by rewrite He].
      * unfold not_after in *. destruct (Less_total x y Hne); congruence.
    + by rewrite Hp, Hp'.
Qed.

Lemma rank_sorted_witness :
  let cs := [mkCandidate 0 (mkEvidence EvStale 0) false 0; mkCandidate 1 (mkEvidence EvFresh 9) true 0;
             mkCandidate 2 (mkEvidence EvFresh 8) false 0; mkCandidate 3 (mkEvidence EvHeld 5) false 1] in
  Rank cs = [2; 0; 3; 1] ∧ Rank cs ≡ₚ map Index cs.
Proof.
  split; [vm_compute; reflexivity|].
  refine (proj1 (rank_sorted _ _ _ (Permutation_refl _))).
  apply NoDup_ListNoDup. repeat constructor; cbn; lia.
Defined.

Lemma srttLess_total srtt : strict_total (srttLess srtt) (λ i, (i < length srtt)%nat).
Proof.
  split; unfold srttLess.
  - intros x _. rewrite !Bool.eqb_reflx, !Z.eqb_refl. cbn [negb].
    rewrite !andb_false_r. apply Nat.ltb_irrefl.
  - intros x y z _ _ _.
    destruct (Z.ltb_spec 0 (nth x srtt 0)), (Z.ltb_spec 0 (nth y srtt 0)),
      (Z.ltb_spec 0 (nth z srtt 0)); cbn [negb andb Bool.eqb]; try done;
    destruct (Z.eqb_spec (nth x srtt 0) (nth y srtt 0)), (Z.eqb_spec (nth y srtt 0) (nth z srtt 0)),
      (Z.eqb_spec (nth x srtt 0) (nth z srtt 0)); cbn [negb andb Bool.eqb]; rewrite ?Nat.ltb_lt; lia.
  - intros x y _ _ Hne.
    destruct (Z.ltb_spec 0 (nth x srtt 0)), (Z.ltb_spec 0 (nth y srtt 0)); cbn [negb andb Bool.eqb]; auto;
    rewrite ?(Z.eqb_sym (nth y srtt 0)); destruct (Z.eqb_spec (nth x srtt 0) (nth y srtt 0)); cbn [negb andb Bool.eqb];
      rewrite ?Nat.ltb_lt; lia.
Qed.

(** SRTTOrder: the lanes in order of srtt, lanes without a sample last, ties
    by index; every lane appears once. *)
Theorem srtt_order_sorted srtt :
  SRTTOrder srtt ≡ₚ seq 0 (length srtt) ∧
  ∀ i j a b, SRTTOrder srtt !! i = Some a → SRTTOrder srtt !! j = Some b → (i < j)%nat →
    let ka := nth a srtt 0 in let kb := nth b srtt 0 in
    (0 < kb → 0 < ka ≤ kb) ∧ (ka = kb → (a < b)%nat).
Proof.
  destruct (sort_positions_sorted _ _ (srttLess_total srtt)) as [Hp Hs]. split; [done|].
  intros i j a b Ha Hb Hij ka kb.
  assert (a ≠ b) as Hne.
  { intros ->. assert (NoDup (SRTTOrder srtt)) as Hnd by (unfold SRTTOrder; rewrite Hp; apply NoDup_seq).
    pose proof (NoDup_lookup _ _ _ _ Hnd Ha Hb). lia. }
  assert (not_after (srttLess srtt) a b) as Hna.
  { unfold SRTTOrder in *. clear Hp. revert i j Ha Hb Hij. induction Hs as [|x l Hs IH Hall]; intros i j Ha Hb Hij.
    - by rewrite lookup_nil in Ha.
    - destruct j as [|j]; [lia|]. cbn in Hb. destruct i as [|i]; cbn in Ha.
      + injection Ha as ->. by eapply Forall_lookup_1 in Hall.
      + apply (IH i j); [done|done|lia]. }
  unfold not_after, srttLess in Hna. fold ka kb in Hna.
  destruct (Z.ltb_spec 0 kb), (Z.ltb_spec 0 ka); cbn [negb andb Bool.eqb] in Hna; try done;
    destruct (Z.eqb_spec kb ka); cbn [negb andb Bool.eqb] in Hna; rewrite ?Nat.ltb_ge, ?Z.ltb_ge in Hna; lia.
Qed.

(** ** Fate groups *)

Lemma fold_filter (P : Z → bool) order : ∀ out,
  fold_left (λ out f, if P f then out ++ [f] else out) order out = out ++ filter (λ f, P f = true) order.
Proof.
  induction order as [|f r IH]; intros out; cbn [fold_left]; [by rewrite app_nil_r|].
  rewrite IH, filter_cons. destruct (P f) eqn:E; case_decide; try congruence.
  by rewrite <- app_assoc.
Qed.


(** The bitmap of taken groups. *)
Lemma taken_word taken g : len taken = 4 → is_u8 g →
  Z.to_nat (Z.shiftr g 6) = ring_word taken g ∧ Z.land g 63 = g mod 64.
Proof.
  intros Hl Hg. unfold fits in Hg. unfold ring_word. rewrite Hl. split.
  - rewrite Z.shiftr_div_pow2 by lia. change (2 ^ 6) with 64. change (4 - 1) with (Z.ones 2).
    rewrite Z.land_ones by lia. rewrite Z.mod_small; [done|].
    split; [apply Z.div_pos; lia|apply Z.div_lt_upper_bound; lia].
  - change 63 with (Z.ones 6). by rewrite Z.land_ones by lia.
Qed.

(** The reference: the groups taken as a set. *)
Fixpoint opg_ref (group : Z → Z) (max : Z) (taken : gset Z) (out order : list Z) : list Z :=
  match order with
  | [] => out
  | f :: r =>
      if max <=? len out then out
      else if bool_decide (group f ≠ 0 ∧ group f ∈ taken) then opg_ref group max taken out r
      else opg_ref group max ({[group f]} ∪ taken) (out ++ [f]) r
  end.

Lemma one_per_group_ref group max order : ∀ bits taken out,
  (∀ f, is_u8 (group f)) → ring_ok bits → len bits = 4 →
  (∀ g, is_u8 g → g ≠ 0 → ring_bit bits g = bool_decide (g ∈ taken)) →
  one_per_group group max bits out order = opg_ref group max taken out order.
Proof.
  induction order as [|f r IH]; intros bits taken out Hg Hok Hl Hb; [done|].
  cbn [one_per_group opg_ref]. case_match; [done|]. specialize (Hg f) as Hf.
  destruct (Z.eqb_spec (group f) 0) as [H0|H0]; cbn [negb].
  - rewrite bool_decide_eq_false_2 by naive_solver. apply IH; try done.
    intros g Hg8 Hg0. rewrite Hb by done. apply bool_decide_ext. set_solver by lia.
  - destruct (taken_word bits (group f) Hl Hf) as [-> ->].
    pose proof (markRing_spec bits (group f) Hok) as Hm. unfold markRing in Hm.
    rewrite Hb in Hm by done. destruct (decide (group f ∈ taken)) as [Hin|Hin].
    + rewrite (bool_decide_eq_true_2 (group f ∈ taken)) in Hm by done.
      rewrite (bool_decide_eq_true_2 (group f ≠ 0 ∧ group f ∈ taken)) by done.
      destruct (negb _); [by apply IH|done].
    + rewrite (bool_decide_eq_false_2 (group f ∈ taken)) in Hm by done.
      rewrite (bool_decide_eq_false_2 (group f ≠ 0 ∧ group f ∈ taken)) by naive_solver.
      destruct (negb _); [done|]. clear Hm.
      match goal with |- one_per_group _ _ ?b _ _ = _ => change b with (setRing bits (group f)) end.
      apply IH; [done|by apply setRing_ok|unfold setRing, len; by rewrite length_insert|].
      intros g Hg8 Hg0. rewrite setRing_spec, Hb by done.
      assert (width bits = 256) as -> by (unfold width; by rewrite Hl).
      unfold fits in *. rewrite !Z.mod_small by lia.
      destruct (Z.eqb_spec g (group f)) as [->|]; cbn [orb].
      * symmetry. apply bool_decide_eq_true_2. set_solver.
      * apply bool_decide_ext. set_solver.
Qed.

Lemma opg_ref_spec group max order : ∀ taken out,
  0 ≤ max → len out ≤ max →
  NoDup (filter (λ g, g ≠ 0) (map group out)) →
  (∀ g, g ∈ taken ↔ g ∈ map group out) →
  let res := opg_ref group max taken out order in
  (∃ new, res = out ++ new ∧ sublist new order) ∧ len res ≤ max ∧
  NoDup (filter (λ g, g ≠ 0) (map group res)) ∧
  (∀ f, f ∈ order → f ∈ res ∨ len res = max ∨ group f ∈ map group res).
Proof.
  induction order as [|f r IH]; intros taken out Hm Hlen Hnd Ht; cbn [opg_ref].
  { split_and!; [exists []; by rewrite app_nil_r|done|done|]. intros f Hf. by apply elem_of_nil in Hf. }
  destruct (Z.leb_spec max (len out)).
  { split_and!; [|done|done|intros; right; left; lia].
    exists []. rewrite app_nil_r. split; [done|apply sublist_nil_l]. }
  case_bool_decide as Hd.
  - destruct (IH taken out Hm Hlen Hnd Ht) as ((new & Hr & Hs) & H2 & H3 & H4). split_and!; try done.
    + exists new. split; [done|by apply sublist_cons].
    + intros x [->|Hx]%elem_of_cons; [|by apply H4]. right; right.
      destruct Hd as [_ Hd]. apply Ht in Hd. rewrite Hr, map_app. set_solver.
  - destruct (IH ({[group f]} ∪ taken) (out ++ [f])) as ((new & Hr & Hs) & H2 & H3 & H4).
    + done.
    + rewrite len_app. unfold len in *. cbn. lia.
    + rewrite map_app, filter_app. cbn [map]. rewrite filter_cons, filter_nil.
      case_decide as H0; [|by rewrite app_nil_r]. apply NoDup_app. split_and!; [done| |by apply NoDup_singleton].
      intros g Hg. apply list_elem_of_filter in Hg as [_ Hg]. rewrite <- Ht in Hg. set_solver.
    + intros g. rewrite map_app. cbn. rewrite elem_of_union, elem_of_app, Ht. set_solver.
    + split_and!; try done.
      * exists (f :: new). rewrite Hr, <- app_assoc. split; [done|by apply sublist_skip].
      * intros x [->|Hx]%elem_of_cons; [|by apply H4]. left. rewrite Hr. set_solver.
Qed.


