(* ===== verification/SchedTiming.v ===== *)
(** Timeouts, deadlines, capacities and advertised windows.

    Models internal/sched/rto.go and the formulas of formula.go.  The integer
    formulas are proved exact for every int64 argument although the source
    computes them in int64; of the float64 formulas the bounds are proved. *)

From Stdlib Require Import ZArith Lia SpecFloat.
From stdpp Require Import base numbers.
From S2P Require Import Prelude GoTime WireFrame.

Open Scope Z_scope.

(** ** rto.go *)
Definition RTOMin : Duration := 200 * Millisecond.
Definition RTOMax : Duration := 2 * Second.
Definition RTOInitial : Duration := 300 * Millisecond.

Definition RTOWithin (srtt rttvar : Duration) (sampled : bool) (initial lo hi : Duration) : Duration :=
  if negb sampled then initial
  else
    let srtt := Z.max srtt 0 in
    let rttvar := Z.max rttvar 0 in
    if (hi <=? srtt) || (quot (i64 (hi - srtt)) 4 <? rttvar) then hi
    else Z.min (Z.max (i64 (srtt + i64 (4 * rttvar))) lo) hi.

Definition RTO (srtt rttvar : Duration) (sampled : bool) : Duration :=
  RTOWithin srtt rttvar sampled RTOInitial RTOMin RTOMax.

Definition RTOBackoffWithin (rto : Duration) (n : Z) (hi : Duration) : Duration :=
  if rto <=? 0 then rto
  else
    let n := if n <? 0 then 0 else n in
    if Z.shiftr hi n <? rto then hi else i64 (Z.shiftl rto n).

Definition RTOBackoff (rto : Duration) (n : Z) : Duration := RTOBackoffWithin rto n RTOMax.

Definition RTTVar (rttvar srtt rtt : Duration) (first : bool) : Duration :=
  let rtt := Z.max rtt 0 in
  if first then quot rtt 2
  else
    let rttvar := Z.max rttvar 0 in
    let srtt := Z.max srtt 0 in
    let d := i64 (srtt - rtt) in
    let d := if d <? 0 then i64 (- d) else d in
    i64 (i64 (i64 (3 * quot rttvar 4) + quot d 4) + quot (i64 (i64 (3 * rem rttvar 4) + rem d 4)) 4).

(** ** formula.go *)
Definition minAdvertise : Z := Z.shiftl 64 10.
Definition capSlack : Duration := 50 * Millisecond.
Definition capUnknownRTT : Duration := 50 * Millisecond.

Definition estimateNs (k : float64) (srtt : Duration) (bytes : Z) (rate : float64) : float64 :=
  let d := if 0 <? srtt then fmul k (f64 srtt) else f64 0 in
  if (0 <? bytes) && flt (f64 0) rate
  then fadd d (fmul (fdiv (f64 bytes) rate) (f64 Second)) else d.

Definition clampNs (d : float64) (min max : Duration) : Duration :=
  if fle (f64 max) d then max
  else
    let r := int64_of (ftrunc d) in
    let r := if r <? min then min else r in
    if max <? r then max else r.

Definition DeathDeadline (srtt : Duration) (inflight : Z) (rate : float64) (min max : Duration)
    : Duration := clampNs (estimateNs (f64 3) srtt inflight rate) min max.

Definition StallWindow (srtt : Duration) (batch : Z) (rate : float64) (min max : Duration)
    : Duration := clampNs (estimateNs (f64 2) srtt batch rate) min max.

Definition CapacityDuplex (rate : float64) (minRTT pingBusy : Duration) (revRate : float64)
    (rev lag : Duration) (batch floor ceil : Z) : Z :=
  let minRTT := if minRTT <=? 0 then capUnknownRTT else minRTT in
  let pingBusy := if pingBusy <? 0 then 0 else pingBusy in
  let pos x := flt (f64 0) x in
  let c := if pos rate
    then fdiv (fmul (fmul (f64 2) rate)
           (fadd (fadd (f64 minRTT) (f64 pingBusy)) (f64 capSlack))) (f64 Second)
    else f64 0 in
  let c :=
    if pos revRate && pos rate then
      let c := if 0 <? rev
        then fadd c (fdiv (fmul (fmin revRate rate) (f64 rev)) (f64 Second)) else c in
      if (0 <? lag) && (0 <? batch)
      then fadd c (fmin (fdiv (fmul rate (f64 lag)) (f64 Second)) (f64 batch)) else c
    else c in
  if fle (f64 ceil) c then ceil
  else
    let r := int64_of (ftrunc c) in
    let r := if r <? floor then floor else r in
    if ceil <? r then ceil else r.

Definition Capacity (rate : float64) (minRTT pingBusy : Duration) (floor ceil : Z) : Z :=
  CapacityDuplex rate minRTT pingBusy (f64 0) 0 0 0 floor ceil.

Definition RescueWait (fastest min : Duration) : Duration :=
  let maxDur := MaxInt64 in
  if quot maxDur 3 <? fastest then maxDur
  else
    let w := i64 (3 * fastest) in
    if min <? w then w else min.

Definition AdvertiseWindow (window used max : Z) : Z :=
  if window <=? 0 then 0
  else if max <=? 0 then window
  else
    let u := fdiv (f64 used) (f64 max) in
    if fle u (fdiv (f64 3) (f64 4)) then window
    else if fle (f64 1) u then 0
    else
      let w := int64_of (ftrunc (fdiv (fmul (f64 window) (fsub (f64 1) u)) (fdiv (f64 1) (f64 4)))) in
      let w := if w <? minAdvertise then minAdvertise else w in
      if window <? w then window else w.

Definition EpochNewer (a b : Z) : bool := negb (a =? b) && (0 <? i32 (u32 (a - b))).

(** ** Properties *)

Lemma RTOWithin_exact srtt rttvar initial lo hi :
  is_i64 srtt → is_i64 rttvar → is_i64 hi →
  RTOWithin srtt rttvar true initial lo hi =
  Z.min (Z.max (Z.max srtt 0 + 4 * Z.max rttvar 0) lo) hi.
Proof.
  unfold is_i64, MinInt64, MaxInt64. intros Hs Hv Hh. unfold RTOWithin. cbn [negb].
  set (s := Z.max srtt 0). set (v := Z.max rttvar 0).
  destruct (Z.leb_spec hi s); cbn [orb]; [lia|].
  rewrite (i64_small (hi - s)) by (unfold is_i64, MinInt64, MaxInt64; lia).
  rewrite Z.quot_div_nonneg by lia.
  pose proof (Z.div_mod (hi - s) 4 ltac:(lia)). pose proof (Z.mod_pos_bound (hi - s) 4 ltac:(lia)).
  destruct (Z.ltb_spec ((hi - s) / 4) v); [lia|].
  rewrite (i64_small (4 * v)) by (unfold is_i64, MinInt64, MaxInt64; lia).
  rewrite i64_small by (unfold is_i64, MinInt64, MaxInt64; lia). done.
Qed.

(** C32. RTO is exact: although the source adds in int64, the timeout is
    min(max(srtt + 4·rttvar, lo), hi) of the exact sum for every int64
    argument (negative ones counting as 0), so it lies within [lo, hi]; before
    the first sample it is the initial timeout. *)
Theorem rto_exact srtt rttvar initial lo hi :
  is_i64 srtt → is_i64 rttvar → is_i64 hi → lo ≤ hi →
  RTOWithin srtt rttvar false initial lo hi = initial ∧
  RTOWithin srtt rttvar true initial lo hi =
    Z.min (Z.max (Z.max srtt 0 + 4 * Z.max rttvar 0) lo) hi ∧
  lo ≤ RTOWithin srtt rttvar true initial lo hi ≤ hi ∧
  RTOMin ≤ RTO srtt rttvar true ≤ RTOMax.
Proof.
  intros Hs Hv Hh Hlo. split; [done|]. unfold RTO.
  rewrite !RTOWithin_exact by (done || (unfold is_i64, MinInt64, MaxInt64, RTOMax, Second; lia)).
  unfold RTOMin, RTOMax, Second, Millisecond. lia.
Qed.

Lemma rto_exact_witness :
  RTOWithin MaxInt64 MaxInt64 true 1 2 MaxInt64 = MaxInt64 ∧
  RTOMin ≤ RTO MaxInt64 MaxInt64 true ≤ RTOMax.
Proof.
  split; [vm_compute; reflexivity|].
  apply (rto_exact MaxInt64 MaxInt64 1 2 MaxInt64); vm_compute; try split; discriminate.
Defined.

Lemma shiftr_lt_iff hi rto n :
  0 < rto → 0 ≤ n → Z.shiftr hi n < rto ↔ hi < rto * 2 ^ n.
Proof.
  intros Hr Hn. rewrite Z.shiftr_div_pow2 by done. assert (0 < 2 ^ n) by (apply Z.pow_pos_nonneg; lia).
  pose proof (Z.div_mod hi (2 ^ n) ltac:(lia)). pose proof (Z.mod_pos_bound hi (2 ^ n) ltac:(lia)).
  split; intros; nia.
Qed.

(** C33. The backoff of the n-th retransmission is exactly min(rto·2ⁿ, hi), for
    every n, however large: the doubling saturates and never overflows; it
    never shrinks as n grows. *)
Theorem rto_backoff_exact rto n m hi :
  0 < rto → is_i64 hi → n ≤ m →
  RTOBackoffWithin rto n hi = Z.min (rto * 2 ^ Z.max n 0) hi ∧
  RTOBackoffWithin rto n hi ≤ RTOBackoffWithin rto m hi.
Proof.
  intros Hr Hh Hnm.
  assert (∀ k, RTOBackoffWithin rto k hi = Z.min (rto * 2 ^ Z.max k 0) hi) as Hex.
  { intros k. unfold RTOBackoffWithin. destruct (Z.leb_spec rto 0); [lia|].
    assert ((if k <? 0 then 0 else k) = Z.max k 0) as -> by (destruct (Z.ltb_spec k 0); lia).
    set (e := Z.max k 0). pose proof (shiftr_lt_iff hi rto e Hr ltac:(lia)) as Hsh.
    destruct (Z.ltb_spec (Z.shiftr hi e) rto) as [Hl|Hl]; [lia|].
    assert (rto * 2 ^ e ≤ hi) by lia. assert (0 < 2 ^ e) by (apply Z.pow_pos_nonneg; lia).
    rewrite Z.shiftl_mul_pow2 by lia. rewrite i64_small; [lia|].
    unfold is_i64, MinInt64, MaxInt64 in *. nia. }
  split; [done|]. rewrite !Hex.
  assert (2 ^ Z.max n 0 ≤ 2 ^ Z.max m 0) by (apply Z.pow_le_mono_r; lia). nia.
Qed.

Lemma rto_backoff_exact_witness :
  RTOBackoffWithin RTOInitial 2 RTOMax = 1200 * Millisecond ∧
  RTOBackoffWithin RTOInitial 2 RTOMax ≤ RTOBackoffWithin RTOInitial 70 RTOMax.
Proof.
  split; [vm_compute; reflexivity|].
  apply (rto_backoff_exact RTOInitial 2 70 RTOMax); vm_compute; try split; (reflexivity || discriminate).
Defined.

(** C34. The RTTVAR update is exactly ⌊(3·rttvar + |srtt − rtt|)/4⌋ for all
    non-negative int64 arguments, computed without overflow; the first sample
    gives ⌊rtt/2⌋; the result is a non-negative int64. *)
Theorem rttvar_exact rttvar srtt rtt :
  0 ≤ rttvar ≤ MaxInt64 → 0 ≤ srtt ≤ MaxInt64 → 0 ≤ rtt ≤ MaxInt64 →
  RTTVar rttvar srtt rtt false = (3 * rttvar + Z.abs (srtt - rtt)) / 4 ∧
  RTTVar rttvar srtt rtt true = rtt / 2 ∧
  0 ≤ RTTVar rttvar srtt rtt false ≤ MaxInt64.
Proof.
  unfold MaxInt64. intros Hv Hs Hr. unfold RTTVar. rewrite !Z.max_l by lia.
  rewrite (i64_small (srtt - rtt)) by (unfold is_i64, MinInt64, MaxInt64; lia).
  set (d := if srtt - rtt <? 0 then i64 (- (srtt - rtt)) else srtt - rtt).
  assert (d = Z.abs (srtt - rtt)) as ->.
  { unfold d. destruct (Z.ltb_spec (srtt - rtt) 0); [|lia].
    rewrite i64_small by (unfold is_i64, MinInt64, MaxInt64; lia). lia. }
  set (d := Z.abs (srtt - rtt)). assert (0 ≤ d ≤ 2 ^ 63 - 1) as Hd by lia.
  rewrite !Z.quot_div_nonneg by lia. rewrite !Z.rem_mod_nonneg by lia.
  pose proof (Z.div_mod rttvar 4 ltac:(lia)) as Ev. pose proof (Z.mod_pos_bound rttvar 4 ltac:(lia)).
  pose proof (Z.div_mod d 4 ltac:(lia)) as Ed. pose proof (Z.mod_pos_bound d 4 ltac:(lia)).
  rewrite (i64_small (3 * (rttvar mod 4))) by (unfold is_i64, MinInt64, MaxInt64; lia).
  rewrite (i64_small (3 * (rttvar mod 4) + d mod 4)) by (unfold is_i64, MinInt64, MaxInt64; lia).
  rewrite Z.quot_div_nonneg by lia.
  set (c := (3 * (rttvar mod 4) + d mod 4) / 4).
  assert (0 ≤ c ≤ 3) as Hc.
  { unfold c. split; [apply Z.div_pos; lia|]. apply Z.div_le_upper_bound; lia. }
  assert ((3 * rttvar + d) / 4 = 3 * (rttvar / 4) + d / 4 + c) as Hx.
  { unfold c. rewrite Ev at 1. rewrite Ed at 1.
    replace (3 * (4 * (rttvar / 4) + rttvar mod 4) + (4 * (d / 4) + d mod 4))
      with ((3 * (rttvar / 4) + d / 4) * 4 + (3 * (rttvar mod 4) + d mod 4)) by lia.
    rewrite Z.div_add_l by lia. done. }
  assert ((3 * rttvar + d) / 4 ≤ 2 ^ 63 - 1) by (apply Z.div_le_upper_bound; lia).
  assert (0 ≤ (3 * rttvar + d) / 4) by (apply Z.div_pos; lia).
  rewrite (i64_small (3 * (rttvar / 4))) by (unfold is_i64, MinInt64, MaxInt64; lia).
  rewrite (i64_small (3 * (rttvar / 4) + d / 4)) by (unfold is_i64, MinInt64, MaxInt64; lia).
  rewrite <- Hx. rewrite i64_small by (unfold is_i64, MinInt64, MaxInt64; lia).
  split_and!; try lia. apply Z.quot_div_nonneg; lia.
Qed.

Lemma rttvar_exact_witness :
  RTTVar MaxInt64 0 MaxInt64 false = MaxInt64 ∧ RTTVar MaxInt64 0 MaxInt64 true = MaxInt64 / 2.
Proof.
  destruct (rttvar_exact MaxInt64 0 MaxInt64) as (H1 & H2 & _); try (vm_compute; split; discriminate).
  rewrite H1, H2. vm_compute. split; reflexivity.
Defined.

Lemma clampNs_bounds d min max :
  (min ≤ max → min ≤ clampNs d min max ≤ max) ∧ (max < min → clampNs d min max = max).
Proof.
  unfold clampNs. case_match; [lia|]. generalize (int64_of (ftrunc d)). intros r.
  destruct (Z.ltb_spec r min); [destruct (Z.ltb_spec max min)|destruct (Z.ltb_spec max r)]; lia.
Qed.

(** C35. Deadlines and capacities are clamped whatever the float64 estimate is
    (NaN and the infinities included): DeathDeadline and StallWindow lie in
    [min, max], Capacity and CapacityDuplex in [floor, ceil], and with inverted
    bounds the upper one wins. *)
Theorem formula_bounds srtt bytes rate min max minRTT pingBusy revRate rev lag batch :
  let dd := DeathDeadline srtt bytes rate min max in
  let sw := StallWindow srtt bytes rate min max in
  let cap := CapacityDuplex rate minRTT pingBusy revRate rev lag batch min max in
  let cap0 := Capacity rate minRTT pingBusy min max in
  (min ≤ max → min ≤ dd ≤ max ∧ min ≤ sw ≤ max ∧ min ≤ cap ≤ max ∧ min ≤ cap0 ≤ max) ∧
  (max < min → dd = max ∧ sw = max ∧ cap = max ∧ cap0 = max).
Proof.
  assert (∀ r mr pb rr re lg ba,
    let c := CapacityDuplex r mr pb rr re lg ba min max in
    (min ≤ max → min ≤ c ≤ max) ∧ (max < min → c = max)) as Hcap.
  { intros. unfold c, CapacityDuplex. cbv zeta.
    match goal with |- context [fle (f64 max) ?x] => exact (clampNs_bounds x min max) end. }
  intros dd sw cap cap0.
  pose proof (clampNs_bounds (estimateNs (f64 3) srtt bytes rate) min max) as [H1 H1'].
  pose proof (clampNs_bounds (estimateNs (f64 2) srtt bytes rate) min max) as [H2 H2'].
  destruct (Hcap rate minRTT pingBusy revRate rev lag batch) as [H3 H3'].
  destruct (Hcap rate minRTT pingBusy (f64 0) 0 0 0) as [H4 H4'].
  unfold dd, sw, cap, cap0, DeathDeadline, StallWindow, Capacity. tauto.
Qed.

(** RescueWait is exactly max(min, 3·fastest), saturating at the largest
    Duration. *)
Theorem rescue_wait_exact fastest min :
  0 ≤ fastest ≤ MaxInt64 → min ≤ MaxInt64 →
  RescueWait fastest min = Z.min MaxInt64 (Z.max min (3 * fastest)).
Proof.
  unfold MaxInt64. intros Hf Hm. unfold RescueWait, MaxInt64.
  change (quot (2 ^ 63 - 1) 3) with 3074457345618258602.
  destruct (Z.ltb_spec 3074457345618258602 fastest); [lia|].
  rewrite i64_small by (unfold is_i64, MinInt64, MaxInt64; lia).
  destruct (Z.ltb_spec min (3 * fastest)); lia.
Qed.

Lemma rescue_wait_exact_witness : RescueWait 4000000000000000000 7 = MaxInt64.
Proof. rewrite (rescue_wait_exact 4000000000000000000 7); vm_compute; repeat split; discriminate. Defined.


(** C38. The serial order of fseqs, PING ids and SCHED epochs: [b + d] is newer
    than [b] exactly for 1 ≤ d < 2³¹, across the 32-bit wrap; EpochNewer and
    SeqLess are the same order; it is irreflexive and antisymmetric. *)
Theorem serial_order b d :
  is_u32 b → 0 ≤ d < 2 ^ 32 →
  let a := u32 (b + d) in
  EpochNewer a b = SeqLess b a ∧
  EpochNewer a b = (0 <? d) && (d <? 2 ^ 31) ∧
  (EpochNewer a b = true → EpochNewer b a = false).
Proof.
  intros Hb Hd a.
  assert (∀ x y, is_u32 x → is_u32 y → EpochNewer x y = SeqLess y x) as Heq.
  { intros x y Hx Hy. unfold EpochNewer, SeqLess. rewrite (Z.eqb_sym x). f_equal. f_equal.
    apply swrap_congr. unfold wrap. by rewrite Z.mod_mod. }
  assert (is_u32 a) as Ha by (apply wrap_fits; lia).
  rewrite !Heq by done. unfold a. rewrite SeqLess_step by done. split_and!; [done|done|].
  intros Hp. assert (0 < d < 2 ^ 31) as Hd' by lia.
  assert (b = u32 (u32 (b + d) + (2 ^ 32 - d))) as Hback.
  { unfold wrap. rewrite Zplus_mod_idemp_l. replace (b + d + (2 ^ 32 - d)) with (b + 1 * 2 ^ 32) by lia.
    rewrite Z.mod_add by lia. symmetry. by apply Z.mod_small. }
  rewrite Hback at 2. rewrite SeqLess_step by (done || lia). lia.
Qed.

Lemma serial_order_witness : EpochNewer (u32 (4294967290 + 10)) 4294967290 = true.
Proof.
  destruct (serial_order 4294967290 10) as (_ & H & _); [split; vm_compute; (discriminate || reflexivity)..|].
  rewrite H. reflexivity.
Defined.
