(* ===== verification/SchedCadence.v ===== *)
(** The redial cadence of a slot and the staggered candidate race.

    Models internal/sched/cadence.go and race.go.  A slot's operations are
    Ready, Start, Finish and Kick; attempt ids make late results detectable. *)

From Stdlib Require Import ZArith Lia SpecFloat.
From stdpp Require Import base numbers list sets sorting.
From S2P Require Import Prelude GoTime.

Open Scope Z_scope.

Definition BackoffBase : Duration := 500 * Millisecond.
Definition maxBackoffShift : Z := 32.

(** The nearest float64 of k/10. *)
Definition tenths (k : Z) : float64 := fdiv (f64 k) (f64 10).

Definition Backoff (n : Z) (max : Duration) (u : float64) : Duration :=
  let n := if n <? 0 then 0 else if maxBackoffShift <? n then maxBackoffShift else n in
  let d := i64 (Z.shiftl BackoffBase n) in
  let d := if (0 <? max) && (max <? d) then max else d in
  let u := if negb (fle (f64 0) u) then f64 0 else if flt (f64 1) u then f64 1 else u in
  int64_of (ftrunc (fmul (f64 d) (fadd (tenths 8) (fmul (tenths 4) u)))).

Inductive Outcome := OutcomeFailed | OutcomeRefused | OutcomeAttached.

#[global] Instance Outcome_eq_dec : EqDecision Outcome.
Proof. solve_decision. Defined.

Record Cadence := mkCadence {
  Fails : Z; Running : bool; Immediate : bool; Attempt : Z; LastStart : Time; NextAt : Time;
  refused : bool; kicked : bool; recoverFrom : Time
}.

Definition zeroCadence : Cadence := mkCadence 0 false false 0 0 0 false false 0.

Definition recoverSpan : Z := 4.

Definition Ready (c : Cadence) (now : Time) : bool * Time :=
  if Running c then (false, zero_time)
  else if Immediate c || IsZero (NextAt c) || negb (Before now (NextAt c)) then (true, zero_time)
  else (false, NextAt c).

Definition Cadence_Start (c : Cadence) (now : Time) : Cadence * Z :=
  let attempt := u64 (Attempt c + 1) in
  (mkCadence (Fails c) true false attempt now (NextAt c) (refused c) false
     (if kicked c then now else recoverFrom c), attempt).

Definition recovering (c : Cadence) (max : Duration) : bool :=
  negb (IsZero (recoverFrom c)) &&
  Before (LastStart c) (Add (recoverFrom c) (i64 (recoverSpan * max))).

Definition backoff (c : Cadence) (now : Time) (max : Duration) (u : float64) : Cadence :=
  let next := Add (LastStart c) (Backoff (Fails c) max u) in
  let next := if Before next now then now else next in
  mkCadence (i64 (Fails c + 1)) (Running c) (Immediate c) (Attempt c) (LastStart c) next (refused c)
    (kicked c) (recoverFrom c).

Definition Finish (c : Cadence) (now : Time) (id : Z) (o : Outcome) (max : Duration) (u : float64)
    : Cadence * bool :=
  if negb (Running c) || negb (id =? Attempt c) then (c, false)
  else
    let c := mkCadence (Fails c) false (Immediate c) (Attempt c) (LastStart c) (NextAt c) (refused c)
               (kicked c) (recoverFrom c) in
    match o with
    | OutcomeAttached =>
        (mkCadence 0 false (Immediate c) (Attempt c) (LastStart c) 0 false false 0, true)
    | OutcomeRefused =>
        let fails := if negb (refused c) || recovering c max then 0 else Fails c in
        let c := mkCadence fails false (Immediate c) (Attempt c) (LastStart c) (NextAt c) true
                   (kicked c) (recoverFrom c) in
        (backoff c now max u, true)
    | OutcomeFailed => (backoff c now max u, true)
    end.

Definition Kick (c : Cadence) : Cadence :=
  mkCadence (Fails c) (Running c) true (Attempt c) (LastStart c) (NextAt c) (refused c)
    (if 0 <? Attempt c then true else kicked c) (recoverFrom c).

(** ** The race *)
Definition maxRaceOrder : Z := 16.

Record Race := mkRace {
  r_order : list Z; r_n : Z; r_cursor : Z; r_stagger : Duration; r_last : Time; r_started : bool
}.

(** [copy(r.order[:], order)] takes at most 16 entries. *)
Definition NewRace (order : list Z) (stagger : Duration) (now : Time) : Race :=
  let kept := take (Z.to_nat maxRaceOrder) order in
  mkRace (kept ++ replicate (Z.to_nat (maxRaceOrder - len kept)) 0) (len kept) 0 stagger 0 false.

(** The loop over k = 0 … n−1 from position [pos0]. *)
Fixpoint race_scan (r : Race) (now : Time) (ready : Z → bool * Time) (ks : list Z) (wake : Time)
    : option (Z * Z) * Time :=
  match ks with
  | [] => (None, wake)
  | k :: ks' =>
      let pos := rem (r_cursor r + k) (r_n r) in
      let cand := nth (Z.to_nat pos) (r_order r) 0 in
      let '(ok, at_) := ready cand in
      if ok then (Some (pos, cand), wake)
      else race_scan r now ready ks' (if After at_ now then earlier wake at_ else wake)
  end.

(** Next returns the new race, the candidate (−1: none), start and wake. *)
Definition Next (r : Race) (now : Time) (outstanding : Z) (ready : Z → bool * Time)
    : Race * (Z * bool * Time) :=
  if r_n r =? 0 then (r, (-1, false, zero_time))
  else
    let stag_end := Add (r_last r) (r_stagger r) in
    if (0 <? outstanding) && r_started r && Before now stag_end then (r, (-1, false, stag_end))
    else
      match race_scan r now ready (seqZ 0 (r_n r)) zero_time with
      | (Some (pos, cand), _) =>
          (mkRace (r_order r) (r_n r) (rem (pos + 1) (r_n r)) (r_stagger r) now true,
           (cand, true, Add now (r_stagger r)))
      | (None, wake) => (r, (-1, false, wake))
      end.

(** ** Cadence *)

Inductive cad_op :=
| CStart (now : Time)
| CFinish (now : Time) (id : Z) (o : Outcome) (max : Duration) (u : float64)
| CKick.

(** Run the operations; the ids whose Finish was accepted, in order. *)
Fixpoint cad_run (c : Cadence) (ops : list cad_op) : Cadence * list Z :=
  match ops with
  | [] => (c, [])
  | CStart now :: r => cad_run (Cadence_Start c now).1 r
  | CFinish now id o max u :: r =>
      let '(c', ok) := Finish c now id o max u in
      let '(c'', ids) := cad_run c' r in
      (c'', if ok then id :: ids else ids)
  | CKick :: r => cad_run (Kick c) r
  end.

Lemma Finish_Attempt c now id o max u : Attempt (Finish c now id o max u).1 = Attempt c.
Proof. unfold Finish. case_match; [done|]. by destruct o. Qed.

Lemma Finish_ok c now id o max u :
  (Finish c now id o max u).2 = true ↔ Running c = true ∧ id = Attempt c.
Proof.
  unfold Finish. destruct (Running c), (Z.eqb_spec id (Attempt c)); cbn; try (by destruct o); naive_solver.
Qed.

Lemma Finish_stops c now id o max u :
  (Finish c now id o max u).2 = true → Running (Finish c now id o max u).1 = false.
Proof.
  unfold Finish. destruct (Running c), (Z.eqb_spec id (Attempt c)); cbn; try done. by destruct o.
Qed.

Lemma cad_run_mono ops : ∀ c,
  0 ≤ Attempt c → Attempt c + len ops < 2 ^ 64 → Attempt c ≤ Attempt (cad_run c ops).1.
Proof.
  induction ops as [|op ops IH]; intros c Hc Hl; [done|].
  rewrite len_cons in Hl. pose proof (len_nonneg ops).
  destruct op as [now|now id o max u|]; cbn [cad_run].
  - etrans; [|apply IH]; unfold Cadence_Start; cbn [fst Attempt];
      rewrite (wrap_small 64) by (unfold fits; lia); lia.
  - pose proof (Finish_Attempt c now id o max u) as Ha.
    destruct (Finish c now id o max u) as [c' ok]. cbn [fst] in Ha.
    specialize (IH c'). destruct (cad_run c' ops) as [c'' ids]. cbn [fst] in *. lia.
  - apply (IH (Kick c)); cbn; lia.
Qed.

(** Every id accepted from here on is newer than the latest finished one. *)
Lemma cad_run_ids ops : ∀ c,
  0 ≤ Attempt c → Attempt c + len ops < 2 ^ 64 →
  StronglySorted Z.lt (cad_run c ops).2 ∧
  ∀ id, id ∈ (cad_run c ops).2 →
    (if Running c then Attempt c ≤ id else Attempt c < id) ∧ id ≤ Attempt (cad_run c ops).1.
Proof.
  induction ops as [|op ops IH]; intros c Hc Hl.
  { cbn. split; [constructor|]. intros id Hid. by apply elem_of_nil in Hid. }
  rewrite len_cons in Hl. pose proof (len_nonneg ops).
  destruct op as [now|now id o max u|]; cbn [cad_run].
  - destruct (IH (Cadence_Start c now).1) as [Hs Hb];
      [unfold Cadence_Start; cbn [fst Attempt]; rewrite (wrap_small 64) by (unfold fits; lia); lia..|].
    split; [done|]. intros i Hi. destruct (Hb i Hi) as [H1 H2]. split; [|done].
    unfold Cadence_Start in H1. cbn [fst Attempt Running] in H1.
    rewrite (wrap_small 64) in H1 by (unfold fits; lia). destruct (Running c); lia.
  - pose proof (Finish_Attempt c now id o max u) as Ha.
    pose proof (Finish_ok c now id o max u) as Hok. pose proof (Finish_stops c now id o max u) as Hst.
    destruct (Finish c now id o max u) as [c' ok] eqn:Hf. cbn [fst snd] in *.
    pose proof (cad_run_mono ops c' ltac:(lia) ltac:(lia)) as Hmono.
    destruct (IH c') as [Hs Hb]; [lia|lia|]. destruct (cad_run c' ops) as [c'' ids]. cbn [fst snd] in *.
    destruct ok.
    + destruct (proj1 Hok eq_refl) as [Hrun ->]. rewrite (Hst eq_refl), Ha in Hb. rewrite Hrun. split.
      * constructor; [done|]. apply Forall_forall. intros i Hi. by destruct (Hb i Hi).
      * intros i [->|Hi]%elem_of_cons; [lia|]. destruct (Hb i Hi). lia.
    + split; [done|]. intros i Hi. destruct (Hb i Hi) as [H1 H2]. split; [|done].
      unfold Finish in Hf. destruct (negb (Running c) || negb (id =? Attempt c)).
      * injection Hf as Hcc. rewrite <- Hcc in H1. exact H1.
      * destruct o; discriminate Hf.
  - destruct (IH (Kick c)) as [Hs Hb]; [exact Hc|cbn [Kick Attempt]; lia|]. split; [exact Hs|exact Hb].
Qed.

(** An idle slot with a scheduled start. *)
Lemma Ready_idle c t :
  Running c = false → 0 < NextAt c →
  (Ready c t).1 = Immediate c || (NextAt c <=? t) ∧ ((Ready c t).1 = false → (Ready c t).2 = NextAt c).
Proof.
  intros Hr Hn. unfold Ready, IsZero, Before. rewrite Hr.
  destruct (Immediate c); cbn [orb]; [done|]. destruct (Z.eqb_spec (NextAt c) 0); [lia|]. cbn [orb].
  destruct (Z.ltb_spec t (NextAt c)), (Z.leb_spec (NextAt c) t); cbn; try lia; done.
Qed.

(** ** Properties *)

(** C29. Results of superseded attempts are detected: over any sequence of Start,
    Finish and Kick on a new slot, the ids whose Finish is accepted are
    strictly increasing — no attempt gets two results, none older than an
    accepted one gets any — and each is the id of a started attempt; a Finish
    that is not accepted changes nothing. *)
Theorem cadence_results ops c now id o max u :
  len ops < 2 ^ 64 →
  StronglySorted Z.lt (cad_run zeroCadence ops).2 ∧
  (∀ i, i ∈ (cad_run zeroCadence ops).2 → 1 ≤ i ≤ Attempt (cad_run zeroCadence ops).1) ∧
  ((Finish c now id o max u).2 = false → (Finish c now id o max u).1 = c).
Proof.
  intros Hl. destruct (cad_run_ids ops zeroCadence) as [Hs Hb]; [done|cbn; lia|].
  split_and!; [done| |].
  - intros i Hi. destruct (Hb i Hi) as [H1 H2]. cbn in H1. lia.
  - clear. unfold Finish. case_match; [done|]. by destruct o.
Qed.

Lemma cadence_results_witness :
  let ops := [CStart 10; CFinish 20 1 OutcomeFailed Second (f64 0); CStart 900; CStart 950;
              CFinish 960 2 OutcomeAttached Second (f64 0); CKick;
              CFinish 970 3 OutcomeAttached Second (f64 0); CFinish 980 3 OutcomeAttached Second (f64 0)] in
  (cad_run zeroCadence ops).2 = [1; 3] ∧ StronglySorted Z.lt (cad_run zeroCadence ops).2.
Proof.
  split; [vm_compute; reflexivity|].
  apply (cadence_results _ zeroCadence 0 0 OutcomeFailed 0 (f64 0)). vm_compute. reflexivity.
Defined.

(** C30. What an accepted result does: Attached clears the failure count, the
    refusal memory, the recovery window and the backoff.  Any other outcome
    schedules the next start at LastStart + Backoff(n), but never before the
    attempt ended, where n is the failure count, 0 for a refusal that is the
    first since the last Attached or falls in the recovery window; the slot is
    then ready exactly from that instant on, or at once after a Kick, which
    survives the attempt. *)
Theorem cadence_finish c now id o max u t :
  Running c = true → id = Attempt c → 0 < now →
  let c' := (Finish c now id o max u).1 in
  let reset := bool_decide (o = OutcomeRefused) && (negb (refused c) || recovering c max) in
  let n := if reset then 0 else Fails c in
  Running c' = false ∧ Immediate c' = Immediate c ∧ Attempt c' = Attempt c ∧
  match o with
  | OutcomeAttached => Fails c' = 0 ∧ refused c' = false ∧ recoverFrom c' = 0 ∧ (Ready c' t).1 = true
  | _ =>
      NextAt c' = Z.max now (LastStart c + Backoff n max u) ∧ Fails c' = i64 (n + 1) ∧
      refused c' = (bool_decide (o = OutcomeRefused) || refused c) ∧
      (Ready c' t).1 = Immediate c || (NextAt c' <=? t) ∧
      ((Ready c' t).1 = false → (Ready c' t).2 = NextAt c')
  end.
Proof.
  intros Hr -> Hn. unfold Finish. rewrite Hr, Z.eqb_refl. cbn [negb orb].
  assert (∀ d, Z.max now (LastStart c + d) =
    if Before (Add (LastStart c) d) now then now else Add (LastStart c) d) as Hmax.
  { intros d. unfold Before, Add. destruct (Z.ltb_spec (LastStart c + d) now); lia. }
  destruct o; cbn [fst].
  - rewrite bool_decide_eq_false_2 by done. cbn [andb orb].
    set (c0 := mkCadence _ _ _ _ _ _ _ _ _).
    assert (NextAt (backoff c0 now max u) = Z.max now (LastStart c + Backoff (Fails c) max u)) as Hnx
      by (by rewrite Hmax).
    destruct (Ready_idle (backoff c0 now max u) t) as [H1 H2]; [done|lia|].
    by split_and!.
  - rewrite bool_decide_eq_true_2 by done. cbn [andb orb].
    match goal with |- context [backoff ?x now max u] => set (c0 := x) end.
    assert (NextAt (backoff c0 now max u) =
      Z.max now (LastStart c + Backoff (Fails c0) max u)) as Hnx by (by rewrite Hmax).
    destruct (Ready_idle (backoff c0 now max u) t) as [H1 H2]; [done|lia|].
    by split_and!.
  - split_and!; try done. unfold Ready. cbn. by rewrite orb_true_r.
Qed.

Lemma cadence_finish_witness :
  let c := (Cadence_Start zeroCadence 10).1 in
  NextAt (Finish c 20 1 OutcomeFailed Second (f64 0)).1 = Z.max 20 (10 + 400000000).
Proof.
  destruct (cadence_finish (Cadence_Start zeroCadence 10).1 20 1 OutcomeFailed Second (f64 0) 0)
    as (_ & _ & _ & H & _); [reflexivity|reflexivity|reflexivity|].
  cbv zeta in *. rewrite H. vm_compute. reflexivity.
Defined.

(** *** The race *)

Lemma seqZ_split n pre k post : seqZ 0 n = pre ++ k :: post →
  0 ≤ k < n ∧ ∀ j, 0 ≤ j < k → j ∈ pre.
Proof.
  intros H. assert (seqZ 0 n !! length pre = Some k) as Hk by (rewrite H; by apply list_lookup_middle).
  apply lookup_seqZ in Hk as [-> Hk]. split; [lia|]. intros j Hj.
  assert (seqZ 0 n !! Z.to_nat j = Some j) as Hjk by (apply lookup_seqZ; lia).
  rewrite H, lookup_app_l in Hjk by lia. by eapply list_elem_of_lookup_2.
Qed.

(** The k-th candidate after the cursor, cycling. *)
Definition race_cand (r : Race) (k : Z) : Z :=
  nth (Z.to_nat (rem (r_cursor r + k) (r_n r))) (r_order r) 0.

Definition race_ok (r : Race) : Prop :=
  len (r_order r) = maxRaceOrder ∧ 0 ≤ r_n r ≤ maxRaceOrder ∧ 0 ≤ r_cursor r ∧
  (r_n r = 0 ∨ r_cursor r < r_n r).

Lemma NewRace_ok order stagger now : race_ok (NewRace order stagger now).
Proof.
  unfold race_ok, NewRace, maxRaceOrder. cbn [r_order r_n r_cursor].
  rewrite len_app, len_replicate. pose proof (len_nonneg (take (Z.to_nat 16) order)).
  assert (len (take (Z.to_nat 16) order) ≤ 16) by (rewrite len_take; lia). lia.
Qed.

(** A wake-up time: never, or the readiness of some candidate after [now]. *)
Definition wake_ok (r : Race) (now : Time) (ready : Z → bool * Time) (ks : list Z) (wake : Time) : Prop :=
  wake = 0 ∨ now < wake ∧ ∃ k, k ∈ ks ∧ wake = (ready (race_cand r k)).2.

Lemma race_scan_spec r now ready ks : ∀ wake done_ks,
  0 ≤ now → 0 ≤ wake →
  (∀ k, k ∈ done_ks → (ready (race_cand r k)).1 = false ∧
     (now < (ready (race_cand r k)).2 → covers wake (ready (race_cand r k)).2)) →
  wake_ok r now ready done_ks wake →
  match race_scan r now ready ks wake with
  | (Some (pos, cand), _) => ∃ pre k post, ks = pre ++ k :: post ∧
      pos = rem (r_cursor r + k) (r_n r) ∧ cand = race_cand r k ∧ (ready cand).1 = true ∧
      (∀ j, j ∈ pre → (ready (race_cand r j)).1 = false)
  | (None, w) => 0 ≤ w ∧ wake_ok r now ready (done_ks ++ ks) w ∧
      ∀ k, k ∈ done_ks ++ ks → (ready (race_cand r k)).1 = false ∧
        (now < (ready (race_cand r k)).2 → covers w (ready (race_cand r k)).2)
  end.
Proof.
  induction ks as [|k ks IH]; intros wake done_ks Hn Hw Hd Hwk; cbn [race_scan].
  { by rewrite app_nil_r. }
  fold (race_cand r k). destruct (ready (race_cand r k)) as [ok at_] eqn:Hr. destruct ok.
  { exists [], k, ks. rewrite Hr. split_and!; try done. intros j Hj. by apply elem_of_nil in Hj. }
  unfold After. set (wake' := if now <? at_ then earlier wake at_ else wake).
  assert (0 ≤ wake') as Hw'.
  { unfold wake'. destruct (Z.ltb_spec now at_); [apply earlier_nonneg; lia|done]. }
  specialize (IH wake' (done_ks ++ [k]) Hn Hw').
  assert (∀ t, covers wake t → covers wake' t) as Hmono.
  { intros t. unfold wake'. destruct (Z.ltb_spec now at_); [|done].
    apply covers_mono. by apply earlier_covers; lia. }
  assert (wake_ok r now ready (done_ks ++ [k]) wake') as Hok'.
  { unfold wake_ok in *. assert (∀ l, wake_ok r now ready done_ks l → wake_ok r now ready (done_ks ++ [k]) l)
      as Hext by (unfold wake_ok; set_solver).
    unfold wake'. destruct (Z.ltb_spec now at_); [|by apply Hext].
    destruct (earlier_either wake at_) as [-> | ->]; [by apply Hext|].
    right. split; [done|]. exists k. rewrite Hr. set_solver. }
  assert (∀ j, j ∈ done_ks ++ [k] → (ready (race_cand r j)).1 = false ∧
    (now < (ready (race_cand r j)).2 → covers wake' (ready (race_cand r j)).2)) as Hd'.
  { intros j [Hj|Hj]%elem_of_app.
    - destruct (Hd j Hj) as [H1 H2]. auto.
    - apply list_elem_of_singleton in Hj as ->. rewrite Hr. split; [done|]. cbn. intros Hat.
      unfold wake'. destruct (Z.ltb_spec now at_); [|lia]. by apply earlier_covers; lia. }
  specialize (IH Hd' Hok'). destruct (race_scan r now ready ks wake') as [[[pos cand]|] w].
  - destruct IH as (pre & j & post & -> & Hp & Hc & Hrd & Hpre).
    exists (k :: pre), j, post. split_and!; try done. intros i [->|Hi]%elem_of_cons; [by rewrite Hr|auto].
  - by rewrite <- app_assoc in IH.
Qed.

(** C31. The decision of a race.  While an attempt is outstanding and the stagger
    has not passed it waits for its end; otherwise it starts the first ready
    candidate after the cursor in cyclic rank order and moves the cursor behind
    it; when none is ready nothing changes and the wake-up is the earliest
    future readiness. *)
Theorem race_next r now outstanding ready :
  race_ok r → 0 < now →
  let '(r', (idx, start, wake)) := Next r now outstanding ready in
  let waiting := (0 <? outstanding) && r_started r && (now <? r_last r + r_stagger r) in
  race_ok r' ∧
  if start then
    waiting = false ∧ r_last r' = now ∧ r_started r' = true ∧ wake = now + r_stagger r ∧
    ∃ k, 0 ≤ k < r_n r ∧ idx = race_cand r k ∧ (ready idx).1 = true ∧
      (∀ j, 0 ≤ j < k → (ready (race_cand r j)).1 = false) ∧
      r_cursor r' = (r_cursor r + k + 1) mod r_n r
  else
    r' = r ∧ idx = -1 ∧
    (r_n r = 0 ∨ (waiting = true ∧ wake = r_last r + r_stagger r) ∨
     (waiting = false ∧
      (∀ k, 0 ≤ k < r_n r → (ready (race_cand r k)).1 = false ∧
         (now < (ready (race_cand r k)).2 → covers wake (ready (race_cand r k)).2)) ∧
      (wake = 0 ∨ now < wake ∧ ∃ k, 0 ≤ k < r_n r ∧ wake = (ready (race_cand r k)).2))).
Proof.
  intros Hok Hn. pose proof Hok as (Hl & Hrn & Hc & Hcn). unfold Next, Before, Add.
  destruct (Z.eqb_spec (r_n r) 0) as [H0|H0]; [by split_and!; auto|].
  destruct ((0 <? outstanding) && r_started r && (now <? r_last r + r_stagger r)) eqn:Hwait.
  { split_and!; try done. right; left. done. }
  pose proof (race_scan_spec r now ready (seqZ 0 (r_n r)) 0 [] ltac:(lia) ltac:(lia)) as Hscan.
  assert (∀ k, k ∈ seqZ 0 (r_n r) ↔ 0 ≤ k < r_n r) as Hin by (intros; rewrite elem_of_seqZ; lia).
  specialize (Hscan ltac:(intros k Hk; by apply elem_of_nil in Hk) ltac:(by left)).
  unfold zero_time. destruct (race_scan r now ready (seqZ 0 (r_n r)) 0) as [[[pos cand]|] w].
  - destruct Hscan as (pre & k & post & Hks & -> & -> & Hrd & Hpre).
    destruct (seqZ_split _ _ _ _ Hks) as [Hk Hpk].
    pose proof (Z.mod_pos_bound (r_cursor r + k) (r_n r) ltac:(lia)).
    rewrite (Z.rem_mod_nonneg (r_cursor r + k)) by lia. rewrite Z.rem_mod_nonneg by lia.
    rewrite Zplus_mod_idemp_l.
    pose proof (Z.mod_pos_bound (r_cursor r + k + 1) (r_n r) ltac:(lia)).
    split; [split_and!; cbn [r_order r_n r_cursor]; (done || lia)|].
    split_and!; try done. exists k. split_and!; try done; try lia.
    intros j Hj. apply Hpre, Hpk. lia.
  - destruct Hscan as (Hw & Hwk & Hall). split_and!; try done. right; right. split_and!; [done| |].
    + intros k Hk. apply Hall. by apply Hin.
    + destruct Hwk as [?|[? (k & Hk & ?)]]; [by left|]. right. split; [done|].
      exists k. split; [by apply Hin|done].
Qed.

(** Three calls: the first candidate starts at once, the second call waits for
    the stagger, the third skips a candidate that is not ready. *)
Lemma race_next_witness :
  let r := NewRace [7; 3; 5] 100 1 in
  let '(r1, (i1, _, _)) := Next r 10 0 (λ _, (true, 0)) in
  let '(r2, (i2, _, w2)) := Next r1 50 1 (λ _, (true, 0)) in
  let '(r3, (i3, _, _)) := Next r2 110 1 (λ i, (negb (i =? 3), 400)) in
  [i1; i2; w2; i3] = [7; -1; 110; 5] ∧ race_ok r1.
Proof.
  pose proof (race_next (NewRace [7; 3; 5] 100 1) 10 0 (λ _, (true, 0)) (NewRace_ok _ _ _) eq_refl) as H.
  split; [vm_compute; reflexivity|exact (proj1 H)].
Defined.
