(* ===== verification/SchedSelector.v ===== *)
(** The quality-switch rule of a selector session.

    Models internal/sched/selector.go: per-factory dwell clocks against one
    incumbent, the class, band and floor rules, the cooldown, and the wake-up
    time of an evaluation. *)

From Stdlib Require Import ZArith Lia SpecFloat.
From stdpp Require Import base numbers list sets.
From S2P Require Import Prelude GoTime SchedEvidence.

Open Scope Z_scope.

Definition maxFactories : Z := 16.

Record SelectorParams := mkSelectorParams {
  Band : float64; Floor : Duration; Dwell : Duration; Cooldown : Duration; Fresh : Duration
}.

Record Selector := mkSelector {
  s_p : SelectorParams;
  s_inc : Z;
  s_qual : Z;
  s_since : list Time;
  s_seen : list Time;
  s_lastQual : Time;
  s_hasQual : bool;
  s_class : list Z
}.

Definition NewSelector (p : SelectorParams) : Selector :=
  mkSelector p 0 0 (replicate 16 0) (replicate 16 0) 0 false (replicate 16 0).

(** [copy(s.class[:], c)] over a cleared array. *)
Definition SetClasses (s : Selector) (c : list Z) : Selector :=
  let kept := take (Z.to_nat maxFactories) c in
  mkSelector (s_p s) (s_inc s) (s_qual s) (s_since s) (s_seen s) (s_lastQual s) (s_hasQual s)
    (kept ++ replicate (Z.to_nat (maxFactories - len kept)) 0).

Record Verdict := mkVerdict { v_Switch : bool; v_To : Z; v_Wake : Time }.

Definition getZ {A} (l : list A) (i : Z) (d : A) : A := nth (Z.to_nat i) l d.
Definition nilSummary : Summary := mkSummary false 0 0 0 0.

Definition ageWake (s : Selector) (now : Time) (sum : list Summary) : Time :=
  fold_left (λ w x, earlier w (NextChange x now (Fresh (s_p s)))) sum zero_time.

Definition classOf (s : Selector) (i : Z) : Z :=
  if (i <? 0) || (maxFactories <=? i) then 0 else getZ (s_class s) i 0.

Definition qualifies (s : Selector) (act : Evidence) (actClass : Z) (ch : Evidence) (chClass : Z) : bool :=
  if actClass <? chClass then false
  else if chClass <? actClass then true
  else match State act with
       | EvFresh | EvHeld =>
           if RTT act <=? 0 then false
           else fle (f64 (RTT ch)) (fmul (f64 (RTT act)) (fsub (f64 1) (Band (s_p s)))) &&
                (Floor (s_p s) <=? i64 (RTT act - RTT ch))
       | _ => true
       end.

Definition challenger (s : Selector) (now : Time) (i : Z) (sum : list Summary) (failed : list bool)
    : Evidence * bool :=
  if (i <? len failed) && getZ failed i false then (mkEvidence EvUnknown 0, false)
  else
    let x := getZ sum i nilSummary in
    let ev := Classify x now (Fresh (s_p s)) in
    (ev, bool_decide (State ev = EvFresh) && (0 <? RTT ev) && negb (After (LoadedAt x) (At x))).

Definition gap (s : Selector) (i : Z) (at_ : Time) : bool :=
  Before at_ (getZ (s_seen s) i 0) ||
  After at_ (Add (getZ (s_seen s) i 0) (i64 (Fresh (s_p s) + 1))).

Definition set_qual (s : Selector) (q : Z) : Selector :=
  mkSelector (s_p s) (s_inc s) q (s_since s) (s_seen s) (s_lastQual s) (s_hasQual s) (s_class s).

(** A qualifying challenger: start its dwell at [now] when it was not
    qualifying or its evidence may have lapsed, then note its newest sample. *)
Definition touch (s : Selector) (now : Time) (i : Z) (at_ : Time) : Selector :=
  let bit := Z.shiftl 1 i in
  let s :=
    if (Z.land (s_qual s) bit =? 0) || gap s i at_
    then mkSelector (s_p s) (s_inc s) (Z.lor (s_qual s) bit) (<[Z.to_nat i := now]> (s_since s))
           (s_seen s) (s_lastQual s) (s_hasQual s) (s_class s)
    else s in
  mkSelector (s_p s) (s_inc s) (s_qual s) (s_since s) (<[Z.to_nat i := at_]> (s_seen s))
    (s_lastQual s) (s_hasQual s) (s_class s).

(** The variables of Evaluate's loop. *)
Record eval_acc := mkAcc { e_s : Selector; e_best : Z; e_rtt : Duration; e_dwellEnd : Time }.

Definition eval_step (now : Time) (active : Z) (act : Evidence) (actClass : Z) (sum : list Summary)
    (failed : list bool) (a : eval_acc) (i : Z) : eval_acc :=
  if i =? active then a
  else
    let s := e_s a in
    let bit := Z.shiftl 1 i in
    let '(ev, ok) := challenger s now i sum failed in
    if negb ok || negb (qualifies s act actClass ev (getZ (s_class s) i 0))
    then mkAcc (set_qual s (Z.ldiff (s_qual s) bit)) (e_best a) (e_rtt a) (e_dwellEnd a)
    else
      let x := getZ sum i nilSummary in
      let s := touch s now i (At x) in
      let end_ := Add (getZ (s_since s) i 0) (Dwell (s_p s)) in
      if Before now end_ then mkAcc s (e_best a) (e_rtt a) (earlier (e_dwellEnd a) end_)
      else
        let ci := getZ (s_class s) i 0 in
        let cb := getZ (s_class s) (e_best a) 0 in
        if (e_best a <? 0) || (ci <? cb) || ((ci =? cb) && (RTT ev <? e_rtt a))
        then mkAcc s i (RTT ev) (e_dwellEnd a)
        else mkAcc s (e_best a) (e_rtt a) (e_dwellEnd a).

(** The state the loop of Evaluate starts from. *)
Definition eval_start (s : Selector) (active : Z) (sum : list Summary) : Selector :=
  let n := Z.min (len sum) maxFactories in
  let s := if negb (active =? s_inc s)
           then mkSelector (s_p s) active 0 (s_since s) (s_seen s) (s_lastQual s) (s_hasQual s) (s_class s)
           else s in
  set_qual s (Z.land (s_qual s) (Z.shiftl 1 n - 1)).

Definition eval_loop (s : Selector) (now : Time) (active : Z) (sum : list Summary) (failed : list bool)
    : eval_acc :=
  let n := Z.min (len sum) maxFactories in
  let s1 := eval_start s active sum in
  let act := Classify (getZ sum active nilSummary) now (Fresh (s_p s1)) in
  fold_left (eval_step now active act (classOf s1 active) sum failed) (seqZ 0 n) (mkAcc s1 (-1) 0 0).

Definition Evaluate (s : Selector) (now : Time) (active : Z) (sum : list Summary) (failed : list bool)
    : Selector * Verdict :=
  let wake := ageWake s now sum in
  if (active <? 0) || (len sum <=? active) then (set_qual s 0, mkVerdict false 0 wake)
  else
    let a := eval_loop s now active sum failed in
    let s' := e_s a in
    if e_best a <? 0 then (s', mkVerdict false 0 (earlier wake (e_dwellEnd a)))
    else
      let end_ := Add (s_lastQual s') (Cooldown (s_p s')) in
      if s_hasQual s' && Before now end_ then (s', mkVerdict false 0 (earlier wake end_))
      else (s', mkVerdict true (e_best a) wake).

Definition Switched (s : Selector) (now : Time) (quality : bool) : Selector :=
  mkSelector (s_p s) (s_inc s) 0 (s_since s) (s_seen s) (if quality then now else s_lastQual s)
    (quality || s_hasQual s) (s_class s).

(** ** The loop, factory by factory *)

(** Factory [i] qualifies as a challenger of [active] at this instant: the
    parameters and classes of the selector and the inputs decide. *)
Definition qualified (p : SelectorParams) (cls : list Z) (now : Time) (active : Z) (sum : list Summary)
    (failed : list bool) (i : Z) : bool :=
  let s := mkSelector p 0 0 [] [] 0 false cls in
  let '(ev, ok) := challenger s now i sum failed in
  ok && qualifies s (Classify (getZ sum active nilSummary) now (Fresh p)) (classOf s active) ev
          (getZ cls i 0).

(** The fixed arrays have 16 entries and the mask only bits of factories. *)
Definition sel_ok (s : Selector) : Prop :=
  len (s_since s) = maxFactories ∧ len (s_seen s) = maxFactories ∧ len (s_class s) = maxFactories ∧
  0 ≤ s_qual s.

Definition bit (s : Selector) (i : Z) : bool := Z.testbit (s_qual s) i.
Definition since (s : Selector) (i : Z) : Time := getZ (s_since s) i 0.
Definition seen (s : Selector) (i : Z) : Time := getZ (s_seen s) i 0.

Lemma land_bit_zero q i : 0 ≤ i → (Z.land q (Z.shiftl 1 i) =? 0) = negb (Z.testbit q i).
Proof.
  intros Hi. rewrite Z.shiftl_1_l.
  assert (Z.land q (2 ^ i) = if Z.testbit q i then 2 ^ i else 0) as ->.
  { apply Z.bits_inj'. intros n Hn. rewrite Z.land_spec, Z.pow2_bits_eqb by lia.
    destruct (Z.eqb_spec i n) as [->|Hne].
    - rewrite andb_true_r. destruct (Z.testbit q n) eqn:E; [|by rewrite Z.bits_0].
      by rewrite Z.pow2_bits_true.
    - rewrite andb_false_r. destruct (Z.testbit q i); [|by rewrite Z.bits_0].
      by rewrite Z.pow2_bits_false. }
  destruct (Z.testbit q i); [|done]. assert (0 < 2 ^ i) by (apply Z.pow_pos_nonneg; lia).
  destruct (Z.eqb_spec (2 ^ i) 0); [lia|done].
Qed.

Lemma testbit_shiftl1 i j : 0 ≤ i → 0 ≤ j → Z.testbit (Z.shiftl 1 i) j = (i =? j).
Proof. intros. rewrite Z.shiftl_1_l. by apply Z.pow2_bits_eqb. Qed.

Lemma getZ_insert {A} (l : list A) i j v d :
  0 ≤ i < len l → 0 ≤ j → getZ (<[Z.to_nat i := v]> l) j d = if i =? j then v else getZ l j d.
Proof.
  intros Hi Hj. unfold getZ. destruct (Z.eqb_spec i j) as [->|Hne].
  - apply nth_lookup_Some. rewrite list_lookup_insert_eq; [done|]. unfold len in Hi. lia.
  - rewrite !nth_lookup, list_lookup_insert_ne by lia. done.
Qed.

Lemma touch_spec s now i at_ :
  sel_ok s → 0 ≤ i < maxFactories →
  let s' := touch s now i at_ in
  sel_ok s' ∧ s_p s' = s_p s ∧ s_inc s' = s_inc s ∧ s_lastQual s' = s_lastQual s ∧
  s_hasQual s' = s_hasQual s ∧ s_class s' = s_class s ∧
  (∀ j, 0 ≤ j → bit s' j = (j =? i) || bit s j) ∧
  (∀ j, 0 ≤ j → since s' j =
     if (j =? i) && negb (bit s i && negb (gap s i at_)) then now else since s j) ∧
  (∀ j, 0 ≤ j → seen s' j = if j =? i then at_ else seen s j).
Proof.
  intros (Hl1 & Hl2 & Hl3 & Hq) Hi. unfold touch. cbv zeta. rewrite land_bit_zero by lia.
  fold (bit s i). rewrite negb_andb, negb_involutive. unfold maxFactories in *.
  assert (∀ l : list Time, len l = 16 → ∀ j v, 0 ≤ j →
    getZ (<[Z.to_nat i := v]> l) j 0 = if j =? i then v else getZ l j 0) as Hget.
  { intros l Hl j v Hj. rewrite getZ_insert by lia. by rewrite Z.eqb_sym. }
  assert (∀ (l : list Time) v, len (<[Z.to_nat i := v]> l) = len l) as Hlen
    by (intros; unfold len; by rewrite length_insert).
  destruct (negb (bit s i) || gap s i at_) eqn:Hc; unfold sel_ok, bit, since, seen, maxFactories;
    cbn [s_p s_inc s_qual s_since s_seen s_lastQual s_hasQual s_class]; rewrite ?Hlen.
  - split_and!; try done.
    + apply Z.lor_nonneg. split; [done|]. rewrite Z.shiftl_1_l. lia.
    + intros j Hj. rewrite Z.lor_spec, testbit_shiftl1, orb_comm by lia. by rewrite Z.eqb_sym.
    + intros j Hj. rewrite Hget by done. by rewrite andb_true_r.
    + intros j Hj. by rewrite Hget.
  - apply orb_false_iff in Hc as [Hb _]. apply negb_false_iff in Hb. split_and!; try done.
    + intros j Hj. destruct (Z.eqb_spec j i) as [->|]; [exact Hb|done].
    + intros j Hj. by rewrite andb_false_r.
    + intros j Hj. by rewrite Hget.
Qed.

Section Eval.
Context (now : Time) (active : Z) (sum : list Summary) (failed : list bool) (s1 : Selector).
Context (Hs : sel_ok s1) (Hnow : 0 ≤ now).

Abbreviation p := (s_p s1).
Abbreviation act := (Classify (getZ sum active nilSummary) now (Fresh p)).
Definition evid (i : Z) : Evidence := Classify (getZ sum i nilSummary) now (Fresh p).
Definition Q (i : Z) : bool := qualified p (s_class s1) now active sum failed i.
Definition cls (i : Z) : Z := getZ (s_class s1) i 0.

(** The start of the dwell after this evaluation. *)
Definition since1 (i : Z) : Time :=
  if bit s1 i && negb (gap s1 i (At (getZ sum i nilSummary))) then since s1 i else now.
Definition complete (i : Z) : bool := Q i && negb (now <? since1 i + Dwell p).

(** [i] ranks before [j] among qualifying challengers. *)
Definition ranks_before (i j : Z) : Prop :=
  cls i < cls j ∨ cls i = cls j ∧ (RTT (evid i) < RTT (evid j) ∨ RTT (evid i) = RTT (evid j) ∧ i < j).

(** What the loop has established once the factories below [k] are done. *)
Record loop_inv (k : Z) (a : eval_acc) : Prop := {
  li_ok : sel_ok (e_s a);
  li_p : s_p (e_s a) = p;
  li_inc : s_inc (e_s a) = s_inc s1;
  li_last : s_lastQual (e_s a) = s_lastQual s1;
  li_has : s_hasQual (e_s a) = s_hasQual s1;
  li_class : s_class (e_s a) = s_class s1;
  li_bit j : 0 ≤ j → bit (e_s a) j = if (j <? k) && negb (j =? active) then Q j else bit s1 j;
  li_since j : 0 ≤ j →
    since (e_s a) j = if (j <? k) && negb (j =? active) && Q j then since1 j else since s1 j;
  li_seen j : 0 ≤ j →
    seen (e_s a) j = if (j <? k) && negb (j =? active) && Q j
                     then At (getZ sum j nilSummary) else seen s1 j;
  li_best : e_best a = -1 ∧ (∀ j, 0 ≤ j < k → j ≠ active → complete j = false) ∨
    0 ≤ e_best a < k ∧ e_best a ≠ active ∧ complete (e_best a) = true ∧ e_rtt a = RTT (evid (e_best a)) ∧
    (∀ j, 0 ≤ j < k → j ≠ active → complete j = true → j = e_best a ∨ ranks_before (e_best a) j);
  li_end0 : 0 ≤ e_dwellEnd a;
  li_end j : 0 ≤ j < k → j ≠ active → Q j = true → complete j = false →
    covers (e_dwellEnd a) (since1 j + Dwell p)
}.

Lemma challenger_ext a i :
  s_p (e_s a) = p → challenger (e_s a) now i sum failed =
  challenger (mkSelector p 0 0 [] [] 0 false (s_class s1)) now i sum failed.
Proof. intros Hp. unfold challenger. by rewrite Hp. Qed.

Lemma qualified_evid i : Q i = true →
  challenger (mkSelector p 0 0 [] [] 0 false (s_class s1)) now i sum failed = (evid i, true).
Proof.
  unfold Q, qualified, challenger, evid. destruct ((i <? len failed) && getZ failed i false); [done|].
  cbn [s_p]. case_bool_decide; cbn [andb]; [|done]. destruct (0 <? _); [|done]. cbn [andb].
  by destruct (negb _).
Qed.

Lemma eval_step_inv k a :
  0 ≤ k < maxFactories → loop_inv k a →
  loop_inv (k + 1) (eval_step now active act (classOf s1 active) sum failed a k).
Proof.
  intros Hk [Hok Hp Hinc Hlast Hhas Hcl Hbit Hsince Hseen Hbest He0 Hend].
  assert (∀ j, (j <? k + 1) = (j =? k) || (j <? k)) as Hlt.
  { intros j. destruct (Z.ltb_spec j (k + 1)), (Z.eqb_spec j k), (Z.ltb_spec j k); cbn; lia. }
  assert (∀ j, 0 ≤ j < k + 1 → j = k ∨ 0 ≤ j < k) as Hcase by lia.
  unfold eval_step. destruct (Z.eqb_spec k active) as [Hka|Hka].
  { split; try done.
    - intros j Hj. rewrite Hbit, Hlt by done. destruct (Z.eqb_spec j k) as [->|]; [|done].
      rewrite Hka, Z.eqb_refl. cbn. by rewrite andb_false_r.
    - intros j Hj. rewrite Hsince, Hlt by done. destruct (Z.eqb_spec j k) as [->|]; [|done].
      rewrite Hka, Z.eqb_refl. cbn. by rewrite andb_false_r.
    - intros j Hj. rewrite Hseen, Hlt by done. destruct (Z.eqb_spec j k) as [->|]; [|done].
      rewrite Hka, Z.eqb_refl. cbn. by rewrite andb_false_r.
    - destruct Hbest as [[Hb Hn]|(Hb & Hba & Hc & Hr & Hall)]; [left|right].
      + split; [done|]. intros j [->|Hj]%Hcase Hja; [done|auto].
      + split_and!; try done; try lia. intros j [->|Hj]%Hcase Hja; [done|auto].
    - intros j [->|Hj]%Hcase Hja; [done|auto]. }
  assert ((let '(ev, ok) := challenger (e_s a) now k sum failed in
     negb ok || negb (qualifies (e_s a) act (classOf s1 active) ev (getZ (s_class (e_s a)) k 0))) = negb (Q k)) as HQ.
  { rewrite challenger_ext by done. unfold Q, qualified.
    destruct (challenger _ now k sum failed) as [ev ok]. unfold qualifies. rewrite Hp, Hcl.
    cbn [s_p]. unfold classOf. cbn [s_class].
    rewrite negb_andb. done. }
  destruct (challenger (e_s a) now k sum failed) as [ev ok] eqn:Hch. rewrite HQ.
  pose proof Hok as (Hl1 & Hl2 & Hl3 & Hq0). unfold maxFactories in *.
  destruct (Q k) eqn:HQk; cbn [negb].
  - assert (ev = evid k) as ->.
    { pose proof (challenger_ext a k Hp) as He. rewrite Hch, qualified_evid in He by done.
      by injection He. }
    destruct (touch_spec (e_s a) now k (At (getZ sum k nilSummary)) Hok Hk)
      as (Hok' & Hp' & Hinc' & Hlast' & Hhas' & Hcl' & Hbit' & Hsince' & Hseen').
    set (s' := touch (e_s a) now k (At (getZ sum k nilSummary))) in *.
    assert (bit (e_s a) k = bit s1 k ∧ since (e_s a) k = since s1 k ∧
      gap (e_s a) k (At (getZ sum k nilSummary)) = gap s1 k (At (getZ sum k nilSummary)))
      as (Hbk & Hsk & Hgk).
    { rewrite Hbit, Hsince, Z.ltb_irrefl by lia. split_and!; try done.
      unfold gap. specialize (Hseen k ltac:(lia)). rewrite Z.ltb_irrefl in Hseen. cbn [andb] in Hseen.
      unfold seen in Hseen. by rewrite Hseen, Hp. }
    assert (since s' k = since1 k) as Hsk'.
    { rewrite Hsince', Z.eqb_refl, Hbk, Hgk, Hsk by lia. unfold since1. cbn [andb].
      by destruct (bit s1 k && negb _). }
    assert (∀ best rtt dend,
      (best = -1 ∧ (∀ j, 0 ≤ j < k + 1 → j ≠ active → complete j = false) ∨
       0 ≤ best < k + 1 ∧ best ≠ active ∧ complete best = true ∧ rtt = RTT (evid best) ∧
       (∀ j, 0 ≤ j < k + 1 → j ≠ active → complete j = true → j = best ∨ ranks_before best j)) →
      0 ≤ dend →
      (∀ j, 0 ≤ j < k + 1 → j ≠ active → Q j = true → complete j = false →
         covers dend (since1 j + Dwell p)) →
      loop_inv (k + 1) (mkAcc s' best rtt dend)) as Hbuild.
    { intros best rtt dend HB H0 HE.
      split; cbn [e_s e_best e_rtt e_dwellEnd]; try done; try congruence.
      - intros j Hj. rewrite Hbit', Hbit, Hlt by done. destruct (Z.eqb_spec j k) as [->|]; cbn [orb]; [|done].
        destruct (Z.eqb_spec k active); [done|]. by rewrite HQk.
      - intros j Hj. rewrite Hlt. destruct (Z.eqb_spec j k) as [->|Hne].
        + destruct (Z.eqb_spec k active); [done|]. rewrite HQk. exact Hsk'.
        + rewrite Hsince' by done. destruct (Z.eqb_spec j k); [done|]. by rewrite Hsince.
      - intros j Hj. rewrite Hlt. destruct (Z.eqb_spec j k) as [->|Hne].
        + destruct (Z.eqb_spec k active); [done|]. rewrite HQk, Hseen', Z.eqb_refl by done. done.
        + rewrite Hseen' by done. destruct (Z.eqb_spec j k); [done|]. by rewrite Hseen. }
    change (getZ (s_since s') k 0) with (since s' k). rewrite Hsk', Hp', Hp, Hcl', Hcl.
    fold (cls k) (cls (e_best a)). unfold Before, Add.
    assert (complete k = negb (now <? since1 k + Dwell p)) as Hck by (unfold complete; by rewrite HQk).
    destruct (Z.ltb_spec now (since1 k + Dwell p)) as [Hrun|Hdone]; cbn [negb] in Hck.
    + assert (0 ≤ since1 k + Dwell p) by lia.
      apply Hbuild; [|apply earlier_nonneg; lia|].
      * destruct Hbest as [[Hb Hn]|(Hb & Hba & Hc & Hr & Hall)]; [left|right].
        -- split; [done|]. intros j [->|Hj]%Hcase Hja; [done|auto].
        -- split_and!; try done; try lia. intros j [->|Hj]%Hcase Hja; [congruence|auto].
      * destruct (earlier_covers (e_dwellEnd a) (since1 k + Dwell p)) as [Hc1 Hc2]; [done|lia|].
        intros j [->|Hj]%Hcase Hja HQj Hcj; [done|].
        eapply covers_mono; [exact Hc1|]. by apply Hend.
    + assert (∀ j, 0 ≤ j < k + 1 → j ≠ active → Q j = true → complete j = false →
        covers (e_dwellEnd a) (since1 j + Dwell p)) as HE.
      { intros j [->|Hj]%Hcase Hja HQj Hcj; [congruence|]. by apply Hend. }
      destruct Hbest as [[Hb Hn]|(Hb & Hba & Hc & Hr & Hall)].
      * rewrite Hb. cbn [Z.ltb Z.compare orb]. apply Hbuild; try done. right.
        split_and!; try done; try lia. intros j [->|Hj]%Hcase Hja Hcj; [by left|].
        specialize (Hn j Hj Hja). congruence.
      * destruct (Z.ltb_spec (e_best a) 0); [lia|]. cbn [orb]. rewrite Hr.
        destruct ((cls k <? cls (e_best a)) ||
          ((cls k =? cls (e_best a)) && (RTT (evid k) <? RTT (evid (e_best a))))) eqn:Hbetter.
        -- assert (cls k < cls (e_best a) ∨
             cls k = cls (e_best a) ∧ RTT (evid k) < RTT (evid (e_best a))) as Hbt by lia.
           apply Hbuild; try done. right. split_and!; try done; try lia.
           intros j [->|Hj]%Hcase Hja Hcj; [by left|]. right. unfold ranks_before in *.
           destruct (Hall j Hj Hja Hcj) as [->|Hrb]; lia.
        -- assert (cls (e_best a) < cls k ∨
             cls k = cls (e_best a) ∧ RTT (evid (e_best a)) ≤ RTT (evid k)) as Hbt by lia.
           apply Hbuild; try done. right. split_and!; try done; try lia.
           intros j [->|Hj]%Hcase Hja Hcj; [|auto]. right. unfold ranks_before. lia.
  - split; cbn [e_s e_best e_rtt e_dwellEnd set_qual s_p s_inc s_lastQual s_hasQual s_class]; try done.
    + split_and!; cbn; try done. apply Z.ldiff_nonneg. lia.
    + intros j Hj. unfold bit. cbn [set_qual s_qual]. rewrite Z.ldiff_spec, testbit_shiftl1 by lia.
      specialize (Hbit j Hj). unfold bit in Hbit. rewrite Hbit, Hlt, (Z.eqb_sym k j).
      destruct (Z.eqb_spec j k) as [->|]; cbn; [|by rewrite andb_true_r].
      rewrite andb_false_r. destruct (Z.eqb_spec k active); [done|]. by rewrite HQk.
    + intros j Hj. etrans; [exact (Hsince j Hj)|]. rewrite Hlt. destruct (Z.eqb_spec j k) as [->|]; [|done].
      rewrite HQk, !andb_false_r. done.
    + intros j Hj. etrans; [exact (Hseen j Hj)|]. rewrite Hlt. destruct (Z.eqb_spec j k) as [->|]; [|done].
      rewrite HQk, !andb_false_r. done.
    + assert (complete k = false) as Hck by (unfold complete; by rewrite HQk).
      destruct Hbest as [[Hb Hn]|(Hb & Hba & Hc & Hr & Hall)]; [left|right].
      * split; [done|]. intros j [->|Hj]%Hcase Hja; [done|auto].
      * split_and!; try done; try lia. intros j [->|Hj]%Hcase Hja; [congruence|auto].
    + intros j [->|Hj]%Hcase Hja; [congruence|auto].
Qed.
End Eval.

Lemma eval_start_fields s active sum :
  let s1 := eval_start s active sum in
  s_p s1 = s_p s ∧ s_inc s1 = active ∧ s_since s1 = s_since s ∧ s_seen s1 = s_seen s ∧
  s_lastQual s1 = s_lastQual s ∧ s_hasQual s1 = s_hasQual s ∧ s_class s1 = s_class s.
Proof.
  unfold eval_start. destruct (Z.eqb_spec active (s_inc s)); cbv zeta;
    cbn [negb set_qual s_p s_inc s_since s_seen s_lastQual s_hasQual s_class]; by split_and!.
Qed.

(** The dwell clocks an evaluation starts from: none against a new incumbent,
    none of a factory that is gone. *)
Lemma eval_start_bit s active sum i :
  0 ≤ i → bit (eval_start s active sum) i =
    (active =? s_inc s) && (i <? Z.min (len sum) maxFactories) && bit s i.
Proof.
  intros Hi. pose proof (len_nonneg sum). unfold eval_start, bit, maxFactories.
  assert (Z.testbit (Z.shiftl 1 (Z.min (len sum) 16) - 1) i = (i <? Z.min (len sum) 16)) as Hm.
  { replace (Z.shiftl 1 (Z.min (len sum) 16) - 1) with (Z.ones (Z.min (len sum) 16))
      by (rewrite Z.ones_equiv, Z.shiftl_1_l; lia).
    destruct (Z.ltb_spec i (Z.min (len sum) 16)).
    - apply Z.ones_spec_low. lia.
    - apply Z.ones_spec_high. lia. }
  destruct (Z.eqb_spec active (s_inc s)); cbn [negb set_qual s_qual]; rewrite Z.land_spec, Hm.
  - cbn [andb]. apply andb_comm.
  - by rewrite Z.bits_0.
Qed.

Lemma eval_start_ok s active sum : sel_ok s → sel_ok (eval_start s active sum).
Proof.
  intros (H1 & H2 & H3 & H4). destruct (eval_start_fields s active sum) as (_ & _ & E1 & E2 & _ & _ & E3).
  unfold sel_ok. rewrite E1, E2, E3. split_and!; try done.
  unfold eval_start. destruct (negb _); cbn [set_qual s_qual]; apply Z.land_nonneg; lia.
Qed.

Lemma eval_loop_inv s now active sum failed :
  sel_ok s → 0 ≤ now →
  loop_inv now active sum failed (eval_start s active sum) (Z.min (len sum) maxFactories)
    (eval_loop s now active sum failed).
Proof.
  intros Hs Hn. set (s1 := eval_start s active sum).
  pose proof (eval_start_ok s active sum Hs) as Hs1. fold s1 in Hs1.
  assert (∀ k : nat, Z.of_nat k ≤ maxFactories →
    loop_inv now active sum failed s1 (Z.of_nat k)
      (fold_left (eval_step now active (Classify (getZ sum active nilSummary) now (Fresh (s_p s1)))
         (classOf s1 active) sum failed) (seqZ 0 (Z.of_nat k)) (mkAcc s1 (-1) 0 0))) as Hk.
  { induction k as [|k IH]; intros Hk.
    - change (Z.of_nat 0) with 0. change (seqZ 0 0) with (@nil Z). cbn [fold_left].
      split; cbn [e_s e_best e_rtt e_dwellEnd]; try done.
      + intros j Hj. destruct (Z.ltb_spec j 0); [lia|done].
      + intros j Hj. destruct (Z.ltb_spec j 0); [lia|done].
      + intros j Hj. destruct (Z.ltb_spec j 0); [lia|done].
      + left. split; [done|]. intros j Hj. lia.
      + intros j Hj. lia.
    - replace (Z.of_nat (S k)) with (Z.of_nat k + 1) by lia.
      rewrite seqZ_snoc, fold_left_app by lia. cbn [fold_left]. rewrite Z.add_0_l.
      apply eval_step_inv; try done; [lia|]. apply IH. lia. }
  specialize (Hk (Z.to_nat (Z.min (len sum) maxFactories))). pose proof (len_nonneg sum).
  unfold maxFactories in *. rewrite Z2Nat.id in Hk by lia. apply Hk. lia.
Qed.

(** What [qualified] demands. *)
Lemma qualified_meaning p cls now active sum failed i :
  0 ≤ i → qualified p cls now active sum failed i = true →
  let ev := Classify (getZ sum i nilSummary) now (Fresh p) in
  State ev = EvFresh ∧ 0 < RTT ev ∧ LoadedAt (getZ sum i nilSummary) ≤ At (getZ sum i nilSummary) ∧
  getZ failed i false = false ∧
  getZ cls i 0 ≤ classOf (mkSelector p 0 0 [] [] 0 false cls) active.
Proof.
  intros Hi. unfold qualified, challenger. cbn [s_p].
  destruct ((i <? len failed) && getZ failed i false) eqn:Hf; [done|].
  case_bool_decide as Hev; cbn [andb]; [|done].
  destruct (Z.ltb_spec 0 (RTT (Classify (getZ sum i nilSummary) now (Fresh p)))); cbn [andb]; [|done].
  unfold After. destruct (Z.ltb_spec (At (getZ sum i nilSummary)) (LoadedAt (getZ sum i nilSummary)));
    cbn [negb andb]; [done|].
  unfold qualifies. destruct (Z.ltb_spec (classOf (mkSelector p 0 0 [] [] 0 false cls) active) (getZ cls i 0));
    [done|]. intros _. split_and!; try done.
  destruct (Z.ltb_spec i (len failed)); cbn [andb] in Hf; [done|].
  unfold getZ. apply nth_overflow. unfold len in *. lia.
Qed.

(** A switch verdict names the loop's best challenger, whose dwell is complete. *)
Lemma Evaluate_switch s now active sum failed s' v :
  sel_ok s → 0 ≤ now → Evaluate s now active sum failed = (s', v) → v_Switch v = true →
  let n := Z.min (len sum) maxFactories in
  let j := v_To v in
  let p := s_p s in
  let qual i := qualified p (s_class s) now active sum failed i in
  0 ≤ j < n ∧ j ≠ active ∧ qual j = true ∧ bit s' j = true ∧ since s' j + Dwell p ≤ now ∧
  s_inc s' = active ∧
  (s_hasQual s = true → s_lastQual s + Cooldown p ≤ now) ∧
  (∀ i, 0 ≤ i < n → i ≠ active → qual i = true → since s' i + Dwell p ≤ now →
     i = j ∨ ranks_before now sum (eval_start s active sum) j i).
Proof.
  intros Hs Hn He Hv. unfold Evaluate in He.
  destruct ((active <? 0) || (len sum <=? active)); [injection He as <- <-; done|].
  destruct (eval_start_fields s active sum) as (Ep & Ei & _ & _ & El & Eh & Ec).
  pose proof (eval_loop_inv s now active sum failed Hs Hn)
    as [Lok Lp Linc Llast Lhas Lcl Lbit Lsince Lseen Lbest _ _].
  set (a := eval_loop s now active sum failed) in *. set (s1 := eval_start s active sum) in *.
  rewrite Lp, Llast, Lhas, Ep, El, Eh in He.
  destruct (Z.ltb_spec (e_best a) 0); [injection He as <- <-; done|].
  destruct (s_hasQual s && Before now (Add (s_lastQual s) (Cooldown (s_p s)))) eqn:Hcool;
    [injection He as <- <-; done|].
  injection He as <- <-. cbn [v_To].
  destruct Lbest as [[Hb _]|(Hb & Hba & Hc & _ & Hall)]; [lia|].
  unfold complete, Q in Hc. rewrite Ep, Ec in Hc. apply andb_true_iff in Hc as [HQ Hc].
  apply negb_true_iff, Z.ltb_ge in Hc.
  assert (∀ i, 0 ≤ i < Z.min (len sum) maxFactories → i ≠ active →
    qualified (s_p s) (s_class s) now active sum failed i = true →
    since (e_s a) i = since1 now sum s1 i ∧ bit (e_s a) i = true) as Hsi.
  { intros i Hi Hia HQi. rewrite Lsince, Lbit by lia. unfold Q. rewrite Ep, Ec, HQi.
    destruct (Z.ltb_spec i (Z.min (len sum) maxFactories)), (Z.eqb_spec i active); (done || lia). }
  destruct (Hsi (e_best a)) as [Hs1 Hb1]; [done|done|done|].
  split; [done|]. split_and!; try done; try congruence; try lia.
  - intros Hh. rewrite Hh in Hcool. cbn in Hcool. unfold Before, Add in Hcool. lia.
  - intros i Hi Hia HQi Hd. destruct (Hsi i) as [Hs2 _]; [done|done|done|]. rewrite Hs2 in Hd.
    apply (Hall i Hi Hia). unfold complete, Q. rewrite Ep, Ec, HQi. cbn [andb].
    apply negb_true_iff, Z.ltb_ge. lia.
Qed.

(** ** Properties *)


Definition sel_demo : Selector :=
  NewSelector (mkSelectorParams (fdiv (f64 1) (f64 4)) 5 100 1000 500).
Definition sum_demo (t : Time) : list Summary := [mkSummary true 90 4 t 0; mkSummary true 30 4 t 0].


(** *** The dwell over a history of calls *)

Inductive sel_event :=
| SEval (now : Time) (active : Z) (sum : list Summary) (failed : list bool)
| SSwitched (now : Time) (quality : bool).

Definition sel_exec1 (s : Selector) (e : sel_event) : Selector :=
  match e with
  | SEval now active sum failed => (Evaluate s now active sum failed).1
  | SSwitched now quality => Switched s now quality
  end.

Definition sel_exec (s : Selector) (h : list sel_event) : Selector := fold_left sel_exec1 h s.

Definition event_time (e : sel_event) : Time :=
  match e with SEval now _ _ _ => now | SSwitched now _ => now end.

(** An evaluation against incumbent [inc] at which factory [i] qualified. *)
Definition qualifying (p : SelectorParams) (cls : list Z) (inc i : Z) (e : sel_event) : Prop :=
  match e with
  | SEval now active sum failed => active = inc ∧ qualified p cls now active sum failed i = true
  | SSwitched _ _ => False
  end.

(** The history ends with an uninterrupted run of such evaluations, the first
    of them at [t0]. *)
Definition run_since (p : SelectorParams) (cls : list Z) (inc i t0 : Z) (h : list sel_event) : Prop :=
  ∃ h1 e run, h = h1 ++ e :: run ∧ event_time e = t0 ∧
    Forall (qualifying p cls inc i) (e :: run).

Definition sel_inv (p : SelectorParams) (cls : list Z) (s : Selector) (h : list sel_event) : Prop :=
  sel_ok s ∧ s_p s = p ∧ s_class s = cls ∧ (0 ≤ s_inc s → bit s (s_inc s) = false) ∧
  ∀ i, 0 ≤ i → bit s i = true → run_since p cls (s_inc s) i (since s i) h.

Lemma run_since_snoc p cls inc i t0 h e :
  run_since p cls inc i t0 h → qualifying p cls inc i e → run_since p cls inc i t0 (h ++ [e]).
Proof.
  intros (h1 & e0 & run & -> & Ht & HF) He. exists h1, e0, (run ++ [e]).
  rewrite <- app_assoc. split_and!; try done. rewrite app_comm_cons. apply Forall_app_2; [done|].
  by constructor.
Qed.

Lemma sel_inv_clear p cls s h h' :
  sel_inv p cls s h → sel_inv p cls (set_qual s 0) h'.
Proof.
  intros ((H1 & H2 & H3 & _) & Hp & Hc & _).
  assert (∀ i, bit (set_qual s 0) i = false) as Hz by (intros; apply Z.bits_0).
  split_and!; try done. intros i Hi. by rewrite Hz.
Qed.

Lemma sel_inv_eval p cls s h now active sum failed :
  sel_inv p cls s h → 0 ≤ now → (active <? 0) || (len sum <=? active) = false →
  sel_inv p cls (e_s (eval_loop s now active sum failed)) (h ++ [SEval now active sum failed]).
Proof.
  intros (Hok & Hp & Hc & Hinc & Hrun) Hn Ha. apply orb_false_iff in Ha as [Ha1 Ha2].
  apply Z.ltb_ge in Ha1. apply Z.leb_gt in Ha2.
  destruct (eval_start_fields s active sum) as (Ep & Ei & Es & _ & _ & _ & Ec).
  pose proof (eval_loop_inv s now active sum failed Hok Hn) as [Lok Lp Linc _ _ Lcl Lbit Lsince _ _ _ _].
  set (a := eval_loop s now active sum failed) in *. set (s1 := eval_start s active sum) in *.
  assert (∀ i, 0 ≤ i → bit s1 i = true → active = s_inc s ∧ bit s i = true ∧ i < Z.min (len sum) maxFactories)
    as Hb1.
  { intros i Hi Hb. unfold s1 in Hb. rewrite eval_start_bit in Hb by done.
    apply andb_true_iff in Hb as [Hb Hb3]. apply andb_true_iff in Hb as [Hb1 Hb2].
    apply Z.eqb_eq in Hb1. apply Z.ltb_lt in Hb2. done. }
  assert (bit s1 active = false) as Hbact.
  { destruct (bit s1 active) eqn:E; [|done]. destruct (Hb1 active Ha1 E) as (E1 & E2 & _).
    rewrite E1, Hinc in E2 by lia. done. }
  split_and!; [done|congruence|congruence| |].
  - rewrite Linc, Ei, Lbit by lia. rewrite Z.eqb_refl, andb_false_r. done.
  - intros i Hi Hb. rewrite Linc, Ei. rewrite Lbit in Hb by done.
    destruct (Z.ltb_spec i (Z.min (len sum) maxFactories)) as [Hlt|Hge]; cbn [andb] in Hb.
    2:{ apply Hb1 in Hb; [lia|done]. }
    destruct (Z.eqb_spec i active) as [->|Hia]; cbn [negb] in Hb; [congruence|].
    rewrite Lsince by done. destruct (Z.ltb_spec i (Z.min (len sum) maxFactories)); [|lia].
    destruct (Z.eqb_spec i active); [done|]. rewrite Hb. cbn [andb negb]. unfold since1.
    unfold Q in Hb. rewrite Ep, Hp, Ec, Hc in Hb.
    destruct (bit s1 i && negb (gap s1 i (At (getZ sum i nilSummary)))) eqn:Hk.
    + apply andb_true_iff in Hk as [Hk _]. destruct (Hb1 i Hi Hk) as (E1 & E2 & _).
      apply run_since_snoc; [|done]. unfold since. rewrite Es. rewrite E1. by apply Hrun.
    + exists h, (SEval now active sum failed), []. split_and!; try done. by constructor.
Qed.

Lemma sel_exec1_inv p cls s h e :
  sel_inv p cls s h → 0 ≤ event_time e → sel_inv p cls (sel_exec1 s e) (h ++ [e]).
Proof.
  intros HI Hn. destruct e as [now active sum failed|now quality]; cbn [sel_exec1 event_time] in *.
  - unfold Evaluate. destruct ((active <? 0) || (len sum <=? active)) eqn:Ha.
    + by apply (sel_inv_clear p cls s h).
    + pose proof (sel_inv_eval p cls s h now active sum failed HI Hn Ha) as HI'.
      by repeat case_match.
  - destruct HI as ((H1 & H2 & H3 & _) & Hp & Hc & _).
    assert (∀ i, bit (Switched s now quality) i = false) as Hz by (intros; apply Z.bits_0).
    split_and!; try done. intros i Hi. by rewrite Hz.
Qed.

Lemma sel_exec_inv p cls h : ∀ s h0,
  sel_inv p cls s h0 → Forall (λ e, 0 ≤ event_time e) h → sel_inv p cls (sel_exec s h) (h0 ++ h).
Proof.
  induction h as [|e h IH]; intros s h0 HI HF; cbn [sel_exec fold_left]; [by rewrite app_nil_r|].
  apply Forall_cons in HF as [He HF]. replace (h0 ++ e :: h) with ((h0 ++ [e]) ++ h) by (by rewrite <- app_assoc).
  apply IH; [|done]. by apply sel_exec1_inv.
Qed.

Lemma NewSelector_inv p c : sel_inv p (s_class (SetClasses (NewSelector p) c)) (SetClasses (NewSelector p) c) [].
Proof.
  assert (∀ i, bit (SetClasses (NewSelector p) c) i = false) as Hz by (intros; apply Z.bits_0).
  split; [|split_and!; try done; intros i Hi; by rewrite Hz].
  split; [done|]. split; [done|]. split; [|done].
  unfold SetClasses, maxFactories. cbn [s_class]. rewrite len_app, len_replicate.
  assert (len (take (Z.to_nat 16) c) ≤ 16) by (rewrite len_take; lia). lia.
Qed.

(** C20. The dwell is continuous: over any history of evaluations and recorded
    switches of a session's selector, a switch to factory j at time t happens
    only at the end of an uninterrupted run of evaluations, all against the
    same active factory, at every one of which j qualified, the first at least
    Dwell before t.  A switch of any kind and a change of the active factory
    break the run. *)
Theorem selector_dwell p c h now active sum failed :
  let s0 := SetClasses (NewSelector p) c in
  let h' := h ++ [SEval now active sum failed] in
  let v := (Evaluate (sel_exec s0 h) now active sum failed).2 in
  Forall (λ e, 0 ≤ event_time e) h' → v_Switch v = true →
  ∃ t0, t0 + Dwell p ≤ now ∧ run_since p (s_class s0) active (v_To v) t0 h'.
Proof.
  intros s0 h' v HF Hv. apply Forall_app in HF as HF'. destruct HF' as [HFh HFl].
  assert (0 ≤ now) as Hn by (by apply Forall_cons in HFl as [? _]).
  pose proof (NewSelector_inv p c) as HI0. fold s0 in HI0.
  pose proof (sel_exec_inv p (s_class s0) h s0 [] HI0 HFh) as HI.
  pose proof (sel_exec1_inv _ _ _ _ (SEval now active sum failed) HI Hn) as HI'.
  cbn [sel_exec1] in HI'. destruct (Evaluate (sel_exec s0 h) now active sum failed) as [s' v'] eqn:He.
  subst v. cbn [fst snd] in *. destruct HI as (Hok & Hp & _). destruct HI' as (_ & _ & _ & _ & Hrun).
  destruct (Evaluate_switch _ _ _ _ _ _ _ Hok Hn He Hv) as (Hj & Hja & _ & Hb & Hd & Hinc & _).
  rewrite Hp in Hd. exists (since s' (v_To v')). split; [done|]. rewrite <- Hinc. apply Hrun; [lia|done].
Qed.

Lemma selector_dwell_witness :
  ∃ t0, t0 + 100 ≤ 1100 ∧
    run_since (s_p sel_demo) (replicate 16 0) 0 1 t0
      [SEval 900 1 (sum_demo 890) []; SEval 1000 0 (sum_demo 990) []; SEval 1100 0 (sum_demo 1090) []].
Proof.
  apply (selector_dwell (s_p sel_demo) [] [SEval 900 1 (sum_demo 890) []; SEval 1000 0 (sum_demo 990) []]
    1100 0 (sum_demo 1090) []).
  - repeat (constructor; [vm_compute; discriminate|]). constructor.
  - vm_compute. reflexivity.
Defined.

(** *** The wake-up time *)

Lemma ageWake_covers s now sum :
  Forall summary_times sum → 0 ≤ Fresh (s_p s) →
  0 ≤ ageWake s now sum ∧
  ∀ x, x ∈ sum → covers (ageWake s now sum) (NextChange x now (Fresh (s_p s))).
Proof.
  intros HF Hfr. unfold ageWake, zero_time.
  assert (∀ x, x ∈ sum → 0 ≤ NextChange x now (Fresh (s_p s))) as Hnn.
  { intros x Hx. rewrite Forall_forall in HF. by apply NextChange_nonneg; [apply HF|]. }
  clear HF. assert (∀ l w, 0 ≤ w → (∀ x, x ∈ l → 0 ≤ NextChange x now (Fresh (s_p s))) →
    let r := fold_left (λ w x, earlier w (NextChange x now (Fresh (s_p s)))) l w in
    0 ≤ r ∧ covers r w ∧ ∀ x, x ∈ l → covers r (NextChange x now (Fresh (s_p s)))) as Hg.
  { induction l as [|y l IH]; intros w Hw Hl; cbn [fold_left].
    - split_and!; [done| |]; [by intros ?|]. intros x Hx. by apply elem_of_nil in Hx.
    - pose proof (Hl y ltac:(set_solver)) as Hy.
      destruct (earlier_covers w (NextChange y now (Fresh (s_p s))) Hw Hy) as [C1 C2].
      destruct (IH (earlier w (NextChange y now (Fresh (s_p s))))) as (H0 & Hc & Hall);
        [by apply earlier_nonneg|set_solver|].
      split_and!; [done|by eapply covers_mono|]. intros x [->|Hx]%elem_of_cons; [by eapply covers_mono|auto]. }
  destruct (Hg sum 0 ltac:(lia) Hnn) as (H0 & _ & Hall). done.
Qed.

(** Up to the ageing wake-up no factory's evidence changes. *)
Lemma Classify_stable s now z sum x :
  Forall summary_times sum → 0 ≤ Fresh (s_p s) < MaxInt64 → 0 ≤ now ≤ z →
  (ageWake s now sum = 0 ∨ z < ageWake s now sum) → x ∈ sum →
  Classify x z (Fresh (s_p s)) = Classify x now (Fresh (s_p s)).
Proof.
  intros HF Hfr Hz Hw Hx. destruct (ageWake_covers s now sum HF ltac:(lia)) as [H0 Hc].
  specialize (Hc x Hx). rewrite Forall_forall in HF. specialize (HF x Hx).
  destruct (NextChange_exact x now (Fresh (s_p s)) HF Hfr) as [[Hr Hall]|(Hlt & _ & Hall)].
  - apply Hall. lia.
  - apply Hall. unfold covers in Hc. lia.
Qed.

Lemma qualified_stable p cls now z active sum failed i :
  0 ≤ i < len sum → 0 ≤ active < len sum →
  (∀ x, x ∈ sum → Classify x z (Fresh p) = Classify x now (Fresh p)) →
  qualified p cls z active sum failed i = qualified p cls now active sum failed i.
Proof.
  intros Hi Ha Hst.
  assert (∀ k, 0 ≤ k < len sum → Classify (getZ sum k nilSummary) z (Fresh p) =
    Classify (getZ sum k nilSummary) now (Fresh p)) as Hk.
  { intros k Hk. apply Hst. unfold getZ. apply list_elem_of_In, nth_In. unfold len in Hk. lia. }
  unfold qualified, challenger. cbn [s_p]. by rewrite !Hk.
Qed.

(** An evaluation with the same newest sample keeps the dwell clock of a
    qualifying factory. *)
Lemma dwell_kept s z active sum failed s' v j :
  sel_ok s → 0 ≤ z → Evaluate s z active sum failed = (s', v) → v_Switch v = true →
  0 ≤ j < Z.min (len sum) maxFactories → s_inc s = active → bit s j = true →
  seen s j = At (getZ sum j nilSummary) → 0 ≤ Fresh (s_p s) < MaxInt64 - 1 →
  since s' j = since s j.
Proof.
  intros Hs Hz He Hv Hj Hinc Hb Hseen Hfr.
  destruct (eval_start_fields s active sum) as (Ep & _ & Es & Esn & _ & _ & _).
  pose proof (eval_loop_inv s z active sum failed Hs Hz) as [_ _ _ _ _ _ _ Lsince _ _ _ _].
  assert (s' = e_s (eval_loop s z active sum failed)) as ->.
  { unfold Evaluate in He. repeat case_match; injection He as <- <-; done. }
  rewrite Lsince by lia. case_match; [|unfold since; by rewrite Es].
  unfold since1. rewrite eval_start_bit, Hinc, Z.eqb_refl, Hb by lia.
  destruct (Z.ltb_spec j (Z.min (len sum) maxFactories)); [|lia]. cbn [andb].
  unfold gap, Before, After, Add. rewrite Esn, Ep. unfold seen in Hseen. rewrite Hseen.
  rewrite i64_small by (unfold is_i64, MinInt64, MaxInt64 in *; lia).
  destruct (Z.ltb_spec (At (getZ sum j nilSummary)) (At (getZ sum j nilSummary))); [lia|].
  destruct (Z.ltb_spec (At (getZ sum j nilSummary) + (Fresh (s_p s) + 1)) (At (getZ sum j nilSummary))); [lia|].
  cbn [orb negb andb]. unfold since. by rewrite Es.
Qed.

(** C21. The wake-up of an evaluation that does not switch is early enough: as long
    as the evidence inputs stay the same, an evaluation at any instant before
    Wake (at any instant at all when Wake is zero) does not switch either, so a
    caller that re-evaluates on new evidence and at Wake misses no switch. *)
Theorem selector_wake_sound s now active sum failed s' v z :
  sel_ok s → 0 ≤ now → 0 ≤ active < len sum → Forall summary_times sum →
  0 ≤ Fresh (s_p s) < MaxInt64 - 1 →
  Evaluate s now active sum failed = (s', v) → v_Switch v = false →
  now ≤ z → (v_Wake v = 0 ∨ z < v_Wake v) →
  v_Switch (Evaluate s' z active sum failed).2 = false.
Proof.
  intros Hs Hn Ha HF Hfr He Hv Hz Hw.
  destruct (v_Switch (Evaluate s' z active sum failed).2) eqn:Hsw; [|done]. exfalso.
  destruct (Evaluate s' z active sum failed) as [s2 v2] eqn:He2. cbn [snd] in Hsw.
  assert ((active <? 0) || (len sum <=? active) = false) as Hrange by lia.
  destruct (eval_start_fields s active sum) as (Ep & Ei & _ & _ & El & Eh & Ec).
  pose proof (eval_loop_inv s now active sum failed Hs Hn)
    as [Lok Lp Linc Llast Lhas Lcl Lbit Lsince Lseen Lbest Le0 Lend].
  unfold Evaluate in He. rewrite Hrange in He.
  set (a := eval_loop s now active sum failed) in *. set (s1 := eval_start s active sum) in *.
  destruct (ageWake_covers s now sum HF ltac:(lia)) as [Hw0 _].
  assert (s' = e_s a ∧ (ageWake s now sum = 0 ∨ z < ageWake s now sum) ∧
    ((e_best a < 0 ∧ (e_dwellEnd a = 0 ∨ z < e_dwellEnd a)) ∨
     (s_hasQual s = true ∧ z < s_lastQual s + Cooldown (s_p s)))) as (-> & Hage & Hwhy).
  { rewrite Lp, Llast, Lhas, Ep, El, Eh in He. destruct (Z.ltb_spec (e_best a) 0).
    - injection He as <- <-. cbn [v_Wake] in Hw.
      destruct (earlier_covers (ageWake s now sum) (e_dwellEnd a) Hw0 Le0) as [C1 C2].
      unfold covers in C1, C2. split; [done|]. split; [lia|]. left. split; [done|]. lia.
    - unfold Before, Add in He. destruct (s_hasQual s); cbn [andb] in He; [|injection He as <- <-; done].
      destruct (Z.ltb_spec now (s_lastQual s + Cooldown (s_p s))); injection He as <- <-; [|done].
      cbn [v_Wake] in Hw.
      destruct (earlier_covers (ageWake s now sum) (s_lastQual s + Cooldown (s_p s)) Hw0 ltac:(lia)) as [C1 C2].
      unfold covers in C1, C2. split; [done|]. split; [lia|]. right. split; [done|]. lia. }
  assert (0 ≤ z) as Hz0 by lia.
  destruct (Evaluate_switch _ _ _ _ _ _ _ Lok Hz0 He2 Hsw) as (Hj & Hja & HQ & _ & Hd & _ & Hcool & _).
  rewrite Lp, Ep, Lhas, Eh, Llast, El in *.
  destruct Hwhy as [[Hb Hdw]|[Hh Hlt]]; [|specialize (Hcool Hh); lia].
  destruct Lbest as [[_ Hnone]|(? & _)]; [|lia].
  set (j := v_To v2) in *.
  assert (Q now active sum failed s1 j = true) as HQn.
  { unfold Q. rewrite Ep, Ec. rewrite Lcl, Ec in HQ.
    rewrite <- (qualified_stable (s_p s) (s_class s) now z active sum failed j); [done|lia|done|].
    intros x Hx. apply (Classify_stable s now z sum x); (done || lia). }
  assert (j < Z.min (len sum) maxFactories) as Hjn by lia.
  pose proof (Hnone j ltac:(lia) Hja) as Hnc.
  pose proof (Lend j ltac:(lia) Hja HQn Hnc) as Hcov.
  unfold complete in Hnc. rewrite HQn in Hnc. cbn [andb] in Hnc. apply negb_false_iff, Z.ltb_lt in Hnc.
  assert ((j <? Z.min (len sum) maxFactories) && negb (j =? active) = true) as Hjb.
  { destruct (Z.ltb_spec j (Z.min (len sum) maxFactories)), (Z.eqb_spec j active); (done || lia). }
  assert (since s2 j = since1 now sum s1 j) as Hsj.
  { etrans; [apply (dwell_kept (e_s a) z active sum failed s2 v2 j Lok Hz0 He2 Hsw); try lia|].
    - rewrite Lbit by lia. by rewrite Hjb.
    - rewrite Lseen by lia. by rewrite Hjb, HQn.
    - by rewrite Lp.
    - rewrite Lsince by lia. by rewrite Hjb, HQn. }
  rewrite Ep in Hnc. rewrite Hsj in Hd. unfold covers in Hcov. lia.
Qed.

Lemma selector_wake_sound_witness :
  let s1 := (Evaluate sel_demo 1000 0 (sum_demo 990) []).1 in
  let v1 := (Evaluate sel_demo 1000 0 (sum_demo 990) []).2 in
  v_Wake v1 = 1100 ∧ v_Switch (Evaluate s1 1099 0 (sum_demo 990) []).2 = false.
Proof.
  split; [vm_compute; reflexivity|].
  apply (selector_wake_sound sel_demo 1000 0 (sum_demo 990) []
    (Evaluate sel_demo 1000 0 (sum_demo 990) []).1 (Evaluate sel_demo 1000 0 (sum_demo 990) []).2 1099).
  - vm_compute. repeat split; discriminate.
  - discriminate.
  - split; [discriminate|reflexivity].
  - repeat constructor; vm_compute; discriminate.
  - split; vm_compute; [discriminate|reflexivity].
  - apply surjective_pairing.
  - vm_compute. reflexivity.
  - discriminate.
  - right. vm_compute. reflexivity.
Defined.
