(* ===== verification/CarrierBuf.v ===== *)
(** * Buffer size classes and the byte budget

    src/internal/carrier/buf.go: the size-class layouts of the stream and the
    datagram pool and the [Budget] account.  A buffer is charged with its
    class capacity; [class] picks the smallest class that holds the request.
    The account is one atomic counter, so a sequence of its operations is a
    sequence of updates of an integer. *)

From Stdlib Require Import ZArith Lia.
From stdpp Require Import base numbers list.
From S2P Require Import Prelude.

Open Scope Z_scope.

Definition ChunkSize : Z := Z.shiftl 64 10.
Definition BigData : Z := Z.shiftl 16 10.
Definition LookAhead : Z := 25.
Definition ClassSlack : Z := 64.
Definition MaxClass : Z := Z.shiftl 1 20.

Definition minClassShift : Z := 14.
Definition maxClassShift : Z := 20.
Definition numClasses : Z := maxClassShift - minClassShift + 1.
Definition minDgramShift : Z := 11.
Definition maxDgramShift : Z := 16.
Definition numDgramClass : Z := maxDgramShift - minDgramShift + 1.

Record classLayout := ClassLayout { cl_shift : Z; cl_n : Z }.

Definition streamLayout : classLayout := ClassLayout minClassShift numClasses.
Definition dgramLayout : classLayout := ClassLayout minDgramShift numDgramClass.

Definition cl_size (l : classLayout) (c : Z) : Z := Z.shiftl 1 (cl_shift l + c) + ClassSlack.

Definition cl_limit (l : classLayout) : Z := cl_size l (cl_n l - 1).

(** math/bits.Len: the number of bits of an unsigned value. *)
Definition bits_Len (x : Z) : Z := if x <=? 0 then 0 else Z.log2 x + 1.

(** [None] is the panic on a size out of range. *)
Definition cl_class (l : classLayout) (n : Z) : option Z :=
  if (n <? 0) || (cl_limit l <? n) then None
  else if n <=? Z.shiftl 1 (cl_shift l) + ClassSlack then Some 0
  else Some (bits_Len (n - ClassSlack - 1) - cl_shift l).

Definition classSize (c : Z) : Z := cl_size streamLayout c.
Definition classFor (n : Z) : option Z := cl_class streamLayout n.

(** ** Budget *)

Record Budget := MkBudget { b_used : Z; b_max : Z }.

Definition NewBudget (max : Z) : Budget := MkBudget 0 max.

Definition TryAcquire (b : Budget) (n : Z) : option Budget :=
  if b_max b <? i64 (b_used b + n) then None else Some (MkBudget (i64 (b_used b + n)) (b_max b)).

Definition Acquire (b : Budget) (n : Z) : Budget := MkBudget (i64 (b_used b + n)) (b_max b).

Definition Budget_Release (b : Budget) (n : Z) : Budget := MkBudget (i64 (b_used b - n)) (b_max b).

(** The capacity charged by [Get n] on a pool of layout [l]. *)
Definition Get_cap (l : classLayout) (n : Z) : option Z :=
  match cl_class l n with
  | None => None
  | Some c => Some (cl_size l c)
  end.

(** ** Properties *)

Definition layout_ok (l : classLayout) : Prop := 0 ≤ cl_shift l ∧ 1 ≤ cl_n l.

Lemma cl_size_pow l c : 0 ≤ cl_shift l + c → cl_size l c = 2 ^ (cl_shift l + c) + 64.
Proof. intros. unfold cl_size, ClassSlack. rewrite Z.shiftl_mul_pow2 by done. lia. Qed.

Lemma cl_class_some l n :
  layout_ok l → 0 ≤ n ≤ cl_limit l →
  ∃ c, cl_class l n = Some c ∧ 0 ≤ c < cl_n l ∧ n ≤ cl_size l c ∧
       (∀ c', 0 ≤ c' < c → cl_size l c' < n).
Proof.
  intros [Hs Hn] Hr. unfold cl_class.
  destruct (Z.ltb_spec n 0); [lia|]. destruct (Z.ltb_spec (cl_limit l) n); [lia|]. cbn [orb].
  rewrite Z.shiftl_mul_pow2 by done. unfold cl_limit in Hr.
  rewrite cl_size_pow in Hr by lia. unfold ClassSlack.
  destruct (Z.leb_spec n (1 * 2 ^ cl_shift l + 64)) as [Hle|Hgt].
  { exists 0. split_and!; [done|lia|lia|rewrite cl_size_pow by lia; rewrite Z.add_0_r; lia|lia]. }
  assert (0 < 2 ^ cl_shift l) by (apply Z.pow_pos_nonneg; lia).
  unfold bits_Len. destruct (Z.leb_spec (n - 64 - 1) 0); [lia|].
  set (k := Z.log2 (n - 64 - 1)).
  destruct (Z.log2_spec (n - 64 - 1)) as [Hk1 Hk2]; [lia|]. fold k in Hk1, Hk2.
  assert (cl_shift l ≤ k) as Hk3.
  { destruct (decide (cl_shift l ≤ k)); [done|].
    assert (2 ^ Z.succ k ≤ 2 ^ cl_shift l) by (apply Z.pow_le_mono_r; lia). lia. }
  assert (k < cl_shift l + (cl_n l - 1)) as Hk4.
  { destruct (decide (k < cl_shift l + (cl_n l - 1))); [done|].
    assert (2 ^ (cl_shift l + (cl_n l - 1)) ≤ 2 ^ k) by (apply Z.pow_le_mono_r; lia). lia. }
  exists (k + 1 - cl_shift l). split_and!; [done|lia|lia| |].
  - rewrite cl_size_pow by lia. replace (cl_shift l + (k + 1 - cl_shift l)) with (Z.succ k) by lia. lia.
  - intros c' Hc'. rewrite cl_size_pow by lia.
    assert (2 ^ (cl_shift l + c') ≤ 2 ^ k) by (apply Z.pow_le_mono_r; lia). lia.
Qed.


