(* ===== verification/Spans.v ===== *)
(** * Span lists of the send side

    [span] and [spanList] of src/internal/session/state.go with the methods
    of stream.go: the half-open ranges of stream offsets a lane has in flight
    or that wait for a retransmission.  A list is kept ascending and coalesced
    (no two spans overlap or touch); every method is compared with the
    operation on the finite set of offsets it stands for. *)

From Stdlib Require Import ZArith Lia.
From stdpp Require Import base numbers list sorting gmap sets.
From S2P Require Import Prelude.

Open Scope Z_scope.

(** ** Binary search

    The loop shared by [spanList.add] and [segList.after]: [p m] holds on a
    prefix of the indexes and the loop returns the first index in [lo, hi)
    where it fails. *)

Fixpoint bsearch (fuel : nat) (p : nat → bool) (lo hi : nat) : nat :=
  match fuel with
  | O => lo
  | S k =>
      if (lo <? hi)%nat then
        let m := ((lo + hi) / 2)%nat in
        if p m then bsearch k p (m + 1)%nat hi else bsearch k p lo m
      else lo
  end.

Lemma bsearch_spec fuel p lo hi :
  (hi - lo ≤ fuel)%nat → (lo ≤ hi)%nat →
  (∀ i j, (lo ≤ i)%nat → (i ≤ j)%nat → (j < hi)%nat → p j = true → p i = true) →
  (lo ≤ bsearch fuel p lo hi ≤ hi)%nat ∧
  (∀ i, (lo ≤ i < bsearch fuel p lo hi)%nat → p i = true) ∧
  (∀ i, (bsearch fuel p lo hi ≤ i < hi)%nat → p i = false).
Proof.
  revert lo hi. induction fuel as [|fuel IH]; intros lo hi Hf Hle Hmono; cbn [bsearch].
  { split_and!; [lia|lia| |]; intros; lia. }
  destruct (Nat.ltb_spec lo hi) as [Hlt|Hge]; [|split_and!; [lia|lia| |]; intros; lia].
  set (m := ((lo + hi) / 2)%nat).
  assert (lo ≤ m < hi)%nat as Hm.
  { unfold m. split; [apply Nat.div_le_lower_bound|apply Nat.Div0.div_lt_upper_bound]; lia. }
  destruct (p m) eqn:Hpm.
  - destruct (IH (m + 1)%nat hi) as (Hr & Ht & Hx); [lia|lia| |].
    { intros i j ? ? ?. apply Hmono; lia. }
    split_and!; [lia|lia| |exact Hx]. intros i Hi.
    destruct (decide (i ≤ m)%nat); [apply (Hmono i m); [lia|lia|lia|done]|apply Ht; lia].
  - destruct (IH lo m) as (Hr & Ht & Hx); [lia|lia| |].
    { intros i j ? ? ?. apply Hmono; lia. }
    split_and!; [lia|lia|exact Ht|]. intros i Hi.
    destruct (decide (i < m)%nat); [apply Hx; lia|].
    destruct (p i) eqn:Hpi; [|done]. rewrite (Hmono m i) in Hpm; [done|lia|lia|lia|done].
Qed.

(** ** Spans *)

Record span := Span { sp_off : Z; sp_n : Z }.

#[global] Instance span_eq_dec : EqDecision span.
Proof. solve_decision. Defined.

Definition sp_end (sp : span) : Z := u64 (sp_off sp + sp_n sp).

Abbreviation spanList := (list span).

Definition sl_empty (l : spanList) : bool := match l with [] => true | _ => false end.

Definition sl_reset (l : spanList) : spanList := [].

Fixpoint sl_bytes (l : spanList) : Z :=
  match l with
  | [] => 0
  | sp :: r => u64 (sp_n sp + sl_bytes r)
  end.

(** The loop that finds the first span starting after [e]: [r] is the list
    from index [i] on. *)
Fixpoint sl_scan (r : spanList) (e : Z) (i : nat) : nat :=
  match r with
  | sp :: r' => if sp_off sp <=? e then sl_scan r' e (S i) else i
  | [] => i
  end.

Definition sp_at (l : spanList) (i : nat) : span := default (Span 0 0) (l !! i).

Definition sl_add (l : spanList) (off n : Z) : spanList :=
  if n =? 0 then l
  else
    let e := u64 (off + n) in
    let k := length l in
    let last := sp_at l (k - 1) in
    if (k =? 0)%nat || (sp_end last <? off) then l ++ [Span off n]
    else if sp_off last <=? off then
      if sp_end last <? e then
        <[(k - 1)%nat := Span (sp_off last) (u64 (e - sp_off last))]> l
      else l
    else
      let i := bsearch k (λ m, sp_end (sp_at l m) <? off) 0 k in
      let j := sl_scan (drop i l) e i in
      if (i =? j)%nat then take i l ++ Span off n :: drop i l
      else
        let nOff := Z.min off (sp_off (sp_at l i)) in
        let nEnd := Z.max e (sp_end (sp_at l (j - 1))) in
        take i l ++ Span nOff (u64 (nEnd - nOff)) :: drop j l.

Fixpoint sl_trimBelow (l : spanList) (x : Z) : spanList :=
  match l with
  | [] => []
  | sp :: r =>
      if sp_end sp <=? x then sl_trimBelow r x
      else if sp_off sp <? x
      then Span x (u64 (sp_n sp - u64 (x - sp_off sp))) :: r
      else l
  end.

(** Indexing the empty list panics. *)
Definition sl_takeFront (l : spanList) (n : Z) : option spanList :=
  match l with
  | [] => None
  | sp :: r =>
      let sp' := Span (u64 (sp_off sp + n)) (u64 (sp_n sp - n)) in
      Some (if sp_n sp' =? 0 then r else sp' :: r)
  end.

(** ** The set of offsets *)

Definition sp_wf (sp : span) : Prop :=
  0 ≤ sp_off sp ∧ 0 < sp_n sp ∧ sp_off sp + sp_n sp < 2 ^ 64.

Definition sp_before (a b : span) : Prop := sp_off a + sp_n a < sp_off b.

(** Ascending and coalesced: between two spans there is at least one offset
    in neither. *)
Definition sl_wf (l : spanList) : Prop :=
  Forall sp_wf l ∧ StronglySorted sp_before l.

Definition range (a b : Z) : gset Z := list_to_set (seqZ a (b - a)).

Definition sp_set (sp : span) : gset Z := range (sp_off sp) (sp_off sp + sp_n sp).

Fixpoint sl_set (l : spanList) : gset Z :=
  match l with
  | [] => ∅
  | sp :: r => sp_set sp ∪ sl_set r
  end.

Lemma elem_of_range x a b : x ∈ range a b ↔ a ≤ x < b.
Proof. unfold range. rewrite elem_of_list_to_set, elem_of_seqZ. lia. Qed.

Lemma size_range a b : a ≤ b → Z.of_nat (size (range a b)) = b - a.
Proof.
  intros H. unfold range. rewrite size_list_to_set by apply NoDup_seqZ.
  rewrite length_seqZ. lia.
Qed.

Lemma elem_of_sl_set x l :
  x ∈ sl_set l ↔ ∃ sp, sp ∈ l ∧ sp_off sp ≤ x < sp_off sp + sp_n sp.
Proof.
  induction l as [|sp l IH]; cbn [sl_set].
  - split; [set_solver|intros (sp & H & _); by apply elem_of_nil in H].
  - rewrite elem_of_union, IH. unfold sp_set. rewrite elem_of_range. split.
    + intros [H|(s & Hs & H)]; [exists sp|exists s]; (split; [|done]); set_solver.
    + intros (s & Hs & H). apply elem_of_cons in Hs as [->|Hs]; [by left|right; eauto].
Qed.

Lemma sl_set_app l1 l2 : sl_set (l1 ++ l2) = sl_set l1 ∪ sl_set l2.
Proof. induction l1; cbn [sl_set app]; set_solver. Qed.

Lemma sp_end_wf sp : sp_wf sp → sp_end sp = sp_off sp + sp_n sp.
Proof. intros (? & ? & ?). apply wrap_small. unfold fits. lia. Qed.

Lemma sl_wf_nil : sl_wf [].
Proof. split; constructor. Qed.

Lemma sl_wf_cons sp l :
  sl_wf (sp :: l) ↔ sp_wf sp ∧ Forall (sp_before sp) l ∧ sl_wf l.
Proof.
  unfold sl_wf. split.
  - intros [H1 H2]. inversion H1; inversion H2; subst. tauto.
  - intros (H1 & H2 & H3 & H4). split; constructor; tauto.
Qed.

Lemma sl_wf_app l1 l2 :
  sl_wf (l1 ++ l2) ↔
  sl_wf l1 ∧ sl_wf l2 ∧ ∀ a b, a ∈ l1 → b ∈ l2 → sp_before a b.
Proof.
  induction l1 as [|sp l1 IH]; cbn [app].
  - split; [|tauto]. intros H. split_and!; [apply sl_wf_nil|done|].
    intros a b Ha. by apply elem_of_nil in Ha.
  - rewrite !sl_wf_cons, IH, Forall_app. split.
    + intros (? & (? & Hf) & ? & ? & Hc). split_and!; try done.
      intros a b Ha Hb. apply elem_of_cons in Ha as [->|Ha]; [|eauto].
      rewrite Forall_forall in Hf. by apply Hf.
    + intros ((? & ? & ?) & ? & Hc). split_and!; try done.
      * apply Forall_forall. intros b Hb. apply Hc; [by left|done].
      * intros a b Ha Hb. apply Hc; [by right|done].
Qed.

(** The spans of a well-formed list are disjoint, so its byte count is the
    number of offsets. *)
Lemma sl_bytes_size l :
  sl_wf l → sl_bytes l = Z.of_nat (size (sl_set l)) ∧
  (∀ a, Forall (λ sp, a ≤ sp_off sp) l → 0 ≤ a → a + sl_bytes l < 2 ^ 64 ∨ l = []).
Proof.
  induction l as [|sp l IH]; intros Hwf.
  { cbn [sl_bytes sl_set]. rewrite size_empty. split; [done|by right]. }
  apply sl_wf_cons in Hwf as (Hsp & Hb & Hwf). destruct (IH Hwf) as [IHs IHb].
  destruct Hsp as (Ho & Hn & He).
  assert (0 ≤ sl_bytes l) as Hpos by (rewrite IHs; lia).
  assert (sp_off sp + sp_n sp + sl_bytes l < 2 ^ 64) as Hsum.
  { destruct (IHb (sp_off sp + sp_n sp)) as [H| ->]; [|lia|done|cbn [sl_bytes]; lia].
    eapply Forall_impl; [exact Hb|]. unfold sp_before. intros; lia. }
  cbn [sl_bytes sl_set]. rewrite wrap_small by (unfold fits; lia).
  split.
  - rewrite size_union.
    + unfold sp_set. rewrite Nat2Z.inj_add, size_range, IHs by lia. lia.
    + intros x Hx1 Hx2. unfold sp_set in Hx1. apply elem_of_range in Hx1.
      apply elem_of_sl_set in Hx2 as (s & Hs & Hxs).
      rewrite Forall_forall in Hb. apply Hb in Hs.
      unfold sp_before in Hs. lia.
  - intros a Ha Ha0. left. inversion Ha; subst. lia.
Qed.

(** ** Every method is a set operation *)

(** Replacing the middle of a list by the one span [a, b) that covers it and
    the range [off, e) added. *)
Lemma sl_splice l1 l2 l3 off e a b :
  sl_wf (l1 ++ l2 ++ l3) → 0 ≤ a → a < b → b < 2 ^ 64 →
  (∀ x, a ≤ x < b ↔ off ≤ x < e ∨ x ∈ sl_set l2) →
  (∀ s, s ∈ l1 → sp_off s + sp_n s < a) →
  (∀ s, s ∈ l3 → b < sp_off s) →
  sl_wf (l1 ++ Span a (b - a) :: l3) ∧
  sl_set (l1 ++ Span a (b - a) :: l3) = sl_set (l1 ++ l2 ++ l3) ∪ range off e.
Proof.
  intros Hwf Ha Hab Hb Hset H1 H3.
  apply sl_wf_app in Hwf as (Hw1 & Hw & Hc). apply sl_wf_app in Hw as (Hw2 & Hw3 & Hc').
  split.
  - apply sl_wf_app. split_and!; [done| |].
    + apply sl_wf_cons. split_and!; [split; cbn; lia| |done].
      apply Forall_forall. intros s Hs. unfold sp_before. cbn [sp_off sp_n].
      pose proof (H3 s Hs). lia.
    + intros s t Hs Ht. apply elem_of_cons in Ht as [->|Ht].
      * unfold sp_before. cbn [sp_off]. by apply H1.
      * apply Hc; [done|set_solver].
  - rewrite !sl_set_app. cbn [sl_set]. unfold sp_set. cbn [sp_off sp_n].
    replace (a + (b - a)) with b by lia.
    apply set_eq. intros x. rewrite !elem_of_union, !elem_of_range.
    specialize (Hset x). tauto.
Qed.

Lemma sl_scan_spec r e i :
  ∃ r1 r2, r = r1 ++ r2 ∧ sl_scan r e i = (i + length r1)%nat ∧
  Forall (λ s, sp_off s ≤ e) r1 ∧ (∀ s r', r2 = s :: r' → e < sp_off s).
Proof.
  revert i. induction r as [|s r IH]; intros i; cbn [sl_scan].
  { exists [], []. split_and!; [done|cbn; lia|constructor|done]. }
  destruct (Z.leb_spec (sp_off s) e).
  - destruct (IH (S i)) as (r1 & r2 & -> & Hs & Hf & Hn).
    exists (s :: r1), r2. split_and!; [done|rewrite Hs; cbn [length]; lia|by constructor|done].
  - exists [], (s :: r). split_and!; [done|cbn; lia|constructor|].
    intros ? ? [= -> _]. done.
Qed.

Lemma sl_wf_lookup_lt l i j a b :
  sl_wf l → (i < j)%nat → l !! i = Some a → l !! j = Some b → sp_before a b.
Proof.
  intros Hwf Hij Ha Hb.
  rewrite <- (take_drop_middle l i a Ha) in Hwf. apply sl_wf_app in Hwf as (_ & Hwf & _).
  apply sl_wf_cons in Hwf as (_ & Hf & _). rewrite Forall_forall in Hf. apply Hf.
  apply list_elem_of_lookup. exists (j - S i)%nat. rewrite lookup_drop.
  rewrite <- Hb. f_equal. lia.
Qed.

Lemma sl_at_wf l i : sl_wf l → (i < length l)%nat → sp_wf (sp_at l i) ∧ l !! i = Some (sp_at l i).
Proof.
  intros [Hf _] Hi. destruct (lookup_lt_is_Some_2 l i Hi) as [s Hs].
  unfold sp_at. rewrite Hs. split; [|done]. cbn. by eapply Forall_lookup_1.
Qed.

(** The end of [l1 ++ l2 ++ l3] split at a position. *)
Lemma sl_add_range_middle l2 off e hd tl :
  sl_wf l2 → off < e → head l2 = Some hd → last l2 = Some tl →
  sp_off hd ≤ e → off ≤ sp_off hd + sp_n hd →
  sp_off tl ≤ e → off ≤ sp_off tl + sp_n tl →
  ∀ x, Z.min off (sp_off hd) ≤ x < Z.max e (sp_off tl + sp_n tl) ↔
       off ≤ x < e ∨ x ∈ sl_set l2.
Proof.
  intros Hwf Hoe Hh Ht ? ? ? ? x. split.
  - intros Hx. destruct (decide (off ≤ x < e)); [by left|right].
    apply elem_of_sl_set. destruct (decide (x < off)).
    + exists hd. split; [by apply head_Some_elem_of|lia].
    + exists tl. split; [by apply last_Some_elem_of|lia].
  - intros [Hx|Hx]; [lia|]. apply elem_of_sl_set in Hx as (s & Hs & Hx).
    assert (sp_off hd ≤ sp_off s) as Hlo.
    { destruct l2 as [|h l2]; [done|]. injection Hh as ->.
      apply elem_of_cons in Hs as [->|Hs]; [lia|].
      apply sl_wf_cons in Hwf as ((? & ? & ?) & Hf & _). rewrite Forall_forall in Hf.
      apply Hf in Hs. unfold sp_before in Hs. lia. }
    assert (sp_off s + sp_n s ≤ sp_off tl + sp_n tl) as Hhi.
    { apply last_Some in Ht as [l' ->]. apply elem_of_app in Hs as [Hs|Hs].
      - apply sl_wf_app in Hwf as (Hw1 & Hw2 & Hc).
        apply sl_wf_cons in Hw2 as ((? & ? & ?) & _).
        specialize (Hc s tl Hs ltac:(set_solver)). unfold sp_before in Hc. lia.
      - apply list_elem_of_singleton in Hs as ->. lia. }
    lia.
Qed.

Lemma range_empty a b : b ≤ a → range a b = ∅.
Proof. intros. apply set_eq. intros x. rewrite elem_of_range. set_solver by lia. Qed.

Lemma sl_set_nil_iff x off e : off ≤ x < e ↔ off ≤ x < e ∨ x ∈ sl_set [].
Proof. cbn [sl_set]. set_solver. Qed.

(** Appending at the end, and growing the last span: the two fast paths. *)
Lemma sl_add_end l off e :
  sl_wf l → 0 ≤ off → off < e → e < 2 ^ 64 →
  (∀ s, s ∈ l → sp_off s + sp_n s < off) →
  sl_wf (l ++ [Span off (e - off)]) ∧
  sl_set (l ++ [Span off (e - off)]) = sl_set l ∪ range off e.
Proof.
  intros Hwf ? ? ? Hl.
  destruct (sl_splice l [] [] off e off e) as [Hr1 Hr2]; try done.
  - by rewrite app_nil_r.
  - intros x. apply sl_set_nil_iff.
  - intros s Hs. by apply elem_of_nil in Hs.
  - split; [done|]. rewrite Hr2. cbn [app]. by rewrite app_nil_r.
Qed.

Lemma sl_add_grow l t off e :
  sl_wf (l ++ [t]) → sp_off t ≤ off → off ≤ sp_off t + sp_n t → off < e → e < 2 ^ 64 →
  sp_off t + sp_n t < e →
  sl_wf (l ++ [Span (sp_off t) (e - sp_off t)]) ∧
  sl_set (l ++ [Span (sp_off t) (e - sp_off t)]) = sl_set (l ++ [t]) ∪ range off e.
Proof.
  intros Hwf ? ? ? ? ?. pose proof Hwf as Hwf'.
  apply sl_wf_app in Hwf' as (_ & Hw2 & Hc). pose proof Hw2 as Ht.
  apply sl_wf_cons in Ht as ((? & ? & ?) & _).
  destruct (sl_splice l [t] [] off e (sp_off t) e) as [Hr1 Hr2]; try lia.
  - by rewrite app_nil_r.
  - intros x. cbn [sl_set]. unfold sp_set. rewrite elem_of_union, elem_of_range, elem_of_empty. lia.
  - intros s Hs. apply (Hc s t Hs). set_solver.
  - intros s Hs. by apply elem_of_nil in Hs.
  - split; [done|]. rewrite Hr2. by rewrite app_nil_r.
Qed.

(** The general path: [i] is the first span ending at or after [off], [j] the
    first starting after the new end. *)
Lemma sl_add_middle l off e :
  let i := bsearch (length l) (λ m, sp_end (sp_at l m) <? off) 0 (length l) in
  let j := sl_scan (drop i l) e i in
  sl_wf l → 0 ≤ off → off < e → e < 2 ^ 64 →
  ∃ l1 l2 l3, l = l1 ++ l2 ++ l3 ∧ i = length l1 ∧ j = (length l1 + length l2)%nat ∧
    (∀ s, s ∈ l1 → sp_off s + sp_n s < off) ∧
    (∀ s, s ∈ l2 → sp_off s ≤ e ∧ off ≤ sp_off s + sp_n s) ∧
    (∀ s, s ∈ l3 → e < sp_off s).
Proof.
  intros i j Hwf ? ? ?.
  destruct (bsearch_spec (length l) (λ m, sp_end (sp_at l m) <? off) 0 (length l))
    as ([_ Hi] & Hlt & Hge); [lia|lia| |].
  { intros a b _ Hab Hb. destruct (decide (a = b)) as [->|]; [done|].
    destruct (sl_at_wf l a Hwf ltac:(lia)) as [Hwa Hla].
    destruct (sl_at_wf l b Hwf Hb) as [Hwb Hlb].
    pose proof (sl_wf_lookup_lt l a b _ _ Hwf ltac:(lia) Hla Hlb) as Hbef.
    rewrite !sp_end_wf by done. unfold sp_before, sp_wf in *. rewrite !Z.ltb_lt. lia. }
  fold i in Hi, Hlt, Hge.
  destruct (sl_scan_spec (drop i l) e i) as (r1 & r2 & Hr & Hj & Hf & Hn).
  fold j in Hj. exists (take i l), r1, r2.
  assert (length (take i l) = i) as Hli by (rewrite length_take; lia).
  assert (l = take i l ++ r1 ++ r2) as Hl by (rewrite <- Hr; by rewrite take_drop).
  split_and!; [done|done|lia| | |].
  - intros s Hs. apply list_elem_of_lookup in Hs as [m Hm].
    apply lookup_take_Some in Hm as [Hm Hmi].
    specialize (Hlt m ltac:(lia)). unfold sp_at in Hlt. rewrite Hm in Hlt. cbn in Hlt.
    rewrite sp_end_wf in Hlt by (by eapply Forall_lookup_1; [apply Hwf|]). lia.
  - intros s Hs. rewrite Forall_forall in Hf. split; [by apply Hf|].
    apply list_elem_of_lookup in Hs as [m Hm].
    assert (l !! (i + m)%nat = Some s) as Hlm.
    { rewrite <- lookup_drop, Hr. by apply lookup_app_l_Some. }
    specialize (Hge (i + m)%nat). unfold sp_at in Hge. rewrite Hlm in Hge. cbn in Hge.
    rewrite sp_end_wf in Hge by (by eapply Forall_lookup_1; [apply Hwf|]).
    apply lookup_lt_Some in Hlm. specialize (Hge ltac:(lia)). lia.
  - intros s Hs. destruct r2 as [|t r2]; [by apply elem_of_nil in Hs|].
    specialize (Hn t r2 eq_refl). apply elem_of_cons in Hs as [->|Hs]; [done|].
    rewrite Hl in Hwf. apply sl_wf_app in Hwf as (_ & Hwf & _).
    apply sl_wf_app in Hwf as (_ & Hwf & _). apply sl_wf_cons in Hwf as ((? & ? & ?) & Hft & _).
    rewrite Forall_forall in Hft. apply Hft in Hs. unfold sp_before in Hs. lia.
Qed.

Lemma sl_add_spec l off n :
  sl_wf l → 0 ≤ off → 0 ≤ n → off + n < 2 ^ 64 →
  sl_wf (sl_add l off n) ∧ sl_set (sl_add l off n) = sl_set l ∪ range off (off + n).
Proof.
  intros Hwf Ho Hn He. unfold sl_add. destruct (Z.eqb_spec n 0) as [->|Hn0].
  { split; [done|]. rewrite range_empty by lia. set_solver. }
  rewrite (wrap_small 64 (off + n)) by (unfold fits; lia). remember (off + n) as e eqn:Hee.
  assert (n = e - off) as Hne by lia. assert (off < e) by lia. clear Hee. rewrite Hne.
  destruct (last l) as [t|] eqn:Hlast.
  2:{ apply last_None in Hlast as ->. cbn [length Nat.eqb orb].
      apply sl_add_end; [done|lia|lia|lia|]. intros s Hs. by apply elem_of_nil in Hs. }
  apply last_Some in Hlast as [l' ->]. rewrite length_app. cbn [length].
  replace (length l' + 1 - 1)%nat with (length l') by lia.
  assert (sp_at (l' ++ [t]) (length l') = t) as Hat.
  { unfold sp_at. by rewrite lookup_app_r, Nat.sub_diag by lia. }
  rewrite Hat. replace (length l' + 1 =? 0)%nat with false by (symmetry; apply Nat.eqb_neq; lia).
  cbn [orb]. pose proof Hwf as Hw. apply sl_wf_app in Hw as (_ & Hw2 & Hc).
  apply sl_wf_cons in Hw2 as (Htw & _). rewrite (sp_end_wf t) by done.
  pose proof Htw as (? & ? & ?).
  destruct (Z.ltb_spec (sp_off t + sp_n t) off).
  { apply sl_add_end; try lia; [done|]. intros s Hs. apply elem_of_app in Hs as [Hs|Hs].
    - specialize (Hc s t Hs ltac:(set_solver)). unfold sp_before in Hc. lia.
    - apply list_elem_of_singleton in Hs as ->. lia. }
  destruct (Z.leb_spec (sp_off t) off).
  { destruct (Z.ltb_spec (sp_off t + sp_n t) e).
    - rewrite wrap_small by (unfold fits; lia). rewrite insert_app_r_alt by lia.
      rewrite Nat.sub_diag. apply sl_add_grow; try lia; done.
    - split; [done|]. apply set_eq. intros x. rewrite elem_of_union, elem_of_range.
      split; [tauto|]. intros [Hx|Hx]; [done|]. apply elem_of_sl_set. exists t.
      split; [set_solver|lia]. }
  destruct (sl_add_middle (l' ++ [t]) off e Hwf Ho ltac:(lia) ltac:(lia))
    as (l1 & l2 & l3 & Hl & Hi & Hj & Hl1 & Hl2 & Hl3).
  rewrite length_app in Hi, Hj. cbn [length] in Hi, Hj. rewrite Hj, Hi. clear Hi Hj Hc Hat.
  rewrite Hl in *. rewrite take_app_length, drop_app_length.
  replace (drop (length l1 + length l2) (l1 ++ l2 ++ l3)) with l3
    by (by rewrite <- drop_drop, drop_app_length, drop_app_length).
  destruct l2 as [|hd l2'].
  { cbn [length]. rewrite Nat.add_0_r, Nat.eqb_refl. cbn [app].
    apply (sl_splice l1 [] l3 off e off e); try lia; [done| |done|done].
    intros x. apply sl_set_nil_iff. }
  cbn [length]. replace (length l1 =? length l1 + S (length l2'))%nat with false
    by (symmetry; apply Nat.eqb_neq; lia).
  destruct (last (hd :: l2')) as [tl|] eqn:Htl; [|by apply last_None in Htl].
  assert (sp_at (l1 ++ (hd :: l2') ++ l3) (length l1) = hd) as ->.
  { unfold sp_at. by rewrite lookup_app_r, Nat.sub_diag by lia. }
  assert (sp_at (l1 ++ (hd :: l2') ++ l3) (length l1 + S (length l2') - 1) = tl) as ->.
  { unfold sp_at. rewrite lookup_app_r by lia. rewrite lookup_app_l by (cbn [length]; lia).
    rewrite last_lookup in Htl. cbn [length pred] in Htl.
    replace (length l1 + S (length l2') - 1 - length l1)%nat with (length l2') by lia.
    by rewrite Htl. }
  pose proof Hwf as Hw. apply sl_wf_app in Hw as (_ & Hw2 & _).
  apply sl_wf_app in Hw2 as (Hw2 & _ & _).
  assert (tl ∈ hd :: l2') as Htlin by (by apply last_Some_elem_of).
  assert (sp_wf hd ∧ sp_wf tl) as [Hhw Htw'].
  { destruct Hw2 as [Hf _]. rewrite Forall_forall in Hf. split; apply Hf; [by left|done]. }
  destruct (Hl2 hd ltac:(by left)). destruct (Hl2 tl Htlin).
  rewrite (sp_end_wf tl) by done. unfold sp_wf in *.
  rewrite wrap_small by (unfold fits; lia).
  apply sl_splice with (l2 := hd :: l2'); try lia; [done| | |].
  - by apply sl_add_range_middle.
  - intros s Hs. apply sl_wf_app in Hwf as (_ & _ & Hcc).
    specialize (Hcc s hd Hs ltac:(set_solver)). specialize (Hl1 s Hs). unfold sp_before in Hcc. lia.
  - intros s Hs. apply sl_wf_app in Hwf as (_ & Hwf & _). apply sl_wf_app in Hwf as (_ & _ & Hcc).
    specialize (Hcc tl s Htlin Hs). specialize (Hl3 s Hs). unfold sp_before in Hcc. lia.
Qed.

Lemma sl_trimBelow_spec l x :
  sl_wf l → 0 ≤ x < 2 ^ 64 →
  sl_wf (sl_trimBelow l x) ∧ sl_set (sl_trimBelow l x) = filter (λ y, x ≤ y) (sl_set l).
Proof.
  intros Hwf Hx. induction l as [|sp l IH]; cbn [sl_trimBelow].
  { split; [done|]. cbn [sl_set]. set_solver. }
  apply sl_wf_cons in Hwf as (Hsp & Hb & Hwf). specialize (IH Hwf) as [IHw IHs].
  rewrite sp_end_wf by done. destruct Hsp as (? & ? & ?).
  assert (∀ y, y ∈ sl_set l → sp_off sp + sp_n sp < y) as Hl.
  { intros y Hy. apply elem_of_sl_set in Hy as (s & Hs & Hy). rewrite Forall_forall in Hb.
    apply Hb in Hs. unfold sp_before in Hs. lia. }
  destruct (Z.leb_spec (sp_off sp + sp_n sp) x).
  { split; [done|]. rewrite IHs. cbn [sl_set]. apply set_eq. intros y.
    rewrite !elem_of_filter, elem_of_union. unfold sp_set. rewrite elem_of_range.
    split; [tauto|]. intros [? [?|?]]; [lia|done]. }
  assert (∀ y, y ∈ sl_set l → x ≤ y) as Hge by (intros y Hy; specialize (Hl y Hy); lia).
  destruct (Z.ltb_spec (sp_off sp) x).
  - rewrite (wrap_small 64 (x - sp_off sp)), wrap_small by (unfold fits; lia). split.
    + apply sl_wf_cons. split_and!; [split; cbn; lia| |done].
      eapply Forall_impl; [exact Hb|]. unfold sp_before. cbn. intros; lia.
    + cbn [sl_set]. apply set_eq. intros y. rewrite elem_of_filter, !elem_of_union.
      unfold sp_set. cbn [sp_off sp_n]. rewrite !elem_of_range. specialize (Hge y).
      split; [intros [?|?]; (split; [|]); try tauto; lia|].
      intros [? [?|?]]; [left; lia|by right].
  - split; [apply sl_wf_cons; unfold sp_wf; tauto|]. apply set_eq. intros y.
    rewrite elem_of_filter. split; [|tauto]. intros Hy. split; [|done].
    cbn [sl_set] in Hy. apply elem_of_union in Hy as [Hy|Hy]; [|by apply Hge].
    unfold sp_set in Hy. rewrite elem_of_range in Hy. lia.
Qed.

Lemma sl_takeFront_spec sp l n :
  sl_wf (sp :: l) → 0 ≤ n ≤ sp_n sp →
  ∃ l', sl_takeFront (sp :: l) n = Some l' ∧ sl_wf l' ∧
        sl_set l' = sl_set (sp :: l) ∖ range (sp_off sp) (sp_off sp + n).
Proof.
  intros Hwf Hn. apply sl_wf_cons in Hwf as ((? & ? & ?) & Hb & Hwf).
  cbn [sl_takeFront sp_n]. rewrite !wrap_small by (unfold fits; lia).
  assert (∀ y, y ∈ sl_set l → sp_off sp + sp_n sp < y) as Hl.
  { intros y Hy. apply elem_of_sl_set in Hy as (s & Hs & Hy). rewrite Forall_forall in Hb.
    apply Hb in Hs. unfold sp_before in Hs. lia. }
  eexists; split; [done|]. destruct (Z.eqb_spec (sp_n sp - n) 0).
  - split; [done|]. cbn [sl_set]. apply set_eq. intros y.
    rewrite elem_of_difference, elem_of_union. unfold sp_set. rewrite !elem_of_range.
    specialize (Hl y). split; [|intros [[?|?] ?]; [lia|done]].
    intros Hy. split; [by right|specialize (Hl Hy); lia].
  - split.
    + apply sl_wf_cons. split_and!; [split; cbn; lia| |done].
      eapply Forall_impl; [exact Hb|]. unfold sp_before. cbn. intros; lia.
    + cbn [sl_set]. apply set_eq. intros y. rewrite elem_of_difference, !elem_of_union.
      unfold sp_set. cbn [sp_off sp_n]. rewrite !elem_of_range. specialize (Hl y).
      split.
      * intros [?|Hy]; [split; [left; lia|lia]|specialize (Hl Hy); split; [by right|lia]].
      * intros [[?|?] ?]; [left; lia|by right].
Qed.

(** ** Refinement *)

Inductive sl_op := OpAdd (off n : Z) | OpTrimBelow (x : Z) | OpTakeFront (n : Z) | OpReset.

Definition sl_apply (op : sl_op) (l : spanList) : option spanList :=
  match op with
  | OpAdd off n => Some (sl_add l off n)
  | OpTrimBelow x => Some (sl_trimBelow l x)
  | OpTakeFront n => sl_takeFront l n
  | OpReset => Some (sl_reset l)
  end.

(** What the callers guarantee: a range added ends below 2{^64}, and at most
    the first span is taken. *)
Definition sl_op_ok (op : sl_op) (l : spanList) : Prop :=
  match op with
  | OpAdd off n => 0 ≤ off ∧ 0 ≤ n ∧ off + n < 2 ^ 64
  | OpTrimBelow x => 0 ≤ x < 2 ^ 64
  | OpTakeFront n => ∃ sp r, l = sp :: r ∧ 0 ≤ n ≤ sp_n sp
  | OpReset => True
  end.

(** The same operation on a set of offsets. *)
Definition set_step (op : sl_op) (s s' : gset Z) : Prop :=
  match op with
  | OpAdd off n => s' = s ∪ range off (off + n)
  | OpTrimBelow x => s' = filter (λ y, x ≤ y) s
  | OpTakeFront n =>
      ∃ m, (∀ y, y ∈ s → m ≤ y) ∧ range m (m + n) ⊆ s ∧ s' = s ∖ range m (m + n)
  | OpReset => s' = ∅
  end.

(** C12. On an ascending, coalesced list every method of spanList returns an
    ascending, coalesced list (takeFront never indexes an empty one) whose
    set of offsets is exactly the set operation the method stands for: add is
    union with the range, trimBelow keeps the offsets not below the bound,
    takeFront removes the n smallest.  bytes is the number of offsets, and
    empty holds exactly of the empty set. *)
Theorem spans_refine (l : spanList) (op : sl_op) :
  sl_wf l → sl_op_ok op l →
  ∃ l', sl_apply op l = Some l' ∧ sl_wf l' ∧ set_step op (sl_set l) (sl_set l') ∧
        sl_bytes l' = Z.of_nat (size (sl_set l')) ∧
        (sl_empty l' = true ↔ sl_set l' = ∅).
Proof.
  intros Hwf Hok.
  assert (∃ l', sl_apply op l = Some l' ∧ sl_wf l' ∧ set_step op (sl_set l) (sl_set l'))
    as (l' & Ha & Hw & Hs).
  { destruct op as [off n|x|n|]; cbn [sl_apply sl_op_ok set_step] in *.
    - eexists. split; [done|]. destruct Hok as (? & ? & ?). by apply sl_add_spec.
    - eexists. split; [done|]. by apply sl_trimBelow_spec.
    - destruct Hok as (sp & r & -> & Hn). destruct (sl_takeFront_spec sp r n Hwf Hn) as (l' & ? & ? & ?).
      exists l'. split_and!; [done|done|]. exists (sp_off sp). split_and!; [| |done].
      + intros y Hy. apply elem_of_sl_set in Hy as (s & Hs & Hy).
        apply sl_wf_cons in Hwf as ((? & ? & ?) & Hb & _). rewrite Forall_forall in Hb.
        apply elem_of_cons in Hs as [->|Hs]; [lia|]. apply Hb in Hs. unfold sp_before in Hs. lia.
      + intros y Hy. apply elem_of_range in Hy. apply elem_of_sl_set. exists sp.
        split; [by left|lia].
    - exists []. split_and!; [done|apply sl_wf_nil|done]. }
  exists l'. split_and!; [done|done|done|by apply sl_bytes_size|].
  destruct l' as [|sp r]; [done|]. cbn [sl_empty]. split; [done|]. intros He.
  apply sl_wf_cons in Hw as ((? & ? & ?) & _).
  assert (sp_off sp ∈ sl_set (sp :: r)) as Hin; [|by rewrite He in Hin; set_solver].
  apply elem_of_sl_set. exists sp. split; [by left|lia].
Qed.

Definition spans_demo : spanList := [Span 10 5; Span 20 4; Span 40 1].

Lemma spans_demo_wf : sl_wf spans_demo.
Proof.
  split; repeat constructor; unfold sp_before; cbn; lia.
Qed.

(** Filling the gap [15, 20) of the example joins its first two spans. *)
Lemma spans_refine_witness :
  sl_add spans_demo 15 5 = [Span 10 14; Span 40 1] ∧
  ∃ l', sl_apply (OpAdd 15 5) spans_demo = Some l' ∧ sl_wf l' ∧
        set_step (OpAdd 15 5) (sl_set spans_demo) (sl_set l') ∧
        sl_bytes l' = Z.of_nat (size (sl_set l')) ∧
        (sl_empty l' = true ↔ sl_set l' = ∅).
Proof.
  split; [reflexivity|]. apply (spans_refine spans_demo (OpAdd 15 5) spans_demo_wf).
  cbn. lia.
Defined.
