(* ===== verification/RecvSegs.v ===== *)
(** * Receive segments

    [seg], [segRing] and [segList] of src/internal/session (state.go,
    stream.go, recv.go) and the placement of one DATA frame's bytes into them
    (recv.go: heldIn, keepRefLocked, copyPiecesLocked, appendCopyLocked,
    insertCopyLocked, mergeFollowersLocked, promoteLocked, shedLocked).

    The functions act on the fields of [stream] they touch ([rbuf]), the call's
    copy state [rcall] and the bytes charged to the Budget; [limit] is
    recvLimit.  [None] stands for a panic (a slice or an index out of range).
    No two segments share a buffer and the reader hands a frame's buffer over
    for good, so a segment carries its bytes, the capacity of its slice and
    the capacity of its buffer.  The in-order ring is the list of its
    segments in order (the ring itself: [SegRing]). *)

From Stdlib Require Import ZArith Lia.
From stdpp Require Import base numbers list sorting gmap sets.
From S2P Require Import Prelude CarrierBuf Spans.

Open Scope Z_scope.

Definition runSize : Z := BigData.
Definition runCap : Z := BigData + ClassSlack.
Definition copyBudget : Z := runSize - 1.

(** ** Segments *)

Record seg := Seg {
  sg_off : Z;
  sg_b : bytes;
  sg_cap : Z;      (* cap(sg.b) *)
  sg_bufcap : Z;   (* cap(sg.buf.B) *)
  sg_run : bool
}.

Definition sg_end (sg : seg) : Z := u64 (sg_off sg + len (sg_b sg)).

Definition segCap (sg : seg) : Z := sg_bufcap sg.

Definition segRoom (sg : seg) : Z :=
  if sg_run sg then runSize - len (sg_b sg) else sg_cap sg - len (sg_b sg).

(** [p[i:j]] *)
Definition sub (p : bytes) (i j : Z) : option bytes :=
  if (0 <=? i) && (i <=? j) && (j <=? len p) then Some (slice p i j) else None.

(** The slice [t.b[n:n+room]] must lie inside cap(t.b). *)
Definition growSeg (t : seg) (q : bytes) : option (seg * Z) :=
  let n := len (sg_b t) in
  let room := segRoom t in
  if (0 <=? room) && (n + room <=? sg_cap t) then
    let m := Z.min room (len q) in
    Some (Seg (sg_off t) (sg_b t ++ take (Z.to_nat m) q) (sg_cap t) (sg_bufcap t) (sg_run t), m)
  else None.

(** ** segList *)

Definition sg_at (l : list seg) (i : nat) : seg := default (Seg 0 [] 0 0 false) (l !! i).

Definition segs_after (l : list seg) (x : Z) : nat :=
  bsearch (length l) (λ m, sg_end (sg_at l m) <=? x) 0 (length l).

Definition bytes_eqb (p q : bytes) : bool := bool_decide (p = q).

(** segList.equal: the loop from index [after off] on. *)
Fixpoint segs_equal_loop (l : list seg) (off e : Z) (p : bytes) : option bool :=
  match l with
  | [] => Some true
  | sg :: r =>
      if sg_off sg <? e then
        let a := Z.max off (sg_off sg) in
        let b := Z.min e (sg_end sg) in
        match sub (sg_b sg) (a - sg_off sg) (b - sg_off sg), sub p (a - off) (b - off) with
        | Some u, Some v => if bytes_eqb u v then segs_equal_loop r off e p else Some false
        | _, _ => None
        end
      else Some true
  end.

Definition segs_equal (l : list seg) (off : Z) (p : bytes) : option bool :=
  segs_equal_loop (drop (segs_after l off) l) off (u64 (off + len p)) p.

(** segRing.equal: the held in-order bytes at [a, a+len(q)) equal q. *)
Fixpoint ring_equal (l : list seg) (a : Z) (q : bytes) : option bool :=
  match l, q with
  | [], _ | _, [] => Some true
  | sg :: r, _ =>
      if sg_end sg <=? a then ring_equal r a q
      else
        match sub (sg_b sg) (a - sg_off sg) (len (sg_b sg)) with
        | None => None
        | Some h =>
            let m := Z.min (len h) (len q) in
            if bytes_eqb (take (Z.to_nat m) h) (take (Z.to_nat m) q)
            then ring_equal r (u64 (a + m)) (drop (Z.to_nat m) q)
            else Some false
        end
  end.

Definition segs_insert (l : list seg) (i : nat) (sg : seg) : list seg := take i l ++ sg :: drop i l.

Definition segs_cut (l : list seg) (i j : nat) : list seg :=
  if (j <=? i)%nat then l else take i l ++ drop j l.

Definition segs_removeFront (l : list seg) (k : nat) : list seg := drop k l.

Fixpoint segs_bytes (l : list seg) : Z :=
  match l with
  | [] => 0
  | sg :: r => u64 (len (sg_b sg) + segs_bytes r)
  end.

(** ** The receive buffers *)

Record rbuf := RBuf {
  rTail : Z;
  inq : list seg;
  ooq : list seg;
  oooCap : Z;
  oooDropped : Z;
  rxBytes : Z;
  charged : Z    (* env.Carrier.Budget.used *)
}.

Record rcall := RCall { rc_left : Z; rc_copied : Z }.

Definition highest (st : rbuf) : Z :=
  match last (ooq st) with
  | Some sg => sg_end sg
  | None => rTail st
  end.

Record heldRange := HeldRange {
  h_s0 : Z; h_x : Z; h_a : nat; h_b : nat; h_bytes : Z; h_charge : Z
}.

(** The loop over the segments that start before [e]. *)
Fixpoint heldIn_loop (l : list seg) (e : Z) (h : heldRange) : heldRange :=
  match l with
  | [] => h
  | sg :: r =>
      if sg_off sg <? e then
        if e <? sg_end sg then
          HeldRange (h_s0 h) (sg_off sg) (h_a h) (h_b h) (h_bytes h) (h_charge h)
        else
          heldIn_loop r e
            (HeldRange (h_s0 h) (h_x h) (h_a h) (S (h_b h))
               (u64 (h_bytes h + len (sg_b sg))) (h_charge h + segCap sg))
      else h
  end.

Definition heldIn (st : rbuf) (start e : Z) : heldRange :=
  let i := segs_after (ooq st) start in
  let '(s0, i) :=
    match ooq st !! i with
    | Some sg => if sg_off sg <? start then (sg_end sg, S i) else (start, i)
    | None => (start, i)
    end in
  heldIn_loop (drop i (ooq st)) e (HeldRange s0 e i i 0 0).

Definition newBytes (h : heldRange) : Z :=
  if h_x h <=? h_s0 h then 0 else u64 (h_x h - h_s0 h - h_bytes h).

Definition byRef (h : heldRange) (c : Z) : bool :=
  (c <=? h_charge h) && (c <=? i64 (2 * i64 (u64 (h_x h - h_s0 h)))).

(** ** Releasing *)

Fixpoint caps (l : list seg) : Z :=
  match l with
  | [] => 0
  | sg :: r => segCap sg + caps r
  end.

(** The buffers of ooq[a:b] go back to the Budget. *)
Definition releaseOOORange (st : rbuf) (a b : nat) : rbuf :=
  let c := caps (take (b - a) (drop a (ooq st))) in
  RBuf (rTail st) (inq st) (segs_cut (ooq st) a b) (oooCap st - c) (oooDropped st)
       (rxBytes st) (charged st - c).

Definition releaseOOO (st : rbuf) : rbuf := releaseOOORange st 0 (length (ooq st)).

Fixpoint releaseConsumed_loop (l : list seg) (rRead : Z) (c : Z) : list seg * Z :=
  match l with
  | [] => ([], c)
  | sg :: r => if sg_end sg <=? rRead then releaseConsumed_loop r rRead (c + segCap sg) else (l, c)
  end.

Definition releaseConsumed (st : rbuf) (rRead : Z) : rbuf :=
  let '(l, c) := releaseConsumed_loop (inq st) rRead 0 in
  RBuf (rTail st) l (ooq st) (oooCap st - c) (oooDropped st) (rxBytes st) (charged st - c).

(** Session end: every buffer is released and the unread bytes become
    unreadable. *)
Definition releaseRecv (st : rbuf) (rRead : Z) : rbuf :=
  let c := caps (inq st) in
  let st := releaseOOO (RBuf (rTail st) [] (ooq st) (oooCap st - c) (oooDropped st)
                             (rxBytes st) (charged st - c)) in
  RBuf rRead (inq st) (ooq st) (oooCap st) (oooDropped st) (rxBytes st) (charged st).

(** ** Placement *)

(** A new run: its buffer is charged to the Budget and to oooCap. *)
Definition newRun (st : rbuf) (off : Z) (q : bytes) : option (rbuf * seg * Z) :=
  match Get_cap streamLayout runSize with
  | None => None
  | Some cap =>
      let m := Z.min runSize (len q) in
      Some (RBuf (rTail st) (inq st) (ooq st) (oooCap st + cap) (oooDropped st) (rxBytes st)
                 (charged st + cap),
            Seg off (take (Z.to_nat m) q) cap cap true, m)
  end.

(** mergeFollowersLocked's loop: [t] is ooq[k], [l] the segments after it. *)
Fixpoint merge_loop (t : seg) (l : list seg) (c : rcall) (cp : Z) : option (seg * list seg * rcall * Z) :=
  match l with
  | [] => Some (t, [], c, cp)
  | sg :: r =>
      let n := len (sg_b sg) in
      if negb (sg_off sg =? sg_end t) || (segRoom t <? n) || (rc_left c <? n)
      then Some (t, l, c, cp)
      else
        match growSeg t (sg_b sg) with
        | None => None
        | Some (t', _) =>
            merge_loop t' r (RCall (rc_left c - n) (rc_copied c + n)) (cp + segCap sg)
        end
  end.

Definition mergeFollowersLocked (st : rbuf) (k : nat) (c : rcall) : option (rbuf * rcall) :=
  match ooq st !! k with
  | None => None
  | Some t =>
      match merge_loop t (drop (S k) (ooq st)) c 0 with
      | None => None
      | Some (t', r, c', cp) =>
          Some (RBuf (rTail st) (inq st) (take k (ooq st) ++ t' :: r) (oooCap st - cp)
                     (oooDropped st) (rxBytes st) (charged st - cp), c')
      end
  end.

(** promoteLocked: [l] is ooq, from its front. *)
Fixpoint promote_loop (st : rbuf) (l : list seg) (c : rcall) : option (rbuf * rcall) :=
  match l with
  | [] => Some (RBuf (rTail st) (inq st) [] (oooCap st) (oooDropped st) (rxBytes st) (charged st), c)
  | sg :: r =>
      if sg_off sg =? rTail st then
        let n := len (sg_b sg) in
        match last (inq st) with
        | None => None
        | Some t =>
            if (n <=? segRoom t) && (n <=? rc_left c) then
              match growSeg t (sg_b sg) with
              | None => None
              | Some (t', _) =>
                  promote_loop
                    (RBuf (u64 (rTail st + n)) (<[(length (inq st) - 1)%nat := t']> (inq st)) (ooq st)
                          (oooCap st - segCap sg) (oooDropped st) (u64 (rxBytes st + n))
                          (charged st - segCap sg)) r
                    (RCall (rc_left c - n) (rc_copied c + n))
              end
            else
              promote_loop
                (RBuf (u64 (rTail st + n)) (inq st ++ [sg]) (ooq st) (oooCap st) (oooDropped st)
                      (u64 (rxBytes st + n)) (charged st)) r c
        end
      else Some (RBuf (rTail st) (inq st) l (oooCap st) (oooDropped st) (rxBytes st) (charged st), c)
  end.

Definition promoteLocked (st : rbuf) (c : rcall) : option (rbuf * rcall) :=
  promote_loop st (ooq st) c.

(** appendCopyLocked's loop; [fuel] is at least len(q). *)
Fixpoint appendCopy_loop (fuel : nat) (st : rbuf) (pos : Z) (q : bytes) (c : rcall)
  : option (rbuf * rcall) :=
  match q, fuel with
  | [], _ => Some (st, c)
  | _, O => None
  | _, S k =>
      let grow :=
        match last (inq st) with
        | Some t => if 0 <? segRoom t then Some t else None
        | None => None
        end in
      match grow with
      | Some t =>
          match growSeg t q with
          | None => None
          | Some (t', m) =>
              appendCopy_loop k
                (RBuf (rTail st) (<[(length (inq st) - 1)%nat := t']> (inq st)) (ooq st) (oooCap st)
                      (oooDropped st) (rxBytes st) (charged st))
                (u64 (pos + m)) (drop (Z.to_nat m) q) (RCall (rc_left c) (rc_copied c + m))
          end
      | None =>
          match newRun st pos q with
          | None => None
          | Some (st', sg, m) =>
              appendCopy_loop k
                (RBuf (rTail st') (inq st' ++ [sg]) (ooq st') (oooCap st') (oooDropped st')
                      (rxBytes st') (charged st'))
                (u64 (pos + m)) (drop (Z.to_nat m) q) (RCall (rc_left c) (rc_copied c + m))
          end
      end
  end.

Definition appendCopyLocked (st : rbuf) (pos : Z) (piece : bytes) (c : rcall) : option (rbuf * rcall) :=
  match appendCopy_loop (length piece) st pos piece c with
  | None => None
  | Some (st, c) =>
      promoteLocked
        (RBuf (u64 (rTail st + len piece)) (inq st) (ooq st) (oooCap st) (oooDropped st)
              (u64 (rxBytes st + len piece)) (charged st)) c
  end.

(** insertCopyLocked's loop: the segment before index [i] may grow, then new
    runs are inserted while the charge stays within the limit.  The result
    carries the index, or [None] for it when bytes were dropped. *)
Fixpoint insertCopy_loop (fuel : nat) (limit : Z) (st : rbuf) (i : nat) (pos : Z) (q : bytes) (c : rcall)
  : option (rbuf * rcall * option nat) :=
  match q, fuel with
  | [], _ => Some (st, c, Some i)
  | _, O => None
  | _, S k =>
      let grow :=
        if (0 <? i)%nat then
          match ooq st !! (i - 1)%nat with
          | Some t => if (sg_end t =? pos) && (0 <? segRoom t) then Some t else None
          | None => None
          end
        else None in
      match grow with
      | Some t =>
          match growSeg t q with
          | None => None
          | Some (t', m) =>
              insertCopy_loop k limit
                (RBuf (rTail st) (inq st) (<[(i - 1)%nat := t']> (ooq st)) (oooCap st)
                      (oooDropped st) (rxBytes st) (charged st))
                i (u64 (pos + m)) (drop (Z.to_nat m) q) (RCall (rc_left c) (rc_copied c + m))
          end
      | None =>
          if limit <? oooCap st + runCap then
            Some (RBuf (rTail st) (inq st) (ooq st) (oooCap st) (u64 (oooDropped st + len q))
                       (rxBytes st) (charged st), c, None)
          else
            match newRun st pos q with
            | None => None
            | Some (st', sg, m) =>
                insertCopy_loop k limit
                  (RBuf (rTail st') (inq st') (segs_insert (ooq st') i sg) (oooCap st')
                        (oooDropped st') (rxBytes st') (charged st'))
                  (S i) (u64 (pos + m)) (drop (Z.to_nat m) q) (RCall (rc_left c) (rc_copied c + m))
            end
      end
  end.

Definition insertCopyLocked (limit : Z) (st : rbuf) (i : nat) (pos : Z) (piece : bytes) (c : rcall)
  : option (rbuf * rcall) :=
  match insertCopy_loop (length piece) limit st i pos piece c with
  | None => None
  | Some (st, c, None) => Some (st, c)
  | Some (st, c, Some i) => mergeFollowersLocked st (i - 1) c
  end.

(** copyPiecesLocked's loop; [fuel] bounds its iterations, every one of which
    moves [pos] forward. *)
Fixpoint copyPieces_loop (fuel : nat) (limit : Z) (st : rbuf) (off e : Z) (p : bytes) (pos : Z) (c : rcall)
  : option (rbuf * rcall) :=
  if pos <? e then
    match fuel with
    | O => None
    | S k =>
        if pos <? rTail st then copyPieces_loop k limit st off e p (rTail st) c
        else
          let i := segs_after (ooq st) pos in
          let next := ooq st !! i in
          let held := match next with Some sg => sg_off sg <=? pos | None => false end in
          if held then copyPieces_loop k limit st off e p (sg_end (sg_at (ooq st) i)) c
          else
            let stop := match next with Some sg => Z.min e (sg_off sg) | None => e end in
            match sub p (pos - off) (stop - off) with
            | None => None
            | Some piece =>
                match (if pos =? rTail st then appendCopyLocked st pos piece c
                       else insertCopyLocked limit st i pos piece c) with
                | None => None
                | Some (st', c') => copyPieces_loop k limit st' off e p stop c'
                end
            end
    end
  else Some (st, c).

Definition copyPiecesLocked (limit : Z) (st : rbuf) (off : Z) (p : bytes) (c : rcall)
  : option (rbuf * rcall) :=
  copyPieces_loop (length p) limit st off (u64 (off + len p)) p off c.

(** The buffer a frame arrived in: cap(buf.B), and cap(p) of the payload
    slice inside it. *)
Record frameBuf := FrameBuf { fb_cap : Z; fb_pcap : Z }.

Definition releaseBuf (st : rbuf) (buf : option frameBuf) : rbuf :=
  match buf with
  | None => st
  | Some fb => RBuf (rTail st) (inq st) (ooq st) (oooCap st) (oooDropped st) (rxBytes st)
                    (charged st - fb_cap fb)
  end.

Definition keepRefLocked (limit : Z) (st : rbuf) (off : Z) (p : bytes) (fb : frameBuf)
    (h : heldRange) (n : Z) (c : rcall) : option (rbuf * rcall) :=
  match sub p (h_s0 h - off) (h_x h - off) with
  | None => None
  | Some b =>
      let sg := Seg (h_s0 h) b (fb_pcap fb - (h_s0 h - off)) (fb_cap fb) false in
      if h_s0 h =? rTail st then
        let st := releaseOOORange st (h_a h) (h_b h) in
        promoteLocked
          (RBuf (h_x h) (inq st ++ [sg]) (ooq st) (oooCap st + fb_cap fb) (oooDropped st)
                (u64 (rxBytes st + u64 (h_x h - h_s0 h))) (charged st)) c
      else if limit <? oooCap st - h_charge h + fb_cap fb then
        Some (releaseBuf (RBuf (rTail st) (inq st) (ooq st) (oooCap st) (u64 (oooDropped st + n))
                               (rxBytes st) (charged st)) (Some fb), c)
      else
        let st := releaseOOORange st (h_a h) (h_b h) in
        mergeFollowersLocked
          (RBuf (rTail st) (inq st) (segs_insert (ooq st) (h_a h) sg) (oooCap st + fb_cap fb)
                (oooDropped st) (rxBytes st) (charged st)) (h_a h) c
  end.

(** shedLocked's loop: [l] is ooq reversed. *)
Fixpoint shed_loop (l : list seg) (limit cap dropped : Z) (rel : Z) : list seg * Z * Z * Z :=
  match l with
  | [] => ([], cap, dropped, rel)
  | sg :: r =>
      if limit <? cap
      then shed_loop r limit (cap - segCap sg) (u64 (dropped + len (sg_b sg))) (rel + segCap sg)
      else (l, cap, dropped, rel)
  end.

Definition shedLocked (limit : Z) (st : rbuf) : rbuf :=
  let '(l, cap, dropped, rel) := shed_loop (reverse (ooq st)) limit (oooCap st) (oooDropped st) 0 in
  RBuf (rTail st) (inq st) (reverse l) cap dropped (rxBytes st) (charged st - rel).

(** The placement step of recvDataLocked, once the frame passed its checks:
    by reference when its new bytes exceed the copy limit or a reference
    costs no more, else copied and its buffer released. *)
Definition placeFrame (limit : Z) (st : rbuf) (off e : Z) (p : bytes) (buf : option frameBuf)
  : option (rbuf * rcall) :=
  let start := Z.max off (rTail st) in
  let h := heldIn st start e in
  let n := newBytes h in
  let copy :=
    match copyPiecesLocked limit st off p (RCall (copyBudget - n) 0) with
    | None => None
    | Some (st', c') => Some (releaseBuf st' buf, c')
    end in
  match buf with
  | Some fb =>
      if (0 <? n) && ((copyBudget <? n) || byRef h (fb_cap fb))
      then keepRefLocked limit st off p fb h n (RCall copyBudget 0)
      else copy
  | None => copy
  end.
