(* ===== verification/RecvProofs.v ===== *)
(** * Placement of received bytes

    The invariant of the receive buffers and the effect of every placement
    function of [RecvSegs] on the set of received offsets.  [S] is the byte
    stream the peer sends: [S x] is the byte at offset [x]. *)

From Stdlib Require Import ZArith Lia.
From stdpp Require Import base numbers list sorting gmap sets.
From S2P Require Import Prelude CarrierBuf Spans RecvSegs.

Open Scope Z_scope.

(** ** Pieces of the stream *)

Definition rng (S : Z → Z) (a n : Z) : bytes := S <$> seqZ a n.

Lemma len_rng S a n : 0 ≤ n → len (rng S a n) = n.
Proof. intros. unfold rng, len. rewrite length_fmap, length_seqZ. lia. Qed.

Lemma rng_app S a n m : 0 ≤ n → 0 ≤ m → rng S a (n + m) = rng S a n ++ rng S (a + n) m.
Proof. intros. unfold rng. rewrite seqZ_app by lia. by rewrite fmap_app. Qed.

Lemma rng_0 S a : rng S a 0 = [].
Proof. done. Qed.

Lemma take_rng S a n m : 0 ≤ m ≤ n → take (Z.to_nat m) (rng S a n) = rng S a m.
Proof.
  intros H. replace n with (m + (n - m)) by lia. rewrite rng_app by lia.
  rewrite take_app_le by (unfold rng; rewrite length_fmap, length_seqZ; lia).
  apply take_ge. unfold rng. rewrite length_fmap, length_seqZ. lia.
Qed.

Lemma drop_rng S a n m : 0 ≤ m ≤ n → drop (Z.to_nat m) (rng S a n) = rng S (a + m) (n - m).
Proof.
  intros H. replace n with (m + (n - m)) at 1 by lia. rewrite rng_app by lia.
  rewrite drop_app_ge by (unfold rng; rewrite length_fmap, length_seqZ; lia).
  replace (Z.to_nat m - length (rng S a m))%nat with 0%nat; [done|].
  unfold rng. rewrite length_fmap, length_seqZ. lia.
Qed.

Lemma sub_rng S a n i j :
  0 ≤ i → i ≤ j → j ≤ n → sub (rng S a n) i j = Some (rng S (a + i) (j - i)).
Proof.
  intros. unfold sub. rewrite len_rng by lia.
  destruct (Z.leb_spec 0 i); [|lia]. destruct (Z.leb_spec i j); [|lia].
  destruct (Z.leb_spec j n); [|lia]. cbn [andb]. f_equal. unfold slice.
  rewrite drop_rng by lia. by rewrite take_rng by lia.
Qed.

Lemma rng_lookup S a n x : a ≤ x < a + n → rng S a n !! Z.to_nat (x - a) = Some (S x).
Proof.
  intros H. unfold rng. rewrite list_lookup_fmap, lookup_seqZ_lt by lia. cbn. f_equal. f_equal. lia.
Qed.

Lemma rng_ext S T a n : (∀ x, a ≤ x < a + n → S x = T x) → rng S a n = rng T a n.
Proof.
  intros H. unfold rng. apply list_fmap_ext. intros i x Hx. apply lookup_seqZ in Hx. apply H. lia.
Qed.

Lemma rng_inj S T a n x : rng S a n = rng T a n → a ≤ x < a + n → S x = T x.
Proof.
  intros H Hx. pose proof (rng_lookup S a n x Hx) as H1. rewrite H, rng_lookup in H1 by done. congruence.
Qed.

(** ** The invariant *)

Definition e_of (sg : seg) : Z := sg_off sg + len (sg_b sg).

(** In-order segments are contiguous from [lo] to [hi]. *)
Fixpoint chain (lo : Z) (l : list seg) (hi : Z) : Prop :=
  match l with
  | [] => lo = hi
  | sg :: r => sg_off sg = lo ∧ chain (e_of sg) r hi
  end.

(** Out-of-order segments are ascending and do not overlap. *)
Fixpoint asc (lo : Z) (l : list seg) : Prop :=
  match l with
  | [] => True
  | sg :: r => lo ≤ sg_off sg ∧ asc (e_of sg) r
  end.

Fixpoint oset (l : list seg) : gset Z :=
  match l with
  | [] => ∅
  | sg :: r => range (sg_off sg) (e_of sg) ∪ oset r
  end.

(** Every offset received so far: delivered, readable or held out of order. *)
Definition received (st : rbuf) : gset Z := range 0 (rTail st) ∪ oset (ooq st).

(** Nothing out of order touches the in-order end. *)
Definition apart (st : rbuf) : Prop :=
  match ooq st with [] => True | sg :: _ => rTail st < sg_off sg end.

Lemma elem_of_oset x l : x ∈ oset l ↔ ∃ sg, sg ∈ l ∧ sg_off sg ≤ x < e_of sg.
Proof.
  induction l as [|sg l IH]; cbn [oset].
  - split; [set_solver|intros (sg & H & _); by apply elem_of_nil in H].
  - rewrite elem_of_union, IH, elem_of_range. split.
    + intros [H|(s & Hs & H)]; [exists sg|exists s]; (split; [|done]); set_solver.
    + intros (s & Hs & H). apply elem_of_cons in Hs as [->|Hs]; [by left|right; eauto].
Qed.

Lemma oset_app l1 l2 : oset (l1 ++ l2) = oset l1 ∪ oset l2.
Proof. induction l1; cbn [oset app]; set_solver. Qed.

Lemma caps_app l1 l2 : caps (l1 ++ l2) = caps l1 + caps l2.
Proof. induction l1; cbn [caps app]; lia. Qed.

Lemma asc_weaken lo lo' l : lo' ≤ lo → asc lo l → asc lo' l.
Proof. destruct l; cbn; intuition lia. Qed.

Lemma asc_app lo l1 l2 :
  asc lo (l1 ++ l2) ↔ asc lo l1 ∧ asc (match last l1 with Some t => e_of t | None => lo end) l2.
Proof.
  revert lo. induction l1 as [|sg l1 IH]; intros lo; cbn [app asc]; [cbn; tauto|].
  rewrite IH. rewrite last_cons. destruct (last l1); tauto.
Qed.

Lemma chain_app lo l1 l2 hi : chain lo (l1 ++ l2) hi ↔ ∃ mid, chain lo l1 mid ∧ chain mid l2 hi.
Proof.
  revert lo. induction l1 as [|sg l1 IH]; intros lo; cbn [app chain].
  - split; [eauto|intros (? & -> & ?); done].
  - rewrite IH. naive_solver.
Qed.

Lemma chain_last lo l t hi : chain lo (l ++ [t]) hi → e_of t = hi ∧ chain lo l (sg_off t).
Proof. rewrite chain_app. intros (mid & H1 & H2). cbn [chain] in H2. destruct H2 as [<- H2]. done. Qed.

Section Inv.
Context (S : Z → Z).

Record seg_wf (sg : seg) : Prop := {
  sw_off : 0 ≤ sg_off sg;
  sw_len : 0 < len (sg_b sg);
  sw_end : e_of sg < 2 ^ 64;
  sw_bytes : sg_b sg = rng S (sg_off sg) (len (sg_b sg));
  sw_cap : len (sg_b sg) ≤ sg_cap sg;
  sw_run : sg_run sg = true → len (sg_b sg) ≤ runSize ≤ sg_cap sg;
  sw_buf : 0 ≤ sg_bufcap sg
}.

Record PInv (lo : Z) (st : rbuf) : Prop := {
  pi_lo : 0 ≤ lo;
  pi_tail : rTail st < 2 ^ 64;
  pi_chain : chain lo (inq st) (rTail st);
  pi_inq : Forall seg_wf (inq st);
  pi_ooq : Forall seg_wf (ooq st);
  pi_asc : asc (rTail st) (ooq st);
  pi_cap : oooCap st = caps (inq st) + caps (ooq st)
}.

Lemma sg_end_wf sg : seg_wf sg → sg_end sg = e_of sg.
Proof. intros []. apply wrap_small. unfold fits, e_of in *. lia. Qed.

Lemma caps_nonneg l : Forall seg_wf l → 0 ≤ caps l.
Proof. induction 1 as [|sg l [] _ IH]; cbn [caps]; unfold segCap; lia. Qed.

Lemma asc_lower lo l sg : Forall seg_wf l → asc lo l → sg ∈ l → lo ≤ sg_off sg.
Proof.
  revert lo. induction l as [|t l IH]; intros lo Hf Ha Hs; [by apply elem_of_nil in Hs|].
  inversion Hf as [|? ? Ht Hf']; subst. destruct Ha as [Hlo Ha].
  apply elem_of_cons in Hs as [->|Hs]; [done|].
  specialize (IH _ Hf' Ha Hs). destruct Ht. unfold e_of in *. intuition lia.
Qed.

Lemma asc_oset_lower lo l x : Forall seg_wf l → asc lo l → x ∈ oset l → lo ≤ x.
Proof.
  intros Hf Ha Hx. apply elem_of_oset in Hx as (sg & Hs & Hx).
  pose proof (asc_lower lo l sg Hf Ha Hs). lia.
Qed.

Lemma chain_le lo l hi : Forall seg_wf l → chain lo l hi → lo ≤ hi.
Proof.
  revert lo. induction l as [|sg l IH]; intros lo Hf Hc; cbn [chain] in Hc; [lia|].
  inversion Hf as [|? ? [] Hf']; subst. destruct Hc as [<- Hc]. specialize (IH _ Hf' Hc).
  unfold e_of in *. lia.
Qed.

End Inv.

(** ** Growing, merging and promoting segments *)

Section Place.
Context (S : Z → Z).

Lemma segRoom_wf t : seg_wf S t → 0 ≤ segRoom t ∧ len (sg_b t) + segRoom t ≤ sg_cap t.
Proof.
  intros [? ? ? ? ? Hr ?]. unfold segRoom. destruct (sg_run t); [specialize (Hr eq_refl)|]; lia.
Qed.

Lemma growSeg_spec t n :
  seg_wf S t → 0 ≤ n → e_of t + n < 2 ^ 64 →
  ∃ t', growSeg t (rng S (e_of t) n) = Some (t', Z.min (segRoom t) n) ∧ seg_wf S t' ∧
    sg_off t' = sg_off t ∧ e_of t' = e_of t + Z.min (segRoom t) n ∧
    segCap t' = segCap t.
Proof.
  intros Hw Hn Hov. destruct (segRoom_wf t Hw) as [Hr1 Hr2]. pose proof Hw as [? ? ? Hb ? Hrun ?].
  unfold growSeg. destruct (Z.leb_spec 0 (segRoom t)); [|lia].
  destruct (Z.leb_spec (len (sg_b t) + segRoom t) (sg_cap t)); [|lia]. cbn [andb].
  rewrite len_rng by done. set (m := Z.min (segRoom t) n). rewrite take_rng by lia.
  assert (len (sg_b t ++ rng S (e_of t) m) = len (sg_b t) + m) as Hl.
  { rewrite len_app, len_rng by lia. done. }
  eexists. split; [done|]. unfold e_of in *. cbn [sg_off sg_b sg_cap sg_bufcap sg_run].
  rewrite Hl. split_and!; [|done|lia|done].
  constructor; unfold e_of; cbn [sg_off sg_b sg_cap sg_bufcap sg_run]; rewrite ?Hl; try lia.
  - rewrite Hb at 1. by rewrite rng_app by lia.
  - intros Hrn. specialize (Hrun Hrn). unfold m, segRoom. rewrite Hrn. lia.
Qed.

Lemma run_consts : runSize = 16384 ∧ runCap = 16448 ∧ copyBudget = 16383.
Proof. done. Qed.

Lemma Get_run : Get_cap streamLayout runSize = Some runCap.
Proof. reflexivity. Qed.

Lemma newRun_spec st off n :
  0 ≤ off → 0 < n → off + n < 2 ^ 64 →
  ∃ sg, let m := Z.min runSize n in
    newRun st off (rng S off n) =
      Some (RBuf (rTail st) (inq st) (ooq st) (oooCap st + runCap) (oooDropped st) (rxBytes st)
                 (charged st + runCap), sg, m) ∧
    seg_wf S sg ∧ sg_off sg = off ∧ e_of sg = off + m ∧ segCap sg = runCap.
Proof.
  intros Ho Hn Hov. unfold newRun. rewrite Get_run, len_rng by lia.
  set (m := Z.min runSize n). destruct run_consts as (Hrs & Hrc & _).
  assert (0 < m ≤ runSize) as Hm by lia.
  rewrite take_rng by lia. eexists. split; [done|].
  unfold e_of. cbn [sg_off sg_b sg_bufcap segCap]. rewrite len_rng by lia.
  split_and!; try done.
  constructor; unfold e_of; cbn [sg_off sg_b sg_cap sg_bufcap sg_run]; rewrite ?len_rng by lia;
    try done; try lia.
Qed.

(** What merging keeps: [l'] holds the bytes of [l], in order, in fewer
    buffers; the copies are paid from the call's budget. *)
Record merged (l : list seg) (c : rcall) (l' : list seg) (c' : rcall) (rel : Z) : Prop := {
  mg_wf : Forall (seg_wf S) l';
  mg_set : oset l' = oset l;
  mg_caps : caps l' = caps l - rel;
  mg_rel : 0 ≤ rel;
  mg_copy : rc_copied c' + rc_left c' = rc_copied c + rc_left c;
  mg_left : 0 ≤ rc_left c' ≤ rc_left c
}.

Lemma merge_loop_spec t l c cp :
  seg_wf S t → Forall (seg_wf S) l → asc (e_of t) l → 0 ≤ rc_left c →
  ∃ t' l' c' cp', merge_loop t l c cp = Some (t', l', c', cp') ∧
    sg_off t' = sg_off t ∧ asc (e_of t') l' ∧ merged (t :: l) c (t' :: l') c' (cp' - cp).
Proof.
  revert t c cp. induction l as [|sg l IH]; intros t c cp Ht Hl Ha Hc; cbn [merge_loop].
  { exists t, [], c, cp. split_and!; [done|done|done|].
    constructor; try lia; [by apply Forall_cons|done]. }
  inversion Hl as [|? ? Hsg Hl']; subst. destruct Ha as [Hlo Ha].
  rewrite (sg_end_wf S t) by done.
  destruct (Z.eqb_spec (sg_off sg) (e_of t)) as [Heq|Hne]; cbn [negb orb].
  2:{ exists t, (sg :: l), c, cp. split_and!; [done|done|done|].
      constructor; try lia; [by apply Forall_cons|done]. }
  destruct (Z.ltb_spec (segRoom t) (len (sg_b sg))); cbn [orb].
  { exists t, (sg :: l), c, cp. split_and!; [done|done|done|].
    constructor; try lia; [by apply Forall_cons|done]. }
  destruct (Z.ltb_spec (rc_left c) (len (sg_b sg))).
  { exists t, (sg :: l), c, cp. split_and!; [done|done|done|].
    constructor; try lia; [by apply Forall_cons|done]. }
  pose proof Hsg as [? ? ? Hb ? _ ?].
  destruct (growSeg_spec t (len (sg_b sg)) Ht) as (t' & Hg & Ht' & Ho & He & Hcap);
    [lia|unfold e_of in *; lia|].
  rewrite <- Heq, <- Hb in Hg. rewrite Hg.
  rewrite Z.min_r in He by lia.
  assert (e_of t' = e_of sg) as Hee by (unfold e_of in *; lia).
  destruct (IH t' (RCall (rc_left c - len (sg_b sg)) (rc_copied c + len (sg_b sg))) (cp + segCap sg))
    as (t'' & l'' & c'' & cp'' & Hm & Ho' & Ha' & Hmg); [done|done|by rewrite Hee|cbn; lia|].
  exists t'', l'', c'', cp''. split_and!; [done|by rewrite Ho'|done|].
  destruct Hmg as [Hw Hs Hcp Hr Hcc Hcl]. cbn [rc_left rc_copied caps oset] in *.
  constructor; try done; cbn [caps oset rc_left rc_copied]; unfold segCap in *; try lia.
  rewrite Hs. apply set_eq. intros x. rewrite !elem_of_union, !elem_of_range.
  rewrite Ho, Hee, Heq. unfold e_of in *. destruct Ht. unfold e_of in *. intuition lia.
Qed.

(** What a promotion establishes. *)
Record promoted (lo : Z) (st : rbuf) (c : rcall) (st' : rbuf) (c' : rcall) : Prop := {
  pr_inv : PInv S lo st';
  pr_apart : apart st';
  pr_set : received st' = received st;
  pr_tail : rTail st ≤ rTail st';
  pr_rx : rxBytes st' = u64 (rxBytes st + (rTail st' - rTail st));
  pr_drop : oooDropped st' = oooDropped st;
  pr_charge : charged st' - oooCap st' = charged st - oooCap st;
  pr_copy : rc_copied c' + rc_left c' = rc_copied c + rc_left c;
  pr_left : 0 ≤ rc_left c' ≤ rc_left c
}.

Lemma u64_add_l x y : u64 (u64 x + y) = u64 (x + y).
Proof. unfold wrap. by rewrite Zplus_mod_idemp_l. Qed.

Lemma insert_last {A} (l : list A) t t' : <[(length (l ++ [t]) - 1)%nat := t']> (l ++ [t]) = l ++ [t'].
Proof.
  rewrite length_app. cbn [length]. replace (length l + 1 - 1)%nat with (length l) by lia.
  rewrite insert_app_r_alt by lia. by rewrite Nat.sub_diag.
Qed.

Lemma received_extend st l sg tail' :
  sg_off sg = rTail st → tail' = e_of sg → 0 ≤ rTail st → rTail st ≤ e_of sg →
  range 0 tail' ∪ oset l = range 0 (rTail st) ∪ oset (sg :: l).
Proof.
  intros Ho -> H0 Hle. cbn [oset]. rewrite Ho. apply set_eq. intros x.
  rewrite !elem_of_union, !elem_of_range. intuition lia.
Qed.

Lemma promote_loop_spec lo l st c :
  PInv S lo (RBuf (rTail st) (inq st) l (oooCap st) (oooDropped st) (rxBytes st) (charged st)) →
  inq st ≠ [] → is_u64 (rxBytes st) → 0 ≤ rc_left c →
  ∃ st' c', promote_loop st l c = Some (st', c') ∧
    promoted lo (RBuf (rTail st) (inq st) l (oooCap st) (oooDropped st) (rxBytes st) (charged st)) c st' c'.
Proof.
  revert st c. induction l as [|sg l IH]; intros st c Hinv Hne Hrx Hc; cbn [promote_loop].
  { eexists _, c. split; [done|]. constructor; cbn; try done; try lia.
    rewrite Z.sub_diag, Z.add_0_r. symmetry. by apply wrap_small. }
  pose proof Hinv as [Hlo0 Htl Hch Hwi Hwo Hasc Hcap]. cbn [rTail inq ooq oooCap] in *.
  inversion Hwo as [|? ? Hsg Hwl]; subst. destruct Hasc as [Hle Hasc].
  pose proof (chain_le S _ _ _ Hwi Hch) as Hlt.
  destruct (Z.eqb_spec (sg_off sg) (rTail st)) as [Heq|Hneq].
  2:{ eexists _, c. split; [done|]. constructor; cbn; try done; try lia.
      rewrite Z.sub_diag, Z.add_0_r. symmetry. by apply wrap_small. }
  destruct (last (inq st)) as [t|] eqn:Hlast; [|by apply last_None in Hlast].
  apply last_Some in Hlast as [l0 Hl0]. pose proof Hch as Hch0. rewrite Hl0 in Hch0.
  apply chain_last in Hch0 as [Het Hch0]. rewrite Hl0 in Hwi. apply Forall_app in Hwi as [Hwl0 Hwt].
  inversion Hwt as [|? ? Ht _]; subst. pose proof Hsg as [? ? ? Hb ? _ ?].
  assert (u64 (rTail st + len (sg_b sg)) = e_of sg) as Hu.
  { unfold e_of in *. rewrite wrap_small by (unfold fits; lia). lia. }
  rewrite Hu.
  assert (∀ st1 c1 c0, rTail st1 = e_of sg → PInv S lo (RBuf (rTail st1) (inq st1) l (oooCap st1)
            (oooDropped st1) (rxBytes st1) (charged st1)) → inq st1 ≠ [] →
          rxBytes st1 = u64 (rxBytes st + len (sg_b sg)) → oooDropped st1 = oooDropped st →
          charged st1 - oooCap st1 = charged st - oooCap st →
          rc_copied c1 + rc_left c1 = rc_copied c0 + rc_left c0 → 0 ≤ rc_left c1 ≤ rc_left c0 →
          ∃ st' c', promote_loop st1 l c1 = Some (st', c') ∧
            promoted lo (RBuf (rTail st) (inq st) (sg :: l) (oooCap st) (oooDropped st) (rxBytes st)
              (charged st)) c0 st' c') as Hstep.
  { intros st1 c1 c0 Ht1 Hinv1 Hne1 Hrx1 Hd1 Hch1 Hcc1 Hcl1.
    destruct (IH st1 c1 Hinv1 Hne1) as (st' & c' & Hp & [? ? Hset Htl' Hrx' Hd' Hcg' Hcp' Hcl']);
      [rewrite Hrx1; apply wrap_fits; lia|lia|].
    exists st', c'. split; [done|]. cbn [rTail inq ooq oooCap oooDropped rxBytes charged] in *.
    constructor; try done; cbn [rTail oooDropped rxBytes charged oooCap]; try lia; try congruence.
    - rewrite Hset. unfold received. cbn [rTail ooq]. rewrite Ht1.
      apply (received_extend st); [done|done|lia|unfold e_of in *; lia].
    - unfold e_of in *. lia.
    - rewrite Hrx', Hrx1, u64_add_l. f_equal. rewrite Ht1. unfold e_of. lia. }
  destruct (Z.leb_spec (len (sg_b sg)) (segRoom t)) as [Hroom|Hroom];
    [destruct (Z.leb_spec (len (sg_b sg)) (rc_left c)) as [Hlft|Hlft]|]; cbn [andb].
  - destruct (growSeg_spec t (len (sg_b sg)) Ht) as (t' & Hg & Ht' & Ho & He & Hcp);
      [lia|unfold e_of in *; lia|].
    rewrite Het, <- Heq, <- Hb in Hg. rewrite Hg. rewrite Z.min_r in He by lia.
    apply Hstep; cbn [rTail inq ooq oooCap oooDropped rxBytes charged rc_left rc_copied]; try done; try lia.
    + constructor; cbn [rTail inq ooq oooCap]; try done; try (unfold e_of in *; lia).
      * rewrite Hl0, insert_last. rewrite chain_app. exists (sg_off t). split; [done|].
        cbn [chain]. split; [done|]. unfold e_of in *; lia.
      * rewrite Hl0, insert_last. apply Forall_app. split; [done|]. by apply Forall_singleton.
      * rewrite Hl0, insert_last. rewrite Hcap, Hl0, !caps_app. cbn [caps]. lia.
    + rewrite Hl0, insert_last. by destruct l0.
  - apply Hstep; cbn [rTail inq ooq oooCap oooDropped rxBytes charged]; try done; try lia; [|by destruct (inq st)].
    constructor; cbn [rTail inq ooq oooCap]; try done.
    + rewrite chain_app. exists (rTail st). split; [done|]. by cbn [chain].
    + rewrite Hl0. rewrite !Forall_app. split_and!; [done|by apply Forall_singleton|by apply Forall_singleton].
    + rewrite Hcap, !caps_app. cbn [caps]. lia.
  - apply Hstep; cbn [rTail inq ooq oooCap oooDropped rxBytes charged]; try done; try lia; [|by destruct (inq st)].
    constructor; cbn [rTail inq ooq oooCap]; try done.
    + rewrite chain_app. exists (rTail st). split; [done|]. by cbn [chain].
    + rewrite Hl0. rewrite !Forall_app. split_and!; [done|by apply Forall_singleton|by apply Forall_singleton].
    + rewrite Hcap, !caps_app. cbn [caps]. lia.
Qed.

(** ** Copying in order *)

Lemma appendCopy_loop_spec fuel lo st pos n c :
  chain lo (inq st) pos → Forall (seg_wf S) (inq st) → 0 ≤ pos → 0 ≤ n → pos + n < 2 ^ 64 →
  n ≤ Z.of_nat fuel →
  ∃ l d, appendCopy_loop fuel st pos (rng S pos n) c =
      Some (RBuf (rTail st) l (ooq st) (oooCap st + d) (oooDropped st) (rxBytes st) (charged st + d),
            RCall (rc_left c) (rc_copied c + n)) ∧
    chain lo l (pos + n) ∧ Forall (seg_wf S) l ∧ caps l = caps (inq st) + d ∧
    (inq st ≠ [] ∨ 0 < n → l ≠ []).
Proof.
  revert st pos n c. induction fuel as [|k IH]; intros st pos n c Hch Hw Hp Hn Hov Hf.
  { assert (n = 0) as -> by lia. rewrite rng_0. cbn [appendCopy_loop].
    exists (inq st), 0. rewrite !Z.add_0_r. destruct st, c. split_and!; cbn in *; try done.
    intros [?|?]; [done|lia]. }
  destruct (decide (n = 0)) as [->|Hn0].
  { rewrite rng_0. cbn [appendCopy_loop]. exists (inq st), 0. rewrite !Z.add_0_r.
    destruct st, c. split_and!; cbn in *; try done. intros [?|?]; [done|lia]. }
  destruct (rng S pos n) as [|y q0] eqn:Hq.
  { apply (f_equal len) in Hq. rewrite len_rng, len_nil in Hq; lia. }
  cbn [appendCopy_loop]. rewrite <- Hq. clear Hq y q0.
  assert (∀ m l d, 0 < m ≤ n → chain lo l (pos + m) → Forall (seg_wf S) l →
    caps l = caps (inq st) + d → l ≠ [] →
    ∃ l' d', appendCopy_loop k
        (RBuf (rTail st) l (ooq st) (oooCap st + d) (oooDropped st) (rxBytes st) (charged st + d))
        (u64 (pos + m)) (drop (Z.to_nat m) (rng S pos n)) (RCall (rc_left c) (rc_copied c + m)) =
      Some (RBuf (rTail st) l' (ooq st) (oooCap st + d') (oooDropped st) (rxBytes st) (charged st + d'),
            RCall (rc_left c) (rc_copied c + n)) ∧
      chain lo l' (pos + n) ∧ Forall (seg_wf S) l' ∧ caps l' = caps (inq st) + d' ∧
      (inq st ≠ [] ∨ 0 < n → l' ≠ [])) as Hstep.
  { intros m l d Hm Hcl Hwl Hcp Hne. rewrite wrap_small by (unfold fits; lia). rewrite drop_rng by lia.
    destruct (IH (RBuf (rTail st) l (ooq st) (oooCap st + d) (oooDropped st) (rxBytes st) (charged st + d))
                (pos + m) (n - m) (RCall (rc_left c) (rc_copied c + m))) as (l' & d' & He & Hc' & Hw' & Hcp' & Hne');
      cbn [inq]; try done; try lia.
    exists l', (d + d'). cbn [rTail inq ooq oooCap oooDropped rxBytes charged rc_left rc_copied] in *.
    rewrite He. split_and!; [repeat (f_equal; try lia)|by replace (pos + n) with (pos + m + (n - m)) by lia|done|lia|].
    intros _. apply Hne'. by left. }
  assert (∃ sg, newRun st pos (rng S pos n) = Some (RBuf (rTail st) (inq st) (ooq st) (oooCap st + runCap)
     (oooDropped st) (rxBytes st) (charged st + runCap), sg, Z.min runSize n) ∧ seg_wf S sg ∧ sg_off sg = pos ∧
     e_of sg = pos + Z.min runSize n ∧ segCap sg = runCap) as (sg & Hnr & Hsw & Hso & Hse & Hsc).
  { destruct (newRun_spec st pos n) as (sg & H); [lia|lia|lia|]. by exists sg. }
  destruct run_consts as (Hrs & Hrc & _).
  assert (∃ l' d', match newRun st pos (rng S pos n) with
      | Some (st', sg, m) => appendCopy_loop k (RBuf (rTail st') (inq st' ++ [sg]) (ooq st') (oooCap st')
           (oooDropped st') (rxBytes st') (charged st')) (u64 (pos + m)) (drop (Z.to_nat m) (rng S pos n))
           (RCall (rc_left c) (rc_copied c + m))
      | None => None end =
      Some (RBuf (rTail st) l' (ooq st) (oooCap st + d') (oooDropped st) (rxBytes st) (charged st + d'),
            RCall (rc_left c) (rc_copied c + n)) ∧
      chain lo l' (pos + n) ∧ Forall (seg_wf S) l' ∧ caps l' = caps (inq st) + d' ∧
      (inq st ≠ [] ∨ 0 < n → l' ≠ [])) as Hnew.
  { rewrite Hnr. cbn [rTail inq ooq oooCap oooDropped rxBytes charged]. apply Hstep; [lia| | | |by destruct (inq st)].
    - rewrite chain_app. exists pos. split; [done|]. by cbn [chain].
    - apply Forall_app. split; [done|by apply Forall_singleton].
    - rewrite caps_app. cbn [caps]. lia. }
  destruct (last (inq st)) as [t|] eqn:Hlast; [|exact Hnew].
  destruct (Z.ltb_spec 0 (segRoom t)); [|exact Hnew]. clear Hnew Hnr.
  apply last_Some in Hlast as [l0 Hl0]. rewrite Hl0 in Hch. apply chain_last in Hch as [Het Hch].
  rewrite Hl0 in Hw. apply Forall_app in Hw as [Hw0 Ht]. rewrite Forall_singleton in Ht.
  destruct (growSeg_spec t n Ht) as (t' & Hg & Ht' & Ho & He & Hcp); [lia|lia|].
  rewrite Het in Hg. rewrite Hg.
  specialize (Hstep (Z.min (segRoom t) n) (<[(length (inq st) - 1)%nat := t']> (inq st)) 0).
  rewrite !Z.add_0_r in Hstep. apply Hstep; [lia| | | |].
  - rewrite Hl0, insert_last, chain_app. exists (sg_off t). split; [done|]. cbn [chain]. split; [done|lia].
  - rewrite Hl0, insert_last. apply Forall_app. split; [done|by apply Forall_singleton].
  - rewrite Hl0, insert_last, !caps_app. cbn [caps]. lia.
  - rewrite Hl0, insert_last. by destruct l0.
Qed.

End Place.
