(* ===== verification/RecvCopy.v ===== *)
(** * Placing one frame's bytes

    copyPiecesLocked, keepRefLocked and shedLocked as operations on the set of
    received offsets: which offsets become received, which are dropped and
    counted, and what stays true of the buffers. *)

From Stdlib Require Import ZArith Lia.
From stdpp Require Import base numbers list sorting gmap sets.
From S2P Require Import Prelude CarrierBuf Spans RecvSegs RecvProofs.

Open Scope Z_scope.

(** The end of the last segment of [l], or [lo]. *)
Definition lastEnd (lo : Z) (l : list seg) : Z :=
  match last l with Some t => e_of t | None => lo end.

Lemma asc_app_last lo l1 l2 : asc lo (l1 ++ l2) ↔ asc lo l1 ∧ asc (lastEnd lo l1) l2.
Proof. apply asc_app. Qed.

Lemma lastEnd_snoc lo l t : lastEnd lo (l ++ [t]) = e_of t.
Proof. unfold lastEnd. by rewrite last_snoc. Qed.

Section Copy.
Context (S : Z → Z) (limit : Z).

Abbreviation wf := (Forall (seg_wf S)).

Lemma asc_lastEnd lo l : wf l → asc lo l → lo ≤ lastEnd lo l.
Proof.
  intros Hw Ha. unfold lastEnd. destruct (last l) as [t|] eqn:Ht; [|lia].
  pose proof (last_Some_elem_of _ _ Ht) as Hin.
  pose proof (asc_lower S lo l t Hw Ha Hin). rewrite Forall_forall in Hw.
  destruct (Hw t Hin). unfold e_of in *. lia.
Qed.

Lemma asc_oset_upper lo l x : wf l → asc lo l → x ∈ oset l → x < lastEnd lo l.
Proof.
  intros Hw Ha Hx. apply elem_of_oset in Hx as (sg & Hsg & Hx).
  apply list_elem_of_split in Hsg as (u & v & ->).
  apply asc_app_last in Ha as [_ [_ Ha]]. apply Forall_app in Hw as [_ Hw]. inversion Hw; subst.
  pose proof (asc_lastEnd _ _ ltac:(done) Ha) as Hle.
  unfold lastEnd in *. rewrite last_app, last_cons. destruct (last v); lia.
Qed.

(** Out-of-order data is held only within the limit. *)
Definition capok (st : rbuf) : Prop := ooq st = [] ∨ oooCap st ≤ limit.

(** [A] became received and [D] was dropped. *)
Record placed (lo : Z) (A D : gset Z) (st : rbuf) (c : rcall) (st' : rbuf) (c' : rcall) : Prop := {
  pl_inv : PInv S lo st';
  pl_apart : apart st';
  pl_set : received st' = received st ∪ A;
  pl_new : A ## received st;
  pl_dis : D ## received st';
  pl_tail : rTail st ≤ rTail st';
  pl_rx : rxBytes st' = u64 (rxBytes st + (rTail st' - rTail st));
  pl_drop : oooDropped st' = u64 (oooDropped st + Z.of_nat (size D));
  pl_charge : charged st' - oooCap st' = charged st - oooCap st;
  pl_copy : rc_copied c' + rc_left c' ≤ rc_copied c + rc_left c + Z.of_nat (size A);
  pl_left : 0 ≤ rc_left c' ≤ rc_left c;
  pl_cap : rTail st' = rTail st → inq st' = inq st ∧ (capok st → capok st')
}.

Lemma placed_refl lo st c :
  PInv S lo st → apart st → is_u64 (rxBytes st) → is_u64 (oooDropped st) → 0 ≤ rc_left c →
  placed lo ∅ ∅ st c st c.
Proof.
  intros. constructor; try done; try lia; try set_solver.
  - rewrite Z.sub_diag, Z.add_0_r. by rewrite wrap_small.
  - rewrite size_empty, Z.add_0_r. by rewrite wrap_small.
Qed.

Lemma placed_trans lo A1 D1 A2 D2 st c st1 c1 st2 c2 :
  D1 ## D2 → D1 ## A2 →
  placed lo A1 D1 st c st1 c1 → placed lo A2 D2 st1 c1 st2 c2 →
  placed lo (A1 ∪ A2) (D1 ∪ D2) st c st2 c2.
Proof.
  intros HDD HDA [? ? Hs1 Hn1 Hd1 Ht1 Hr1 Hp1 Hg1 Hc1 Hl1 Hk1] [? ? Hs2 Hn2 Hd2 Ht2 Hr2 Hp2 Hg2 Hc2 Hl2 Hk2].
  constructor; try done; try lia.
  - rewrite Hs2, Hs1. by rewrite assoc_L by apply _.
  - rewrite Hs1 in Hn2. clear - Hn1 Hn2. set_solver.
  - rewrite Hs2 in *. clear - Hd1 Hd2 HDA. set_solver.
  - rewrite Hr2, Hr1, u64_add_l. f_equal. lia.
  - rewrite Hp2, Hp1, u64_add_l, size_union by done. f_equal. lia.
  - rewrite size_union; [lia|]. rewrite Hs1 in Hn2. clear - Hn2. set_solver.
  - intros He. destruct Hk1 as [Hi1 Hk1]; [lia|]. destruct Hk2 as [Hi2 Hk2]; [lia|].
    split; [congruence|auto].
Qed.

Lemma received_lt_tail lo st x : PInv S lo st → 0 ≤ x < rTail st → x ∈ received st.
Proof. intros _ Hx. unfold received. rewrite elem_of_union, elem_of_range. by left. Qed.

Lemma PInv_tail_nonneg lo st : PInv S lo st → 0 ≤ rTail st.
Proof. intros []. pose proof (chain_le S _ _ _ pi_inq pi_chain). lia. Qed.

(** ** In order *)

Lemma appendCopyLocked_spec lo st n c :
  PInv S lo st → is_u64 (rxBytes st) → is_u64 (oooDropped st) → 0 ≤ rc_left c →
  0 < n → rTail st + n < 2 ^ 64 → asc (rTail st + n) (ooq st) →
  ∃ st' c', appendCopyLocked st (rTail st) (rng S (rTail st) n) c = Some (st', c') ∧
    placed lo (range (rTail st) (rTail st + n)) ∅ st c st' c' ∧ rTail st + n ≤ rTail st'.
Proof.
  intros Hinv Hrx Hdr Hc Hn Hov Hasc. pose proof (PInv_tail_nonneg _ _ Hinv) as H0.
  pose proof Hinv as [Hlo Htl Hch Hwi Hwo Ha Hcap].
  unfold appendCopyLocked.
  destruct (appendCopy_loop_spec S (length (rng S (rTail st) n)) lo st (rTail st) n c)
    as (l & d & He & Hcl & Hwl & Hcp & Hne); try done; try lia.
  { pose proof (len_rng S (rTail st) n ltac:(lia)) as Hl. unfold len in Hl. lia. }
  rewrite He, len_rng by lia. cbn [rTail inq ooq oooCap oooDropped rxBytes charged].
  rewrite (wrap_small 64 (rTail st + n)) by (unfold fits; lia).
  unfold promoteLocked. cbn [ooq].
  destruct (promote_loop_spec S lo (ooq st)
     (RBuf (rTail st + n) l (ooq st) (oooCap st + d) (oooDropped st) (u64 (rxBytes st + n)) (charged st + d))
     (RCall (rc_left c) (rc_copied c + n))) as (st' & c' & Hp & Hpr).
  - constructor; cbn [rTail inq ooq oooCap]; try done; lia.
  - apply Hne. by right.
  - cbn [rxBytes]. apply wrap_fits. lia.
  - done.
  - exists st', c'. split; [done|].
    destruct Hpr as [Hi Hap Hset Htl' Hrx' Hd' Hch' Hcp' Hle'].
    cbn [rTail inq ooq oooCap oooDropped rxBytes charged rc_left rc_copied] in *.
    split; [|lia]. constructor; try done; try lia.
    + rewrite Hset. unfold received. cbn [rTail ooq]. apply set_eq. intros x.
      rewrite !elem_of_union, !elem_of_range. intuition lia.
    + intros x Hx Hx'. unfold received in Hx'. apply elem_of_range in Hx.
      apply elem_of_union in Hx' as [Hx'|Hx']; [apply elem_of_range in Hx'; lia|].
      apply (asc_oset_lower S _ _ _ Hwo Hasc) in Hx'. lia.
    + rewrite Hrx', u64_add_l. f_equal. lia.
    + rewrite size_empty, Z.add_0_r, Hd'. by rewrite wrap_small.
    + rewrite size_range by lia. lia.
Qed.

(** ** Out of order *)

Lemma asc_replace_last lo l0 t t' l2 :
  sg_off t' = sg_off t → asc lo (l0 ++ [t]) → asc (e_of t') l2 → asc lo ((l0 ++ [t']) ++ l2).
Proof.
  intros Ho H1 H2. rewrite asc_app_last, lastEnd_snoc. split; [|done].
  apply asc_app_last in H1 as [H1 H3]. apply asc_app_last. split; [done|].
  cbn [asc] in *. by rewrite Ho.
Qed.

Lemma lookup_snoc {A} (l : list A) t l2 : ((l ++ [t]) ++ l2) !! (length (l ++ [t]) - 1)%nat = Some t.
Proof.
  rewrite length_app. cbn [length]. rewrite <- app_assoc, lookup_app_r by lia.
  by replace (length l + 1 - 1 - length l)%nat with 0%nat by lia.
Qed.

Lemma insert_snoc {A} (l : list A) t t' l2 :
  <[(length (l ++ [t]) - 1)%nat := t']> ((l ++ [t]) ++ l2) = (l ++ [t']) ++ l2.
Proof.
  rewrite length_app. cbn [length]. rewrite <- !app_assoc.
  rewrite insert_app_r_alt by lia. by replace (length l + 1 - 1 - length l)%nat with 0%nat by lia.
Qed.

(** The effect of insertCopyLocked's loop on ooq = [l1 ++ l2]: [k] of the [n]
    bytes at [pos] are held by the new [l1'], the others are dropped. *)
Record inserted (lo : Z) (l1 l2 : list seg) (pos n k : Z) (st : rbuf) (c : rcall)
    (l1' : list seg) (st' : rbuf) (c' : rcall) (oi : option nat) : Prop := {
  in_k : 0 ≤ k ≤ n;
  in_inv : PInv S lo st';
  in_same : rTail st' = rTail st ∧ inq st' = inq st ∧ rxBytes st' = rxBytes st;
  in_ooq : ooq st' = l1' ++ l2;
  in_set : oset l1' = oset l1 ∪ range pos (pos + k);
  in_drop : oooDropped st' = u64 (oooDropped st + (n - k));
  in_charge : charged st' - oooCap st' = charged st - oooCap st;
  in_copy : c' = RCall (rc_left c) (rc_copied c + k);
  in_apart : apart st → apart st';
  in_cap : capok st → capok st';
  in_idx : oi = None ∨ oi = Some (length l1') ∧ k = n ∧ l1' ≠ [] ∧ lastEnd 0 l1' = pos + n
}.

Lemma apart_app st l1 l2 :
  ooq st = l1 ++ l2 → l1 ≠ [] → apart st ↔ apart (RBuf (rTail st) (inq st) l1 0 0 0 0).
Proof. intros Ho Hne. unfold apart. rewrite Ho. cbn [ooq rTail]. by destruct l1. Qed.

Lemma insertCopy_grow lo st l0 t l2 pos n :
  PInv S lo st → ooq st = (l0 ++ [t]) ++ l2 → e_of t = pos → 0 < segRoom t → 0 < n →
  pos + n < 2 ^ 64 → asc (pos + n) l2 →
  let m := Z.min (segRoom t) n in
  ∃ t', growSeg t (rng S pos n) = Some (t', m) ∧
    PInv S lo (RBuf (rTail st) (inq st) ((l0 ++ [t']) ++ l2) (oooCap st) (oooDropped st) (rxBytes st) (charged st)) ∧
    e_of t' = pos + m ∧ sg_off t' = sg_off t ∧
    oset (l0 ++ [t']) = oset (l0 ++ [t]) ∪ range pos (pos + m).
Proof.
  intros Hinv Ho He Hroom Hn Hov Ha2 m. pose proof Hinv as [Hlo Htl Hch Hwi Hwo Ha Hcap].
  rewrite Ho in Hwo, Ha, Hcap. apply Forall_app in Hwo as [Hw1 Hw2]. apply Forall_app in Hw1 as [Hw0 Hwt].
  rewrite Forall_singleton in Hwt.
  destruct (growSeg_spec S t n Hwt) as (t' & Hg & Ht' & Hto & Hte & Htc); [lia|lia|].
  rewrite He in Hg, Hte. exists t'. split_and!; try done.
  - constructor; cbn [rTail inq ooq oooCap]; try done.
    + repeat (apply Forall_app; split); try done. by apply Forall_singleton.
    + apply asc_app_last in Ha as [Ha1 _]. apply (asc_replace_last _ _ t); try done.
      apply asc_weaken with (pos + n); [unfold m in *; lia|done].
    + rewrite Hcap, !caps_app. cbn [caps]. lia.
  - rewrite !oset_app. cbn [oset]. rewrite Hto, Hte. apply set_eq. intros x.
    rewrite !elem_of_union, !elem_of_range, elem_of_empty. destruct Hwt. unfold e_of in *. unfold m in *.
    intuition lia.
Qed.

Lemma insertCopy_run lo st l1 l2 pos n :
  PInv S lo st → ooq st = l1 ++ l2 → 0 < n → pos + n < 2 ^ 64 → rTail st < pos →
  lastEnd (rTail st) l1 ≤ pos → asc (pos + n) l2 →
  let m := Z.min runSize n in
  ∃ sg, newRun st pos (rng S pos n) =
      Some (RBuf (rTail st) (inq st) (ooq st) (oooCap st + runCap) (oooDropped st) (rxBytes st)
                 (charged st + runCap), sg, m) ∧
    PInv S lo (RBuf (rTail st) (inq st) ((l1 ++ [sg]) ++ l2) (oooCap st + runCap) (oooDropped st)
                    (rxBytes st) (charged st + runCap)) ∧
    e_of sg = pos + m ∧ sg_off sg = pos ∧ oset (l1 ++ [sg]) = oset l1 ∪ range pos (pos + m).
Proof.
  intros Hinv Ho Hn Hov Hpos He Ha2 m. pose proof (PInv_tail_nonneg _ _ Hinv) as H0.
  pose proof Hinv as [Hlo Htl Hch Hwi Hwo Ha Hcap].
  rewrite Ho in Hwo, Ha, Hcap. apply Forall_app in Hwo as [Hw1 Hw2].
  destruct (newRun_spec S st pos n) as (sg & Hnr & Hsw & Hso & Hse & Hsc); [lia|lia|lia|].
  exists sg. split_and!; try done.
  - constructor; cbn [rTail inq ooq oooCap]; try done.
    + repeat (apply Forall_app; split); try done. by apply Forall_singleton.
    + apply asc_app_last in Ha as [Ha1 _]. rewrite !asc_app_last, lastEnd_snoc.
      split_and!; [done|cbn [asc]; split; [lia|done]|].
      apply asc_weaken with (pos + n); [unfold m in *; lia|done].
    + rewrite Hcap, !caps_app. cbn [caps]. lia.
  - rewrite !oset_app. cbn [oset]. rewrite Hso, Hse. clear. set_solver.
Qed.

(** One placed part of [m] bytes, then the rest. *)
Lemma inserted_step lo l1 l2 pos n m k st c lm stm l1' st' c' oi :
  0 < m ≤ n → oset lm = oset l1 ∪ range pos (pos + m) →
  rTail stm = rTail st → inq stm = inq st → rxBytes stm = rxBytes st →
  oooDropped stm = oooDropped st → charged stm - oooCap stm = charged st - oooCap st →
  (apart st → apart stm) → (capok st → capok stm) →
  inserted lo lm l2 (pos + m) (n - m) k stm (RCall (rc_left c) (rc_copied c + m)) l1' st' c' oi →
  inserted lo l1 l2 pos n (m + k) st c l1' st' c' oi.
Proof.
  intros Hm Hs H1 H2 H3 H4 H5 H6 H7 [Hk Hi (Ha & Hb & Hc) Ho Hset Hd Hch Hcp Hap Hcap Hidx].
  constructor; try done; try lia; try tauto.
  - split_and!; congruence.
  - rewrite Hset, Hs. apply set_eq. intros x. rewrite !elem_of_union, !elem_of_range. intuition lia.
  - rewrite Hd, H4. f_equal. lia.
  - rewrite Hcp. cbn [rc_left rc_copied]. f_equal. lia.
  - destruct Hidx as [?|(? & ? & ? & He)]; [by left|right]. split_and!; try done; lia.
Qed.

Lemma apart_cons st l1 l2 x :
  apart st → ooq st = l1 ++ l2 → rTail st < sg_off x →
  ∀ st', rTail st' = rTail st → ooq st' = (l1 ++ [x]) ++ l2 → apart st'.
Proof.
  unfold apart. intros Hap Ho Hx st' Ht ->. rewrite Ht. rewrite Ho in Hap.
  destruct l1; cbn [app] in *; done.
Qed.

Lemma inserted_zero lo l1 l2 pos st c :
  PInv S lo st → ooq st = l1 ++ l2 → l1 ≠ [] → lastEnd 0 l1 = pos → is_u64 (oooDropped st) →
  inserted lo l1 l2 pos 0 0 st c l1 st c (Some (length l1)).
Proof.
  intros Hinv Ho Hne Hle Hdr. constructor; try done; try lia; rewrite ?Z.add_0_r.
  - rewrite range_empty by lia. set_solver.
  - by rewrite wrap_small.
  - by destruct c.
  - by right.
Qed.

Lemma insertCopy_loop_spec fuel lo st l1 l2 pos n c :
  PInv S lo st → ooq st = l1 ++ l2 → 0 ≤ n ≤ Z.of_nat fuel → pos + n < 2 ^ 64 → rTail st < pos →
  lastEnd (rTail st) l1 ≤ pos → (n = 0 → l1 ≠ [] ∧ lastEnd 0 l1 = pos) → asc (pos + n) l2 →
  is_u64 (oooDropped st) →
  ∃ k l1' st' c' oi,
    insertCopy_loop fuel limit st (length l1) pos (rng S pos n) c = Some (st', c', oi) ∧
    inserted lo l1 l2 pos n k st c l1' st' c' oi.
Proof.
  revert st l1 pos n c. induction fuel as [|f IH]; intros st l1 pos n c Hinv Ho Hn Hov Hpos He Hz Ha2 Hdr.
  all: destruct (decide (n = 0)) as [->|Hn0]; [|try lia].
  1,2: rewrite rng_0; cbn [insertCopy_loop]; exists 0, l1, st, c, (Some (length l1));
    (split; [done|]); destruct (Hz eq_refl); by apply inserted_zero.
  destruct (rng S pos n) as [|y q0] eqn:Hq.
  { apply (f_equal len) in Hq. rewrite len_rng, len_nil in Hq; lia. }
  cbn [insertCopy_loop]. rewrite <- Hq. clear Hq y q0.
  pose proof (PInv_tail_nonneg _ _ Hinv) as H0.
  assert (∃ k l1' st' c' oi,
    (if limit <? oooCap st + runCap then
       Some (RBuf (rTail st) (inq st) (ooq st) (oooCap st) (u64 (oooDropped st + len (rng S pos n)))
                  (rxBytes st) (charged st), c, None)
     else match newRun st pos (rng S pos n) with
          | None => None
          | Some (st', sg, m) =>
              insertCopy_loop f limit
                (RBuf (rTail st') (inq st') (segs_insert (ooq st') (length l1) sg) (oooCap st')
                      (oooDropped st') (rxBytes st') (charged st'))
                (Datatypes.S (length l1)) (u64 (pos + m)) (drop (Z.to_nat m) (rng S pos n))
                (RCall (rc_left c) (rc_copied c + m))
          end) = Some (st', c', oi) ∧ inserted lo l1 l2 pos n k st c l1' st' c' oi) as Hnew.
  { destruct (Z.ltb_spec limit (oooCap st + runCap)) as [Hlim|Hlim].
    - rewrite len_rng by lia. exists 0, l1. eexists _, c, None. split; [done|].
      pose proof Hinv as [? ? ? ? ? ? ?].
      constructor; cbn [rTail inq ooq oooCap oooDropped rxBytes charged]; try done; try lia.
      + rewrite Z.add_0_r, range_empty by lia. set_solver.
      + f_equal. lia.
      + rewrite Z.add_0_r. by destruct c.
      + by left.
    - destruct (insertCopy_run lo st l1 l2 pos n) as (sg & Hnr & Hinv' & Hse & Hso & Hset); try done; try lia.
      rewrite Hnr. cbn [rTail inq ooq oooCap oooDropped rxBytes charged]. destruct run_consts as (Hrs & Hrc & _).
      assert (segs_insert (ooq st) (length l1) sg = (l1 ++ [sg]) ++ l2) as ->.
      { unfold segs_insert. rewrite Ho, take_app_length, drop_app_length, <- app_assoc. done. }
      rewrite (wrap_small 64 (pos + _)) by (unfold fits; lia). rewrite drop_rng by lia.
      destruct (IH (RBuf (rTail st) (inq st) ((l1 ++ [sg]) ++ l2) (oooCap st + runCap) (oooDropped st)
                   (rxBytes st) (charged st + runCap)) (l1 ++ [sg]) (pos + Z.min runSize n) (n - Z.min runSize n)
                  (RCall (rc_left c) (rc_copied c + Z.min runSize n)))
        as (k & l1' & st' & c' & oi & Hl & Hin); cbn [rTail inq ooq oooCap oooDropped]; try done; try lia.
      + rewrite lastEnd_snoc. lia.
      + intros _. rewrite lastEnd_snoc. split; [by destruct l1|lia].
      + by replace (pos + Z.min runSize n + (n - Z.min runSize n)) with (pos + n) by lia.
      + rewrite length_app in Hl. cbn [length] in Hl. rewrite Nat.add_1_r in Hl.
        exists (Z.min runSize n + k), l1', st', c', oi. split; [done|].
        eapply inserted_step; [| | | | | | | | |exact Hin]; cbn [rTail inq ooq oooCap oooDropped rxBytes charged]; try done; try lia.
        * intros Hap. by apply (apart_cons st l1 l2 sg Hap Ho); [lia| |].
        * intros _. right. cbn [oooCap]. lia. }
  destruct (last l1) as [t|] eqn:Hlast.
  2:{ apply last_None in Hlast as ->. cbn [length Nat.ltb Nat.leb]. exact Hnew. }
  apply last_Some in Hlast as [l0 ->]. rewrite Ho, lookup_snoc.
  replace (0 <? length (l0 ++ [t]))%nat with true
    by (symmetry; apply Nat.ltb_lt; rewrite length_app; cbn [length]; lia).
  rewrite <- Ho.
  assert (seg_wf S t) as Ht.
  { pose proof (pi_ooq _ _ _ Hinv) as Hf. rewrite Ho, !Forall_app, Forall_singleton in Hf. tauto. }
  rewrite (sg_end_wf S t Ht).
  destruct (Z.eqb_spec (e_of t) pos) as [Het|]; cbn [andb]; [|exact Hnew].
  destruct (Z.ltb_spec 0 (segRoom t)) as [Hroom|]; [|exact Hnew]. clear Hnew.
  destruct (insertCopy_grow lo st l0 t l2 pos n Hinv Ho Het Hroom ltac:(lia) Hov Ha2)
    as (t' & Hg & Hinv' & Hte & Hto & Hset).
  rewrite Hg, Ho, insert_snoc.
  rewrite (wrap_small 64 (pos + _)) by (unfold fits; lia). rewrite drop_rng by lia.
  destruct (IH (RBuf (rTail st) (inq st) ((l0 ++ [t']) ++ l2) (oooCap st) (oooDropped st)
               (rxBytes st) (charged st)) (l0 ++ [t']) (pos + Z.min (segRoom t) n) (n - Z.min (segRoom t) n)
              (RCall (rc_left c) (rc_copied c + Z.min (segRoom t) n)))
    as (k & l1' & st' & c' & oi & Hl & Hin); cbn [rTail inq ooq oooCap oooDropped]; try done; try lia.
  - rewrite lastEnd_snoc. lia.
  - intros _. rewrite lastEnd_snoc. split; [by destruct l0|lia].
  - by replace (pos + Z.min (segRoom t) n + (n - Z.min (segRoom t) n)) with (pos + n) by lia.
  - replace (length (l0 ++ [t'])) with (length (l0 ++ [t])) in Hl by (rewrite !length_app; done).
    exists (Z.min (segRoom t) n + k), l1', st', c', oi. split; [done|].
    eapply inserted_step; [| | | | | | | | |exact Hin]; cbn [rTail inq ooq oooCap oooDropped rxBytes charged]; try done; try lia.
    + unfold apart. rewrite Ho. cbn [ooq rTail]. destruct l0; cbn [app]; [by rewrite Hto|done].
    + unfold capok. rewrite Ho. cbn [ooq oooCap]. intros [Hbad|?]; [by destruct l0|by right].
Qed.

Record mergedIn (lo : Z) (st : rbuf) (c : rcall) (st' : rbuf) (c' : rcall) : Prop := {
  mi_inv : PInv S lo st';
  mi_same : rTail st' = rTail st ∧ inq st' = inq st ∧ rxBytes st' = rxBytes st ∧
            oooDropped st' = oooDropped st;
  mi_set : oset (ooq st') = oset (ooq st);
  mi_charge : charged st' - oooCap st' = charged st - oooCap st;
  mi_cap : oooCap st' ≤ oooCap st;
  mi_apart : apart st → apart st';
  mi_copy : rc_copied c' + rc_left c' = rc_copied c + rc_left c;
  mi_left : 0 ≤ rc_left c' ≤ rc_left c
}.

Lemma mergeFollowersLocked_spec lo st k t c :
  PInv S lo st → ooq st !! k = Some t → 0 ≤ rc_left c →
  ∃ st' c', mergeFollowersLocked st k c = Some (st', c') ∧ mergedIn lo st c st' c'.
Proof.
  intros Hinv Hk Hc. unfold mergeFollowersLocked. rewrite Hk.
  pose proof Hinv as [Hlo Htl Hch Hwi Hwo Ha Hcap].
  pose proof (take_drop_middle _ _ _ Hk) as Hsplit. rewrite <- Hsplit in Hwo, Ha, Hcap.
  apply Forall_app in Hwo as [Hw1 Hw2]. inversion Hw2 as [|? ? Ht Hw3]; subst.
  apply asc_app_last in Ha as [Ha1 Ha2]. destruct Ha2 as [Hlo2 Ha2].
  destruct (merge_loop_spec S t (drop (Datatypes.S k) (ooq st)) c 0 Ht Hw3 Ha2 Hc)
    as (t' & r & c' & cp & Hm & Ho & Ha' & [Hwm Hsm Hcm Hrm Hcc Hcl]).
  rewrite Hm. eexists _, c'. split; [done|]. rewrite Z.sub_0_r in *.
  constructor; cbn [rTail inq ooq oooCap oooDropped rxBytes charged]; try done; try lia.
  - constructor; cbn [rTail inq ooq oooCap]; try done.
    + by apply Forall_app.
    + apply asc_app_last. split; [done|]. cbn [asc]. by rewrite Ho.
    + rewrite Hcap, !caps_app, Hcm. lia.
  - rewrite <- Hsplit at 2. by rewrite !oset_app, Hsm.
  - unfold apart. cbn [ooq rTail]. rewrite <- Hsplit at 1.
    destruct (take k (ooq st)); cbn [app]; [by rewrite Ho|done].
Qed.

Lemma insertCopyLocked_spec lo st l1 l2 pos n c :
  PInv S lo st → apart st → is_u64 (rxBytes st) → is_u64 (oooDropped st) → 0 ≤ rc_left c →
  ooq st = l1 ++ l2 → 0 < n → pos + n < 2 ^ 64 → rTail st < pos →
  lastEnd (rTail st) l1 ≤ pos → asc (pos + n) l2 →
  ∃ st' c' k, 0 ≤ k ≤ n ∧
    insertCopyLocked limit st (length l1) pos (rng S pos n) c = Some (st', c') ∧
    placed lo (range pos (pos + k)) (range (pos + k) (pos + n)) st c st' c' ∧ rTail st' = rTail st.
Proof.
  intros Hinv Hap Hrx Hdr Hc Ho Hn Hov Hpos He Ha2. unfold insertCopyLocked.
  pose proof (PInv_tail_nonneg _ _ Hinv) as H0.
  destruct (insertCopy_loop_spec (length (rng S pos n)) lo st l1 l2 pos n c)
    as (k & l1' & st1 & c1 & oi & Hl & [Hk Hi (Ht & Hq & Hr) Ho1 Hs Hd Hg Hcp Hap1 Hcap1 Hix]); try done; try lia.
  { pose proof (len_rng S pos n ltac:(lia)) as Hlen. unfold len in Hlen. lia. }
  rewrite Hl.
  assert (oset l1 ∪ oset l2 = oset (ooq st)) as Hun by (by rewrite Ho, oset_app).
  assert (range pos (pos + n) ## received st) as Hdis.
  { intros x Hx Hx'. apply elem_of_range in Hx. unfold received in Hx'.
    pose proof Hinv as [_ _ _ _ Hwo Ha _]. rewrite Ho in Hwo, Ha. apply Forall_app in Hwo as [Hw1 Hw2].
    apply asc_app_last in Ha as [Ha1 _].
    rewrite <- Hun, !elem_of_union, elem_of_range in Hx'. destruct Hx' as [?|[Hx'|Hx']]; [lia| |].
    - pose proof (asc_oset_upper _ _ _ Hw1 Ha1 Hx'). lia.
    - pose proof (asc_oset_lower S _ _ _ Hw2 Ha2 Hx'). lia. }
  assert (∃ st' c', match oi with Some i => mergeFollowersLocked st1 (i - 1) c1 | None => Some (st1, c1) end
            = Some (st', c') ∧ mergedIn lo st1 c1 st' c') as (st' & c' & Hmf & Hmi).
  { destruct Hix as [->|(-> & -> & Hne & _)].
    - exists st1, c1. split; [done|]. rewrite Hcp. by constructor.
    - destruct (last l1') as [t|] eqn:Hlast; [|by apply last_None in Hlast].
      apply last_Some in Hlast as [l0 ->].
      apply (mergeFollowersLocked_spec lo st1 _ t); [done|by rewrite Ho1, lookup_snoc|by rewrite Hcp]. }
  exists st', c', k. split; [lia|]. split.
  { destruct oi; exact Hmf. }
  destruct Hmi as [Hi' (Ht' & Hq' & Hr' & Hd') Hs' Hg' Hcap' Hap' Hcc Hcl].
  assert (received st' = received st ∪ range pos (pos + k)) as Hset.
  { unfold received. rewrite Ht', Ht, Hs', Ho1, oset_app, Hs, <- Hun.
    clear. apply set_eq. intros x. rewrite !elem_of_union. tauto. }
  split; [|congruence].
  constructor; try done; try lia.
  - by apply Hap', Hap1.
  - intros x Hx. apply Hdis. apply elem_of_range. apply elem_of_range in Hx. lia.
  - intros x Hx Hx'. apply elem_of_range in Hx. rewrite Hset, elem_of_union, elem_of_range in Hx'.
    destruct Hx' as [Hx'|?]; [|lia]. apply (Hdis x); [apply elem_of_range; lia|done].
  - rewrite Hr', Hr, Ht', Ht, Z.sub_diag, Z.add_0_r. by rewrite wrap_small.
  - rewrite Hd', Hd, size_range by lia. f_equal. lia.
  - rewrite Hcc, Hcp, size_range by lia. cbn [rc_left rc_copied]. lia.
  - rewrite Hcp in Hcl. cbn [rc_left] in Hcl. lia.
  - intros _. split; [congruence|]. intros Hok. specialize (Hcap1 Hok). destruct Hcap1 as [Hnil|?]; [|right; lia].
    left. destruct (ooq st') as [|sg r] eqn:Hoo; [done|]. exfalso.
    rewrite Hnil in Hs'. cbn [oset] in Hs'.
    pose proof (pi_ooq _ _ _ Hi') as Hw. rewrite Hoo in Hw. inversion Hw as [|? ? [] _]; subst.
    assert (sg_off sg ∈ (∅ : gset Z)) as Hbad; [|set_solver].
    rewrite <- Hs'. apply elem_of_union_l, elem_of_range. unfold e_of in *. lia.
Qed.

(** ** The index of the first segment ending after an offset *)

Lemma segs_after_split lo l x :
  wf l → asc lo l →
  ∃ l1 l2, l = l1 ++ l2 ∧ segs_after l x = length l1 ∧
    (∀ sg, sg ∈ l1 → e_of sg ≤ x) ∧ (∀ sg r, l2 = sg :: r → x < e_of sg).
Proof.
  intros Hw Ha. unfold segs_after.
  assert (∀ i sg, l !! i = Some sg → sg_end (sg_at l i) = e_of sg) as Hat.
  { intros i sg Hi. unfold sg_at. rewrite Hi. cbn. apply (sg_end_wf S). by eapply Forall_lookup_1. }
  destruct (bsearch_spec (length l) (λ m, sg_end (sg_at l m) <=? x) 0 (length l)) as ([_ Hle] & Hlt & Hge); [lia|lia| |].
  { intros i j _ Hij Hj Hp. destruct (decide (i = j)) as [->|]; [done|].
    destruct (lookup_lt_is_Some_2 l i) as [a Hla]; [lia|]. destruct (lookup_lt_is_Some_2 l j) as [b Hlb]; [lia|].
    rewrite (Hat _ _ Hlb) in Hp. rewrite (Hat _ _ Hla). apply Z.leb_le in Hp. apply Z.leb_le.
    rewrite <- (take_drop_middle _ _ _ Hla) in Ha, Hw. apply asc_app_last in Ha as [_ [_ Ha]].
    apply Forall_app in Hw as [_ Hw]. inversion Hw as [|? ? _ Hwr]; subst.
    assert (b ∈ drop (Datatypes.S i) l) as Hb.
    { apply list_elem_of_lookup. exists (j - Datatypes.S i)%nat. rewrite lookup_drop, <- Hlb. f_equal. lia. }
    pose proof (asc_lower S _ _ _ Hwr Ha Hb). rewrite Forall_forall in Hwr.
    destruct (Hwr b Hb). unfold e_of in *. lia. }
  set (i := bsearch _ _ _ _) in *. exists (take i l), (drop i l).
  rewrite take_drop, length_take. split_and!; [done|lia| |].
  - intros sg Hsg. apply list_elem_of_lookup in Hsg as [m Hm]. apply lookup_take_Some in Hm as [Hm Hmi].
    specialize (Hlt m ltac:(lia)). rewrite (Hat _ _ Hm) in Hlt. by apply Z.leb_le.
  - intros sg r Hd. assert (l !! i = Some sg) as Hi.
    { rewrite <- (Nat.add_0_r i), <- lookup_drop, Hd. done. }
    pose proof (lookup_lt_Some _ _ _ Hi). specialize (Hge i ltac:(lia)). rewrite (Hat _ _ Hi) in Hge.
    by apply Z.leb_gt.
Qed.

(** ** copyPiecesLocked *)

Lemma received_cover lo st a b e :
  PInv S lo st → (∀ x, a ≤ x < b → x ∈ received st) → a ≤ b →
  range b e ∖ received st = range a e ∖ received st.
Proof.
  intros _ Hab Hle. apply set_eq. intros x. rewrite !elem_of_difference, !elem_of_range.
  specialize (Hab x). split; intros [H1 H2]; (split; [|done]); [lia|].
  destruct (decide (x < b)); [exfalso; apply H2, Hab; lia|lia].
Qed.

Lemma piece_next lo st pos e l1 l2 :
  PInv S lo st → rTail st ≤ pos → pos < e → ooq st = l1 ++ l2 →
  (∀ sg, sg ∈ l1 → e_of sg ≤ pos) → (∀ sg r, l2 = sg :: r → pos < sg_off sg) →
  let stop := match l2 with sg :: _ => Z.min e (sg_off sg) | [] => e end in
  pos < stop ≤ e ∧ asc stop l2 ∧ lastEnd (rTail st) l1 ≤ pos ∧ (pos = rTail st → l1 = []).
Proof.
  intros Hinv Hp He Ho H1 H2 stop. pose proof Hinv as [_ _ _ _ Hwo Ha _]. rewrite Ho in Ha, Hwo.
  apply asc_app_last in Ha as [Ha1 Ha2]. apply Forall_app in Hwo as [Hw1 Hw2]. split_and!.
  - unfold stop. destruct l2 as [|sg r]; [lia|]. specialize (H2 sg r eq_refl). lia.
  - unfold stop. destruct l2; lia.
  - unfold stop. destruct l2 as [|sg r]; [done|]. cbn [asc] in *. split; [lia|tauto].
  - unfold lastEnd. destruct (last l1) as [t|] eqn:Ht; [|done]. apply H1. by apply last_Some_elem_of.
  - intros ->. destruct l1 as [|t l1]; [done|]. exfalso. specialize (H1 t ltac:(by left)).
    cbn [asc] in Ha1. inversion Hw1 as [|? ? [] _]; subst. unfold e_of in *. lia.
Qed.

Lemma copyPieces_loop_spec fuel lo st off e pos c :
  PInv S lo st → apart st → is_u64 (rxBytes st) → is_u64 (oooDropped st) → 0 ≤ rc_left c →
  0 ≤ off → off ≤ pos → off ≤ e → e < 2 ^ 64 → e - pos ≤ Z.of_nat fuel →
  ∃ st' c' A D,
    copyPieces_loop fuel limit st off e (rng S off (e - off)) pos c = Some (st', c') ∧
    placed lo A D st c st' c' ∧ A ∪ D = range pos e ∖ received st ∧
    (pos ≤ rTail st → e ≤ rTail st').
Proof.
  revert st pos c. induction fuel as [|k IH]; intros st pos c Hinv Hap Hrx Hdr Hc Ho0 Hop Hoe Hov Hf.
  all: cbn [copyPieces_loop]; destruct (Z.ltb_spec pos e) as [Hlt|Hge]; [try lia|].
  1,3: exists st, c, ∅, ∅; (split_and!; [done|by apply placed_refl| |lia]);
    rewrite range_empty by lia; clear; set_solver.
  pose proof (PInv_tail_nonneg _ _ Hinv) as H0.
  destruct (Z.ltb_spec pos (rTail st)) as [Hpt|Hpt].
  { destruct (IH st (rTail st) c) as (st' & c' & A & D & Hl & Hpl & HAD & Htl); try done; try lia.
    exists st', c', A, D. split_and!; [done|done| |intros _; by apply Htl].
    rewrite HAD. apply (received_cover lo); [done| |lia]. intros x Hx.
    apply (received_lt_tail lo); [done|lia]. }
  pose proof Hinv as [_ _ _ _ Hwo Ha _].
  destruct (segs_after_split (rTail st) (ooq st) pos Hwo Ha) as (l1 & l2 & Hsp & Hi & Hl1 & Hl2).
  rewrite Hi. assert (ooq st !! length l1 = head l2) as Hnx.
  { rewrite Hsp, lookup_app_r, Nat.sub_diag by lia. by destruct l2. }
  rewrite Hnx. destruct (match head l2 with Some sg => sg_off sg <=? pos | None => false end) eqn:Hheld.
  { destruct l2 as [|sg r]; [done|]. cbn [head] in *. apply Z.leb_le in Hheld.
    specialize (Hl2 sg r eq_refl).
    assert (seg_wf S sg) as Hsg by (rewrite Hsp in Hwo; apply Forall_app in Hwo as [_ Hwo]; by inversion Hwo).
    assert (sg_at (ooq st) (length l1) = sg) as -> by (unfold sg_at; by rewrite Hnx).
    rewrite (sg_end_wf S sg Hsg).
    destruct (IH st (e_of sg) c) as (st' & c' & A & D & Hl & Hpl & HAD & Htl); try done; try lia.
    exists st', c', A, D. split_and!; [done|done| |].
    - rewrite HAD. apply (received_cover lo); [done| |lia]. intros x Hx. unfold received.
      apply elem_of_union_r. rewrite Hsp, oset_app. apply elem_of_union_r. cbn [oset].
      apply elem_of_union_l, elem_of_range. lia.
    - intros Hpr. exfalso. assert (pos = rTail st) as -> by lia.
      assert (l1 = []) as ->.
      { destruct l1 as [|t l1']; [done|]. rewrite Hsp in Hwo. cbn in Hwo. inversion Hwo as [|? ? [] _]; subst.
        rewrite Hsp in Ha. cbn [app asc] in Ha. specialize (Hl1 t ltac:(by left)). unfold e_of in *. lia. }
      unfold apart in Hap. rewrite Hsp in Hap. cbn in Hap. lia. }
  assert (∀ sg r, l2 = sg :: r → pos < sg_off sg) as Hfree.
  { intros sg r ->. cbn [head] in Hheld. by apply Z.leb_gt in Hheld. }
  destruct (piece_next lo st pos e l1 l2 Hinv Hpt Hlt Hsp Hl1 Hfree) as ([Hs1 Hs2] & Has & Hle & Hnil).
  assert (match head l2 with Some sg => Z.min e (sg_off sg) | None => e end =
          match l2 with sg :: _ => Z.min e (sg_off sg) | [] => e end) as -> by (by destruct l2).
  set (stop := match l2 with sg :: _ => Z.min e (sg_off sg) | [] => e end) in *.
  rewrite sub_rng by lia. replace (off + (pos - off)) with pos by lia.
  replace (stop - off - (pos - off)) with (stop - pos) by lia.
  assert (∃ st1 c1 A1 D1, (if pos =? rTail st then appendCopyLocked st pos (rng S pos (stop - pos)) c
             else insertCopyLocked limit st (length l1) pos (rng S pos (stop - pos)) c) = Some (st1, c1) ∧
           placed lo A1 D1 st c st1 c1 ∧ A1 ∪ D1 = range pos stop ∧ (pos ≤ rTail st → stop ≤ rTail st1))
    as (st1 & c1 & A1 & D1 & Hst & Hpl1 & HAD1 & Htl1).
  { destruct (Z.eqb_spec pos (rTail st)) as [Heq|Hne].
    - destruct (appendCopyLocked_spec lo st (stop - pos) c) as (st1 & c1 & Hst & Hpl1 & Htl1); try done; try lia.
      { rewrite (Hnil Heq) in Hsp. cbn in Hsp. rewrite Hsp, <- Heq.
        by replace (pos + (stop - pos)) with stop by lia. }
      exists st1, c1, (range (rTail st) (rTail st + (stop - pos))), ∅. rewrite <- Heq in *.
      split_and!; [done|done| |lia]. replace (pos + (stop - pos)) with stop by lia. clear; set_solver.
    - destruct (insertCopyLocked_spec lo st l1 l2 pos (stop - pos) c) as (st1 & c1 & m & Hm & Hst & Hpl1 & Htl1); try done; try lia.
      { by replace (pos + (stop - pos)) with stop by lia. }
      eexists st1, c1, _, _. split_and!; [done|exact Hpl1| |lia].
      apply set_eq. intros x. rewrite elem_of_union, !elem_of_range. lia. }
  rewrite Hst. pose proof Hpl1 as [Hi1 Hap1 Hset1 Hnew1 Hdis1 _ Hrx1 Hdr1 _ _ Hc1 _].
  destruct (IH st1 stop c1) as (st' & c' & A2 & D2 & Hl & Hpl2 & HAD2 & Htl2); try done; try lia.
  { rewrite Hrx1. apply wrap_fits. lia. }
  { rewrite Hdr1. apply wrap_fits. lia. }
  assert (∀ x, x ∈ A1 ∪ D1 → x < stop) as Hb1.
  { intros x. rewrite HAD1, elem_of_range. lia. }
  assert (∀ x, x ∈ A2 ∪ D2 → stop ≤ x) as Hb2.
  { intros x. rewrite HAD2, elem_of_difference, elem_of_range. lia. }
  exists st', c', (A1 ∪ A2), (D1 ∪ D2). split_and!; [done| | |auto].
  - apply (placed_trans lo A1 D1 A2 D2 st c st1 c1); [| |done|done];
      intros x Hx1 Hx2; specialize (Hb1 x ltac:(set_solver)); specialize (Hb2 x ltac:(set_solver)); lia.
  - apply set_eq. intros x. rewrite elem_of_difference, elem_of_range.
    assert (x ∈ A1 ∪ D1 ↔ pos ≤ x < stop) as E1 by (rewrite HAD1, elem_of_range; done).
    assert (x ∈ A2 ∪ D2 ↔ stop ≤ x < e ∧ x ∉ received st1) as E2 by (rewrite HAD2, elem_of_difference, elem_of_range; done).
    assert (x ∈ A1 ∪ D1 → x ∉ received st) as E3.
    { rewrite elem_of_union. intros [Hx|Hx] Hr; [by apply (Hnew1 x)|].
      apply (Hdis1 x); [done|]. rewrite Hset1. by apply elem_of_union_l. }
    rewrite Hset1, elem_of_union in E2. rewrite !elem_of_union in *.
    destruct (decide (x < stop)).
    + assert (¬ (x ∈ A2 ∨ x ∈ D2)) by (rewrite E2; lia).
      assert (pos ≤ x < stop ↔ pos ≤ x < e) by lia. tauto.
    + assert (¬ (x ∈ A1 ∨ x ∈ D1)) by (rewrite E1; lia).
      assert (stop ≤ x < e ↔ pos ≤ x < e) by lia. tauto.
Qed.

End Copy.
