(* ===== verification/RecvFrame.v ===== *)
(** * The held part of a frame, references and shedding

    heldIn, keepRefLocked, shedLocked and the comparisons of recv.go and
    stream.go, on the set of received offsets. *)

From Stdlib Require Import ZArith Lia.
From stdpp Require Import base numbers list sorting gmap sets.
From S2P Require Import Prelude CarrierBuf Spans RecvSegs RecvProofs RecvCopy.

Open Scope Z_scope.

Section Frame.
Context (S : Z → Z) (limit : Z).

Abbreviation wf := (Forall (seg_wf S)).

(** ** The bytes of a list of segments *)

Fixpoint lens (l : list seg) : Z :=
  match l with [] => 0 | sg :: r => len (sg_b sg) + lens r end.

Lemma lens_nonneg l : 0 ≤ lens l.
Proof. induction l as [|sg l IH]; cbn [lens]; [lia|]. pose proof (len_nonneg (sg_b sg)). lia. Qed.

Lemma lens_size lo l : wf l → asc lo l → lens l = Z.of_nat (size (oset l)) ∧ lo + lens l ≤ lastEnd lo l.
Proof.
  revert lo. induction l as [|sg l IH]; intros lo Hw Ha.
  { cbn [lens oset]. rewrite size_empty. unfold lastEnd. cbn. lia. }
  inversion Hw as [|? ? Hsg Hwl]; subst. destruct Ha as [Hlo Ha].
  destruct (IH _ Hwl Ha) as [IH1 IH2]. destruct Hsg.
  assert (lastEnd (e_of sg) l = lastEnd lo (sg :: l)) as <-.
  { unfold lastEnd. rewrite last_cons. by destruct (last l). }
  cbn [lens oset]. split; [|unfold e_of in *; lia]. rewrite size_union.
  - rewrite Nat2Z.inj_add, size_range by (unfold e_of; lia). unfold e_of in *. lia.
  - intros x Hx Hx'. apply elem_of_range in Hx. pose proof (asc_oset_lower S _ _ _ Hwl Ha Hx'). lia.
Qed.

Lemma segs_bytes_lens lo l : wf l → asc lo l → 0 ≤ lo → lastEnd lo l < 2 ^ 64 → segs_bytes l = lens l.
Proof.
  revert lo. induction l as [|sg l IH]; intros lo Hw Ha Hlo Hov; [done|].
  pose proof (lens_size lo (sg :: l) Hw Ha) as [_ Hb].
  inversion Hw as [|? ? Hsg Hwl]; subst. destruct Ha as [Hle Ha]. destruct Hsg.
  cbn [segs_bytes lens] in *. rewrite (IH (e_of sg)); try done.
  - pose proof (lens_nonneg l). apply wrap_small. unfold fits. lia.
  - unfold e_of in *; lia.
  - unfold lastEnd in *. rewrite last_cons in Hov. by destruct (last l).
Qed.

(** ** heldIn *)

Lemma heldIn_loop_spec lo l e h :
  wf l → asc lo l → is_u64 (h_bytes h) →
  ∃ mid lb x, l = mid ++ lb ∧
    heldIn_loop l e h = HeldRange (h_s0 h) x (h_a h) (h_b h + length mid) (u64 (h_bytes h + lens mid))
                                  (h_charge h + caps mid) ∧
    (∀ sg, sg ∈ mid → e_of sg ≤ e) ∧
    ((x = h_x h ∧ ∀ sg r, lb = sg :: r → e ≤ sg_off sg) ∨
     (∃ sg r, lb = sg :: r ∧ x = sg_off sg ∧ sg_off sg < e < e_of sg)).
Proof.
  revert lo h. induction l as [|sg l IH]; intros lo h Hw Ha Hb; cbn [heldIn_loop].
  { exists [], [], (h_x h). destruct h. cbn in *. rewrite Nat.add_0_r, !Z.add_0_r, wrap_small by done.
    split_and!; [done|done|intros sg Hs; by apply elem_of_nil in Hs|]. left. by split. }
  inversion Hw as [|? ? Hsg Hwl]; subst. destruct Ha as [Hlo Ha]. rewrite (sg_end_wf S sg) by done.
  destruct (Z.ltb_spec (sg_off sg) e) as [Hoe|Hoe].
  2:{ exists [], (sg :: l), (h_x h). destruct h. cbn in *. rewrite Nat.add_0_r, !Z.add_0_r, wrap_small by done.
      split_and!; [done|done|intros ? Hs; by apply elem_of_nil in Hs|]. left. split; [done|].
      by intros ? ? [= -> ->]. }
  destruct (Z.ltb_spec e (e_of sg)) as [Hee|Hee].
  { exists [], (sg :: l), (sg_off sg). destruct h. cbn in *. rewrite Nat.add_0_r, !Z.add_0_r, wrap_small by done.
    split_and!; [done|done|intros ? Hs; by apply elem_of_nil in Hs|]. right. by exists sg, l. }
  destruct (IH (e_of sg) (HeldRange (h_s0 h) (h_x h) (h_a h) (Datatypes.S (h_b h))
     (u64 (h_bytes h + len (sg_b sg))) (h_charge h + segCap sg))) as (mid & lb & x & -> & He & Hm & Hx); try done.
  { cbn [h_bytes]. apply wrap_fits. lia. }
  exists (sg :: mid), lb, x. cbn [h_s0 h_x h_a h_b h_bytes h_charge] in *. split_and!; try done.
  - rewrite He. cbn [lens caps length]. f_equal; [lia|by rewrite u64_add_l, Z.add_assoc|lia].
  - intros s Hs. apply elem_of_cons in Hs as [->|Hs]; [done|by apply Hm].
Qed.

(** The segments of ooq before, inside and after the frame's new bytes. *)
Record heldSplit (st : rbuf) (start e : Z) (h : heldRange) (la mid lb : list seg) : Prop := {
  hs_split : ooq st = la ++ mid ++ lb;
  hs_a : h_a h = length la;
  hs_b : h_b h = (length la + length mid)%nat;
  hs_charge : h_charge h = caps mid;
  hs_la : lastEnd (rTail st) la ≤ h_s0 h;
  hs_start : start ≤ h_s0 h;
  hs_x : h_x h ≤ e;
  hs_lb : asc (h_x h) lb;
  hs_mid : asc (h_s0 h) mid ∧ lastEnd (h_s0 h) mid ≤ Z.max (h_s0 h) (h_x h);
  hs_new : range start e ∖ received st = range (h_s0 h) (h_x h) ∖ oset mid;
  hs_n : newBytes h = Z.of_nat (size (range start e ∖ received st))
}.

Lemma newBytes_size s0 x a b c l :
  wf l → asc s0 l → lastEnd s0 l ≤ Z.max s0 x → 0 ≤ s0 → x < 2 ^ 64 →
  newBytes (HeldRange s0 x a b (u64 (0 + lens l)) c) = Z.of_nat (size (range s0 x ∖ oset l)).
Proof.
  intros Hw Ha Hle H0 Hx. unfold newBytes. cbn [h_x h_s0 h_bytes].
  destruct (lens_size s0 l Hw Ha) as [Hsz Hb]. pose proof (lens_nonneg l).
  destruct (Z.leb_spec x s0).
  { rewrite range_empty by lia. replace (∅ ∖ oset l) with (∅ : gset Z) by set_solver. by rewrite size_empty. }
  rewrite Z.add_0_l, (wrap_small 64 (lens l)) by (unfold fits; lia). rewrite wrap_small by (unfold fits; lia).
  rewrite size_difference; [rewrite Nat2Z.inj_sub, size_range; [lia|lia|]|].
  - apply subseteq_size. intros y Hy. apply elem_of_range.
    pose proof (asc_oset_lower S _ _ _ Hw Ha Hy). pose proof (asc_oset_upper S _ _ _ Hw Ha Hy). lia.
  - intros y Hy. apply elem_of_range.
    pose proof (asc_oset_lower S _ _ _ Hw Ha Hy). pose proof (asc_oset_upper S _ _ _ Hw Ha Hy). lia.
Qed.

Lemma heldIn_from lo st start e s0 la rest :
  PInv S lo st → rTail st ≤ start → start ≤ s0 → e < 2 ^ 64 →
  ooq st = la ++ rest → lastEnd (rTail st) la ≤ s0 → asc s0 rest →
  (∀ y, start ≤ y < s0 → y ∈ oset la) →
  ∃ mid lb, heldSplit st start e
    (heldIn_loop rest e (HeldRange s0 e (length la) (length la) 0 0)) la mid lb.
Proof.
  intros Hinv Hst Hs0 He Ho Hla Hrest Hcov. pose proof Hinv as [Hlo _ Hch Hwi Hwo Ha _].
  pose proof (chain_le S _ _ _ Hwi Hch). rewrite Ho in Hwo, Ha. apply Forall_app in Hwo as [Hwa Hwr].
  apply asc_app_last in Ha as [Haa _].
  destruct (heldIn_loop_spec s0 rest e (HeldRange s0 e (length la) (length la) 0 0) Hwr Hrest)
    as (mid & lb & x & -> & Hh & Hm & Hx); [done|].
  cbn [h_s0 h_x h_a h_b h_bytes h_charge] in *. rewrite Hh.
  apply Forall_app in Hwr as [Hwm Hwb]. apply asc_app_last in Hrest as [Ham Hab].
  pose proof (asc_lastEnd S s0 mid Hwm Ham) as Hlm.
  assert (x ≤ e ∧ asc x lb) as [Hxe Hxb].
  { destruct Hx as [[-> Hx]|(sg & r & -> & -> & Hx)].
    - split; [lia|]. destruct lb as [|sg r]; [done|]. cbn [asc] in *. specialize (Hx sg r eq_refl). tauto.
    - split; [lia|]. cbn [asc] in *. split; [lia|tauto]. }
  assert (lastEnd s0 mid ≤ Z.max s0 x) as Hmx.
  { destruct Hx as [[-> _]|(sg & r & -> & -> & _)].
    - unfold lastEnd. destruct (last mid) as [t|] eqn:Ht; [|lia].
      specialize (Hm t (last_Some_elem_of _ _ Ht)). lia.
    - cbn [asc] in Hab. lia. }
  assert (range start e ∖ received st = range s0 x ∖ oset mid) as Hnew.
  { apply set_eq. intros y. rewrite !elem_of_difference, !elem_of_range. unfold received.
    rewrite Ho, !oset_app, !elem_of_union, elem_of_range.
    assert (y ∈ oset la → y < s0) as E1 by (intros Hy; pose proof (asc_oset_upper S _ _ _ Hwa Haa Hy); lia).
    assert (y ∈ oset lb → x ≤ y) as E2 by (intros Hy; pose proof (asc_oset_lower S _ _ _ Hwb Hxb Hy); lia).
    assert (x ≤ y < e → y ∈ oset lb) as E3.
    { intros Hy. destruct Hx as [[-> _]|(sg & r & -> & -> & Hx)]; [lia|]. cbn [oset].
      apply elem_of_union_l, elem_of_range. lia. }
    specialize (Hcov y). split.
    - intros [Hy Hn]. split; [|tauto]. split; [destruct (decide (y < s0)); [tauto|lia]|].
      destruct (decide (x ≤ y)); [tauto|lia].
    - intros [Hy Hn]. split; [lia|]. intros [?|[?|[?|?]]]; [lia|specialize (E1 H0); lia|tauto|].
      specialize (E2 H0). lia. }
  exists mid, lb. constructor; cbn [h_s0 h_x h_a h_b h_bytes h_charge]; try done; try lia.
  rewrite Hnew. rewrite Z.add_0_l. replace (lens mid) with (0 + lens mid) by lia.
  apply newBytes_size; try done; lia.
Qed.

Lemma heldIn_spec lo st start e :
  PInv S lo st → rTail st ≤ start → e < 2 ^ 64 →
  ∃ la mid lb, heldSplit st start e (heldIn st start e) la mid lb.
Proof.
  intros Hinv Hst He. pose proof Hinv as [_ _ _ _ Hwo Ha _]. unfold heldIn.
  destruct (segs_after_split S (rTail st) (ooq st) start Hwo Ha) as (l1 & l2 & Hsp & Hi & Hl1 & Hl2).
  rewrite Hi. assert (ooq st !! length l1 = head l2) as ->.
  { rewrite Hsp, lookup_app_r, Nat.sub_diag by lia. by destruct l2. }
  rewrite Hsp in Hwo, Ha. apply Forall_app in Hwo as [Hw1 Hw2]. apply asc_app_last in Ha as [Ha1 Ha2].
  assert (lastEnd (rTail st) l1 ≤ start) as Hle.
  { unfold lastEnd. destruct (last l1) as [t|] eqn:Ht; [|done]. apply Hl1. by apply last_Some_elem_of. }
  assert (drop (length l1) (ooq st) = l2) as Hd by (by rewrite Hsp, drop_app_length).
  destruct l2 as [|sg r]; cbn [head].
  { rewrite Hd. destruct (heldIn_from lo st start e start l1 []) as (mid & lb & H); try done; try lia; eauto. }
  specialize (Hl2 sg r eq_refl). inversion Hw2 as [|? ? Hsg Hwr]; subst. destruct Ha2 as [Hlo2 Ha2].
  destruct (Z.ltb_spec (sg_off sg) start) as [Hlt|Hge].
  - rewrite (sg_end_wf S sg Hsg).
    assert (drop (Datatypes.S (length l1)) (ooq st) = r) as ->.
    { rewrite Hsp. rewrite <- (Nat.add_1_r (length l1)), <- drop_drop, drop_app_length. done. }
    destruct (heldIn_from lo st start e (e_of sg) (l1 ++ [sg]) r) as (mid & lb & H); try done; try lia.
    + by rewrite Hsp, <- app_assoc.
    + rewrite lastEnd_snoc. lia.
    + intros y Hy. rewrite oset_app. apply elem_of_union_r. cbn [oset].
      apply elem_of_union_l, elem_of_range. lia.
    + rewrite length_app in H. cbn [length] in H. rewrite Nat.add_1_r in H. eauto.
  - rewrite Hd. destruct (heldIn_from lo st start e start l1 (sg :: r)) as (mid & lb & H); try done; try lia; eauto.
Qed.

(** ** Keeping a frame by reference *)

Lemma apart_tail lo st : PInv S lo st → apart st → rTail st ∉ received st.
Proof.
  intros [_ _ _ _ Hwo Ha _] Hap Hin. unfold received in Hin.
  apply elem_of_union in Hin as [Hin|Hin]; [apply elem_of_range in Hin; lia|].
  unfold apart in Hap. destruct (ooq st) as [|sg r]; [set_solver|].
  assert (asc (rTail st + 1) (sg :: r)) as Ha' by (cbn [asc] in *; split; [lia|tauto]).
  pose proof (asc_oset_lower S _ _ _ Hwo Ha' Hin). lia.
Qed.

Lemma releaseOOORange_split st la mid lb :
  ooq st = la ++ mid ++ lb →
  releaseOOORange st (length la) (length la + length mid) =
  RBuf (rTail st) (inq st) (la ++ lb) (oooCap st - caps mid) (oooDropped st) (rxBytes st)
       (charged st - caps mid).
Proof.
  intros Ho. unfold releaseOOORange, segs_cut. rewrite Ho.
  replace (length la + length mid - length la)%nat with (length mid) by lia.
  rewrite drop_app_length, take_app_length.
  destruct (Nat.leb_spec (length la + length mid) (length la)).
  { assert (mid = []) as -> by (apply nil_length_inv; lia). done. }
  rewrite take_app_length, <- drop_drop, drop_app_length, drop_app_length. done.
Qed.

(** The segment that references the frame over [s0, x). *)
Lemma refSeg_wf off e s0 x pcap bcap :
  0 ≤ off → off ≤ s0 → s0 < x → x ≤ e → e < 2 ^ 64 → e - off ≤ pcap → 0 ≤ bcap →
  let sg := Seg s0 (rng S s0 (x - s0)) (pcap - (s0 - off)) bcap false in
  sub (rng S off (e - off)) (s0 - off) (x - off) = Some (sg_b sg) ∧ seg_wf S sg ∧ e_of sg = x.
Proof.
  intros. unfold e_of. cbn [sg sg_b sg_off]. rewrite sub_rng by lia. rewrite len_rng by lia. split_and!; [|constructor|lia];
    unfold e_of; cbn [sg sg_off sg_b sg_cap sg_bufcap sg_run]; rewrite ?len_rng by lia; try done; try lia.
  f_equal. f_equal; lia.
Qed.

Lemma taken_all lo st A st0 start e :
  PInv S lo st → apart st → received st = received st0 ∪ A →
  A = range start e ∖ received st0 → rTail st0 ≤ start → start ≤ rTail st → e ≤ rTail st.
Proof.
  intros Hinv Hap Hr -> H0 Hs. destruct (decide (e ≤ rTail st)) as [|Hn]; [done|]. exfalso.
  apply (apart_tail lo st Hinv Hap). rewrite Hr, elem_of_union, elem_of_difference, elem_of_range.
  destruct (decide (rTail st ∈ received st0)); [by left|right]. split; [lia|done].
Qed.

Lemma keepRefLocked_spec lo st off e fb c :
  PInv S lo st → apart st → is_u64 (rxBytes st) → is_u64 (oooDropped st) → 0 ≤ rc_left c →
  0 ≤ off → off < e → e < 2 ^ 64 → e - off ≤ fb_pcap fb → 0 ≤ fb_cap fb →
  let start := Z.max off (rTail st) in
  let h := heldIn st start e in
  0 < newBytes h →
  ∃ st' c' A D,
    keepRefLocked limit st off (rng S off (e - off)) fb h (newBytes h) c = Some (st', c') ∧
    placed S limit lo A D (releaseBuf st (Some fb)) c st' c' ∧
    A ∪ D = range start e ∖ received st ∧
    rc_copied c' + rc_left c' = rc_copied c + rc_left c ∧
    (off ≤ rTail st → e ≤ rTail st').
Proof.
  intros Hinv Hap Hrx Hdr Hc Hoff Hoe He Hpc Hbc start h Hnpos.
  pose proof (PInv_tail_nonneg S _ _ Hinv) as H0.
  destruct (heldIn_spec lo st start e Hinv ltac:(lia) He) as (la & mid & lb & Hh). fold h in Hh.
  destruct Hh as [Hsp Hha Hhb Hhc Hla Hst Hhx Hlb [Ham Hmx] Hnew Hn].
  assert (h_s0 h < h_x h) as Hsx.
  { unfold newBytes in Hnpos. destruct (Z.leb_spec (h_x h) (h_s0 h)); lia. }
  destruct (refSeg_wf off e (h_s0 h) (h_x h) (fb_pcap fb) (fb_cap fb)) as (Hsub & Hsg & Hse); try lia.
  set (sg := Seg (h_s0 h) _ _ _ _) in *. unfold keepRefLocked. rewrite Hsub.
  change (Seg (h_s0 h) (sg_b sg) (fb_pcap fb - (h_s0 h - off)) (fb_cap fb) false) with sg.
  pose proof Hinv as [Hlo Htl Hch Hwi Hwo Ha Hcap]. rewrite Hsp in Hwo, Ha, Hcap.
  apply Forall_app in Hwo as [Hwa Hwo]. apply Forall_app in Hwo as [Hwm Hwb].
  apply asc_app_last in Ha as [Haa _]. rewrite !caps_app in Hcap.
  set (A := range start e ∖ received st).
  assert (received st ∪ A = range 0 (rTail st) ∪ (oset la ∪ range (h_s0 h) (h_x h) ∪ oset lb)) as Hrec.
  { unfold A. rewrite Hnew. unfold received. rewrite Hsp, !oset_app. apply set_eq. intros y.
    rewrite !elem_of_union, elem_of_difference, !elem_of_range.
    assert (y ∈ oset mid → h_s0 h ≤ y < h_x h) as Hmid.
    { intros Hy. pose proof (asc_oset_lower S _ _ _ Hwm Ham Hy). pose proof (asc_oset_upper S _ _ _ Hwm Ham Hy). lia. }
    destruct (decide (y ∈ oset mid)); tauto. }
  assert (A ## received (releaseBuf st (Some fb))) as HAd by (unfold A, received; cbn [releaseBuf rTail ooq]; clear; set_solver).
  assert (rc_copied c + rc_left c ≤ rc_copied c + rc_left c + Z.of_nat (size A)) as Hcle by lia.
  rewrite Hha, Hhb, (releaseOOORange_split st la mid lb Hsp).
  destruct (Z.eqb_spec (h_s0 h) (rTail st)) as [Hord|Hord].
  - assert (la = []) as ->.
    { destruct la as [|t la]; [done|]. exfalso. inversion Hwa as [|? ? [] _]; subst.
      cbn [asc] in Haa. assert (lastEnd (rTail st) (t :: la) = lastEnd (e_of t) la) as Hle.
      { unfold lastEnd. rewrite last_cons. by destruct (last la). }
      inversion Hwa as [|? ? _ Hwa']; subst. pose proof (asc_lastEnd S _ _ Hwa' (proj2 Haa)).
      unfold e_of in *. lia. }
    cbn [app rTail inq ooq oooCap oooDropped rxBytes charged length caps] in *.
    unfold promoteLocked. cbn [ooq].
    destruct (promote_loop_spec S lo lb
       (RBuf (h_x h) (inq st ++ [sg]) lb (oooCap st - caps mid + fb_cap fb) (oooDropped st)
             (u64 (rxBytes st + u64 (h_x h - h_s0 h))) (charged st - caps mid)) c) as (st' & c' & Hp & Hpr).
    { constructor; cbn [rTail inq ooq oooCap]; try done; try lia.
      - rewrite chain_app. exists (rTail st). split; [done|]. cbn [chain]. done.
      - apply Forall_app. split; [done|by apply Forall_singleton].
      - rewrite Hcap, caps_app. cbn [caps]. change (segCap sg) with (fb_cap fb). lia. }
    { cbn [inq]. by destruct (inq st). }
    { cbn [rxBytes]. apply wrap_fits. lia. }
    { done. }
    destruct Hpr as [Hi' Hap' Hset' Htl' Hrx' Hd' Hg' Hcp' Hlf'].
    cbn [rTail inq ooq oooCap oooDropped rxBytes charged] in *.
    assert (received st' = received st ∪ A) as Hset.
    { rewrite Hset', Hrec. unfold received. cbn [rTail ooq oset]. apply set_eq. intros y.
      rewrite !elem_of_union, !elem_of_range, elem_of_empty. intuition lia. }
    exists st', c', A, ∅. split_and!; [done| |clear; set_solver|done|].
    + constructor; cbn [releaseBuf rTail inq ooq oooCap oooDropped rxBytes charged]; try done; try lia.
      * rewrite Hrx', u64_add_l. rewrite (wrap_small 64 (h_x h - h_s0 h)) by (unfold fits; lia). f_equal. lia.
      * rewrite size_empty, Z.add_0_r, Hd'. by rewrite wrap_small.
    + intros Hle. apply (taken_all lo st' A st start e); try done; lia.
  - assert (off ≤ rTail st → False) as Hno.
    { intros Hle. assert (start = rTail st) as Hsr by lia.
      assert (rTail st ∈ range (h_s0 h) (h_x h) ∖ oset mid) as Hbad.
      { rewrite <- Hnew, elem_of_difference, elem_of_range. split; [lia|]. by apply (apart_tail lo). }
      rewrite elem_of_difference, elem_of_range in Hbad. lia. }
    rewrite Hhc. destruct (Z.ltb_spec limit (oooCap st - caps mid + fb_cap fb)) as [Hlim|Hlim].
    + eexists _, c, ∅, A. split_and!; [done| |clear; set_solver|done|tauto].
      constructor; cbn [releaseBuf rTail inq ooq oooCap oooDropped rxBytes charged]; try done; try lia.
      * constructor; cbn [rTail inq ooq oooCap]; apply Hinv.
      * unfold received. cbn [rTail ooq]. clear; set_solver.
      * rewrite Z.sub_diag, Z.add_0_r. by rewrite wrap_small.
      * by rewrite Hn.
    + cbn [rTail inq ooq oooCap oooDropped rxBytes charged].
      assert (segs_insert (la ++ lb) (length la) sg = la ++ sg :: lb) as ->.
      { unfold segs_insert. by rewrite take_app_length, drop_app_length. }
      destruct (mergeFollowersLocked_spec S lo
         (RBuf (rTail st) (inq st) (la ++ sg :: lb) (oooCap st - caps mid + fb_cap fb) (oooDropped st)
               (rxBytes st) (charged st - caps mid)) (length la) sg c) as (st' & c' & Hm & Hmi).
      { constructor; cbn [rTail inq ooq oooCap]; try done; try lia.
        - apply Forall_app. split; [done|by apply Forall_cons].
        - apply asc_app_last. split; [done|]. cbn [asc]. rewrite Hse. split; [done|done].
        - rewrite Hcap, caps_app. cbn [caps]. change (segCap sg) with (fb_cap fb). lia. }
      { cbn [ooq]. by rewrite lookup_app_r, Nat.sub_diag by lia. }
      { done. }
      destruct Hmi as [Hi' (Ht' & Hq' & Hr' & Hd') Hs' Hg' Hcap' Hap' Hcc Hcl].
      cbn [rTail inq ooq oooCap oooDropped rxBytes charged] in *.
      assert (received st' = received st ∪ A) as Hset.
      { unfold received at 1. rewrite Hrec, Ht', Hs', oset_app. cbn [oset]. rewrite Hse. cbn [sg sg_off].
        clear. apply set_eq. intros y. rewrite !elem_of_union. tauto. }
      exists st', c', A, ∅. split_and!; [done| |clear; set_solver|done|tauto].
      constructor; cbn [releaseBuf rTail inq ooq oooCap oooDropped rxBytes charged]; try done; try lia.
      * apply Hap'. unfold apart in *. cbn [ooq rTail]. rewrite Hsp in Hap.
        destruct la; cbn [app] in *; [cbn [sg sg_off]; unfold lastEnd in Hla; cbn in Hla; lia|done].
      * rewrite Ht', Z.sub_diag, Z.add_0_r, Hr'. by rewrite wrap_small.
      * rewrite size_empty, Z.add_0_r, Hd'. by rewrite wrap_small.
      * intros _. split; [done|]. intros _. right. lia.
Qed.

(** ** Shedding *)

Lemma shed_loop_spec l cap d rel :
  is_u64 d →
  ∃ x l', l = x ++ l' ∧
    shed_loop l limit cap d rel = (l', cap - caps x, u64 (d + lens x), rel + caps x) ∧
    (l' = [] ∨ cap - caps x ≤ limit).
Proof.
  revert cap d rel. induction l as [|sg l IH]; intros cap d rel Hd; cbn [shed_loop].
  { exists [], []. cbn [caps lens app]. rewrite Z.sub_0_r, !Z.add_0_r, wrap_small by done.
    split_and!; [done|done|by left]. }
  destruct (Z.ltb_spec limit cap).
  - destruct (IH (cap - segCap sg) (u64 (d + len (sg_b sg))) (rel + segCap sg)) as (x & l' & -> & He & Hc).
    { apply wrap_fits. lia. }
    exists (sg :: x), l'. rewrite He. cbn [caps lens app]. split_and!; [done| |].
    + rewrite u64_add_l. f_equal; [f_equal|]; [f_equal; lia|f_equal; lia|lia].
    + destruct Hc as [?|?]; [by left|right; lia].
  - exists [], (sg :: l). cbn [caps lens app]. rewrite Z.sub_0_r, !Z.add_0_r, wrap_small by done.
    split_and!; [done|done|by right].
Qed.

Lemma lens_reverse l : lens (reverse l) = lens l.
Proof.
  assert (∀ a b, lens (a ++ b) = lens a + lens b) as Happ.
  { induction a; intros b; cbn [lens app]; [done|]. rewrite IHa. lia. }
  induction l as [|sg l IH]; [done|]. rewrite reverse_cons, Happ, IH. cbn [lens]. lia.
Qed.

Lemma caps_reverse l : caps (reverse l) = caps l.
Proof. induction l as [|sg l IH]; [done|]. rewrite reverse_cons, caps_app, IH. cbn [caps]. lia. Qed.

(** Shedding removes the highest out-of-order bytes [D] and counts them. *)
Record shed (lo : Z) (D : gset Z) (st st' : rbuf) : Prop := {
  sh_inv : PInv S lo st';
  sh_apart : apart st → apart st';
  sh_same : rTail st' = rTail st ∧ inq st' = inq st ∧ rxBytes st' = rxBytes st;
  sh_set : received st' = received st ∖ D;
  sh_sub : D ⊆ received st;
  sh_ooo : ∀ x, x ∈ D → rTail st ≤ x;
  sh_drop : oooDropped st' = u64 (oooDropped st + Z.of_nat (size D));
  sh_charge : charged st' - oooCap st' = charged st - oooCap st;
  sh_cap : capok limit st'
}.

Lemma shedLocked_spec lo st :
  PInv S lo st → is_u64 (oooDropped st) → ∃ D, shed lo D st (shedLocked limit st).
Proof.
  intros Hinv Hd. unfold shedLocked.
  destruct (shed_loop_spec (reverse (ooq st)) (oooCap st) (oooDropped st) 0 Hd) as (x & l' & Hsp & He & Hc).
  rewrite He. apply (f_equal reverse) in Hsp. rewrite reverse_involutive, reverse_app in Hsp.
  pose proof Hinv as [Hlo Htl Hch Hwi Hwo Ha Hcap]. rewrite Hsp in Hwo, Ha, Hcap.
  apply Forall_app in Hwo as [Hw1 Hw2]. apply asc_app_last in Ha as [Ha1 Ha2].
  destruct (lens_size _ _ Hw2 Ha2) as [Hlen _].
  rewrite lens_reverse in Hlen. pose proof (asc_lastEnd S _ _ Hw1 Ha1) as Hle.
  pose proof (caps_reverse x) as Hcx. rewrite caps_app in Hcap.
  exists (oset (reverse x)).
  constructor; cbn [rTail inq ooq oooCap oooDropped rxBytes charged]; try done; try lia.
  - constructor; cbn [rTail inq ooq oooCap]; try done. lia.
  - unfold apart. rewrite Hsp. cbn [ooq rTail]. by destruct (reverse l').
  - unfold received. cbn [rTail ooq]. rewrite Hsp, oset_app. apply set_eq. intros y.
    rewrite elem_of_difference, !elem_of_union, elem_of_range.
    assert (y ∈ oset (reverse x) → lastEnd (rTail st) (reverse l') ≤ y) as E1 by (apply (asc_oset_lower S); done).
    assert (y ∈ oset (reverse l') → y < lastEnd (rTail st) (reverse l')) as E2 by (apply (asc_oset_upper S); done).
    destruct (decide (y ∈ oset (reverse x))) as [Hy|]; [specialize (E1 Hy)|]; intuition lia.
  - unfold received. rewrite Hsp, oset_app. clear. set_solver.
  - intros y Hy. pose proof (asc_oset_lower S _ _ _ Hw2 Ha2 Hy). lia.
  - f_equal. lia.
  - unfold capok. cbn [ooq oooCap]. destruct Hc as [->|?]; [by left|by right].
Qed.

(** ** Comparing with held bytes *)

Lemma bytes_rng p off : p = rng (λ y, p !!! Z.to_nat (y - off)) off (len p).
Proof.
  apply list_eq. intros i. destruct (p !! i) as [v|] eqn:Hi.
  - pose proof (lookup_lt_Some _ _ _ Hi). replace i with (Z.to_nat (off + Z.of_nat i - off)) by lia.
    rewrite rng_lookup by (unfold len; lia). rewrite <- (list_lookup_total_correct _ _ _ Hi). f_equal. f_equal. lia.
  - symmetry. apply lookup_ge_None. apply lookup_ge_None in Hi. unfold rng. rewrite length_fmap, length_seqZ.
    unfold len. lia.
Qed.

Lemma bytes_eqb_rng (T : Z → Z) a n :
  bytes_eqb (rng S a n) (rng T a n) = true ↔ ∀ y, a ≤ y < a + n → S y = T y.
Proof.
  unfold bytes_eqb. rewrite bool_decide_eq_true. split.
  - intros H y Hy. by apply (rng_inj S T a n).
  - apply rng_ext.
Qed.

Lemma segs_equal_loop_spec lo l (T : Z → Z) off n :
  wf l → asc lo l → 0 ≤ n → (∀ sg r, l = sg :: r → off < e_of sg) →
  ∃ b, segs_equal_loop l off (off + n) (rng T off n) = Some b ∧
    (b = true ↔ ∀ y, y ∈ oset l → off ≤ y < off + n → S y = T y).
Proof.
  revert lo. induction l as [|sg l IH]; intros lo Hw Ha Hn Hf; cbn [segs_equal_loop].
  { exists true. split; [done|]. cbn [oset]. set_solver. }
  inversion Hw as [|? ? Hsg Hwl]; subst. destruct Ha as [Hlo Ha]. specialize (Hf sg l eq_refl).
  pose proof Hsg as [? ? ? Hb ? _ _]. rewrite (sg_end_wf S sg Hsg).
  destruct (Z.ltb_spec (sg_off sg) (off + n)) as [Hoe|Hoe].
  2:{ exists true. split; [done|]. split; [|done]. intros _ y Hy Hr. exfalso.
      assert (asc (sg_off sg) (sg :: l)) as Ha' by (cbn [asc]; split; [lia|done]).
      pose proof (asc_oset_lower S _ _ _ Hw Ha' Hy). lia. }
  set (a := Z.max off (sg_off sg)). set (b := Z.min (off + n) (e_of sg)).
  assert (a ≤ b) as Hab by (unfold a, b, e_of in *; lia).
  rewrite Hb. rewrite (sub_rng S) by (unfold a, b, e_of in *; lia).
  rewrite (sub_rng T) by (unfold a, b in *; lia).
  replace (sg_off sg + (a - sg_off sg)) with a by lia. replace (off + (a - off)) with a by lia.
  replace (b - sg_off sg - (a - sg_off sg)) with (b - a) by lia. replace (b - off - (a - off)) with (b - a) by lia.
  destruct (bytes_eqb (rng S a (b - a)) (rng T a (b - a))) eqn:Hq.
  - rewrite bytes_eqb_rng in Hq. destruct (IH (e_of sg) Hwl Ha Hn) as (v & Hv & Hiff).
    { intros s r ->. inversion Hwl as [|? ? [] _]; subst. cbn [asc] in Ha. unfold e_of in *. lia. }
    exists v. split; [done|]. rewrite Hiff. cbn [oset]. split.
    + intros Hall y Hy Hr. apply elem_of_union in Hy as [Hy|Hy]; [|by apply Hall].
      apply elem_of_range in Hy. apply Hq. unfold a, b. lia.
    + intros Hall y Hy. apply Hall. by apply elem_of_union_r.
  - exists false. split; [done|]. split; [done|]. intros Hall. exfalso.
    assert (bytes_eqb (rng S a (b - a)) (rng T a (b - a)) = true) as Ht; [|congruence].
    apply bytes_eqb_rng. intros y Hy. apply Hall; [|unfold a, b in *; lia]. cbn [oset].
    apply elem_of_union_l, elem_of_range. unfold a, b in *; lia.
Qed.

Lemma segs_equal_spec lo l (T : Z → Z) off n :
  wf l → asc lo l → 0 ≤ off → 0 ≤ n → off + n < 2 ^ 64 →
  ∃ b, segs_equal l off (rng T off n) = Some b ∧
    (b = true ↔ ∀ y, y ∈ oset l → off ≤ y < off + n → S y = T y).
Proof.
  intros Hw Ha Ho Hn Hov. unfold segs_equal. rewrite len_rng, wrap_small by (try unfold fits; lia).
  destruct (segs_after_split S lo l off Hw Ha) as (l1 & l2 & -> & Hi & Hl1 & Hl2). rewrite Hi, drop_app_length.
  apply Forall_app in Hw as [_ Hw2]. apply asc_app_last in Ha as [_ Ha2].
  destruct (segs_equal_loop_spec _ l2 T off n Hw2 Ha2 Hn Hl2) as (b & Hb & Hiff).
  exists b. split; [done|]. rewrite Hiff, oset_app. split; intros H y Hy Hr; [|apply H; [by apply elem_of_union_r|done]].
  apply elem_of_union in Hy as [Hy|Hy]; [|by apply H]. exfalso.
  apply elem_of_oset in Hy as (sg & Hs & Hy). specialize (Hl1 sg Hs). lia.
Qed.

Lemma ring_equal_spec lo l hi (T : Z → Z) a n :
  wf l → chain lo l hi → lo ≤ a → 0 ≤ n → a + n ≤ hi → hi < 2 ^ 64 → 0 ≤ lo →
  ∃ b, ring_equal l a (rng T a n) = Some b ∧ (b = true ↔ ∀ y, a ≤ y < a + n → S y = T y).
Proof.
  revert lo a n. induction l as [|sg l IH]; intros lo a n Hw Hc Hla Hn Hah Hov H0.
  { cbn [chain] in Hc. assert (n = 0) as -> by lia. exists true. split; [done|]. split; [lia|done]. }
  destruct (decide (n = 0)) as [->|Hn0].
  { rewrite rng_0. exists true. split; [done|]. split; [lia|done]. }
  cbn [ring_equal]. destruct (rng T a n) as [|v q0] eqn:Hq.
  { apply (f_equal len) in Hq. rewrite len_rng, len_nil in Hq; lia. }
  rewrite <- Hq. clear Hq v q0. inversion Hw as [|? ? Hsg Hwl]; subst. destruct Hc as [Ho Hc].
  pose proof Hsg as [? ? ? Hb ? _ _]. rewrite (sg_end_wf S sg Hsg).
  destruct (Z.leb_spec (e_of sg) a) as [Hle|Hgt].
  { apply (IH (e_of sg)); try done. unfold e_of in *; lia. }
  assert (sub (sg_b sg) (a - sg_off sg) (len (sg_b sg)) = Some (rng S a (e_of sg - a))) as ->.
  { unfold e_of in *. remember (len (sg_b sg)) as k eqn:Hk. rewrite Hb, sub_rng by lia.
    f_equal. f_equal; lia. }
  rewrite !len_rng by lia. set (m := Z.min (e_of sg - a) n). rewrite !take_rng by lia.
  rewrite wrap_small by (unfold fits; lia). rewrite drop_rng by lia.
  destruct (bytes_eqb (rng S a m) (rng T a m)) eqn:Hq.
  - rewrite bytes_eqb_rng in Hq.
    assert (∃ b, ring_equal l (a + m) (rng T (a + m) (n - m)) = Some b ∧
              (b = true ↔ ∀ y, a + m ≤ y < a + m + (n - m) → S y = T y)) as (b & Hv & Hiff).
    { destruct (decide (m = n)) as [->|].
      - rewrite Z.sub_diag, rng_0. exists true. split; [by destruct l|]. split; [lia|done].
      - apply (IH (e_of sg)); try done; lia. }
    exists b. split; [done|]. rewrite Hiff. split; intros Hall y Hy; [|apply Hall; lia].
    destruct (decide (y < a + m)); [apply Hq; lia|apply Hall; lia].
  - exists false. split; [done|]. split; [done|]. intros Hall. exfalso.
    assert (bytes_eqb (rng S a m) (rng T a m) = true) as Ht; [|congruence].
    apply bytes_eqb_rng. intros y Hy. apply Hall. lia.
Qed.

(** ** One frame *)

Lemma placed_releaseBuf lo A D st c st' c' buf :
  placed S limit lo A D st c st' c' →
  placed S limit lo A D (releaseBuf st buf) c (releaseBuf st' buf) c'.
Proof.
  intros [[] Hap Hset Hnew Hdis Htl Hrx Hd Hg Hcp Hl Hcap]. destruct buf as [fb|]; [|by constructor].
  constructor; cbn [releaseBuf rTail inq ooq oooCap oooDropped rxBytes charged]; try done; lia.
Qed.

Lemma placeFrame_spec lo st off e buf :
  PInv S lo st → apart st → is_u64 (rxBytes st) → is_u64 (oooDropped st) →
  0 ≤ off → off < e → e < 2 ^ 64 →
  (∀ fb, buf = Some fb → e - off ≤ fb_pcap fb ∧ 0 ≤ fb_cap fb) →
  (buf = None → e - off < runSize) →
  ∃ st' c' A D,
    placeFrame limit st off e (rng S off (e - off)) buf = Some (st', c') ∧
    placed S limit lo A D (releaseBuf st buf) (RCall copyBudget 0) st' c' ∧
    A ∪ D = range off e ∖ received st ∧ A ## D ∧
    rc_copied c' ≤ copyBudget ∧
    (off ≤ rTail st → e ≤ rTail st').
Proof.
  intros Hinv Hap Hrx Hdr Ho Hoe He Hfb Hsmall. unfold placeFrame.
  pose proof (PInv_tail_nonneg S _ _ Hinv) as H0. destruct run_consts as (Hrs & Hrc & Hcb).
  set (start := Z.max off (rTail st)). set (h := heldIn st start e).
  destruct (heldIn_spec lo st start e Hinv ltac:(lia) He) as (la & mid & lb & Hh). fold h in Hh.
  pose proof (hs_n _ _ _ _ _ _ _ Hh) as Hn. clear Hh la mid lb.
  assert (range off e ∖ received st = range start e ∖ received st) as Hnew.
  { symmetry. apply (received_cover S lo); [done| |lia]. intros x Hx. apply (received_lt_tail S lo); [done|lia]. }
  assert (Z.of_nat (size (range start e ∖ received st)) ≤ e - off) as Hsz.
  { rewrite <- Hnew, <- (size_range off e) by lia. apply inj_le, subseteq_size. clear. set_solver. }
  assert (∀ A D st' c', placed S limit lo A D (releaseBuf st buf) (RCall copyBudget 0) st' c' → A ## D) as HAD.
  { intros A D st' c' Hp x HA HD. apply (pl_dis _ _ _ _ _ _ _ _ _ Hp x HD).
    rewrite (pl_set _ _ _ _ _ _ _ _ _ Hp). by apply elem_of_union_r. }
  assert (newBytes h ≤ copyBudget →
    ∃ st' c' A D,
      match copyPiecesLocked limit st off (rng S off (e - off)) (RCall (copyBudget - newBytes h) 0) with
      | None => None
      | Some (st', c') => Some (releaseBuf st' buf, c')
      end = Some (st', c') ∧
      placed S limit lo A D (releaseBuf st buf) (RCall copyBudget 0) st' c' ∧
      A ∪ D = range off e ∖ received st ∧ A ## D ∧ rc_copied c' ≤ copyBudget ∧
      (off ≤ rTail st → e ≤ rTail st')) as Hcopy.
  { intros Hle. unfold copyPiecesLocked. rewrite len_rng by lia.
    replace (off + (e - off)) with e by lia. rewrite wrap_small by (unfold fits; lia).
    destruct (copyPieces_loop_spec S limit (length (rng S off (e - off))) lo st off e off
               (RCall (copyBudget - newBytes h) 0)) as (st' & c' & A & D & Hl & Hpl & Hun & Htl);
      try done; try lia.
    { cbn [rc_left]. lia. }
    { pose proof (len_rng S off (e - off) ltac:(lia)) as Hlen. unfold len in Hlen. lia. }
    rewrite Hl. assert (Z.of_nat (size A) ≤ newBytes h) as HA.
    { rewrite Hn, <- Hnew, <- Hun. apply inj_le, subseteq_size. clear. set_solver. }
    apply (placed_releaseBuf _ _ _ _ _ _ _ buf) in Hpl.
    assert (rc_copied c' + rc_left c' ≤ copyBudget ∧ 0 ≤ rc_left c' ≤ copyBudget) as [Hc1 Hc2].
    { pose proof (pl_copy _ _ _ _ _ _ _ _ _ Hpl). pose proof (pl_left _ _ _ _ _ _ _ _ _ Hpl).
      cbn [rc_left rc_copied] in *. lia. }
    assert (placed S limit lo A D (releaseBuf st buf) (RCall copyBudget 0) (releaseBuf st' buf) c') as Hpl'.
    { destruct Hpl. constructor; try done; cbn [rc_left rc_copied] in *; lia. }
    exists (releaseBuf st' buf), c', A, D. split_and!; try done; [by eapply HAD|lia|]. destruct buf; done. }
  destruct buf as [fb|]; [|apply Hcopy; specialize (Hsmall eq_refl); lia].
  destruct (Z.ltb_spec 0 (newBytes h)) as [Hpos|]; cbn [andb]; [|apply Hcopy; lia].
  destruct (Z.ltb_spec copyBudget (newBytes h)) as [Hbig|Hle]; cbn [orb];
    [|destruct (byRef h (fb_cap fb)); [|by apply Hcopy]]; clear Hcopy.
  all: destruct (Hfb fb eq_refl) as [Hp1 Hp2];
    destruct (keepRefLocked_spec lo st off e fb (RCall copyBudget 0)) as (st' & c' & A & D & Hk & Hpl & Hun & Hcp & Htl);
      try done; try (cbn [rc_left]; lia);
    exists st', c', A, D; rewrite Hnew; split_and!; try done; [by eapply HAD|];
    pose proof (pl_left _ _ _ _ _ _ _ _ _ Hpl); cbn [rc_left rc_copied] in *; lia.
Qed.

End Frame.
