(* ===== verification/SessState.v ===== *)
(** * The state of a stream session

    src/internal/session/state.go, types.go and the constants, accessors and
    violations of stream.go, for a stream session (Session.pk nil; the packet
    plane is not part of this model).

    A lane is a heap cell: [heap] holds every lane the session ever had, a
    lane pointer is its index, and [lanes], [order], [ackLane], [gapLane],
    fin.lane, rescue.holder and ctl.active alias the cells as the pointers of
    the source do.  What a lane's carrier port reports (SRTT, WriteBlocked,
    CloseSent, Capacity, Inflight, HeldAfterResponse) is part of its cell and
    does not change during a critical section.  Offsets and counters are
    uint64 with their wrap-around; sizes and byte counts that the source keeps
    in int64 are integers.

    Every function runs with Session.mu held, as a state transformer [M];
    time.Now() reads the next value of the clock, and what leaves the session
    (wakes of carrier writers, the actor's doorbell, the wake channels) is
    appended to [out]. *)

From Stdlib Require Import ZArith Lia.
From stdpp Require Import base numbers list.
From S2P Require Import Prelude WireConst WirePayload GoTime SchedTiming CarrierBuf Spans RecvSegs.

Open Scope Z_scope.

(** ** Constants (stream.go) *)

Definition chunkSize : Z := ChunkSize.
Definition maxRound : Z := Z.shiftl 256 10.
Definition maxRoundChunks : Z := maxRound / chunkSize + 1.
Definition windowFloor : Z := Z.shiftl 64 10.
Definition maxViews : nat := 8.
Definition defaultAckEvery : Z := Z.shiftl 64 10.
Definition defaultAckDelay : Z := 20 * Millisecond.
Definition defaultPingBusy : Z := 50 * Millisecond.
Definition defaultWindow : Z := Z.shiftl 8 20.
Definition defaultOffsetLimit : Z := Z.shiftl 1 62.

(** ** Modes, roles and states (types.go) *)

Inductive Mode := ModeSelector | ModeBond | ModeRace.
Inductive Role := RoleDialer | RolePassive.
Inductive State := StatePending | StateOpen | StateClosing | StateEnded.
Inductive LaneState := LaneJoining | LaneActive | LaneMember | LaneRetiring | LaneDead.

#[global] Instance Mode_eq_dec : EqDecision Mode.
Proof. solve_decision. Defined.
#[global] Instance Role_eq_dec : EqDecision Role.
Proof. solve_decision. Defined.
#[global] Instance State_eq_dec : EqDecision State.
Proof. solve_decision. Defined.
#[global] Instance LaneState_eq_dec : EqDecision LaneState.
Proof. solve_decision. Defined.

Definition is_race (m : Mode) : bool := bool_decide (m = ModeRace).
Definition is_bond (m : Mode) : bool := bool_decide (m = ModeBond).
Definition is_passive (r : Role) : bool := bool_decide (r = RolePassive).
Definition is_dead (s : LaneState) : bool := bool_decide (s = LaneDead).

Definition members (m : Mode) : bool := is_bond m || is_race m.

(** ** Violations (stream.go, race.go, fin.go) *)

Inductive violation :=
| errDataBeforeOpen | errDataLength | errWindow | errDataBeyondFin | errConflict
| errAckBeyondSent | errAckRegression | errFinDeliveredEarly | errFinConflict
| errFinBelowData | errFinBeyondWindow | errSchedOnDialer | errUnexpectedFrame
| errRxNextBeyondSent | errRaceMismatch | errSchedCounts.

#[global] Instance violation_eq_dec : EqDecision violation.
Proof. solve_decision. Defined.

(** What a call returns to its carrier or to the application. *)
Inductive serr :=
| EViolation (v : violation)
| EWire (e : werr)      (* a malformed payload *)
| EClosed               (* net.ErrClosed *)
| EDeadline             (* os.ErrDeadlineExceeded *)
| EEOF                  (* io.EOF *)
| EExhausted            (* *AbortError{AbortExhausted} *)
| EEnd (code : Z)       (* the session's end error *)
| EPanic.

(** ** Facts (state.go) *)

Definition factClose : Z := Z.shiftl 1 0.
Definition factCloseWrite : Z := Z.shiftl 1 1.
Definition factFinAcked : Z := Z.shiftl 1 2.
Definition factPeerFinDelivered : Z := Z.shiftl 1 3.
Definition factDoneSent : Z := Z.shiftl 1 4.
Definition factPeerDone : Z := Z.shiftl 1 5.
Definition factRst : Z := Z.shiftl 1 6.
Definition factSched : Z := Z.shiftl 1 7.
Definition factEcho : Z := Z.shiftl 1 8.
Definition factDiscardedAfterClose : Z := Z.shiftl 1 9.
Definition factExhausted : Z := Z.shiftl 1 10.
Definition factLaneConfirmed : Z := Z.shiftl 1 11.
Definition factWriteBlocked : Z := Z.shiftl 1 12.

(** The fields of Params and of the carrier timing the stream reads. *)
Record Params := MkParams {
  p_Role : Role;
  p_Mode : Mode;
  p_Window : Z;
  p_AckEvery : Z;
  p_AckDelay : Z;
  p_FirstOffset : Z;
  p_OffsetLimit : Z;
  p_FirstEpoch : Z;
  p_EarlyDataMax : Z;
  p_PingBusy : Z;   (* env.Carrier.Timing.PingBusy *)
  p_Segment : Z   (* env.Carrier.Timing.Segment *)
}.

Inductive firstFrame :=
| NoFirst
| FirstOpenAck (a : OpenAck.OpenAck)
| FirstJoinAck (a : JoinAck.JoinAck).

(** A lane with what its carrier port reports. *)
Record lane := Lane {
  l_id : Z;
  l_factory : Z;
  l_handle : Z;
  l_early : bool;
  l_state : LaneState;
  l_data : bool;
  l_first : firstFrame;
  l_firstSent : bool;
  l_retireCalled : bool;
  l_infl : list span;
  l_lastAck : Z;
  l_ackSent : Z;
  l_schedSent : Z;
  l_rstSent : bool;
  l_finHere : bool;
  l_idle : bool;
  l_rnext : Z;
  l_goOwed : bool;
  port_SRTT : Z;
  port_WriteBlocked : bool;
  port_CloseSent : bool;
  port_Capacity : Z;
  port_Inflight : Z;
  port_Held : bool   (* HeldAfterResponse *)
}.

Definition set_l_id (v : Z) (s : lane) : lane :=
  Lane v (l_factory s) (l_handle s) (l_early s) (l_state s) (l_data s) (l_first s) (l_firstSent s) (l_retireCalled s) (l_infl s) (l_lastAck s) (l_ackSent s) (l_schedSent s) (l_rstSent s) (l_finHere s) (l_idle s) (l_rnext s) (l_goOwed s) (port_SRTT s) (port_WriteBlocked s) (port_CloseSent s) (port_Capacity s) (port_Inflight s) (port_Held s).
Definition set_l_factory (v : Z) (s : lane) : lane :=
  Lane (l_id s) v (l_handle s) (l_early s) (l_state s) (l_data s) (l_first s) (l_firstSent s) (l_retireCalled s) (l_infl s) (l_lastAck s) (l_ackSent s) (l_schedSent s) (l_rstSent s) (l_finHere s) (l_idle s) (l_rnext s) (l_goOwed s) (port_SRTT s) (port_WriteBlocked s) (port_CloseSent s) (port_Capacity s) (port_Inflight s) (port_Held s).
Definition set_l_handle (v : Z) (s : lane) : lane :=
  Lane (l_id s) (l_factory s) v (l_early s) (l_state s) (l_data s) (l_first s) (l_firstSent s) (l_retireCalled s) (l_infl s) (l_lastAck s) (l_ackSent s) (l_schedSent s) (l_rstSent s) (l_finHere s) (l_idle s) (l_rnext s) (l_goOwed s) (port_SRTT s) (port_WriteBlocked s) (port_CloseSent s) (port_Capacity s) (port_Inflight s) (port_Held s).
Definition set_l_early (v : bool) (s : lane) : lane :=
  Lane (l_id s) (l_factory s) (l_handle s) v (l_state s) (l_data s) (l_first s) (l_firstSent s) (l_retireCalled s) (l_infl s) (l_lastAck s) (l_ackSent s) (l_schedSent s) (l_rstSent s) (l_finHere s) (l_idle s) (l_rnext s) (l_goOwed s) (port_SRTT s) (port_WriteBlocked s) (port_CloseSent s) (port_Capacity s) (port_Inflight s) (port_Held s).
Definition set_l_state (v : LaneState) (s : lane) : lane :=
  Lane (l_id s) (l_factory s) (l_handle s) (l_early s) v (l_data s) (l_first s) (l_firstSent s) (l_retireCalled s) (l_infl s) (l_lastAck s) (l_ackSent s) (l_schedSent s) (l_rstSent s) (l_finHere s) (l_idle s) (l_rnext s) (l_goOwed s) (port_SRTT s) (port_WriteBlocked s) (port_CloseSent s) (port_Capacity s) (port_Inflight s) (port_Held s).
Definition set_l_data (v : bool) (s : lane) : lane :=
  Lane (l_id s) (l_factory s) (l_handle s) (l_early s) (l_state s) v (l_first s) (l_firstSent s) (l_retireCalled s) (l_infl s) (l_lastAck s) (l_ackSent s) (l_schedSent s) (l_rstSent s) (l_finHere s) (l_idle s) (l_rnext s) (l_goOwed s) (port_SRTT s) (port_WriteBlocked s) (port_CloseSent s) (port_Capacity s) (port_Inflight s) (port_Held s).
Definition set_l_first (v : firstFrame) (s : lane) : lane :=
  Lane (l_id s) (l_factory s) (l_handle s) (l_early s) (l_state s) (l_data s) v (l_firstSent s) (l_retireCalled s) (l_infl s) (l_lastAck s) (l_ackSent s) (l_schedSent s) (l_rstSent s) (l_finHere s) (l_idle s) (l_rnext s) (l_goOwed s) (port_SRTT s) (port_WriteBlocked s) (port_CloseSent s) (port_Capacity s) (port_Inflight s) (port_Held s).
Definition set_l_firstSent (v : bool) (s : lane) : lane :=
  Lane (l_id s) (l_factory s) (l_handle s) (l_early s) (l_state s) (l_data s) (l_first s) v (l_retireCalled s) (l_infl s) (l_lastAck s) (l_ackSent s) (l_schedSent s) (l_rstSent s) (l_finHere s) (l_idle s) (l_rnext s) (l_goOwed s) (port_SRTT s) (port_WriteBlocked s) (port_CloseSent s) (port_Capacity s) (port_Inflight s) (port_Held s).
Definition set_l_retireCalled (v : bool) (s : lane) : lane :=
  Lane (l_id s) (l_factory s) (l_handle s) (l_early s) (l_state s) (l_data s) (l_first s) (l_firstSent s) v (l_infl s) (l_lastAck s) (l_ackSent s) (l_schedSent s) (l_rstSent s) (l_finHere s) (l_idle s) (l_rnext s) (l_goOwed s) (port_SRTT s) (port_WriteBlocked s) (port_CloseSent s) (port_Capacity s) (port_Inflight s) (port_Held s).
Definition set_l_infl (v : list span) (s : lane) : lane :=
  Lane (l_id s) (l_factory s) (l_handle s) (l_early s) (l_state s) (l_data s) (l_first s) (l_firstSent s) (l_retireCalled s) v (l_lastAck s) (l_ackSent s) (l_schedSent s) (l_rstSent s) (l_finHere s) (l_idle s) (l_rnext s) (l_goOwed s) (port_SRTT s) (port_WriteBlocked s) (port_CloseSent s) (port_Capacity s) (port_Inflight s) (port_Held s).
Definition set_l_lastAck (v : Z) (s : lane) : lane :=
  Lane (l_id s) (l_factory s) (l_handle s) (l_early s) (l_state s) (l_data s) (l_first s) (l_firstSent s) (l_retireCalled s) (l_infl s) v (l_ackSent s) (l_schedSent s) (l_rstSent s) (l_finHere s) (l_idle s) (l_rnext s) (l_goOwed s) (port_SRTT s) (port_WriteBlocked s) (port_CloseSent s) (port_Capacity s) (port_Inflight s) (port_Held s).
Definition set_l_ackSent (v : Z) (s : lane) : lane :=
  Lane (l_id s) (l_factory s) (l_handle s) (l_early s) (l_state s) (l_data s) (l_first s) (l_firstSent s) (l_retireCalled s) (l_infl s) (l_lastAck s) v (l_schedSent s) (l_rstSent s) (l_finHere s) (l_idle s) (l_rnext s) (l_goOwed s) (port_SRTT s) (port_WriteBlocked s) (port_CloseSent s) (port_Capacity s) (port_Inflight s) (port_Held s).
Definition set_l_schedSent (v : Z) (s : lane) : lane :=
  Lane (l_id s) (l_factory s) (l_handle s) (l_early s) (l_state s) (l_data s) (l_first s) (l_firstSent s) (l_retireCalled s) (l_infl s) (l_lastAck s) (l_ackSent s) v (l_rstSent s) (l_finHere s) (l_idle s) (l_rnext s) (l_goOwed s) (port_SRTT s) (port_WriteBlocked s) (port_CloseSent s) (port_Capacity s) (port_Inflight s) (port_Held s).
Definition set_l_rstSent (v : bool) (s : lane) : lane :=
  Lane (l_id s) (l_factory s) (l_handle s) (l_early s) (l_state s) (l_data s) (l_first s) (l_firstSent s) (l_retireCalled s) (l_infl s) (l_lastAck s) (l_ackSent s) (l_schedSent s) v (l_finHere s) (l_idle s) (l_rnext s) (l_goOwed s) (port_SRTT s) (port_WriteBlocked s) (port_CloseSent s) (port_Capacity s) (port_Inflight s) (port_Held s).
Definition set_l_finHere (v : bool) (s : lane) : lane :=
  Lane (l_id s) (l_factory s) (l_handle s) (l_early s) (l_state s) (l_data s) (l_first s) (l_firstSent s) (l_retireCalled s) (l_infl s) (l_lastAck s) (l_ackSent s) (l_schedSent s) (l_rstSent s) v (l_idle s) (l_rnext s) (l_goOwed s) (port_SRTT s) (port_WriteBlocked s) (port_CloseSent s) (port_Capacity s) (port_Inflight s) (port_Held s).
Definition set_l_idle (v : bool) (s : lane) : lane :=
  Lane (l_id s) (l_factory s) (l_handle s) (l_early s) (l_state s) (l_data s) (l_first s) (l_firstSent s) (l_retireCalled s) (l_infl s) (l_lastAck s) (l_ackSent s) (l_schedSent s) (l_rstSent s) (l_finHere s) v (l_rnext s) (l_goOwed s) (port_SRTT s) (port_WriteBlocked s) (port_CloseSent s) (port_Capacity s) (port_Inflight s) (port_Held s).
Definition set_l_rnext (v : Z) (s : lane) : lane :=
  Lane (l_id s) (l_factory s) (l_handle s) (l_early s) (l_state s) (l_data s) (l_first s) (l_firstSent s) (l_retireCalled s) (l_infl s) (l_lastAck s) (l_ackSent s) (l_schedSent s) (l_rstSent s) (l_finHere s) (l_idle s) v (l_goOwed s) (port_SRTT s) (port_WriteBlocked s) (port_CloseSent s) (port_Capacity s) (port_Inflight s) (port_Held s).
Definition set_l_goOwed (v : bool) (s : lane) : lane :=
  Lane (l_id s) (l_factory s) (l_handle s) (l_early s) (l_state s) (l_data s) (l_first s) (l_firstSent s) (l_retireCalled s) (l_infl s) (l_lastAck s) (l_ackSent s) (l_schedSent s) (l_rstSent s) (l_finHere s) (l_idle s) (l_rnext s) v (port_SRTT s) (port_WriteBlocked s) (port_CloseSent s) (port_Capacity s) (port_Inflight s) (port_Held s).
Definition set_port_SRTT (v : Z) (s : lane) : lane :=
  Lane (l_id s) (l_factory s) (l_handle s) (l_early s) (l_state s) (l_data s) (l_first s) (l_firstSent s) (l_retireCalled s) (l_infl s) (l_lastAck s) (l_ackSent s) (l_schedSent s) (l_rstSent s) (l_finHere s) (l_idle s) (l_rnext s) (l_goOwed s) v (port_WriteBlocked s) (port_CloseSent s) (port_Capacity s) (port_Inflight s) (port_Held s).
Definition set_port_WriteBlocked (v : bool) (s : lane) : lane :=
  Lane (l_id s) (l_factory s) (l_handle s) (l_early s) (l_state s) (l_data s) (l_first s) (l_firstSent s) (l_retireCalled s) (l_infl s) (l_lastAck s) (l_ackSent s) (l_schedSent s) (l_rstSent s) (l_finHere s) (l_idle s) (l_rnext s) (l_goOwed s) (port_SRTT s) v (port_CloseSent s) (port_Capacity s) (port_Inflight s) (port_Held s).
Definition set_port_CloseSent (v : bool) (s : lane) : lane :=
  Lane (l_id s) (l_factory s) (l_handle s) (l_early s) (l_state s) (l_data s) (l_first s) (l_firstSent s) (l_retireCalled s) (l_infl s) (l_lastAck s) (l_ackSent s) (l_schedSent s) (l_rstSent s) (l_finHere s) (l_idle s) (l_rnext s) (l_goOwed s) (port_SRTT s) (port_WriteBlocked s) v (port_Capacity s) (port_Inflight s) (port_Held s).
Definition set_port_Capacity (v : Z) (s : lane) : lane :=
  Lane (l_id s) (l_factory s) (l_handle s) (l_early s) (l_state s) (l_data s) (l_first s) (l_firstSent s) (l_retireCalled s) (l_infl s) (l_lastAck s) (l_ackSent s) (l_schedSent s) (l_rstSent s) (l_finHere s) (l_idle s) (l_rnext s) (l_goOwed s) (port_SRTT s) (port_WriteBlocked s) (port_CloseSent s) v (port_Inflight s) (port_Held s).
Definition set_port_Inflight (v : Z) (s : lane) : lane :=
  Lane (l_id s) (l_factory s) (l_handle s) (l_early s) (l_state s) (l_data s) (l_first s) (l_firstSent s) (l_retireCalled s) (l_infl s) (l_lastAck s) (l_ackSent s) (l_schedSent s) (l_rstSent s) (l_finHere s) (l_idle s) (l_rnext s) (l_goOwed s) (port_SRTT s) (port_WriteBlocked s) (port_CloseSent s) (port_Capacity s) v (port_Held s).
Definition set_port_Held (v : bool) (s : lane) : lane :=
  Lane (l_id s) (l_factory s) (l_handle s) (l_early s) (l_state s) (l_data s) (l_first s) (l_firstSent s) (l_retireCalled s) (l_infl s) (l_lastAck s) (l_ackSent s) (l_schedSent s) (l_rstSent s) (l_finHere s) (l_idle s) (l_rnext s) (l_goOwed s) (port_SRTT s) (port_WriteBlocked s) (port_CloseSent s) (port_Capacity s) (port_Inflight s) v.
Record rescueSlot := RescueSlot { re_set : bool; re_sp : span; re_holder : option nat }.

Definition no_rescue : rescueSlot := RescueSlot false (Span 0 0) None.

Record finState := FinState { fin_requested : bool; fin_acked : bool; fin_off : Z; fin_lane : option nat }.

(** The send side of stream. *)
Record sendS := SendS {
  chunks : list (Z → Z);   (* the ring, in order: a chunk maps a position to its byte *)
  ringCap : nat;   (* len(chunkRing.b) = W/C + 2 *)
  cbase : Z;
  sBase : Z;
  sNext : Z;
  s_end : Z;
  resEnd : Z;
  peerLimit : Z;
  retx : list span;
  rescue : rescueSlot;
  interleaved : bool;
  wcopying : bool;
  wfreePending : bool;
  exhausted : bool;
  lastAdvance : Time;
  txBytes : Z;
  retxBytes : Z;
  copyBytes : Z
}.

Definition set_chunks (v : list (Z → Z)) (s : sendS) : sendS :=
  SendS v (ringCap s) (cbase s) (sBase s) (sNext s) (s_end s) (resEnd s) (peerLimit s) (retx s) (rescue s) (interleaved s) (wcopying s) (wfreePending s) (exhausted s) (lastAdvance s) (txBytes s) (retxBytes s) (copyBytes s).
Definition set_ringCap (v : nat) (s : sendS) : sendS :=
  SendS (chunks s) v (cbase s) (sBase s) (sNext s) (s_end s) (resEnd s) (peerLimit s) (retx s) (rescue s) (interleaved s) (wcopying s) (wfreePending s) (exhausted s) (lastAdvance s) (txBytes s) (retxBytes s) (copyBytes s).
Definition set_cbase (v : Z) (s : sendS) : sendS :=
  SendS (chunks s) (ringCap s) v (sBase s) (sNext s) (s_end s) (resEnd s) (peerLimit s) (retx s) (rescue s) (interleaved s) (wcopying s) (wfreePending s) (exhausted s) (lastAdvance s) (txBytes s) (retxBytes s) (copyBytes s).
Definition set_sBase (v : Z) (s : sendS) : sendS :=
  SendS (chunks s) (ringCap s) (cbase s) v (sNext s) (s_end s) (resEnd s) (peerLimit s) (retx s) (rescue s) (interleaved s) (wcopying s) (wfreePending s) (exhausted s) (lastAdvance s) (txBytes s) (retxBytes s) (copyBytes s).
Definition set_sNext (v : Z) (s : sendS) : sendS :=
  SendS (chunks s) (ringCap s) (cbase s) (sBase s) v (s_end s) (resEnd s) (peerLimit s) (retx s) (rescue s) (interleaved s) (wcopying s) (wfreePending s) (exhausted s) (lastAdvance s) (txBytes s) (retxBytes s) (copyBytes s).
Definition set_s_end (v : Z) (s : sendS) : sendS :=
  SendS (chunks s) (ringCap s) (cbase s) (sBase s) (sNext s) v (resEnd s) (peerLimit s) (retx s) (rescue s) (interleaved s) (wcopying s) (wfreePending s) (exhausted s) (lastAdvance s) (txBytes s) (retxBytes s) (copyBytes s).
Definition set_resEnd (v : Z) (s : sendS) : sendS :=
  SendS (chunks s) (ringCap s) (cbase s) (sBase s) (sNext s) (s_end s) v (peerLimit s) (retx s) (rescue s) (interleaved s) (wcopying s) (wfreePending s) (exhausted s) (lastAdvance s) (txBytes s) (retxBytes s) (copyBytes s).
Definition set_peerLimit (v : Z) (s : sendS) : sendS :=
  SendS (chunks s) (ringCap s) (cbase s) (sBase s) (sNext s) (s_end s) (resEnd s) v (retx s) (rescue s) (interleaved s) (wcopying s) (wfreePending s) (exhausted s) (lastAdvance s) (txBytes s) (retxBytes s) (copyBytes s).
Definition set_retx (v : list span) (s : sendS) : sendS :=
  SendS (chunks s) (ringCap s) (cbase s) (sBase s) (sNext s) (s_end s) (resEnd s) (peerLimit s) v (rescue s) (interleaved s) (wcopying s) (wfreePending s) (exhausted s) (lastAdvance s) (txBytes s) (retxBytes s) (copyBytes s).
Definition set_rescue (v : rescueSlot) (s : sendS) : sendS :=
  SendS (chunks s) (ringCap s) (cbase s) (sBase s) (sNext s) (s_end s) (resEnd s) (peerLimit s) (retx s) v (interleaved s) (wcopying s) (wfreePending s) (exhausted s) (lastAdvance s) (txBytes s) (retxBytes s) (copyBytes s).
Definition set_interleaved (v : bool) (s : sendS) : sendS :=
  SendS (chunks s) (ringCap s) (cbase s) (sBase s) (sNext s) (s_end s) (resEnd s) (peerLimit s) (retx s) (rescue s) v (wcopying s) (wfreePending s) (exhausted s) (lastAdvance s) (txBytes s) (retxBytes s) (copyBytes s).
Definition set_wcopying (v : bool) (s : sendS) : sendS :=
  SendS (chunks s) (ringCap s) (cbase s) (sBase s) (sNext s) (s_end s) (resEnd s) (peerLimit s) (retx s) (rescue s) (interleaved s) v (wfreePending s) (exhausted s) (lastAdvance s) (txBytes s) (retxBytes s) (copyBytes s).
Definition set_wfreePending (v : bool) (s : sendS) : sendS :=
  SendS (chunks s) (ringCap s) (cbase s) (sBase s) (sNext s) (s_end s) (resEnd s) (peerLimit s) (retx s) (rescue s) (interleaved s) (wcopying s) v (exhausted s) (lastAdvance s) (txBytes s) (retxBytes s) (copyBytes s).
Definition set_exhausted (v : bool) (s : sendS) : sendS :=
  SendS (chunks s) (ringCap s) (cbase s) (sBase s) (sNext s) (s_end s) (resEnd s) (peerLimit s) (retx s) (rescue s) (interleaved s) (wcopying s) (wfreePending s) v (lastAdvance s) (txBytes s) (retxBytes s) (copyBytes s).
Definition set_lastAdvance (v : Time) (s : sendS) : sendS :=
  SendS (chunks s) (ringCap s) (cbase s) (sBase s) (sNext s) (s_end s) (resEnd s) (peerLimit s) (retx s) (rescue s) (interleaved s) (wcopying s) (wfreePending s) (exhausted s) v (txBytes s) (retxBytes s) (copyBytes s).
Definition set_txBytes (v : Z) (s : sendS) : sendS :=
  SendS (chunks s) (ringCap s) (cbase s) (sBase s) (sNext s) (s_end s) (resEnd s) (peerLimit s) (retx s) (rescue s) (interleaved s) (wcopying s) (wfreePending s) (exhausted s) (lastAdvance s) v (retxBytes s) (copyBytes s).
Definition set_retxBytes (v : Z) (s : sendS) : sendS :=
  SendS (chunks s) (ringCap s) (cbase s) (sBase s) (sNext s) (s_end s) (resEnd s) (peerLimit s) (retx s) (rescue s) (interleaved s) (wcopying s) (wfreePending s) (exhausted s) (lastAdvance s) (txBytes s) v (copyBytes s).
Definition set_copyBytes (v : Z) (s : sendS) : sendS :=
  SendS (chunks s) (ringCap s) (cbase s) (sBase s) (sNext s) (s_end s) (resEnd s) (peerLimit s) (retx s) (rescue s) (interleaved s) (wcopying s) (wfreePending s) (exhausted s) (lastAdvance s) (txBytes s) (retxBytes s) v.
(** The receive side of stream. *)
Record recvS := RecvS {
  rRead : Z;
  rightEdge : Z;
  rb : rbuf;   (* rTail, inq, ooq, oooCap, oooDropped, rxBytes and the Budget account *)
  peerFin : Z;
  peerFinSet : bool;
  peerFinDelivered : bool;
  discard : bool;
  discardedAfterClose : bool;
  rcopying : bool;
  rfreePending : bool;
  earlyBytes : Z;
  earlyOpen : bool;
  delivered : Z;
  dupBytes : Z
}.

Definition set_rRead (v : Z) (s : recvS) : recvS :=
  RecvS v (rightEdge s) (rb s) (peerFin s) (peerFinSet s) (peerFinDelivered s) (discard s) (discardedAfterClose s) (rcopying s) (rfreePending s) (earlyBytes s) (earlyOpen s) (delivered s) (dupBytes s).
Definition set_rightEdge (v : Z) (s : recvS) : recvS :=
  RecvS (rRead s) v (rb s) (peerFin s) (peerFinSet s) (peerFinDelivered s) (discard s) (discardedAfterClose s) (rcopying s) (rfreePending s) (earlyBytes s) (earlyOpen s) (delivered s) (dupBytes s).
Definition set_rb (v : rbuf) (s : recvS) : recvS :=
  RecvS (rRead s) (rightEdge s) v (peerFin s) (peerFinSet s) (peerFinDelivered s) (discard s) (discardedAfterClose s) (rcopying s) (rfreePending s) (earlyBytes s) (earlyOpen s) (delivered s) (dupBytes s).
Definition set_peerFin (v : Z) (s : recvS) : recvS :=
  RecvS (rRead s) (rightEdge s) (rb s) v (peerFinSet s) (peerFinDelivered s) (discard s) (discardedAfterClose s) (rcopying s) (rfreePending s) (earlyBytes s) (earlyOpen s) (delivered s) (dupBytes s).
Definition set_peerFinSet (v : bool) (s : recvS) : recvS :=
  RecvS (rRead s) (rightEdge s) (rb s) (peerFin s) v (peerFinDelivered s) (discard s) (discardedAfterClose s) (rcopying s) (rfreePending s) (earlyBytes s) (earlyOpen s) (delivered s) (dupBytes s).
Definition set_peerFinDelivered (v : bool) (s : recvS) : recvS :=
  RecvS (rRead s) (rightEdge s) (rb s) (peerFin s) (peerFinSet s) v (discard s) (discardedAfterClose s) (rcopying s) (rfreePending s) (earlyBytes s) (earlyOpen s) (delivered s) (dupBytes s).
Definition set_discard (v : bool) (s : recvS) : recvS :=
  RecvS (rRead s) (rightEdge s) (rb s) (peerFin s) (peerFinSet s) (peerFinDelivered s) v (discardedAfterClose s) (rcopying s) (rfreePending s) (earlyBytes s) (earlyOpen s) (delivered s) (dupBytes s).
Definition set_discardedAfterClose (v : bool) (s : recvS) : recvS :=
  RecvS (rRead s) (rightEdge s) (rb s) (peerFin s) (peerFinSet s) (peerFinDelivered s) (discard s) v (rcopying s) (rfreePending s) (earlyBytes s) (earlyOpen s) (delivered s) (dupBytes s).
Definition set_rcopying (v : bool) (s : recvS) : recvS :=
  RecvS (rRead s) (rightEdge s) (rb s) (peerFin s) (peerFinSet s) (peerFinDelivered s) (discard s) (discardedAfterClose s) v (rfreePending s) (earlyBytes s) (earlyOpen s) (delivered s) (dupBytes s).
Definition set_rfreePending (v : bool) (s : recvS) : recvS :=
  RecvS (rRead s) (rightEdge s) (rb s) (peerFin s) (peerFinSet s) (peerFinDelivered s) (discard s) (discardedAfterClose s) (rcopying s) v (earlyBytes s) (earlyOpen s) (delivered s) (dupBytes s).
Definition set_earlyBytes (v : Z) (s : recvS) : recvS :=
  RecvS (rRead s) (rightEdge s) (rb s) (peerFin s) (peerFinSet s) (peerFinDelivered s) (discard s) (discardedAfterClose s) (rcopying s) (rfreePending s) v (earlyOpen s) (delivered s) (dupBytes s).
Definition set_earlyOpen (v : bool) (s : recvS) : recvS :=
  RecvS (rRead s) (rightEdge s) (rb s) (peerFin s) (peerFinSet s) (peerFinDelivered s) (discard s) (discardedAfterClose s) (rcopying s) (rfreePending s) (earlyBytes s) v (delivered s) (dupBytes s).
Definition set_delivered (v : Z) (s : recvS) : recvS :=
  RecvS (rRead s) (rightEdge s) (rb s) (peerFin s) (peerFinSet s) (peerFinDelivered s) (discard s) (discardedAfterClose s) (rcopying s) (rfreePending s) (earlyBytes s) (earlyOpen s) v (dupBytes s).
Definition set_dupBytes (v : Z) (s : recvS) : recvS :=
  RecvS (rRead s) (rightEdge s) (rb s) (peerFin s) (peerFinSet s) (peerFinDelivered s) (discard s) (discardedAfterClose s) (rcopying s) (rfreePending s) (earlyBytes s) (earlyOpen s) (delivered s) v.
(** The ACK state of stream. *)
Record ackS := AckS {
  ackGen : Z;
  ackOwedSince : Time;
  ackBumped : Z;
  ackFlags : Z;
  ackDelayAt : Time;
  ackLane : option nat;
  gapLane : option nat;
  lastWin : Z;
  ackOnData : bool
}.

Definition set_ackGen (v : Z) (s : ackS) : ackS :=
  AckS v (ackOwedSince s) (ackBumped s) (ackFlags s) (ackDelayAt s) (ackLane s) (gapLane s) (lastWin s) (ackOnData s).
Definition set_ackOwedSince (v : Time) (s : ackS) : ackS :=
  AckS (ackGen s) v (ackBumped s) (ackFlags s) (ackDelayAt s) (ackLane s) (gapLane s) (lastWin s) (ackOnData s).
Definition set_ackBumped (v : Z) (s : ackS) : ackS :=
  AckS (ackGen s) (ackOwedSince s) v (ackFlags s) (ackDelayAt s) (ackLane s) (gapLane s) (lastWin s) (ackOnData s).
Definition set_ackFlags (v : Z) (s : ackS) : ackS :=
  AckS (ackGen s) (ackOwedSince s) (ackBumped s) v (ackDelayAt s) (ackLane s) (gapLane s) (lastWin s) (ackOnData s).
Definition set_ackDelayAt (v : Time) (s : ackS) : ackS :=
  AckS (ackGen s) (ackOwedSince s) (ackBumped s) (ackFlags s) v (ackLane s) (gapLane s) (lastWin s) (ackOnData s).
Definition set_ackLane (v : option nat) (s : ackS) : ackS :=
  AckS (ackGen s) (ackOwedSince s) (ackBumped s) (ackFlags s) (ackDelayAt s) v (gapLane s) (lastWin s) (ackOnData s).
Definition set_gapLane (v : option nat) (s : ackS) : ackS :=
  AckS (ackGen s) (ackOwedSince s) (ackBumped s) (ackFlags s) (ackDelayAt s) (ackLane s) v (lastWin s) (ackOnData s).
Definition set_lastWin (v : Z) (s : ackS) : ackS :=
  AckS (ackGen s) (ackOwedSince s) (ackBumped s) (ackFlags s) (ackDelayAt s) (ackLane s) (gapLane s) v (ackOnData s).
Definition set_ackOnData (v : bool) (s : ackS) : ackS :=
  AckS (ackGen s) (ackOwedSince s) (ackBumped s) (ackFlags s) (ackDelayAt s) (ackLane s) (gapLane s) (lastWin s) v.
(** FIN, DONE, the received RST and the echoed epoch. *)
Record finS := FinS {
  fin : finState;
  finDelivSent : bool;
  doneQueued : bool;
  doneSent : bool;
  peerDone : bool;
  doneSentAt : Time;
  rstIn : option Rst.Rst;
  echoIn : Z
}.

Definition set_fin (v : finState) (s : finS) : finS :=
  FinS v (finDelivSent s) (doneQueued s) (doneSent s) (peerDone s) (doneSentAt s) (rstIn s) (echoIn s).
Definition set_finDelivSent (v : bool) (s : finS) : finS :=
  FinS (fin s) v (doneQueued s) (doneSent s) (peerDone s) (doneSentAt s) (rstIn s) (echoIn s).
Definition set_doneQueued (v : bool) (s : finS) : finS :=
  FinS (fin s) (finDelivSent s) v (doneSent s) (peerDone s) (doneSentAt s) (rstIn s) (echoIn s).
Definition set_doneSent (v : bool) (s : finS) : finS :=
  FinS (fin s) (finDelivSent s) (doneQueued s) v (peerDone s) (doneSentAt s) (rstIn s) (echoIn s).
Definition set_peerDone (v : bool) (s : finS) : finS :=
  FinS (fin s) (finDelivSent s) (doneQueued s) (doneSent s) v (doneSentAt s) (rstIn s) (echoIn s).
Definition set_doneSentAt (v : Time) (s : finS) : finS :=
  FinS (fin s) (finDelivSent s) (doneQueued s) (doneSent s) (peerDone s) v (rstIn s) (echoIn s).
Definition set_rstIn (v : option Rst.Rst) (s : finS) : finS :=
  FinS (fin s) (finDelivSent s) (doneQueued s) (doneSent s) (peerDone s) (doneSentAt s) v (echoIn s).
Definition set_echoIn (v : Z) (s : finS) : finS :=
  FinS (fin s) (finDelivSent s) (doneQueued s) (doneSent s) (peerDone s) (doneSentAt s) (rstIn s) v.
(** The application side: waiters, deadlines, close and end. *)
Record appS := AppS {
  rwaiting : bool;
  wwaiting : bool;
  rwake : bool;   (* a token in the cap-1 channel *)
  wwake : bool;
  rdl : Time;   (* rdl.t *)
  wdl : Time;   (* wdl.t *)
  closed : bool;
  closedAt : Time;
  ended : bool;
  endErr : serr;
  lastData : Time
}.

Definition set_rwaiting (v : bool) (s : appS) : appS :=
  AppS v (wwaiting s) (rwake s) (wwake s) (rdl s) (wdl s) (closed s) (closedAt s) (ended s) (endErr s) (lastData s).
Definition set_wwaiting (v : bool) (s : appS) : appS :=
  AppS (rwaiting s) v (rwake s) (wwake s) (rdl s) (wdl s) (closed s) (closedAt s) (ended s) (endErr s) (lastData s).
Definition set_rwake (v : bool) (s : appS) : appS :=
  AppS (rwaiting s) (wwaiting s) v (wwake s) (rdl s) (wdl s) (closed s) (closedAt s) (ended s) (endErr s) (lastData s).
Definition set_wwake (v : bool) (s : appS) : appS :=
  AppS (rwaiting s) (wwaiting s) (rwake s) v (rdl s) (wdl s) (closed s) (closedAt s) (ended s) (endErr s) (lastData s).
Definition set_rdl (v : Time) (s : appS) : appS :=
  AppS (rwaiting s) (wwaiting s) (rwake s) (wwake s) v (wdl s) (closed s) (closedAt s) (ended s) (endErr s) (lastData s).
Definition set_wdl (v : Time) (s : appS) : appS :=
  AppS (rwaiting s) (wwaiting s) (rwake s) (wwake s) (rdl s) v (closed s) (closedAt s) (ended s) (endErr s) (lastData s).
Definition set_closed (v : bool) (s : appS) : appS :=
  AppS (rwaiting s) (wwaiting s) (rwake s) (wwake s) (rdl s) (wdl s) v (closedAt s) (ended s) (endErr s) (lastData s).
Definition set_closedAt (v : Time) (s : appS) : appS :=
  AppS (rwaiting s) (wwaiting s) (rwake s) (wwake s) (rdl s) (wdl s) (closed s) v (ended s) (endErr s) (lastData s).
Definition set_ended (v : bool) (s : appS) : appS :=
  AppS (rwaiting s) (wwaiting s) (rwake s) (wwake s) (rdl s) (wdl s) (closed s) (closedAt s) v (endErr s) (lastData s).
Definition set_endErr (v : serr) (s : appS) : appS :=
  AppS (rwaiting s) (wwaiting s) (rwake s) (wwake s) (rdl s) (wdl s) (closed s) (closedAt s) (ended s) v (lastData s).
Definition set_lastData (v : Time) (s : appS) : appS :=
  AppS (rwaiting s) (wwaiting s) (rwake s) (wwake s) (rdl s) (wdl s) (closed s) (closedAt s) (ended s) (endErr s) v.
(** The control fields the stream reads or stores. *)
Record control := Control {
  c_state : State;
  c_active : option nat;
  c_epoch : Z;
  c_cause : Z;
  c_set : Sched.Sched;
  c_schedIn : Sched.Sched;
  c_schedInCause : Z;
  c_schedInSet : bool;
  c_rst : option Rst.Rst;
  c_migDeath : Z;
  c_migQuality : Z;
  c_migExplicit : Z
}.

Definition set_c_state (v : State) (s : control) : control :=
  Control v (c_active s) (c_epoch s) (c_cause s) (c_set s) (c_schedIn s) (c_schedInCause s) (c_schedInSet s) (c_rst s) (c_migDeath s) (c_migQuality s) (c_migExplicit s).
Definition set_c_active (v : option nat) (s : control) : control :=
  Control (c_state s) v (c_epoch s) (c_cause s) (c_set s) (c_schedIn s) (c_schedInCause s) (c_schedInSet s) (c_rst s) (c_migDeath s) (c_migQuality s) (c_migExplicit s).
Definition set_c_epoch (v : Z) (s : control) : control :=
  Control (c_state s) (c_active s) v (c_cause s) (c_set s) (c_schedIn s) (c_schedInCause s) (c_schedInSet s) (c_rst s) (c_migDeath s) (c_migQuality s) (c_migExplicit s).
Definition set_c_cause (v : Z) (s : control) : control :=
  Control (c_state s) (c_active s) (c_epoch s) v (c_set s) (c_schedIn s) (c_schedInCause s) (c_schedInSet s) (c_rst s) (c_migDeath s) (c_migQuality s) (c_migExplicit s).
Definition set_c_set (v : Sched.Sched) (s : control) : control :=
  Control (c_state s) (c_active s) (c_epoch s) (c_cause s) v (c_schedIn s) (c_schedInCause s) (c_schedInSet s) (c_rst s) (c_migDeath s) (c_migQuality s) (c_migExplicit s).
Definition set_c_schedIn (v : Sched.Sched) (s : control) : control :=
  Control (c_state s) (c_active s) (c_epoch s) (c_cause s) (c_set s) v (c_schedInCause s) (c_schedInSet s) (c_rst s) (c_migDeath s) (c_migQuality s) (c_migExplicit s).
Definition set_c_schedInCause (v : Z) (s : control) : control :=
  Control (c_state s) (c_active s) (c_epoch s) (c_cause s) (c_set s) (c_schedIn s) v (c_schedInSet s) (c_rst s) (c_migDeath s) (c_migQuality s) (c_migExplicit s).
Definition set_c_schedInSet (v : bool) (s : control) : control :=
  Control (c_state s) (c_active s) (c_epoch s) (c_cause s) (c_set s) (c_schedIn s) (c_schedInCause s) v (c_rst s) (c_migDeath s) (c_migQuality s) (c_migExplicit s).
Definition set_c_rst (v : option Rst.Rst) (s : control) : control :=
  Control (c_state s) (c_active s) (c_epoch s) (c_cause s) (c_set s) (c_schedIn s) (c_schedInCause s) (c_schedInSet s) v (c_migDeath s) (c_migQuality s) (c_migExplicit s).
Definition set_c_migDeath (v : Z) (s : control) : control :=
  Control (c_state s) (c_active s) (c_epoch s) (c_cause s) (c_set s) (c_schedIn s) (c_schedInCause s) (c_schedInSet s) (c_rst s) v (c_migQuality s) (c_migExplicit s).
Definition set_c_migQuality (v : Z) (s : control) : control :=
  Control (c_state s) (c_active s) (c_epoch s) (c_cause s) (c_set s) (c_schedIn s) (c_schedInCause s) (c_schedInSet s) (c_rst s) (c_migDeath s) v (c_migExplicit s).
Definition set_c_migExplicit (v : Z) (s : control) : control :=
  Control (c_state s) (c_active s) (c_epoch s) (c_cause s) (c_set s) (c_schedIn s) (c_schedInCause s) (c_schedInSet s) (c_rst s) (c_migDeath s) (c_migQuality s) v.
(** The dialer's fate groups (DialSpec.Groups and .Coupled). *)
Record groupSpec := GroupSpec { g_Groups : list Z; g_Coupled : Z }.

(** What a critical section does outside the session. *)
Inductive effect :=
| WakeLane (l : nat)   (* port.Wake *)
| RingActor
| TriggerOpen.         (* triggerOpen: the deferred opening of an EarlyReturn dialer *)

Record Session := MkSession {
  s_p : Params;
  s_groups : option groupSpec;   (* nil on the passive *)
  s_send : sendS;
  s_recv : recvS;
  s_ack : ackS;
  s_fin : finS;
  s_app : appS;
  s_ctl : control;
  heap : list lane;
  lanes : list nat;
  order : list nat;
  orderAt : Time;
  facts : Z;
  budgetMax : Z;   (* Budget.Max(); 0 without a Budget *)
  clock : nat → Time;   (* the values of time.Now() *)
  ticks : nat;
  out : list effect
}.

Definition set_s_p (v : Params) (s : Session) : Session :=
  MkSession v (s_groups s) (s_send s) (s_recv s) (s_ack s) (s_fin s) (s_app s) (s_ctl s) (heap s) (lanes s) (order s) (orderAt s) (facts s) (budgetMax s) (clock s) (ticks s) (out s).
Definition set_s_groups (v : option groupSpec) (s : Session) : Session :=
  MkSession (s_p s) v (s_send s) (s_recv s) (s_ack s) (s_fin s) (s_app s) (s_ctl s) (heap s) (lanes s) (order s) (orderAt s) (facts s) (budgetMax s) (clock s) (ticks s) (out s).
Definition set_s_send (v : sendS) (s : Session) : Session :=
  MkSession (s_p s) (s_groups s) v (s_recv s) (s_ack s) (s_fin s) (s_app s) (s_ctl s) (heap s) (lanes s) (order s) (orderAt s) (facts s) (budgetMax s) (clock s) (ticks s) (out s).
Definition set_s_recv (v : recvS) (s : Session) : Session :=
  MkSession (s_p s) (s_groups s) (s_send s) v (s_ack s) (s_fin s) (s_app s) (s_ctl s) (heap s) (lanes s) (order s) (orderAt s) (facts s) (budgetMax s) (clock s) (ticks s) (out s).
Definition set_s_ack (v : ackS) (s : Session) : Session :=
  MkSession (s_p s) (s_groups s) (s_send s) (s_recv s) v (s_fin s) (s_app s) (s_ctl s) (heap s) (lanes s) (order s) (orderAt s) (facts s) (budgetMax s) (clock s) (ticks s) (out s).
Definition set_s_fin (v : finS) (s : Session) : Session :=
  MkSession (s_p s) (s_groups s) (s_send s) (s_recv s) (s_ack s) v (s_app s) (s_ctl s) (heap s) (lanes s) (order s) (orderAt s) (facts s) (budgetMax s) (clock s) (ticks s) (out s).
Definition set_s_app (v : appS) (s : Session) : Session :=
  MkSession (s_p s) (s_groups s) (s_send s) (s_recv s) (s_ack s) (s_fin s) v (s_ctl s) (heap s) (lanes s) (order s) (orderAt s) (facts s) (budgetMax s) (clock s) (ticks s) (out s).
Definition set_s_ctl (v : control) (s : Session) : Session :=
  MkSession (s_p s) (s_groups s) (s_send s) (s_recv s) (s_ack s) (s_fin s) (s_app s) v (heap s) (lanes s) (order s) (orderAt s) (facts s) (budgetMax s) (clock s) (ticks s) (out s).
Definition set_heap (v : list lane) (s : Session) : Session :=
  MkSession (s_p s) (s_groups s) (s_send s) (s_recv s) (s_ack s) (s_fin s) (s_app s) (s_ctl s) v (lanes s) (order s) (orderAt s) (facts s) (budgetMax s) (clock s) (ticks s) (out s).
Definition set_lanes (v : list nat) (s : Session) : Session :=
  MkSession (s_p s) (s_groups s) (s_send s) (s_recv s) (s_ack s) (s_fin s) (s_app s) (s_ctl s) (heap s) v (order s) (orderAt s) (facts s) (budgetMax s) (clock s) (ticks s) (out s).
Definition set_order (v : list nat) (s : Session) : Session :=
  MkSession (s_p s) (s_groups s) (s_send s) (s_recv s) (s_ack s) (s_fin s) (s_app s) (s_ctl s) (heap s) (lanes s) v (orderAt s) (facts s) (budgetMax s) (clock s) (ticks s) (out s).
Definition set_orderAt (v : Time) (s : Session) : Session :=
  MkSession (s_p s) (s_groups s) (s_send s) (s_recv s) (s_ack s) (s_fin s) (s_app s) (s_ctl s) (heap s) (lanes s) (order s) v (facts s) (budgetMax s) (clock s) (ticks s) (out s).
Definition set_facts (v : Z) (s : Session) : Session :=
  MkSession (s_p s) (s_groups s) (s_send s) (s_recv s) (s_ack s) (s_fin s) (s_app s) (s_ctl s) (heap s) (lanes s) (order s) (orderAt s) v (budgetMax s) (clock s) (ticks s) (out s).
Definition set_budgetMax (v : Z) (s : Session) : Session :=
  MkSession (s_p s) (s_groups s) (s_send s) (s_recv s) (s_ack s) (s_fin s) (s_app s) (s_ctl s) (heap s) (lanes s) (order s) (orderAt s) (facts s) v (clock s) (ticks s) (out s).
Definition set_clock (v : nat → Time) (s : Session) : Session :=
  MkSession (s_p s) (s_groups s) (s_send s) (s_recv s) (s_ack s) (s_fin s) (s_app s) (s_ctl s) (heap s) (lanes s) (order s) (orderAt s) (facts s) (budgetMax s) v (ticks s) (out s).
Definition set_ticks (v : nat) (s : Session) : Session :=
  MkSession (s_p s) (s_groups s) (s_send s) (s_recv s) (s_ack s) (s_fin s) (s_app s) (s_ctl s) (heap s) (lanes s) (order s) (orderAt s) (facts s) (budgetMax s) (clock s) v (out s).
Definition set_out (v : list effect) (s : Session) : Session :=
  MkSession (s_p s) (s_groups s) (s_send s) (s_recv s) (s_ack s) (s_fin s) (s_app s) (s_ctl s) (heap s) (lanes s) (order s) (orderAt s) (facts s) (budgetMax s) (clock s) (ticks s) v.
(** ** The state monad *)

Definition M (A : Type) : Type := Session → A * Session.

Definition ret {A} (a : A) : M A := λ s, (a, s).
Definition bind {A B} (m : M A) (k : A → M B) : M B := λ s, let '(a, s') := m s in k a s'.
Definition gets {A} (f : Session → A) : M A := λ s, (f s, s).
Definition get : M Session := λ s, (s, s).
Definition modify (f : Session → Session) : M unit := λ s, (tt, f s).

Notation "'do' x <- m ; k" := (bind m (λ x, k))
  (at level 10, x name, m at level 100, k at level 200, format "'[v' 'do'  x  <-  m ; '/' k ']'") : rendr_scope.
Notation "'run' m ; k" := (bind m (λ _, k))
  (at level 10, m at level 100, k at level 200, format "'[v' 'run'  m ; '/' k ']'") : rendr_scope.

Definition when (b : bool) (m : M unit) : M unit := if b then m else ret tt.

(** [for _, x := range l { f x }] *)
Fixpoint forM {A} (l : list A) (f : A → M unit) : M unit :=
  match l with
  | [] => ret tt
  | x :: r => bind (f x) (λ _, forM r f)
  end.

Definition upd_send (f : sendS → sendS) : M unit := modify (λ s, set_s_send (f (s_send s)) s).
Definition upd_recv (f : recvS → recvS) : M unit := modify (λ s, set_s_recv (f (s_recv s)) s).
Definition upd_ack (f : ackS → ackS) : M unit := modify (λ s, set_s_ack (f (s_ack s)) s).
Definition upd_fin (f : finS → finS) : M unit := modify (λ s, set_s_fin (f (s_fin s)) s).
Definition upd_app (f : appS → appS) : M unit := modify (λ s, set_s_app (f (s_app s)) s).
Definition upd_ctl (f : control → control) : M unit := modify (λ s, set_s_ctl (f (s_ctl s)) s).

Definition Now : M Time := λ s, (clock s (ticks s), set_ticks (S (ticks s)) s).

(** Lane cells; a dangling pointer reads as a dead lane and is not written. *)
Definition dead_lane : lane :=
  Lane 0 (-1) 0 false LaneDead false NoFirst false false [] 0 0 0 false false false 0 false
       0 false true 0 0 false.

Definition lane_at (s : Session) (i : nat) : lane := default dead_lane (heap s !! i).
Definition getLane (i : nat) : M lane := gets (λ s, lane_at s i).
Definition updLane (i : nat) (f : lane → lane) : M unit :=
  modify (λ s, set_heap (alter f i (heap s)) s).

Definition emit (e : effect) : M unit := modify (λ s, set_out (out s ++ [e]) s).
Definition ringActor : M unit := emit RingActor.
Definition addFact (f : Z) : M unit := modify (λ s, set_facts (Z.lor (facts s) f) s).

(** streamSignal on rwake and wwake: a non-blocking send on a cap-1 channel. *)
Definition signalR : M unit := upd_app (set_rwake true).
Definition signalW : M unit := upd_app (set_wwake true).

(** [l.idle = false; l.port.Wake()] *)
Definition wakeLane (i : nat) : M unit := bind (updLane i (set_l_idle false)) (λ _, emit (WakeLane i)).

Definition wakeIfIdle (o : option nat) : M unit :=
  match o with
  | None => ret tt
  | Some i => bind (getLane i) (λ l, when (l_idle l) (wakeLane i))
  end.

(** ** Parameter accessors (stream.go) *)

Definition window (p : Params) : Z := if 0 <? p_Window p then p_Window p else defaultWindow.
Definition ackEvery (p : Params) : Z := if 0 <? p_AckEvery p then u64 (p_AckEvery p) else defaultAckEvery.
Definition ackDelay (p : Params) : Z := if 0 <? p_AckDelay p then p_AckDelay p else defaultAckDelay.
Definition offsetLimit (p : Params) : Z := if 0 <? p_OffsetLimit p then p_OffsetLimit p else defaultOffsetLimit.
Definition pingBusy (p : Params) : Z := if 0 <? p_PingBusy p then p_PingBusy p else defaultPingBusy.
Definition segment (p : Params) : Z :=
  if (0 <? p_Segment p) && (p_Segment p <? chunkSize) then u64 (p_Segment p) else chunkSize.
Definition writerWakeRoom (p : Params) : Z := Z.min maxRound (quot (window p) 4).
Definition readvertiseFloor (p : Params) : Z := Z.min windowFloor (window p).

(** ** Lemmas of the monad *)

Lemma bind_ret {A B} (a : A) (k : A → M B) s : bind (ret a) k s = k a s.
Proof. done. Qed.

Lemma bind_assoc {A B C} (m : M A) (k : A → M B) (h : B → M C) s :
  bind (bind m k) h s = bind m (λ a, bind (k a) h) s.
Proof. unfold bind. by destruct (m s). Qed.

(** [m] leaves the projection [π] of the state unchanged. *)
Definition keeps {A X} (π : Session → X) (m : M A) : Prop := ∀ s, π (m s).2 = π s.

Lemma keeps_ret {A X} (π : Session → X) (a : A) : keeps π (ret a).
Proof. done. Qed.

Lemma keeps_gets {A X} (π : Session → X) (f : Session → A) : keeps π (gets f).
Proof. done. Qed.

Lemma keeps_get {X} (π : Session → X) : keeps π get.
Proof. done. Qed.

Lemma keeps_bind {A B X} (π : Session → X) (m : M A) (k : A → M B) :
  keeps π m → (∀ a, keeps π (k a)) → keeps π (bind m k).
Proof.
  intros Hm Hk s. unfold bind. specialize (Hm s). destruct (m s) as [a s'] eqn:E. cbn in *.
  by rewrite Hk.
Qed.

Lemma keeps_when {X} (π : Session → X) b m : keeps π m → keeps π (when b m).
Proof. by destruct b. Qed.

Lemma keeps_forM {A X} (π : Session → X) (l : list A) f : (∀ x, keeps π (f x)) → keeps π (forM l f).
Proof. intros H. induction l; cbn [forM]; [apply keeps_ret|]. by apply keeps_bind. Qed.

(** Weakest preconditions: [Q] holds of the result and the final state. *)
Definition wp {A} (m : M A) (Q : A → Session → Prop) (s : Session) : Prop := Q (m s).1 (m s).2.

Lemma wp_bind {A B} (m : M A) (k : A → M B) Q s : wp m (λ a s', wp (k a) Q s') s → wp (bind m k) Q s.
Proof. unfold wp, bind. by destruct (m s). Qed.

Lemma wp_bind_assoc {A B C} (m : M A) (k : A → M B) (h : B → M C) Q s :
  wp (bind m k) (λ b s', wp (h b) Q s') s → wp (bind m (λ a, bind (k a) h)) Q s.
Proof. unfold wp, bind. destruct (m s) as [a s1]. by destruct (k a s1). Qed.

Lemma wp_ret {A} (a : A) (Q : A → Session → Prop) s : Q a s → wp (ret a) Q s.
Proof. done. Qed.

Lemma wp_gets {A} (f : Session → A) (Q : A → Session → Prop) s : Q (f s) s → wp (gets f) Q s.
Proof. done. Qed.

Lemma wp_get (Q : Session → Session → Prop) s : Q s s → wp get Q s.
Proof. done. Qed.

Lemma wp_modify f (Q : unit → Session → Prop) s : Q tt (f s) → wp (modify f) Q s.
Proof. done. Qed.

Lemma wp_mono {A} (m : M A) (P Q : A → Session → Prop) s :
  wp m P s → (∀ a s', P a s' → Q a s') → wp m Q s.
Proof. unfold wp. eauto. Qed.

Lemma wp_when b m (Q : unit → Session → Prop) s :
  (b = true → wp m Q s) → (b = false → Q tt s) → wp (when b m) Q s.
Proof. destruct b; unfold when; intros H1 H2; [by apply H1|by apply wp_ret, H2]. Qed.

Lemma wp_forM {A} (l : list A) f (I : Session → Prop) (Q : unit → Session → Prop) s :
  I s → (∀ x s, I s → wp (f x) (λ _ s', I s') s) → (∀ s', I s' → Q tt s') → wp (forM l f) Q s.
Proof.
  intros HI Hf HQ. revert s HI. induction l as [|x r IH]; intros s0 HI; cbn [forM]; [by apply wp_ret, HQ|].
  apply wp_bind. eapply wp_mono; [by apply Hf|]. intros u s1. apply IH.
Qed.

(** Steps through binds and primitive updates. *)
Ltac wp_step :=
  lazymatch goal with
  | |- wp (bind _ _) _ _ => apply wp_bind
  | |- wp (ret _) _ _ => apply wp_ret
  | |- wp get _ _ => apply wp_get
  | |- wp (gets _) _ _ => apply wp_gets
  | |- wp (modify _) _ _ => apply wp_modify
  | |- wp (upd_send _) _ _ => apply wp_modify
  | |- wp (upd_recv _) _ _ => apply wp_modify
  | |- wp (upd_ack _) _ _ => apply wp_modify
  | |- wp (upd_fin _) _ _ => apply wp_modify
  | |- wp (upd_app _) _ _ => apply wp_modify
  | |- wp (upd_ctl _) _ _ => apply wp_modify
  | |- wp (updLane _ _) _ _ => apply wp_modify
  | |- wp (emit _) _ _ => apply wp_modify
  | |- wp ringActor _ _ => apply wp_modify
  | |- wp (addFact _) _ _ => apply wp_modify
  | |- wp signalR _ _ => apply wp_modify
  | |- wp signalW _ _ => apply wp_modify
  end.

Ltac wp_steps := repeat wp_step.

Create HintDb keeps.
#[export] Hint Resolve keeps_ret keeps_get keeps_gets keeps_when keeps_forM : keeps.

(** Closes [keeps π m] for a function built from the primitives: binds are
    split, conditionals and matches are destructed, leaves are looked up. *)
Ltac keeps_by leaf :=
  repeat first
    [ progress intros
    | solve [leaf]
    | apply keeps_bind
    | apply keeps_when
    | apply keeps_forM
    | match goal with
      | |- keeps _ (match ?x with _ => _ end) => destruct x
      | |- keeps _ (let '_ := ?x in _) => destruct x
      end ].

Ltac keeps := keeps_by ltac:(first [eauto with keeps | intros ?; reflexivity]).
