(* ===== verification/SessDuty.v ===== *)
(** * Wakes and the ACK duty

    src/internal/session/wake.go, ack.go (receiver side), race.go (duty,
    wakes and cursors) and the lane predicates of helpers.go: which lane
    carries the session's ACKs, when one is due, and which idle carrier
    writers are woken. *)

From Stdlib Require Import ZArith Lia Permutation.
From stdpp Require Import base numbers list sorting.
From S2P Require Import Prelude WireConst WirePayload GoTime SchedTiming CarrierBuf Spans RecvSegs SessState.

Open Scope Z_scope.
Open Scope rendr_scope.

(** ** Lane predicates *)

Definition refusedLocked (l : lane) : bool :=
  l_firstSent l && match l_first l with NoFirst => false | _ => true end.

Definition schedLists (set : Sched.Sched) (id : Z) : bool :=
  existsb (Z.eqb id) (take (Z.to_nat (Sched.N set)) (Sched.IDs set)).

Definition ackDroppedLocked (s : Session) (l : lane) : bool :=
  is_passive (p_Role (s_p s)) && (0 <? Sched.N (c_set (s_ctl s))) &&
  negb (schedLists (c_set (s_ctl s)) (l_id l)).

Definition ackLeavingLocked (s : Session) (l : lane) : bool :=
  l_retireCalled l || ackDroppedLocked s l.

Definition ackQualifiesLocked (s : Session) (l : lane) : bool :=
  if is_dead (l_state l) then false
  else if is_passive (p_Role (s_p s)) then
    if negb (l_firstSent l) || refusedLocked l then false else negb (port_CloseSent l)
  else if bool_decide (l_state l = LaneJoining) then false
  else negb (port_CloseSent l).

Definition ackKeepLocked (s : Session) (l : lane) : bool :=
  ackQualifiesLocked s l && negb (ackLeavingLocked s l) && negb (port_WriteBlocked l).

(** DialSpec.group and .coupled (bond.go). *)
Definition group (g : groupSpec) (i : Z) : Z :=
  if (i <? 0) || (len (g_Groups g) <=? i) then 0 else default 0 (g_Groups g !! Z.to_nat i).

Definition coupled (g : groupSpec) (i : Z) : bool :=
  negb (group g i =? 0) && (i <? 16) && negb (Z.land (g_Coupled g) (Z.shiftl 1 i) =? 0).

Definition holSiblingBlockedLocked (s : Session) (i : nat) : bool :=
  match s_groups s with
  | None => false
  | Some g =>
      let l := lane_at s i in
      if l_factory l <? 0 then false
      else if negb (coupled g (l_factory l)) then false
      else
        existsb (λ o, negb (o =? i)%nat && (0 <=? l_factory (lane_at s o)) &&
                      negb (is_dead (l_state (lane_at s o))) &&
                      (group g (l_factory (lane_at s o)) =? group g (l_factory l)) &&
                      port_WriteBlocked (lane_at s o)) (order s)
  end.

Definition otherDataLaneLocked (s : Session) (i : nat) : bool :=
  existsb (λ o, negb (o =? i)%nat && l_data (lane_at s o)) (order s).

Definition raceOtherDataLaneLocked (s : Session) (i : nat) : bool :=
  existsb (λ o, negb (o =? i)%nat && l_data (lane_at s o) && negb (is_dead (l_state (lane_at s o))))
          (order s).

(** ** The srtt order (wake.go) *)

Definition srttBefore (a b : Z) : bool :=
  if negb (Bool.eqb (0 <? a) (0 <? b)) then 0 <? a else (0 <? a) && (a <? b).

(** The inner loop: the lane moves left past every later-keyed one; [r] is the
    sorted prefix reversed. *)
Fixpoint orderInsert (key : nat → Z) (x : nat) (r : list nat) : list nat :=
  match r with
  | y :: r' => if srttBefore (key x) (key y) then y :: orderInsert key x r' else x :: r
  | [] => [x]
  end.

Definition orderSort (key : nat → Z) (o : list nat) : list nat :=
  reverse (fold_left (λ r x, orderInsert key x r) o []).

Definition refreshOrderLocked (now : Time) (force : bool) : M unit :=
  do s <- get;
  if negb force && (Sub now (orderAt s) <? pingBusy (s_p s)) then ret tt
  else
    run modify (set_orderAt now);
    if (32 <? length (order s))%nat then ret tt
    else modify (set_order (orderSort (λ i, port_SRTT (lane_at s i)) (order s))).

(** orderRemove: the first occurrence only. *)
Fixpoint removeFirst (i : nat) (o : list nat) : list nat :=
  match o with
  | [] => []
  | x :: r => if (x =? i)%nat then r else x :: removeFirst i r
  end.

Definition orderRemove (i : nat) : M unit := modify (λ s, set_order (removeFirst i (order s)) s).

(** ** Race *)

Definition raceAckDutyLocked (s : Session) (l : lane) : bool :=
  is_race (p_Mode (s_p s)) && l_data l && ackKeepLocked s l.

Definition raceAckLaneLocked (s : Session) : option nat :=
  fold_left
    (λ best i,
       let l := lane_at s i in
       if negb (ackQualifiesLocked s l) || ackLeavingLocked s l || port_WriteBlocked l then best
       else
         match best with
         | None => Some i
         | Some b =>
             let r := port_SRTT l in
             let br := port_SRTT (lane_at s b) in
             if srttBefore r br || ((r =? br) && (l_factory l <? l_factory (lane_at s b)))
             then Some i else best
         end)
    (lanes s) None.

Definition raceWakeAckLocked : M unit :=
  do s <- get;
  when (is_race (p_Mode (s_p s)))
    (forM (lanes s) (λ i,
       do s <- get;
       when (l_idle (lane_at s i) && raceAckDutyLocked s (lane_at s i)) (wakeLane i))).

(** ** The ACK duty lane *)

(** The rank of a candidate: 0 is best. *)
Definition ackRank (s : Session) (i : nat) : Z :=
  let l := lane_at s i in
  (if port_WriteBlocked l then 4 else if holSiblingBlockedLocked s i then 2 else 0) +
  (if ackLeavingLocked s l then 1 else 0).

(** The loop of chooseAckLaneLocked over the srtt order. *)
Fixpoint chooseLoop (s : Session) (skip : option nat) (o : list nat) (best : option nat) (bestRank : Z)
  : option nat :=
  match o with
  | [] => best
  | i :: r =>
      if bool_decide (skip = Some i) || negb (ackQualifiesLocked s (lane_at s i))
      then chooseLoop s skip r best bestRank
      else
        let rank := ackRank s i in
        if rank <? bestRank then
          if rank =? 0 then Some i else chooseLoop s skip r (Some i) rank
        else chooseLoop s skip r best bestRank
  end.

Definition chooseAckLaneLocked (skip : option nat) : M (option nat) :=
  do now <- Now;
  run refreshOrderLocked now false;
  gets (λ s, chooseLoop s skip (order s) None 6).

Definition ensureAckLaneLocked : M unit :=
  do s <- get;
  let race := if is_race (p_Mode (s_p s)) then raceAckLaneLocked s else None in
  match race with
  | Some l => upd_ack (set_ackLane (Some l))
  | None =>
      let cur := ackLane (s_ack s) in
      let keep := match cur with Some c => ackKeepLocked s (lane_at s c) | None => false end in
      if keep then ret tt
      else
        do l <- chooseAckLaneLocked None;
        match l with
        | Some i => upd_ack (set_ackLane (Some i))
        | None =>
            do s <- get;
            match cur with
            | Some c => when (negb (ackQualifiesLocked s (lane_at s c))) (upd_ack (set_ackLane None))
            | None => ret tt
            end
        end
  end.

(** ** Bumps *)

Definition bumpNowLocked : M unit :=
  run upd_ack (λ a, set_ackGen (u64 (ackGen a + 1)) a);
  do s <- get;
  run (if IsZero (ackOwedSince (s_ack s))
   then (do now <- Now; upd_ack (set_ackOwedSince now)) else ret tt);
  run upd_ack (set_ackBumped (rRead (s_recv s)));
  run upd_ack (set_ackDelayAt zero_time);
  run ensureAckLaneLocked;
  run (do s <- get; wakeIfIdle (ackLane (s_ack s)));
  run (do s <- get; wakeIfIdle (gapLane (s_ack s)));
  raceWakeAckLocked.

Definition gapAckLocked (l : nat) (off tail : Z) : M unit :=
  do s <- get;
  if match ooq (rb (s_recv s)) with [] => true | _ => false end || ended (s_app s)
  then upd_ack (set_gapLane None)
  else if (off <=? tail) || bool_decide (ackLane (s_ack s) = Some l) then ret tt
  else
    run upd_ack (set_gapLane (Some l));
    when (negb (l_ackSent (lane_at s l) =? ackGen (s_ack s)) && l_idle (lane_at s l)) (wakeLane l).

Definition ackCadenceLocked : M unit :=
  do s <- get;
  let a := s_ack s in
  if ackEvery (s_p s) <=? u64 (rRead (s_recv s) - ackBumped a) then bumpNowLocked
  else if (ackBumped a <? rRead (s_recv s)) && IsZero (ackDelayAt a) then
    do now <- Now;
    run upd_ack (set_ackDelayAt (Add now (ackDelay (s_p s))));
    run ensureAckLaneLocked;
    run (do s <- get; wakeIfIdle (ackLane (s_ack s)));
    run (do s <- get; wakeIfIdle (gapLane (s_ack s)));
    raceWakeAckLocked
  else ret tt.

Definition bumpAckLocked (urgent : bool) : M unit :=
  if urgent then bumpNowLocked else ackCadenceLocked.

Definition ackOverdueLocked (s : Session) (i : nat) (now : Time) : bool :=
  let a := s_ack s in
  match ackLane a with
  | None => false
  | Some d =>
      if (d =? i)%nat || is_race (p_Mode (s_p s)) then false
      else
        let l := lane_at s i in
        let check due :=
          negb (Before now (Add due (pingBusy (s_p s)))) && ackQualifiesLocked s l &&
          negb (ackLeavingLocked s l) && negb (holSiblingBlockedLocked s i) in
        if negb (IsZero (ackOwedSince a)) && negb (l_ackSent l =? ackGen a) then check (ackOwedSince a)
        else if negb (IsZero (ackDelayAt a)) then check (ackDelayAt a)
        else false
  end.

(** ** Sendable bytes and data wakes *)

Definition finDueLocked (s : Session) : bool :=
  let f := fin (s_fin s) in
  fin_requested f && negb (fin_acked f) && match fin_lane f with None => true | _ => false end &&
  sl_empty (retx (s_send s)) && (fin_off f <=? sNext (s_send s)).

Definition raceFinDueLocked (s : Session) (i : nat) : bool :=
  let f := fin (s_fin s) in
  fin_requested f && negb (fin_acked f) && negb (l_finHere (lane_at s i)) &&
  (fin_off f <=? Z.max (l_rnext (lane_at s i)) (sBase (s_send s))).

Definition racePullableLocked (s : Session) : Z :=
  let st := s_send s in
  let lim := Z.min (s_end st) (peerLimit st) in
  let from :=
    fold_left (λ from i,
      let l := lane_at s i in
      if l_data l && negb (is_dead (l_state l)) then Z.min from (Z.max (l_rnext l) (sBase st)) else from)
      (order s) (sNext st) in
  if from <? lim then u64 (lim - from) else 0.

Definition pullableLocked (s : Session) : Z :=
  if is_race (p_Mode (s_p s)) then racePullableLocked s
  else
    let st := s_send s in
    let n := sl_bytes (retx st) in
    let lim := Z.min (s_end st) (peerLimit st) in
    if sNext st <? lim then u64 (n + u64 (lim - sNext st)) else n.

Definition raceWakeDataLocked : M unit :=
  do s <- get;
  if ended (s_app s) then ret tt
  else
    forM (order s) (λ i,
      do s <- get;
      let l := lane_at s i in
      let lim := Z.min (s_end (s_send s)) (peerLimit (s_send s)) in
      if negb (l_data l) || is_dead (l_state l) || negb (l_idle l) || port_WriteBlocked l then ret tt
      else if (lim <=? Z.max (l_rnext l) (sBase (s_send s))) && negb (raceFinDueLocked s i) then ret tt
      else wakeLane i).

(** The bond walk: wake idle lanes until the spare capacity covers [need]. *)
Fixpoint bondWake (o : list nat) (need covered : Z) : M unit :=
  match o with
  | [] => ret tt
  | i :: r =>
      do s <- get;
      let l := lane_at s i in
      if negb (l_data l) || port_WriteBlocked l then bondWake r need covered
      else
        run when (l_idle l) (wakeLane i);
        let spare := port_Capacity l - port_Inflight l in
        let covered := if 0 <? spare then covered + spare else covered in
        if need <=? covered then ret tt else bondWake r need covered
  end.

Definition wakeDataLocked (now : Time) : M unit :=
  do s <- get;
  match p_Mode (s_p s) with
  | ModeRace => raceWakeDataLocked
  | ModeSelector =>
      let act :=
        match c_active (s_ctl s) with
        | Some a =>
            if negb (l_data (lane_at s a)) || is_dead (l_state (lane_at s a)) then None else Some a
        | None => None
        end in
      let l := match act with
               | Some a => Some a
               | None => List.find (λ o, l_data (lane_at s o)) (order s)
               end in
      wakeIfIdle l
  | ModeBond =>
      let need := i64 (pullableLocked s) in
      let need := if re_set (rescue (s_send s)) then need + i64 (sp_n (re_sp (rescue (s_send s)))) else need in
      let need := if (need =? 0) && finDueLocked s then 1 else need in
      if need =? 0 then ret tt
      else
        run refreshOrderLocked now false;
        do s <- get;
        bondWake (order s) need 0
  end.

(** ** What the duty and the wakes leave alone *)

(** Everything but the ACK state, the srtt order, the idle bits and the
    effects. *)
Definition dataOf (s : Session) :=
  (s_p s, s_send s, s_recv s, s_fin s, s_app s, s_ctl s, lanes s, facts s,
   set_l_idle false <$> heap s, budgetMax s, clock s).

Lemma keeps_Now : keeps dataOf Now. Proof. intros ?. reflexivity. Qed.
Lemma keeps_upd_ack f : keeps dataOf (upd_ack f). Proof. intros ?. reflexivity. Qed.
Lemma keeps_emit e : keeps dataOf (emit e). Proof. intros ?. reflexivity. Qed.
Lemma keeps_orderAt t : keeps dataOf (modify (set_orderAt t)). Proof. intros ?. reflexivity. Qed.
Lemma keeps_order o : keeps dataOf (modify (set_order o)). Proof. intros ?. reflexivity. Qed.

Lemma keeps_idle i b : keeps dataOf (updLane i (set_l_idle b)).
Proof.
  intros s. unfold dataOf, updLane, modify. cbn. f_equal. f_equal. f_equal.
  apply list_eq. intros j. rewrite !list_lookup_fmap.
  destruct (decide (i = j)) as [->|Hne].
  - rewrite list_lookup_alter_eq. by destruct (heap s !! j).
  - by rewrite list_lookup_alter_ne.
Qed.

#[export] Hint Resolve keeps_Now keeps_upd_ack keeps_emit keeps_orderAt keeps_order keeps_idle : keeps.

Lemma keeps_wakeLane i : keeps dataOf (wakeLane i).
Proof. unfold wakeLane. keeps. Qed.
#[export] Hint Resolve keeps_wakeLane : keeps.

Lemma keeps_wakeIfIdle o : keeps dataOf (wakeIfIdle o).
Proof. unfold wakeIfIdle, getLane. keeps. Qed.
#[export] Hint Resolve keeps_wakeIfIdle : keeps.

Lemma keeps_refreshOrder now force : keeps dataOf (refreshOrderLocked now force).
Proof. unfold refreshOrderLocked. keeps. Qed.
#[export] Hint Resolve keeps_refreshOrder : keeps.

Lemma keeps_raceWakeAck : keeps dataOf raceWakeAckLocked.
Proof. unfold raceWakeAckLocked. keeps. Qed.

Lemma keeps_chooseAckLane skip : keeps dataOf (chooseAckLaneLocked skip).
Proof. unfold chooseAckLaneLocked. keeps. Qed.
#[export] Hint Resolve keeps_raceWakeAck keeps_chooseAckLane : keeps.

Lemma keeps_ensureAckLane : keeps dataOf ensureAckLaneLocked.
Proof. unfold ensureAckLaneLocked. keeps. Qed.
#[export] Hint Resolve keeps_ensureAckLane : keeps.

Lemma keeps_bumpNow : keeps dataOf bumpNowLocked.
Proof. unfold bumpNowLocked. keeps. Qed.
#[export] Hint Resolve keeps_bumpNow : keeps.

Lemma keeps_gapAck l off tail : keeps dataOf (gapAckLocked l off tail).
Proof. unfold gapAckLocked. keeps. Qed.

Lemma keeps_ackCadence : keeps dataOf ackCadenceLocked.
Proof. unfold ackCadenceLocked. keeps. Qed.

Lemma keeps_bondWake o need covered : keeps dataOf (bondWake o need covered).
Proof. revert covered. induction o as [|i o IH]; intros covered; cbn [bondWake]; keeps. Qed.

Lemma keeps_raceWakeData : keeps dataOf raceWakeDataLocked.
Proof. unfold raceWakeDataLocked. keeps. Qed.
#[export] Hint Resolve keeps_gapAck keeps_ackCadence keeps_bondWake keeps_raceWakeData : keeps.

Lemma keeps_wakeData now : keeps dataOf (wakeDataLocked now).
Proof. unfold wakeDataLocked. keeps. Qed.
#[export] Hint Resolve keeps_wakeData : keeps.

(** A step that keeps [dataOf] proves any postcondition that follows from it. *)
Lemma wp_keeps {A} (m : M A) (Q : A → Session → Prop) s :
  keeps dataOf m → (∀ a s', dataOf s' = dataOf s → Q a s') → wp m Q s.
Proof. intros Hk HQ. apply HQ, Hk. Qed.

Lemma wp_Now (Q : Time → Session → Prop) s :
  Q (clock s (ticks s)) (set_ticks (S (ticks s)) s) → wp Now Q s.
Proof. done. Qed.

Lemma dataOf_inv s s' :
  dataOf s' = dataOf s →
  s_p s' = s_p s ∧ s_send s' = s_send s ∧ s_recv s' = s_recv s ∧ s_fin s' = s_fin s ∧
  s_app s' = s_app s ∧ s_ctl s' = s_ctl s ∧ facts s' = facts s.
Proof. unfold dataOf. by intros [= ? ? ? ? ? ? ? ? ? ? ?]. Qed.
