(* ===== verification/SessRecv.v ===== *)
(** * The receive path of a stream session

    recv.go (recvDataLocked and its callers), early_recv.go, the FIN delivery
    of fin.go, lane.Data of lane_ep.go and the Read of app.go. *)

From Stdlib Require Import ZArith Lia.
From stdpp Require Import base numbers list sorting gmap sets.
From S2P Require Import Prelude WireConst WirePayload GoTime SchedTiming CarrierBuf Spans RecvSegs RecvProofs.
From S2P Require Import RecvCopy RecvFrame SessState SessDuty.

Open Scope Z_scope.
Open Scope rendr_scope.

(** ** Definitions *)

Definition pendingLocked (s : Session) : bool :=
  is_passive (p_Role (s_p s)) && bool_decide (c_state (s_ctl s) = StatePending).

Definition earlyRecvLimit : Z := 2 * EarlyWindow.

Definition earlyEnd (p : Params) : Z := u64 (p_FirstOffset p + EarlyWindow).

Definition recvLimit (s : Session) : Z :=
  if pendingLocked s then earlyRecvLimit else 2 * window (s_p s).

Definition conflictErr (p : Params) : violation :=
  if is_race (p_Mode p) then errRaceMismatch else errConflict.

Definition upd_rb (f : rbuf → rbuf) : M unit := upd_recv (λ r, set_rb (f (rb r)) r).

Definition raceDupLocked (n : Z) (whole : bool) : M unit :=
  run upd_recv (λ r, set_dupBytes (u64 (dupBytes r + n)) r);
  do s <- get;
  when (whole && negb (is_race (p_Mode (s_p s)))) bumpNowLocked.

Definition peerFinCheckLocked : M unit :=
  do s <- get;
  let r := s_recv s in
  if negb (peerFinSet r) || peerFinDelivered r || negb (rRead r =? peerFin r) then ret tt
  else
    run upd_recv (set_peerFinDelivered true);
    run upd_ack (λ a, set_ackFlags (Z.lor (ackFlags a) FlagAckFinDelivered) a);
    run bumpNowLocked;
    run addFact factPeerFinDelivered;
    run ringActor;
    when (rwaiting (s_app s)) signalR.

Definition consumeAllLocked : M Z :=
  do s <- get;
  let r := s_recv s in
  let d := u64 (rTail (rb r) - rRead r) in
  if d =? 0 then ret 0
  else
    run upd_recv (set_rRead (rTail (rb r)));
    run upd_recv (λ r, set_delivered (u64 (delivered r + d)) r);
    run (if rcopying r then upd_recv (set_rfreePending true)
         else upd_recv (λ r, set_rb (releaseConsumed (rb r) (rRead r)) r));
    run ackCadenceLocked;
    run peerFinCheckLocked;
    ret d.

(** The comparison with the in-order bytes held at [max(off, rRead), min(end, rTail)). *)
Definition inOrderEqual (r : recvS) (off e : Z) (p : bytes) : option bool :=
  if off <? rTail (rb r) then
    let a := Z.max off (rRead r) in
    let b := Z.min e (rTail (rb r)) in
    if a <? b then
      match sub p (a - off) (b - off) with
      | None => None
      | Some q => ring_equal (inq (rb r)) a q
      end
    else Some true
  else Some true.

(** The end of recvDataLocked: [b'] holds the frame; [s] is the session at the
    start of the call. *)
Definition recvPlaced (s : Session) (b' : rbuf) : M (option serr) :=
  run upd_rb (λ _, b');
  if rTail b' =? rTail (rb (s_recv s)) then ret None
  else if discard (s_recv s) then
    do d <- consumeAllLocked;
    run when (0 <? d)
      (run upd_recv (set_discardedAfterClose true);
       run addFact factDiscardedAfterClose;
       ringActor);
    run upd_rb (shedLocked (recvLimit s));
    ret None
  else
    run upd_rb (shedLocked (recvLimit s));
    run when (rwaiting (s_app s)) signalR;
    run when (ackOnData (s_ack s))
      (run upd_ack (set_ackOnData false); bumpNowLocked);
    ret None.

Definition recvDataLocked (off : Z) (p : bytes) (buf : option frameBuf) : M (option serr) :=
  do s <- get;
  let r := s_recv s in
  let b := rb r in
  let e := u64 (off + len p) in
  let fail v := run upd_rb (λ b, releaseBuf b buf); ret (Some (EViolation v)) in
  if (len p =? 0) || (e <? off) then fail errDataLength
  else if rightEdge r <? e then fail errWindow
  else if peerFinSet r && (peerFin r <? e) then fail errDataBeyondFin
  else
    match inOrderEqual r off e p with
    | None => ret (Some EPanic)
    | Some false => fail (conflictErr (s_p s))
    | Some true =>
        if (off <? rTail b) && (e <=? rTail b) then
          run upd_rb (λ b, releaseBuf b buf);
          run raceDupLocked (u64 (e - off)) true;
          ret None
        else
          match segs_equal (ooq b) off p with
          | None => ret (Some EPanic)
          | Some false => fail (conflictErr (s_p s))
          | Some true =>
              let start := Z.max off (rTail b) in
              let n := newBytes (heldIn b start e) in
              let dup := u64 (u64 (start - off) + u64 (u64 (e - start) - n)) in
              run when (0 <? dup) (raceDupLocked dup false);
              match placeFrame (recvLimit s) b off e p buf with
              | None => ret (Some EPanic)
              | Some (b', _) => recvPlaced s b'
              end
          end
    end.

Definition earlyDataLocked (l : nat) (off : Z) (p : bytes) (buf : option frameBuf) : M (option serr) :=
  do s <- get;
  let lim := earlyEnd (s_p s) in
  let e := u64 (off + len p) in
  if negb (l_early (lane_at s l)) || (e <? off) || (lim <? e) then
    run upd_rb (λ b, releaseBuf b buf);
    ret (Some (EViolation errDataBeforeOpen))
  else
    run when (rightEdge (s_recv s) <? lim) (upd_recv (set_rightEdge lim));
    do err <- recvDataLocked off p buf;
    run upd_recv (λ r, set_earlyBytes (u64 (rxBytes (rb r) + segs_bytes (ooq (rb r)))) r);
    ret err.

Definition dataLocked (l : nat) (off : Z) (p : bytes) (buf : option frameBuf) : M (option serr) :=
  do s <- get;
  if ended (s_app s) then
    run upd_rb (λ b, releaseBuf b buf);
    ret None
  else if pendingLocked s then earlyDataLocked l off p buf
  else recvDataLocked off p buf.

(** lane.Data *)
Definition Data (l : nat) (off : Z) (p : bytes) (buf : option frameBuf) : M (option serr) :=
  do s <- get;
  let tail := rTail (rb (s_recv s)) in
  do err <- dataLocked l off p buf;
  run when (match err with None => true | Some _ => false end) (gapAckLocked l off tail);
  ret err.

(** finLocked (fin.go) *)
Definition finLocked (off : Z) : M (option serr) :=
  do s <- get;
  let r := s_recv s in
  if peerFinSet r then
    if negb (off =? peerFin r) then ret (Some (EViolation errFinConflict))
    else run when (peerFinDelivered r) bumpNowLocked; ret None
  else if off <? highest (rb r) then ret (Some (EViolation errFinBelowData))
  else if rightEdge r <? off then ret (Some (EViolation errFinBeyondWindow))
  else
    run upd_recv (set_peerFin off);
    run upd_recv (set_peerFinSet true);
    run peerFinCheckLocked;
    ret None.

(** raiseEdgeLocked (ack.go): the right edge never retracts. *)
Definition raiseEdgeLocked : M Z :=
  do s <- get;
  let r := s_recv s in
  let e := u64 (rRead r + u64 (AdvertiseWindow (window (s_p s)) (charged (rb r)) (budgetMax s))) in
  run when (rightEdge r <? e) (upd_recv (set_rightEdge e));
  gets (λ s, u64 (rightEdge (s_recv s) - rRead (s_recv s))).

(** ** Read (app.go)

    A Read is two critical sections: the first views up to maxViews in-order
    slices, the second commits after the copy. *)

Fixpoint viewsLoop (l : list seg) (nv : nat) (x want : Z) : option bytes :=
  match l, nv with
  | [], _ | _, O => Some []
  | sg :: r, S nv' =>
      if want <=? 0 then Some []
      else if sg_end sg <=? x then viewsLoop r nv x want
      else
        match sub (sg_b sg) (x - sg_off sg) (len (sg_b sg)) with
        | None => None
        | Some v =>
            let v := take (Z.to_nat (Z.min (len v) want)) v in
            match viewsLoop r nv' (u64 (x + len v)) (want - len v) with
            | None => None
            | Some rest => Some (v ++ rest)
            end
        end
  end.

Definition deadlinePassed (t now : Time) : bool := negb (IsZero t) && negb (Before now t).

Inductive readStart :=
| RErr (e : serr)       (* Read returns (0, e) *)
| RNone                 (* Read of no bytes returns (0, nil) *)
| RWait                 (* blocks on rwake *)
| RView (v : bytes).    (* the bytes copied outside the lock *)

(** The first critical section for a buffer of [n] bytes, up to the point
    where the lock is released. *)
Definition readBegin (n : Z) : M readStart :=
  do s <- get;
  let r := s_recv s in
  if n =? 0 then ret (if closed (s_app s) then RErr EClosed else RNone)
  else if closed (s_app s) then ret (RErr EClosed)
  else if peerFinSet r && (rRead r =? peerFin r) then ret (RErr EEOF)
  else if ended (s_app s) then ret (RErr (endErr (s_app s)))
  else
    do now <- Now;
    if deadlinePassed (rdl (s_app s)) now then ret (RErr EDeadline)
    else if rRead r <? rTail (rb r) then
      match viewsLoop (inq (rb r)) maxViews (rRead r) (Z.min n (u64 (rTail (rb r) - rRead r))) with
      | None => ret (RErr EPanic)
      | Some v => run upd_recv (set_rcopying true); ret (RView v)
      end
    else run upd_app (set_rwaiting true); ret RWait.

(** The commit after the copy of [n] bytes: the number of bytes Read returns,
    or net.ErrClosed when Close won. *)
Definition readCommit (n : Z) : M (Z + serr) :=
  run upd_recv (set_rcopying false);
  do s <- get;
  if closed (s_app s) then
    run when (rfreePending (s_recv s))
      (run upd_recv (set_rfreePending false);
       upd_recv (λ r, set_rb (releaseConsumed (rb r) (rRead r)) r));
    ret (inr EClosed)
  else
    run upd_recv (λ r, set_rRead (u64 (rRead r + n)) r);
    run upd_recv (λ r, set_delivered (u64 (delivered r + n)) r);
    do now <- Now;
    run upd_app (set_lastData now);
    run upd_recv (λ r, set_rb (releaseConsumed (rb r) (rRead r)) r);
    do s <- get;
    run (if negb (ended (s_app s)) then
           run ackCadenceLocked;
           peerFinCheckLocked
         else when (rfreePending (s_recv s))
                (run upd_recv (set_rfreePending false);
                 upd_recv (λ r, set_rb (releaseRecv (rb r) (rRead r)) r)));
    ret (inl n).
