(* ===== verification/SessRecvProofs.v ===== *)
(** * The receive path preserves its invariant

    The invariant [RInv] of the receive side, what one DATA frame does to the
    set of received offsets, when a frame is refused, and that a Read returns
    the next bytes of the peer's stream. *)

From Stdlib Require Import ZArith Lia.
From stdpp Require Import base numbers list sorting gmap sets.
From S2P Require Import Prelude WireConst WirePayload GoTime SchedTiming CarrierBuf Spans RecvSegs RecvProofs.
From S2P Require Import RecvCopy RecvFrame SessState SessDuty SessRecv.

Open Scope Z_scope.
Open Scope rendr_scope.

Section Recv.
Context (S : Z → Z).

(** ** The invariant *)

Record RInv (limit : Z) (r : recvS) : Prop := {
  ri_buf : ∃ lo, PInv S lo (rb r) ∧ lo ≤ rRead r;
  ri_apart : apart (rb r);
  ri_read : rRead r ≤ rTail (rb r);
  ri_edge : 0 ≤ rightEdge r < 2 ^ 64 ∧ ∀ x, x ∈ received (rb r) → x < rightEdge r;
  ri_fin : peerFinSet r = true → 0 ≤ peerFin r ≤ rightEdge r ∧ ∀ x, x ∈ received (rb r) → x < peerFin r;
  ri_cap : capok limit (rb r);
  ri_u64 : is_u64 (rxBytes (rb r)) ∧ is_u64 (oooDropped (rb r))
}.

Lemma RInv_tail limit r : RInv limit r → 0 ≤ rRead r ∧ rTail (rb r) ≤ rightEdge r.
Proof.
  intros [(lo & Hp & Hlo) _ Hr [He Hx] _ _ _]. pose proof (pi_lo _ _ _ Hp).
  split; [lia|]. destruct (decide (rTail (rb r) ≤ rightEdge r)); [done|].
  specialize (Hx (rTail (rb r) - 1)). unfold received in Hx.
  rewrite elem_of_union, elem_of_range in Hx. specialize (Hx ltac:(lia)). lia.
Qed.

(** The invariant does not read the counters and flags. *)
Lemma RInv_same limit r r' :
  rRead r' = rRead r → rightEdge r' = rightEdge r → rb r' = rb r → peerFin r' = peerFin r →
  peerFinSet r' = peerFinSet r → RInv limit r → RInv limit r'.
Proof. intros H1 H2 H3 H4 H5 []. constructor; rewrite ?H1, ?H2, ?H3, ?H4, ?H5; done. Qed.

(** ** Releasing consumed segments *)

Lemma releaseConsumed_loop_spec lo l hi rr c :
  Forall (seg_wf S) l → chain lo l hi → lo ≤ rr → rr ≤ hi →
  ∃ x l' lo', l = x ++ l' ∧ releaseConsumed_loop l rr c = (l', c + caps x) ∧
    chain lo' l' hi ∧ lo ≤ lo' ≤ rr ∧ (∀ sg r, l' = sg :: r → rr < e_of sg).
Proof.
  revert lo c. induction l as [|sg l IH]; intros lo c Hw Hc Hlo Hhi; cbn [releaseConsumed_loop].
  { exists [], [], lo. cbn [caps]. rewrite Z.add_0_r. split_and!; try done; lia. }
  inversion Hw as [|? ? Hsg Hwl]; subst. destruct Hc as [Ho Hc]. rewrite (sg_end_wf S sg Hsg).
  destruct Hsg. destruct (Z.leb_spec (e_of sg) rr).
  - destruct (IH (e_of sg) (c + segCap sg) Hwl Hc) as (x & l' & lo' & -> & He & Hc' & Hl & Hf); [lia|lia|].
    exists (sg :: x), l', lo'. rewrite He. cbn [caps]. unfold e_of in *. split_and!; try done; try lia.
    by rewrite Z.add_assoc.
  - exists [], (sg :: l), lo. cbn [caps]. rewrite Z.add_0_r. split_and!; try done; try lia.
    by intros ? ? [= -> ->].
Qed.

Lemma releaseConsumed_spec lo b rr :
  PInv S lo b → lo ≤ rr → rr ≤ rTail b →
  let b' := releaseConsumed b rr in
  (∃ lo', PInv S lo' b' ∧ lo' ≤ rr) ∧ rTail b' = rTail b ∧ ooq b' = ooq b ∧
  oooDropped b' = oooDropped b ∧ rxBytes b' = rxBytes b ∧ oooCap b' ≤ oooCap b ∧
  charged b' - oooCap b' = charged b - oooCap b ∧
  (∀ sg r, inq b' = sg :: r → rr < e_of sg).
Proof.
  intros [Hlo Htl Hch Hwi Hwo Ha Hcap] H1 H2 b'. unfold b', releaseConsumed.
  destruct (releaseConsumed_loop_spec lo (inq b) (rTail b) rr 0 Hwi Hch H1 H2)
    as (x & l' & lo' & Hsp & He & Hc' & Hl & Hf).
  rewrite He, Z.add_0_l. rewrite Hsp in Hwi, Hcap. apply Forall_app in Hwi as [Hwx Hwl].
  rewrite caps_app in Hcap. pose proof (caps_nonneg S x Hwx).
  cbn [rTail inq ooq oooCap oooDropped rxBytes charged]. split_and!; try done; try lia.
  exists lo'. split; [|lia]. constructor; cbn [rTail inq ooq oooCap]; try done; lia.
Qed.

Lemma RInv_release limit r :
  RInv limit r → RInv limit (set_rb (releaseConsumed (rb r) (rRead r)) r).
Proof.
  intros [(lo & Hp & Hlo) Hap Hr He Hf Hc Hu].
  destruct (releaseConsumed_spec lo (rb r) (rRead r) Hp Hlo Hr) as (Hb & Ht & Ho & Hd & Hx & Hcp & _ & _).
  constructor; cbn [set_rb rb rRead rightEdge peerFin peerFinSet]; try done.
  - unfold apart. by rewrite Ht, Ho.
  - by rewrite Ht.
  - unfold received. rewrite Ht, Ho. done.
  - unfold received. rewrite Ht, Ho. done.
  - unfold capok in *. rewrite Ho. destruct Hc; [by left|right; lia].
  - by rewrite Hd, Hx.
Qed.

(** ** FIN delivery and discarding *)

Lemma peerFinCheck_wp s :
  wp peerFinCheckLocked (λ _ s',
    s_p s' = s_p s ∧ s_send s' = s_send s ∧ s_ctl s' = s_ctl s ∧
    closed (s_app s') = closed (s_app s) ∧ ended (s_app s') = ended (s_app s) ∧
    s_recv s' = if peerFinSet (s_recv s) && (rRead (s_recv s) =? peerFin (s_recv s))
                then set_peerFinDelivered true (s_recv s) else s_recv s) s.
Proof.
  unfold peerFinCheckLocked. wp_steps.
  destruct (peerFinSet (s_recv s)) eqn:Hset; cbn [negb orb andb]; [|by wp_step].
  destruct (peerFinDelivered (s_recv s)) eqn:Hd; cbn [orb].
  { wp_step. split_and!; try done. destruct (s_recv s) eqn:Er. cbn in *. subst. by case_match. }
  destruct (Z.eqb_spec (rRead (s_recv s)) (peerFin (s_recv s))); cbn [negb]; [|by wp_step].
  wp_steps. apply wp_keeps; [apply keeps_bumpNow|]. intros _ s' Hs'.
  apply dataOf_inv in Hs' as (H1 & H2 & H3 & H4 & H5 & H6 & H7). cbn in *.
  wp_steps. apply wp_when; intros _.
  - wp_step. cbn. rewrite H1, H2, H3, H5, H6. done.
  - cbn. rewrite H1, H2, H3, H5, H6. done.
Qed.

(** The part of the session a receive step never changes. *)
Definition ctx (s : Session) :=
  (s_p s, s_send s, s_ctl s, closed (s_app s), ended (s_app s), budgetMax s).

Lemma ctx_dataOf s s' : dataOf s' = dataOf s → ctx s' = ctx s.
Proof. unfold dataOf, ctx. intros [= -> -> ? ? -> -> ? ? ? -> ?]. done. Qed.

Lemma ctx_limit s s' : ctx s' = ctx s → recvLimit s' = recvLimit s.
Proof. unfold ctx, recvLimit, pendingLocked. by intros [= -> ? -> ? ? ?]. Qed.

Lemma peerFinCheck_ctx s : wp peerFinCheckLocked (λ _ s', ctx s' = ctx s) s.
Proof.
  unfold peerFinCheckLocked. wp_steps. case_match; [by wp_step|]. wp_steps.
  apply wp_keeps; [apply keeps_bumpNow|]. intros _ s' Hs'. apply ctx_dataOf in Hs'.
  wp_steps. apply wp_when; intros _; [wp_step|]; (etrans; [|exact Hs']); reflexivity.
Qed.

Lemma wp_and {A} (m : M A) (P Q : A → Session → Prop) s :
  wp m P s → wp m Q s → wp m (λ a s', P a s' ∧ Q a s') s.
Proof. unfold wp. done. Qed.

(** The flags of the receive side a DATA frame never changes. *)
Definition flags (r : recvS) :=
  (peerFin r, peerFinSet r, discard r, rcopying r, rightEdge r, earlyOpen r).

(** What releasing consumed buffers keeps of the receive buffers. *)
Record sameBuf (b b' : rbuf) : Prop := {
  sb_tail : rTail b' = rTail b;
  sb_ooq : ooq b' = ooq b;
  sb_drop : oooDropped b' = oooDropped b;
  sb_rx : rxBytes b' = rxBytes b;
  sb_charge : charged b' - oooCap b' = charged b - oooCap b
}.

Lemma sameBuf_received b b' : sameBuf b b' → received b' = received b.
Proof. intros []. unfold received. by rewrite sb_tail0, sb_ooq0. Qed.

Lemma sameBuf_refl b : sameBuf b b.
Proof. by constructor. Qed.

Lemma sameBuf_release limit r : RInv limit r → sameBuf (rb r) (releaseConsumed (rb r) (rRead r)).
Proof.
  intros [(lo & Hp & Hlo) _ Hr _ _ _ _].
  destruct (releaseConsumed_spec lo (rb r) (rRead r) Hp Hlo Hr) as (_ & Ht & Ho & Hd & Hx & _ & Hc & _).
  by constructor.
Qed.

(** The receive state after an ACK decision and a FIN check: only
    peerFinDelivered may change. *)
Lemma ack_fin_wp limit s r :
  s_recv s = r → RInv limit r →
  wp (run ackCadenceLocked; peerFinCheckLocked)
     (λ _ s', ctx s' = ctx s ∧ RInv limit (s_recv s') ∧ rRead (s_recv s') = rRead r ∧ rb (s_recv s') = rb r ∧
              flags (s_recv s') = flags r ∧ rfreePending (s_recv s') = rfreePending r ∧
              delivered (s_recv s') = delivered r) s.
Proof.
  intros Hr Hinv. wp_steps. apply wp_keeps; [apply keeps_ackCadence|]. intros _ s' Hs'.
  pose proof (ctx_dataOf _ _ Hs') as Hc. apply dataOf_inv in Hs' as (_ & _ & H3 & _).
  eapply wp_mono; [apply wp_and; [apply peerFinCheck_wp|apply peerFinCheck_ctx]|].
  intros _ s'' ((_ & _ & _ & _ & _ & Hrr) & Hcc). split; [congruence|]. rewrite Hrr, H3, Hr.
  destruct (peerFinSet r && (rRead r =? peerFin r)); [|by split_and!].
  split; [|by split_and!]. by eapply RInv_same; [..|exact Hinv].
Qed.

Lemma consumeAll_wp limit s :
  RInv limit (s_recv s) →
  wp consumeAllLocked (λ d s',
    ctx s' = ctx s ∧ d = rTail (rb (s_recv s)) - rRead (s_recv s) ∧
    RInv limit (s_recv s') ∧ rRead (s_recv s') = rTail (rb (s_recv s)) ∧
    sameBuf (rb (s_recv s)) (rb (s_recv s')) ∧
    delivered (s_recv s') = (if 0 <? d then u64 (delivered (s_recv s) + d) else delivered (s_recv s)) ∧
    flags (s_recv s') = flags (s_recv s)) s.
Proof.
  intros Hinv. pose proof (RInv_tail _ _ Hinv) as [H0 Ht]. pose proof (ri_read _ _ Hinv) as Hr.
  pose proof (ri_edge _ _ Hinv) as [He _].
  unfold consumeAllLocked. wp_steps. set (r := s_recv s) in *.
  rewrite wrap_small by (unfold fits; lia).
  destruct (Z.eqb_spec (rTail (rb r) - rRead r) 0) as [Hz|Hz].
  { wp_step. rewrite Z.ltb_irrefl. split_and!; try done; unfold r in *; lia. }
  destruct (Z.ltb_spec 0 (rTail (rb r) - rRead r)); [|lia].
  set (r1 := set_delivered (u64 (delivered r + (rTail (rb r) - rRead r))) (set_rRead (rTail (rb r)) r)).
  assert (RInv limit r1) as Hinv1.
  { destruct Hinv as [(lo & Hp & Hlo) Hap _ Hed Hf Hc Hu]. constructor; cbn; try done. exists lo. split; [done|lia]. }
  set (r2 := if rcopying r then set_rfreePending true r1 else set_rb (releaseConsumed (rb r1) (rRead r1)) r1).
  assert (RInv limit r2 ∧ rRead r2 = rTail (rb r) ∧ sameBuf (rb r) (rb r2) ∧ delivered r2 = delivered r1 ∧
          flags r2 = flags r) as (Hinv2 & Hr2 & Hsb2 & Hd2 & Hrc2).
  { unfold r2. destruct (rcopying r) eqn:Erc; split_and!; try done.
    - by apply (RInv_same limit r1).
    - by apply RInv_release.
    - by apply (sameBuf_release limit r1). }
  wp_steps.
  assert (∀ s2, s_recv s2 = r2 → ctx s2 = ctx s →
    wp (run ackCadenceLocked; run peerFinCheckLocked; ret (rTail (rb r) - rRead r))
      (λ d s', ctx s' = ctx s ∧ d = rTail (rb r) - rRead r ∧ RInv limit (s_recv s') ∧
        rRead (s_recv s') = rTail (rb r) ∧ sameBuf (rb r) (rb (s_recv s')) ∧
        delivered (s_recv s') = (if 0 <? d then u64 (delivered r + d) else delivered r) ∧
        flags (s_recv s') = flags r) s2) as Hgo.
  { intros s2 Hs2 Hc2. apply wp_bind_assoc.
    eapply wp_mono; [apply (ack_fin_wp limit s2 r2 Hs2 Hinv2)|].
    intros _ s3 (Hc & Hi & Hrd & Hb & Hrc & _ & Hdl). wp_step.
    destruct (Z.ltb_spec 0 (rTail (rb r) - rRead r)); [|lia].
    rewrite Hc, Hrd, Hb, Hrc, Hdl. by split_and!. }
  destruct (rcopying r) eqn:Erc; wp_step; apply Hgo; done.
Qed.

(** ** Comparisons *)

(** [T] agrees with the held bytes of [r] inside [off, off+n), those already
    read excepted. *)
Definition agrees (T : Z → Z) (r : recvS) (off n : Z) : Prop :=
  ∀ y, off ≤ y < off + n → rRead r ≤ y → y ∈ received (rb r) → S y = T y.

Lemma inOrderEqual_spec limit r (T : Z → Z) off n :
  RInv limit r → 0 ≤ off → 0 < n → off + n < 2 ^ 64 →
  ∃ b, inOrderEqual r off (off + n) (rng T off n) = Some b ∧
    (b = true ↔ ∀ y, off ≤ y < off + n → rRead r ≤ y < rTail (rb r) → S y = T y).
Proof.
  intros Hinv Ho Hn Hov. pose proof Hinv as [(lo & Hp & Hlo) _ Hr _ _ _ _].
  pose proof Hp as [Hlo0 Htl Hch Hwi _ _ _]. unfold inOrderEqual.
  destruct (Z.ltb_spec off (rTail (rb r))) as [Hlt|Hge].
  2:{ exists true. split; [done|]. split; [intros _ y ? ?; lia|done]. }
  destruct (Z.ltb_spec (Z.max off (rRead r)) (Z.min (off + n) (rTail (rb r)))) as [Hab|Hab].
  2:{ exists true. split; [done|]. split; [intros _ y ? ?; lia|done]. }
  rewrite sub_rng by lia.
  replace (off + (Z.max off (rRead r) - off)) with (Z.max off (rRead r)) by lia.
  destruct (ring_equal_spec S lo (inq (rb r)) (rTail (rb r)) T (Z.max off (rRead r))
              (Z.min (off + n) (rTail (rb r)) - off - (Z.max off (rRead r) - off)))
    as (b & Hb & Hiff); try done; try lia.
  exists b. split; [done|]. rewrite Hiff. split; intros H y; intros; apply H; lia.
Qed.

Lemma oooEqual_spec limit r (T : Z → Z) off n :
  RInv limit r → 0 ≤ off → 0 < n → off + n < 2 ^ 64 →
  ∃ b, segs_equal (ooq (rb r)) off (rng T off n) = Some b ∧
    (b = true ↔ ∀ y, off ≤ y < off + n → y ∈ oset (ooq (rb r)) → S y = T y).
Proof.
  intros [(lo & Hp & Hlo) _ _ _ _ _ _] Ho Hn Hov. pose proof Hp as [_ _ _ _ Hwo Ha _].
  destruct (segs_equal_spec S (rTail (rb r)) (ooq (rb r)) T off n) as (b & Hb & Hiff); try done; try lia.
  exists b. split; [done|]. rewrite Hiff. split; intros H y; intros; by apply H.
Qed.

(** ** One DATA frame *)

Definition bufCap (buf : option frameBuf) : Z := match buf with Some fb => fb_cap fb | None => 0 end.

(** What the reader hands over: a buffer that holds the payload, and always
    one for a payload of 16 KiB or more. *)
Definition buf_ok (buf : option frameBuf) (n : Z) : Prop :=
  match buf with
  | Some fb => n ≤ fb_pcap fb ∧ 0 ≤ fb_cap fb
  | None => n < runSize
  end.

Lemma releaseBuf_eq b buf :
  releaseBuf b buf = RBuf (rTail b) (inq b) (ooq b) (oooCap b) (oooDropped b) (rxBytes b) (charged b - bufCap buf).
Proof. destruct buf; cbn [releaseBuf bufCap]; [done|]. rewrite Z.sub_0_r. by destruct b. Qed.

Lemma PInv_charged lo b d :
  PInv S lo b → PInv S lo (RBuf (rTail b) (inq b) (ooq b) (oooCap b) (oooDropped b) (rxBytes b) d).
Proof. intros []. by constructor. Qed.

Lemma RInv_releaseBuf limit r buf : RInv limit r → RInv limit (set_rb (releaseBuf (rb r) buf) r).
Proof.
  intros [(lo & Hp & Hlo) Hap Hr He Hf Hc Hu]. rewrite releaseBuf_eq.
  constructor; try done. exists lo. split; [by apply PInv_charged|done].
Qed.

(** The receive state after a placement, whatever the limit. *)
Lemma RInv_placed limit r off e buf A D c b' c' :
  RInv limit r → off < e → e ≤ rightEdge r → (peerFinSet r = true → e ≤ peerFin r) →
  ∀ lo, lo ≤ rRead r → placed S limit lo A D (releaseBuf (rb r) buf) c b' c' →
  A ⊆ range off e →
  ∀ L, capok L b' → RInv L (set_rb b' r).
Proof.
  intros Hinv Hoe Hed Hfn lo Hlo Hpl HA L HL. pose proof Hinv as [_ _ Hr [He1 He2] Hf _ Hu].
  destruct Hpl as [Hi Hap Hset _ _ Htl Hrx Hd _ _ _ _]. rewrite releaseBuf_eq in *.
  cbn [rTail rxBytes oooDropped] in *. unfold received at 2 in Hset. cbn [rTail ooq] in Hset.
  change (range 0 (rTail (rb r)) ∪ oset (ooq (rb r))) with (received (rb r)) in Hset.
  assert (∀ x, x ∈ received b' → x ∈ received (rb r) ∨ off ≤ x < e) as Hx.
  { intros x. rewrite Hset, elem_of_union. intros [?|Hx]; [by left|right]. by apply elem_of_range, HA. }
  constructor; cbn [set_rb rb rRead rightEdge peerFin peerFinSet]; try done.
  - eauto.
  - lia.
  - split; [done|]. intros x Hxx. destruct (Hx x Hxx) as [?|?]; [by apply He2|lia].
  - intros Hs. destruct (Hf Hs) as [? Hf2]. split; [done|]. intros x Hxx.
    specialize (Hfn Hs). destruct (Hx x Hxx) as [?|?]; [by apply Hf2|lia].
  - split; [rewrite Hrx|rewrite Hd]; apply wrap_fits; lia.
Qed.

Lemma RInv_shed L limit r :
  RInv L r →
  let b' := shedLocked limit (rb r) in
  ∃ D, RInv limit (set_rb b' r) ∧ received b' = received (rb r) ∖ D ∧ D ⊆ received (rb r) ∧
    rTail b' = rTail (rb r) ∧ oooDropped b' = u64 (oooDropped (rb r) + Z.of_nat (size D)) ∧
    charged b' - oooCap b' = charged (rb r) - oooCap (rb r).
Proof.
  intros [(lo & Hp & Hlo) Hap Hr [He1 He2] Hf _ Hu] b'.
  destruct (shedLocked_spec S limit lo (rb r) Hp (proj2 Hu)) as (D & [Hi Ha (Ht & Hq & Hx) Hset Hsub Ho Hd Hc Hcap]).
  fold b' in Hi, Ha, Ht, Hq, Hx, Hset, Hd, Hc, Hcap. exists D. split_and!; try done.
  assert (∀ x, x ∈ received b' → x ∈ received (rb r)) as Hin.
  { intros x. rewrite Hset, elem_of_difference. tauto. }
  constructor; cbn [set_rb rb rRead rightEdge peerFin peerFinSet]; try done.
  - eauto.
  - by apply Ha.
  - by rewrite Ht.
  - split; [done|]. intros x Hxx. by apply He2, Hin.
  - intros Hs. destruct (Hf Hs) as [? Hf2]. split; [done|]. intros x Hxx. by apply Hf2, Hin.
  - split; [rewrite Hx; apply Hu|]. rewrite Hd. apply wrap_fits. lia.
Qed.

(** The effect of an accepted frame [off, e): [D] was dropped on arrival or
    shed, and the rest is received. *)
Record accepted (s s' : Session) (off e : Z) (buf : option frameBuf) (D : gset Z) : Prop := {
  ac_ctx : ctx s' = ctx s;
  ac_inv : RInv (recvLimit s) (s_recv s');
  ac_set : received (rb (s_recv s')) = (received (rb (s_recv s)) ∪ range off e) ∖ D;
  ac_sub : D ⊆ received (rb (s_recv s)) ∪ range off e;
  ac_drop : oooDropped (rb (s_recv s')) = u64 (oooDropped (rb (s_recv s)) + Z.of_nat (size D));
  ac_tail : rTail (rb (s_recv s)) ≤ rTail (rb (s_recv s'));
  ac_take : off ≤ rTail (rb (s_recv s)) → e ≤ rTail (rb (s_recv s'));
  ac_read : rRead (s_recv s') = if discard (s_recv s) && negb (rTail (rb (s_recv s')) =? rTail (rb (s_recv s)))
                                then rTail (rb (s_recv s')) else rRead (s_recv s);
  ac_charge : charged (rb (s_recv s')) - oooCap (rb (s_recv s')) =
              charged (rb (s_recv s)) - oooCap (rb (s_recv s)) - bufCap buf;
  ac_flags : flags (s_recv s') = flags (s_recv s)
}.

Lemma range_split off e (A D R : gset Z) :
  A ∪ D = range off e ∖ R → R ∪ range off e = R ∪ A ∪ D.
Proof.
  intros H. apply set_eq. intros x. rewrite !elem_of_union.
  assert (x ∈ A ∪ D ↔ x ∈ range off e ∧ x ∉ R) as Hx by (by rewrite H, elem_of_difference).
  rewrite elem_of_union in Hx. destruct (decide (x ∈ R)); tauto.
Qed.

Lemma recvDup_wp s off e buf n :
  RInv (recvLimit s) (s_recv s) → 0 ≤ off → off < e → e ≤ rTail (rb (s_recv s)) →
  wp (run upd_rb (λ b, releaseBuf b buf); run raceDupLocked n true; ret (None : option serr))
     (λ err s', err = None ∧ ∃ D, accepted s s' off e buf D) s.
Proof.
  intros Hinv Ho Hoe Het. unfold upd_rb, raceDupLocked. wp_steps.
  set (s1 := set_s_recv _ _).
  assert (∀ s', dataOf s' = dataOf s1 → accepted s s' off e buf ∅) as Hgo.
  { intros s' Hs'. pose proof (ctx_dataOf _ _ Hs') as Hc. apply dataOf_inv in Hs' as (_ & _ & H3 & _).
    constructor; rewrite ?Hc, ?H3; cbn [s1 s_recv set_s_recv rb set_rb set_dupBytes rRead]; rewrite ?releaseBuf_eq;
      cbn [rTail oooDropped oooCap charged]; try done; try lia.
    - apply (RInv_releaseBuf _ _ buf) in Hinv. rewrite releaseBuf_eq in Hinv.
      by eapply RInv_same; [..|exact Hinv].
    - unfold received. cbn [rTail ooq]. apply set_eq. intros x.
      rewrite elem_of_difference, !elem_of_union, !elem_of_range, elem_of_empty. intuition lia.
    - rewrite size_empty, Z.add_0_r, wrap_small; [done|]. apply Hinv.
    - rewrite Z.eqb_refl. cbn [negb]. by rewrite andb_false_r. }
  apply wp_when; intros _.
  - apply wp_keeps; [apply keeps_bumpNow|]. intros _ s' Hs'. wp_steps. split; [done|eauto].
  - wp_steps. split; [done|]. exists ∅. by apply Hgo.
Qed.

(** From a placement to the accepted frame, after shedding. *)
Lemma accepted_placed s s' off e buf lo A D1 c c' b1 r2 b2 D2 :
  RInv (recvLimit s) (s_recv s) → off < e → lo ≤ rRead (s_recv s) →
  placed S (recvLimit s) lo A D1 (releaseBuf (rb (s_recv s)) buf) c b1 c' →
  A ∪ D1 = range off e ∖ received (rb (s_recv s)) →
  (off ≤ rTail (rb (s_recv s)) → e ≤ rTail b1) →
  sameBuf b1 (rb r2) →
  received b2 = received (rb r2) ∖ D2 → D2 ⊆ received (rb r2) → rTail b2 = rTail (rb r2) →
  oooDropped b2 = u64 (oooDropped (rb r2) + Z.of_nat (size D2)) →
  charged b2 - oooCap b2 = charged (rb r2) - oooCap (rb r2) →
  ctx s' = ctx s → rb (s_recv s') = b2 → RInv (recvLimit s) (s_recv s') →
  rRead (s_recv s') = (if discard (s_recv s) && negb (rTail b2 =? rTail (rb (s_recv s)))
                       then rTail b2 else rRead (s_recv s)) →
  flags (s_recv s') = flags (s_recv s) →
  accepted s s' off e buf (D1 ∪ D2).
Proof.
  intros Hinv Hoe Hlo Hpl HAD Htk Hsb Hset2 Hsub2 Ht2 Hd2 Hc2 Hctx Hb Hinv' Hrd Hfl.
  pose proof (sameBuf_received _ _ Hsb) as Hr2. destruct Hsb as [Hs1 _ Hs3 _ Hs5].
  destruct Hpl as [_ _ Hset _ Hdis Htl _ Hd Hg _ _ _]. rewrite releaseBuf_eq in *.
  cbn [rTail ooq oooDropped oooCap charged] in *. unfold received at 2 in Hset. cbn [rTail ooq] in Hset.
  change (range 0 (rTail (rb (s_recv s))) ∪ oset (ooq (rb (s_recv s)))) with (received (rb (s_recv s))) in Hset.
  rewrite Hr2 in Hset2, Hsub2.
  pose proof (range_split _ _ _ _ _ HAD) as Hall. rewrite <- Hset in Hall.
  assert (D1 ## D2) as HDD by (intros x Hx Hx'; apply (Hdis x Hx); by apply Hsub2).
  constructor; rewrite ?Hb; try done; try lia.
  - rewrite Hset2, Hall. clear - Hdis. apply set_eq. intros x. specialize (Hdis x).
    rewrite !elem_of_difference, !elem_of_union. tauto.
  - rewrite Hall. clear - Hsub2. set_solver.
  - rewrite Hd2, Hs3, Hd, u64_add_l, size_union by done. f_equal. lia.
Qed.

Lemma capok_max L b : capok (Z.max L (oooCap b)) b.
Proof. right. lia. Qed.

Lemma recvData_wp s off n buf :
  RInv (recvLimit s) (s_recv s) → 0 ≤ off → 0 < n → off + n ≤ rightEdge (s_recv s) →
  (peerFinSet (s_recv s) = true → off + n ≤ peerFin (s_recv s)) → buf_ok buf n →
  wp (recvDataLocked off (rng S off n) buf)
     (λ err s', err = None ∧ ∃ D, accepted s s' off (off + n) buf D) s.
Proof.
  intros Hinv Ho Hn Hed Hfn Hbuf. pose proof (ri_edge _ _ Hinv) as [[He0 He1] _].
  pose proof Hinv as [(lo & Hp & Hlo) Hap Hr _ _ Hcap [Hrx Hdr]].
  unfold recvDataLocked. wp_step. wp_step. cbv zeta. rewrite len_rng by lia.
  rewrite (wrap_small 64 (off + n)) by (unfold fits; lia).
  destruct (Z.eqb_spec n 0); [lia|]. destruct (Z.ltb_spec (off + n) off); [lia|]. cbn [orb].
  destruct (Z.ltb_spec (rightEdge (s_recv s)) (off + n)); [lia|].
  destruct (peerFinSet (s_recv s) && (peerFin (s_recv s) <? off + n)) eqn:Hff.
  { apply andb_true_iff in Hff as [Hf1 Hf2]. specialize (Hfn Hf1). lia. }
  destruct (inOrderEqual_spec _ _ S off n Hinv Ho Hn ltac:(lia)) as (q & Hq & Hqi).
  assert (q = true) as -> by (by apply Hqi). rewrite Hq. clear Hq Hqi.
  destruct ((off <? rTail (rb (s_recv s))) && (off + n <=? rTail (rb (s_recv s)))) eqn:Hdup.
  { apply andb_true_iff in Hdup as [Hd1 Hd2]. apply recvDup_wp; [done|done|lia|lia]. }
  destruct (oooEqual_spec _ _ S off n Hinv Ho Hn ltac:(lia)) as (q & Hq & Hqi).
  assert (q = true) as -> by (by apply Hqi). rewrite Hq. clear Hq Hqi.
  destruct (placeFrame_spec S (recvLimit s) lo (rb (s_recv s)) off (off + n) buf)
    as (b1 & c1 & A & D1 & Hpf & Hpl & HAD & _ & _ & Htk); try done; try lia.
  { intros fb ->. cbn in Hbuf. lia. }
  { intros ->. cbn in Hbuf. lia. }
  replace (off + n - off) with n in Hpf by lia.
  assert (A ⊆ range off (off + n)) as HA.
  { intros x Hx. assert (x ∈ A ∪ D1) as Hx' by (by apply elem_of_union_l). rewrite HAD in Hx'.
    by apply elem_of_difference in Hx' as [? _]. }
  pose proof (RInv_placed _ _ off (off + n) buf A D1 _ _ _ Hinv ltac:(lia) Hed Hfn lo Hlo Hpl HA) as HR1.
  rewrite Hpf. unfold raceDupLocked. wp_step.
  assert (∀ s1, ctx s1 = ctx s → s_app s1 = s_app s → s_ack s1 = s_ack s →
    (∃ d, s_recv s1 = set_dupBytes d (s_recv s)) →
    wp (recvPlaced s b1)
      (λ err s', err = None ∧ ∃ D, accepted s s' off (off + n) buf D) s1) as Hgo.
  2:{ apply wp_when; intros _.
      - wp_steps. apply wp_when; [done|]. intros _. apply Hgo; [done|done|done|]. by eexists.
      - apply Hgo; [done|done|done|]. exists (dupBytes (s_recv s)). by destruct (s_recv s). }
  intros s1 Hc1 Ha1 Hk1 [d Hr1]. unfold recvPlaced, upd_rb. wp_steps.
  set (s2 := set_s_recv (set_rb b1 (s_recv s1)) s1).
  assert (ctx s2 = ctx s) as Hc2 by done.
  assert (∀ L, capok L b1 → RInv L (s_recv s2)) as HR2.
  { intros L HL. specialize (HR1 L HL). eapply RInv_same; [..|exact HR1]; cbn; by rewrite ?Hr1. }
  assert (rRead (s_recv s2) = rRead (s_recv s) ∧ rb (s_recv s2) = b1 ∧ discard (s_recv s2) = discard (s_recv s))
    as (Hrd2 & Hb2 & Hds2) by (cbn; by rewrite ?Hr1).
  pose proof (capok_max (recvLimit s) b1) as Hmax. set (L := Z.max _ _) in Hmax.
  destruct (Z.eqb_spec (rTail b1) (rTail (rb (s_recv s)))) as [Heq|Hne].
  { wp_steps. split; [done|]. exists (D1 ∪ ∅).
    eapply (accepted_placed s s2 off (off + n) buf lo A D1 _ c1 b1 (s_recv s2) b1 ∅); rewrite ?Hb2; try done; try lia.
    - clear. set_solver.
    - rewrite size_empty, Z.add_0_r. symmetry. apply wrap_small. rewrite (pl_drop _ _ _ _ _ _ _ _ _ Hpl). apply wrap_fits. lia.
    - apply HR2. apply (pl_cap _ _ _ _ _ _ _ _ _ Hpl); [by rewrite releaseBuf_eq|].
      rewrite releaseBuf_eq. done.
    - rewrite Hrd2, Heq, Z.eqb_refl. cbn [negb]. by rewrite andb_false_r.
    - unfold flags. cbn. by rewrite Hr1. }
  destruct (discard (s_recv s)) eqn:Hdisc.
  - wp_step. eapply wp_mono; [apply (consumeAll_wp L); by apply HR2|].
    intros d3 s3 (Hc3 & Hd3 & HR3 & Hrd3 & Hsb3 & _ & Hfl3). rewrite Hb2 in Hsb3, Hrd3.
    destruct (RInv_shed L (recvLimit s) (s_recv s3) HR3) as (D2 & HR4 & Hset4 & Hsub4 & Ht4 & Hdr4 & Hch4).
    assert (ctx s3 = ctx s) as Hc3' by (by rewrite Hc3).
    assert (∀ s', ctx s' = ctx s3 → rb (s_recv s') = shedLocked (recvLimit s) (rb (s_recv s3)) →
      rRead (s_recv s') = rRead (s_recv s3) → rightEdge (s_recv s') = rightEdge (s_recv s3) →
      peerFin (s_recv s') = peerFin (s_recv s3) → peerFinSet (s_recv s') = peerFinSet (s_recv s3) →
      flags (s_recv s') = flags (s_recv s3) →
      ∃ D, accepted s s' off (off + n) buf D) as Hfin.
    { intros s' Hc' Hb' Hrd' He' Hf' Hfs' Hfl'. exists (D1 ∪ D2).
      apply (accepted_placed s s' off (off + n) buf lo A D1 (RCall copyBudget 0) c1 b1 (s_recv s3)
               (shedLocked (recvLimit s) (rb (s_recv s3))) D2); try done; try lia.
      - by rewrite Hc'.
      - by eapply RInv_same; [..|exact HR4].
      - rewrite Hrd', Hrd3, Ht4, (sb_tail _ _ Hsb3), Hdisc. apply Z.eqb_neq in Hne. by rewrite Hne.
      - rewrite Hfl', Hfl3. unfold flags. cbn. by rewrite Hr1. }
    wp_step. apply wp_when; intros _; wp_steps; (split; [done|]); by apply Hfin.
  - destruct (RInv_shed L (recvLimit s) (s_recv s2) (HR2 L Hmax)) as (D2 & HR4 & Hset4 & Hsub4 & Ht4 & Hdr4 & Hch4).
    assert (∀ s', ctx s' = ctx s → s_recv s' = set_rb (shedLocked (recvLimit s) (rb (s_recv s2))) (s_recv s2) →
      ∃ D, accepted s s' off (off + n) buf D) as Hfin.
    { intros s' Hc' Hr'. exists (D1 ∪ D2).
      apply (accepted_placed s s' off (off + n) buf lo A D1 (RCall copyBudget 0) c1 b1 (s_recv s2)
               (shedLocked (recvLimit s) (rb (s_recv s2))) D2); rewrite ?Hr'; try done; try lia.
      - cbn. by rewrite Hr1, Hdisc.
      - unfold flags. cbn. by rewrite Hr1. }
    wp_steps. apply wp_when; intros _; wp_steps; (apply wp_when; intros _; wp_steps).
    2,4: split; [done|]; by apply Hfin.
    all: apply wp_keeps; [apply keeps_bumpNow|]; intros _ s' Hs'; wp_steps; (split; [done|]);
      apply Hfin; [etrans; [exact (ctx_dataOf _ _ Hs')|exact Hc1]|]; by apply dataOf_inv in Hs' as (_ & _ & -> & _).
Qed.

(** ** Refused frames *)

(** The session with the frame's buffer returned and nothing else changed. *)
Definition released (s : Session) (buf : option frameBuf) : Session :=
  set_s_recv (set_rb (releaseBuf (rb (s_recv s)) buf) (s_recv s)) s.

Lemma recvData_reject s (T : Z → Z) off n buf :
  RInv (recvLimit s) (s_recv s) → is_u64 off → 0 ≤ n < 2 ^ 64 →
  let r := s_recv s in
  let refuse v := recvDataLocked off (rng T off n) buf s = (Some (EViolation v), released s buf) in
  (n = 0 ∨ 2 ^ 64 ≤ off + n → refuse errDataLength) ∧
  (0 < n → off + n < 2 ^ 64 → rightEdge r < off + n → refuse errWindow) ∧
  (0 < n → off + n ≤ rightEdge r → peerFinSet r = true → peerFin r < off + n → refuse errDataBeyondFin) ∧
  (0 < n → off + n ≤ rightEdge r → (peerFinSet r = true → off + n ≤ peerFin r) →
   ¬ agrees T r off n → refuse (conflictErr (s_p s))).
Proof.
  intros Hinv Ho Hn r refuse. unfold fits in Ho. pose proof (ri_edge _ _ Hinv) as [[He0 He1] _].
  assert (∀ x, off + x < 2 ^ 64 → 0 ≤ x → u64 (off + x) = off + x) as Hw.
  { intros x ? ?. apply wrap_small. unfold fits. lia. }
  unfold refuse, recvDataLocked, bind, get. rewrite len_rng by lia. fold r. fold r in He0, He1. split_and!.
  - intros Hbad. destruct (Z.eqb_spec n 0); [done|]. destruct Hbad as [?|Hbad]; [done|].
    assert (u64 (off + n) = off + n - 2 ^ 64) as ->.
    { unfold wrap. symmetry. apply (Z.mod_unique_pos _ _ 1); lia. }
    by destruct (Z.ltb_spec (off + n - 2 ^ 64) off); [|lia].
  - intros Hn0 Hov Hed. rewrite (Hw n) by lia. destruct (Z.eqb_spec n 0); [lia|].
    destruct (Z.ltb_spec (off + n) off); [lia|]. by destruct (Z.ltb_spec (rightEdge r) (off + n)); [|lia].
  - intros Hn0 Hed Hfs Hfin. rewrite (Hw n) by lia. destruct (Z.eqb_spec n 0); [lia|].
    destruct (Z.ltb_spec (off + n) off); [lia|]. destruct (Z.ltb_spec (rightEdge r) (off + n)); [lia|].
    rewrite Hfs. by destruct (Z.ltb_spec (peerFin r) (off + n)); [|lia].
  - intros Hn0 Hed Hfin Hag. rewrite (Hw n) by lia. destruct (Z.eqb_spec n 0); [lia|].
    destruct (Z.ltb_spec (off + n) off); [lia|]. destruct (Z.ltb_spec (rightEdge r) (off + n)); [lia|]. cbn [orb].
    assert (peerFinSet r && (peerFin r <? off + n) = false) as ->.
    { destruct (peerFinSet r); [|done]. specialize (Hfin eq_refl). apply Z.ltb_ge. lia. }
    destruct (inOrderEqual_spec _ r T off n Hinv ltac:(lia) Hn0 ltac:(lia)) as (q & -> & Hq).
    destruct q; [|done]. destruct (oooEqual_spec _ r T off n Hinv ltac:(lia) Hn0 ltac:(lia)) as (q2 & -> & Hq2).
    assert (q2 = false ∧ rTail (rb r) < off + n) as [-> Htl].
    { destruct (decide (rTail (rb r) < off + n)) as [Hlt|Hle].
      - destruct q2; [|done]. exfalso. apply Hag. intros y Hy Hr Hx. unfold received in Hx.
        rewrite elem_of_union, elem_of_range in Hx. destruct Hx as [?|Hx]; [apply Hq; [done|done|lia]|by apply Hq2].
      - exfalso. apply Hag. intros y Hy Hr _. apply Hq; [done|done|lia]. }
    destruct (Z.leb_spec (off + n) (rTail (rb r))); [lia|]. rewrite andb_false_r. done.
Qed.

(** ** FIN *)

Lemma highest_spec limit r : RInv limit r → ∀ x, x ∈ received (rb r) → x < highest (rb r).
Proof.
  intros [(lo & Hp & Hlo) _ _ _ _ _ _] x Hx. pose proof Hp as [_ _ _ _ Hwo Ha _].
  unfold highest, received in *. rewrite elem_of_union, elem_of_range in Hx.
  pose proof (asc_lastEnd S _ _ Hwo Ha) as Hle. unfold lastEnd in Hle.
  destruct Hx as [Hx|Hx]; [|pose proof (asc_oset_upper S _ _ _ Hwo Ha Hx) as Hup; unfold lastEnd in Hup];
    (destruct (last (ooq (rb r))) as [t|] eqn:Ht; [|lia]);
    (rewrite (sg_end_wf S t); [lia|]); rewrite Forall_forall in Hwo; apply Hwo; by apply last_Some_elem_of.
Qed.

(** After finLocked: an error changes nothing; otherwise the FIN is fixed at
    the offset, at or above everything received. *)
Lemma fin_wp s off :
  RInv (recvLimit s) (s_recv s) → 0 ≤ off →
  wp (finLocked off) (λ err s',
    ctx s' = ctx s ∧ RInv (recvLimit s) (s_recv s') ∧
    rRead (s_recv s') = rRead (s_recv s) ∧ rb (s_recv s') = rb (s_recv s) ∧
    rightEdge (s_recv s') = rightEdge (s_recv s) ∧
    discard (s_recv s') = discard (s_recv s) ∧ rcopying (s_recv s') = rcopying (s_recv s) ∧
    (peerFinSet (s_recv s) = true → peerFinSet (s_recv s') = true ∧ peerFin (s_recv s') = peerFin (s_recv s)) ∧
    match err with
    | Some _ => s' = s
    | None => peerFinSet (s_recv s') = true ∧ peerFin (s_recv s') = off
    end) s.
Proof.
  intros Hinv Ho. unfold finLocked. wp_step. wp_step. set (r := s_recv s).
  destruct (peerFinSet r) eqn:Hfs.
  { destruct (Z.eqb_spec off (peerFin r)) as [->|]; cbn [negb]; [|by wp_step].
    wp_step. apply wp_when; intros _; [|by wp_step].
    apply wp_keeps; [apply keeps_bumpNow|]. intros _ s' Hs'. wp_steps.
    pose proof (ctx_dataOf _ _ Hs'). apply dataOf_inv in Hs' as (_ & _ & -> & _). by split_and!. }
  destruct (Z.ltb_spec off (highest (rb r))) as [|Hhi]; [by wp_step|].
  destruct (Z.ltb_spec (rightEdge r) off) as [|Hed]; [by wp_step|].
  set (r1 := set_peerFinSet true (set_peerFin off r)).
  assert (RInv (recvLimit s) r1) as Hinv1.
  { pose proof (highest_spec _ _ Hinv) as Hh. destruct Hinv. constructor; cbn; try done.
    intros _. fold r. fold r in Hh. split; [lia|]. intros x Hx. specialize (Hh x Hx). lia. }
  wp_steps. eapply wp_mono; [apply wp_and; [apply peerFinCheck_wp|apply peerFinCheck_ctx]|].
  intros _ s' ((_ & _ & _ & _ & _ & Hr') & Hc). wp_steps. cbn [s_recv set_s_recv] in Hr'. fold r1 in Hr'.
  change (set_peerFinSet true (set_peerFin off (s_recv s))) with r1 in Hr'.
  split; [exact Hc|]. rewrite Hr'. destruct (peerFinSet r1 && (rRead r1 =? peerFin r1)); [|by split_and!].
  split; [|by split_and!]. by eapply RInv_same; [..|exact Hinv1].
Qed.

End Recv.
