(* ===== verification/SessFin.v ===== *)
(** * FIN, DONE, RST, SCHED and Close

    src/internal/session/fin.go (finLocked and peerFinCheckLocked: [SessRecv]).
    The bound on a SCHED's migration counts is proved exact. *)

From Stdlib Require Import ZArith Lia.
From stdpp Require Import base numbers list.
From S2P Require Import Prelude WireConst WirePayload GoTime SchedTiming CarrierBuf Spans RecvSegs SessState.
From S2P Require Import SessDuty SessRecv.

Open Scope Z_scope.
Open Scope rendr_scope.

Definition maybeDoneLocked : M unit :=
  do s <- get;
  let f := s_fin s in
  if doneQueued f || negb (fin_acked (fin f)) || negb (peerFinDelivered (s_recv s)) || negb (finDelivSent f)
  then ret tt
  else
    run upd_fin (set_doneQueued true);
    run upd_ack (λ a, set_ackFlags (Z.lor (ackFlags a) FlagAckDone) a);
    bumpNowLocked.

Definition rstLocked (p : bytes) : M (option serr) :=
  match Rst.ParseRst p with
  | Panic => ret (Some EPanic)
  | Err e => ret (Some (EWire e))
  | Ok r =>
      do s <- get;
      run (match rstIn (s_fin s) with
           | Some _ => ret tt
           | None =>
               run upd_fin (set_rstIn (Some r));
               run addFact factRst;
               ringActor
           end);
      ret None
  end.

(** ** SCHED *)

(** The first loop: the sum of the followed migrations; [None] when it
    overflows. *)
Fixpoint followedSum (l : list Z) (f : Z) : option Z :=
  match l with
  | [] => Some f
  | n :: r => if u64 (f + n) <? f then None else followedSum r (u64 (f + n))
  end.

(** The second loop: every count fits the room that is left. *)
Fixpoint countsFit (l : list Z) (room : Z) : bool :=
  match l with
  | [] => true
  | n :: r => if room <? n then false else countsFit r (u64 (room - n))
  end.

Definition schedCountsFit (sc : Sched.Sched) (first : Z) (followed : list Z) : bool :=
  match followedSum followed 0 with
  | None => true
  | Some f =>
      let room := u64 (u64 (f + 1) + u32 (Sched.Epoch sc - u32 (first - 1) - u32 (u64 (f + 1)))) in
      if room <=? f then true
      else countsFit [Sched.Death sc; Sched.Quality sc; Sched.Explicit sc] room
  end.

Definition schedLocked (flags : Z) (p : bytes) : M (option serr) :=
  do s <- get;
  if bool_decide (p_Role (s_p s) = RoleDialer) then ret (Some (EViolation errSchedOnDialer))
  else
    match Sched.ParseSched p with
    | Panic => ret (Some EPanic)
    | Err e => ret (Some (EWire e))
    | Ok sc =>
        let c := s_ctl s in
        let ref :=
          if c_schedInSet c && negb (EpochNewer (c_epoch c) (Sched.Epoch (c_schedIn c)))
          then Sched.Epoch (c_schedIn c) else c_epoch c in
        if negb (EpochNewer (Sched.Epoch sc) ref) then ret None
        else
          let followed :=
            if is_bond (p_Mode (s_p s)) then [0; 0; 0]
            else [c_migDeath c; c_migQuality c; c_migExplicit c] in
          if negb (schedCountsFit sc (p_FirstEpoch (s_p s)) followed)
          then ret (Some (EViolation errSchedCounts))
          else
            run upd_ctl (set_c_schedIn sc);
            run upd_ctl (set_c_schedInCause (Z.land flags SchedCauseMask));
            run upd_ctl (set_c_schedInSet true);
            run addFact factSched;
            run ringActor;
            ret None
    end.

(** ** Close *)

Definition closeWriteLocked (now : Time) : M unit :=
  do s <- get;
  if fin_requested (fin (s_fin s)) then ret tt
  else
    run upd_fin (λ f, set_fin (FinState true (fin_acked (fin f)) (resEnd (s_send s)) (fin_lane (fin f))) f);
    run addFact factCloseWrite;
    run when (wwaiting (s_app s)) signalW;
    wakeDataLocked now.

Definition closeLocked (now : Time) : M unit :=
  do s <- get;
  if closed (s_app s) then ret tt
  else
    run upd_app (set_closed true);
    run upd_app (set_closedAt now);
    run closeWriteLocked now;
    run upd_recv (set_discard true);
    run (do d <- consumeAllLocked; ret tt);
    do s <- get;
    run when (rwaiting (s_app s)) signalR;
    run when (wwaiting (s_app s)) signalW;
    addFact factClose.

(** ** The bound on migration counts *)

(** The number of SCHEDs the dialer has published up to an epoch is congruent
    to [epoch − (first − 1)] modulo 2{^32} and exceeds the migrations followed
    by 1 … 2{^32}: the smallest such number. *)
Definition publications (epoch first f : Z) : Z :=
  f + 1 + (epoch - (first - 1) - (f + 1)) mod 2 ^ 32.

Lemma publications_spec epoch first f n :
  n mod 2 ^ 32 = (epoch - (first - 1)) mod 2 ^ 32 → f + 1 ≤ n → publications epoch first f ≤ n.
Proof.
  intros Hn Hf. unfold publications. set (k := epoch - (first - 1)) in *.
  assert ((k - (f + 1)) mod 2 ^ 32 = (n - (f + 1)) mod 2 ^ 32) as ->.
  { rewrite Zminus_mod, <- Hn, <- Zminus_mod. done. }
  pose proof (Z.mod_le (n - (f + 1)) (2 ^ 32)). lia.
Qed.

Fixpoint zsum (l : list Z) : Z := match l with [] => 0 | x :: r => x + zsum r end.

Lemma followedSum_spec l f :
  Forall (fits 64) l → is_u64 f →
  followedSum l f = if f + zsum l <? 2 ^ 64 then Some (f + zsum l) else None.
Proof.
  revert f. induction l as [|n l IH]; intros f Hl Hf; cbn [followedSum zsum].
  { rewrite Z.add_0_r. unfold fits in Hf. destruct (Z.ltb_spec f (2 ^ 64)); [done|lia]. }
  inversion Hl as [|? ? Hn Hl']; subst. unfold fits in *.
  assert (0 ≤ zsum l) as Hs.
  { clear - Hl'. induction Hl'; cbn; unfold fits in *; lia. }
  destruct (Z.lt_ge_cases (f + n) (2 ^ 64)).
  - rewrite (wrap_small 64 (f + n)) by (unfold fits; lia). destruct (Z.ltb_spec (f + n) f); [lia|].
    rewrite IH by (done || unfold fits; lia). by rewrite Z.add_assoc.
  - assert (u64 (f + n) = f + n - 2 ^ 64) as ->.
    { unfold wrap. symmetry. apply (Z.mod_unique_pos _ _ 1); lia. }
    destruct (Z.ltb_spec (f + n - 2 ^ 64) f); [|lia].
    destruct (Z.ltb_spec (f + (n + zsum l)) (2 ^ 64)); [lia|done].
Qed.

Lemma countsFit_spec l room :
  Forall (fits 64) l → is_u64 room → countsFit l room = (zsum l <=? room).
Proof.
  revert room. induction l as [|n l IH]; intros room Hl Hr; cbn [countsFit zsum].
  { unfold fits in Hr. symmetry. apply Z.leb_le. lia. }
  inversion Hl as [|? ? Hn Hl']; subst. unfold fits in *.
  assert (0 ≤ zsum l) as Hs.
  { clear - Hl'. induction Hl'; cbn; unfold fits in *; lia. }
  destruct (Z.ltb_spec room n).
  { symmetry. apply Z.leb_gt. lia. }
  rewrite wrap_small by (unfold fits; lia). rewrite IH by (done || unfold fits; lia).
  destruct (Z.leb_spec (zsum l) (room - n)), (Z.leb_spec (n + zsum l) room); lia || done.
Qed.

Lemma room_spec epoch first f :
  is_u64 f →
  u64 (u64 (f + 1) + u32 (epoch - u32 (first - 1) - u32 (u64 (f + 1)))) =
  if publications epoch first f <? 2 ^ 64 then publications epoch first f
  else publications epoch first f - 2 ^ 64.
Proof.
  intros Hf. unfold fits in Hf. unfold publications.
  assert (u32 (epoch - u32 (first - 1) - u32 (u64 (f + 1))) = (epoch - (first - 1) - (f + 1)) mod 2 ^ 32) as ->.
  { assert (u32 (u64 (f + 1)) = u32 (f + 1)) as ->.
    { unfold wrap. apply Z.mod_mod_divide. exists (2 ^ 32). lia. }
    unfold wrap. rewrite (Z.mod_eq (first - 1)), (Z.mod_eq (f + 1)) by lia.
    replace (epoch - (first - 1 - 2 ^ 32 * ((first - 1) / 2 ^ 32)) - (f + 1 - 2 ^ 32 * ((f + 1) / 2 ^ 32)))
      with (epoch - (first - 1) - (f + 1) + ((first - 1) / 2 ^ 32 + (f + 1) / 2 ^ 32) * 2 ^ 32) by lia.
    by apply Z.mod_add. }
  set (k := (epoch - (first - 1) - (f + 1)) mod 2 ^ 32).
  assert (0 ≤ k < 2 ^ 32) by (apply Z.mod_pos_bound; lia).
  unfold wrap. rewrite Zplus_mod_idemp_l.
  destruct (Z.ltb_spec (f + 1 + k) (2 ^ 64)); [apply Z.mod_small; lia|].
  symmetry. apply (Z.mod_unique_pos _ _ 1); lia.
Qed.

(** C36. A SCHED newer than the reference is refused exactly when its three
    migration counts sum to more than the SCHEDs the dialer can have published
    up to its epoch: the smallest number congruent to epoch − (first − 1)
    modulo 2{^32} above the migrations already followed.  The uint64 and
    uint32 arithmetic never loses a carry: a bound or a followed sum beyond
    2{^64} binds nothing. *)
Theorem sched_counts_exact (sc : Sched.Sched) (first : Z) (followed : list Z) :
  Forall (fits 64) [Sched.Death sc; Sched.Quality sc; Sched.Explicit sc] → Forall (fits 64) followed →
  let f := zsum followed in
  let pubs := publications (Sched.Epoch sc) first f in
  (schedCountsFit sc first followed = true ↔
   2 ^ 64 ≤ f ∨ 2 ^ 64 ≤ pubs ∨ Sched.Death sc + Sched.Quality sc + Sched.Explicit sc ≤ pubs) ∧
  f + 1 ≤ pubs ≤ f + 2 ^ 32 ∧ pubs mod 2 ^ 32 = (Sched.Epoch sc - (first - 1)) mod 2 ^ 32 ∧
  (∀ n, n mod 2 ^ 32 = (Sched.Epoch sc - (first - 1)) mod 2 ^ 32 → f + 1 ≤ n → pubs ≤ n).
Proof.
  intros Hc Hf f pubs.
  assert (f + 1 ≤ pubs ≤ f + 2 ^ 32) as Hp.
  { unfold pubs, publications. pose proof (Z.mod_pos_bound (Sched.Epoch sc - (first - 1) - (f + 1)) (2 ^ 32)). lia. }
  split_and!; [|lia|lia| |intros n ? ?; by apply publications_spec].
  2:{ unfold pubs, publications. rewrite Zplus_mod_idemp_r. f_equal. lia. }
  assert (0 ≤ f) as H0.
  { unfold f. clear - Hf. induction Hf; cbn; unfold fits in *; lia. }
  unfold schedCountsFit. rewrite followedSum_spec by (done || unfold fits; lia). fold f. rewrite Z.add_0_l.
  destruct (Z.ltb_spec f (2 ^ 64)); [|split; [left; lia|done]].
  rewrite room_spec by (unfold fits; lia). fold pubs.
  destruct (Z.ltb_spec pubs (2 ^ 64)).
  - destruct (Z.leb_spec pubs f); [lia|]. rewrite countsFit_spec by (done || unfold fits; lia).
    cbn [zsum]. rewrite Z.leb_le. lia.
  - destruct (Z.leb_spec (pubs - 2 ^ 64) f); [|lia]. split; [right; left; lia|done].
Qed.

Definition sched_demo : Sched.Sched := Sched.mkSched 5 2 1 2 1 [7].

(** Epoch 5 after FirstEpoch 1 with nothing followed: five SCHEDs were
    published, so 2 + 1 + 2 migrations fit. *)
Lemma sched_counts_exact_witness :
  publications 5 1 (zsum [0; 0; 0]) = 5 ∧
  (schedCountsFit sched_demo 1 [0; 0; 0] = true ↔
   2 ^ 64 ≤ zsum [0; 0; 0] ∨ 2 ^ 64 ≤ publications (Sched.Epoch sched_demo) 1 (zsum [0; 0; 0]) ∨
   Sched.Death sched_demo + Sched.Quality sched_demo + Sched.Explicit sched_demo ≤
     publications (Sched.Epoch sched_demo) 1 (zsum [0; 0; 0])).
Proof.
  split; [reflexivity|].
  refine (proj1 (sched_counts_exact sched_demo 1 [0; 0; 0] _ _)).
  - repeat constructor; vm_compute; discriminate.
  - repeat constructor; vm_compute; discriminate.
Defined.
