(* ===== verification/SessSend.v ===== *)
(** * The send side of a stream session

    send.go, the sender side of ack.go, the Write of app.go and the stream
    helpers of helpers.go: a Write reserves chunks under the lock, copies
    outside it and commits under it; an ACK moves the acknowledged front; a
    lane that leaves gives its in-flight spans back.

    The charge of the send chunks belongs to the other users of the Budget:
    [grant] lists the buffers TryGet hands out during one reservation (their
    contents are arbitrary), and the list ends where the Budget refuses. *)

From Stdlib Require Import ZArith Lia.
From stdpp Require Import base numbers list sorting gmap sets.
From S2P Require Import Prelude WireConst WirePayload GoTime SchedTiming CarrierBuf Spans RecvSegs RecvProofs.
From S2P Require Import SessState SessDuty SessRecv SessFin.

Open Scope Z_scope.
Open Scope rendr_scope.

(** ** Chunks (stream.go) *)

Abbreviation chunk := (Z → Z).

Definition full (st : sendS) : bool := (length (chunks st) =? ringCap st)%nat.

(** chunkFor: the chunk of a stream offset and the position in it; [None] is
    an index beyond the ring's chunks. *)
Definition chunkFor (st : sendS) (off : Z) : option (chunk * Z) :=
  let d := u64 (off - cbase st) in
  match chunks st !! Z.to_nat (d / chunkSize) with
  | Some c => Some (c, d mod chunkSize)
  | None => None
  end.

Definition chunkEnd (st : sendS) (off : Z) : Z :=
  u64 (off + chunkSize - u64 (off - cbase st) mod chunkSize).

Definition releaseChunks (st : sendS) : sendS := set_chunks [] st.

(** ** Write *)

Definition sendRoomLocked (s : Session) : Z :=
  window (s_p s) - i64 (u64 (resEnd (s_send s) - sBase (s_send s))).

Definition earlyMax (p : Params) : Z := Z.min (Z.max (p_EarlyDataMax p) 0) EarlyWindow.

Definition earlyCapLocked (room : Z) : M Z :=
  do s <- get;
  if is_passive (p_Role (s_p s)) || negb (bool_decide (c_state (s_ctl s) = StatePending)) then ret room
  else
    let lim := u64 (p_FirstOffset (s_p s) + earlyMax (s_p s)) in
    if lim <=? resEnd (s_send s) then run emit TriggerOpen; ret 0
    else ret (Z.min room (i64 (u64 (lim - resEnd (s_send s))))).

Fixpoint reserveLoop (grant : list chunk) (cs : list chunk) (cap : nat) (held k : Z) : list chunk * Z :=
  match grant with
  | [] => (cs, held)
  | b :: g =>
      if (held <? k) && negb (length cs =? cap)%nat
      then reserveLoop g (cs ++ [b]) cap (held + chunkSize) k
      else (cs, held)
  end.

Definition reserveChunksLocked (grant : list chunk) (k : Z) : M Z :=
  do s <- get;
  let st := s_send s in
  let held := i64 (u64 (cbase st + len (chunks st) * chunkSize - resEnd st)) in
  let '(cs, held) := reserveLoop grant (chunks st) (ringCap st) held k in
  run upd_send (set_chunks cs);
  ret (Z.min k held).

Inductive writeStart :=
| WErr (e : serr)
| WWait (budgetBlocked : bool)   (* blocks on wwake (and the budget poll) *)
| WRound (k pos : Z).            (* k bytes are reserved *)

(** One pass of the loop of writeRoundLocked for [n] > 0 bytes, up to the
    point where the lock is released. *)
Definition writeRoundLocked (grant : list chunk) (n : Z) : M writeStart :=
  do s <- get;
  if closed (s_app s) || fin_requested (fin (s_fin s)) then ret (WErr EClosed)
  else if ended (s_app s) then ret (WErr (endErr (s_app s)))
  else if exhausted (s_send s) then ret (WErr EExhausted)
  else
    do now <- Now;
    if deadlinePassed (wdl (s_app s)) now then ret (WErr EDeadline)
    else
      do room <- earlyCapLocked (sendRoomLocked s);
      if 0 <? room then
        let k := Z.min (Z.min n room) maxRound in
        if offsetLimit (s_p s) <? u64 (resEnd (s_send s) + k) then
          run upd_send (set_exhausted true);
          run addFact factExhausted;
          run ringActor;
          ret (WErr EExhausted)
        else
          do k <- reserveChunksLocked grant k;
          if 0 <? k then
            let pos := u64 (resEnd (s_send s) - cbase (s_send s)) mod chunkSize in
            run upd_send (λ st, set_resEnd (u64 (resEnd st + k)) st);
            run upd_send (set_wcopying true);
            ret (WRound k pos)
          else run upd_app (set_wwaiting true); ret (WWait true)
      else run upd_app (set_wwaiting true); ret (WWait false).

(** The waiter after its wake: [st.wwaiting = false]. *)
Definition writeWoken : M unit := run upd_app (set_wwake false); upd_app (set_wwaiting false).

(** The copy of one round into the chunks from position [pos] of the first. *)
Fixpoint copyChunks (cs : list chunk) (pos : Z) (src : bytes) : option (list chunk) :=
  match src, cs with
  | [], _ => Some cs
  | _, [] => None
  | _, c :: r =>
      let m := Z.min (chunkSize - pos) (len src) in
      let c' := λ x, if (pos <=? x) && (x <? pos + m) then default 0 (src !! Z.to_nat (x - pos)) else c x in
      match copyChunks r 0 (drop (Z.to_nat m) src) with
      | Some r' => Some (c' :: r')
      | None => None
      end
  end.

(** The copy runs outside the lock on the chunks that hold [end, resEnd);
    false is an index out of range. *)
Definition writeCopy (p : bytes) : M bool :=
  do s <- get;
  let st := s_send s in
  let d := u64 (s_end st - cbase st) in
  let i := Z.to_nat (d / chunkSize) in
  match copyChunks (drop i (chunks st)) (d mod chunkSize) p with
  | Some cs => run upd_send (set_chunks (take i (chunks st) ++ cs)); ret true
  | None => ret false
  end.

Definition commitRoundLocked (k : Z) : M (option serr) :=
  run upd_send (set_wcopying false);
  do s <- get;
  if ended (s_app s) then
    run when (wfreePending (s_send s))
      (run upd_send (set_wfreePending false); upd_send releaseChunks);
    ret (Some (endErr (s_app s)))
  else
    do now <- Now;
    let outstanding := negb (sBase (s_send s) =? s_end (s_send s)) in
    run upd_send (λ st, set_s_end (u64 (s_end st + k)) st);
    run upd_send (λ st, set_txBytes (u64 (txBytes st + k)) st);
    run upd_app (set_lastData now);
    run when (negb outstanding)
      (run upd_send (set_lastAdvance now);
       when (is_bond (p_Mode (s_p s))) ringActor);
    run wakeDataLocked now;
    ret None.

(** ** The acknowledged front *)

Fixpoint popChunks (cs : list chunk) (cb to : Z) : list chunk * Z :=
  match cs with
  | [] => ([], cb)
  | _ :: r => if u64 (cb + chunkSize) <=? to then popChunks r (u64 (cb + chunkSize)) to else (cs, cb)
  end.

Definition trimRescue (r : rescueSlot) (to : Z) : rescueSlot :=
  if re_set r then
    let e := sp_end (re_sp r) in
    if e <=? to then no_rescue
    else if sp_off (re_sp r) <? to then RescueSlot (re_set r) (Span to (u64 (e - to))) (re_holder r)
    else r
  else r.

Definition trimLane (to : Z) (i : nat) : M unit :=
  do l <- getLane i;
  when (match l_infl l with sp :: _ => sp_off sp <? to | [] => false end)
    (updLane i (λ l, set_l_infl (sl_trimBelow (l_infl l) to) l)).

Definition advanceSendLocked (to : Z) (now : Time) : M unit :=
  run upd_send (set_sBase to);
  do s <- get;
  run forM (order s) (trimLane to);
  run upd_send (λ st, set_retx (sl_trimBelow (retx st) to) st);
  run upd_send (λ st, set_rescue (trimRescue (rescue st) to) st);
  run upd_send (λ st, let '(cs, cb) := popChunks (chunks st) (cbase st) to in set_cbase cb (set_chunks cs st));
  run upd_send (λ st, if to =? resEnd st then set_cbase (to / chunkSize * chunkSize) (releaseChunks st) else st);
  run upd_send (set_lastAdvance now);
  run upd_app (set_lastData now);
  do s <- get;
  when (wwaiting (s_app s) && (writerWakeRoom (s_p s) <=? sendRoomLocked s)) signalW.

(** ackLocked (ack.go): one ACK received on lane [l]. *)
Definition ackLocked (l : nat) (flags : Z) (a : Ack.Ack) : M (option serr) :=
  do s <- get;
  let st := s_send s in
  let finDelivered := negb (Z.land flags FlagAckFinDelivered =? 0) in
  if sNext st <? Ack.Delivered a then ret (Some (EViolation errAckBeyondSent))
  else if Ack.Delivered a <? l_lastAck (lane_at s l) then ret (Some (EViolation errAckRegression))
  else if finDelivered && (negb (fin_requested (fin (s_fin s))) || (Ack.Delivered a <? fin_off (fin (s_fin s))))
  then ret (Some (EViolation errFinDeliveredEarly))
  else
    run updLane l (set_l_lastAck (Ack.Delivered a));
    do now <- (if sBase st <? Ack.Delivered a
               then (do now <- Now; run advanceSendLocked (Ack.Delivered a) now; ret now)
               else ret zero_time);
    let lim := u64 (Ack.Delivered a + Ack.Window a) in
    run (do s <- get;
         let st := s_send s in
         when (peerLimit st <? lim)
           (let before := Z.max (sNext st) (Z.min (s_end st) (peerLimit st)) in
            run upd_send (set_peerLimit lim);
            when (before <? Z.min (s_end st) lim)
              (do now <- (if IsZero now then Now else ret now); wakeDataLocked now)));
    run (do s <- get;
         let f := fin (s_fin s) in
         when (finDelivered && negb (fin_acked f))
           (run (match fin_lane f with
                 | Some fl => updLane fl (set_l_finHere false)
                 | None => ret tt
                 end);
            run upd_fin (set_fin (FinState (fin_requested f) true (fin_off f) None));
            run addFact factFinAcked;
            run ringActor;
            maybeDoneLocked));
    run (do s <- get;
         when (negb (Z.land flags FlagAckDone =? 0) && negb (peerDone (s_fin s)))
           (run upd_fin (set_peerDone true);
            run addFact factPeerDone;
            ringActor));
    do s <- get;
    run when (negb (is_passive (p_Role (s_p s))) && EpochNewer (Ack.EpochEcho a) (echoIn (s_fin s)) &&
              negb (EpochNewer (Ack.EpochEcho a) (c_epoch (s_ctl s))))
      (run upd_fin (set_echoIn (Ack.EpochEcho a));
       run addFact factEcho;
       ringActor);
    ret None.

(** ** Helpers the actor calls (helpers.go) *)

Definition peerWindowLocked (w : Z) : M unit :=
  do s <- get;
  let st := s_send s in
  let lim := u64 (sBase st + w) in
  when (peerLimit st <? lim)
    (run upd_send (set_peerLimit lim);
     when (sNext st <? s_end st) (do now <- Now; wakeDataLocked now)).

Definition applyRxNextLocked (rx : Z) : M (option serr) :=
  do s <- get;
  if sNext (s_send s) <? rx then ret (Some (EViolation errRxNextBeyondSent))
  else
    run when ((sBase (s_send s) <? rx) && negb (ended (s_app s)))
      (do now <- Now;
       run advanceSendLocked rx now;
       do s <- get;
       when (0 <? pullableLocked s) (wakeDataLocked now));
    ret None.

Definition earlyWindowLocked : M unit :=
  do s <- get;
  when (earlyOpen (s_recv s) && (rightEdge (s_recv s) <? earlyEnd (s_p s)))
    (upd_recv (set_rightEdge (earlyEnd (s_p s)))).

Definition openWindowLocked : M Z :=
  run earlyWindowLocked;
  do w <- raiseEdgeLocked;
  let w := Z.min w (2 ^ 32 - 1) in
  run upd_ack (set_lastWin w);
  ret w.

(** The loop of requeueLocked over l.infl. *)
Fixpoint requeueSpans (l : list span) (keep : bool) (rx : list span) (n : Z) : list span * Z :=
  match l with
  | [] => (rx, n)
  | sp :: r =>
      requeueSpans r keep (if keep then rx else sl_add rx (sp_off sp) (sp_n sp)) (u64 (n + sp_n sp))
  end.

Definition requeueLocked (l : nat) : M Z :=
  do s <- get;
  run updLane l (λ c, set_l_infl (sl_trimBelow (l_infl c) (sBase (s_send s))) c);
  let race := is_race (p_Mode (s_p s)) in
  run when race (updLane l (set_l_rnext (sBase (s_send s))));
  let keep := race && raceOtherDataLaneLocked s l in
  do c <- getLane l;
  let '(rx, n) := requeueSpans (l_infl c) keep (retx (s_send s)) 0 in
  run upd_send (set_retx rx);
  run updLane l (set_l_infl []);
  run when (negb keep && (0 <? n) && negb (ended (s_app s))) (do now <- Now; wakeDataLocked now);
  ret n.

(** laneGoneLocked; [None] is its panic. *)
Definition laneGoneLocked (l : nat) : M (option Z) :=
  do s <- get;
  if negb (is_dead (l_state (lane_at s l))) || l_data (lane_at s l) then ret None
  else
    run orderRemove l;
    run when (bool_decide (fin_lane (fin (s_fin s)) = Some l))
      (upd_fin (λ f, set_fin (FinState (fin_requested (fin f)) (fin_acked (fin f)) (fin_off (fin f)) None) f));
    run updLane l (set_l_finHere false);
    run when (bool_decide (ackLane (s_ack s) = Some l)) (upd_ack (set_ackLane None));
    run when (bool_decide (gapLane (s_ack s) = Some l)) (upd_ack (set_gapLane None));
    run when (bool_decide (re_holder (rescue (s_send s)) = Some l)) (upd_send (set_rescue no_rescue));
    do n <- requeueLocked l;
    run when (negb (ended (s_app s)))
      (run bumpNowLocked;
       do s <- get;
       when ((n =? 0) && finDueLocked s) (do now <- Now; wakeDataLocked now));
    ret (Some n).

Definition laneAddedLocked (l : nat) : M unit :=
  do s <- get;
  if existsb (Nat.eqb l) (order s) then ret tt
  else
    run modify (set_order (order s ++ [l]));
    do now <- Now;
    run refreshOrderLocked now true;
    run upd_ack (set_ackOnData true);
    when (negb (ended (s_app s))) bumpNowLocked.

Definition routingChangedLocked : M unit :=
  do s <- get;
  when (negb (ended (s_app s))) (do now <- Now; wakeDataLocked now).

Definition endLocked (err : option serr) : M unit :=
  do s <- get;
  if ended (s_app s) then ret tt
  else
    run upd_app (set_ended true);
    run upd_app (set_endErr (default EClosed err));
    run when (rwaiting (s_app s)) signalR;
    run when (wwaiting (s_app s)) signalW;
    run (if wcopying (s_send s) then upd_send (set_wfreePending true) else upd_send releaseChunks);
    run (if rcopying (s_recv s) then
           run upd_recv (set_rfreePending true);
           upd_recv (λ r, set_rb (releaseOOO (rb r)) r)
         else upd_recv (λ r, set_rb (releaseRecv (rb r) (rRead r)) r));
    run upd_send (set_retx []);
    upd_send (set_rescue no_rescue).

Definition pendingBytesLocked (s : Session) : Z :=
  u64 (u64 (s_end (s_send s) - sNext (s_send s)) + sl_bytes (retx (s_send s))).

Definition takeFactsLocked : M Z :=
  do s <- get;
  run modify (set_facts 0);
  ret (facts s).

(** The spans of one lane in the search of rescueHolderLocked. *)
Fixpoint holderSpan (l : list span) (x : Z) : option span :=
  match l with
  | [] => None
  | h :: r => if x <? sp_off h then None else if x <? sp_end h then Some h else holderSpan r x
  end.

Fixpoint holderLoop (s : Session) (o : list nat) (x : Z) : option (nat * span) :=
  match o with
  | [] => None
  | i :: r =>
      match holderSpan (l_infl (lane_at s i)) x with
      | Some h =>
          let e := Z.min (Z.min (sp_end h) (chunkEnd (s_send s) x)) (u64 (x + segment (s_p s))) in
          Some (i, Span x (u64 (e - x)))
      | None => holderLoop s r x
      end
  end.

Definition rescueHolderLocked (s : Session) : option (nat * span) :=
  let st := s_send s in
  if (sNext st <=? sBase st) || ended (s_app s) then None else holderLoop s (order s) (sBase st).

Definition rescueSenderLocked (s : Session) (l : nat) : bool :=
  negb (bool_decide (re_holder (rescue (s_send s)) = Some l)) ||
  (interleaved (s_send s) && negb (otherDataLaneLocked s l)).

Definition wakeRescueLocked : M unit :=
  do s <- get;
  if negb (re_set (rescue (s_send s))) || ended (s_app s) then ret tt
  else
    forM (order s) (λ i,
      do s <- get;
      when (l_data (lane_at s i) && l_idle (lane_at s i) && rescueSenderLocked s i) (wakeLane i)).

(** rescueLocked (bond.go), the bond rescue check: [wait] is RescueWait of the
    fastest srtt, [rescued] the value of ctl.rescuedBase.  The new values of
    ctl.rescuedBase and of the actor's rescueAt. *)
Definition rescueLocked (now wait rescued : Z) : M (Z * Time) :=
  do s <- get;
  let st := s_send s in
  if negb (is_bond (p_Mode (s_p s))) || ended (s_app s) || (s_end st <=? sBase st) then ret (rescued, zero_time)
  else
    run wakeRescueLocked;
    let due := Add (lastAdvance st) wait in
    if Before now due then ret (rescued, due)
    else if re_set (rescue st) then ret (rescued, Add now wait)
    else
      match rescueHolderLocked s with
      | None => ret (rescued, Add now wait)
      | Some (holder, sp) =>
          let other := otherDataLaneLocked s holder in
          let first := negb (sBase st =? rescued) && (other || interleaved st) in
          let again := (sBase st =? rescued) && bool_decide (re_holder (rescue st) = Some holder) && other in
          if first || again then
            run upd_send (set_rescue (RescueSlot true sp (Some holder)));
            run routingChangedLocked;
            run wakeRescueLocked;
            ret (sBase st, Add now wait)
          else ret (rescued, Add now wait)
      end.

(** raceAttachLocked of a stream session (race.go). *)
Definition raceAttachLocked (l : nat) : M unit :=
  do s <- get;
  when (is_race (p_Mode (s_p s))) (updLane l (set_l_rnext (sBase (s_send s)))).

(** earlyVerdictLocked (early_dial.go): [k0] is the length of the session's
    early span, [kw] what the winner's carrier carried of it. *)
Definition earlyVerdictLocked (l : nat) (k0 kw : Z) (now : Time) : M unit :=
  run upd_recv (set_earlyBytes kw);
  do s <- get;
  if k0 =? 0 then ret tt
  else
    let base := p_FirstOffset (s_p s) in
    run upd_send (λ st, set_sNext (Z.max (sNext st) (u64 (base + k0))) st);
    run updLane l (λ c, set_l_infl (sl_add (l_infl c) base kw) c);
    run (if is_race (p_Mode (s_p s)) then updLane l (set_l_rnext (u64 (base + kw)))
         else when (kw <? k0) (upd_send (λ st, set_retx (sl_add (retx st) (u64 (base + kw)) (u64 (k0 - kw))) st)));
    wakeDataLocked now.

Definition readvertiseLocked : M bool :=
  do s <- get;
  if ended (s_app s) then ret false
  else if readvertiseFloor (s_p s) <=? lastWin (s_ack s) then ret false
  else
    let edge := rightEdge (s_recv s) in
    run raiseEdgeLocked;
    do s <- get;
    run when (edge <? rightEdge (s_recv s))
      (run upd_recv (set_rightEdge edge); bumpNowLocked);
    ret true.
