(* ===== verification/CarrierBatch.v ===== *)
(** * The batch of one physical write

    The stream mode of [Batch], src/internal/carrier/batch.go: the frames an
    endpoint's Fill appends, laid out in one arena (header, in-arena payload
    part and trailer of each frame one after another) with the DATA bodies
    referenced aside, then sealed (fseq, headers, CRC32C trailers) and written
    either as a vector of slices (appendBuffers) or as one coalesced buffer
    (appendTo).

    Theorems: the two write shapes give the same bytes, and those bytes are
    the frames, in insertion order, each as [AppendFrame] would encode it.
    A chunk reference is not counted here (ReleaseRefs only drops references);
    the batch is a stream carrier's, without pending DOWNs. *)

From Stdlib Require Import ZArith Lia.
From stdpp Require Import base numbers list.
From S2P Require Import Prelude Buffers WireConst WireCrc WireFrame Codec WirePayload GoTime.

Open Scope Z_scope.
Open Scope rendr_scope.

Definition MaxBatchFrames : Z := 64.
Definition ControlArena : Z := Z.shiftl 8 10.
Definition defaultBatchBudget : Z := Z.shiftl 256 10.
Definition arenaSize : Z := ControlArena + MaxBatchFrames * (DataHeadLen + TrailerLen).

(** One appended frame: header, in-arena payload part (ctl bytes) and trailer
    at arena[head : head+HeaderLen+ctl+TrailerLen]; a body goes on the wire
    between the payload part and the trailer. *)
Record bframe := BFrame {
  bf_hdr : Header;
  bf_head : Z;
  bf_ctl : Z;
  bf_off : Z;
  bf_body : bytes;
  bf_retx : bool
}.

(** The stream fields of Batch; n is the length of [b_frames]. *)
Record Batch := MkBatch {
  b_now : Time;
  b_wake : Time;
  b_capBlocked : bool;
  b_budget : Z;
  b_data : Z;
  b_retx : Z;
  b_ctl : Z;
  b_bodies : Z;
  b_used : Z;
  b_quota : bool;
  b_ctlOnly : bool;
  b_qEnd : Z;
  b_taken : Z;
  b_holdH : Z;
  b_holdOn : bool;
  b_frames : list bframe;
  b_arena : bytes
}.

Definition set_b_now (v : Time) (s : Batch) : Batch :=
  MkBatch v (b_wake s) (b_capBlocked s) (b_budget s) (b_data s) (b_retx s) (b_ctl s) (b_bodies s) (b_used s) (b_quota s) (b_ctlOnly s) (b_qEnd s) (b_taken s) (b_holdH s) (b_holdOn s) (b_frames s) (b_arena s).
Definition set_b_wake (v : Time) (s : Batch) : Batch :=
  MkBatch (b_now s) v (b_capBlocked s) (b_budget s) (b_data s) (b_retx s) (b_ctl s) (b_bodies s) (b_used s) (b_quota s) (b_ctlOnly s) (b_qEnd s) (b_taken s) (b_holdH s) (b_holdOn s) (b_frames s) (b_arena s).
Definition set_b_capBlocked (v : bool) (s : Batch) : Batch :=
  MkBatch (b_now s) (b_wake s) v (b_budget s) (b_data s) (b_retx s) (b_ctl s) (b_bodies s) (b_used s) (b_quota s) (b_ctlOnly s) (b_qEnd s) (b_taken s) (b_holdH s) (b_holdOn s) (b_frames s) (b_arena s).
Definition set_b_budget (v : Z) (s : Batch) : Batch :=
  MkBatch (b_now s) (b_wake s) (b_capBlocked s) v (b_data s) (b_retx s) (b_ctl s) (b_bodies s) (b_used s) (b_quota s) (b_ctlOnly s) (b_qEnd s) (b_taken s) (b_holdH s) (b_holdOn s) (b_frames s) (b_arena s).
Definition set_b_data (v : Z) (s : Batch) : Batch :=
  MkBatch (b_now s) (b_wake s) (b_capBlocked s) (b_budget s) v (b_retx s) (b_ctl s) (b_bodies s) (b_used s) (b_quota s) (b_ctlOnly s) (b_qEnd s) (b_taken s) (b_holdH s) (b_holdOn s) (b_frames s) (b_arena s).
Definition set_b_retx (v : Z) (s : Batch) : Batch :=
  MkBatch (b_now s) (b_wake s) (b_capBlocked s) (b_budget s) (b_data s) v (b_ctl s) (b_bodies s) (b_used s) (b_quota s) (b_ctlOnly s) (b_qEnd s) (b_taken s) (b_holdH s) (b_holdOn s) (b_frames s) (b_arena s).
Definition set_b_ctl (v : Z) (s : Batch) : Batch :=
  MkBatch (b_now s) (b_wake s) (b_capBlocked s) (b_budget s) (b_data s) (b_retx s) v (b_bodies s) (b_used s) (b_quota s) (b_ctlOnly s) (b_qEnd s) (b_taken s) (b_holdH s) (b_holdOn s) (b_frames s) (b_arena s).
Definition set_b_bodies (v : Z) (s : Batch) : Batch :=
  MkBatch (b_now s) (b_wake s) (b_capBlocked s) (b_budget s) (b_data s) (b_retx s) (b_ctl s) v (b_used s) (b_quota s) (b_ctlOnly s) (b_qEnd s) (b_taken s) (b_holdH s) (b_holdOn s) (b_frames s) (b_arena s).
Definition set_b_used (v : Z) (s : Batch) : Batch :=
  MkBatch (b_now s) (b_wake s) (b_capBlocked s) (b_budget s) (b_data s) (b_retx s) (b_ctl s) (b_bodies s) v (b_quota s) (b_ctlOnly s) (b_qEnd s) (b_taken s) (b_holdH s) (b_holdOn s) (b_frames s) (b_arena s).
Definition set_b_quota (v : bool) (s : Batch) : Batch :=
  MkBatch (b_now s) (b_wake s) (b_capBlocked s) (b_budget s) (b_data s) (b_retx s) (b_ctl s) (b_bodies s) (b_used s) v (b_ctlOnly s) (b_qEnd s) (b_taken s) (b_holdH s) (b_holdOn s) (b_frames s) (b_arena s).
Definition set_b_ctlOnly (v : bool) (s : Batch) : Batch :=
  MkBatch (b_now s) (b_wake s) (b_capBlocked s) (b_budget s) (b_data s) (b_retx s) (b_ctl s) (b_bodies s) (b_used s) (b_quota s) v (b_qEnd s) (b_taken s) (b_holdH s) (b_holdOn s) (b_frames s) (b_arena s).
Definition set_b_qEnd (v : Z) (s : Batch) : Batch :=
  MkBatch (b_now s) (b_wake s) (b_capBlocked s) (b_budget s) (b_data s) (b_retx s) (b_ctl s) (b_bodies s) (b_used s) (b_quota s) (b_ctlOnly s) v (b_taken s) (b_holdH s) (b_holdOn s) (b_frames s) (b_arena s).
Definition set_b_taken (v : Z) (s : Batch) : Batch :=
  MkBatch (b_now s) (b_wake s) (b_capBlocked s) (b_budget s) (b_data s) (b_retx s) (b_ctl s) (b_bodies s) (b_used s) (b_quota s) (b_ctlOnly s) (b_qEnd s) v (b_holdH s) (b_holdOn s) (b_frames s) (b_arena s).
Definition set_b_holdH (v : Z) (s : Batch) : Batch :=
  MkBatch (b_now s) (b_wake s) (b_capBlocked s) (b_budget s) (b_data s) (b_retx s) (b_ctl s) (b_bodies s) (b_used s) (b_quota s) (b_ctlOnly s) (b_qEnd s) (b_taken s) v (b_holdOn s) (b_frames s) (b_arena s).
Definition set_b_holdOn (v : bool) (s : Batch) : Batch :=
  MkBatch (b_now s) (b_wake s) (b_capBlocked s) (b_budget s) (b_data s) (b_retx s) (b_ctl s) (b_bodies s) (b_used s) (b_quota s) (b_ctlOnly s) (b_qEnd s) (b_taken s) (b_holdH s) v (b_frames s) (b_arena s).
Definition set_b_frames (v : list bframe) (s : Batch) : Batch :=
  MkBatch (b_now s) (b_wake s) (b_capBlocked s) (b_budget s) (b_data s) (b_retx s) (b_ctl s) (b_bodies s) (b_used s) (b_quota s) (b_ctlOnly s) (b_qEnd s) (b_taken s) (b_holdH s) (b_holdOn s) v (b_arena s).
Definition set_b_arena (v : bytes) (s : Batch) : Batch :=
  MkBatch (b_now s) (b_wake s) (b_capBlocked s) (b_budget s) (b_data s) (b_retx s) (b_ctl s) (b_bodies s) (b_used s) (b_quota s) (b_ctlOnly s) (b_qEnd s) (b_taken s) (b_holdH s) (b_holdOn s) (b_frames s) v.

Definition NewBatch (budget : Z) : Batch :=
  MkBatch zero_time zero_time false (if budget <=? 0 then defaultBatchBudget else budget)
          0 0 0 0 0 false false 0 0 0 false [] (replicate (Z.to_nat arenaSize) 0).

Definition Reset (now : Time) (b : Batch) : Batch :=
  MkBatch now zero_time false (b_budget b) 0 0 0 0 0 false false 0 0 0 false [] (b_arena b).

Definition Len (b : Batch) : Z := len (b_frames b).

Definition Room (b : Batch) : Z :=
  let r := b_budget b - b_data b in
  if b_quota b then Z.min r (b_qEnd b - b_data b) else r.

Definition Full (b : Batch) : bool := (MaxBatchFrames <=? Len b) || (ControlArena <=? b_ctl b).

Definition limit (q : Z) (b : Batch) : Batch :=
  let b := set_b_taken (b_data b) b in
  if q <? 0 then set_b_quota false (set_b_ctlOnly false b)
  else set_b_quota true (set_b_ctlOnly (q =? 0) (set_b_qEnd (b_taken b + q) b)).

Definition MarkCapBlocked (b : Batch) : Batch :=
  if b_ctlOnly b then b else set_b_capBlocked true b.

Definition WakeAt (t : Time) (b : Batch) : Batch :=
  if negb (IsZero t) && (IsZero (b_wake b) || Before t (b_wake b)) then set_b_wake t b else b.

Definition SetResponseHold (h : Z) (b : Batch) : Batch := set_b_holdH h (set_b_holdOn false b).

Definition heldBy (h st : Z) (b : Batch) : Batch :=
  if (h =? b_holdH b) && negb (h =? 0) && (st =? StatusOK) then set_b_holdOn true b else b.

Definition heldOut (b : Batch) (h : Z) : bool := b_holdOn b && (h =? b_holdH b).

(** ** Appending frames *)

(** The new frame record and the arena position of its payload part. *)
Definition reserve (t flags handle ctl body : Z) (b : Batch) : Batch * Z :=
  let head := b_used b in
  (set_b_used (head + (HeaderLen + ctl + TrailerLen))
     (set_b_frames (b_frames b ++ [BFrame (mkHeader t flags (u32 (ctl + body)) 0 handle) head ctl 0 [] false]) b),
   head + HeaderLen).

(** A write into arena[start : start+n] through the slice a reservation
    returns. *)
Definition encode (start n : Z) (put : bytes → res werr (bytes * Z)) (b : Batch) : res werr Batch :=
  let! p := sub (b_arena b) start (start + n) in
  let! d := put p in
  let! a := Buffers.put (b_arena b) start d.1 in
  Ok (set_b_arena a b).

(** addControl (and addReliable, which is it on a stream batch): [None] when
    the frame count or the arena is exhausted. *)
Definition addControl (t flags handle n : Z) (b : Batch) : option (Batch * Z) :=
  if (MaxBatchFrames <=? Len b) || (ControlArena <? b_ctl b + n) then None
  else
    let '(b, p) := reserve t flags handle n 0 b in
    Some (set_b_ctl (b_ctl b + n) b, p).

(** addSession, addSessionRel, then the encoding of the payload. *)
Definition addSession (t flags handle n : Z) (put : bytes → res werr (bytes * Z)) (b : Batch)
  : res werr (bool * Batch) :=
  if handle =? 0 then Panic
  else if heldOut b handle then Ok (false, b)
  else
    match addControl t flags handle n b with
    | None => Ok (false, b)
    | Some (b, start) => let! b := encode start n put b in Ok (true, b)
    end.

Definition AddOpenAck (handle : Z) (a : OpenAck.OpenAck) (b : Batch) : res werr (bool * Batch) :=
  if MaxMsg <? len (OpenAck.Msg a) then Panic
  else
    let n := if OpenAck.Status a =? StatusOK then OpenAckFixedLen else OpenAckFixedLen + len (OpenAck.Msg a) in
    let! r := addSession TypeOpenAck 0 handle n (λ p, OpenAck.PutOpenAck p a) b in
    Ok (r.1, if r.1 then heldBy handle (OpenAck.Status a) r.2 else r.2).

Definition AddJoinAck (handle : Z) (a : JoinAck.JoinAck) (b : Batch) : res werr (bool * Batch) :=
  let! r := addSession TypeJoinAck 0 handle JoinAckLen (λ p, JoinAck.PutJoinAck p a) b in
  Ok (r.1, if r.1 then heldBy handle (JoinAck.Status a) r.2 else r.2).

Definition AddAck (handle flags : Z) (a : Ack.Ack) (b : Batch) : res werr (bool * Batch) :=
  if negb (Z.ldiff flags (AllowedFlags TypeAck) =? 0) then Panic
  else addSession TypeAck flags handle AckLen (λ p, Ack.PutAck p a) b.

Definition AddFin (handle off : Z) (b : Batch) : res werr (bool * Batch) :=
  addSession TypeFin 0 handle FinLen (λ p, Fin.PutFin p off) b.

Definition AddRst (handle : Z) (r : Rst.Rst) (b : Batch) : res werr (bool * Batch) :=
  if MaxMsg <? len (Rst.Msg r) then Panic
  else addSession TypeRst 0 handle (RstFixedLen + len (Rst.Msg r)) (λ p, Rst.PutRst p r) b.

Definition AddSched (handle cause : Z) (s : Sched.Sched) (b : Batch) : res werr (bool * Batch) :=
  if negb (Z.ldiff cause SchedCauseMask =? 0) then Panic
  else if (Sched.N s <? 1) || (MaxSchedIDs <? Sched.N s) then Panic
  else addSession TypeSched cause handle (SchedFixedLen + 4 * Sched.N s) (λ p, Sched.PutSched p s) b.

(** The last frame of the batch gets its DATA fields. *)
Definition set_last (off : Z) (body : bytes) (retx : bool) (l : list bframe) : list bframe :=
  match last l with
  | None => l
  | Some f => take (length l - 1) l ++ [BFrame (bf_hdr f) (bf_head f) (bf_ctl f) off body retx]
  end.

Definition AddData (handle off : Z) (body : bytes) (retx : bool) (b : Batch) : res werr (bool * Batch) :=
  if (len body =? 0) || (MaxFramePayload - DataPrefixLen <? len body) then Panic
  else if handle =? 0 then Panic
  else if Full b || (Room b <? len body) || b_ctlOnly b || heldOut b handle then Ok (false, b)
  else
    let '(b, start) := reserve TypeData 0 handle DataPrefixLen (len body) b in
    let! b := encode start DataPrefixLen (λ p, let! d := Data.PutDataOffset p off in Ok (d, DataPrefixLen)) b in
    let b := set_b_frames (set_last off body retx (b_frames b)) b in
    let b := set_b_data (b_data b + len body) (set_b_bodies (b_bodies b + len body) b) in
    Ok (true, if retx then set_b_retx (b_retx b + len body) b else b).

Definition pingFits (b : Batch) : bool :=
  (Len b <? MaxBatchFrames) && (b_ctl b + PingFixedLen <=? ControlArena).

Definition addPingFrame (t flags : Z) (p : Ping.Ping) (b : Batch) : res werr (bool * Batch) :=
  if (Ping.Pad p <? 0) || (MaxPingPad <? Ping.Pad p) then Panic
  else if negb (pingFits b) then Ok (false, b)
  else
    let '(b, start) := reserve t flags 0 PingFixedLen (Ping.Pad p) b in
    let! b := encode start PingFixedLen
                (λ d, Ping.PutPing d (Ping.mkPing (Ping.ID p) (Ping.TS p) (Ping.Nonce p) 0)) b in
    let b := set_b_ctl (b_ctl b + PingFixedLen) b in
    Ok (true, if 0 <? Ping.Pad p
              then set_b_bodies (b_bodies b + Ping.Pad p)
                     (set_b_frames (set_last 0 (replicate (Z.to_nat (Ping.Pad p)) 0) false (b_frames b)) b)
              else b).

Definition addPing (busy : bool) (p : Ping.Ping) : Batch → res werr (bool * Batch) :=
  addPingFrame TypePing (if busy then FlagPingBusy else 0) p.

Definition addPong (p : Ping.Ping) : Batch → res werr (bool * Batch) := addPingFrame TypePong 0 p.

(** addClose, addGoAway: carrier level frames have handle 0. *)
Definition addReason (t r : Z) (b : Batch) : res werr (bool * Batch) :=
  match addControl t 0 0 ReasonLen b with
  | None => Ok (false, b)
  | Some (b, start) => let! b := encode start ReasonLen (λ p, Reason.PutReason p r) b in Ok (true, b)
  end.

Definition addClose (r : Z) : Batch → res werr (bool * Batch) := addReason TypeClose r.
Definition addGoAway (r : Z) : Batch → res werr (bool * Batch) := addReason TypeGoAway r.

(** ** Sealing and the write shapes *)

Definition stamp (fseq : Z) (f : bframe) : bframe :=
  let h := bf_hdr f in
  BFrame (mkHeader (h_Type h) (h_Flags h) (h_Len h) fseq (h_Handle h))
         (bf_head f) (bf_ctl f) (bf_off f) (bf_body f) (bf_retx f).

(** A write through the slice [arena[i:]]. *)
Definition onTail (arena : bytes) (i : Z) (put : bytes → res werr bytes) : res werr bytes :=
  let! t := sub arena i (len arena) in
  let! t := put t in
  Ok (take (Z.to_nat i) arena ++ t).

Fixpoint sealLoop (fs : list bframe) (fseq : Z) (arena : bytes) : res werr (list bframe * bytes * Z) :=
  match fs with
  | [] => Ok ([], arena, fseq)
  | f :: r =>
      let f := stamp fseq f in
      let h := bf_head f in
      let! arena := onTail arena h (λ t, PutHeader t (bf_hdr f)) in
      let e := h + HeaderLen + bf_ctl f in
      let! p := sub arena h e in
      let crc := CRC p in
      let crc := if 0 <? len (bf_body f) then CRCUpdate crc (bf_body f) else crc in
      let! arena := onTail arena e (λ t, PutTrailer t crc) in
      let! x := sealLoop r (u32 (fseq + 1)) arena in
      let '(r, arena, fseq) := x in
      Ok (f :: r, arena, fseq)
  end.

Definition seal (fseq : Z) (b : Batch) : res werr (Batch * Z) :=
  let! x := sealLoop (b_frames b) fseq (b_arena b) in
  let '(fs, arena, fseq) := x in
  Ok (set_b_arena arena (set_b_frames fs b), fseq).

Definition wireLen (b : Batch) : Z := b_used b + b_bodies b.

Fixpoint buffersLoop (arena : bytes) (fs : list bframe) (seg : Z) : res werr (list bytes * Z) :=
  match fs with
  | [] => Ok ([], seg)
  | f :: r =>
      if len (bf_body f) =? 0 then buffersLoop arena r seg
      else
        let cut := bf_head f + HeaderLen + bf_ctl f in
        let! p := sub arena seg cut in
        let! x := buffersLoop arena r cut in
        Ok (p :: bf_body f :: x.1, x.2)
  end.

Definition appendBuffers (bufs : list bytes) (b : Batch) : res werr (list bytes) :=
  let! x := buffersLoop (b_arena b) (b_frames b) 0 in
  if x.2 <? b_used b then let! p := sub (b_arena b) x.2 (b_used b) in Ok (bufs ++ x.1 ++ [p])
  else Ok (bufs ++ x.1).

Fixpoint appendLoop (arena : bytes) (fs : list bframe) (seg : Z) (dst : bytes) : res werr (bytes * Z) :=
  match fs with
  | [] => Ok (dst, seg)
  | f :: r =>
      if len (bf_body f) =? 0 then appendLoop arena r seg dst
      else
        let cut := bf_head f + HeaderLen + bf_ctl f in
        let! p := sub arena seg cut in
        appendLoop arena r cut (dst ++ p ++ bf_body f)
  end.

Definition appendTo (dst : bytes) (b : Batch) : res werr bytes :=
  let! x := appendLoop (b_arena b) (b_frames b) 0 dst in
  let! p := sub (b_arena b) x.2 (b_used b) in
  Ok (x.1 ++ p).
