(* ===== verification/BatchWire.v ===== *)
(** * What a batch puts on the wire

    The layout invariant of a stream batch, the effect of every Add* call on
    its frames, and the bytes of the sealed batch: both write shapes emit the
    frames in insertion order, each encoded as [AppendFrame] encodes it. *)

From Stdlib Require Import ZArith Lia.
From stdpp Require Import base numbers list.
From S2P Require Import Prelude Buffers WireConst WireCrc WireFrame Codec WirePayload WireDgram WireMsg.
From S2P Require Import GoTime CarrierBatch.

Open Scope Z_scope.
Open Scope rendr_scope.

(** ** The layout *)

Definition span_of (f : bframe) : Z := HeaderLen + bf_ctl f + TrailerLen.

(** The frames occupy the arena one after another from [o] to [u]. *)
Fixpoint laid (o : Z) (fs : list bframe) (u : Z) : Prop :=
  match fs with
  | [] => o = u
  | f :: r => bf_head f = o ∧ 0 ≤ bf_ctl f ∧ laid (o + span_of f) r u
  end.

Definition ctl_of (arena : bytes) (f : bframe) : bytes :=
  slice arena (bf_head f + HeaderLen) (bf_head f + HeaderLen + bf_ctl f).

Definition frame_of (arena : bytes) (f : bframe) : Header * bytes :=
  (bf_hdr f, ctl_of arena f ++ bf_body f).

(** The frames of a batch: header and payload, in insertion order. *)
Definition frames_of (b : Batch) : list (Header * bytes) := frame_of (b_arena b) <$> b_frames b.

Fixpoint bodies (fs : list bframe) : Z :=
  match fs with [] => 0 | f :: r => len (bf_body f) + bodies r end.

Definition frame_ok (f : bframe) : Prop :=
  h_Len (bf_hdr f) = bf_ctl f + len (bf_body f) ∧ h_Len (bf_hdr f) ≤ MaxFramePayload.

Record BInv (b : Batch) : Prop := {
  bi_n : Len b ≤ MaxBatchFrames;
  bi_laid : laid 0 (b_frames b) (b_used b);
  bi_ok : Forall frame_ok (b_frames b);
  bi_arena : len (b_arena b) = arenaSize;
  bi_ctl : 0 ≤ b_ctl b ≤ ControlArena;
  bi_used : b_used b ≤ b_ctl b + Len b * (DataHeadLen + TrailerLen);
  bi_bodies : b_bodies b = bodies (b_frames b)
}.

Lemma laid_app o xs ys u : laid o (xs ++ ys) u ↔ ∃ m, laid o xs m ∧ laid m ys u.
Proof.
  revert o. induction xs as [|x xs IH]; intros o; cbn [laid app].
  - split; [intros; by exists o|]. by intros (m & -> & ?).
  - rewrite IH. naive_solver.
Qed.

Lemma laid_le o xs u : laid o xs u → o ≤ u.
Proof.
  revert o. induction xs as [|x xs IH]; intros o; cbn [laid]; [lia|].
  intros (_ & ? & H). apply IH in H. unfold span_of, HeaderLen, TrailerLen in *. lia.
Qed.

Lemma laid_heads o xs u :
  laid o xs u → Forall (λ f, o ≤ bf_head f ∧ 0 ≤ bf_ctl f ∧ bf_head f + span_of f ≤ u) xs.
Proof.
  revert o. induction xs as [|x xs IH]; intros o; cbn [laid]; [constructor|].
  intros (<- & ? & H). pose proof (laid_le _ _ _ H). constructor; [lia|].
  eapply Forall_impl; [by apply IH|]. cbn. intros f. unfold span_of, HeaderLen, TrailerLen. lia.
Qed.

Lemma bodies_app xs ys : bodies (xs ++ ys) = bodies xs + bodies ys.
Proof. induction xs; cbn [bodies app]; lia. Qed.

Lemma binv_room b : BInv b → Len b < MaxBatchFrames →
  ∀ n, 0 ≤ n → b_ctl b + n ≤ ControlArena + DataPrefixLen →
  b_used b + HeaderLen + n + TrailerLen ≤ arenaSize.
Proof.
  intros [] Hn n ? ?. unfold arenaSize, MaxBatchFrames, DataHeadLen, HeaderLen, TrailerLen, DataPrefixLen in *. lia.
Qed.

(** ** Appending one frame *)

Definition splice (a : bytes) (i : Z) (d : bytes) : bytes :=
  take (Z.to_nat i) a ++ d ++ drop (Z.to_nat (i + len d)) a.

Lemma len_splice a i d : 0 ≤ i → i + len d ≤ len a → len (splice a i d) = len a.
Proof. intros. unfold splice. rewrite !len_app, len_take, len_drop. pose proof (len_nonneg d). lia. Qed.

Lemma slice_splice_before a i d x y :
  0 ≤ x → x ≤ y → y ≤ i → i ≤ len a → slice (splice a i d) x y = slice a x y.
Proof.
  intros. unfold splice. rewrite slice_app_l by (rewrite ?len_take; lia).
  unfold slice. rewrite skipn_firstn_comm, take_take. f_equal. lia.
Qed.

Lemma slice_splice_at a i d :
  0 ≤ i → i ≤ len a → slice (splice a i d) i (i + len d) = d.
Proof.
  intros. unfold splice. rewrite slice_app_r by (rewrite len_take; lia).
  rewrite len_take, Z.min_l by lia. rewrite Z2Nat.id by lia.
  rewrite slice_app_l by (pose proof (len_nonneg d); lia). apply slice_all; lia.
Qed.

Lemma encode_ok start d put b :
  0 ≤ start → start + len d ≤ len (b_arena b) →
  (∀ p, len p = len d → ∃ k, put p = Ok (d, k)) →
  encode start (len d) put b = Ok (set_b_arena (splice (b_arena b) start d) b).
Proof.
  intros Hs Hl Hput. unfold encode. pose proof (len_nonneg d).
  rewrite sub_ok by lia. cbn [res_bind].
  destruct (Hput (slice (b_arena b) start (start + len d))) as [k Hk]; [rewrite len_slice; lia|].
  rewrite Hk. cbn [res_bind fst]. rewrite put_ok by lia. done.
Qed.

(** A Put that fills the whole slice writes the encoding. *)
Lemma layout_put {A} wf put parse enc (L : @layout A wf put parse enc) x p :
  wf x → len p = len (enc x) → ∃ k, put p x = Ok (enc x, k).
Proof.
  intros Hx Hp. exists (len (enc x)). rewrite (l_put _ _ _ _ L) by (done || lia).
  rewrite drop_ge by (unfold len in *; lia). by rewrite app_nil_r.
Qed.

(** [b'] is [b] with the frame [h], payload part [d] and body appended. *)
Record appended (b b' : Batch) (h : Header) (d body : bytes) (dctl : Z) : Prop := {
  ap_frames : ∃ off retx, b_frames b' = b_frames b ++ [BFrame h (b_used b) (len d) off body retx];
  ap_arena : b_arena b' = splice (b_arena b) (b_used b + HeaderLen) d;
  ap_used : b_used b' = b_used b + (HeaderLen + len d + TrailerLen);
  ap_ctl : b_ctl b' = b_ctl b + dctl;
  ap_bodies : b_bodies b' = b_bodies b + len body
}.

Lemma appended_spec b b' h d body dctl :
  BInv b → appended b b' h d body dctl → Len b < MaxBatchFrames →
  (dctl = len d ∧ b_ctl b + len d ≤ ControlArena ∨ dctl = 0 ∧ len d = DataPrefixLen) →
  h_Len h = len d + len body → h_Len h ≤ MaxFramePayload →
  BInv b' ∧ frames_of b' = frames_of b ++ [(h, d ++ body)].
Proof.
  intros Hb [(off & retx & Hf) Ha Hu Hc Hbo] Hn Hd Hh Hm.
  pose proof (len_nonneg d) as Hd0.
  pose proof (binv_room b Hb Hn (len d) Hd0) as Hroom.
  destruct Hb as [Bn Bl Bo Ba Bc Bu Bb].
  assert (b_used b + HeaderLen + len d + TrailerLen ≤ arenaSize) as Hr.
  { apply Hroom. unfold DataPrefixLen in *. lia. }
  pose proof (laid_le _ _ _ Bl) as H0. unfold HeaderLen, TrailerLen in Hr.
  assert (len (b_arena b') = arenaSize) as Hla.
  { rewrite Ha. rewrite len_splice; unfold HeaderLen; lia. }
  assert (Len b' = Len b + 1) as Hln by (unfold Len; rewrite Hf, len_app; done).
  split; [constructor|].
  - lia.
  - rewrite Hf, Hu. apply laid_app. exists (b_used b). split; [done|]. cbn. split_and!; try done.
  - rewrite Hf. apply Forall_app. split; [done|]. apply Forall_singleton. split; [done|done].
  - done.
  - lia.
  - rewrite Hu, Hc, Hln. unfold DataHeadLen, HeaderLen, TrailerLen, DataPrefixLen in *. lia.
  - rewrite Hbo, Hf, bodies_app, Bb. cbn. lia.
  - unfold frames_of. rewrite Hf, fmap_app. f_equal.
    + apply list_fmap_ext. intros i f Hi. unfold frame_of. f_equal. f_equal. unfold ctl_of.
      pose proof (laid_heads _ _ _ Bl) as Hall. rewrite Forall_lookup in Hall. specialize (Hall i f Hi).
      cbn in Hall. unfold span_of, HeaderLen, TrailerLen in *.
      rewrite Ha, slice_splice_before; [done|lia|lia|unfold HeaderLen; lia|unfold HeaderLen; lia].
    + cbn [fmap list_fmap]. unfold frame_of, ctl_of. cbn [bf_hdr bf_head bf_ctl bf_body].
      rewrite Ha, slice_splice_at; [done|unfold HeaderLen; lia|unfold HeaderLen; lia].
Qed.

(** What a call of a batch did: it appended exactly the frame [x], or refused
    and changed nothing. *)
Definition added (b : Batch) (x : Header * bytes) (ok : bool) (b' : Batch) : Prop :=
  BInv b' ∧ frames_of b' = frames_of b ++ (if ok then [x] else []) ∧ (ok = false → b' = b).

Lemma added_refused b x : BInv b → added b x false b.
Proof. intros. split_and!; [done| |done]. by rewrite app_nil_r. Qed.

Lemma u32_len (n : Z) : 0 ≤ n → n ≤ MaxFramePayload → u32 n = n.
Proof. intros. apply wrap_small. rewrite MaxFramePayload_eq in *. unfold fits. lia. Qed.

(** A control frame whose whole payload [d] lives in the arena. *)
Lemma control_spec t flags handle d put b :
  BInv b → len d ≤ MaxFramePayload → (∀ p, len p = len d → ∃ k, put p = Ok (d, k)) →
  match addControl t flags handle (len d) b with
  | None => True
  | Some (b1, start) =>
      ∃ b', encode start (len d) put b1 = Ok b' ∧ added b (mkHeader t flags (len d) 0 handle, d) true b'
  end.
Proof.
  intros Hb Hm Hput. unfold addControl. pose proof (len_nonneg d) as Hd0.
  destruct (Z.leb_spec MaxBatchFrames (Len b)) as [|Hn]; [done|].
  destruct (Z.ltb_spec ControlArena (b_ctl b + len d)) as [|Hc]; cbn [orb reserve]; [done|].
  pose proof (binv_room b Hb Hn (len d) Hd0 ltac:(unfold DataPrefixLen; lia)) as Hr.
  pose proof (laid_le _ _ _ (bi_laid _ Hb)) as H0. pose proof (bi_arena _ Hb) as Ha.
  unfold HeaderLen, TrailerLen in *.
  eexists. split; [apply encode_ok; [lia|cbn; lia|done]|].
  assert (h_Len (mkHeader t flags (len d) 0 handle) = len d + len (@nil Z)) as Hl by (cbn [h_Len]; rewrite len_nil; lia).
  destruct (appended_spec b (set_b_arena (splice (b_arena b) (b_used b + 13) d)
     (set_b_ctl (b_ctl b + len d) (set_b_used (b_used b + (13 + len d + 4))
        (set_b_frames (b_frames b ++ [BFrame (mkHeader t flags (u32 (len d + 0)) 0 handle) (b_used b) (len d) 0 [] false]) b))))
     (mkHeader t flags (len d) 0 handle) d [] (len d) Hb) as [H1 H2]; try done; [|by left|].
  { constructor; try done; cbn -[len]; [|rewrite len_nil; lia]. exists 0, false. by rewrite Z.add_0_r, u32_len. }
  split_and!; [exact H1| |done]. etrans; [exact H2|]. by rewrite app_nil_r.
Qed.

Lemma addSession_spec t flags handle d put b :
  BInv b → handle ≠ 0 → len d ≤ MaxFramePayload → (∀ p, len p = len d → ∃ k, put p = Ok (d, k)) →
  ∃ ok b', addSession t flags handle (len d) put b = Ok (ok, b') ∧
    added b (mkHeader t flags (len d) 0 handle, d) ok b' ∧
    (ok = negb (heldOut b handle) && negb ((MaxBatchFrames <=? Len b) || (ControlArena <? b_ctl b + len d))).
Proof.
  intros Hb Hh Hm Hput. unfold addSession. destruct (Z.eqb_spec handle 0); [done|].
  destruct (heldOut b handle); [exists false, b; split_and!; [done|by apply added_refused|done]|].
  pose proof (control_spec t flags handle d put b Hb Hm Hput) as H. unfold addControl in *.
  destruct ((MaxBatchFrames <=? Len b) || (ControlArena <? b_ctl b + len d)).
  { exists false, b. split_and!; [done|by apply added_refused|done]. }
  cbn [reserve] in *. destruct H as (b' & He & Hadd). exists true, b'. rewrite He. by split_and!.
Qed.

(** ** The Add* calls *)

Inductive bop :=
| OpOpenAck (h : Z) (a : OpenAck.OpenAck)
| OpJoinAck (h : Z) (a : JoinAck.JoinAck)
| OpAck (h flags : Z) (a : Ack.Ack)
| OpFin (h off : Z)
| OpRst (h : Z) (r : Rst.Rst)
| OpSched (h cause : Z) (s : Sched.Sched)
| OpData (h off : Z) (body : bytes) (retx : bool)
| OpPing (busy : bool) (p : Ping.Ping)
| OpPong (p : Ping.Ping)
| OpClose (r : Z)
| OpGoAway (r : Z).

Definition op_apply (o : bop) : Batch → res werr (bool * Batch) :=
  match o with
  | OpOpenAck h a => AddOpenAck h a
  | OpJoinAck h a => AddJoinAck h a
  | OpAck h fl a => AddAck h fl a
  | OpFin h off => AddFin h off
  | OpRst h r => AddRst h r
  | OpSched h c s => AddSched h c s
  | OpData h off body retx => AddData h off body retx
  | OpPing busy p => addPing busy p
  | OpPong p => addPong p
  | OpClose r => addClose r
  | OpGoAway r => addGoAway r
  end.

(** What the writer and the endpoint pass: field types in range, well-formed
    payloads, a session handle where one is due. *)
Definition handle_ok (h : Z) : Prop := is_u32 h ∧ h ≠ 0.
Definition flags_ok (t fl : Z) : Prop := is_u8 fl ∧ Z.ldiff fl (AllowedFlags t) = 0.

Definition op_wf (o : bop) : Prop :=
  match o with
  | OpOpenAck h a => handle_ok h ∧ OpenAck.wf a
  | OpJoinAck h a => handle_ok h ∧ JoinAck.wf a
  | OpAck h fl a => handle_ok h ∧ flags_ok TypeAck fl ∧ Ack.wf a
  | OpFin h off => handle_ok h ∧ is_u64 off
  | OpRst h r => handle_ok h ∧ Rst.wf r
  | OpSched h c s => handle_ok h ∧ flags_ok TypeSched c ∧ Sched.wf s
  | OpData h off body _ => handle_ok h ∧ Data.wf (off, body)
  | OpPing _ p | OpPong p => Ping.wf p
  | OpClose r => Reason.wf_close r
  | OpGoAway r => Reason.wf_goaway r
  end.

Definition op_type (o : bop) : Z :=
  match o with
  | OpOpenAck _ _ => TypeOpenAck | OpJoinAck _ _ => TypeJoinAck | OpAck _ _ _ => TypeAck
  | OpFin _ _ => TypeFin | OpRst _ _ => TypeRst | OpSched _ _ _ => TypeSched | OpData _ _ _ _ => TypeData
  | OpPing _ _ => TypePing | OpPong _ => TypePong | OpClose _ => TypeClose | OpGoAway _ => TypeGoAway
  end.

Definition op_flags (o : bop) : Z :=
  match o with
  | OpAck _ fl _ => fl
  | OpSched _ c _ => c
  | OpPing busy _ => if busy then FlagPingBusy else 0
  | _ => 0
  end.

Definition op_handle (o : bop) : Z :=
  match o with
  | OpOpenAck h _ | OpJoinAck h _ | OpAck h _ _ | OpFin h _ | OpRst h _ | OpSched h _ _ | OpData h _ _ _ => h
  | _ => 0
  end.

Definition op_payload (o : bop) : bytes :=
  match o with
  | OpOpenAck _ a => OpenAck.enc a
  | OpJoinAck _ a => JoinAck.enc a
  | OpAck _ _ a => Ack.enc a
  | OpFin _ off => be 8 off
  | OpRst _ r => Rst.enc r
  | OpSched _ _ s => Sched.enc s
  | OpData _ off body _ => enc_data (off, body)
  | OpPing _ p | OpPong p => Ping.enc p
  | OpClose r | OpGoAway r => be 1 r
  end.

Definition op_frame (fseq : Z) (o : bop) : Header * bytes :=
  (mkHeader (op_type o) (op_flags o) (len (op_payload o)) fseq (op_handle o), op_payload o).

Lemma len_op_payload o : op_wf o → len (op_payload o) ≤ MaxFramePayload.
Proof.
  destruct o; cbn [op_wf op_payload]; intros H; rewrite MaxFramePayload_eq.
  - destruct H as (_ & (_ & _ & _ & _ & Hm) & _). rewrite OpenAck.openack_len_enc. len_lia.
  - by rewrite JoinAck.joinack_len_enc.
  - by rewrite Ack.ack_len_enc.
  - len_lia.
  - destruct H as (_ & _ & _ & Hm). rewrite Rst.rst_len_enc. len_lia.
  - destruct H as (_ & _ & Hs). rewrite Sched.sched_len_enc by done. destruct Hs as (_ & _ & _ & _ & Hn & _). len_lia.
  - destruct H as (_ & _ & _ & Hn & _). rewrite len_enc_data. cbn [snd] in *. rewrite MaxFramePayload_eq in Hn.
    unfold DataPrefixLen in *. lia.
  - destruct H as (_ & _ & _ & Hp). rewrite Ping.ping_len_enc by lia. rewrite MaxPingPad_eq in Hp. len_lia.
  - destruct H as (_ & _ & _ & Hp). rewrite Ping.ping_len_enc by lia. rewrite MaxPingPad_eq in Hp. len_lia.
  - len_lia.
  - len_lia.
Qed.

(** The response hold and the counters are no part of the layout. *)
Lemma added_hold b x ok b' h st : added b x ok b' → added b x ok (if ok then heldBy h st b' else b').
Proof.
  intros (H1 & H2 & H3). destruct ok; [|done]. unfold heldBy. case_match; [|done].
  split_and!; [|done|done]. by destruct H1.
Qed.

(** The frame with a body: the slot [set_last] fills is the reserved one. *)
Lemma set_last_snoc l f off body retx :
  set_last off body retx (l ++ [f]) = l ++ [BFrame (bf_hdr f) (bf_head f) (bf_ctl f) off body retx].
Proof.
  unfold set_last. rewrite last_snoc, length_app. cbn [length].
  replace (length l + 1 - 1)%nat with (length l) by lia. by rewrite take_app_length.
Qed.

Lemma addData_spec h off body retx b :
  BInv b → handle_ok h → Data.wf (off, body) →
  ∃ ok b', AddData h off body retx b = Ok (ok, b') ∧ added b (op_frame 0 (OpData h off body retx)) ok b' ∧
    (ok = negb (Full b || (Room b <? len body) || b_ctlOnly b || heldOut b h)).
Proof.
  intros Hb [_ Hh] (Hoff & _ & Hlen & _). unfold AddData. cbn [fst snd] in *.
  destruct (Z.eqb_spec (len body) 0); [lia|].
  destruct (Z.ltb_spec (MaxFramePayload - DataPrefixLen) (len body)); [lia|]. cbn [orb].
  destruct (Z.eqb_spec h 0); [done|].
  destruct (Full b || (Room b <? len body) || b_ctlOnly b || heldOut b h) eqn:Hf.
  { exists false, b. split_and!; [done|by apply added_refused|done]. }
  apply orb_false_iff in Hf as [[[Hf _]%orb_false_iff _]%orb_false_iff _].
  unfold Full in Hf. apply orb_false_iff in Hf as [Hn%Z.leb_gt Hc%Z.leb_gt].
  pose proof (binv_room b Hb Hn DataPrefixLen ltac:(done) ltac:(lia)) as Hr.
  pose proof (laid_le _ _ _ (bi_laid _ Hb)) as H0. pose proof (bi_arena _ Hb) as Ha.
  cbn [reserve]. change DataPrefixLen with (len (be 8 off)) at 3. unfold HeaderLen, TrailerLen, DataPrefixLen in *.
  rewrite (encode_ok _ (be 8 off)); [|lia|rewrite len_be; cbn; lia|].
  2:{ intros p Hp. eexists. unfold Data.PutDataOffset. rewrite len_be in Hp.
      destruct (Z.ltb_spec (len p) 8); [lia|]. rewrite puts_contig by (done || (cbn; len_lia)). cbn [res_bind].
      unfold fields_of. cbn [map snd concat]. rewrite app_nil_r, drop_ge, app_nil_r; [done|].
      pose proof (len_be 8 off). unfold len in *. lia. }
  cbn [res_bind b_frames set_b_arena set_b_used set_b_frames]. rewrite set_last_snoc. cbn [bf_hdr bf_head bf_ctl].
  assert (∀ b', appended b b' (mkHeader TypeData 0 (8 + len body) 0 h) (be 8 off) body 0 →
    added b (op_frame 0 (OpData h off body retx)) true b') as Hgo.
  { intros b' Hap. destruct (appended_spec _ _ _ _ _ _ Hb Hap) as [H1 H2]; try done.
    - by right.
    - cbn [h_Len]. rewrite MaxFramePayload_eq in *. lia.
    - split_and!; [done| |done]. rewrite H2. unfold op_frame. cbn [op_type op_flags op_payload op_handle]. unfold enc_data. cbn [fst snd].
      by rewrite len_app, len_be. }
  assert (u32 (8 + len body) = 8 + len body) as Hu by (apply u32_len; rewrite MaxFramePayload_eq in *; lia).
  rewrite Hu. destruct retx; eexists true, _; (split; [reflexivity|]); (split; [|done]); apply Hgo;
    constructor; try done; cbn -[len]; try lia; eexists _, _; done.
Qed.

Lemma pingFrame_spec t flags p b :
  BInv b → Ping.wf p →
  ∃ ok b', addPingFrame t flags p b = Ok (ok, b') ∧
    added b (mkHeader t flags (len (Ping.enc p)) 0 0, Ping.enc p) ok b'.
Proof.
  intros Hb Hw. pose proof Hw as (Hi & Ht & Hn0 & Hp). unfold addPingFrame.
  destruct (Z.ltb_spec (Ping.Pad p) 0); [lia|]. destruct (Z.ltb_spec MaxPingPad (Ping.Pad p)); [lia|]. cbn [orb].
  destruct (pingFits b) eqn:Hf; cbn [negb]; [|exists false, b; split_and!; [done|by apply added_refused]].
  unfold pingFits in Hf. apply andb_true_iff in Hf as [Hn%Z.ltb_lt Hc%Z.leb_le].
  set (q := Ping.mkPing (Ping.ID p) (Ping.TS p) (Ping.Nonce p) 0). set (d := Ping.enc q).
  assert (len d = PingFixedLen) as Hd by (unfold d; rewrite Ping.ping_len_enc; cbn; lia).
  assert (Ping.enc p = d ++ replicate (Z.to_nat (Ping.Pad p)) 0) as He.
  { unfold d, q, Ping.enc. cbn [Ping.ID Ping.TS Ping.Nonce Ping.Pad Z.to_nat replicate]. by rewrite app_nil_r, <- !app_assoc. }
  assert (len (Ping.enc p) = PingFixedLen + Ping.Pad p) as Hl by (apply Ping.ping_len_enc; lia).
  pose proof (len_op_payload (OpPong p) Hw) as Hmax. cbn [op_payload] in Hmax.
  pose proof (binv_room b Hb Hn PingFixedLen ltac:(done) ltac:(unfold DataPrefixLen; lia)) as Hr.
  pose proof (laid_le _ _ _ (bi_laid _ Hb)) as Hu0. pose proof (bi_arena _ Hb) as Ha.
  rewrite <- Hd in Hr |- * . cbn [reserve]. unfold HeaderLen, TrailerLen in *.
  rewrite (encode_ok _ d); [|lia|cbn; lia|].
  2:{ intros dst Hdst. apply (layout_put _ _ _ _ Ping_layout); [|done]. unfold Ping.wf. cbn. split_and!; try done; lia. }
  cbn [res_bind b_frames set_b_arena set_b_used set_b_frames set_b_ctl]. rewrite set_last_snoc. cbn [bf_hdr bf_head bf_ctl].
  assert (u32 (len d + Ping.Pad p) = len (Ping.enc p)) as Hu.
  { rewrite Hd, Hl. apply u32_len; [unfold PingFixedLen; lia|]. rewrite MaxPingPad_eq, MaxFramePayload_eq in *. unfold PingFixedLen. lia. }
  assert (∀ b', appended b b' (mkHeader t flags (len (Ping.enc p)) 0 0) d (replicate (Z.to_nat (Ping.Pad p)) 0) (len d) →
    added b (mkHeader t flags (len (Ping.enc p)) 0 0, Ping.enc p) true b') as Hgo.
  { intros b' Hap. destruct (appended_spec _ _ _ _ _ _ Hb Hap) as [H1 H2]; try done.
    - left. lia.
    - cbn [h_Len]. by rewrite He, len_app. }
  destruct (Z.ltb_spec 0 (Ping.Pad p)) as [Hpad|Hpad]; eexists true, _; (split; [reflexivity|]); apply Hgo.
  - constructor; try done; cbn -[len]; [|rewrite len_replicate; lia]. rewrite Hu. by eexists _, _.
  - replace (Ping.Pad p) with 0 in * by lia.
    constructor; cbn -[len]; rewrite ?len_replicate, ?(len_nil (A := Z)), ?Hu; first [by eexists _, _ | done | lia].
Qed.

(** Every call appends exactly its frame or refuses without a trace; none
    panics. *)
Lemma op_spec o b :
  BInv b → op_wf o → ∃ ok b', op_apply o b = Ok (ok, b') ∧ added b (op_frame 0 o) ok b'.
Proof.
  intros Hb Ho. pose proof (len_op_payload o Ho) as Hmax.
  assert (∀ put n, n = len (op_payload o) → op_handle o ≠ 0 →
    (∀ p, len p = len (op_payload o) → ∃ k, put p = Ok (op_payload o, k)) →
    ∃ ok b', addSession (op_type o) (op_flags o) (op_handle o) n put b = Ok (ok, b') ∧
      added b (op_frame 0 o) ok b') as Hs.
  { intros put n -> Hh Hput. destruct (addSession_spec (op_type o) (op_flags o) (op_handle o) (op_payload o) put b Hb Hh Hmax Hput)
      as (ok & b' & H1 & H2 & _). by exists ok, b'. }
  assert (∀ r, len (op_payload o) = ReasonLen → op_handle o = 0 → op_flags o = 0 →
    (∀ p, len p = len (op_payload o) → ∃ k, Reason.PutReason p r = Ok (op_payload o, k)) →
    ∃ ok b', addReason (op_type o) r b = Ok (ok, b') ∧ added b (op_frame 0 o) ok b') as Hreason.
  { intros r Hl Hh Hfl Hput. pose proof (control_spec (op_type o) 0 0 (op_payload o) _ b Hb Hmax Hput) as H.
    unfold addReason, op_frame. rewrite Hh, Hfl, <- Hl. unfold addControl in *.
    destruct ((MaxBatchFrames <=? Len b) || (ControlArena <? b_ctl b + len (op_payload o))).
    - exists false, b. split; [done|by apply added_refused].
    - cbn [reserve] in *. destruct H as (b' & He & Hadd). exists true, b'. by rewrite He. }
  destruct o; cbn [op_apply op_wf op_payload op_handle op_type op_flags] in *.
  - destruct Ho as ([_ Hh] & Hw). pose proof Hw as ((_ & _ & _ & _ & Hm) & _ & Hc). unfold AddOpenAck.
    destruct (Z.ltb_spec MaxMsg (len (OpenAck.Msg a))); [lia|].
    destruct (Hs (λ p, OpenAck.PutOpenAck p a)
      (if OpenAck.Status a =? StatusOK then OpenAckFixedLen else OpenAckFixedLen + len (OpenAck.Msg a)))
      as (ok & b' & H1 & H2); [|done|intros p Hp; by apply (layout_put _ _ _ _ OpenAck_layout)|].
    { rewrite OpenAck.openack_len_enc. case_match eqn:Hst; [|done]. unfold OpenAck.canonical in Hc. rewrite Hst in Hc.
      rewrite <- Hc. cbn [OpenAck.Msg]. rewrite len_nil. lia. }
    rewrite H1. cbn [res_bind fst snd]. eexists ok, _. split; [done|]. by apply added_hold.
  - destruct Ho as ([_ Hh] & Hw). unfold AddJoinAck.
    destruct (Hs (λ p, JoinAck.PutJoinAck p a) JoinAckLen) as (ok & b' & H1 & H2);
      [by rewrite JoinAck.joinack_len_enc|done|intros p Hp; by apply (layout_put _ _ _ _ JoinAck_layout)|].
    rewrite H1. cbn [res_bind fst snd]. eexists ok, _. split; [done|]. by apply added_hold.
  - destruct Ho as ([_ Hh] & [_ Hfl] & Hw). unfold AddAck. rewrite Hfl. cbn [Z.eqb negb].
    apply Hs; [by rewrite Ack.ack_len_enc|done|]. intros p Hp. by apply (layout_put _ _ _ _ Ack_layout).
  - destruct Ho as ([_ Hh] & Hw). apply Hs; [done|done|]. intros p Hp. by apply (layout_put _ _ _ _ Fin_layout).
  - destruct Ho as ([_ Hh] & Hw). pose proof Hw as (_ & _ & Hm). unfold AddRst.
    destruct (Z.ltb_spec MaxMsg (len (Rst.Msg r))); [lia|].
    apply Hs; [by rewrite Rst.rst_len_enc|done|]. intros p Hp. by apply (layout_put _ _ _ _ Rst_layout).
  - destruct Ho as ([_ Hh] & [_ Hfl] & Hw). pose proof Hw as (_ & _ & _ & _ & Hn & _). unfold AddSched.
    change (AllowedFlags TypeSched) with SchedCauseMask in Hfl. rewrite Hfl. cbn [Z.eqb negb].
    destruct (Z.ltb_spec (Sched.N s) 1); [lia|]. destruct (Z.ltb_spec MaxSchedIDs (Sched.N s)); [lia|]. cbn [orb].
    apply Hs; [by rewrite Sched.sched_len_enc|done|]. intros p Hp. by apply (layout_put _ _ _ _ Sched_layout).
  - destruct Ho as (Hh & Hw). destruct (addData_spec h off body retx b Hb Hh Hw) as (ok & b' & H1 & H2 & _). eauto.
  - by apply pingFrame_spec.
  - by apply pingFrame_spec.
  - apply Hreason; try done. intros p Hp. by apply (layout_put _ _ _ _ Close_layout).
  - apply Hreason; try done. intros p Hp. by apply (layout_put _ _ _ _ GoAway_layout).
Qed.

(** ** Sealing *)

(** The frames with consecutive fseq values. *)
Fixpoint stamps (fseq : Z) (fs : list bframe) : list bframe :=
  match fs with
  | [] => []
  | f :: r => stamp fseq f :: stamps (u32 (fseq + 1)) r
  end.

Definition with_fseq (h : Header) (fseq : Z) : Header :=
  mkHeader (h_Type h) (h_Flags h) (h_Len h) fseq (h_Handle h).

(** The arena bytes of a sealed frame in front of and behind its body. *)
Definition sealed_head (A : bytes) (fseq : Z) (f : bframe) : bytes :=
  enc_header (with_fseq (bf_hdr f) fseq) ++ ctl_of A f.

Definition sealed_tail (A : bytes) (fseq : Z) (f : bframe) : bytes :=
  be 4 (CRC (sealed_head A fseq f ++ bf_body f)).

Fixpoint blocks (A : bytes) (fseq : Z) (fs : list bframe) : bytes :=
  match fs with
  | [] => []
  | f :: r => sealed_head A fseq f ++ sealed_tail A fseq f ++ blocks A (u32 (fseq + 1)) r
  end.

Lemma len_ctl_of A f : 0 ≤ bf_head f → 0 ≤ bf_ctl f → bf_head f + HeaderLen + bf_ctl f ≤ len A → len (ctl_of A f) = bf_ctl f.
Proof. intros. unfold ctl_of, HeaderLen in *. rewrite len_slice; lia. Qed.

Lemma onTail_ok A i put d :
  0 ≤ i → i ≤ len A → put (drop (Z.to_nat i) A) = Ok (d ++ drop (Z.to_nat (i + len d)) A) →
  onTail A i put = Ok (splice A i d).
Proof.
  intros H1 H2 Hp. unfold onTail. rewrite sub_ok by lia. cbn [res_bind].
  rewrite slice_tail by lia. rewrite Hp. done.
Qed.

(** Writing [d] behind a prefix already written. *)
Lemma splice_prefix pre A d :
  len pre + len d ≤ len A →
  splice (pre ++ drop (Z.to_nat (len pre)) A) (len pre) d =
  (pre ++ d) ++ drop (Z.to_nat (len (pre ++ d))) A.
Proof.
  intros H. unfold splice. rewrite take_app_length' by (unfold len; lia).
  rewrite drop_app_ge by (unfold len; lia). rewrite drop_drop, <- app_assoc, len_app.
  pose proof (len_nonneg pre). pose proof (len_nonneg d).
  do 3 f_equal. unfold len in *. lia.
Qed.

Lemma ctl_of_prefix pre A f :
  len pre ≤ len A → len pre ≤ bf_head f + HeaderLen → 0 ≤ bf_ctl f → 0 ≤ bf_head f →
  ctl_of (pre ++ drop (Z.to_nat (len pre)) A) f = ctl_of A f.
Proof.
  intros. unfold ctl_of, HeaderLen in *. rewrite slice_app_r by lia. unfold slice.
  rewrite drop_drop. f_equal; [lia|]. f_equal. pose proof (len_nonneg pre). lia.
Qed.

(** One frame: its header and trailer are written in place. *)
Lemma seal_one pre A fseq f :
  bf_head f = len pre → 0 ≤ bf_ctl f → frame_ok f → len pre + span_of f ≤ len A →
  let arena := pre ++ drop (Z.to_nat (len pre)) A in
  let e := len pre + HeaderLen + bf_ctl f in
  ∃ arena1,
    onTail arena (len pre) (λ t, PutHeader t (with_fseq (bf_hdr f) fseq)) = Ok arena1 ∧
    @sub werr arena1 (len pre) e = Ok (sealed_head A fseq f) ∧
    onTail arena1 e (λ t, PutTrailer t (CRC (sealed_head A fseq f ++ bf_body f))) =
      Ok ((pre ++ sealed_head A fseq f ++ sealed_tail A fseq f) ++
          drop (Z.to_nat (len pre + span_of f)) A).
Proof.
  intros Hh Hc [Hl Hm] Hsp arena e. pose proof (len_nonneg pre) as Hp0. unfold span_of in *.
  set (hb := enc_header (with_fseq (bf_hdr f) fseq)).
  assert (len hb = HeaderLen) as Hhb by apply len_enc_header.
  assert (len arena = len A) as Ha.
  { unfold arena. rewrite len_app, len_drop. unfold HeaderLen, TrailerLen in *. lia. }
  assert (len (ctl_of A f) = bf_ctl f) as Hlc by (apply len_ctl_of; unfold HeaderLen, TrailerLen in *; lia).
  set (arena1 := (pre ++ hb) ++ drop (Z.to_nat (len (pre ++ hb))) A).
  assert (e = len (pre ++ hb ++ ctl_of A f)) as He by (unfold e; rewrite !len_app; lia).
  assert (drop (Z.to_nat (len (pre ++ hb))) A = ctl_of A f ++ drop (Z.to_nat e) A) as Hd.
  { unfold ctl_of. rewrite Hh. replace (len pre + HeaderLen) with (len (pre ++ hb)) by (rewrite len_app; lia).
    unfold slice. rewrite <- (take_drop (Z.to_nat (bf_ctl f)) (drop _ A)) at 1. f_equal.
    - f_equal. lia.
    - rewrite drop_drop. f_equal. unfold e. rewrite len_app. pose proof (len_nonneg hb). lia. }
  exists arena1. unfold HeaderLen, TrailerLen in *. split_and!.
  - unfold arena1. rewrite <- splice_prefix by lia. apply onTail_ok; [lia|fold arena; lia|].
    rewrite PutHeader_ok; [|rewrite len_drop; fold arena; unfold HeaderLen; lia|exact Hm].
    fold hb. f_equal. f_equal. rewrite drop_drop. f_equal. unfold HeaderLen. lia.
  - rewrite sub_ok; [|lia|lia|unfold arena1; rewrite len_app, len_drop, len_app; lia].
    f_equal. unfold arena1. rewrite Hd, <- app_assoc, slice_app_r by lia.
    rewrite app_assoc, slice_app_l; [|lia|lia|rewrite len_app; lia].
    unfold sealed_head. apply slice_all; [lia|]. rewrite len_app. unfold hb in *. lia.
  - assert (arena1 = (pre ++ hb ++ ctl_of A f) ++ drop (Z.to_nat (len (pre ++ hb ++ ctl_of A f))) A) as ->.
    { unfold arena1. rewrite Hd, He, <- !app_assoc. done. }
    rewrite He. rewrite (onTail_ok _ _ _ (sealed_tail A fseq f)).
    + rewrite splice_prefix; [|unfold sealed_tail; rewrite len_be, <- He; lia].
      f_equal. unfold sealed_head. fold hb. rewrite <- !app_assoc. do 4 f_equal.
      unfold sealed_tail. rewrite !len_app, len_be. f_equal. lia.
    + apply len_nonneg.
    + rewrite (len_app (pre ++ hb ++ ctl_of A f)). pose proof (len_nonneg (drop (Z.to_nat (len (pre ++ hb ++ ctl_of A f))) A)). lia.
    + rewrite drop_app_ge by (unfold len; lia).
      replace (Z.to_nat (len (pre ++ hb ++ ctl_of A f)) - length (pre ++ hb ++ ctl_of A f))%nat with O by (unfold len; lia).
      rewrite drop_0, PutTrailer_ok by (rewrite len_drop, <- He; unfold TrailerLen; lia).
      unfold sealed_tail. f_equal. f_equal. rewrite drop_app_ge by (rewrite len_be; unfold len; lia).
      rewrite !drop_drop, len_be. f_equal. unfold TrailerLen, len. lia.
Qed.

Lemma sealLoop_spec fs : ∀ pre A fseq u,
  laid (len pre) fs u → Forall frame_ok fs → u ≤ len A → is_u32 fseq →
  sealLoop fs fseq (pre ++ drop (Z.to_nat (len pre)) A) =
    Ok (stamps fseq fs, (pre ++ blocks A fseq fs) ++ drop (Z.to_nat u) A, u32 (fseq + len fs)).
Proof.
  induction fs as [|f fs IH]; intros pre A fseq u Hl Hok Hu Hq; cbn [sealLoop stamps blocks].
  { cbn in Hl. subst u. rewrite app_nil_r, len_nil, Z.add_0_r, wrap_small by done. done. }
  inversion Hok as [|? ? Hf Hfs]; subst. destruct Hl as (Hh & Hc & Hl). pose proof (laid_le _ _ _ Hl) as Hle.
  destruct (seal_one pre A fseq f Hh Hc Hf ltac:(lia)) as (arena1 & E1 & E2 & E3).
  cbn [stamp bf_head bf_hdr bf_ctl bf_body]. rewrite Hh. change (mkHeader _ _ _ fseq _) with (with_fseq (bf_hdr f) fseq) at 1.
  rewrite E1. cbn [res_bind]. rewrite E2. cbn [res_bind].
  assert ((if 0 <? len (bf_body f) then CRCUpdate (CRC (sealed_head A fseq f)) (bf_body f)
           else CRC (sealed_head A fseq f)) = CRC (sealed_head A fseq f ++ bf_body f)) as ->.
  { destruct (Z.ltb_spec 0 (len (bf_body f))).
    - unfold CRC. by rewrite CRCUpdate_chain.
    - rewrite (len_0_nil (bf_body f)), app_nil_r; [done|]. pose proof (len_nonneg (bf_body f)). lia. }
  rewrite E3. cbn [res_bind].
  assert (len (pre ++ sealed_head A fseq f ++ sealed_tail A fseq f) = len pre + span_of f) as Hlen.
  { unfold sealed_head, sealed_tail. rewrite !len_app, len_be, len_enc_header. pose proof (len_nonneg pre).
    unfold span_of, HeaderLen, TrailerLen in *. rewrite len_ctl_of; unfold HeaderLen; lia. }
  rewrite <- Hlen. rewrite (IH _ A (u32 (fseq + 1)) u);
    [|by rewrite Hlen|done|done|by apply wrap_fits].
  cbn [res_bind]. rewrite <- !app_assoc. do 2 f_equal. rewrite len_cons. unfold wrap.
  rewrite Zplus_mod_idemp_l. f_equal. lia.
Qed.

(** ** The write shapes *)

(** The wire bytes of the sealed frames. *)
Fixpoint wire (A : bytes) (fseq : Z) (fs : list bframe) : bytes :=
  match fs with
  | [] => []
  | f :: r => enc_frame (with_fseq (bf_hdr f) fseq) (ctl_of A f ++ bf_body f) ++ wire A (u32 (fseq + 1)) r
  end.

Lemma wire_cons A fseq f r :
  wire A fseq (f :: r) =
  sealed_head A fseq f ++ bf_body f ++ sealed_tail A fseq f ++ wire A (u32 (fseq + 1)) r.
Proof. cbn [wire]. unfold enc_frame, sealed_tail, sealed_head. by rewrite <- !app_assoc. Qed.

Lemma blocks_app_slice (pre x post : bytes) seg :
  0 ≤ seg ≤ len pre → slice (pre ++ x ++ post) seg (len pre + len x) = slice pre seg (len pre) ++ x.
Proof.
  intros H. pose proof (len_nonneg x).
  rewrite <- (slice_join _ seg (len pre)) by lia. f_equal.
  - by rewrite slice_app_l by lia.
  - rewrite slice_app_r by lia. rewrite slice_app_l by lia. apply slice_all; lia.
Qed.

(** From [seg] on, the vector followed by the rest of the arena is the
    pending arena bytes and then the frames. *)
Lemma buffersLoop_spec fs : ∀ pre A fseq u post seg,
  laid (len pre) fs u → u ≤ len A → 0 ≤ seg ≤ len pre → len (pre ++ blocks A fseq fs) = u →
  let arena := (pre ++ blocks A fseq fs) ++ post in
  ∃ v seg', buffersLoop arena (stamps fseq fs) seg = Ok (v, seg') ∧ 0 ≤ seg' ≤ u ∧
    concat v ++ slice arena seg' u = slice pre seg (len pre) ++ wire A fseq fs.
Proof.
  induction fs as [|f fs IH]; intros pre A fseq u post seg Hl Hu Hs Hlen arena; cbn [buffersLoop stamps].
  { cbn in Hl. subst u. exists [], seg. split_and!; [done|lia|lia|]. unfold arena. cbn [blocks wire concat].
    rewrite !app_nil_r. cbn. by rewrite slice_app_l by lia. }
  destruct Hl as (Hh & Hc & Hl). pose proof (laid_le _ _ _ Hl) as Hle.
  assert (len (sealed_head A fseq f) = HeaderLen + bf_ctl f) as Hsh.
  { unfold sealed_head. rewrite len_app, len_enc_header. unfold span_of, HeaderLen, TrailerLen in *.
    pose proof (len_nonneg pre). rewrite len_ctl_of; unfold HeaderLen; lia. }
  set (pre' := pre ++ sealed_head A fseq f ++ sealed_tail A fseq f).
  assert (len pre' = len pre + span_of f) as Hp'.
  { unfold pre', sealed_tail. rewrite !len_app, len_be, Hsh. unfold span_of, TrailerLen. lia. }
  assert (arena = (pre' ++ blocks A (u32 (fseq + 1)) fs) ++ post) as Har.
  { unfold arena, pre'. cbn [blocks]. by rewrite <- !app_assoc. }
  assert (len (pre' ++ blocks A (u32 (fseq + 1)) fs) = u) as Hlen'.
  { rewrite <- Hlen. cbn [blocks]. unfold pre'. rewrite !len_app. lia. }
  cbn [stamp bf_body bf_head bf_ctl]. rewrite Hh.
  destruct (Z.eqb_spec (len (bf_body f)) 0) as [Hb|Hb].
  - destruct (IH pre' A (u32 (fseq + 1)) u post seg) as (v & seg' & E & Hs' & Hcat);
      [by rewrite Hp'|done|rewrite Hp'; unfold span_of, HeaderLen, TrailerLen; lia|done|].
    rewrite <- Har in E, Hcat. exists v, seg'. split_and!; [done|lia|lia|]. rewrite Hcat, wire_cons.
    apply len_0_nil in Hb. rewrite Hb. cbn [app]. rewrite app_assoc. unfold pre' at 1 2.
    rewrite <- (app_nil_r (sealed_head A fseq f ++ sealed_tail A fseq f)).
    rewrite !len_app. rewrite Z.add_0_r. rewrite <- len_app, blocks_app_slice by lia. by rewrite <- !app_assoc.
  - rewrite sub_ok; [|lia|unfold HeaderLen; lia|].
    2:{ unfold arena. cbn [blocks]. rewrite !len_app, Hsh. unfold sealed_tail. rewrite len_be.
        pose proof (len_nonneg (blocks A (u32 (fseq + 1)) fs)). pose proof (len_nonneg post). lia. }
    cbn [res_bind].
    destruct (IH pre' A (u32 (fseq + 1)) u post (len pre + HeaderLen + bf_ctl f)) as (v & seg' & E & Hs' & Hcat);
      [by rewrite Hp'|done|rewrite Hp'; pose proof (len_nonneg pre); unfold span_of, HeaderLen, TrailerLen; lia|done|].
    rewrite <- Har in E, Hcat. rewrite E. cbn [res_bind fst snd].
    eexists _, seg'. split; [reflexivity|]. split; [lia|]. cbn [concat]. rewrite <- !app_assoc, Hcat, wire_cons.
    assert (slice arena seg (len pre + HeaderLen + bf_ctl f) = slice pre seg (len pre) ++ sealed_head A fseq f) as ->.
    { rewrite <- Z.add_assoc, <- Hsh. unfold arena. cbn [blocks]. rewrite <- !app_assoc. apply blocks_app_slice. lia. }
    assert (slice pre' (len pre + HeaderLen + bf_ctl f) (len pre') = sealed_tail A fseq f) as ->.
    { unfold pre'. rewrite app_assoc. rewrite slice_app_r by (rewrite len_app; lia).
      apply slice_all; rewrite !len_app; lia. }
    by rewrite <- !app_assoc.
Qed.

(** The coalesced shape is the concatenation of the vectored one. *)
Lemma appendLoop_buffers arena fs seg dst v seg' :
  buffersLoop arena fs seg = Ok (v, seg') → appendLoop arena fs seg dst = Ok (dst ++ concat v, seg').
Proof.
  revert seg dst v seg'. induction fs as [|f fs IH]; intros seg dst v seg'; cbn [buffersLoop appendLoop].
  { intros [= <- <-]. by rewrite app_nil_r. }
  destruct (len (bf_body f) =? 0); [apply IH|].
  intros (p & Hp & (x & Hx & [= <- <-])%res_bind_ok)%res_bind_ok. rewrite Hp. cbn [res_bind].
  destruct x as [v0 s0]. cbn [fst snd]. rewrite (IH _ _ _ _ Hx). cbn [concat]. by rewrite <- !app_assoc.
Qed.

(** ** A whole round *)

Lemma sublist_Forall {A} (P : A → Prop) xs ys : sublist xs ys → Forall P ys → Forall P xs.
Proof. induction 1; inversion 1; subst; auto. Qed.

Lemma session_handleOK t h :
  t ∈ [TypeOpenAck; TypeJoinAck; TypeAck; TypeFin; TypeRst; TypeSched; TypeData] → handle_ok h → handleOK t h = true.
Proof.
  intros Ht [_ Hh%Z.eqb_neq]. repeat (apply elem_of_cons in Ht as [-> | Ht]; [cbn; by rewrite Hh|]).
  by apply elem_of_nil in Ht.
Qed.

Lemma op_header_valid fseq o : op_wf o → is_u32 fseq → header_valid (op_frame fseq o).1 ∧ Bytes (op_payload o).
Proof.
  intros Ho Hq. pose proof (len_op_payload o Ho) as Hm.
  assert (is_u8 0) as H8 by done. assert (is_u32 0) as H32 by done.
  destruct o; cbn [op_wf op_frame op_type op_flags op_handle op_payload fst] in *.
  - destruct Ho as ([Hh Hn] & Hw). split; [|by apply OpenAck_layout].
    apply header_for; try done; first [apply session_handleOK; [repeat constructor|by split] | exact (codec_bounds TypeOpenAck (existT _ OpenAck_codec) a eq_refl eq_refl Hw Hm)].
  - destruct Ho as ([Hh Hn] & Hw). split; [|by apply JoinAck_layout].
    apply header_for; try done; first [apply session_handleOK; [repeat constructor|by split] | exact (codec_bounds TypeJoinAck (existT _ JoinAck_codec) a eq_refl eq_refl Hw Hm)].
  - destruct Ho as ([Hh Hn] & [Hf Hfl] & Hw). split; [|by apply Ack_layout].
    apply header_for; try done; first [apply session_handleOK; [repeat constructor|by split] | exact (codec_bounds TypeAck (existT _ Ack_codec) a eq_refl eq_refl Hw Hm)].
  - destruct Ho as ([Hh Hn] & Hw). split; [|by apply Fin_layout].
    apply header_for; try done; first [apply session_handleOK; [repeat constructor|by split] | exact (codec_bounds TypeFin (existT _ Fin_codec) off eq_refl eq_refl Hw Hm)].
  - destruct Ho as ([Hh Hn] & Hw). split; [|by apply Rst_layout].
    apply header_for; try done; first [apply session_handleOK; [repeat constructor|by split] | exact (codec_bounds TypeRst (existT _ Rst_codec) r eq_refl eq_refl Hw Hm)].
  - destruct Ho as ([Hh Hn] & [Hf Hfl] & Hw). split; [|by apply Sched_layout].
    apply header_for; try done; first [apply session_handleOK; [repeat constructor|by split] | exact (codec_bounds TypeSched (existT _ Sched_codec) s eq_refl eq_refl Hw Hm)].
  - destruct Ho as ([Hh Hn] & Hw). split; [|by apply data_layout].
    apply header_for; try done; first [apply session_handleOK; [repeat constructor|by split] | exact (codec_bounds TypeData (existT _ Data_codec) (off, body) eq_refl eq_refl Hw Hm)].
  - split; [|by apply Ping_layout]. apply header_for; try done; [by destruct busy|by destruct busy|].
    exact (codec_bounds TypePing (existT _ Ping_codec) p eq_refl eq_refl Ho Hm).
  - split; [|by apply Ping_layout]. apply header_for; try done.
    exact (codec_bounds TypePong (existT _ Ping_codec) p eq_refl eq_refl Ho Hm).
  - split; [|by apply (l_bytes _ _ _ _ Close_layout)]. by apply header_for.
  - split; [|by apply (l_bytes _ _ _ _ GoAway_layout)]. by apply header_for.
Qed.

(** The calls of one round in order, with the operations that were placed. *)
Fixpoint run_ops (os : list bop) (b : Batch) : res werr (list bop * Batch) :=
  match os with
  | [] => Ok ([], b)
  | o :: r =>
      let! x := op_apply o b in
      let! y := run_ops r x.2 in
      Ok (if x.1 then o :: y.1 else y.1, y.2)
  end.

(** The reader's side: [n] frames decoded one after another. *)
Fixpoint decodeAll (n : nat) (w : bytes) : res werr (list Frame * bytes) :=
  match n with
  | O => Ok ([], w)
  | S n =>
      let! x := DecodeFrame w in
      let! y := decodeAll n (drop (Z.to_nat x.2) w) in
      Ok (x.1 :: y.1, y.2)
  end.

Fixpoint sent (fseq : Z) (os : list bop) : list Frame :=
  match os with
  | [] => []
  | o :: r => mkFrame (op_frame fseq o).1 (op_payload o) :: sent (u32 (fseq + 1)) r
  end.

Lemma run_ops_spec os : ∀ b,
  BInv b → Forall op_wf os →
  ∃ placed b', run_ops os b = Ok (placed, b') ∧ BInv b' ∧ sublist placed os ∧
    frames_of b' = frames_of b ++ (op_frame 0 <$> placed).
Proof.
  induction os as [|o os IH]; intros b Hb Hw; cbn [run_ops].
  { exists [], b. split_and!; [done|done|done|]. by rewrite app_nil_r. }
  inversion Hw as [|? ? Ho Hos]; subst.
  destruct (op_spec o b Hb Ho) as (ok & b1 & E1 & (Hb1 & Hf1 & _)). rewrite E1. cbn [res_bind fst snd].
  destruct (IH b1 Hb1 Hos) as (pl & b2 & E2 & Hb2 & Hsub & Hf2). rewrite E2. cbn [res_bind fst snd].
  exists (if ok then o :: pl else pl), b2. split_and!; [done|done|destruct ok; by constructor|].
  rewrite Hf2, Hf1, <- app_assoc. by destruct ok.
Qed.

Lemma decodeAll_sent os : ∀ fseq,
  Forall op_wf os → is_u32 fseq →
  decodeAll (length os) (concat ((λ f, enc_frame (f_Header f) (f_Payload f)) <$> sent fseq os)) = Ok (sent fseq os, []).
Proof.
  induction os as [|o os IH]; intros fseq Hw Hq; cbn [decodeAll length sent fmap list_fmap concat]; [done|].
  inversion Hw as [|? ? Ho Hos]; subst. destruct (op_header_valid fseq o Ho Hq) as [Hv HB].
  cbn [f_Header f_Payload].
  assert (Bytes (concat ((λ f, enc_frame (f_Header f) (f_Payload f)) <$> sent (u32 (fseq + 1)) os))) as HB2.
  { clear IH Hw. revert fseq Hq Hv. induction Hos as [|o' os' Ho' _ IH]; intros fseq Hq Hv; cbn [sent fmap list_fmap concat]; [constructor|].
    cbn [f_Header f_Payload].
    destruct (op_header_valid (u32 (fseq + 1)) o' Ho') as [Hv' HB']; [by apply wrap_fits|].
    apply Forall_app_2; [by apply Bytes_enc_frame|]. apply IH; [by apply wrap_fits|].
    by apply op_header_valid; [|apply wrap_fits]. }
  rewrite DecodeFrame_enc by done. cbn [res_bind fst snd].
  rewrite drop_app_length' by (unfold len; lia). rewrite IH by (done || by apply wrap_fits). done.
Qed.

Lemma wire_frames A os : ∀ fs fseq,
  frame_of A <$> fs = op_frame 0 <$> os →
  wire A fseq fs = concat ((λ f, enc_frame (f_Header f) (f_Payload f)) <$> sent fseq os).
Proof.
  induction os as [|o os IH]; intros fs fseq; destruct fs as [|f fs]; cbn [fmap list_fmap]; try done.
  intros [= H1 H2 H3]. cbn [wire sent fmap list_fmap concat f_Header f_Payload]. rewrite (IH fs) by done.
  rewrite H2. f_equal. unfold with_fseq. by rewrite H1.
Qed.

Lemma len_blocks A fs : ∀ fseq o u, 0 ≤ o → laid o fs u → u ≤ len A → len (blocks A fseq fs) = u - o.
Proof.
  induction fs as [|f fs IH]; intros fseq o u H0 Hl Hu; cbn [blocks].
  { cbn in Hl. subst. rewrite len_nil. lia. }
  destruct Hl as (Hh & Hc & Hl). pose proof (laid_le _ _ _ Hl).
  unfold sealed_tail, sealed_head, span_of, HeaderLen, TrailerLen in *.
  rewrite !len_app, len_be, len_enc_header, (IH _ (o + (13 + bf_ctl f + 4)) u) by (done || lia).
  rewrite len_ctl_of by (unfold HeaderLen; lia). lia.
Qed.

Lemma len_wire A fs : ∀ fseq o u, 0 ≤ o → laid o fs u → u ≤ len A → len (wire A fseq fs) = u - o + bodies fs.
Proof.
  induction fs as [|f fs IH]; intros fseq o u H0 Hl Hu; cbn [wire bodies].
  { cbn in Hl. subst. rewrite len_nil. lia. }
  destruct Hl as (Hh & Hc & Hl). pose proof (laid_le _ _ _ Hl).
  rewrite len_app, len_enc_frame, len_app, (IH _ (o + span_of f) u) by (done || unfold span_of, HeaderLen, TrailerLen; lia).
  unfold span_of, FrameOverhead, HeaderLen, TrailerLen in *. rewrite len_ctl_of by (unfold HeaderLen; lia). lia.
Qed.

Lemma reset_binv now b : len (b_arena b) = arenaSize → BInv (Reset now b).
Proof. intros H. constructor; cbn; try done. Qed.

(** The state of the writer before it calls the endpoint: the quota and the
    response hold of the round. *)
Definition round_start (now : Time) (q hh : Z) (b : Batch) : Batch :=
  SetResponseHold hh (limit q (Reset now b)).

Lemma round_start_binv now q hh b : len (b_arena b) = arenaSize → BInv (round_start now q hh b).
Proof.
  intros H. apply (reset_binv now) in H as [].
  constructor; unfold round_start, limit; case_match; done.
Qed.

(** C5. One writer round, whatever the endpoint and the carrier append, whatever
    the quota and the response hold: no call panics; the frames placed are a
    subsequence of the calls, in order; sealed from [fseq], the coalesced
    buffer and the vector of slices carry the same bytes, wireLen of them;
    and a reader decodes exactly the placed frames from them, in order and
    with consecutive fseq values, with nothing left over. *)
Theorem batch_round b0 now q hh os fseq dst bufs :
  len (b_arena b0) = arenaSize → Forall op_wf os → is_u32 fseq →
  ∃ placed b b' w v,
    run_ops os (round_start now q hh b0) = Ok (placed, b) ∧ sublist placed os ∧
    seal fseq b = Ok (b', u32 (fseq + len placed)) ∧
    appendTo dst b' = Ok (dst ++ w) ∧
    appendBuffers bufs b' = Ok (bufs ++ v) ∧ concat v = w ∧ len w = wireLen b' ∧
    decodeAll (length placed) w = Ok (sent fseq placed, []).
Proof.
  intros Ha Hos Hq. pose proof (round_start_binv now q hh b0 Ha) as H0.
  destruct (run_ops_spec os _ H0 Hos) as (placed & b & E & Hb & Hsub & Hf).
  assert (frames_of (round_start now q hh b0) = []) as Hnil.
  { unfold round_start, limit, frames_of. by case_match. }
  rewrite Hnil in Hf. cbn [app] in Hf. destruct Hb as [_ Bl Bo Ba _ Bu Bb].
  assert (b_used b ≤ len (b_arena b)) as Hu.
  { rewrite Ba. pose proof (bi_n _ H0). destruct (run_ops_spec os _ H0 Hos) as (? & ? & E' & Hb' & _).
    rewrite E in E'. injection E' as <- <-. destruct Hb'. unfold arenaSize, MaxBatchFrames, DataHeadLen, HeaderLen,
      TrailerLen, DataPrefixLen in *. lia. }
  pose proof (sealLoop_spec (b_frames b) [] (b_arena b) fseq (b_used b) Bl Bo Hu Hq) as Hseal.
  cbn [app] in Hseal. change (drop (Z.to_nat (len (@nil Z))) (b_arena b)) with (b_arena b) in Hseal.
  pose proof (len_blocks (b_arena b) (b_frames b) fseq 0 (b_used b) ltac:(lia) Bl Hu) as Hlb.
  destruct (buffersLoop_spec (b_frames b) [] (b_arena b) fseq (b_used b) (drop (Z.to_nat (b_used b)) (b_arena b)) 0)
    as (v & seg' & Eb & Hs & Hcat); [done|done|split; [done|apply len_nonneg]|cbn [app]; lia|].
  cbn [app] in Eb, Hcat. rewrite slice_nil in Hcat. cbn [app] in Hcat.
  set (arena := blocks (b_arena b) fseq (b_frames b) ++ drop (Z.to_nat (b_used b)) (b_arena b)) in *.
  assert (b_used b ≤ len arena) as Hua.
  { unfold arena. rewrite len_app, Hlb. pose proof (len_nonneg (drop (Z.to_nat (b_used b)) (b_arena b))). lia. }
  assert (len (b_frames b) = len placed) as Hn.
  { apply (f_equal length) in Hf. unfold frames_of in Hf. rewrite !length_fmap in Hf. unfold len. lia. }
  set (w := wire (b_arena b) fseq (b_frames b)).
  assert (w = concat ((λ f, enc_frame (f_Header f) (f_Payload f)) <$> sent fseq placed)) as Hw by (by apply wire_frames).
  eexists placed, b, _, w, (if seg' <? b_used b then v ++ [slice arena seg' (b_used b)] else v).
  split; [done|]. split; [done|].
  split; [unfold seal; rewrite Hseal, Hn; reflexivity|].
  unfold appendTo, appendBuffers, wireLen. cbn [b_arena b_frames b_used b_bodies set_b_arena set_b_frames].
  rewrite (appendLoop_buffers _ _ _ dst _ _ Eb), Eb. cbn [res_bind fst snd].
  rewrite sub_ok by lia. cbn [res_bind]. split_and!.
  - by rewrite <- app_assoc, Hcat.
  - by destruct (seg' <? b_used b).
  - destruct (Z.ltb_spec seg' (b_used b)).
    + rewrite concat_app. cbn [concat]. by rewrite app_nil_r.
    + assert (seg' = b_used b) as Heq by lia. rewrite Heq, slice_nil, app_nil_r in Hcat. done.
  - unfold w. rewrite (len_wire _ _ _ 0 (b_used b)) by (done || lia). rewrite Bb. lia.
  - rewrite Hw. apply decodeAll_sent; [|done]. by eapply sublist_Forall.
Qed.

Definition batch_demo : list bop :=
  [OpAck 7 0 (Ack.mkAck 100 65536 1); OpData 7 100 [10; 11; 12] false; OpData 7 103 [13] true; OpFin 7 104].

Lemma batch_demo_wf : Forall op_wf batch_demo.
Proof.
  repeat (constructor; [cbn; unfold handle_ok, flags_ok; split_and!; try done; repeat constructor; done|]). constructor.
Qed.

Lemma batch_round_witness :
  ∃ placed b b' w v,
    run_ops batch_demo (round_start 5 4 0 (NewBatch 3)) = Ok (placed, b) ∧ sublist placed batch_demo ∧
    seal 9 b = Ok (b', u32 (9 + len placed)) ∧ appendTo [] b' = Ok ([] ++ w) ∧
    appendBuffers [] b' = Ok ([] ++ v) ∧ concat v = w ∧ len w = wireLen b' ∧
    decodeAll (length placed) w = Ok (sent 9 placed, []).
Proof.
  apply (batch_round (NewBatch 3) 5 4 0 batch_demo 9 [] []); [reflexivity|exact batch_demo_wf|done].
Defined.

(** In that round the batch budget of 3 bytes refuses the second DATA frame. *)
Example batch_demo_placed :
  (let! x := run_ops batch_demo (round_start 5 4 0 (NewBatch 3)) in Ok (op_type <$> x.1)) =
  Ok [TypeAck; TypeData; TypeFin].
Proof. vm_compute. reflexivity. Qed.
