(* ===== verification/SessFill.v ===== *)
(** * Fill: what a lane puts in a batch

    fill.go, the Fill of lane_ep.go with its MUX rules, fillAckLocked
    (ack.go) and the race variants (race.go), on the batches of
    [CarrierBatch].  A function of this file runs on the batch and the
    session; [Panic] is a panic of the source. *)

From Stdlib Require Import ZArith Lia.
From stdpp Require Import base numbers list sorting gmap sets.
From S2P Require Import Prelude Buffers WireConst WireFrame Codec WirePayload GoTime SchedTiming CarrierBuf.
From S2P Require Import Spans RecvSegs RecvProofs CarrierBatch SessState SessDuty SessRecv SessFin SessSend.

Open Scope Z_scope.
Open Scope rendr_scope.

(** ** The monad of Fill *)

Definition FM (A : Type) : Type := Batch → Session → res werr (A * Batch * Session).

Definition fret {A} (a : A) : FM A := λ b s, Ok (a, b, s).
Definition fbind {A B} (m : FM A) (k : A → FM B) : FM B :=
  λ b s, let! x := m b s in k x.1.1 x.1.2 x.2.
Definition fpanic {A} : FM A := λ _ _, Panic.
Definition lift {A} (m : M A) : FM A := λ b s, Ok ((m s).1, b, (m s).2).
Definition getB : FM Batch := λ b s, Ok (b, b, s).
Definition modB (f : Batch → Batch) : FM unit := λ b s, Ok (tt, f b, s).
Definition add (f : Batch → res werr (bool * Batch)) : FM bool :=
  λ b s, let! x := f b in Ok (x.1, x.2, s).
Definition fwhen (c : bool) (m : FM unit) : FM unit := if c then m else fret tt.

Notation "'doB' x <- m ; k" := (fbind m (λ x, k))
  (at level 10, x name, m at level 100, k at level 200, format "'[v' 'doB'  x  <-  m ; '/' k ']'") : rendr_scope.
Notation "'runB' m ; k" := (fbind m (λ _, k))
  (at level 10, m at level 100, k at level 200, format "'[v' 'runB'  m ; '/' k ']'") : rendr_scope.

(** ** DATA *)

(** lane.Handle *)
Definition Handle (l : lane) : Z := if l_handle l =? 0 then SessionHandle else l_handle l.

(** addDataLocked: the bytes appended (0: stop) and the new value of [sent]. *)
Definition addDataLocked (l : nat) (off n : Z) (retx sent : bool) : FM (Z * bool) :=
  doB s <- lift get;
  doB b <- getB;
  let st := s_send s in
  let n := Z.min (Z.min n (u64 (chunkEnd st off - off))) (segment (s_p s)) in
  let room := Z.max (Room b) 0 in
  if (room <? n) && (sent || (room =? 0)) then fret (0, sent)
  else
    let n := if room <? n then room else n in
    match chunkFor st off with
    | None => fpanic
    | Some (c, pos) =>
        if chunkSize <? pos + n then fpanic
        else
          doB ok <- add (AddData (Handle (lane_at s l)) off (rng c pos n) retx);
          if ok then
            runB lift (updLane l (λ c, set_l_infl (sl_add (l_infl c) off n) c));
            runB lift (when retx (upd_send (λ st, set_retxBytes (u64 (retxBytes st + n)) st)));
            fret (n, true)
          else fret (0, sent)
    end.

(** The loops of fillDataLocked.  Every iteration that continues placed a
    frame, so a batch of MaxBatchFrames frames bounds them: [fillFuel]
    iterations never run out. *)
Definition fillFuel : nat := 65.

Fixpoint rescueLoop (fuel : nat) (l : nat) (sp : span) (left : Z) (sent : bool) : FM (span * Z * bool) :=
  match fuel with
  | O => fpanic
  | S f =>
      if 0 <? sp_n sp then
        doB x <- addDataLocked l (sp_off sp) (sp_n sp) true sent;
        let k := x.1 in
        if k =? 0 then fret (sp, left, x.2)
        else rescueLoop f l (Span (u64 (sp_off sp + k)) (u64 (sp_n sp - k))) (left - k) x.2
      else fret (sp, left, sent)
  end.

Fixpoint retxLoop (fuel : nat) (l : nat) (left : Z) (sent : bool) : FM (Z * bool) :=
  match fuel with
  | O => fpanic
  | S f =>
      doB s <- lift get;
      match retx (s_send s) with
      | sp :: _ =>
          if 0 <? left then
            doB x <- addDataLocked l (sp_off sp) (sp_n sp) true sent;
            let k := x.1 in
            if k =? 0 then fret (left, x.2)
            else
              doB s <- lift get;
              match sl_takeFront (retx (s_send s)) k with
              | None => fpanic
              | Some rx => runB lift (upd_send (set_retx rx)); retxLoop f l (left - k) x.2
              end
          else fret (left, sent)
      | [] => fret (left, sent)
      end
  end.

Fixpoint newLoop (fuel : nat) (l : nat) (left : Z) (sent : bool) : FM (Z * bool) :=
  match fuel with
  | O => fpanic
  | S f =>
      doB s <- lift get;
      let st := s_send s in
      let lim := Z.min (s_end st) (peerLimit st) in
      if (0 <? left) && (sNext st <? lim) then
        doB x <- addDataLocked l (sNext st) (u64 (lim - sNext st)) false sent;
        let k := x.1 in
        if k =? 0 then fret (left, x.2)
        else
          runB lift (upd_send (λ st, set_sNext (u64 (sNext st + k)) st));
          newLoop f l (left - k) x.2
      else fret (left, sent)
  end.

(** The lane's share of its carrier's capacity. *)
Definition shareOf (l : lane) (b : Batch) : Z := port_Capacity l - port_Inflight l - b_taken b.

Definition fillDataLocked (l : nat) : FM unit :=
  runB lift (upd_send (λ st, if sBase st =? sNext st then set_interleaved false st else st));
  doB s <- lift get;
  doB b <- getB;
  let left := shareOf (lane_at s l) b in
  doB x <- (if re_set (rescue (s_send s)) && (0 <? left) && rescueSenderLocked s l then
              let holder := bool_decide (re_holder (rescue (s_send s)) = Some l) in
              doB x <- rescueLoop fillFuel l (re_sp (rescue (s_send s))) left false;
              let sp := x.1.1 in
              runB lift (upd_send (λ st,
                set_rescue (if 0 <? sp_n sp then RescueSlot true sp (re_holder (rescue st))
                            else if holder then RescueSlot false (Span 0 0) (Some l)
                            else no_rescue) st));
              fret (x.1.2, x.2)
            else fret (left, false));
  doB x <- retxLoop fillFuel l x.1 x.2;
  doB x <- newLoop fillFuel l x.1 x.2;
  doB s <- lift get;
  runB lift (when (is_bond (p_Mode (s_p s)) && x.2 && negb (interleaved (s_send s)) && otherDataLaneLocked s l)
               (upd_send (set_interleaved true)));
  doB s <- lift get;
  fwhen ((x.1 <=? 0) && ((0 <? pullableLocked s) || (re_set (rescue (s_send s)) && rescueSenderLocked s l)))
    (modB MarkCapBlocked).

(** ** Race *)

(** The next bytes a race lane at [from] sends: their number and whether they
    are retransmissions. *)
Definition raceStep (rx : list span) (from lim : Z) : Z * bool :=
  let n := u64 (lim - from) in
  match rx with
  | [] => (n, false)
  | sp :: _ =>
      if sp_off sp <=? from then (Z.min n (u64 (sp_end sp - from)), true)
      else (Z.min n (u64 (sp_off sp - from)), false)
  end.

Fixpoint raceLoop (fuel : nat) (l : nat) (from lim left : Z) (sent : bool) : FM (Z * Z) :=
  match fuel with
  | O => fpanic
  | S f =>
      if (0 <? left) && (from <? lim) then
        runB lift (upd_send (λ st, set_retx (sl_trimBelow (retx st) from) st));
        doB s <- lift get;
        let nr := raceStep (retx (s_send s)) from lim in
        doB x <- addDataLocked l from nr.1 nr.2 sent;
        let k := x.1 in
        if k =? 0 then fret (from, left)
        else
          runB lift (upd_send (λ st,
            if nr.2 then set_retx (sl_trimBelow (retx st) (u64 (from + k))) st
            else if from <? sNext st
            then set_copyBytes (u64 (copyBytes st + Z.min k (u64 (sNext st - from)))) st
            else st));
          raceLoop f l (u64 (from + k)) lim (left - k) x.2
      else fret (from, left)
  end.

Definition raceFillDataLocked (l : nat) : FM unit :=
  doB s <- lift get;
  doB b <- getB;
  let st := s_send s in
  let lim := Z.min (s_end st) (peerLimit st) in
  doB x <- raceLoop fillFuel l (Z.max (l_rnext (lane_at s l)) (sBase st)) lim (shareOf (lane_at s l) b) false;
  runB lift (updLane l (set_l_rnext x.1));
  runB lift (upd_send (λ st, set_sNext (Z.max (sNext st) x.1) st));
  fwhen ((x.2 <=? 0) && (x.1 <? lim)) (modB MarkCapBlocked).

(** ** FIN *)

(** [st.fin.lane = l; l.finHere = true] *)
Definition finPlaced (l : nat) : M unit :=
  run upd_fin (λ f, set_fin (FinState (fin_requested (fin f)) (fin_acked (fin f)) (fin_off (fin f)) (Some l)) f);
  updLane l (set_l_finHere true).

Definition addFinLocked (l : nat) : FM bool :=
  doB s <- lift get;
  doB ok <- add (AddFin (Handle (lane_at s l)) (fin_off (fin (s_fin s))));
  runB lift (when ok (finPlaced l));
  fret ok.

Definition raceFinLocked (l : nat) : FM bool :=
  doB s <- lift get;
  if raceFinDueLocked s l then addFinLocked l else fret false.

(** ** ACK *)

Definition fillAckLocked (l : nat) : FM unit :=
  doB s <- lift get;
  doB b <- getB;
  runB (if IsZero (ackDelayAt (s_ack s)) then fret tt
        else if l_retireCalled (lane_at s l) || negb (Before (b_now b) (ackDelayAt (s_ack s))) then
          lift (run upd_ack (λ a, set_ackGen (u64 (ackGen a + 1)) a);
                run when (IsZero (ackOwedSince (s_ack s))) (upd_ack (set_ackOwedSince (b_now b)));
                run upd_ack (set_ackBumped (rRead (s_recv s)));
                run upd_ack (set_ackDelayAt zero_time);
                raceWakeAckLocked)
        else modB (WakeAt (ackDelayAt (s_ack s))));
  doB s <- lift get;
  if l_ackSent (lane_at s l) =? ackGen (s_ack s) then fret tt
  else
    let edge := rightEdge (s_recv s) in
    doB win <- lift raiseEdgeLocked;
    let w := Z.min win (2 ^ 32 - 1) in
    let a := Ack.mkAck (rRead (s_recv s)) w (if is_passive (p_Role (s_p s)) then c_epoch (s_ctl s) else 0) in
    let flags := ackFlags (s_ack s) in
    doB ok <- add (AddAck (Handle (lane_at s l)) flags a);
    if negb ok then lift (upd_recv (set_rightEdge edge))
    else
      lift (
        run updLane l (set_l_ackSent (ackGen (s_ack s)));
        run upd_ack (set_ackOwedSince zero_time);
        run upd_ack (set_lastWin w);
        run when ((readvertiseFloor (s_p s) <=? lastWin (s_ack s)) && (w <? readvertiseFloor (s_p s))) ringActor;
        run when (negb (Z.land flags FlagAckFinDelivered =? 0) && negb (finDelivSent (s_fin s)))
          (run upd_fin (set_finDelivSent true); maybeDoneLocked);
        when (negb (Z.land flags FlagAckDone =? 0) && negb (doneSent (s_fin s)))
          (run upd_fin (set_doneSent true);
           run upd_fin (set_doneSentAt (b_now b));
           run addFact factDoneSent;
           ringActor)).

(** ** Control frames and the whole Fill *)

(** The first response of a passive lane: placed, and whether it accepts. *)
Definition addFirstLocked (l : lane) : FM (bool * bool) :=
  match l_first l with
  | NoFirst => fret (false, false)
  | FirstOpenAck a => doB ok <- add (AddOpenAck (Handle l) a); fret (ok, OpenAck.Status a =? StatusOK)
  | FirstJoinAck a => doB ok <- add (AddJoinAck (Handle l) a); fret (ok, JoinAck.Status a =? StatusOK)
  end.

(** Step 1 of fillControlLocked: whether the rest may follow. *)
Definition fillFirstLocked (l : nat) : FM bool :=
  doB s <- lift get;
  if is_passive (p_Role (s_p s)) && negb (l_firstSent (lane_at s l)) then
    doB x <- addFirstLocked (lane_at s l);
    if negb x.1 then fret false
    else
      runB lift (run updLane l (set_l_firstSent true); run addFact factLaneConfirmed; ringActor);
      if negb x.2 then fret false
      else
        runB lift (updLane l (set_l_first NoFirst));
        runB lift (do s <- get;
                   when (match ackLane (s_ack s) with None => true | _ => false end) ensureAckLaneLocked);
        fret true
  else fret (negb (refusedLocked (lane_at s l))).

Definition fillControlLocked (l : nat) : FM bool :=
  doB go <- fillFirstLocked l;
  if negb go then fret false
  else
    doB s <- lift get;
    let h := Handle (lane_at s l) in
    match c_rst (s_ctl s) with
    | Some r =>
        runB (if l_rstSent (lane_at s l) then fret tt
              else
                doB ok <- add (AddRst h (Rst.mkRst (Rst.Code r) (take (Z.to_nat (Z.min (len (Rst.Msg r)) MaxMsg)) (Rst.Msg r))));
                lift (when ok (updLane l (set_l_rstSent true))));
        fret false
    | None =>
        if ended (s_app s) then fret false
        else
          let c := s_ctl s in
          runB (if negb (is_passive (p_Role (s_p s))) && negb (l_schedSent (lane_at s l) =? c_epoch c) &&
                   (0 <? Sched.N (c_set c)) then
                  let set := if members (p_Mode (s_p s)) then c_set c
                             else Sched.mkSched (Sched.Epoch (c_set c)) (c_migDeath c) (c_migQuality c) (c_migExplicit c)
                                    (Sched.N (c_set c)) (Sched.IDs (c_set c)) in
                  doB ok <- add (AddSched h (c_cause c) set);
                  lift (when ok (updLane l (set_l_schedSent (c_epoch c))))
                else fret tt);
          doB b <- getB;
          runB lift (do s <- get;
                     when (negb (bool_decide (ackLane (s_ack s) = Some l)) && ackOverdueLocked s l (b_now b))
                       (upd_ack (set_ackLane (Some l))));
          doB s <- lift get;
          runB fwhen (bool_decide (ackLane (s_ack s) = Some l) ||
                      (bool_decide (gapLane (s_ack s) = Some l) && ackQualifiesLocked s (lane_at s l)) ||
                      raceAckDutyLocked s (lane_at s l))
                 (fillAckLocked l);
          fret true
    end.

Definition fillLocked (l : nat) : FM unit :=
  doB s <- lift get;
  if is_dead (l_state (lane_at s l)) then fret tt
  else
    doB b0 <- getB;
    let ctl := b_ctlOnly b0 in
    doB go <- fillControlLocked l;
    runB fwhen (go && l_data (lane_at s l))
      (if is_race (p_Mode (s_p s)) then
         runB fwhen (negb ctl) (raceFillDataLocked l);
         doB ok <- raceFinLocked l;
         fret tt
       else
         runB fwhen (negb ctl) (fillDataLocked l);
         doB s <- lift get;
         fwhen (finDueLocked s) (doB ok <- addFinLocked l; fret tt));
    doB b <- getB;
    fwhen (negb ctl) (lift (updLane l (set_l_idle (Len b =? Len b0)))).

(** placeGoLocked for a stream session. *)
Definition placeGoLocked (l : nat) : FM bool :=
  doB s <- lift get;
  let r := s_recv s in
  let win := if rRead r <? rightEdge r then u64 (rightEdge r - rRead r) else 0 in
  add (AddAck (Handle (lane_at s l)) 0 (Ack.mkAck (rRead r) (Z.min win (2 ^ 32 - 1)) 0)).

(** muxFillLocked on a stream batch: whether the lane's own Fill may run. *)
Definition muxFillLocked (l : nat) : FM bool :=
  doB s <- lift get;
  if port_Held (lane_at s l) then fret false
  else if negb (l_goOwed (lane_at s l)) then fret true
  else if is_dead (l_state (lane_at s l)) || ended (s_app s) then fret false
  else
    doB ok <- placeGoLocked l;
    if negb ok then fret false
    else runB lift (updLane l (set_l_goOwed false)); fret true.

Definition Fill (l : nat) : FM unit :=
  doB go <- muxFillLocked l;
  fwhen go (fillLocked l).
