(* ===== verification/SessStep.v ===== *)
(** * The steps of a stream session

    The critical sections of a session's data path as one step relation: the
    carrier endpoints (Data, Control, Fill, WriteBlocked of lane_ep.go), the
    application's calls (app.go; a Read or a Write is several steps, because
    it copies outside the lock) and the helpers the actor calls (helpers.go).
    [env] is everything else that may happen between two critical sections:
    the actor's own fields, the carrier ports, the Budget and the deadlines. *)

From Stdlib Require Import ZArith Lia.
From stdpp Require Import base numbers list sorting gmap sets.
From S2P Require Import Prelude WireConst WireFrame WirePayload GoTime SchedTiming CarrierBuf Spans RecvSegs.
From S2P Require Import RecvProofs CarrierBatch SessState SessDuty SessRecv SessFin SessSend SessFill.

Open Scope Z_scope.
Open Scope rendr_scope.

(** ** The endpoint's control frames *)

Definition wireErr {A} (r : res werr A) (k : A → M (option serr)) : M (option serr) :=
  match r with
  | Ok a => k a
  | Err e => ret (Some (EWire e))
  | Panic => ret (Some EPanic)
  end.

Definition Control (l : nat) (h : Header) (p : bytes) : M (option serr) :=
  do s <- get;
  if ended (s_app s) then ret None
  else if h_Type h =? TypeRst then rstLocked p
  else if pendingLocked s then ret (Some (EViolation errDataBeforeOpen))
  else if h_Type h =? TypeAck then wireErr (Ack.ParseAck p) (ackLocked l (h_Flags h))
  else if h_Type h =? TypeFin then wireErr (Fin.ParseFin p) finLocked
  else if h_Type h =? TypeSched then schedLocked (h_Flags h) p
  else ret (Some (EViolation errUnexpectedFrame)).

Definition WriteBlocked (l : nat) : M unit :=
  do s <- get;
  run when (bool_decide (ackLane (s_ack s) = Some l))
    (do n <- chooseAckLaneLocked (Some l);
     match n with
     | None => ret tt
     | Some i =>
         do s <- get;
         when (negb (port_WriteBlocked (lane_at s i)))
           (run upd_ack (set_ackLane (Some i));
            when (negb (l_ackSent (lane_at s i) =? ackGen (s_ack s)) || negb (IsZero (ackDelayAt (s_ack s))))
              (wakeLane i))
     end);
  run when (is_bond (p_Mode (s_p s)) && negb (ended (s_app s))) (do now <- Now; wakeDataLocked now);
  run addFact factWriteBlocked;
  ringActor.

(** ** The application's calls *)

(** The first act of a Read, before its lock. *)
Definition readEnter : M unit := emit TriggerOpen.

(** The Read that waited, after its wake. *)
Definition readWoken : M unit := run upd_app (set_rwake false); upd_app (set_rwaiting false).

(** One round of Write after its copy: the commit, and the trigger of an
    EarlyReturn dial when the round was taken. *)
Definition writeCommit (k : Z) : M (option serr) :=
  do e <- commitRoundLocked k;
  run (match e with None => emit TriggerOpen | Some _ => ret tt end);
  ret e.

(** A Write of no bytes. *)
Definition writeEmpty : M (option serr) :=
  do s <- get;
  if closed (s_app s) || fin_requested (fin (s_fin s)) then ret (Some EClosed)
  else if ended (s_app s) then ret (Some (endErr (s_app s)))
  else
    do now <- Now;
    if deadlinePassed (wdl (s_app s)) now then ret (Some EDeadline)
    else run emit TriggerOpen; ret None.

Definition CloseWrite : M unit :=
  run emit TriggerOpen;
  do now <- Now;
  run closeWriteLocked now;
  ringActor.

Definition Close : M unit :=
  do now <- Now;
  run closeLocked now;
  ringActor.

Definition wakeDirLocked (read : bool) : M unit :=
  do s <- get;
  if read then when (rwaiting (s_app s)) signalR else when (wwaiting (s_app s)) signalW.

(** setDeadline without the timer, which only calls deadlineFired. *)
Definition setDeadline (read : bool) (t : Time) : M (option serr) :=
  do s <- get;
  if closed (s_app s) then ret (Some EClosed)
  else
    do t <- (if IsZero t then ret t else do now <- Now; ret (Add now (Sub t now)));
    run (if read then upd_app (set_rdl t) else upd_app (set_wdl t));
    run wakeDirLocked read;
    ret None.

Definition deadlineFired (read : bool) : M unit :=
  do s <- get;
  do now <- Now;
  when (deadlinePassed (if read then rdl (s_app s) else wdl (s_app s)) now) (wakeDirLocked read).

(** ** The start of a stream (initStreamLocked) *)

Definition initSend (p : Params) (now : Time) : sendS :=
  let off := p_FirstOffset p in
  SendS [] (Z.to_nat (quot (window p) chunkSize + 2)) off off off off off off [] no_rescue
        false false false false now 0 0 0.

Definition initRecv (p : Params) (used : Z) : recvS :=
  let off := p_FirstOffset p in
  RecvS off off (RBuf off [] [] 0 0 0 used) 0 false false false false false false 0 false 0 0.

Definition initAck (p : Params) : ackS := AckS 0 zero_time 0 0 zero_time None None (window p) false.

Definition initFin (p : Params) : finS :=
  FinS (FinState false false 0 None) false false false false zero_time None (u32 (p_FirstEpoch p - 1)).

Definition initApp (now : Time) : appS :=
  AppS false false false false zero_time zero_time false zero_time false EClosed now.

(** A session that initStreamLocked prepared: no lanes, nothing received. *)
Definition initSession (p : Params) (g : option groupSpec) (ctl : control) (bmax used : Z) (clk : nat → Time) : Session :=
  MkSession p g (initSend p (clk O)) (initRecv p used) (initAck p) (initFin p) (initApp (clk O)) ctl
            [] [] [] zero_time 0 bmax clk 1 [].

(** ** Critical sections that do not return data *)

Inductive call : Type → Type :=
| CControl (l : nat) (h : Header) (p : bytes) : call (option serr)
| CWriteBlocked (l : nat) : call unit
| CReadEnter : call unit
| CReadWoken : call unit
| CWriteWoken : call unit
| CWriteEmpty : call (option serr)
| CCloseWrite : call unit
| CClose : call unit
| CSetDeadline (read : bool) (t : Time) : call (option serr)
| CDeadlineFired (read : bool) : call unit
| CEnd (err : option serr) : call unit
| CPeerWindow (w : Z) : call unit
| CApplyRxNext (rx : Z) : call (option serr)
| COpenWindow : call Z
| CRequeue (l : nat) : call Z
| CLaneGone (l : nat) : call (option Z)
| CLaneAdded (l : nat) : call unit
| CRoutingChanged : call unit
| CBumpAck (urgent : bool) : call unit
| CTakeFacts : call Z
| CRescue (now wait rescued : Z) : call (Z * Time)
| CRaceAttach (l : nat) : call unit
| CEarlyVerdict (l : nat) (k0 kw : Z) (now : Time) : call unit
| CWakeRescue : call unit
| CReadvertise : call bool.

Definition exec {A} (c : call A) : M A :=
  match c with
  | CControl l h p => Control l h p
  | CWriteBlocked l => WriteBlocked l
  | CReadEnter => readEnter
  | CReadWoken => readWoken
  | CWriteWoken => writeWoken
  | CWriteEmpty => writeEmpty
  | CCloseWrite => CloseWrite
  | CClose => Close
  | CSetDeadline r t => setDeadline r t
  | CDeadlineFired r => deadlineFired r
  | CEnd e => endLocked e
  | CPeerWindow w => peerWindowLocked w
  | CApplyRxNext rx => applyRxNextLocked rx
  | COpenWindow => openWindowLocked
  | CRequeue l => requeueLocked l
  | CLaneGone l => laneGoneLocked l
  | CLaneAdded l => laneAddedLocked l
  | CRoutingChanged => routingChangedLocked
  | CBumpAck u => bumpAckLocked u
  | CTakeFacts => takeFactsLocked
  | CRescue now wait r => rescueLocked now wait r
  | CRaceAttach l => raceAttachLocked l
  | CEarlyVerdict l k0 kw now => earlyVerdictLocked l k0 kw now
  | CWakeRescue => wakeRescueLocked
  | CReadvertise => readvertiseLocked
  end.
