(* ===== verification/SessDeliver.v ===== *)
(** * What the application reads

    The receive side over whole executions: whatever interleaving of DATA
    frames (any offsets, lengths and lanes, in any order and any number of
    times), control frames, reads, Close, the end, Fill and the actor's calls
    a session goes through, the bytes Read has returned are a prefix of the
    peer's stream, and EOF is returned only at the peer's FIN. *)

From Stdlib Require Import ZArith Lia.
From stdpp Require Import base numbers list sorting gmap sets.
From S2P Require Import Prelude WireConst WireFrame WirePayload GoTime SchedTiming CarrierBuf Spans RecvSegs.
From S2P Require Import RecvProofs RecvCopy RecvFrame CarrierBatch SessState SessDuty SessRecv SessRecvProofs.
From S2P Require Import SessFin SessSend SessFill SessStep.

Open Scope Z_scope.
Open Scope rendr_scope.

(** ** The receive view of a session *)

Definition recvOf (s : Session) :=
  (s_p s, s_recv s, closed (s_app s), ended (s_app s), endErr (s_app s), c_state (s_ctl s)).

Lemma recvOf_inv s s' :
  recvOf s' = recvOf s →
  s_p s' = s_p s ∧ s_recv s' = s_recv s ∧ closed (s_app s') = closed (s_app s) ∧
  ended (s_app s') = ended (s_app s) ∧ endErr (s_app s') = endErr (s_app s) ∧ recvLimit s' = recvLimit s.
Proof.
  unfold recvOf, recvLimit, pendingLocked. intros [= H1 H2 H3 H4 H5 H6]. rewrite H1, H2, H3, H4, H5, H6. done.
Qed.

Lemma recvOf_dataOf {A} (m : M A) : keeps dataOf m → keeps recvOf m.
Proof. intros H s. specialize (H s). unfold dataOf in H. unfold recvOf. by injection H as -> _ -> _ -> -> _ _ _ _ _. Qed.

Create HintDb recvk.
#[export] Hint Resolve keeps_ret keeps_get keeps_gets : recvk.
#[export] Hint Extern 2 (keeps recvOf _) => (intros ?; reflexivity) : recvk.
#[export] Hint Extern 3 (keeps recvOf _) => (apply recvOf_dataOf; solve [eauto with keeps]) : recvk.

(** Closes [keeps recvOf m] along the structure of [m]. *)
Ltac rkeeps := keeps_by ltac:(eauto 3 with recvk).

Lemma rk_maybeDone : keeps recvOf maybeDoneLocked.
Proof. unfold maybeDoneLocked. rkeeps. Qed.

Lemma rk_advanceSend to now : keeps recvOf (advanceSendLocked to now).
Proof. unfold advanceSendLocked, trimLane. rkeeps. Qed.
#[export] Hint Resolve rk_maybeDone rk_advanceSend : recvk.

Lemma rk_ack l flags a : keeps recvOf (ackLocked l flags a).
Proof. unfold ackLocked. rkeeps. Qed.

Lemma rk_rst p : keeps recvOf (rstLocked p).
Proof. unfold rstLocked. rkeeps. Qed.

Lemma rk_sched flags p : keeps recvOf (schedLocked flags p).
Proof. unfold schedLocked. rkeeps. Qed.

Lemma rk_requeue l : keeps recvOf (requeueLocked l).
Proof. unfold requeueLocked. rkeeps. Qed.

Lemma rk_closeWrite now : keeps recvOf (closeWriteLocked now).
Proof. unfold closeWriteLocked. rkeeps. Qed.
#[export] Hint Resolve rk_ack rk_rst rk_sched rk_requeue rk_closeWrite : recvk.

(** The calls that never touch the receive side. *)
Definition sendOnly {A} (c : call A) : bool :=
  match c with
  | CControl _ _ _ | CClose | CEnd _ | COpenWindow | CReadvertise | CEarlyVerdict _ _ _ _ => false
  | _ => true
  end.

Lemma rk_exec {A} (c : call A) : sendOnly c = true → keeps recvOf (exec c).
Proof.
  destruct c; try done; intros _; cbn [exec];
    unfold WriteBlocked, readEnter, readWoken, writeWoken, writeEmpty, CloseWrite, setDeadline, deadlineFired, wakeDirLocked,
      peerWindowLocked, applyRxNextLocked, laneGoneLocked, orderRemove, laneAddedLocked, routingChangedLocked,
      bumpAckLocked, takeFactsLocked, rescueLocked, routingChangedLocked, raceAttachLocked, wakeRescueLocked; rkeeps.
Qed.

(** ** The right edge *)

(** [s'] is [s] as the receive side sees it, with the right edge raised. *)
Definition edgeUp (s s' : Session) : Prop :=
  ∃ e, recvOf s' = recvOf (set_s_recv (set_rightEdge e (s_recv s)) s) ∧
       rightEdge (s_recv s) ≤ e ∧ (e = rightEdge (s_recv s) ∨ is_u64 e).

Lemma set_rightEdge_same r : set_rightEdge (rightEdge r) r = r.
Proof. by destruct r. Qed.

Lemma edgeUp_same s s' : recvOf s' = recvOf s → edgeUp s s'.
Proof.
  intros H. exists (rightEdge (s_recv s)). split_and!; [|lia|by left]. rewrite H. unfold recvOf.
  cbn [s_p s_recv s_app s_ctl budgetMax set_s_recv]. by rewrite set_rightEdge_same.
Qed.

Lemma edgeUp_trans s1 s2 s3 : edgeUp s1 s2 → edgeUp s2 s3 → edgeUp s1 s3.
Proof.
  intros (e & H1 & Hle & Hor) (e' & H2 & Hle' & Hor').
  unfold recvOf in H1. cbn [s_p s_recv s_app s_ctl budgetMax set_s_recv] in H1. injection H1 as Ha Hb Hc Hd He Hf.
  rewrite Hb in *. cbn [rightEdge set_rightEdge] in *.
  exists e'. split_and!; [|lia|].
  - rewrite H2. unfold recvOf. cbn [s_p s_recv s_app s_ctl budgetMax set_s_recv]. rewrite Ha, Hc, Hd, He, Hf. done.
  - destruct Hor' as [->|]; [|by right]. destruct Hor; [by left|by right].
Qed.

Lemma keeps_edgeUp {A} (m : M A) s : keeps recvOf m → edgeUp s (m s).2.
Proof. intros H. apply edgeUp_same, H. Qed.

Lemma edgeUp_raise s e : rightEdge (s_recv s) < e → is_u64 e → edgeUp s (set_s_recv (set_rightEdge e (s_recv s)) s).
Proof. intros H1 H2. exists e. split_and!; [done|lia|by right]. Qed.

Lemma raiseEdge_edgeUp s : edgeUp s (raiseEdgeLocked s).2.
Proof.
  unfold raiseEdgeLocked, bind, get, gets, when. cbv zeta. set (e := u64 (rRead _ + _)).
  destruct (Z.ltb_spec (rightEdge (s_recv s)) e) as [H|H]; [|by apply edgeUp_same].
  apply edgeUp_raise; [done|apply wrap_fits; lia].
Qed.

(** Partial postconditions of Fill's functions: a relation between the
    session before and after. *)
Definition fstep {A} (R : Session → Session → Prop) (m : FM A) : Prop :=
  ∀ b s a b' s', m b s = Ok (a, b', s') → R s s'.

Section FStep.
Context (R : Session → Session → Prop) (Rrefl : ∀ s, R s s) (Rtrans : ∀ s1 s2 s3, R s1 s2 → R s2 s3 → R s1 s3).

Lemma fstep_fret {A} (a : A) : fstep R (fret a).
Proof. by intros b s ? ? ? [= <- <- <-]. Qed.

Lemma fstep_fbind {A B} (m : FM A) (k : A → FM B) : fstep R m → (∀ a, fstep R (k a)) → fstep R (fbind m k).
Proof.
  intros Hm Hk b s a b' s'. unfold fbind. destruct (m b s) as [[[x b1] s1]| |] eqn:E; cbn [res_bind]; [|done|done].
  intros H. eapply Rtrans; [by eapply Hm|by eapply Hk].
Qed.

Lemma fstep_lift {A} (m : M A) : (∀ s, R s (m s).2) → fstep R (lift m).
Proof. intros H b s a b' s' [= <- <- <-]. apply H. Qed.

Lemma fstep_fpanic {A} : fstep R (@fpanic A).
Proof. done. Qed.

Lemma fstep_getB : fstep R getB.
Proof. by intros b s ? ? ? [= <- <- <-]. Qed.

Lemma fstep_modB f : fstep R (modB f).
Proof. by intros b s ? ? ? [= <- <- <-]. Qed.

Lemma fstep_add f : fstep R (add f).
Proof. intros b s a b' s'. unfold add. destruct (f b) as [[]| |]; cbn; [|done|done]. by intros [= <- <- <-]. Qed.

Lemma fstep_fwhen c m : fstep R m → fstep R (fwhen c m).
Proof. intros H. destruct c; [done|apply fstep_fret]. Qed.
End FStep.

Lemma edgeUp_refl s : edgeUp s s.
Proof. by apply edgeUp_same. Qed.

Create HintDb fstep.

Ltac fsteps :=
  repeat first
    [ progress intros
    | solve [eauto 2 with fstep]
    | apply fstep_fret; [exact edgeUp_refl]
    | apply fstep_fbind; [exact edgeUp_trans| | ]
    | apply fstep_fpanic
    | apply fstep_getB; [exact edgeUp_refl]
    | apply fstep_modB; [exact edgeUp_refl]
    | apply fstep_add; [exact edgeUp_refl]
    | apply fstep_fwhen; [exact edgeUp_refl|]
    | (apply fstep_lift; intros ?; apply keeps_edgeUp; rkeeps; fail)
    | match goal with
      | |- fstep _ (match ?x with _ => _ end) => destruct x
      | |- fstep _ (let '_ := ?x in _) => destruct x
      end ].

Lemma addData_edgeUp l off n retx sent : fstep edgeUp (addDataLocked l off n retx sent).
Proof. unfold addDataLocked. fsteps. Qed.
#[export] Hint Resolve addData_edgeUp : fstep.

Lemma rescueLoop_edgeUp fuel : ∀ l sp left sent, fstep edgeUp (rescueLoop fuel l sp left sent).
Proof. induction fuel; intros; cbn [rescueLoop]; fsteps. Qed.

Lemma retxLoop_edgeUp fuel : ∀ l left sent, fstep edgeUp (retxLoop fuel l left sent).
Proof. induction fuel; intros; cbn [retxLoop]; fsteps. Qed.

Lemma newLoop_edgeUp fuel : ∀ l left sent, fstep edgeUp (newLoop fuel l left sent).
Proof. induction fuel; intros; cbn [newLoop]; fsteps. Qed.

Lemma raceLoop_edgeUp fuel : ∀ l from lim left sent, fstep edgeUp (raceLoop fuel l from lim left sent).
Proof. induction fuel; intros; cbn [raceLoop]; fsteps. Qed.
#[export] Hint Resolve rescueLoop_edgeUp retxLoop_edgeUp newLoop_edgeUp raceLoop_edgeUp : fstep.

Lemma addFin_edgeUp l : fstep edgeUp (addFinLocked l).
Proof. unfold addFinLocked, finPlaced. fsteps. Qed.
#[export] Hint Resolve addFin_edgeUp : fstep.

(** The ACK raises the edge it advertises, and restores it when the batch
    refuses the frame. *)
Lemma fillAck_edgeUp l : fstep edgeUp (fillAckLocked l).
Proof.
  unfold fillAckLocked. apply fstep_fbind; [exact edgeUp_trans|fsteps|]. intros s.
  apply fstep_fbind; [exact edgeUp_trans|fsteps|]. intros b.
  apply fstep_fbind; [exact edgeUp_trans|fsteps|]. intros [].
  intros b0 s0 a b' s'. unfold fbind, lift at 1, get. cbn [res_bind fst snd].
  destruct (l_ackSent (lane_at s0 l) =? ackGen (s_ack s0)); [by intros [= <- <- <-]; apply edgeUp_refl|].
  unfold lift at 1. cbn [res_bind fst snd]. pose proof (raiseEdge_edgeUp s0) as Hup.
  set (s1 := (raiseEdgeLocked s0).2) in *. unfold add.
  destruct (AddAck _ _ _ b0) as [[ok b1]| |]; cbn [res_bind fst snd]; [|done|done].
  destruct ok; cbn [negb].
  - unfold lift. intros [= <- <- <-]. eapply edgeUp_trans; [exact Hup|]. apply keeps_edgeUp. rkeeps.
  - unfold lift. intros [= <- <- <-]. destruct Hup as (e & He & _ & _). apply edgeUp_same.
    unfold recvOf in *. cbn in He |- *. injection He as -> -> -> -> -> ->. cbn. by destruct (s_recv s0).
Qed.
#[export] Hint Resolve fillAck_edgeUp : fstep.

Lemma fill_edgeUp l : fstep edgeUp (Fill l).
Proof.
  unfold Fill, muxFillLocked, placeGoLocked, fillLocked, fillControlLocked, fillFirstLocked, addFirstLocked,
    raceFinLocked, fillDataLocked, raceFillDataLocked. fsteps.
Qed.

(** ** One frame, one read *)

Section Deliver.
Context (S : Z → Z).

Lemma RInv_edge limit r e :
  RInv S limit r → rightEdge r ≤ e → (e = rightEdge r ∨ is_u64 e) → RInv S limit (set_rightEdge e r).
Proof.
  intros [Hb Ha Hr [He Hx] Hf Hc Hu] Hle Hor. unfold fits in Hor.
  constructor; cbn [set_rightEdge rb rRead rightEdge peerFin peerFinSet]; try done.
  - split; [lia|]. intros x Hxx. specialize (Hx x Hxx). lia.
  - intros Hs. destruct (Hf Hs). split; [lia|done].
Qed.

(** The receive side after a frame: nothing is lost, the read position moves
    only for a closed session, and what decides EOF stays. *)
Record rgrow (s s' : Session) : Prop := {
  rg_ctx : ctx s' = ctx s;
  rg_inv : RInv S (recvLimit s) (s_recv s');
  rg_tail : rTail (rb (s_recv s)) ≤ rTail (rb (s_recv s'));
  rg_read : rRead (s_recv s') = rRead (s_recv s) ∨ discard (s_recv s) = true;
  rg_le : rRead (s_recv s) ≤ rRead (s_recv s');
  rg_fin : peerFin (s_recv s') = peerFin (s_recv s) ∧ peerFinSet (s_recv s') = peerFinSet (s_recv s);
  rg_copy : rcopying (s_recv s') = rcopying (s_recv s);
  rg_disc : discard (s_recv s') = discard (s_recv s)
}.

Lemma rgrow_accepted s s' off e buf D :
  RInv S (recvLimit s) (s_recv s) → accepted S s s' off e buf D → rgrow s s'.
Proof.
  intros Hinv [Hc Hi _ _ _ Ht _ Hr _ Hf]. unfold flags in Hf. injection Hf as H1 H2 H3 H4 H5 H6.
  pose proof (ri_read _ _ _ Hinv). constructor; try done.
  - destruct (discard (s_recv s)); [by right|left; done].
  - rewrite Hr. case_match; lia.
Qed.

Lemma rgrow_released s buf : RInv S (recvLimit s) (s_recv s) → rgrow s (released s buf).
Proof.
  intros Hinv. pose proof (RInv_releaseBuf S _ _ buf Hinv). constructor; try done; unfold released; cbn;
    [rewrite releaseBuf_eq; cbn; lia|by left].
Qed.

Lemma recvData_any s off n buf :
  RInv S (recvLimit s) (s_recv s) → is_u64 off → 0 ≤ n < 2 ^ 64 → buf_ok buf n →
  wp (recvDataLocked off (rng S off n) buf) (λ err s', err ≠ Some EPanic ∧ rgrow s s') s.
Proof.
  intros Hinv Ho Hn Hbuf. pose proof (ri_edge _ _ _ Hinv) as [He _]. unfold fits in Ho.
  destruct (recvData_reject S s S off n buf Hinv Ho Hn) as (R1 & R2 & R3 & _).
  assert (∀ v, recvDataLocked off (rng S off n) buf s = (Some (EViolation v), released s buf) →
    wp (recvDataLocked off (rng S off n) buf) (λ err s', err ≠ Some EPanic ∧ rgrow s s') s) as Href.
  { intros v E. unfold wp. rewrite E. split; [done|by apply rgrow_released]. }
  destruct (decide (n = 0 ∨ 2 ^ 64 ≤ off + n)) as [H1|H1]; [by eapply Href, R1|].
  destruct (decide (rightEdge (s_recv s) < off + n)) as [H2|H2]; [eapply Href, R2; lia|].
  destruct (decide (peerFinSet (s_recv s) = true ∧ peerFin (s_recv s) < off + n)) as [[H3 H4]|H3];
    [eapply Href, R3; lia || done|].
  eapply wp_mono; [apply (recvData_wp S s off n buf); try done; try lia|].
  - intros Hfs. destruct (decide (off + n ≤ peerFin (s_recv s))); [done|]. exfalso. apply H3. split; [done|lia].
  - intros err s' (-> & D & Hacc). split; [done|]. by eapply rgrow_accepted.
Qed.

Lemma rgrow_keeps s s1 s2 : rgrow s s1 → dataOf s2 = dataOf s1 → rgrow s s2.
Proof.
  intros [] Hd. pose proof (ctx_dataOf _ _ Hd). apply dataOf_inv in Hd as (_ & _ & H3 & _).
  constructor; rewrite ?H3; try done. congruence.
Qed.

Lemma rgrow_early s s' n :
  rgrow s s' → rgrow s (set_s_recv (set_earlyBytes n (s_recv s')) s').
Proof.
  intros []. constructor; try done. cbn [s_recv set_s_recv]. by eapply RInv_same; [..|exact rg_inv0].
Qed.

(** A frame on a live session, whatever its offset and length: the endpoint
    does not panic and the receive side only grows. *)
Lemma data_spec s l off n buf :
  ended (s_app s) = false → RInv S (recvLimit s) (s_recv s) → is_u64 off → 0 ≤ n < 2 ^ 64 → buf_ok buf n →
  wp (Data l off (rng S off n) buf) (λ err s', err ≠ Some EPanic ∧ rgrow s s') s.
Proof.
  intros Hend Hinv Ho Hn Hbuf. unfold Data. wp_step. wp_step. cbv zeta.
  apply wp_bind, wp_mono with (P := λ err s', err ≠ Some EPanic ∧ rgrow s s').
  2:{ intros err s' [He Hg]. wp_step. apply wp_when; intros _; [|by wp_step].
      apply wp_keeps; [apply keeps_gapAck|]. intros _ s'' Hs''. wp_step. split; [done|by eapply rgrow_keeps]. }
  unfold dataLocked. wp_step. wp_step. rewrite Hend.
  destruct (pendingLocked s); [|by apply recvData_any].
  unfold earlyDataLocked. wp_step. wp_step. rewrite len_rng by lia. cbv zeta.
  destruct (_ || _ || _).
  { unfold upd_rb. wp_steps. split; [done|]. by apply rgrow_released. }
  wp_step. set (e := earlyEnd (s_p s)).
  assert (∀ s1, s1 = s ∨ (rightEdge (s_recv s) < e ∧ s1 = set_s_recv (set_rightEdge e (s_recv s)) s) →
    wp (do err <- recvDataLocked off (rng S off n) buf;
        run upd_recv (λ r, set_earlyBytes (u64 (rxBytes (rb r) + segs_bytes (ooq (rb r)))) r); ret err)
       (λ err s', err ≠ Some EPanic ∧ rgrow s s') s1) as Hgo.
  { intros s1 Hs1. assert (recvLimit s1 = recvLimit s ∧ ctx s1 = ctx s ∧ rb (s_recv s1) = rb (s_recv s) ∧
      rRead (s_recv s1) = rRead (s_recv s) ∧ peerFin (s_recv s1) = peerFin (s_recv s) ∧
      peerFinSet (s_recv s1) = peerFinSet (s_recv s) ∧ rcopying (s_recv s1) = rcopying (s_recv s) ∧
      discard (s_recv s1) = discard (s_recv s) ∧ RInv S (recvLimit s) (s_recv s1))
      as (E1 & E2 & E3 & E4 & E5 & E6 & E7 & E8 & Hinv1).
    { destruct Hs1 as [->|[Hlt ->]]; [by split_and!|]. split_and!; try done. cbn [s_recv set_s_recv].
      apply RInv_edge; [done|lia|]. right. unfold e, earlyEnd. apply wrap_fits. lia. }
    wp_step. eapply wp_mono; [apply recvData_any; rewrite ?E1; done|]. intros err s2 [He [G1 G2 G3 G4 G5 G6 G7 G8]].
    rewrite ?E1, ?E3, ?E4, ?E5, ?E6, ?E7, ?E8 in *. wp_steps. split; [done|]. apply rgrow_early. constructor; try done; congruence. }
  apply wp_when; intros He.
  - wp_step. apply Hgo. right. split; [lia|done].
  - apply Hgo. by left.
Qed.

(** The views of a Read are the next bytes of the stream, and at least one. *)
Lemma viewsLoop_spec l : ∀ lo hi nv x want,
  Forall (seg_wf S) l → chain lo l hi → lo ≤ x → 0 ≤ x → 0 ≤ want → x + want ≤ hi → hi < 2 ^ 64 →
  ∃ v, viewsLoop l nv x want = Some v ∧ v = rng S x (len v) ∧ len v ≤ want ∧
       (0 < want → (0 < nv)%nat → 0 < len v).
Proof.
  induction l as [|sg l IH]; intros lo hi nv x want Hw Hc Hlo Hx Hwn Hhi H64; cbn [viewsLoop].
  { cbn in Hc. subst. exists []. rewrite len_nil. split_and!; [done|done|lia|lia]. }
  inversion Hw as [|? ? Hsg Hwl]; subst. destruct Hc as [Ho Hc].
  destruct nv as [|nv]; [exists []; rewrite len_nil; split_and!; [done|done|lia|lia]|].
  destruct (Z.leb_spec want 0); [exists []; rewrite len_nil; split_and!; [done|done|lia|lia]|].
  rewrite (sg_end_wf S sg Hsg). destruct (Z.leb_spec (e_of sg) x) as [Hle|Hgt].
  { destruct (IH (e_of sg) hi (Datatypes.S nv) x want) as (v & H1); try done. by exists v. }
  pose proof Hsg as [_ Hlen _ Hb _ _ _]. unfold e_of in *.
  rewrite Hb, len_rng, sub_rng by lia.
  set (k := len (sg_b sg) - (x - sg_off sg)). replace (sg_off sg + (x - sg_off sg)) with x by lia.
  rewrite len_rng, take_rng, len_rng by lia. set (m := Z.min k want).
  assert (0 < m ≤ want ∧ m ≤ k) as (Hm0 & Hmk) by lia.
  rewrite wrap_small by (unfold fits; lia).
  assert (x + m ≤ hi) by lia.
  destruct (decide (want - m = 0)) as [Hz|Hz].
  - assert (viewsLoop l nv (x + m) (want - m) = Some []) as ->.
    { rewrite Hz. destruct l; [done|]. cbn [viewsLoop]. destruct nv; [done|]. done. }
    exists (rng S x m). rewrite app_nil_r, len_rng by lia. split_and!; [done|done|lia|lia].
  - assert (x + m = sg_off sg + len (sg_b sg)) as Hxm by lia.
    destruct (IH (sg_off sg + len (sg_b sg)) hi nv (x + m) (want - m)) as (v & -> & Hv & Hle & _); try done; try lia.
    exists (rng S x m ++ v). rewrite len_app, len_rng by lia. pose proof (len_nonneg v).
    split_and!; [done| |lia|lia]. rewrite Hv at 1. rewrite <- rng_app by lia. done.
Qed.

Lemma RInv_tail_fin limit r :
  RInv S limit r → 0 ≤ rRead r ≤ rTail (rb r) ∧ rTail (rb r) < 2 ^ 64 ∧
  (peerFinSet r = true → rTail (rb r) ≤ peerFin r).
Proof.
  intros Hinv. pose proof (RInv_tail S _ _ Hinv) as [H0 H1]. destruct Hinv as [(lo & Hp & Hlo) _ Hr [He _] Hf _ _].
  split_and!; try done; [by apply Hp|]. intros Hs. destruct (Hf Hs) as [Hb Hx].
  destruct (decide (rTail (rb r) ≤ peerFin r)); [done|].
  specialize (Hx (rTail (rb r) - 1)). unfold received in Hx. rewrite elem_of_union, elem_of_range in Hx.
  specialize (Hx ltac:(lia)). lia.
Qed.

Lemma RInv_mono L L' r : RInv S L r → L ≤ L' → RInv S L' r.
Proof. intros [? ? ? ? ? Hc ?] ?. constructor; try done. unfold capok in *. destruct Hc; [by left|right; lia]. Qed.

(** ** The world of the receive side *)

(** A session with what its application saw: the bytes a Read copies outside
    the lock, the bytes Reads have returned, and whether one returned EOF. *)
Record rworld := RW { rw_s : Session; rw_view : option bytes; rw_got : bytes; rw_eof : bool }.

Definition charge (used : Z) (b : rbuf) : rbuf :=
  RBuf (rTail b) (inq b) (ooq b) (oooCap b) (oooDropped b) (rxBytes b) used.

(** What happens between two critical sections: the actor routes lanes and
    moves its state (a session never returns to pending), ports report, the
    Budget and the wake tokens change; the stream's own fields stay. *)
Record env (s s' : Session) : Prop := {
  env_p : s_p s' = s_p s;
  env_send : s_send s' = s_send s;
  env_recv : ∃ used eo, s_recv s' = set_earlyOpen eo (set_rb (charge used (rb (s_recv s))) (s_recv s));
  env_fin : s_fin s' = s_fin s;
  env_closed : closed (s_app s') = closed (s_app s);
  env_ended : ended (s_app s') = ended (s_app s) ∧ endErr (s_app s') = endErr (s_app s);
  env_state : c_state (s_ctl s') = StatePending → c_state (s_ctl s) = StatePending;
  env_order : order s' = order s;
  env_heap : ∀ i, l_infl (lane_at s' i) = l_infl (lane_at s i);
  env_rnext : ∀ i, l_rnext (lane_at s' i) = l_rnext (lane_at s i)
}.

(** A control payload is a byte string; the actor ends a session with io.EOF
    only once our DONE was sent, which follows the delivery of the peer's FIN
    (doneOr, death.go). *)
Definition callOk {A} (s : Session) (c : call A) : Prop :=
  match c with
  | CEnd (Some EEOF) => peerFinSet (s_recv s) = true ∧ rRead (s_recv s) = peerFin (s_recv s)
  | CControl _ _ p => Bytes p
  | _ => True
  end.

(** The world after the first part of a Read. *)
Definition readWorld (g : bytes) (e : bool) (r : readStart) (s : Session) : rworld :=
  match r with
  | RView v => RW s (Some v) g e
  | RErr EEOF => RW s None g true
  | _ => RW s None g e
  end.

Inductive rstep : rworld → rworld → Prop :=
| st_data s v g e l off n buf :
    is_u64 off → 0 ≤ n < 2 ^ 64 → buf_ok buf n →
    rstep (RW s v g e) (RW (Data l off (rng S off n) buf s).2 v g e)
| st_call A (c : call A) s v g e :
    callOk s c → rstep (RW s v g e) (RW (exec c s).2 v g e)
| st_fill l b b' s s' a v g e :
    Fill l b s = Ok (a, b', s') → rstep (RW s v g e) (RW s' v g e)
| st_write_begin grant n s v g e :
    rstep (RW s v g e) (RW (writeRoundLocked grant n s).2 v g e)
| st_write_copy p s v g e :
    rstep (RW s v g e) (RW (writeCopy p s).2 v g e)
| st_write_commit k s v g e :
    rstep (RW s v g e) (RW (writeCommit k s).2 v g e)
| st_read_begin n s g e :
    0 ≤ n →
    rstep (RW s None g e)
          (readWorld g e (readBegin n s).1 (readBegin n s).2)
| st_read_commit s v g e :
    rstep (RW s (Some v) g e)
          (RW (readCommit (len v) s).2 None
              (match (readCommit (len v) s).1 with inl n => g ++ take (Z.to_nat n) v | inr _ => g end) e)
| st_env s s' v g e :
    env s s' → rstep (RW s v g e) (RW s' v g e).

(** The invariant of the receive side over executions from offset [first]. *)
Record DInv (first : Z) (w : rworld) : Prop := {
  d_base : let r := s_recv (rw_s w) in
    0 ≤ first ∧ first ≤ rRead r ≤ rTail (rb r) ∧ rTail (rb r) < 2 ^ 64 ∧
    (peerFinSet r = true → rTail (rb r) ≤ peerFin r);
  d_live : ended (s_app (rw_s w)) = false → RInv S (recvLimit (rw_s w)) (s_recv (rw_s w));
  d_disc : discard (s_recv (rw_s w)) = true → closed (s_app (rw_s w)) = true;
  d_view : let r := s_recv (rw_s w) in
    match rw_view w with
    | Some v => rcopying r = true ∧
        (closed (s_app (rw_s w)) = false → rRead r + len v ≤ rTail (rb r) ∧ v = rng S (rRead r) (len v))
    | None => rcopying r = false
    end;
  d_got : ∃ k, 0 ≤ k ∧ first + k ≤ rRead (s_recv (rw_s w)) ∧ rw_got w = rng S first k ∧
    (closed (s_app (rw_s w)) = false → first + k = rRead (s_recv (rw_s w)));
  d_end : ended (s_app (rw_s w)) = true → endErr (s_app (rw_s w)) = EEOF →
    peerFinSet (s_recv (rw_s w)) = true ∧ rRead (s_recv (rw_s w)) = peerFin (s_recv (rw_s w));
  d_eof : rw_eof w = true → rw_view w = None ∧ peerFinSet (s_recv (rw_s w)) = true ∧
    rRead (s_recv (rw_s w)) = peerFin (s_recv (rw_s w)) ∧
    rw_got w = rng S first (peerFin (s_recv (rw_s w)) - first);
  d_win : EarlyWindow ≤ window (s_p (rw_s w))
}.

(** What a step that returns nothing to the application must guarantee. *)
Record rmove (s s' : Session) : Prop := {
  rm_app : closed (s_app s) = true → closed (s_app s') = true;
  rm_end : ended (s_app s') = true →
    ended (s_app s) = true ∧ endErr (s_app s') = endErr (s_app s) ∨
    (endErr (s_app s') = EEOF → peerFinSet (s_recv s) = true ∧ rRead (s_recv s) = peerFin (s_recv s));
  rm_live : ended (s_app s') = false → RInv S (recvLimit s') (s_recv s');
  rm_read : rRead (s_recv s) ≤ rRead (s_recv s') ≤ rTail (rb (s_recv s'));
  rm_same : closed (s_app s') = false → rRead (s_recv s') = rRead (s_recv s);
  rm_tail : rcopying (s_recv s) = true → rTail (rb (s_recv s)) ≤ rTail (rb (s_recv s'));
  rm_fin : (peerFinSet (s_recv s) = true → peerFinSet (s_recv s') = true ∧ peerFin (s_recv s') = peerFin (s_recv s)) ∧
    (peerFinSet (s_recv s') = true → rTail (rb (s_recv s')) ≤ peerFin (s_recv s'));
  rm_bound : rTail (rb (s_recv s')) < 2 ^ 64;
  rm_copy : rcopying (s_recv s') = rcopying (s_recv s);
  rm_disc : discard (s_recv s') = true → closed (s_app s') = true;
  rm_p : s_p s' = s_p s
}.

Lemma rmove_inv first s s' v g e : rmove s s' → DInv first (RW s v g e) → DInv first (RW s' v g e).
Proof.
  intros [M1 M2 M3 M4 M5 M7 [M8 M8'] M9 M10 M11 M12] [B L D V (k & K1 & K2 & K3 & K4) E F W].
  cbn [rw_s rw_view rw_got rw_eof] in *. destruct B as (B0 & B1 & B2 & B3).
  assert (closed (s_app s') = false → closed (s_app s) = false) as Hcl.
  { intros Hc. destruct (closed (s_app s)); [|done]. by rewrite M1 in Hc. }
  assert (peerFinSet (s_recv s) = true → rRead (s_recv s) = peerFin (s_recv s) →
    peerFinSet (s_recv s') = true ∧ rRead (s_recv s') = peerFin (s_recv s')) as Heof.
  { intros H1 H2. destruct (M8 H1) as [H3 H4]. split; [done|]. specialize (M8' H3). lia. }
  constructor; cbn [rw_s rw_view rw_got rw_eof]; try done.
  - split_and!; try done; lia.
  - destruct v as [v|]; [|congruence]. destruct V as [V1 V2]. split; [congruence|]. intros Hc.
    specialize (M5 Hc). destruct (V2 (Hcl Hc)) as [V3 V4]. specialize (M7 V1). rewrite M5. split; [lia|done].
  - exists k. split_and!; try done; [lia|]. intros Hc. rewrite (M5 Hc). auto.
  - intros H1 H2. destruct (M2 H1) as [[H3 H4]|H3].
    + destruct (E H3); [congruence|]. by apply Heof.
    + destruct (H3 H2). by apply Heof.
  - intros He. destruct (F He) as (F1 & F2 & F3 & F4). destruct (Heof F2 F3) as [H1 H2]. destruct (M8 F2) as [_ H3].
    split_and!; try done. by rewrite H3.
  - by rewrite M12.
Qed.

(** The part of the invariant a step starts from. *)
Definition sinv (s : Session) : Prop :=
  0 ≤ rRead (s_recv s) ≤ rTail (rb (s_recv s)) ∧ rTail (rb (s_recv s)) < 2 ^ 64 ∧
  (peerFinSet (s_recv s) = true → rTail (rb (s_recv s)) ≤ peerFin (s_recv s)) ∧
  (ended (s_app s) = false → RInv S (recvLimit s) (s_recv s)) ∧
  (discard (s_recv s) = true → closed (s_app s) = true).

Lemma DInv_sinv first s v g e : DInv first (RW s v g e) → sinv s.
Proof. intros [(H0 & H1 & H2 & H3) H4 H5 _ _ _ _ _]. cbn in *. unfold sinv. split_and!; try done; lia. Qed.

Lemma rmove_edge s s' : sinv s → edgeUp s s' → rmove s s'.
Proof.
  intros (H0 & H1 & H2 & H3 & H4) (e & He & Hle & Hor). unfold recvOf in He.
  cbn [s_p s_recv s_app s_ctl set_s_recv] in He. injection He as E1 E2 E3 E4 E5 E6.
  assert (recvLimit s' = recvLimit s) as Hl by (unfold recvLimit, pendingLocked; by rewrite E1, E6).
  constructor; rewrite ?E2, ?E3, ?E4, ?E5; cbn; try done.
  - by left.
  - intros Hn. rewrite Hl. apply RInv_edge; auto.
  - lia.
Qed.

Lemma rmove_same s s' : sinv s → recvOf s' = recvOf s → rmove s s'.
Proof. intros Hs Hr. apply rmove_edge; [done|]. by apply edgeUp_same. Qed.

Lemma rmove_grow s s' : sinv s → ended (s_app s) = false → rgrow s s' → rmove s s'.
Proof.
  intros (H0 & H1 & H2 & H3 & H4) He [G1 G2 G3 G4 G5 [G6 G7] G8 G9].
  pose proof (ctx_limit _ _ G1) as Hl. unfold ctx in G1. injection G1 as Hp _ _ Hc Hn _.
  destruct (RInv_tail_fin _ _ G2) as (T1 & T2 & T3). constructor.
  - congruence.
  - congruence.
  - intros _. by rewrite Hl.
  - lia.
  - intros Hcl. destruct G4 as [|G4]; [done|]. apply H4 in G4. congruence.
  - done.
  - split; [intros ?; split; congruence|done].
  - done.
  - done.
  - intros Hd. rewrite Hc. apply H4. congruence.
  - done.
Qed.

Lemma rmove_data s l off n buf :
  sinv s → is_u64 off → 0 ≤ n < 2 ^ 64 → buf_ok buf n → rmove s (Data l off (rng S off n) buf s).2.
Proof.
  intros Hs Ho Hn Hb. destruct (ended (s_app s)) eqn:He.
  - assert (recvOf (Data l off (rng S off n) buf s).2 = recvOf (released s buf)) as Hr.
    { unfold Data, dataLocked, bind, get. rewrite He. unfold upd_rb, upd_recv, modify, ret, when, bind.
      pose proof (recvOf_dataOf _ (keeps_gapAck l off (rTail (rb (s_recv s)))) (released s buf)) as Hk.
      fold (released s buf). by destruct (gapAckLocked l off (rTail (rb (s_recv s))) (released s buf)). }
    destruct Hs as (H0 & H1 & H2 & H3 & H4).
    apply recvOf_inv in Hr as (E1 & E2 & E3 & E4 & E5 & E6).
    constructor; rewrite ?E2, ?E3, ?E4, ?E5; unfold released; cbn; rewrite ?releaseBuf_eq; cbn; try done.
    + by left.
    + congruence.
    + lia.
  - apply rmove_grow; [done|done|]. destruct Hs as (_ & _ & _ & H3 & _).
    exact (proj2 (data_spec s l off n buf He (H3 He) Ho Hn Hb)).
Qed.

Lemma rmove_fin s off : sinv s → ended (s_app s) = false → 0 ≤ off → rmove s (finLocked off s).2.
Proof.
  intros Hs He Ho. pose proof Hs as (H0 & H1 & H2 & H3 & H4).
  pose proof (fin_wp S s off (H3 He) Ho) as (F1 & F2 & F3 & F4 & F5 & F6 & F7 & F8 & _).
  pose proof (ctx_limit _ _ F1) as Hl. unfold ctx in F1. injection F1 as Hp _ _ Hc Hn _.
  destruct (RInv_tail_fin _ _ F2) as (T1 & T2 & T3). set (s' := (finLocked off s).2) in *. constructor.
  - congruence.
  - congruence.
  - intros _. by rewrite Hl.
  - lia.
  - done.
  - intros _. rewrite F4. lia.
  - done.
  - done.
  - done.
  - intros Hd. rewrite Hc. apply H4. congruence.
  - done.
Qed.


Lemma rmove_control s l h p : sinv s → Bytes p → rmove s (Control l h p s).2.
Proof.
  intros Hs HB. unfold Control, bind at 1, get at 1. cbn beta iota.
  destruct (ended (s_app s)) eqn:He; [by apply rmove_same|].
  destruct (h_Type h =? TypeRst); [by apply rmove_same, rk_rst|].
  destruct (pendingLocked s); [by apply rmove_same|].
  destruct (h_Type h =? TypeAck).
  { unfold wireErr. case_match; try by apply rmove_same. by apply rmove_same, rk_ack. }
  destruct (h_Type h =? TypeFin).
  { unfold wireErr. destruct (Fin.ParseFin p) as [off| |] eqn:Hp; try by apply rmove_same.
    apply rmove_fin; [done|done|]. apply Fin.fin_parse_inv in Hp as [[? _] _]; done. }
  destruct (h_Type h =? TypeSched); [by apply rmove_same, rk_sched|by apply rmove_same].
Qed.

(** The fields of the receive side a release of buffers leaves alone. *)
Definition appOf (s : Session) := (s_p s, closed (s_app s), ended (s_app s), endErr (s_app s), c_state (s_ctl s)).

Lemma releaseConsumed_tail b x : rTail (releaseConsumed b x) = rTail b.
Proof. unfold releaseConsumed. by destruct (releaseConsumed_loop (inq b) x 0). Qed.

Lemma peerFinCheck_appOf s : wp peerFinCheckLocked (λ _ s', appOf s' = appOf s) s.
Proof.
  unfold peerFinCheckLocked. wp_steps. case_match; [by wp_step|]. wp_steps.
  apply wp_keeps; [apply keeps_bumpNow|]. intros _ s' Hs'.
  assert (appOf s' = appOf s) as Ha.
  { apply dataOf_inv in Hs' as (H1 & _ & _ & _ & H5 & H6 & _). unfold appOf. cbn in *. by rewrite H1, H5, H6. }
  wp_steps. apply wp_when; intros _; [wp_step|]; (etrans; [|exact Ha]); reflexivity.
Qed.

Lemma ack_fin_weak s :
  wp (run ackCadenceLocked; peerFinCheckLocked) (λ _ s', appOf s' = appOf s ∧
    (s_recv s' = s_recv s ∨ s_recv s' = set_peerFinDelivered true (s_recv s))) s.
Proof.
  wp_steps. apply wp_keeps; [apply keeps_ackCadence|]. intros _ s1 Hs1.
  apply dataOf_inv in Hs1 as (D1 & _ & D3 & _ & D5 & D6 & _).
  eapply wp_mono; [apply wp_and; [apply peerFinCheck_wp|apply peerFinCheck_appOf]|].
  intros _ s2 ((_ & _ & _ & _ & _ & Hr) & Ha). split.
  - rewrite Ha. unfold appOf. by rewrite D1, D5, D6.
  - rewrite Hr, D3. destruct (peerFinSet (s_recv s)); cbn [andb]; [|by left]. destruct (rRead (s_recv s) =? _); [right|left]; reflexivity.
Qed.

(** Discarding without the buffer invariant (an ended session). *)
Lemma consumeAll_weak s :
  0 ≤ rRead (s_recv s) ≤ rTail (rb (s_recv s)) → rTail (rb (s_recv s)) < 2 ^ 64 →
  wp consumeAllLocked (λ _ s', appOf s' = appOf s ∧
    rRead (s_recv s') = rTail (rb (s_recv s)) ∧ rTail (rb (s_recv s')) = rTail (rb (s_recv s)) ∧
    flags (s_recv s') = flags (s_recv s)) s.
Proof.
  intros H0 H1. unfold consumeAllLocked. wp_step. wp_step. cbv zeta. rewrite wrap_small by (unfold fits; lia).
  destruct (Z.eqb_spec (rTail (rb (s_recv s)) - rRead (s_recv s)) 0); [wp_step; split_and!; try done; lia|].
  wp_step. wp_step. wp_step. wp_step. wp_step.
  assert (∀ s1, appOf s1 = appOf s → rRead (s_recv s1) = rTail (rb (s_recv s)) →
    rTail (rb (s_recv s1)) = rTail (rb (s_recv s)) → flags (s_recv s1) = flags (s_recv s) →
    wp (run ackCadenceLocked; run peerFinCheckLocked; ret (rTail (rb (s_recv s)) - rRead (s_recv s)))
      (λ _ s', appOf s' = appOf s ∧ rRead (s_recv s') = rTail (rb (s_recv s)) ∧
        rTail (rb (s_recv s')) = rTail (rb (s_recv s)) ∧ flags (s_recv s') = flags (s_recv s)) s1) as Hgo.
  { intros s1 A1 A2 A3 A4. apply wp_bind_assoc. eapply wp_mono; [apply ack_fin_weak|].
    intros _ s2 [B1 B2]. wp_step. rewrite B1. destruct B2 as [->| ->]; by split_and!. }
  destruct (rcopying (s_recv s)) eqn:Hrc; wp_step; apply Hgo; cbn; rewrite ?releaseConsumed_tail; done.
Qed.

Lemma rmove_close s : sinv s → rmove s (Close s).2.
Proof.
  intros Hs. pose proof Hs as (H0 & H1 & H2 & H3 & H4). apply (wp_mono Close (λ _ s', rmove s s') (λ _ s', rmove s s')); [|done].
  unfold Close. wp_step. apply wp_keeps; [apply keeps_Now|]. intros now s0 Hs0.
  assert (recvOf s0 = recvOf s) as Hr0.
  { apply dataOf_inv in Hs0 as (D1 & _ & D3 & _ & D5 & D6 & _). unfold recvOf. by rewrite D1, D3, D5, D6. }
  apply recvOf_inv in Hr0 as (E1 & E2 & E3 & E4 & E5 & E6).
  wp_step. apply wp_mono with (P := λ _ s', rmove s s').
  2:{ intros _ s' Hm. wp_step. destruct Hm. by constructor. }
  unfold closeLocked. wp_step. wp_step. destruct (closed (s_app s0)) eqn:Hc0.
  { wp_step. apply rmove_same; [done|]. apply dataOf_inv in Hs0 as (D1 & _ & D3 & _ & D5 & D6 & _).
    unfold recvOf. by rewrite D1, D3, D5, D6. }
  wp_step. wp_step. wp_step. wp_step. wp_step.
  set (s1 := set_s_app _ (set_s_app _ s0)).
  pose proof (rk_closeWrite now s1) as Hk. apply wp_mono with (P := λ _ s2, recvOf s2 = recvOf s1); [exact Hk|].
  intros _ s2 Hr2. unfold recvOf in Hr2. cbn in Hr2. injection Hr2 as R1 R2 R3 R4 R5 R6.
  wp_step. wp_step. wp_step. wp_step.
  set (s3 := set_s_recv (set_discard true (s_recv s2)) s2).
  assert (recvLimit s3 = recvLimit s) as Hl3.
  { rewrite <- E6. unfold recvLimit, pendingLocked. cbn. by rewrite R1, R6. }
  assert (rRead (s_recv s3) = rRead (s_recv s) ∧ rb (s_recv s3) = rb (s_recv s)) as [Q1 Q2] by (cbn; by rewrite R2, E2).
  pose proof (consumeAll_weak s3 ltac:(rewrite Q1, Q2; lia) ltac:(rewrite Q2; lia)) as Hweak.
  assert (ended (s_app s) = false → wp consumeAllLocked (λ _ s', RInv S (recvLimit s) (s_recv s')) s3) as Hstrong.
  { intros He. eapply wp_mono; [apply (consumeAll_wp S (recvLimit s))|by intros ? ? (_ & _ & ? & _)].
    eapply RInv_same; [..|exact (H3 He)]; cbn; by rewrite R2, E2. }
  assert (wp consumeAllLocked (λ _ s', rmove s s') s3) as Hc.
  { unfold wp in *. set (s4 := (consumeAllLocked s3).2) in *. destruct Hweak as (W1 & W2 & W3 & W4).
    unfold appOf in W1. injection W1 as P1 P2 P3 P4 P5. cbn in P1, P2, P3, P4, P5.
    assert (recvLimit s4 = recvLimit s) as Hl4 by (rewrite <- Hl3; unfold recvLimit, pendingLocked; by rewrite P1, P5).
    unfold flags in W4. injection W4 as F1 F2 F3 F4 F5 F6. cbn in F1, F2, F3, F4, F5, F6. rewrite R2, E2 in F1, F2, F4.
    rewrite Q2 in W2, W3. rewrite R3 in P2. rewrite R4, E4 in P3. rewrite R5, E5 in P4. constructor.
    - done.
    - intros Hx. left. split; congruence.
    - intros Hx. rewrite Hl4. apply Hstrong. congruence.
    - lia.
    - intros Hx. congruence.
    - intros _. lia.
    - rewrite F1, F2, W3. done.
    - lia.
    - done.
    - done.
    - congruence. }
  eapply wp_mono; [exact Hc|]. intros d s4 Hm. wp_step. wp_step. wp_step. wp_step.
  assert (∀ s5, recvOf s5 = recvOf s4 → rmove s s5) as Hgo.
  { intros s5 Hr5. apply recvOf_inv in Hr5 as (X1 & X2 & X3 & X4 & X5 & X6).
    destruct Hm. constructor; rewrite ?X1, ?X2, ?X3, ?X4, ?X5, ?X6; done. }
  apply wp_when; intros _; [wp_step|]; wp_step; (apply wp_when; intros _; [wp_step|]); wp_step; by apply Hgo.
Qed.

Lemma rmove_end s err :
  sinv s → callOk s (CEnd err) → rmove s (endLocked err s).2.
Proof.
  intros Hs Hok. pose proof Hs as (H0 & H1 & H2 & H3 & H4).
  apply (wp_mono (endLocked err) (λ _ s', rmove s s') (λ _ s', rmove s s')); [|done].
  unfold endLocked. wp_step. wp_step. destruct (ended (s_app s)) eqn:He; [wp_step; by apply rmove_same|].
  assert (∀ s1, s_p s1 = s_p s → closed (s_app s1) = closed (s_app s) → ended (s_app s1) = true →
    endErr (s_app s1) = default EClosed err →
    (s_recv s1 = set_rb (releaseOOO (rb (s_recv s))) (set_rfreePending true (s_recv s)) ∨
     rcopying (s_recv s) = false ∧ s_recv s1 = set_rb (releaseRecv (rb (s_recv s)) (rRead (s_recv s))) (s_recv s)) →
    rmove s s1) as Hgo.
  { intros s1 C0 C1 C2 C3 C4.
    assert (rRead (s_recv s1) = rRead (s_recv s) ∧ peerFin (s_recv s1) = peerFin (s_recv s) ∧
      peerFinSet (s_recv s1) = peerFinSet (s_recv s) ∧ rcopying (s_recv s1) = rcopying (s_recv s) ∧
      discard (s_recv s1) = discard (s_recv s) ∧
      rRead (s_recv s) ≤ rTail (rb (s_recv s1)) ≤ rTail (rb (s_recv s)) ∧
      (rcopying (s_recv s) = true → rTail (rb (s_recv s1)) = rTail (rb (s_recv s)))) as (D1 & D2 & D3 & D4 & D5 & D6 & D7).
    { destruct C4 as [-> | [Hc ->]]; cbn; split_and!; try done; try lia. by rewrite Hc. }
    constructor; rewrite ?D1, ?D2, ?D3, ?D4, ?D5, ?C1; try done; try lia.
    - intros _. right. rewrite C3. intros Hd. destruct err as [[]|]; cbn in Hd; try done.
    - congruence.
    - intros Hc. rewrite (D7 Hc). lia.
    - split; [done|]. intros Hf. specialize (H2 Hf). lia. }
  wp_step. wp_step. wp_step. wp_step. wp_step.
  apply wp_when; intros _; [wp_step|]; wp_step; (apply wp_when; intros _; [wp_step|]); wp_step;
    (destruct (wcopying (s_send s)); wp_step); wp_step;
    (destruct (rcopying (s_recv s)) eqn:Hc; wp_steps); (apply Hgo; [done|done|done|done|]); first [by left|by right].
Qed.

Lemma keeps_earlyWindow_edge s : edgeUp s (earlyWindowLocked s).2.
Proof.
  unfold earlyWindowLocked, bind, get, when. destruct (earlyOpen (s_recv s)); cbn [andb]; [|by apply edgeUp_same].
  destruct (Z.ltb_spec (rightEdge (s_recv s)) (earlyEnd (s_p s))); [|by apply edgeUp_same].
  apply edgeUp_raise; [done|]. unfold earlyEnd. apply wrap_fits. lia.
Qed.

Lemma openWindow_edge s : edgeUp s (openWindowLocked s).2.
Proof.
  unfold openWindowLocked, bind at 1. pose proof (keeps_earlyWindow_edge s) as H1.
  destruct (earlyWindowLocked s) as [[] s1]. cbn [snd] in H1. unfold bind at 1.
  pose proof (raiseEdge_edgeUp s1) as H2. destruct (raiseEdgeLocked s1) as [w s2]. cbn [snd] in H2.
  eapply edgeUp_trans; [exact H1|]. eapply edgeUp_trans; [exact H2|]. by apply edgeUp_same.
Qed.

Lemma readvertise_edge s : edgeUp s (readvertiseLocked s).2.
Proof.
  unfold readvertiseLocked, bind at 1, get at 1. cbn beta iota.
  destruct (ended (s_app s)); [by apply edgeUp_same|]. destruct (_ <=? _); [by apply edgeUp_same|].
  unfold bind at 1. pose proof (raiseEdge_edgeUp s) as H1. destruct (raiseEdgeLocked s) as [w s1]. cbn [snd] in H1.
  unfold bind at 1, get at 1. cbn beta iota. unfold bind at 1, when.
  destruct (_ <? _); [|done]. unfold bind at 1, upd_recv, modify. cbn beta iota.
  set (s2 := set_s_recv _ s1).
  assert (recvOf s2 = recvOf s) as Hr.
  { destruct H1 as (e & He & _ & _). unfold recvOf in *. cbn in He |- *. injection He as -> -> -> -> -> ->.
    cbn. by destruct (s_recv s). }
  assert (keeps recvOf bumpNowLocked) as Hk by rkeeps. specialize (Hk s2).
  destruct (bumpNowLocked s2) as [[] s3]. cbn [snd] in Hk. apply edgeUp_same. cbn. congruence.
Qed.

Lemma rmove_env s s' : EarlyWindow ≤ window (s_p s) → sinv s → env s s' → rmove s s'.
Proof.
  intros Hw (H0 & H1 & H2 & H3 & H4) [E1 _ (used & eo & E2) _ E3 [E4 E5] E6 _ _ _].
  constructor; rewrite ?E2, ?E3, ?E4, ?E5; cbn; try done; try lia.
  - by left.
  - intros He. apply RInv_mono with (L := recvLimit s).
    + destruct (H3 He) as [(lo & Hp & Hlo) Ha Hr Hed Hf Hc Hu]. constructor; try done.
      exists lo. split; [|done]. by apply PInv_charged.
    + unfold recvLimit, pendingLocked, earlyRecvLimit. rewrite E1. destruct (is_passive (p_Role (s_p s))); cbn [andb]; [|lia].
      destruct (decide (c_state (s_ctl s') = StatePending)) as [Hp|Hp].
      * rewrite (bool_decide_eq_true_2 _ Hp), (bool_decide_eq_true_2 _ (E6 Hp)). lia.
      * rewrite (bool_decide_eq_false_2 _ Hp). case_match; lia.
Qed.

(** The verdict on early data counts bytes and touches the send side only. *)
Lemma rmove_early s s' n : sinv s → recvOf s' = recvOf (set_s_recv (set_earlyBytes n (s_recv s)) s) → rmove s s'.
Proof.
  intros (H0 & H1 & H2 & H3 & H4) Hr. apply recvOf_inv in Hr as (E1 & E2 & E3 & E4 & E5 & E6). cbn in E1, E2, E3, E4, E5.
  constructor; rewrite ?E1, ?E2, ?E3, ?E4, ?E5; cbn; try done; try lia.
  - by left.
  - intros He. change (recvLimit (set_s_recv _ s)) with (recvLimit s) in E6. rewrite E6.
    by eapply RInv_same; [..|exact (H3 He)].
Qed.

Lemma rmove_verdict s l k0 kw now : sinv s → rmove s (earlyVerdictLocked l k0 kw now s).2.
Proof.
  intros Hs. apply (rmove_early _ _ kw); [done|].
  change (wp (earlyVerdictLocked l k0 kw now) (λ _ s', recvOf s' = recvOf (set_s_recv (set_earlyBytes kw (s_recv s)) s)) s).
  unfold earlyVerdictLocked. wp_step. wp_step.
  match goal with |- wp ?m _ _ => assert (keeps recvOf m) as Hk by rkeeps; exact (Hk _) end.
Qed.

Lemma rmove_exec {A} (c : call A) s : sinv s → callOk s c → rmove s (exec c s).2.
Proof.
  intros Hs Hok. destruct (sendOnly c) eqn:Hso; [by apply rmove_same, rk_exec|].
  destruct c; try done; cbn [exec].
  - by apply rmove_control.
  - by apply rmove_close.
  - by apply rmove_end.
  - apply rmove_edge; [done|apply openWindow_edge].
  - by apply rmove_verdict.
  - apply rmove_edge; [done|apply readvertise_edge].
Qed.

Lemma rmove_write grant n p k s :
  sinv s → rmove s (writeRoundLocked grant n s).2 ∧ rmove s (writeCopy p s).2 ∧ rmove s (writeCommit k s).2.
Proof.
  intros Hs. split_and!; apply rmove_same; try done.
  - assert (keeps recvOf (writeRoundLocked grant n)) as Hk; [|apply Hk].
    unfold writeRoundLocked, earlyCapLocked, reserveChunksLocked. rkeeps.
  - assert (keeps recvOf (writeCopy p)) as Hk; [|apply Hk]. unfold writeCopy. rkeeps.
  - assert (keeps recvOf (writeCommit k)) as Hk; [|apply Hk]. unfold writeCommit, commitRoundLocked. rkeeps.
Qed.

(** ** Reads *)

Lemma readBegin_inv first s g e n :
  DInv first (RW s None g e) → 0 ≤ n → wp (readBegin n) (λ r s', DInv first (readWorld g e r s')) s.
Proof.
  intros HI Hn. pose proof (DInv_sinv _ _ _ _ _ HI) as Hs. unfold readBegin. wp_step. wp_step.
  destruct (Z.eqb_spec n 0); [wp_step; by destruct (closed (s_app s))|].
  destruct (closed (s_app s)) eqn:Hc; [by wp_step|].
  destruct (peerFinSet (s_recv s) && (rRead (s_recv s) =? peerFin (s_recv s))) eqn:Hf.
  { wp_step. apply andb_prop in Hf as [Hf Hr]. apply Z.eqb_eq in Hr. destruct HI as [B L D V (k & K1 & K2 & K3 & K4) E F W].
    constructor; cbn [readWorld rw_s rw_view rw_got rw_eof] in *; try done; [by exists k|].
    intros _. specialize (K4 Hc). split_and!; try done. rewrite K3. f_equal. lia. }
  destruct (ended (s_app s)) eqn:He.
  { wp_step. destruct (endErr (s_app s)) eqn:Her; try done.
    destruct (d_end _ _ HI He Her) as [H1 H2]. cbn [rw_s] in H1, H2. rewrite H1, (proj2 (Z.eqb_eq _ _) H2) in Hf. done. }
  apply wp_bind, wp_Now. set (s1 := set_ticks _ s).
  assert (DInv first (RW s1 None g e)) as HI1 by (eapply rmove_inv; [apply rmove_same|]; done).
  destruct (deadlinePassed _ _); [by wp_step|].
  destruct (Z.ltb_spec (rRead (s_recv s)) (rTail (rb (s_recv s)))); cycle 1.
  { wp_step. wp_step. wp_step. eapply rmove_inv; [apply rmove_same|]; done. }
  destruct HI1 as [B L D V K E F W]. cbn [rw_s rw_view rw_got rw_eof] in *. destruct B as (B0 & B1 & B2 & B3).
  pose proof (L He) as HR. destruct (ri_buf _ _ _ HR) as (lo & Hp & Hlo).
  rewrite wrap_small by (unfold fits; cbn in *; lia).
  destruct (viewsLoop_spec (inq (rb (s_recv s))) lo (rTail (rb (s_recv s))) maxViews (rRead (s_recv s))
    (Z.min n (rTail (rb (s_recv s)) - rRead (s_recv s)))) as (v & -> & Hv & Hle & Hpos);
    [apply Hp|apply Hp|done|cbn in *; lia..|].
  wp_step. wp_step. wp_step. cbn [readWorld].
  constructor; cbn [rw_s rw_view rw_got rw_eof set_s_recv s_recv set_rcopying rRead rb peerFinSet peerFin discard rcopying] in *;
    try done.
  - intros He1. eapply RInv_same; [..|exact HR]; reflexivity.
  - split; [done|]. intros _. change (s_recv s1) with (s_recv s). split; [lia|done].
  - intros He1. destruct (F He1) as (_ & F2 & F3 & F4). specialize (B3 F2). subst s1. cbn in *. lia.
Qed.

Lemma readCommit_inv first s v g e :
  DInv first (RW s (Some v) g e) →
  wp (readCommit (len v))
     (λ r s', DInv first (RW s' None (match r with inl n => g ++ take (Z.to_nat n) v | inr _ => g end) e)) s.
Proof.
  intros [B L D V (k & K1 & K2 & K3 & K4) E F W]. cbn [rw_s rw_view rw_got rw_eof] in *.
  destruct B as (B0 & B1 & B2 & B3). destruct V as [V1 V2]. pose proof (len_nonneg v) as Hl.
  assert (e = false) as -> by (destruct e; [|done]; by destruct (F eq_refl)).
  unfold readCommit. wp_step. wp_step. wp_step. wp_step. destruct (closed (s_app (set_s_recv _ s))) eqn:Hc.
  - assert (∀ b rf, rTail b = rTail (rb (s_recv s)) →
      (ended (s_app s) = false → RInv S (recvLimit s) (set_rb b (s_recv s))) →
      DInv first (RW (set_s_recv (set_rb b (set_rfreePending rf (set_rcopying false (s_recv s)))) s) None g false)) as Hgo.
    { intros b rf Hb HR. cbn in Hc. constructor; cbn; rewrite ?Hb; try done.
      - intros He. by eapply RInv_same; [..|exact (HR He)].
      - by exists k. }
    wp_step. apply wp_when; intros _; wp_steps.
    + apply (Hgo _ false); [apply releaseConsumed_tail|]. intros He. apply (RInv_release S _ _ (L He)).
    + replace (set_rcopying false (s_recv s)) with
        (set_rb (rb (s_recv s)) (set_rfreePending (rfreePending (s_recv s)) (set_rcopying false (s_recv s))))
        by by destruct (s_recv s).
      apply Hgo; [done|]. intros He. replace (set_rb _ _) with (s_recv s) by (by destruct (s_recv s)). auto.
  - cbn in Hc. destruct (V2 Hc) as [V3 V4]. specialize (K4 Hc).
    wp_step. wp_step. wp_step. wp_step. wp_step. apply wp_Now. wp_step. wp_step. wp_step. wp_step. wp_step. wp_step.
    wp_step.
    match goal with |- wp _ _ ?st => set (s2 := st) end.
    assert (appOf s2 = appOf s) as A2 by done.
    assert (s_recv s2 = set_rb (releaseConsumed (rb (s_recv s)) (rRead (s_recv s) + len v))
      (set_delivered (u64 (delivered (s_recv s) + len v))
        (set_rRead (rRead (s_recv s) + len v) (set_rcopying false (s_recv s))))) as R2.
    { subst s2. cbn. by rewrite wrap_small by (unfold fits; lia). }
    clearbody s2.
    assert (∀ s3, appOf s3 = appOf s → rRead (s_recv s3) = rRead (s_recv s) + len v →
      rRead (s_recv s3) ≤ rTail (rb (s_recv s3)) ≤ rTail (rb (s_recv s)) →
      (peerFin (s_recv s3), peerFinSet (s_recv s3), discard (s_recv s3), rcopying (s_recv s3)) =
      (peerFin (s_recv s), peerFinSet (s_recv s), discard (s_recv s), false) →
      (ended (s_app s) = false → RInv S (recvLimit s) (s_recv s3)) →
      DInv first (RW s3 None (g ++ take (Z.to_nat (len v)) v) false)) as Hgo.
    { intros s3 A3 R3 T3 [= F1 F2 F3 F4] HR. unfold appOf in A3. injection A3 as P1 P2 P3 P4 P5.
      assert (recvLimit s3 = recvLimit s) as Hlim by (unfold recvLimit, pendingLocked; by rewrite P1, P5).
      constructor; cbn [rw_s rw_view rw_got rw_eof]; rewrite ?F1, ?F2, ?F3, ?F4, ?P1, ?P2, ?P3, ?P4, ?Hlim; try done.
      - split_and!; try done; try lia. intros Hf. specialize (B3 Hf). lia.
      - exists (k + len v). split_and!; try lia.
        rewrite firstn_all2 by (unfold len; lia). rewrite K3, V4 at 1. rewrite rng_app by lia. by rewrite K4.
      - intros He1 He2. destruct (E He1 He2) as [E1 E2]. split; [done|]. specialize (B3 E1). lia. }
    assert (ended (s_app s2) = ended (s_app s)) as -> by (by injection A2).
    assert (rTail (rb (s_recv s2)) = rTail (rb (s_recv s))) as T2 by (rewrite R2; apply releaseConsumed_tail).
    destruct (ended (s_app s)) eqn:He; cbn [negb].
    + apply wp_when; intros _; wp_steps; apply Hgo; try done; cbn; rewrite R2; cbn;
        rewrite ?releaseConsumed_tail; try done; lia.
    + eapply wp_mono; [apply wp_and; [apply (ack_fin_wp S (recvLimit s) s2 _ eq_refl)|apply ack_fin_weak]|].
      * rewrite R2. assert (RInv S (recvLimit s) (set_rRead (rRead (s_recv s) + len v) (s_recv s))) as HR.
        { destruct (L eq_refl) as [(lo & Hp & Hlo) Hap Hr Hed Hf Hcp Hu]. constructor; try done.
          exists lo. split; [done|cbn; lia]. }
        apply (RInv_release S) in HR. by eapply RInv_same; [..|exact HR].
      * intros _ s3 ((_ & I3 & R3 & Q3 & F3 & _) & A3 & _). wp_step. rewrite A2 in A3.
        unfold flags in F3. rewrite R2 in R3, Q3, F3. cbn in R3, F3. injection F3 as F1 F2 F4 F5 _ _.
        apply Hgo; try done; rewrite ?Q3, ?R3; cbn; rewrite ?releaseConsumed_tail; [lia|congruence].
Qed.

(** ** Executions *)

Lemma rstep_inv first w w' : rstep w w' → DInv first w → DInv first w'.
Proof.
  intros Hst HI. destruct w as [s0 v0 g0 e0]. pose proof (DInv_sinv _ _ _ _ _ HI) as Hs. pose proof (d_win _ _ HI) as Hw.
  inversion Hst; subst.
  - eapply rmove_inv; [by apply rmove_data|done].
  - eapply rmove_inv; [by apply rmove_exec|done].
  - eapply rmove_inv; [|done]. apply rmove_edge; [done|]. eapply fill_edgeUp; done.
  - eapply rmove_inv; [by apply (rmove_write grant n [] 0)|done].
  - eapply rmove_inv; [by apply (rmove_write [] 0 p 0)|done].
  - eapply rmove_inv; [by apply (rmove_write [] 0 [] k)|done].
  - by apply readBegin_inv.
  - by apply readCommit_inv.
  - eapply rmove_inv; [by apply rmove_env|done].
Qed.

Lemma rsteps_inv first w w' : rtc rstep w w' → DInv first w → DInv first w'.
Proof. induction 1; eauto using rstep_inv. Qed.

(** A session as initStreamLocked leaves it. *)
Definition fresh (s : Session) : Prop :=
  ∃ p g ctl bmax used clk, s = initSession p g ctl bmax used clk ∧
    is_u64 (p_FirstOffset p) ∧ EarlyWindow ≤ window p ∧ 0 ≤ used.

Lemma fresh_inv s : fresh s → DInv (p_FirstOffset (s_p s)) (RW s None [] false).
Proof.
  intros (p & g & ctl & bmax & used & clk & -> & Ho & Hw & Hu). unfold fits in Ho.
  constructor; cbn [rw_s rw_view rw_got rw_eof initSession s_recv initRecv rRead rb rTail peerFinSet peerFin s_app initApp
    ended closed discard rcopying s_p]; try done.
  - split_and!; try done; lia.
  - intros _. constructor; cbn; try done.
    + exists (p_FirstOffset p). split; [|lia]. constructor; cbn; try done; lia.
    + split; [lia|]. intros x. unfold received. cbn [rTail ooq oset]. rewrite elem_of_union, elem_of_range. set_solver by lia.
    + by left.
  - exists 0. rewrite rng_0. split_and!; try done; lia.
Qed.

(** C1. Whatever the interleaving of carrier frames, application calls and the
    actor's work, on a session whose frames carry bytes of the stream [S]: the
    bytes Reads have returned are a prefix of the stream from FirstOffset; a
    Read returns io.EOF only when they are the whole stream up to the peer's
    FIN; and no DATA frame of the stream, at any offset and of any length,
    makes the receive path panic. *)
Theorem delivered_stream s w :
  fresh s → rtc rstep (RW s None [] false) w →
  let first := p_FirstOffset (s_p s) in
  (∃ k, 0 ≤ k ∧ rw_got w = rng S first k) ∧
  (rw_eof w = true → peerFinSet (s_recv (rw_s w)) = true ∧
     rw_got w = rng S first (peerFin (s_recv (rw_s w)) - first)) ∧
  (∀ l off n buf, ended (s_app (rw_s w)) = false → is_u64 off → 0 ≤ n < 2 ^ 64 → buf_ok buf n →
     (Data l off (rng S off n) buf (rw_s w)).1 ≠ Some EPanic).
Proof.
  intros Hf Hst first. pose proof (rsteps_inv _ _ _ Hst (fresh_inv _ Hf)) as HI. split_and!.
  - destruct (d_got _ _ HI) as (k & ? & _ & ? & _). by exists k.
  - intros He. by destruct (d_eof _ _ HI He) as (_ & ? & _ & ?).
  - intros l off n buf He Ho Hn Hb. apply data_spec; try done. by apply (d_live _ _ HI).
Qed.

Lemma readCommit_inl n s : closed (s_app s) = false → (readCommit n s).1 = inl n.
Proof.
  intros Hc. change (wp (readCommit n) (λ r _, r = inl n) s). unfold readCommit. wp_step. wp_step. wp_step. wp_step.
  cbn [set_s_recv s_app]. rewrite Hc. wp_step. wp_step. wp_step. wp_step. wp_step. apply wp_Now.
  wp_step. wp_step. wp_step. wp_step. wp_step. wp_step. wp_step. by apply (wp_mono _ (λ _ _, True)).
Qed.

(** C4. A Read that finds bytes returns some of them: in every state an execution
    reaches, while no Read copies and the session is neither ended nor
    closed and the read deadline has not passed, a Read of n > 0 bytes with
    in-order bytes buffered starts with the next bytes of the stream, at least
    one, and its commit returns exactly those. *)
Theorem read_progress s w n :
  fresh s → rtc rstep (RW s None [] false) w →
  let t := rw_s w in
  rw_view w = None → closed (s_app t) = false → ended (s_app t) = false →
  deadlinePassed (rdl (s_app t)) (clock t (ticks t)) = false →
  rRead (s_recv t) < rTail (rb (s_recv t)) → 0 < n →
  ∃ v t', readBegin n t = (RView v, t') ∧ v = rng S (rRead (s_recv t)) (len v) ∧ 0 < len v ≤ n ∧
          (readCommit (len v) t').1 = inl (len v).
Proof.
  intros Hf Hst t Hv Hc He Hd Hr Hn. pose proof (rsteps_inv _ _ _ Hst (fresh_inv _ Hf)) as HI. fold t in HI.
  destruct (d_base _ _ HI) as (B0 & B1 & B2 & B3). fold t in B1, B2, B3.
  pose proof (d_live _ _ HI He) as HR. destruct (ri_buf _ _ _ HR) as (lo & Hp & Hlo). fold t in Hp, Hlo.
  destruct (viewsLoop_spec (inq (rb (s_recv t))) lo (rTail (rb (s_recv t))) maxViews (rRead (s_recv t))
    (Z.min n (rTail (rb (s_recv t)) - rRead (s_recv t)))) as (v & E & Hv1 & Hle & Hpos);
    [apply Hp|apply Hp|done|lia..|].
  assert (peerFinSet (s_recv t) && (rRead (s_recv t) =? peerFin (s_recv t)) = false) as Hfin.
  { destruct (peerFinSet (s_recv t)) eqn:Hfs; [|done]. specialize (B3 eq_refl). apply Z.eqb_neq. lia. }
  exists v, (set_s_recv (set_rcopying true (s_recv t)) (set_ticks (Datatypes.S (ticks t)) t)). split_and!.
  - unfold readBegin, bind at 1, get at 1. cbn beta iota. rewrite Hc, He, Hfin, (proj2 (Z.eqb_neq n 0)) by lia.
    unfold bind at 1, Now at 1. cbn beta iota. rewrite Hd, (proj2 (Z.ltb_lt _ _) Hr).
    rewrite (wrap_small _ (rTail _ - _)) by (unfold fits; lia). rewrite E. reflexivity.
  - done.
  - apply Hpos; [lia|unfold maxViews; lia].
  - lia.
  - by apply readCommit_inl.
Qed.


(** C3. When a frame is refused, in every state an execution reaches and whatever
    bytes T it carries: a length of zero or past the end of the offset space,
    an end beyond the right edge advertised, an end beyond the peer's FIN and
    bytes that differ from held ones that were not read yet are each refused
    with their own violation; a refused frame changes nothing but the release
    of its buffer. *)
Theorem recv_frame_refused s w (T : Z → Z) off n buf :
  fresh s → rtc rstep (RW s None [] false) w →
  let t := rw_s w in
  let r := s_recv t in
  ended (s_app t) = false → is_u64 off → 0 ≤ n < 2 ^ 64 →
  let refuse v := recvDataLocked off (rng T off n) buf t = (Some (EViolation v), released t buf) in
  (n = 0 ∨ 2 ^ 64 ≤ off + n → refuse errDataLength) ∧
  (0 < n → off + n < 2 ^ 64 → rightEdge r < off + n → refuse errWindow) ∧
  (0 < n → off + n ≤ rightEdge r → peerFinSet r = true → peerFin r < off + n → refuse errDataBeyondFin) ∧
  (0 < n → off + n ≤ rightEdge r → (peerFinSet r = true → off + n ≤ peerFin r) →
   ¬ agrees S T r off n → refuse (conflictErr (s_p t))).
Proof.
  intros Hf Hst t r He Ho Hn. pose proof (rsteps_inv _ _ _ Hst (fresh_inv _ Hf)) as HI.
  apply (recvData_reject S t T off n buf); try done. by apply (d_live _ _ HI).
Qed.

(** A Read that is not interrupted. *)
Lemma read_round s g e n v m :
  0 ≤ n → (readBegin n s).1 = RView v → len v = m → (readCommit m (readBegin n s).2).1 = inl m →
  rtc rstep (RW s None g e) (RW (readCommit m (readBegin n s).2).2 None (g ++ v) e).
Proof.
  intros Hn Hb Hm Hc. eapply rtc_l; [by apply (st_read_begin n)|]. rewrite Hb. cbn [readWorld].
  apply rtc_once. pose proof (st_read_commit (readBegin n s).2 v g e) as Hst. rewrite Hm, Hc, <- Hm, firstn_all2 in Hst; [by rewrite <- Hm|].
  unfold len. lia.
Qed.

(** A Read that returns EOF. *)
Lemma read_eof s g e n :
  0 ≤ n → (readBegin n s).1 = RErr EEOF → rtc rstep (RW s None g e) (RW (readBegin n s).2 None g true).
Proof. intros Hn Hb. apply rtc_once. pose proof (st_read_begin n s g e Hn) as Hst. by rewrite Hb in Hst. Qed.

End Deliver.

(** ** A concrete execution

    A dialer's session at offset 100: its window opens, six bytes arrive in
    two frames out of order, a Read returns them, the FIN arrives and the next
    Read returns EOF. *)

Definition demoS (x : Z) : Z := x mod 251.

Definition demoCtl : control :=
  SessState.Control StateOpen None 7 0 (Sched.mkSched 0 0 0 0 0 []) (Sched.mkSched 0 0 0 0 0 []) 0 false None 0 0 0.

Definition demo0 : Session :=
  initSession (MkParams RoleDialer ModeSelector 0 0 0 100 0 7 0 0 0) None demoCtl (2 ^ 30) 0 (λ n, 1000 + Z.of_nat n).

Definition demo1 : Session := (exec COpenWindow demo0).2.
Definition demo2 : Session := (Data 0 103 (rng demoS 103 3) None demo1).2.
Definition demo3 : Session := (Data 0 100 (rng demoS 100 3) None demo2).2.
Definition demo4 : Session := (readCommit 6 (readBegin 10 demo3).2).2.
Definition demo5 : Session := (exec (CControl 0 (mkHeader TypeFin 0 8 0 0) (be 8 106)) demo4).2.
Definition demo6 : Session := (readBegin 10 demo5).2.

Lemma demo_fresh : fresh demo0.
Proof. by repeat eexists. Qed.

Lemma demo_first : p_FirstOffset (s_p demo0) = 100.
Proof. reflexivity. Qed.

Lemma demo_received : rtc (rstep demoS) (RW demo0 None [] false) (RW demo3 None [] false).
Proof.
  unfold demo3, demo2, demo1. generalize demo0. intros s.
  eapply rtc_l; [by apply (st_call demoS Z COpenWindow)|].
  generalize (exec COpenWindow s).2. clear s. intros s.
  eapply rtc_l; [by apply (st_data demoS s None [] false 0%nat 103 3 None)|].
  generalize (Data 0 103 (rng demoS 103 3) None s).2. clear s. intros s.
  apply rtc_once. by apply (st_data demoS s None [] false 0%nat 100 3 None).
Qed.

Lemma demo_read : rtc (rstep demoS) (RW demo0 None [] false) (RW demo6 None (rng demoS 100 6) true).
Proof.
  etrans; [apply demo_received|]. unfold demo6.
  assert ((readBegin 10 demo5).1 = RErr EEOF) as He by (vm_compute; reflexivity).
  etrans; [|by apply read_eof]. clear He. unfold demo5, demo4.
  assert ((readBegin 10 demo3).1 = RView (rng demoS 100 6)) as H1 by (vm_compute; reflexivity).
  assert ((readCommit 6 (readBegin 10 demo3).2).1 = inl 6) as H2 by (vm_compute; reflexivity).
  eapply rtc_r; [by apply (read_round demoS demo3 [] false 10 (rng demoS 100 6) 6)|].
  generalize (readCommit 6 (readBegin 10 demo3).2).2. intros s.
  apply (st_call demoS _ (CControl 0 (mkHeader TypeFin 0 8 0 0) (be 8 106))). cbn. by repeat constructor.
Qed.

Lemma delivered_stream_witness :
  rng demoS 100 6 = [100; 101; 102; 103; 104; 105] ∧
  rng demoS 100 6 = rng demoS 100 (peerFin (s_recv demo6) - 100).
Proof.
  split; [reflexivity|].
  pose proof (delivered_stream demoS demo0 (RW demo6 None (rng demoS 100 6) true) demo_fresh demo_read) as H.
  cbv zeta in H. rewrite demo_first in H. revert H. generalize demo6. generalize (rng demoS 100 6).
  intros g d (_ & H & _). exact (proj2 (H eq_refl)).
Defined.

(** What [demo3] holds, evaluated once. *)
Lemma demo3_state :
  closed (s_app demo3) = false ∧ ended (s_app demo3) = false ∧
  deadlinePassed (rdl (s_app demo3)) (clock demo3 (ticks demo3)) = false ∧
  rRead (s_recv demo3) = 100 ∧ rTail (rb (s_recv demo3)) = 106 ∧ rightEdge (s_recv demo3) = 8388708 ∧
  peerFinSet (s_recv demo3) = false ∧ conflictErr (s_p demo3) = errConflict.
Proof. vm_compute. by split_and!. Qed.

Lemma read_progress_witness :
  ∃ v t', readBegin 2 demo3 = (RView v, t') ∧ v = rng demoS 100 (len v) ∧ 0 < len v ≤ 2 ∧
          (readCommit (len v) t').1 = inl (len v).
Proof.
  pose proof (read_progress demoS demo0 (RW demo3 None [] false) 2 demo_fresh demo_received) as H.
  destruct demo3_state as (H1 & H2 & H3 & H4 & H5 & _). revert H. cbn [rw_s rw_view]. rewrite H4, H5.
  intros H. apply H; [reflexivity|assumption..|lia|lia].
Defined.


(** Bytes that contradict the first held byte; bytes beyond the window. *)
Lemma recv_frame_refused_witness :
  recvDataLocked 100 (rng (λ _, 9) 100 1) None demo3 = (Some (EViolation errConflict), released demo3 None) ∧
  recvDataLocked 9000000 (rng (λ _, 9) 9000000 1) None demo3 = (Some (EViolation errWindow), released demo3 None).
Proof.
  pose proof (λ off, recv_frame_refused demoS demo0 (RW demo3 None [] false) (λ _, 9) off 1 None demo_fresh demo_received) as H.
  pose proof demo3_state as Hd. revert H Hd. cbn [rw_s]. generalize demo3. intros d H (_ & H2 & _ & H4 & H5 & H6 & H7 & H8).
  cbv zeta in H. rewrite H6, H7, H8 in H.
  destruct (H 100 H2 ltac:(by unfold fits) ltac:(lia)) as (_ & _ & _ & Hc).
  destruct (H 9000000 H2 ltac:(by unfold fits) ltac:(lia)) as (_ & Hw & _).
  split; [apply Hc; [lia|lia|congruence|]|apply Hw; lia].
  intros Ha. specialize (Ha 100 ltac:(lia)). rewrite H4 in Ha. assert (demoS 100 = 9) as E; [|done].
  apply Ha; [done|]. apply elem_of_union_l, elem_of_range. rewrite H5. lia.
Defined.
