(* ===== verification/SessSendInv.v ===== *)
(** * The invariant of the send side

    What the send side of a stream session keeps: the order of its offsets,
    the chunks that hold the bytes between them, the spans in flight and in
    the retransmission queue, the rescue span, the race cursors and the FIN
    offset.  [T] is the stream the application writes: T x is its byte at
    offset x.  Every critical section that changes these fields is shown to
    keep the invariant; the others leave the view [viewOf] alone. *)

From Stdlib Require Import ZArith Lia.
From stdpp Require Import base numbers list sorting gmap sets.
From S2P Require Import Prelude WireConst WirePayload GoTime SchedTiming CarrierBuf Spans RecvSegs RecvProofs.
From S2P Require Import SessState SessDuty SessRecv SessFin SessSend.

Open Scope Z_scope.
Open Scope rendr_scope.

(** ** The view *)

Record sview := SView {
  v_p : Params;
  v_cap : nat;
  v_chunks : list chunk;
  v_cbase : Z;
  v_base : Z;
  v_next : Z;
  v_end : Z;
  v_res : Z;
  v_lim : Z;
  v_retx : list span;
  v_resc : option span;
  v_infl : list (list span);
  v_rnext : list Z;
  v_fin : option Z
}.

Definition set_v_chunks (x : list chunk) (v : sview) : sview :=
  SView (v_p v) (v_cap v) x (v_cbase v) (v_base v) (v_next v) (v_end v) (v_res v) (v_lim v) (v_retx v) (v_resc v) (v_infl v) (v_rnext v) (v_fin v).
Definition set_v_cbase (x : Z) (v : sview) : sview :=
  SView (v_p v) (v_cap v) (v_chunks v) x (v_base v) (v_next v) (v_end v) (v_res v) (v_lim v) (v_retx v) (v_resc v) (v_infl v) (v_rnext v) (v_fin v).
Definition set_v_base (x : Z) (v : sview) : sview :=
  SView (v_p v) (v_cap v) (v_chunks v) (v_cbase v) x (v_next v) (v_end v) (v_res v) (v_lim v) (v_retx v) (v_resc v) (v_infl v) (v_rnext v) (v_fin v).
Definition set_v_next (x : Z) (v : sview) : sview :=
  SView (v_p v) (v_cap v) (v_chunks v) (v_cbase v) (v_base v) x (v_end v) (v_res v) (v_lim v) (v_retx v) (v_resc v) (v_infl v) (v_rnext v) (v_fin v).
Definition set_v_end (x : Z) (v : sview) : sview :=
  SView (v_p v) (v_cap v) (v_chunks v) (v_cbase v) (v_base v) (v_next v) x (v_res v) (v_lim v) (v_retx v) (v_resc v) (v_infl v) (v_rnext v) (v_fin v).
Definition set_v_res (x : Z) (v : sview) : sview :=
  SView (v_p v) (v_cap v) (v_chunks v) (v_cbase v) (v_base v) (v_next v) (v_end v) x (v_lim v) (v_retx v) (v_resc v) (v_infl v) (v_rnext v) (v_fin v).
Definition set_v_lim (x : Z) (v : sview) : sview :=
  SView (v_p v) (v_cap v) (v_chunks v) (v_cbase v) (v_base v) (v_next v) (v_end v) (v_res v) x (v_retx v) (v_resc v) (v_infl v) (v_rnext v) (v_fin v).
Definition set_v_retx (x : list span) (v : sview) : sview :=
  SView (v_p v) (v_cap v) (v_chunks v) (v_cbase v) (v_base v) (v_next v) (v_end v) (v_res v) (v_lim v) x (v_resc v) (v_infl v) (v_rnext v) (v_fin v).
Definition set_v_resc (x : option span) (v : sview) : sview :=
  SView (v_p v) (v_cap v) (v_chunks v) (v_cbase v) (v_base v) (v_next v) (v_end v) (v_res v) (v_lim v) (v_retx v) x (v_infl v) (v_rnext v) (v_fin v).
Definition set_v_infl (x : list (list span)) (v : sview) : sview :=
  SView (v_p v) (v_cap v) (v_chunks v) (v_cbase v) (v_base v) (v_next v) (v_end v) (v_res v) (v_lim v) (v_retx v) (v_resc v) x (v_rnext v) (v_fin v).
Definition set_v_rnext (x : list Z) (v : sview) : sview :=
  SView (v_p v) (v_cap v) (v_chunks v) (v_cbase v) (v_base v) (v_next v) (v_end v) (v_res v) (v_lim v) (v_retx v) (v_resc v) (v_infl v) x (v_fin v).
Definition set_v_fin (x : option Z) (v : sview) : sview :=
  SView (v_p v) (v_cap v) (v_chunks v) (v_cbase v) (v_base v) (v_next v) (v_end v) (v_res v) (v_lim v) (v_retx v) (v_resc v) (v_infl v) (v_rnext v) x.

Definition rescueOf (r : rescueSlot) : option span := if re_set r then Some (re_sp r) else None.
Definition finOf (f : finState) : option Z := if fin_requested f then Some (fin_off f) else None.

Definition viewOf (s : Session) : sview :=
  let st := s_send s in
  SView (s_p s) (ringCap st) (chunks st) (cbase st) (sBase st) (sNext st) (s_end st) (resEnd st) (peerLimit st)
        (retx st) (rescueOf (rescue st)) (l_infl <$> heap s) (l_rnext <$> heap s) (finOf (fin (s_fin s))).

(** The byte a chunk holds at a stream offset. *)
Definition byteAt (cs : list chunk) (cb x : Z) : option Z :=
  (λ c : chunk, c ((x - cb) mod chunkSize)) <$> cs !! Z.to_nat ((x - cb) / chunkSize).

(** int64(uint64 difference): the signed difference. *)
Lemma i64_u64 x : - 2 ^ 63 ≤ x < 2 ^ 63 → i64 (u64 x) = x.
Proof.
  intros Hx. rewrite (swrap_congr 64 (u64 x) x); [by apply swrap_small|]. unfold wrap. by rewrite Z.mod_mod.
Qed.

(** ** The invariant *)

(** The parameters are in range: Params.OffsetLimit is at most 2{^62} (L14),
    and a window is a positive int64 far below it. *)
Definition params_ok (p : Params) : Prop :=
  0 < window p ≤ 2 ^ 32 ∧ offsetLimit p ≤ 2 ^ 62 ∧ 0 ≤ p_FirstOffset p ≤ offsetLimit p.

Section Inv.
Context (T : Z → Z).

Record SInv (v : sview) : Prop := {
  si_p : params_ok (v_p v);
  si_cap : v_cap v = Z.to_nat (quot (window (v_p v)) chunkSize + 2) ∧ (length (v_chunks v) ≤ v_cap v)%nat;
  si_base : 0 ≤ v_cbase v ≤ v_base v ∧ v_base v < v_cbase v + chunkSize;
  si_ord : v_base v ≤ v_next v ≤ v_end v ∧ v_end v ≤ v_res v ≤ offsetLimit (v_p v);
  si_room : v_res v - v_base v ≤ window (v_p v);
  si_cover : v_res v ≤ v_cbase v + len (v_chunks v) * chunkSize ∨ v_chunks v = [] ∧ v_res v = v_base v;
  si_bytes : ∀ x, v_base v ≤ x < v_end v → byteAt (v_chunks v) (v_cbase v) x = Some (T x);
  si_lim : v_next v ≤ v_lim v;
  si_retx : sl_wf (v_retx v) ∧ ∀ x, x ∈ sl_set (v_retx v) → v_base v ≤ x < v_next v;
  si_infl : ∀ i l, v_infl v !! i = Some l → sl_wf l ∧ ∀ x, x ∈ sl_set l → x < v_next v;
  si_resc : ∀ sp, v_resc v = Some sp → sp_wf sp ∧ v_base v ≤ sp_off sp ∧ sp_off sp + sp_n sp ≤ v_next v;
  si_rnext : ∀ i r, v_rnext v !! i = Some r → 0 ≤ r ≤ v_next v;
  si_fin : ∀ o, v_fin v = Some o → o = v_res v;
  si_cov : is_race (p_Mode (v_p v)) = false → ∀ x, v_base v ≤ x < v_next v →
    x ∈ sl_set (v_retx v) ∨ ∃ i l, v_infl v !! i = Some l ∧ x ∈ sl_set l
}.

Lemma chunkSize_pos : 0 < chunkSize < 2 ^ 32.
Proof. by vm_compute. Qed.

(** Offsets of the stream, for lia. *)
Lemma SInv_bounds v : SInv v →
  0 ≤ v_cbase v ≤ v_base v ∧ v_base v < v_cbase v + chunkSize ∧ v_base v ≤ v_next v ≤ v_end v ∧
  v_end v ≤ v_res v ≤ 2 ^ 62 ∧ v_res v - v_base v ≤ 2 ^ 32 ∧ 0 < chunkSize < 2 ^ 32.
Proof.
  intros [[Hw [Ho _]] _ Hb Hn Hr _ _ _ _ _ _ _ _ _]. pose proof chunkSize_pos. lia.
Qed.

(** A byte of the written range lies in a chunk. *)
Lemma byteAt_cover v x : SInv v → v_cbase v ≤ x < v_res v → v_base v < v_res v →
  0 ≤ (x - v_cbase v) / chunkSize < len (v_chunks v).
Proof.
  intros Hv Hx Hlt. pose proof (SInv_bounds v Hv). destruct (si_cover _ Hv) as [Hc|[_ ?]]; [|lia].
  split; [apply Z.div_pos; lia|]. apply Z.div_lt_upper_bound; lia.
Qed.

(** ** Reservation *)

Lemma reserveLoop_spec cap g : ∀ cs held k,
  (length cs ≤ cap)%nat →
  ∃ g', (reserveLoop g cs cap held k).1 = cs ++ g' ∧ (reserveLoop g cs cap held k).2 = held + len g' * chunkSize ∧
        (length (cs ++ g') ≤ cap)%nat.
Proof.
  induction g as [|b g IH]; intros cs held k Hc; cbn [reserveLoop].
  { exists []. rewrite app_nil_r, (len_nil (A := chunk)). split_and!; [done|cbn; lia|done]. }
  destruct ((held <? k) && negb (length cs =? cap)%nat) eqn:E.
  - apply andb_prop in E as [_ E]. apply negb_true_iff, Nat.eqb_neq in E.
    destruct (IH (cs ++ [b]) (held + chunkSize) k) as (g' & H1 & H2 & H3); [rewrite length_app; cbn; lia|].
    exists (b :: g'). rewrite <- app_assoc in H1, H3. split_and!; [done| |done].
    rewrite H2, len_cons. lia.
  - exists []. rewrite app_nil_r, (len_nil (A := chunk)). split_and!; [done|cbn; lia|done].
Qed.

Lemma byteAt_app cs g cb x z : byteAt cs cb x = Some z → byteAt (cs ++ g) cb x = Some z.
Proof.
  unfold byteAt. destruct (cs !! _) eqn:E; [|done]. intros H. rewrite lookup_app_l; [by rewrite E|].
  by eapply lookup_lt_Some.
Qed.

Lemma SInv_reserve v g k :
  SInv v → (length (v_chunks v ++ g) ≤ v_cap v)%nat → 0 ≤ k → (0 < k → v_fin v = None) →
  v_res v + k ≤ offsetLimit (v_p v) → v_res v + k - v_base v ≤ window (v_p v) →
  (k = 0 ∨ v_res v + k ≤ v_cbase v + len (v_chunks v ++ g) * chunkSize) →
  SInv (set_v_chunks (v_chunks v ++ g) (set_v_res (v_res v + k) v)).
Proof.
  intros Hv Hcap Hk Hf Ho Hw Hc. pose proof (SInv_bounds v Hv). destruct Hv.
  constructor; cbn; try done; try lia.
  - rewrite len_app in *. pose proof (len_nonneg g).
    destruct Hc as [->|Hc]; [|left; lia]. rewrite Z.add_0_r.
    destruct si_cover0 as [?|[E1 E2]]; [left; nia|]. rewrite E1. destruct g as [|c g]; [right; done|left].
    rewrite (len_nil (A := chunk)), len_cons. pose proof (len_nonneg g). nia.
  - intros x Hx. apply byteAt_app. auto.
  - intros o Hof. destruct (decide (k = 0)) as [->|]; [rewrite Z.add_0_r; auto|]. rewrite Hf in Hof; [done|lia].
Qed.

Lemma earlyCap_wp room s : wp (earlyCapLocked room) (λ r s', r ≤ Z.max room 0 ∧ s_send s' = s_send s ∧ s_p s' = s_p s ∧
  s_app s' = s_app s ∧ viewOf s' = viewOf s) s.
Proof.
  unfold earlyCapLocked. wp_step. wp_step. destruct (_ || _); [wp_step; split_and!; [lia|done..]|].
  cbv zeta. destruct (_ <=? _); wp_steps; split_and!; try done; lia.
Qed.

Definition roundOf (r : writeStart) : Z := match r with WRound k _ => k | _ => 0 end.

Lemma reserve_wp grant k s :
  SInv (viewOf s) → 0 < k →
  wp (reserveChunksLocked grant k) (λ r s', ∃ g,
    s' = set_s_send (set_chunks (chunks (s_send s) ++ g) (s_send s)) s ∧
    (length (chunks (s_send s) ++ g) ≤ ringCap (s_send s))%nat ∧ r ≤ k ∧
    resEnd (s_send s) + r ≤ cbase (s_send s) + len (chunks (s_send s) ++ g) * chunkSize) s.
Proof.
  intros Hv Hk. pose proof (SInv_bounds _ Hv) as Hb. pose proof (si_cap _ Hv) as [Hcap1 Hcap2].
  pose proof (si_p _ Hv) as (Hw & _). cbn in Hb, Hcap1, Hcap2, Hw. set (st := s_send s) in *.
  unfold reserveChunksLocked. wp_step. wp_step. fold st. cbv zeta.
  assert (0 ≤ len (chunks st) * chunkSize ≤ 2 ^ 40) as Hlen.
  { unfold len. assert (chunkSize = 65536) as Hcs by done. rewrite Hcs in *.
    assert (0 ≤ quot (window (s_p s)) 65536 ≤ 65536).
    { unfold quot. split; [apply Z.quot_pos; lia|]. apply Z.quot_le_upper_bound; lia. }
    revert Hcap1. generalize dependent (quot (window (s_p s)) 65536). intros q Hq Hcap1. lia. }
  destruct (reserveLoop_spec (ringCap st) grant (chunks st) (i64 (u64 (cbase st + len (chunks st) * chunkSize - resEnd st))) k Hcap2)
    as (g & H1 & H2 & H3).
  destruct (reserveLoop _ _ _ _ _) as [cs held]. cbn in H1, H2. subst cs held. wp_steps.
  rewrite i64_u64 by lia.
  exists g. rewrite len_app. split_and!; [done|done|lia|lia].
Qed.

Lemma writeRound_wp grant n s :
  SInv (viewOf s) → 0 < n → resEnd (s_send s) = s_end (s_send s) →
  wp (writeRoundLocked grant n) (λ r s', SInv (viewOf s') ∧ ended (s_app s') = ended (s_app s) ∧
    0 ≤ roundOf r ≤ n ∧ (∀ k pos, r = WRound k pos → 0 < k) ∧
    v_end (viewOf s') = v_end (viewOf s) ∧ v_res (viewOf s') = v_res (viewOf s) + roundOf r) s.
Proof.
  intros Hv Hn He. pose proof (SInv_bounds _ Hv) as Hb. pose proof (si_room _ Hv) as Hroom.
  pose proof (si_p _ Hv) as (Hw & Hol & _). cbn in Hb, Hroom, Hw, Hol.
  assert (∀ r s', viewOf s' = viewOf s → ended (s_app s') = ended (s_app s) → roundOf r = 0 →
    (∀ k pos, r ≠ WRound k pos) →
    SInv (viewOf s') ∧ ended (s_app s') = ended (s_app s) ∧
    0 ≤ roundOf r ≤ n ∧ (∀ k pos, r = WRound k pos → 0 < k) ∧
    v_end (viewOf s') = v_end (viewOf s) ∧ v_res (viewOf s') = v_res (viewOf s) + roundOf r) as Hstop.
  { intros r s' -> -> -> Hr. split_and!; try done; try lia. intros k pos ->. by destruct (Hr k pos). }
  unfold writeRoundLocked. wp_step. wp_step.
  destruct (closed (s_app s) || fin_requested (fin (s_fin s))) eqn:Hcl; [wp_step; by apply Hstop|].
  apply orb_false_iff in Hcl as [_ Hfin].
  destruct (ended (s_app s)) eqn:Hen; [wp_step; by apply Hstop|].
  destruct (exhausted (s_send s)); [wp_step; by apply Hstop|].
  wp_step. apply wp_Now. destruct (deadlinePassed _ _); [wp_step; by apply Hstop|].
  wp_step. eapply wp_mono; [apply earlyCap_wp|]. intros room s1 (Hr1 & E1 & E2 & E3 & E4). cbn in E1, E2, E3. change (viewOf (set_ticks _ s)) with (viewOf s) in E4.
  destruct (Z.ltb_spec 0 room) as [Hpos|]; [|wp_steps; apply Hstop; try done; cbn; by rewrite ?E3].
  assert (sendRoomLocked s = window (s_p s) - (resEnd (s_send s) - sBase (s_send s))) as Hsr.
  { unfold sendRoomLocked. rewrite i64_u64 by lia. done. }
  assert (0 < maxRound) as Hmr by done.
  cbv zeta. set (k0 := Z.min (Z.min n room) maxRound). assert (0 < k0 ≤ n ∧ k0 ≤ window (s_p s) - (resEnd (s_send s) - sBase (s_send s))) as [Hk0 Hk1].
  { cbn [sendRoomLocked] in *. change (sendRoomLocked (set_ticks _ s)) with (sendRoomLocked s) in Hr1. lia. }
  destruct (Z.ltb_spec (offsetLimit (s_p s)) (u64 (resEnd (s_send s) + k0))) as [|Hlim];
    [wp_steps; apply Hstop; try done; cbn; by rewrite ?E3|].
  rewrite wrap_small in Hlim by (unfold fits; lia).
  wp_step. eapply wp_mono; [apply reserve_wp; [by rewrite E4|lia]|].
  intros k s2 (g & -> & Hg & Hk & Hcov). rewrite E1 in *.
  assert (SInv (set_v_chunks (chunks (s_send s) ++ g) (set_v_res (resEnd (s_send s) + Z.max k 0) (viewOf s)))) as HS.
  { apply (SInv_reserve (viewOf s) g (Z.max k 0) Hv Hg); cbn; try lia.
    - intros _. unfold finOf. by rewrite Hfin. }
  assert (∀ s3, viewOf s3 = set_v_chunks (chunks (s_send s) ++ g) (set_v_res (resEnd (s_send s) + Z.max k 0) (viewOf s)) →
    SInv (viewOf s3)) as HS3 by (by intros s3 ->).
  destruct (Z.ltb_spec 0 k) as [Hkp|Hkn]; wp_steps; cbn [roundOf].
  - split_and!; [|cbn; by rewrite E3|lia|lia|by intros ? ? [= <- _]|done|cbn; apply wrap_small; unfold fits; lia].
    apply HS3. rewrite (Z.max_l k 0) by lia. rewrite <- E4. unfold viewOf. cbn. rewrite E1, wrap_small by (unfold fits; lia). done.
  - split_and!; [|cbn; by rewrite E3|lia|lia|done|done|cbn; lia].
    apply HS3. rewrite (Z.max_r k 0), Z.add_0_r by lia. rewrite <- E4. unfold viewOf. cbn. by rewrite E1.
Qed.

(** ** The copy of a round *)

Lemma byteAt_shift cs cb x : byteAt cs cb x = byteAt cs 0 (x - cb).
Proof. unfold byteAt. by rewrite Z.sub_0_r. Qed.

Lemma byteAt_app_split cs g y :
  0 ≤ y → byteAt (cs ++ g) 0 y = if y <? len cs * chunkSize then byteAt cs 0 y else byteAt g 0 (y - len cs * chunkSize).
Proof.
  intros Hy. unfold byteAt. rewrite !Z.sub_0_r. pose proof chunkSize_pos. pose proof (len_nonneg cs).
  assert (0 ≤ y / chunkSize) by (apply Z.div_pos; lia).
  destruct (Z.ltb_spec y (len cs * chunkSize)).
  - rewrite lookup_app_l; [done|]. assert (y / chunkSize < len cs) by (apply Z.div_lt_upper_bound; lia). unfold len in *. lia.
  - assert (len cs ≤ y / chunkSize) by (apply Z.div_le_lower_bound; lia).
    rewrite lookup_app_r by (unfold len in *; lia).
    assert ((y - len cs * chunkSize) / chunkSize = y / chunkSize - len cs) as ->.
    { replace (y - len cs * chunkSize) with (y + (- len cs) * chunkSize) by lia. rewrite Z.div_add by lia. lia. }
    assert ((y - len cs * chunkSize) mod chunkSize = y mod chunkSize) as ->.
    { replace (y - len cs * chunkSize) with (y + (- len cs) * chunkSize) by lia. by rewrite Z.mod_add by lia. }
    unfold len. f_equal. f_equal. lia.
Qed.

Lemma byteAt_cons (c : chunk) r y :
  0 ≤ y → byteAt (c :: r) 0 y = if y <? chunkSize then Some (c y) else byteAt r 0 (y - chunkSize).
Proof.
  intros Hy. pose proof chunkSize_pos. change (c :: r) with ([c] ++ r). rewrite byteAt_app_split by done.
  rewrite len_cons, (len_nil (A := chunk)). replace ((1 + 0) * chunkSize) with chunkSize by lia.
  destruct (Z.ltb_spec y chunkSize); [|done]. unfold byteAt. rewrite Z.sub_0_r, Z.div_small, Z.mod_small by lia. done.
Qed.

Lemma copyChunks_spec cs : ∀ pos src,
  0 ≤ pos < chunkSize → pos + len src ≤ len cs * chunkSize →
  ∃ cs', copyChunks cs pos src = Some cs' ∧ length cs' = length cs ∧
    ∀ y, 0 ≤ y → byteAt cs' 0 y = if (pos <=? y) && (y <? pos + len src)
                                  then Some (default 0 (src !! Z.to_nat (y - pos))) else byteAt cs 0 y.
Proof.
  pose proof chunkSize_pos as HC. induction cs as [|c cs IH]; intros pos src Hp Hl.
  { rewrite (len_nil (A := chunk)) in Hl. pose proof (len_nonneg src).
    assert (len src = 0) as Hs by lia. assert (pos = 0) by lia. destruct src; [|rewrite len_cons in Hs; pose proof (len_nonneg src); lia].
    exists []. split_and!; try done. intros y Hy. rewrite (len_nil (A := Z)). destruct (Z.leb_spec pos y); [|done].
    destruct (Z.ltb_spec y (pos + 0)); [lia|done]. }
  destruct src as [|z src'] eqn:Esrc.
  { exists (c :: cs). split_and!; try done. intros y Hy. rewrite (len_nil (A := Z)).
    destruct (Z.leb_spec pos y); [|done]. by destruct (Z.ltb_spec y (pos + 0)); [lia|]. }
  cbn [copyChunks]. rewrite <- Esrc in *. set (m := Z.min (chunkSize - pos) (len src)).
  assert (m = Z.min (chunkSize - pos) (len src)) as Hm by done. clearbody m.
  rewrite len_cons, Z.mul_add_distr_r in Hl.
  assert (1 ≤ len src) by (rewrite Esrc, len_cons; pose proof (len_nonneg src'); lia).
  assert (len (drop (Z.to_nat m) src) = len src - m) as Hd by (unfold len; rewrite length_drop; unfold len in *; lia).
  destruct (IH 0 (drop (Z.to_nat m) src)) as (r' & Hr & Hlr & Hb); [lia|rewrite Hd; pose proof (Z.mul_nonneg_nonneg (len cs) chunkSize (len_nonneg cs)); lia|].
  rewrite Hr. eexists. split; [done|]. split; [cbn; by rewrite Hlr|]. intros y Hy. rewrite !byteAt_cons by done.
  destruct (Z.ltb_spec y chunkSize).
  - destruct (Z.leb_spec pos y); cbn [andb]; [|done].
    destruct (Z.ltb_spec y (pos + m)); destruct (Z.ltb_spec y (pos + len src)); try done; lia.
  - rewrite Hb by lia. rewrite Hd. destruct (Z.leb_spec 0 (y - chunkSize)); [|lia]. cbn [andb].
    destruct (Z.leb_spec pos y); [|lia]. cbn [andb].
    destruct (Z.ltb_spec (y - chunkSize) (0 + (len src - m))); destruct (Z.ltb_spec y (pos + len src)); try lia; [|done].
    f_equal. f_equal. rewrite lookup_drop. f_equal. lia.
Qed.

Lemma len_take_drop (cs : list chunk) (i : nat) : (i ≤ length cs)%nat →
  len (take i cs) = Z.of_nat i ∧ len (drop i cs) = len cs - Z.of_nat i.
Proof. intros Hi. unfold len. rewrite length_take, length_drop. lia. Qed.

(** Writing [src] at position [d] of the chunks changes those bytes only. *)
Lemma copy_bytes cs d src :
  0 ≤ d → d + len src ≤ len cs * chunkSize → 0 < len src →
  let i := Z.to_nat (d / chunkSize) in
  ∃ cs', copyChunks (drop i cs) (d mod chunkSize) src = Some cs' ∧ length (take i cs ++ cs') = length cs ∧
    ∀ y, 0 ≤ y → byteAt (take i cs ++ cs') 0 y =
      if (d <=? y) && (y <? d + len src) then Some (default 0 (src !! Z.to_nat (y - d))) else byteAt cs 0 y.
Proof.
  intros Hd Hl Hs i. pose proof chunkSize_pos as HC. pose proof (Z.div_mod d chunkSize ltac:(lia)) as Hdm.
  pose proof (Z.mod_pos_bound d chunkSize ltac:(lia)) as Hm.
  assert (0 ≤ d / chunkSize < len cs) as Hi by (split; [apply Z.div_pos; lia|apply Z.div_lt_upper_bound; lia]).
  destruct (len_take_drop cs i) as [Ht Hdr]; [subst i; unfold len in Hi; lia|].
  assert (Z.of_nat i = d / chunkSize) as Hiz by (subst i; lia). rewrite Hiz in Ht, Hdr.
  destruct (copyChunks_spec (drop i cs) (d mod chunkSize) src) as (cs' & H1 & H2 & H3); [lia|rewrite Hdr; lia|].
  exists cs'. split; [done|]. split.
  { rewrite length_app, H2, <- length_app. by rewrite take_drop. }
  intros y Hy. rewrite byteAt_app_split by done. rewrite Ht.
  pose proof (byteAt_app_split (take i cs) (drop i cs) y Hy) as Hcs. rewrite take_drop, Ht in Hcs. rewrite Hcs.
  destruct (Z.ltb_spec y (d / chunkSize * chunkSize)).
  - destruct (Z.leb_spec d y); [lia|done].
  - rewrite H3 by lia.
    destruct (Z.leb_spec (d mod chunkSize) (y - d / chunkSize * chunkSize)), (Z.leb_spec d y); cbn [andb]; try lia; [|done].
    destruct (Z.ltb_spec (y - d / chunkSize * chunkSize) (d mod chunkSize + len src)), (Z.ltb_spec y (d + len src)); try lia; [|done].
    f_equal. f_equal. f_equal. lia.
Qed.

Lemma writeCopy_wp k s :
  SInv (viewOf s) → 0 < k → s_end (s_send s) + k = resEnd (s_send s) →
  wp (writeCopy (rng T (s_end (s_send s)) k)) (λ ok s', ok = true ∧ SInv (viewOf s') ∧
    viewOf s' = set_v_chunks (v_chunks (viewOf s')) (viewOf s) ∧ ended (s_app s') = ended (s_app s) ∧
    ∀ x, v_base (viewOf s) ≤ x < v_res (viewOf s) → byteAt (v_chunks (viewOf s')) (v_cbase (viewOf s)) x = Some (T x)) s.
Proof.
  intros Hv Hk He. pose proof (SInv_bounds _ Hv) as Hb. pose proof (si_cover _ Hv) as Hcov. cbn in Hb, Hcov.
  unfold writeCopy. wp_step. wp_step. cbv zeta. set (st := s_send s) in *.
  rewrite (wrap_small 64 (s_end st - cbase st)) by (unfold fits; lia).
  destruct (copy_bytes (chunks st) (s_end st - cbase st) (rng T (s_end st) k)) as (cs' & H1 & H2 & H3);
    [lia|rewrite len_rng by lia; lia|rewrite len_rng; lia|]. rewrite H1. wp_steps. cbn [viewOf v_chunks].
  assert (∀ x, sBase st ≤ x < resEnd st → byteAt (take (Z.to_nat ((s_end st - cbase st) / chunkSize)) (chunks st) ++ cs') (cbase st) x = Some (T x)) as Hall.
  { intros x Hx. rewrite byteAt_shift, H3 by lia. rewrite len_rng by lia.
    destruct (Z.leb_spec (s_end st - cbase st) (x - cbase st)), (Z.ltb_spec (x - cbase st) (s_end st - cbase st + k)); cbn [andb]; try lia.
    - replace (x - cbase st - (s_end st - cbase st)) with (x - s_end st) by lia. by rewrite rng_lookup by lia.
    - rewrite <- byteAt_shift. apply (si_bytes _ Hv). cbn. fold st. lia. }
  split_and!; try done. cbn. destruct Hv. constructor; cbn in *; try done.
  - destruct si_cap0. split; [done|]. by rewrite H2.
  - unfold len in *. rewrite H2. destruct si_cover0 as [?|[? ?]]; [by left|]. subst st. lia.
  - intros x Hx. apply Hall. subst st. lia.
Qed.

Lemma SInv_commit v :
  SInv v → (∀ x, v_base v ≤ x < v_res v → byteAt (v_chunks v) (v_cbase v) x = Some (T x)) → SInv (set_v_end (v_res v) v).
Proof. intros [] Hb. constructor; cbn; try done; lia. Qed.

(** ** The acknowledged front *)

(** What trimming at [to] may do to a list of spans. *)
Definition trimmed (to : Z) (l l' : list span) : Prop :=
  sl_wf l → sl_wf l' ∧ (∀ x, x ∈ sl_set l' → x ∈ sl_set l) ∧ (∀ x, to ≤ x → x ∈ sl_set l → x ∈ sl_set l').

Lemma trimmed_refl to l : trimmed to l l.
Proof. by intros ?. Qed.

Lemma trimmed_trans to l1 l2 l3 : trimmed to l1 l2 → trimmed to l2 l3 → trimmed to l1 l3.
Proof. intros H1 H2 Hw. destruct (H1 Hw) as (? & ? & ?). destruct H2 as (? & ? & ?); [done|]. split_and!; auto. Qed.

Lemma trims_refl to ls : Forall2 (trimmed to) ls ls.
Proof. induction ls; constructor; [apply trimmed_refl|done]. Qed.

Lemma trims_trans to l1 l2 l3 : Forall2 (trimmed to) l1 l2 → Forall2 (trimmed to) l2 l3 → Forall2 (trimmed to) l1 l3.
Proof.
  intros H. revert l3. induction H; intros l3 H3; inversion H3; subst; constructor; eauto using trimmed_trans.
Qed.

Lemma trimmed_trim to l : is_u64 to → trimmed to l (sl_trimBelow l to).
Proof.
  intros Ht Hw. destruct (sl_trimBelow_spec l to Hw Ht) as [H1 H2]. split_and!; [done|..]; intros x; rewrite H2, elem_of_filter; tauto.
Qed.

Definition trimSpan (to : Z) (o : option span) : option span :=
  match o with
  | Some sp => if sp_end sp <=? to then None
               else if sp_off sp <? to then Some (Span to (u64 (sp_end sp - to))) else Some sp
  | None => None
  end.

Lemma rescueOf_trim r to : rescueOf (trimRescue r to) = trimSpan to (rescueOf r).
Proof.
  unfold rescueOf, trimRescue, trimSpan. destruct (re_set r) eqn:E; [|by rewrite E].
  destruct (_ <=? _); [done|]. destruct (_ <? _); cbn; by rewrite ?E.
Qed.

Lemma popChunks_spec cs : ∀ cb to,
  0 ≤ cb ≤ to → to ≤ 2 ^ 62 →
  ∃ j : nat, (j ≤ length cs)%nat ∧ popChunks cs cb to = (drop j cs, cb + Z.of_nat j * chunkSize) ∧
    cb + Z.of_nat j * chunkSize ≤ to ∧ (j = length cs ∨ to < cb + Z.of_nat j * chunkSize + chunkSize).
Proof.
  pose proof chunkSize_pos. induction cs as [|c cs IH]; intros cb to Hcb Hto; cbn [popChunks].
  { exists 0%nat. cbn. split_and!; [lia|f_equal; lia|lia|by left]. }
  rewrite wrap_small by (unfold fits; lia). destruct (Z.leb_spec (cb + chunkSize) to).
  - destruct (IH (cb + chunkSize) to) as (j & H1 & -> & H3 & H4); [lia|lia|].
    exists (S j). cbn [drop length]. split_and!; [lia|f_equal; lia|lia|]. destruct H4; [left|right]; lia.
  - exists 0%nat. cbn [drop length]. split_and!; [lia|f_equal; lia|lia|right; lia].
Qed.

Definition advChunks (v : sview) (to : Z) : list chunk * Z :=
  if to =? v_res v then ([], to / chunkSize * chunkSize) else popChunks (v_chunks v) (v_cbase v) to.

Definition advance (to : Z) (infl : list (list span)) (v : sview) : sview :=
  SView (v_p v) (v_cap v) (advChunks v to).1 (advChunks v to).2 to (v_next v) (v_end v) (v_res v) (v_lim v)
        (sl_trimBelow (v_retx v) to) (trimSpan to (v_resc v)) infl (v_rnext v) (v_fin v).

(** The chunks after the front moved to [to]. *)
Lemma advChunks_spec v to :
  SInv v → v_base v ≤ to ≤ v_next v →
  let cs := (advChunks v to).1 in
  let cb := (advChunks v to).2 in
  (length cs ≤ length (v_chunks v))%nat ∧ 0 ≤ cb ≤ to ∧ to < cb + chunkSize ∧
  (v_res v ≤ cb + len cs * chunkSize ∨ cs = [] ∧ v_res v = to) ∧
  ∀ x, to ≤ x < v_res v → byteAt cs cb x = byteAt (v_chunks v) (v_cbase v) x.
Proof.
  intros Hv Ht. pose proof (SInv_bounds v Hv) as Hb. unfold advChunks.
  destruct (Z.eqb_spec to (v_res v)) as [->|Hne]; cbn [fst snd].
  { pose proof (Z.mod_pos_bound (v_res v) chunkSize ltac:(lia)). pose proof (Z.div_mod (v_res v) chunkSize ltac:(lia)).
    split_and!; [cbn; lia|apply Z.mul_nonneg_nonneg; [apply Z.div_pos; lia|lia]|lia|lia|by right|lia]. }
  destruct (popChunks_spec (v_chunks v) (v_cbase v) to) as (j & H1 & -> & H3 & H4); [lia|lia|]. cbn [fst snd].
  destruct (si_cover _ Hv) as [Hc|[_ ?]]; [|lia]. destruct (len_take_drop (v_chunks v) j H1) as [Htk Hdr].
  assert (to < v_cbase v + Z.of_nat j * chunkSize + chunkSize) as Hnear.
  { destruct H4 as [->|?]; [|done]. unfold len in Hc. lia. }
  split_and!; [rewrite length_drop; lia|lia|lia|lia|rewrite Hdr; left; lia|].
  intros x Hx. rewrite !(byteAt_shift _ (v_cbase v)). rewrite byteAt_shift.
  pose proof (byteAt_app_split (take j (v_chunks v)) (drop j (v_chunks v)) (x - v_cbase v) ltac:(lia)) as Hs.
  rewrite take_drop, Htk in Hs. rewrite Hs. destruct (Z.ltb_spec (x - v_cbase v) (Z.of_nat j * chunkSize)); [lia|].
  f_equal. lia.
Qed.

Lemma SInv_advance v to infl :
  SInv v → v_base v ≤ to ≤ v_next v → Forall2 (trimmed to) (v_infl v) infl → SInv (advance to infl v).
Proof.
  intros Hv Ht Hi. pose proof (SInv_bounds v Hv) as Hb.
  destruct (advChunks_spec v to Hv Ht) as (C1 & C2 & C3 & C4 & C5).
  assert (is_u64 to) as Hu by (unfold fits; lia).
  destruct (trimmed_trim to (v_retx v) Hu (proj1 (si_retx _ Hv))) as (R1 & R2 & R3).
  destruct (sl_trimBelow_spec (v_retx v) to (proj1 (si_retx _ Hv)) Hu) as [_ R4].
  pose proof Hv as []. constructor; cbn; try done; try lia.
  - intros x Hx. rewrite C5 by lia. apply si_bytes0. lia.
  - split; [done|]. intros x Hx. rewrite R4, elem_of_filter in Hx. destruct Hx as [? Hx]. apply si_retx0 in Hx. lia.
  - intros i l Hl. destruct (Forall2_lookup_r _ _ _ _ _ Hi Hl) as (l0 & Hl0 & Htr).
    destruct (si_infl0 _ _ Hl0) as [Hw Hx]. destruct (Htr Hw) as (? & ? & _). split; [done|]. auto.
  - intros sp. unfold trimSpan. destruct (v_resc v) as [sp0|] eqn:E; [|done].
    destruct (si_resc0 _ eq_refl) as ((W1 & W2 & W3) & W4 & W5). rewrite sp_end_wf by done.
    destruct (Z.leb_spec (sp_off sp0 + sp_n sp0) to); [done|].
    destruct (Z.ltb_spec (sp_off sp0) to); intros [= <-]; [|split_and!; try done; lia].
    rewrite wrap_small by (unfold fits; lia). unfold sp_wf. cbn. lia.
  - intros Hr x Hx. destruct (si_cov0 Hr x ltac:(lia)) as [Hx1|(i & l & Hl & Hx1)]; [left; apply R3; [lia|done]|right].
    destruct (Forall2_lookup_l _ _ _ _ _ Hi Hl) as (l' & Hl' & Htr). exists i, l'. split; [done|].
    destruct (Htr (proj1 (si_infl0 _ _ Hl))) as (_ & _ & H3). apply H3; [lia|done].
Qed.

End Inv.

(** What a step that writes nothing does to the written bytes: the ends of the
    stream stay, the front only moves up, and the bytes above it stay. *)
Definition bmove (v v' : sview) : Prop :=
  v_p v' = v_p v ∧ v_end v' = v_end v ∧ v_res v' = v_res v ∧ v_base v ≤ v_base v' ∧
  ∀ x, v_base v' ≤ x < v_res v → byteAt (v_chunks v') (v_cbase v') x = byteAt (v_chunks v) (v_cbase v) x.

Lemma bmove_refl v : bmove v v.
Proof. unfold bmove. split_and!; try done. Qed.

Lemma bmove_trans v1 v2 v3 : bmove v1 v2 → bmove v2 v3 → bmove v1 v3.
Proof.
  intros (A0 & A1 & A2 & A3 & A4) (B0 & B1 & B2 & B3 & B4). unfold bmove. split_and!; [congruence..|lia|].
  intros x Hx. rewrite B4 by (rewrite A2; lia). apply A4. lia.
Qed.

Lemma bmove_advance T v to infl : SInv T v → v_base v ≤ to ≤ v_next v → bmove v (advance to infl v).
Proof.
  intros Hv Ht. destruct (advChunks_spec T v to Hv Ht) as (_ & _ & _ & _ & C5). unfold bmove. cbn. split_and!; try done. lia.
Qed.

(** ** Steps that leave the view alone *)

Definition sendOf (s : Session) : sview * bool := (viewOf s, ended (s_app s)).

Lemma sendOf_dataOf s s' : dataOf s' = dataOf s → sendOf s' = sendOf s.
Proof.
  unfold dataOf, sendOf, viewOf. intros [= H1 H2 _ H4 H5 _ _ _ H9 _ _].
  assert (∀ {A} (g : lane → A), (∀ l, g (set_l_idle false l) = g l) → g <$> heap s' = g <$> heap s) as Hg.
  { intros A g Hg. rewrite <- (list_fmap_ext (g ∘ set_l_idle false) g (heap s')), <- (list_fmap_ext (g ∘ set_l_idle false) g (heap s)) by (intros; apply Hg).
    by rewrite !list_fmap_compose, H9. }
  by rewrite H1, H2, H4, H5, (Hg _ l_infl), (Hg _ l_rnext).
Qed.

Lemma sk_dataOf {A} (m : M A) : keeps dataOf m → keeps sendOf m.
Proof. intros H s. by apply sendOf_dataOf. Qed.

(** Changing lane fields other than the spans and the cursor. *)
Lemma sk_updLane i f : (∀ l, l_infl (f l) = l_infl l) → (∀ l, l_rnext (f l) = l_rnext l) → keeps sendOf (updLane i f).
Proof.
  intros H1 H2 s. unfold sendOf, viewOf, updLane, modify. cbn. f_equal. f_equal; apply list_eq; intros j;
    rewrite !list_lookup_fmap; (destruct (decide (i = j)) as [->|];
    [rewrite list_lookup_alter_eq|rewrite list_lookup_alter_ne by done]); destruct (heap s !! j); cbn; by rewrite ?H1, ?H2.
Qed.

Create HintDb sendk.
#[export] Hint Resolve keeps_ret keeps_get keeps_gets : sendk.
#[export] Hint Extern 2 (keeps sendOf (updLane _ _)) => (apply sk_updLane; intros; reflexivity) : sendk.
#[export] Hint Extern 3 (keeps sendOf _) => (intros ?; reflexivity) : sendk.
#[export] Hint Extern 4 (keeps sendOf _) => (apply sk_dataOf; solve [eauto with keeps]) : sendk.

(** Closes [keeps sendOf m] along the structure of [m]. *)
Ltac skeeps := keeps_by ltac:(eauto 3 with sendk).

Lemma sk_maybeDone : keeps sendOf maybeDoneLocked.
Proof. unfold maybeDoneLocked. skeeps. Qed.

Lemma sk_rst p : keeps sendOf (rstLocked p).
Proof. unfold rstLocked. skeeps. Qed.

Lemma sk_sched flags p : keeps sendOf (schedLocked flags p).
Proof. unfold schedLocked. skeeps. Qed.

Lemma sk_peerFinCheck : keeps sendOf peerFinCheckLocked.
Proof. unfold peerFinCheckLocked. skeeps. Qed.
#[export] Hint Resolve sk_maybeDone sk_rst sk_sched sk_peerFinCheck : sendk.

Lemma sk_fin off : keeps sendOf (finLocked off).
Proof. unfold finLocked. skeeps. Qed.

Lemma sk_consumeAll : keeps sendOf consumeAllLocked.
Proof. unfold consumeAllLocked. skeeps. Qed.
#[export] Hint Resolve sk_fin sk_consumeAll : sendk.

Lemma sk_recvData off p buf : keeps sendOf (recvDataLocked off p buf).
Proof. unfold recvDataLocked, raceDupLocked, recvPlaced, upd_rb. skeeps. Qed.
#[export] Hint Resolve sk_recvData : sendk.

Lemma sk_data l off p buf : keeps sendOf (Data l off p buf).
Proof. unfold Data, dataLocked, earlyDataLocked, upd_rb. skeeps. Qed.

Lemma sk_raiseEdge : keeps sendOf raiseEdgeLocked.
Proof. unfold raiseEdgeLocked. skeeps. Qed.
#[export] Hint Resolve sk_raiseEdge : sendk.

Lemma sk_read n : keeps sendOf (readBegin n) ∧ keeps sendOf (readCommit n).
Proof. unfold readBegin, readCommit. split; skeeps. Qed.

(** ** Steps that change it *)

Section Ops.
Context (T : Z → Z).

(** A step keeps the invariant of a live session, and an ended session stays
    ended. *)
Definition slive (s : Session) : Prop := ended (s_app s) = false → SInv T (viewOf s).

Lemma sendOf_inv s s' : sendOf s' = sendOf s → viewOf s' = viewOf s ∧ ended (s_app s') = ended (s_app s).
Proof. intros H. split; [exact (f_equal fst H)|exact (f_equal snd H)]. Qed.

Lemma slive_keeps {A} (m : M A) s : keeps sendOf m → slive s → slive (m s).2.
Proof. intros Hk Hs He. destruct (sendOf_inv _ _ (Hk s)) as [-> H]. apply Hs. by rewrite <- H. Qed.

Lemma forTrim to o : ∀ s, is_u64 to → ∃ h,
  (forM o (trimLane to) s).2 = set_heap h s ∧ l_rnext <$> h = l_rnext <$> heap s ∧
  Forall2 (trimmed to) (l_infl <$> heap s) (l_infl <$> h).
Proof.
  assert (∀ s, set_heap (heap s) s = s) as Hid by (by intros []).
  induction o as [|i o IH]; intros s Hu; cbn [forM].
  { exists (heap s). rewrite Hid. split_and!; try done. apply trims_refl. }
  assert (∃ h, (trimLane to i s).2 = set_heap h s ∧ l_rnext <$> h = l_rnext <$> heap s ∧
    Forall2 (trimmed to) (l_infl <$> heap s) (l_infl <$> h)) as (h1 & E1 & E2 & E3).
  { unfold trimLane, bind, getLane, gets, when, updLane, modify. cbn.
    match goal with |- context [if ?b then _ else _] => destruct b end; cbn.
    - eexists. split; [done|]. split.
      + apply list_eq. intros j. rewrite !list_lookup_fmap. destruct (decide (i = j)) as [->|];
          [rewrite list_lookup_alter_eq|rewrite list_lookup_alter_ne by done]; by destruct (heap s !! j).
      + apply Forall2_same_length_lookup. rewrite !length_fmap, length_alter. split; [done|].
        intros j l l'. rewrite !list_lookup_fmap. destruct (decide (i = j)) as [->|];
          [rewrite list_lookup_alter_eq|rewrite list_lookup_alter_ne by done]; destruct (heap s !! j); cbn; try done;
          intros [= <-] [= <-]; [by apply trimmed_trim|apply trimmed_refl].
    - exists (heap s). rewrite Hid. split_and!; try done. apply trims_refl. }
  unfold bind. destruct (trimLane to i s) as [[] s1]. cbn in E1. subst s1.
  destruct (IH (set_heap h1 s) Hu) as (h & F1 & F2 & F3). exists h. rewrite F1. cbn in *. split_and!; [done|congruence|].
  by eapply trims_trans.
Qed.

Lemma advanceSend_wp to now s :
  SInv T (viewOf s) → sBase (s_send s) ≤ to ≤ sNext (s_send s) →
  wp (advanceSendLocked to now) (λ _ s', (∃ infl, viewOf s' = advance to infl (viewOf s) ∧ SInv T (viewOf s')) ∧
    ended (s_app s') = ended (s_app s) ∧ s_fin s' = s_fin s) s.
Proof.
  intros Hv Ht. pose proof (SInv_bounds _ _ Hv) as Hb. cbn in Hb. unfold advanceSendLocked.
  wp_step. wp_step. wp_step. wp_step. wp_step.
  set (s1 := set_s_send _ s). destruct (forTrim to (order s1) s1) as (h & E1 & E2 & E3); [unfold fits; lia|].
  unfold wp at 1. rewrite E1. set (s2 := set_heap h s1).
  wp_step. wp_step. wp_step. wp_step. wp_step. wp_step. wp_step. wp_step. wp_step. wp_step. wp_step. wp_step. wp_step. wp_step.
  match goal with |- wp _ _ ?x => set (s3 := x) end.
  assert (viewOf s3 = advance to (l_infl <$> h) (viewOf s) ∧ ended (s_app s3) = ended (s_app s) ∧ s_fin s3 = s_fin s)
    as (Hvw & He & Hf).
  { split_and!; [|done|done]. subst s3. unfold viewOf, advance, advChunks. cbn -[popChunks].
    destruct (popChunks (chunks (s_send s)) (cbase (s_send s)) to) as [cs cb]. cbn.
    destruct (to =? resEnd (s_send s)); cbn; rewrite rescueOf_trim; change (heap s) with (heap s1); by rewrite <- E2. }
  assert ((∃ infl, viewOf s3 = advance to infl (viewOf s) ∧ SInv T (viewOf s3)) ∧
    ended (s_app s3) = ended (s_app s) ∧ s_fin s3 = s_fin s) as Hdone.
  { split_and!; [|done|done]. exists (l_infl <$> h). split; [done|]. rewrite Hvw. by apply SInv_advance. }
  clearbody s3. apply wp_when; intros _; [wp_step|]; exact Hdone.
Qed.

Lemma wp_sk {A} (m : M A) (Q : A → Session → Prop) s :
  keeps sendOf m → (∀ a s', sendOf s' = sendOf s → Q a s') → wp m Q s.
Proof. intros Hk HQ. apply HQ, Hk. Qed.

Lemma keeps_get_bind {A X} (π : Session → X) (k : Session → M A) :
  (∀ s, wp (k s) (λ _ s', π s' = π s) s) → keeps π (bind get k).
Proof. intros H s. apply H. Qed.

(** Recording that the peer acknowledged our FIN changes no offset. *)
Definition ackFin (finDelivered : bool) : M unit :=
  do s <- get;
  let f := fin (s_fin s) in
  when (finDelivered && negb (fin_acked f))
    (run (match fin_lane f with
          | Some fl => updLane fl (set_l_finHere false)
          | None => ret tt
          end);
     run upd_fin (set_fin (FinState (fin_requested f) true (fin_off f) None));
     run addFact factFinAcked;
     run ringActor;
     maybeDoneLocked).

Lemma sk_ackFin d : keeps sendOf (ackFin d).
Proof.
  apply keeps_get_bind. intros s. cbv zeta. apply wp_when; intros _; [|done]. wp_step.
  assert (∀ s1, sendOf s1 = sendOf s → s_fin s1 = s_fin s →
    wp (run upd_fin (set_fin (FinState (fin_requested (fin (s_fin s))) true (fin_off (fin (s_fin s))) None));
        run addFact factFinAcked; run ringActor; maybeDoneLocked) (λ _ s', sendOf s' = sendOf s) s1) as Hgo.
  { intros s1 H1 H2. wp_step. wp_step. apply wp_sk; [skeeps|]. intros _ s2 ->. rewrite <- H1.
    unfold sendOf, viewOf, finOf. cbn. by rewrite <- H2. }
  destruct (fin_lane (fin (s_fin s))); [|wp_step; by apply Hgo].
  assert (keeps sendOf (updLane n (set_l_finHere false))) as Hk by skeeps. wp_step. apply Hgo; [apply Hk|done].
Qed.

Lemma SInv_lim v lim : SInv T v → v_lim v ≤ lim → SInv T (set_v_lim lim v).
Proof. intros [] Hl. constructor; cbn; try done; lia. Qed.

(** The window part of an ACK. *)
Definition ackLimit (lim : Z) (now : Time) : M unit :=
  do s <- get;
  let st := s_send s in
  when (peerLimit st <? lim)
    (let before := Z.max (sNext st) (Z.min (s_end st) (peerLimit st)) in
     run upd_send (set_peerLimit lim);
     when (before <? Z.min (s_end st) lim)
       (do now <- (if IsZero now then Now else ret now); wakeDataLocked now)).

Lemma ackLimit_wp lim now s :
  wp (ackLimit lim now) (λ _ s', sendOf s' = (set_v_lim (Z.max (peerLimit (s_send s)) lim) (viewOf s), ended (s_app s))) s.
Proof.
  unfold ackLimit. wp_step. wp_step. cbv zeta. apply wp_when; [|intros Hl%Z.ltb_ge; rewrite (Z.max_l (peerLimit _)) by done; done].
  intros Hl%Z.ltb_lt. rewrite (Z.max_r (peerLimit (s_send s)) lim) by lia. wp_step. wp_step.
  apply wp_sk; [skeeps|]. by intros _ s' ->.
Qed.

(** What one ACK does to the send side: a violation changes nothing; otherwise
    the front moves to the acknowledged offset and the limit is raised, never
    lowered. *)
Lemma ack_wp l flags a s :
  SInv T (viewOf s) → 0 ≤ Ack.Delivered a →
  wp (ackLocked l flags a) (λ e s', match e with
    | Some e => s' = s ∧ ∃ v, e = EViolation v
    | None => SInv T (viewOf s') ∧ ended (s_app s') = ended (s_app s) ∧
        v_base (viewOf s') = Z.max (v_base (viewOf s)) (Ack.Delivered a) ∧
        v_lim (viewOf s') = Z.max (v_lim (viewOf s)) (u64 (Ack.Delivered a + Ack.Window a)) ∧
        v_next (viewOf s') = v_next (viewOf s) ∧ v_fin (viewOf s') = v_fin (viewOf s) ∧ bmove (viewOf s) (viewOf s')
    end) s.
Proof.
  intros Hv Hd. unfold ackLocked. wp_step. wp_step. cbv zeta.
  destruct (Z.ltb_spec (sNext (s_send s)) (Ack.Delivered a)) as [|Hn]; [wp_step; eauto|].
  destruct (Ack.Delivered a <? l_lastAck (lane_at s l)); [wp_step; eauto|].
  destruct (_ && (_ || _)); [wp_step; eauto|].
  wp_step. wp_step.
  assert (keeps sendOf (updLane l (set_l_lastAck (Ack.Delivered a)))) as Hk by skeeps.
  destruct (sendOf_inv _ _ (Hk s)) as [V1 E1]. set (s1 := (updLane l (set_l_lastAck (Ack.Delivered a)) s).2) in *.
  change (set_heap _ s) with s1. clearbody s1. wp_step.
  assert (∀ s2 now, SInv T (viewOf s2) → ended (s_app s2) = ended (s_app s) →
    v_base (viewOf s2) = Z.max (v_base (viewOf s)) (Ack.Delivered a) → v_lim (viewOf s2) = v_lim (viewOf s) →
    v_next (viewOf s2) = v_next (viewOf s) → v_fin (viewOf s2) = v_fin (viewOf s) → bmove (viewOf s) (viewOf s2) →
    wp (run ackLimit (u64 (Ack.Delivered a + Ack.Window a)) now;
        run ackFin (negb (Z.land flags FlagAckFinDelivered =? 0));
        run (do s <- get;
             when (negb (Z.land flags FlagAckDone =? 0) && negb (peerDone (s_fin s)))
               (run upd_fin (set_peerDone true);
                run addFact factPeerDone;
                ringActor));
        do s <- get;
        run when (negb (is_passive (p_Role (s_p s))) && EpochNewer (Ack.EpochEcho a) (echoIn (s_fin s)) &&
                  negb (EpochNewer (Ack.EpochEcho a) (c_epoch (s_ctl s))))
          (run upd_fin (set_echoIn (Ack.EpochEcho a));
           run addFact factEcho;
           ringActor);
        ret None) (λ e s', match e with
    | Some e => s' = s ∧ ∃ v, e = EViolation v
    | None => SInv T (viewOf s') ∧ ended (s_app s') = ended (s_app s) ∧
        v_base (viewOf s') = Z.max (v_base (viewOf s)) (Ack.Delivered a) ∧
        v_lim (viewOf s') = Z.max (v_lim (viewOf s)) (u64 (Ack.Delivered a + Ack.Window a)) ∧
        v_next (viewOf s') = v_next (viewOf s) ∧ v_fin (viewOf s') = v_fin (viewOf s) ∧ bmove (viewOf s) (viewOf s')
    end) s2) as Hgo.
  { intros s2 now HI He B1 B2 B3 B4 B5. wp_step. eapply wp_mono; [apply ackLimit_wp|].
    intros [] s3 H3. cbn beta in H3. wp_step. apply wp_sk; [apply sk_ackFin|]. intros _ s4 H4.
    wp_step. apply wp_sk; [skeeps|]. intros _ s5 H5. wp_step. wp_step. wp_step. apply wp_sk; [skeeps|]. intros _ s6 H6. wp_step.
    rewrite H5, H4, H3 in H6. pose proof (f_equal fst H6) as HV. pose proof (f_equal snd H6) as HE. cbn in HE.
    change (viewOf s6 = set_v_lim (Z.max (v_lim (viewOf s2)) (u64 (Ack.Delivered a + Ack.Window a))) (viewOf s2)) in HV.
    rewrite HV, HE. split_and!; cbn; try done; try congruence; [|cbn in B2; by rewrite B2].
    apply SInv_lim; [done|apply Z.le_max_l]. }
  destruct (Z.ltb_spec (sBase (s_send s)) (Ack.Delivered a)) as [Hlt|Hge].
  - wp_step. apply wp_sk; [skeeps|]. intros now s2 H2. destruct (sendOf_inv _ _ H2) as [V2 E2].
    wp_step. assert (SInv T (viewOf s2)) as I2 by (by rewrite V2, V1).
    assert (v_base (viewOf s2) = v_base (viewOf s) ∧ v_next (viewOf s2) = v_next (viewOf s)) as [Q1 Q2] by (by rewrite V2, V1).
    cbn in Q1, Q2.
    eapply wp_mono; [apply advanceSend_wp; [done|lia]|]. intros _ s3 ((infl & V3 & I3) & E3 & _). wp_step.
    assert (bmove (viewOf s) (viewOf s3)) as Hbm by (rewrite V3, V2, V1; eapply bmove_advance; [exact Hv|cbn; lia]).
    apply Hgo; [done|congruence|rewrite V3; cbn; lia|rewrite V3, V2, V1; done..|done].
  - wp_step. apply Hgo; [by rewrite V1|done|rewrite V1; cbn; lia|by rewrite V1..|rewrite V1; apply bmove_refl].
Qed.

(** ** Spans given back *)

Lemma view_infl s s' l : viewOf s' = viewOf s → l_infl (lane_at s' l) = l_infl (lane_at s l).
Proof.
  intros H. pose proof (f_equal (λ v, v_infl v !! l) H) as Hl. cbn in Hl. rewrite !list_lookup_fmap in Hl.
  unfold lane_at. destruct (heap s' !! l), (heap s !! l); cbn in *; congruence.
Qed.

Lemma fmap_alter {A B} (p : A → B) f g (h : list A) l :
  (∀ c, p (f c) = g (p c)) → p <$> alter f l h = alter g l (p <$> h).
Proof.
  intros H. apply list_eq. intros j. rewrite list_lookup_fmap. destruct (decide (l = j)) as [->|].
  - rewrite !list_lookup_alter_eq, list_lookup_fmap. destruct (h !! j); cbn; by rewrite ?H.
  - by rewrite !list_lookup_alter_ne, list_lookup_fmap.
Qed.

Lemma alter_alter {A} (f g : A → A) (h : list A) l : alter f l (alter g l h) = alter (f ∘ g) l h.
Proof. apply list_eq. intros j. destruct (decide (l = j)) as [->|]; [by rewrite !list_lookup_alter_eq; destruct (h !! j)|by rewrite !list_lookup_alter_ne]. Qed.

Lemma lane_at_alter s h f l : heap s = alter f l h → ∀ p : lane → list span, p dead_lane = [] →
  p (lane_at s l) = match h !! l with Some c => p (f c) | None => [] end.
Proof. intros H p Hp. unfold lane_at. rewrite H, list_lookup_alter_eq. by destruct (h !! l). Qed.

Lemma requeueSpans_spec l : ∀ keep rx n,
  Forall sp_wf l → sl_wf rx →
  sl_wf (requeueSpans l keep rx n).1 ∧
  sl_set (requeueSpans l keep rx n).1 = sl_set rx ∪ (if keep then ∅ else sl_set l).
Proof.
  induction l as [|sp l IH]; intros keep rx n Hl Hr; cbn [requeueSpans sl_set].
  { split; [done|]. destruct keep; set_solver. }
  inversion Hl as [|? ? (H1 & H2 & H3) Hl']; subst. destruct keep.
  - destruct (IH true rx (u64 (n + sp_n sp)) Hl' Hr) as [I1 I2]. done.
  - destruct (sl_add_spec rx (sp_off sp) (sp_n sp) Hr ltac:(lia) ltac:(lia) ltac:(lia)) as [A1 A2].
    destruct (IH false (sl_add rx (sp_off sp) (sp_n sp)) (u64 (n + sp_n sp)) Hl' A1) as [I1 I2].
    split; [done|]. rewrite I2, A2. unfold sp_set. set_solver.
Qed.

Lemma lookup_alter_nil (ls : list (list span)) l i x :
  alter (λ _, []) l ls !! i = Some x → x = [] ∧ i = l ∨ i ≠ l ∧ ls !! i = Some x.
Proof.
  destruct (decide (l = i)) as [->|].
  - rewrite list_lookup_alter_eq. destruct (ls !! i); cbn; [|done]. intros [= <-]. by left.
  - rewrite list_lookup_alter_ne by done. by right.
Qed.

Lemma SInv_requeue v l rx rn :
  SInv T v → sl_wf rx → (∀ x, x ∈ sl_set rx → v_base v ≤ x < v_next v) →
  (∀ i r, rn !! i = Some r → 0 ≤ r ≤ v_next v) →
  (is_race (p_Mode (v_p v)) = false → ∀ x, v_base v ≤ x →
    x ∈ sl_set (v_retx v) ∨ (∃ li, v_infl v !! l = Some li ∧ x ∈ sl_set li) → x ∈ sl_set rx) →
  SInv T (set_v_retx rx (set_v_infl (alter (λ _, []) l (v_infl v)) (set_v_rnext rn v))).
Proof.
  intros [] Hw Hx Hr Hc. constructor; cbn; try done.
  - intros i li Hli. apply lookup_alter_nil in Hli as [[-> _]|[_ Hli]]; [|eauto].
    split; [apply sl_wf_nil|]. cbn. set_solver.
  - intros Hrc x Hb. destruct (si_cov0 Hrc x Hb) as [H1|(i & li & H1 & H2)].
    + left. apply Hc; [done|lia|by left].
    + destruct (decide (i = l)) as [->|Hne]; [left; apply Hc; [done|lia|eauto]|].
      right. exists i, li. by rewrite list_lookup_alter_ne.
Qed.

Lemma alter_id {A} (h : list A) l : alter id l h = h.
Proof.
  apply list_eq. intros j. destruct (decide (l = j)) as [->|]; [rewrite list_lookup_alter_eq|by rewrite list_lookup_alter_ne].
  by destruct (h !! j).
Qed.

(** The view of a lane update. *)
Lemma view_setInfl g l s :
  viewOf (set_heap (alter (λ c, set_l_infl (g (l_infl c)) c) l (heap s)) s) = set_v_infl (alter g l (v_infl (viewOf s))) (viewOf s).
Proof.
  unfold viewOf, set_v_infl. cbn. f_equal; [by apply fmap_alter|]. by rewrite (fmap_alter _ _ id), alter_id.
Qed.

Lemma view_setRnext x l s :
  viewOf (set_heap (alter (set_l_rnext x) l (heap s)) s) = set_v_rnext (alter (λ _, x) l (v_rnext (viewOf s))) (viewOf s).
Proof.
  unfold viewOf, set_v_rnext. cbn. f_equal; [|by apply fmap_alter]. by rewrite (fmap_alter _ _ id), alter_id.
Qed.

(** requeueLocked empties the lane: what it had in flight and is not
    acknowledged is queued for retransmission. *)
Lemma requeue_wp l s :
  SInv T (viewOf s) →
  wp (requeueLocked l) (λ _ s', SInv T (viewOf s') ∧ ended (s_app s') = ended (s_app s) ∧ s_fin s' = s_fin s ∧
    l_infl (lane_at s' l) = [] ∧
    (is_race (p_Mode (s_p s)) = false → ∀ x, sBase (s_send s) ≤ x → x ∈ sl_set (l_infl (lane_at s l)) →
       x ∈ sl_set (retx (s_send s')))) s.
Proof.
  intros Hv. pose proof (SInv_bounds _ _ Hv) as Hb. cbn in Hb.
  assert (sl_wf (l_infl (lane_at s l)) ∧ ∀ x, x ∈ sl_set (l_infl (lane_at s l)) → x < sNext (s_send s)) as [Hwl Hxl].
  { unfold lane_at. destruct (heap s !! l) as [c|] eqn:E; cbn; [|split; [apply sl_wf_nil|set_solver]].
    apply (si_infl _ _ Hv l). cbn. by rewrite list_lookup_fmap, E. }
  destruct (sl_trimBelow_spec (l_infl (lane_at s l)) (sBase (s_send s)) Hwl) as [Ht1 Ht2]; [lia|].
  unfold requeueLocked. wp_step. wp_step. wp_step. wp_step. cbv zeta. wp_step.
  set (race := is_race (p_Mode (s_p s))). set (keep := race && raceOtherDataLaneLocked s l).
  set (g := λ c, (if race then set_l_rnext (sBase (s_send s)) else id) (set_l_infl (sl_trimBelow (l_infl c) (sBase (s_send s))) c)).
  assert (wp (when race (updLane l (set_l_rnext (sBase (s_send s))))) (λ _ s2, s2 = set_heap (alter g l (heap s)) s)
    (set_heap (alter (λ c, set_l_infl (sl_trimBelow (l_infl c) (sBase (s_send s))) c) l (heap s)) s)) as H2.
  { subst g. destruct race; cbn [when]; [|done]. wp_step. cbn. by rewrite alter_alter. }
  eapply wp_mono; [exact H2|]. intros _ s2 ->. clear H2.
  wp_step. apply wp_gets.
  rewrite (lane_at_alter (set_heap (alter g l (heap s)) s) (heap s) g l eq_refl l_infl eq_refl).
  assert (match heap s !! l with Some c => l_infl (g c) | None => [] end = sl_trimBelow (l_infl (lane_at s l)) (sBase (s_send s))) as ->.
  { unfold lane_at, g. destruct (heap s !! l); [|done]. by destruct race. }
  pose proof (requeueSpans_spec (sl_trimBelow (l_infl (lane_at s l)) (sBase (s_send s))) keep (retx (s_send s)) 0 (proj1 Ht1) (proj1 (si_retx _ _ Hv))) as [Q1 Q2].
  destruct (requeueSpans _ _ _ _) as [rx n]. cbn [fst] in Q1, Q2. wp_step. wp_step. wp_step. wp_step. wp_step.
  match goal with |- wp _ _ ?x => set (s3 := x) end.
  set (rn := if race then alter (λ _, sBase (s_send s)) l (l_rnext <$> heap s) else l_rnext <$> heap s).
  assert (viewOf s3 = set_v_retx rx (set_v_infl (alter (λ _, []) l (v_infl (viewOf s))) (set_v_rnext rn (viewOf s)))) as V3.
  { subst s3 rn. unfold viewOf, set_v_retx, set_v_infl, set_v_rnext. cbn. rewrite alter_alter. unfold g. f_equal.
    - by apply fmap_alter.
    - destruct race; [by apply fmap_alter|]. rewrite (fmap_alter _ _ id) by done.
      apply list_eq. intros j. destruct (decide (l = j)) as [->|]; [rewrite list_lookup_alter_eq|by rewrite list_lookup_alter_ne].
      by destruct (_ !! j). }
  assert (SInv T (viewOf s3)) as I3.
  { rewrite V3. apply SInv_requeue; [done|done|..].
    - intros x Hx. rewrite Q2 in Hx. apply elem_of_union in Hx as [Hx|Hx]; [by apply (si_retx _ _ Hv)|]. destruct keep; [set_solver|].
      rewrite Ht2, elem_of_filter in Hx. destruct Hx as [? Hx]. split; [done|]. by apply Hxl.
    - intros i r Hr. subst rn. destruct race; [|by apply (si_rnext _ _ Hv i)].
      destruct (decide (l = i)) as [->|]; [|rewrite list_lookup_alter_ne in Hr by done; by apply (si_rnext _ _ Hv i)].
      rewrite list_lookup_alter_eq in Hr. destruct (_ !! i); [|done]. cbn in Hr. injection Hr as <-. cbn. lia.
    - intros Hr x Hx Hin. rewrite Q2. subst keep race. cbn in Hr. rewrite Hr. cbn [andb].
      apply elem_of_union. destruct Hin as [?|(li & Hli & Hin)]; [by left|right]. rewrite Ht2, elem_of_filter. split; [done|].
      unfold lane_at. cbn in Hli. rewrite list_lookup_fmap in Hli. destruct (heap s !! l); [|done]. cbn in Hli. injection Hli as Hli. by rewrite <- Hli in Hin. }
  assert (SInv T (viewOf s3) ∧ ended (s_app s3) = ended (s_app s) ∧ s_fin s3 = s_fin s ∧ l_infl (lane_at s3 l) = [] ∧
    (is_race (p_Mode (s_p s)) = false → ∀ x, sBase (s_send s) ≤ x → x ∈ sl_set (l_infl (lane_at s l)) →
       x ∈ sl_set (retx (s_send s3)))) as Hdone.
  { split_and!; try done.
    - unfold lane_at. subst s3. cbn. rewrite list_lookup_alter_eq. by destruct (_ !! l).
    - intros Hr x Hx Hin. subst s3. cbn. rewrite Q2. subst keep race. rewrite Hr. cbn [andb].
      apply elem_of_union_r. by rewrite Ht2, elem_of_filter. }
  clearbody s3. apply wp_when; intros _; [|wp_step; exact Hdone].
  apply wp_keeps; [keeps|]. intros _ s4 H4. pose proof (sendOf_dataOf _ _ H4) as [HV HE]%sendOf_inv.
  apply dataOf_inv in H4 as (_ & _ & _ & HF & _). wp_step. rewrite (view_infl _ _ l HV), HV, HE, HF.
  change (retx (s_send s4)) with (v_retx (viewOf s4)). by rewrite HV.
Qed.

Lemma SInv_resc v o :
  SInv T v → (∀ sp, o = Some sp → sp_wf sp ∧ v_base v ≤ sp_off sp ∧ sp_off sp + sp_n sp ≤ v_next v) → SInv T (set_v_resc o v).
Proof. intros [] Ho. by constructor. Qed.

(** laneGoneLocked: as requeueLocked, and the lane holds no rescue. *)
Lemma laneGone_wp l s :
  SInv T (viewOf s) →
  wp (laneGoneLocked l) (λ r s', SInv T (viewOf s') ∧ ended (s_app s') = ended (s_app s) ∧
    (r = None → s' = s) ∧
    (r ≠ None → l_infl (lane_at s' l) = [] ∧
      (is_race (p_Mode (s_p s)) = false → ∀ x, sBase (s_send s) ≤ x → x ∈ sl_set (l_infl (lane_at s l)) →
         x ∈ sl_set (retx (s_send s'))))) s.
Proof.
  intros Hv. unfold laneGoneLocked. wp_step. wp_step.
  destruct (negb (is_dead (l_state (lane_at s l))) || l_data (lane_at s l)); [wp_step; by split_and!|].
  wp_step. apply wp_sk; [unfold orderRemove; skeeps|]. intros _ s1 H1. wp_step. apply wp_sk; [skeeps|]. intros _ s2 H2.
  wp_step. apply wp_sk; [skeeps|]. intros _ s3 H3. wp_step. apply wp_sk; [skeeps|]. intros _ s4 H4.
  wp_step. apply wp_sk; [skeeps|]. intros _ s5 H5. rewrite H4, H3, H2, H1 in H5. apply sendOf_inv in H5 as [HV HE]. wp_step.
  assert (wp (when (bool_decide (re_holder (rescue (s_send s)) = Some l)) (upd_send (set_rescue no_rescue)))
    (λ _ s6, SInv T (viewOf s6) ∧ ended (s_app s6) = ended (s_app s) ∧ s_p s6 = s_p s5 ∧ sBase (s_send s6) = sBase (s_send s5) ∧
      l_infl (lane_at s6 l) = l_infl (lane_at s5 l)) s5) as H6.
  { apply wp_when; intros _; [wp_step|]; (split_and!; [|done..]).
    - change (SInv T (set_v_resc None (viewOf s5))). apply SInv_resc; [by rewrite HV|done].
    - by rewrite HV. }
  eapply wp_mono; [exact H6|]. clear H6. intros _ s6 (I6 & E6 & P6 & B6 & L6). wp_step.
  eapply wp_mono; [by apply requeue_wp|]. intros n s7 (I7 & E7 & _ & L7 & Q7). cbn beta in Q7.
  rewrite P6, B6, L6, (view_infl _ _ l HV) in Q7.
  change (s_p s5) with (v_p (viewOf s5)) in Q7. change (sBase (s_send s5)) with (v_base (viewOf s5)) in Q7. rewrite HV in Q7.
  wp_step. apply wp_keeps; [keeps|]. intros _ s8 H8. apply sendOf_dataOf, sendOf_inv in H8 as [V8 E8]. wp_step.
  rewrite V8, E8, E7, E6. split_and!; try done. intros _. rewrite (view_infl _ _ l V8).
  change (retx (s_send s8)) with (v_retx (viewOf s8)). by rewrite V8.
Qed.

Lemma peerWindow_wp w s :
  SInv T (viewOf s) → wp (peerWindowLocked w) (λ _ s', SInv T (viewOf s') ∧ ended (s_app s') = ended (s_app s)) s.
Proof.
  intros Hv. unfold peerWindowLocked. wp_step. wp_step. cbv zeta. apply wp_when; [|done]. intros Hl%Z.ltb_lt. wp_step. wp_step.
  apply wp_sk; [skeeps|]. intros _ s' [-> ->]%sendOf_inv. split; [|done].
  change (SInv T (set_v_lim (u64 (sBase (s_send s) + w)) (viewOf s))). apply SInv_lim; [done|cbn; lia].
Qed.

Lemma applyRxNext_wp rx s :
  SInv T (viewOf s) → 0 ≤ rx →
  wp (applyRxNextLocked rx) (λ e s', SInv T (viewOf s') ∧ ended (s_app s') = ended (s_app s) ∧ bmove (viewOf s) (viewOf s') ∧
    (sBase (s_send s') = sBase (s_send s) ∨ sBase (s_send s') = rx) ∧ peerLimit (s_send s') = peerLimit (s_send s)) s.
Proof.
  intros Hv Hrx. pose proof (bmove_refl (viewOf s)) as B0.
  assert (sBase (s_send s) = sBase (s_send s) ∨ sBase (s_send s) = rx) as L0 by (by left). unfold applyRxNextLocked. wp_step. wp_step.
  destruct (Z.ltb_spec (sNext (s_send s)) rx) as [|Hn]; [by wp_step|]. wp_step. apply wp_when; [|intros _; by wp_step].
  intros [Hb%Z.ltb_lt _]%andb_prop. wp_step. apply wp_Now. wp_step.
  eapply wp_mono; [apply advanceSend_wp; [done|cbn; lia]|]. intros _ s1 ((infl & V1 & I1) & E1 & _). wp_step. wp_step.
  apply wp_sk; [skeeps|]. intros _ s2 [V2 E2]%sendOf_inv. wp_step. change (sBase (s_send s2)) with (v_base (viewOf s2)). change (peerLimit (s_send s2)) with (v_lim (viewOf s2)).
  rewrite V2, E2, E1. split_and!; try done; rewrite V1; [|by right|done].
  eapply bmove_advance; [exact Hv|cbn; lia].
Qed.

Lemma SInv_fin v : SInv T v → SInv T (set_v_fin (Some (v_res v)) v).
Proof. intros []. constructor; cbn; try done. by intros o [= <-]. Qed.

Lemma closeWrite_wp now s :
  SInv T (viewOf s) → wp (closeWriteLocked now) (λ _ s', SInv T (viewOf s') ∧ ended (s_app s') = ended (s_app s) ∧
    v_fin (viewOf s') = Some (v_res (viewOf s')) ∧ set_v_fin None (viewOf s') = set_v_fin None (viewOf s)) s.
Proof.
  intros Hv. unfold closeWriteLocked. wp_step. wp_step. destruct (fin_requested (fin (s_fin s))) eqn:Hf.
  { wp_step. split_and!; try done. pose proof (si_fin _ _ Hv (fin_off (fin (s_fin s)))) as H. cbn in *. unfold finOf in *. rewrite Hf in *. by rewrite H. }
  wp_step. wp_step. apply wp_sk; [skeeps|]. intros _ s1 [V1 E1]%sendOf_inv. rewrite V1, E1.
  change (viewOf (set_s_fin _ _)) with (set_v_fin (Some (v_res (viewOf s))) (viewOf s)). split_and!; try done. by apply SInv_fin.
Qed.

(** ** Commit, rescue and the early verdict *)

Lemma commit_wp k s :
  SInv T (viewOf s) → ended (s_app s) = false → s_end (s_send s) + k = resEnd (s_send s) →
  (∀ x, v_base (viewOf s) ≤ x < v_res (viewOf s) → byteAt (v_chunks (viewOf s)) (v_cbase (viewOf s)) x = Some (T x)) →
  wp (commitRoundLocked k) (λ e s', e = None ∧ SInv T (viewOf s') ∧ ended (s_app s') = false ∧
    viewOf s' = set_v_end (v_res (viewOf s)) (viewOf s)) s.
Proof.
  intros Hv He Hk Hb. pose proof (SInv_bounds _ _ Hv) as Hbd. cbn in Hbd. unfold commitRoundLocked.
  wp_step. wp_step. wp_step. wp_step. cbn [set_s_send s_app]. rewrite He. wp_step. apply wp_Now. cbv zeta.
  wp_step. wp_step. wp_step. wp_step. wp_step. wp_step.
  match goal with |- wp _ _ ?x => set (s1 := x) end.
  assert (viewOf s1 = set_v_end (v_res (viewOf s)) (viewOf s) ∧ ended (s_app s1) = false) as [V1 E1].
  { split; [|exact He]. subst s1. unfold viewOf. cbn. rewrite wrap_small by (unfold fits; lia). by rewrite Hk. }
  clearbody s1. wp_step. apply wp_sk; [skeeps|]. intros _ s2 [V2 E2]%sendOf_inv.
  wp_step. apply wp_sk; [skeeps|]. intros _ s3 [V3 E3]%sendOf_inv. wp_step.
  rewrite V3, V2, V1. split_and!; [done|by apply SInv_commit|congruence|done].
Qed.

Lemma sk_wakeRescue : keeps sendOf wakeRescueLocked.
Proof. unfold wakeRescueLocked. skeeps. Qed.

Lemma sk_routingChanged : keeps sendOf routingChangedLocked.
Proof. unfold routingChangedLocked. skeeps. Qed.

Lemma holderSpan_spec l x h :
  Forall sp_wf l → holderSpan l x = Some h → h ∈ l ∧ sp_off h ≤ x < sp_off h + sp_n h.
Proof.
  induction l as [|a l IH]; [done|]. intros Hw. inversion Hw; subst. cbn [holderSpan].
  destruct (Z.ltb_spec x (sp_off a)); [done|]. rewrite sp_end_wf by done. destruct (Z.ltb_spec x (sp_off a + sp_n a)).
  - intros [= <-]. split; [by left|lia].
  - intros Hh. destruct (IH ltac:(done) Hh). split; [by right|done].
Qed.

Lemma segment_pos p : 0 < segment p ≤ chunkSize.
Proof.
  unfold segment. pose proof chunkSize_pos. destruct ((0 <? p_Segment p) && (p_Segment p <? chunkSize)) eqn:E; [|lia].
  apply andb_prop in E as [E1%Z.ltb_lt E2%Z.ltb_lt]. rewrite wrap_small by (unfold fits; lia). lia.
Qed.

(** chunkEnd is the end of the chunk that holds the offset. *)
Lemma chunkEnd_spec s off :
  0 ≤ cbase (s_send s) → cbase (s_send s) ≤ off ≤ 2 ^ 62 →
  chunkEnd (s_send s) off = off + chunkSize - (off - cbase (s_send s)) mod chunkSize ∧
  off < chunkEnd (s_send s) off ≤ off + chunkSize.
Proof.
  intros Hv Ho. pose proof chunkSize_pos as Hb. unfold chunkEnd.
  rewrite (wrap_small 64 (off - _)) by (unfold fits; lia).
  pose proof (Z.mod_pos_bound (off - cbase (s_send s)) chunkSize ltac:(lia)).
  rewrite wrap_small by (unfold fits; lia). lia.
Qed.

(** The span of a rescue: bytes of the front the holder has in flight, within
    one chunk and one segment. *)
Lemma rescueHolder_spec s h sp :
  SInv T (viewOf s) → rescueHolderLocked s = Some (h, sp) →
  sp_wf sp ∧ sp_off sp = sBase (s_send s) ∧ sp_off sp + sp_n sp ≤ sNext (s_send s).
Proof.
  intros Hv. pose proof (SInv_bounds _ _ Hv) as Hb. cbn in Hb. unfold rescueHolderLocked. destruct (_ || _); [done|].
  induction (order s) as [|i o IH]; cbn [holderLoop]; [done|].
  destruct (holderSpan (l_infl (lane_at s i)) (sBase (s_send s))) as [a|] eqn:E; [|done]. intros [= <- <-].
  assert (sl_wf (l_infl (lane_at s i)) ∧ ∀ x, x ∈ sl_set (l_infl (lane_at s i)) → x < sNext (s_send s)) as [Hw Hx].
  { unfold lane_at in *. destruct (heap s !! i) as [c|] eqn:Ei; cbn in *; [|split; [apply sl_wf_nil|set_solver]].
    apply (si_infl _ _ Hv i). cbn. by rewrite list_lookup_fmap, Ei. }
  apply holderSpan_spec in E as [Ha Hin]; [|apply Hw].
  assert (sp_wf a) as Hwa by (destruct Hw as [Hw _]; rewrite Forall_forall in Hw; auto).
  rewrite sp_end_wf by done. destruct Hwa as (A1 & A2 & A3).
  assert (sp_off a + sp_n a - 1 < sNext (s_send s)) as Hle by (apply Hx, elem_of_sl_set; exists a; split; [done|lia]).
  destruct (chunkEnd_spec s (sBase (s_send s)) ltac:(lia) ltac:(lia)) as [_ Hce]. pose proof (segment_pos (s_p s)).
  rewrite (wrap_small 64 (sBase (s_send s) + segment (s_p s))) by (unfold fits; lia).
  set (e := Z.min _ _). assert (sBase (s_send s) < e ≤ sp_off a + sp_n a) by lia.
  rewrite wrap_small by (unfold fits; lia). cbn. unfold sp_wf. cbn. lia.
Qed.

Lemma rescue_wp now wait r s :
  SInv T (viewOf s) → wp (rescueLocked now wait r) (λ _ s', SInv T (viewOf s') ∧ ended (s_app s') = ended (s_app s)) s.
Proof.
  intros Hv. unfold rescueLocked. wp_step. wp_step. cbv zeta. destruct (_ || _); [by wp_step|].
  wp_step. apply wp_sk; [apply sk_wakeRescue|]. intros _ s1 [V1 E1]%sendOf_inv.
  assert (SInv T (viewOf s1)) as I1 by (by rewrite V1).
  destruct (Before _ _); [by wp_step|]. destruct (re_set _); [by wp_step|].
  destruct (rescueHolderLocked s) as [[h sp]|] eqn:Eh; [|by wp_step].
  apply rescueHolder_spec in Eh as (W1 & W2 & W3); [|done].
  destruct (_ || _); [|by wp_step]. wp_step. wp_step. wp_step. apply wp_sk; [apply sk_routingChanged|].
  intros _ s2 [V2 E2]%sendOf_inv. wp_step. apply wp_sk; [apply sk_wakeRescue|]. intros _ s3 [V3 E3]%sendOf_inv. wp_step.
  rewrite V3, V2, E3, E2. split; [|done].
  change (SInv T (set_v_resc (Some sp) (viewOf s1))). rewrite V1. apply SInv_resc; [done|].
  intros sp' [= <-]. cbn. split_and!; [done|lia|done].
Qed.

(** More bytes in flight: the next offset moves up to [next], the queues and
    cursors change within it, and nothing sent is lost. *)
Lemma SInv_flight v next rx infl rn :
  SInv T v → v_next v ≤ next ≤ v_end v → next ≤ v_lim v →
  sl_wf rx → (∀ x, x ∈ sl_set rx → v_base v ≤ x < next) →
  (∀ i l, infl !! i = Some l → sl_wf l ∧ ∀ x, x ∈ sl_set l → x < next) →
  (∀ i r, rn !! i = Some r → 0 ≤ r ≤ next) →
  (is_race (p_Mode (v_p v)) = false → ∀ x, v_base v ≤ x < next →
    x ∈ sl_set rx ∨ ∃ i l, infl !! i = Some l ∧ x ∈ sl_set l) →
  SInv T (set_v_next next (set_v_retx rx (set_v_infl infl (set_v_rnext rn v)))).
Proof.
  intros [] Hn Hl Hw Hx Hi Hr Hc. constructor; cbn; try done; try lia.
  intros sp Hsp. destruct (si_resc0 sp Hsp) as (? & ? & ?). split_and!; try done; lia.
Qed.

(** One lane's list changed by adding a range below [next]. *)
Lemma infl_add v l off n next :
  SInv T v → v_next v ≤ next ≤ 2 ^ 62 → 0 ≤ off → 0 ≤ n → off + n ≤ next →
  (∀ i li, alter (λ c, sl_add c off n) l (v_infl v) !! i = Some li → sl_wf li ∧ ∀ x, x ∈ sl_set li → x < next) ∧
  (∀ i li x, v_infl v !! i = Some li → x ∈ sl_set li →
    ∃ j lj, alter (λ c, sl_add c off n) l (v_infl v) !! j = Some lj ∧ x ∈ sl_set lj) ∧
  ((l < length (v_infl v))%nat → ∀ x, off ≤ x < off + n →
    ∃ j lj, alter (λ c, sl_add c off n) l (v_infl v) !! j = Some lj ∧ x ∈ sl_set lj).
Proof.
  intros Hv Hn Ho Hk He.
  assert (∀ li, v_infl v !! l = Some li → sl_wf (sl_add li off n) ∧ sl_set (sl_add li off n) = sl_set li ∪ range off (off + n)) as Ha.
  { intros li Hli. apply sl_add_spec; try done; [by apply (si_infl _ _ Hv l)|lia]. }
  split_and!.
  - intros i li Hi. destruct (decide (l = i)) as [->|Hne].
    + rewrite list_lookup_alter_eq in Hi. destruct (v_infl v !! i) as [l0|] eqn:E; [|done]. cbn in Hi. injection Hi as <-.
      destruct (Ha l0 eq_refl) as [A1 A2]. split; [done|]. intros x. rewrite A2, elem_of_union, elem_of_range.
      destruct (si_infl _ _ Hv _ _ E) as [_ Hx]. intros [Hin|?]; [specialize (Hx x Hin)|]; lia.
    + rewrite list_lookup_alter_ne in Hi by done. destruct (si_infl _ _ Hv _ _ Hi) as [Hw Hx]. split; [done|].
      intros x Hin. specialize (Hx x Hin). lia.
  - intros i li x Hi Hx. destruct (decide (l = i)) as [->|Hne].
    + exists i, (sl_add li off n). rewrite list_lookup_alter_eq, Hi. split; [done|]. destruct (Ha li Hi) as [_ ->]. set_solver.
    + exists i, li. by rewrite list_lookup_alter_ne.
  - intros Hl x Hx. destruct (lookup_lt_is_Some_2 _ _ Hl) as [li Hli]. exists l, (sl_add li off n).
    rewrite list_lookup_alter_eq, Hli. split; [done|]. destruct (Ha li Hli) as [_ ->].
    apply elem_of_union_r, elem_of_range. lia.
Qed.

(** The actor calls earlyVerdictLocked at the first OPEN_ACK(OK), when nothing
    was acknowledged yet; a peer that took the early span has opened a window
    over it. *)
Definition verdictOk (s : Session) (l : nat) (k0 kw : Z) : Prop :=
  (l < length (heap s))%nat ∧ sBase (s_send s) = p_FirstOffset (s_p s) ∧ 0 ≤ kw ≤ k0 ∧
  p_FirstOffset (s_p s) + k0 ≤ Z.min (s_end (s_send s)) (peerLimit (s_send s)).

Lemma verdict_wp l k0 kw now s :
  SInv T (viewOf s) → verdictOk s l k0 kw →
  wp (earlyVerdictLocked l k0 kw now) (λ _ s', SInv T (viewOf s') ∧ ended (s_app s') = ended (s_app s)) s.
Proof.
  intros Hv (Hl & Hb0 & Hk & Hlim). pose proof (SInv_bounds _ _ Hv) as Hb. cbn in Hb. unfold earlyVerdictLocked.
  wp_step. wp_step. wp_step. wp_step. cbn [set_s_recv s_p s_send]. destruct (Z.eqb_spec k0 0); [by wp_step|].
  cbv zeta. set (base := p_FirstOffset (s_p s)) in *.
  rewrite !(wrap_small 64 (base + _)) by (unfold fits; lia). rewrite (wrap_small 64 (k0 - kw)) by (unfold fits; lia).
  wp_step. wp_step. wp_step. wp_step. wp_step.
  match goal with |- wp _ _ ?x => set (s1 := x) end.
  set (N := Z.max (sNext (s_send s)) (base + k0)).
  set (infl := alter (λ c, sl_add c base kw) l (v_infl (viewOf s))).
  assert (viewOf s1 = set_v_next N (set_v_infl infl (viewOf s)) ∧ ended (s_app s1) = ended (s_app s)) as [V1 E1].
  { split; [|done]. subst s1. etrans; [apply (view_setInfl (λ c, sl_add c base kw))|done]. }
  assert (N ≤ s_end (s_send s) ∧ sNext (s_send s) ≤ N ∧ base + k0 ≤ N ∧ (N = sNext (s_send s) ∨ N = base + k0)) as (N1 & N2 & N3 & N4) by (unfold N; lia).
  pose proof (si_lim _ _ Hv) as Hnl. cbn in Hnl.
  destruct (infl_add (viewOf s) l base kw N Hv) as (A1 & A2 & A3); [cbn; lia|lia|lia|lia|]. fold infl in A1, A2, A3.
  assert (∀ s2 rx rn, viewOf s2 = set_v_next N (set_v_retx rx (set_v_infl infl (set_v_rnext rn (viewOf s)))) →
    ended (s_app s2) = ended (s_app s) → sl_wf rx → (∀ x, x ∈ sl_set rx → base ≤ x < N) →
    (∀ i r, rn !! i = Some r → 0 ≤ r ≤ N) →
    (is_race (p_Mode (s_p s)) = false → ∀ x, x ∈ sl_set (retx (s_send s)) ∨ base + kw ≤ x < base + k0 → x ∈ sl_set rx) →
    wp (wakeDataLocked now) (λ _ s', SInv T (viewOf s') ∧ ended (s_app s') = ended (s_app s)) s2) as Hgo.
  { intros s2 rx rn V2 E2 W1 W2 W3 W4. apply wp_sk; [skeeps|]. intros _ s3 [-> ->]%sendOf_inv. split; [|done]. rewrite V2.
    apply SInv_flight; try done; cbn; try lia; [rewrite Hb0; done|].
    intros Hr x Hx. destruct (decide (x < sNext (s_send s))) as [Hlt|Hge].
    - destruct (si_cov _ _ Hv Hr x ltac:(cbn; lia)) as [Hx1|(i & li & Hi & Hx1)]; [left; apply W4; [done|by left]|right].
      cbn in Hi, Hx1. by apply (A2 i li x).
    - destruct (decide (x < base + kw)); [right; apply A3; [cbn; by rewrite length_fmap|lia]|left].
      apply W4; [done|right; lia]. }
  pose proof (si_retx _ _ Hv) as [R1 R2]. cbn in R1, R2.
  destruct (is_race (p_Mode (s_p s))) eqn:Hrace.
  - wp_step. apply (Hgo _ (retx (s_send s)) (alter (λ _, base + kw) l (l_rnext <$> heap s))); try done.
    + by rewrite view_setRnext, V1.
    + intros x Hx. apply R2 in Hx. lia.
    + intros i r Hr. destruct (decide (l = i)) as [->|].
      * rewrite list_lookup_alter_eq in Hr. destruct (_ !! i); [|done]. injection Hr as <-. lia.
      * rewrite list_lookup_alter_ne in Hr by done. apply (si_rnext _ _ Hv i) in Hr. cbn in Hr. lia.
  - assert (∀ i r, (l_rnext <$> heap s) !! i = Some r → 0 ≤ r ≤ N) as Hrn.
    { intros i r Hr. apply (si_rnext _ _ Hv i) in Hr. cbn in Hr. lia. }
    destruct (sl_add_spec (retx (s_send s)) (base + kw) (k0 - kw) R1) as [S1 S2]; [lia|lia|lia|].
    destruct (Z.ltb_spec kw k0) as [Hlt|Hge]; cbn [when].
    + wp_step. apply (Hgo _ (sl_add (retx (s_send s)) (base + kw) (k0 - kw)) (l_rnext <$> heap s)); try done.
      * change (viewOf _) with (set_v_retx (sl_add (retx (s_send s)) (base + kw) (k0 - kw)) (viewOf s1)) at 1. by rewrite V1.
      * intros x. rewrite S2, elem_of_union, elem_of_range. intros [Hx|?]; [apply R2 in Hx|]; lia.
      * intros _ x Hx. rewrite S2, elem_of_union, elem_of_range. destruct Hx; [by left|right; lia].
    + wp_step. apply (Hgo _ (retx (s_send s)) (l_rnext <$> heap s)); try done.
      * intros x Hx. apply R2 in Hx. lia.
      * intros _ x [?|?]; [done|lia].
Qed.

Lemma raceAttach_wp l s :
  SInv T (viewOf s) → wp (raceAttachLocked l) (λ _ s', SInv T (viewOf s') ∧ ended (s_app s') = ended (s_app s)) s.
Proof.
  intros Hv. unfold raceAttachLocked. wp_step. wp_step. apply wp_when; [|done]. intros Hr. wp_step. split; [|done].
  rewrite view_setRnext. destruct Hv. constructor; cbn in *; try done.
  intros i r Hi. destruct (decide (l = i)) as [->|].
  - rewrite list_lookup_alter_eq in Hi. destruct (_ !! i); [|done]. injection Hi as <-. lia.
  - rewrite list_lookup_alter_ne in Hi by done. eauto.
Qed.
End Ops.
