(* ===== verification/SessFillProofs.v ===== *)
(** * The DATA a Fill places

    The loops of fillDataLocked and raceFillDataLocked never panic and end
    within their fuel; every DATA frame they place carries the bytes the
    application wrote, between the acknowledged front and the peer's limit;
    and the send invariant holds again afterwards. *)

From Stdlib Require Import ZArith Lia.
From stdpp Require Import base numbers list sorting gmap sets.
From S2P Require Import Prelude Buffers WireConst WireFrame Codec WirePayload GoTime SchedTiming CarrierBuf Spans.
From S2P Require Import RecvSegs RecvProofs SessState SessDuty SessRecv SessFin SessSend CarrierBatch BatchWire.
From S2P Require Import SessFill SessSendInv.

Open Scope Z_scope.
Open Scope rendr_scope.

(** ** Weakest preconditions of FM *)

Definition fwp {A} (m : FM A) (Q : A → Batch → Session → Prop) (b : Batch) (s : Session) : Prop :=
  match m b s with Ok (a, b', s') => Q a b' s' | _ => False end.

Lemma fwp_ret {A} (a : A) (Q : A → Batch → Session → Prop) b s : Q a b s → fwp (fret a) Q b s.
Proof. done. Qed.

Lemma fwp_bind {A B} (m : FM A) (k : A → FM B) Q b s :
  fwp m (λ a b' s', fwp (k a) Q b' s') b s → fwp (fbind m k) Q b s.
Proof. unfold fwp, fbind. by destruct (m b s) as [[[a b'] s']| |]. Qed.

Lemma fwp_lift {A} (m : M A) (Q : A → Batch → Session → Prop) b s : wp m (λ a s', Q a b s') s → fwp (lift m) Q b s.
Proof. done. Qed.

Lemma fwp_get (Q : Session → Batch → Session → Prop) b s : Q s b s → fwp (lift get) Q b s.
Proof. done. Qed.

Lemma fwp_getB (Q : Batch → Batch → Session → Prop) b s : Q b b s → fwp getB Q b s.
Proof. done. Qed.

Lemma fwp_modB f (Q : unit → Batch → Session → Prop) b s : Q tt (f b) s → fwp (modB f) Q b s.
Proof. done. Qed.

Lemma fwp_mono {A} (m : FM A) (P Q : A → Batch → Session → Prop) b s :
  fwp m P b s → (∀ a b' s', P a b' s' → Q a b' s') → fwp m Q b s.
Proof. unfold fwp. destruct (m b s) as [[[a b'] s']| |]; auto. Qed.

Lemma fwp_fwhen c m (Q : unit → Batch → Session → Prop) b s :
  (c = true → fwp m Q b s) → (c = false → Q tt b s) → fwp (fwhen c m) Q b s.
Proof. destruct c; cbn; auto. Qed.

(** A call of the batch. *)
Lemma fwp_add o (Q : bool → Batch → Session → Prop) b s :
  BInv b → op_wf o → (∀ ok b', added b (op_frame 0 o) ok b' → Q ok b' s) → fwp (add (op_apply o)) Q b s.
Proof.
  intros Hb Ho HQ. destruct (op_spec o b Hb Ho) as (ok & b' & E & Ha). unfold fwp, add. rewrite E. cbn. by apply HQ.
Qed.

Ltac fwp_step :=
  lazymatch goal with
  | |- fwp (fbind _ _) _ _ _ => apply fwp_bind
  | |- fwp (fret _) _ _ _ => apply fwp_ret
  | |- fwp (lift get) _ _ _ => apply fwp_get
  | |- fwp (lift _) _ _ _ => apply fwp_lift
  | |- fwp getB _ _ _ => apply fwp_getB
  | |- fwp (modB _) _ _ _ => apply fwp_modB
  end.

Lemma rng_shift f g a b n : (∀ i, 0 ≤ i < n → f (a + i) = g (b + i)) → rng f a n = rng g b n.
Proof.
  intros H. unfold rng. apply list_eq. intros i. rewrite !list_lookup_fmap.
  destruct (decide (Z.of_nat i < n)).
  - rewrite !lookup_seqZ_lt by lia. cbn. f_equal. apply H. lia.
  - by rewrite !lookup_seqZ_ge by lia.
Qed.

Section Fill.
Context (T : Z → Z).
Context (HT : ∀ x, is_u8 (T x)).

Lemma Bytes_rng a n : Bytes (rng T a n).
Proof. unfold rng. apply Forall_fmap, Forall_true. intros x. apply HT. Qed.

(** What Fill leaves alone while it places DATA. *)
Definition rest (s : Session) := (s_p s, s_recv s, s_app s, s_fin s, s_ack s, s_ctl s, l_handle <$> heap s).

Lemma rest_handle s s' l : l_handle <$> heap s' = l_handle <$> heap s → Handle (lane_at s' l) = Handle (lane_at s l).
Proof.
  intros H. pose proof (f_equal (.!! l) H) as Hl. cbn in Hl. rewrite !list_lookup_fmap in Hl. unfold Handle, lane_at.
  destruct (heap s' !! l), (heap s !! l); cbn in *; try done. by injection Hl as ->.
Qed.

(** One DATA frame of [off, off+n).  The invariant is taken at a next offset
    [N]: a race lane records its bytes in flight before it moves sNext. *)
Lemma addData_fwp N l off n retx sent b s :
  BInv b → SInv T (set_v_next N (viewOf s)) → handle_ok (Handle (lane_at s l)) →
  0 < n → sBase (s_send s) ≤ off → off + n ≤ s_end (s_send s) →
  fwp (addDataLocked l off n retx sent) (λ x b' s',
    x = (0, sent) ∧ b' = b ∧ s' = s ∨
    ∃ k, x = (k, true) ∧ 0 < k ≤ n ∧
      added b (op_frame 0 (OpData (Handle (lane_at s l)) off (rng T off k) retx)) true b' ∧
      op_wf (OpData (Handle (lane_at s l)) off (rng T off k) retx) ∧
      viewOf s' = set_v_infl (alter (λ c, sl_add c off k) l (v_infl (viewOf s))) (viewOf s) ∧ rest s' = rest s) b s.
Proof.
  intros Hb Hv Hh Hn Ho He. pose proof (SInv_bounds _ _ Hv) as Hbd. cbn in Hbd. set (st := s_send s) in *.
  destruct (chunkEnd_spec s off) as [Hce1 Hce2]; [fold st; lia|fold st; lia|]. fold st in Hce1, Hce2.
  pose proof (segment_pos (s_p s)) as Hseg.
  unfold addDataLocked. fwp_step. fwp_step. fwp_step. fwp_step. cbv zeta. fold st.
  rewrite (wrap_small 64 (chunkEnd st off - off)) by (unfold fits; lia).
  set (n1 := Z.min (Z.min n (chunkEnd st off - off)) (segment (s_p s))).
  assert (0 < n1 ≤ n ∧ n1 ≤ chunkEnd st off - off) as [Hn1 Hn1c] by lia. clearbody n1.
  set (room := Z.max (Room b) 0). assert (0 ≤ room) by lia. clearbody room.
  destruct ((room <? n1) && (sent || (room =? 0))) eqn:Hstop; [fwp_step; by left|].
  set (k := if room <? n1 then room else n1).
  assert (0 < k ≤ n1) as Hk.
  { subst k. destruct (Z.ltb_spec room n1); [|lia]. cbn in Hstop. apply orb_false_iff in Hstop as [_ Hz%Z.eqb_neq]. lia. }
  clearbody k. clear Hstop.
  unfold chunkFor. rewrite (wrap_small 64 (off - cbase st)) by (unfold fits; lia).
  pose proof (byteAt_cover T (set_v_next N (viewOf s)) off Hv ltac:(cbn; fold st; lia) ltac:(cbn; fold st; lia)) as Hidx. cbn in Hidx. fold st in Hidx.
  destruct (chunks st !! Z.to_nat ((off - cbase st) / chunkSize)) as [c|] eqn:Ec.
  2:{ apply lookup_ge_None in Ec. unfold len in Hidx. lia. }
  set (pos := (off - cbase st) mod chunkSize) in *.
  pose proof (Z.mod_pos_bound (off - cbase st) chunkSize ltac:(lia)) as Hpos. fold pos in Hpos.
  destruct (Z.ltb_spec chunkSize (pos + k)); [lia|].
  assert (rng c pos k = rng T off k) as ->.
  { apply rng_shift. intros i Hi. pose proof (si_bytes _ _ Hv (off + i) ltac:(cbn; fold st; lia)) as Hby. cbn in Hby. fold st in Hby.
    pose proof (Z.div_mod (off - cbase st) chunkSize ltac:(lia)) as Hdm. fold pos in Hdm.
    unfold byteAt in Hby.
    assert ((off + i - cbase st) / chunkSize = (off - cbase st) / chunkSize) as Hq.
    { symmetry. apply (Z.div_unique_pos _ _ _ (pos + i)); lia. }
    assert ((off + i - cbase st) mod chunkSize = pos + i) as Hm.
    { symmetry. apply (Z.mod_unique_pos _ _ ((off - cbase st) / chunkSize)); lia. }
    rewrite Hq, Hm, Ec in Hby. cbn in Hby. congruence. }
  assert (op_wf (OpData (Handle (lane_at s l)) off (rng T off k) retx)) as Hwf.
  { split; [done|]. unfold Data.wf. cbn [fst snd]. rewrite len_rng by lia. rewrite MaxFramePayload_eq.
    split_and!; [unfold fits; lia|apply Bytes_rng|lia| |lia].
    assert (chunkSize = 65536) by done. unfold DataPrefixLen. lia. }
  fwp_step. apply (fwp_add (OpData (Handle (lane_at s l)) off (rng T off k) retx)); [done|done|].
  intros ok b' Ha. destruct ok.
  2:{ fwp_step. left. destruct Ha as (_ & _ & Hbb). by rewrite Hbb. }
  fwp_step. fwp_step. wp_step. fwp_step. fwp_step.
  set (s1 := set_heap _ s).
  assert (viewOf s1 = set_v_infl (alter (λ c, sl_add c off k) l (v_infl (viewOf s))) (viewOf s)) as V1
    by (apply (view_setInfl (λ c, sl_add c off k))).
  assert (rest s1 = rest s) as R1.
  { unfold rest. cbn. f_equal. by rewrite (fmap_alter _ _ id), alter_id. }
  clearbody s1. apply wp_when; intros _; [wp_step|]; fwp_step; right; exists k; split_and!; try done; lia.
Qed.

(** ** What the steps of a Fill preserve *)

(** What is true of a placed frame, for a Fill that started in [s] and left
    the next offset at [N] and the right edge at [R]. *)
Definition opSound (s : Session) (N R : Z) (o : bop) : Prop :=
  match o with
  | OpData _ off body _ => sBase (s_send s) ≤ off ∧ body = rng T off (len body) ∧ off + len body ≤ N
  | OpFin _ off => v_fin (viewOf s) = Some off
  | OpAck _ _ a => Ack.Delivered a = rRead (s_recv s) ∧ rRead (s_recv s) + Ack.Window a ≤ Z.max R (rRead (s_recv s))
  | _ => True
  end.

(** What a Fill never changes. *)
Definition fixed (s : Session) :=
  (s_p s, sBase (s_send s), s_end (s_send s), resEnd (s_send s), peerLimit (s_send s),
   finOf (fin (s_fin s)), rRead (s_recv s), ended (s_app s), l_handle <$> heap s, (chunks (s_send s), cbase (s_send s))).

Record frel (N : Z) (b : Batch) (s : Session) (N' : Z) (b' : Batch) (s' : Session) : Prop := {
  fr_b : BInv b';
  fr_s : SInv T (set_v_next N' (viewOf s'));
  fr_fixed : fixed s' = fixed s;
  fr_next : N ≤ N';
  fr_edge : rightEdge (s_recv s) ≤ rightEdge (s_recv s');
  fr_ops : ∃ os, frames_of b' = frames_of b ++ (op_frame 0 <$> os) ∧ Forall op_wf os ∧
    Forall (opSound s N' (rightEdge (s_recv s'))) os
}.

Lemma fixed_inv s s' : fixed s' = fixed s →
  s_p s' = s_p s ∧ sBase (s_send s') = sBase (s_send s) ∧ s_end (s_send s') = s_end (s_send s) ∧
  peerLimit (s_send s') = peerLimit (s_send s) ∧ v_fin (viewOf s') = v_fin (viewOf s) ∧ rRead (s_recv s') = rRead (s_recv s) ∧
  ended (s_app s') = ended (s_app s) ∧ (∀ l, Handle (lane_at s' l) = Handle (lane_at s l)) ∧ length (heap s') = length (heap s).
Proof.
  intros [= H1 H2 H3 H4 H5 H6 H7 H8 H9 _ _]. split_and!; try done.
  - intros l. by apply rest_handle.
  - rewrite <- !(length_fmap l_handle). by rewrite H9.
Qed.

Lemma frel_refl N b s : BInv b → SInv T (set_v_next N (viewOf s)) → frel N b s N b s.
Proof. intros Hb Hv. constructor; try done; [lia..|]. exists []. split_and!; try done. by rewrite app_nil_r. Qed.

Lemma opSound_mono s s' N N' R R' o :
  fixed s' = fixed s → N ≤ N' → R ≤ R' → opSound s' N R o → opSound s N' R' o.
Proof.
  intros (_ & H2 & _ & _ & H5 & H6 & _)%fixed_inv HN HR. destruct o; cbn -[viewOf]; rewrite ?H2, ?H5, ?H6; try done; try lia.
  intros (? & ? & ?). split_and!; try done. lia.
Qed.

Lemma frel_trans N1 b1 s1 N2 b2 s2 N3 b3 s3 :
  frel N1 b1 s1 N2 b2 s2 → frel N2 b2 s2 N3 b3 s3 → frel N1 b1 s1 N3 b3 s3.
Proof.
  intros [A1 A2 A3 A4 A5 (os1 & A6 & A7 & A8)] [B1 B2 B3 B4 B5 (os2 & B6 & B7 & B8)]. constructor; try done; try lia; [congruence|].
  exists (os1 ++ os2). rewrite B6, A6, fmap_app, app_assoc. split_and!; [done|by apply Forall_app|]. apply Forall_app. split.
  - eapply Forall_impl; [exact A8|]. intros o. by apply opSound_mono.
  - eapply Forall_impl; [exact B8|]. intros o. by apply opSound_mono.
Qed.

(** ** Bytes put in flight *)

(** Lane [l] sends [off, off+k), which starts at or below the next offset, and
    takes (part of) it out of the retransmission queue. *)
Lemma SInv_sent N v l off k rx :
  SInv T (set_v_next N v) → (l < length (v_infl v))%nat → v_base v ≤ off ≤ N → 0 < k →
  off + k ≤ v_end v → off + k ≤ Z.max N (v_lim v) →
  sl_wf rx → (∀ x, x ∈ sl_set rx → x ∈ sl_set (v_retx v)) →
  (∀ x, x ∈ sl_set (v_retx v) → x ∈ sl_set rx ∨ off ≤ x < off + k ∨ is_race (p_Mode (v_p v)) = true) →
  SInv T (set_v_next (Z.max N (off + k)) (set_v_retx rx (set_v_infl (alter (λ c, sl_add c off k) l (v_infl v)) v))).
Proof.
  intros Hv Hl Ho Hk He Hlim Hw Hsub Hcov. pose proof (SInv_bounds _ _ Hv) as Hb. cbn in Hb.
  destruct (infl_add T (set_v_next N v) l off k (Z.max N (off + k)) Hv) as (A1 & A2 & A3); [cbn; lia|lia|lia|lia|].
  pose proof (si_lim _ _ Hv) as Hnl. pose proof (si_retx _ _ Hv) as [_ Hrx]. cbn in Hnl, Hrx.
  apply (SInv_flight T (set_v_next N v) (Z.max N (off + k)) rx _ (v_rnext v) Hv); cbn; try done; try lia.
  - intros x Hx. apply Hsub, Hrx in Hx. lia.
  - intros i r Hr. apply (si_rnext _ _ Hv i) in Hr. cbn in Hr. lia.
  - intros Hr x Hx. destruct (decide (off ≤ x < off + k)) as [Hin|Hout]; [right; by apply A3|].
    destruct (si_cov _ _ Hv Hr x ltac:(cbn; lia)) as [Hx1|(i & li & Hi & Hx1)]; [|right; by apply (A2 i li x)].
    cbn in Hx1. destruct (Hcov x Hx1) as [?|[?|?]]; [by left|lia|congruence].
Qed.

(** The step a loop takes: one frame placed, and the state after it. *)
Lemma frel_data N b s N' b' s' l off k retx :
  added b (op_frame 0 (OpData (Handle (lane_at s l)) off (rng T off k) retx)) true b' →
  op_wf (OpData (Handle (lane_at s l)) off (rng T off k) retx) → 0 ≤ k →
  SInv T (set_v_next N' (viewOf s')) → fixed s' = fixed s → N ≤ N' → s_recv s' = s_recv s →
  sBase (s_send s) ≤ off → off + k ≤ N' → frel N b s N' b' s' ∧ Len b' = Len b + 1.
Proof.
  intros (H1 & H2 & _) Hwf Hk Hv Hf HN Hr Ho He. split.
  - constructor; try done; [by rewrite Hr|]. eexists [_]. split; [exact H2|]. split; [by constructor|].
    constructor; [|done]. cbn. rewrite len_rng by done. done.
  - unfold Len, len. rewrite <- (length_fmap (frame_of (b_arena b')) (b_frames b')).
    change (length (frame_of (b_arena b') <$> b_frames b')) with (length (frames_of b')). rewrite H2, length_app.
    unfold frames_of. rewrite length_fmap. cbn. lia.
Qed.

Lemma rest_fixed s s' v : rest s' = rest s → viewOf s' = set_v_infl v (viewOf s) → fixed s' = fixed s ∧ s_recv s' = s_recv s.
Proof.
  unfold rest, fixed. intros [= H1 H2 H3 H4 H5 H6 H7] Hv. split; [|done].
  pose proof (f_equal v_base Hv) as B1. pose proof (f_equal v_end Hv) as B2. pose proof (f_equal v_res Hv) as B3.
  pose proof (f_equal v_lim Hv) as B4. pose proof (f_equal v_chunks Hv) as B5. pose proof (f_equal v_cbase Hv) as B6.
  cbn in B1, B2, B3, B4, B5, B6. by rewrite H1, H2, H3, H4, H7, B1, B2, B3, B4, B5, B6.
Qed.

(** ** New data *)

Lemma newLoop_fwp l : ∀ fuel left sent b s,
  BInv b → SInv T (viewOf s) → handle_ok (Handle (lane_at s l)) → (l < length (heap s))%nat →
  MaxBatchFrames - Len b < Z.of_nat fuel →
  fwp (newLoop fuel l left sent) (λ _ b' s', frel (sNext (s_send s)) b s (sNext (s_send s')) b' s') b s.
Proof.
  induction fuel as [|fuel IH]; intros left sent b s Hb Hv Hh Hl Hf.
  { pose proof (bi_n _ Hb). lia. }
  pose proof (SInv_bounds _ _ Hv) as Hbd. cbn in Hbd. cbn [newLoop]. fwp_step. fwp_step. cbv zeta.
  assert (set_v_next (sNext (s_send s)) (viewOf s) = viewOf s) as Hid by done.
  set (lim := Z.min (s_end (s_send s)) (peerLimit (s_send s))).
  destruct (0 <? left) eqn:Hleft; cbn [andb]; [|fwp_step; by apply frel_refl].
  destruct (Z.ltb_spec (sNext (s_send s)) lim) as [Hlt|]; [|fwp_step; by apply frel_refl].
  rewrite wrap_small by (unfold fits; lia). fwp_step.
  eapply fwp_mono; [apply (addData_fwp (sNext (s_send s))); try done; try lia|].
  intros x b1 s1 [(-> & -> & ->)|(k & -> & Hk & Ha & Hwf & V1 & R1)]; cbn [fst snd].
  { rewrite Z.eqb_refl. fwp_step. by apply frel_refl. }
  destruct (Z.eqb_spec k 0); [lia|]. fwp_step. fwp_step. wp_step.
  destruct (rest_fixed _ _ _ R1 V1) as [F1 E1]. pose proof (f_equal v_next V1) as Hn1. cbn in Hn1. rewrite Hn1.
  rewrite wrap_small by (unfold fits; lia). set (s2 := set_s_send _ s1).
  assert (fixed s2 = fixed s) as F2 by (rewrite <- F1; done).
  assert (SInv T (viewOf s2)) as I2.
  { pose proof (SInv_sent (sNext (s_send s)) (viewOf s) l (sNext (s_send s)) k (v_retx (viewOf s)) Hv) as HS. cbn -[viewOf] in HS.
    rewrite (Z.max_r (sNext (s_send s)) (sNext (s_send s) + k)) in HS by lia. replace (viewOf s2) with (set_v_next (sNext (s_send s) + k)
      (set_v_retx (v_retx (viewOf s)) (set_v_infl (alter (λ c, sl_add c (sNext (s_send s)) k) l (v_infl (viewOf s))) (viewOf s)))).
    - apply HS; [cbn; by rewrite length_fmap|cbn; lia|lia|cbn; lia|cbn; lia|apply (si_retx _ _ Hv)|done|by left].
    - change (viewOf s2) with (set_v_next (sNext (s_send s) + k) (viewOf s1)). by rewrite V1. }
  destruct (frel_data (sNext (s_send s)) b s (sNext (s_send s) + k) b1 s2 l (sNext (s_send s)) k false) as [R2 L2]; try done; try lia.
  destruct (fixed_inv _ _ F2) as (_ & _ & _ & _ & _ & _ & _ & Hhd & Hlen).
  eapply fwp_mono; [apply IH; [apply R2|done|by rewrite Hhd|by rewrite Hlen|lia]|].
  intros [] b3 s3 R3. by eapply frel_trans.
Qed.

(** ** Retransmissions *)

(** The first span of a queue lies inside the range of the queue. *)
Lemma head_range sp l a e : sl_wf (sp :: l) → (∀ x, x ∈ sl_set (sp :: l) → a ≤ x < e) →
  a ≤ sp_off sp ∧ 0 < sp_n sp ∧ sp_off sp + sp_n sp ≤ e.
Proof.
  intros ((W1 & W2 & W3) & _)%sl_wf_cons Hx.
  assert (∀ y, sp_off sp ≤ y < sp_off sp + sp_n sp → a ≤ y < e) as Hy.
  { intros y Hy. apply Hx. cbn. apply elem_of_union_l. unfold sp_set. by apply elem_of_range. }
  pose proof (Hy (sp_off sp) ltac:(lia)). pose proof (Hy (sp_off sp + sp_n sp - 1) ltac:(lia)). lia.
Qed.

Lemma retxLoop_fwp l : ∀ fuel left sent b s,
  BInv b → SInv T (viewOf s) → handle_ok (Handle (lane_at s l)) → (l < length (heap s))%nat →
  MaxBatchFrames - Len b < Z.of_nat fuel →
  fwp (retxLoop fuel l left sent) (λ _ b' s', frel (sNext (s_send s)) b s (sNext (s_send s')) b' s') b s.
Proof.
  induction fuel as [|fuel IH]; intros left sent b s Hb Hv Hh Hl Hf.
  { pose proof (bi_n _ Hb). lia. }
  pose proof (SInv_bounds _ _ Hv) as Hbd. cbn in Hbd. cbn [retxLoop]. fwp_step. fwp_step.
  assert (set_v_next (sNext (s_send s)) (viewOf s) = viewOf s) as Hid by done.
  destruct (retx (s_send s)) as [|sp r] eqn:Erx; [fwp_step; by apply frel_refl|].
  destruct (0 <? left); [|fwp_step; by apply frel_refl].
  pose proof (si_retx _ _ Hv) as [Hrw Hrx]. cbn in Hrw, Hrx. rewrite Erx in Hrw, Hrx.
  destruct (head_range sp r _ _ Hrw Hrx) as (P1 & P2 & P3). fwp_step.
  eapply fwp_mono; [apply (addData_fwp (sNext (s_send s))); try done; try lia|].
  intros x b1 s1 [(-> & -> & ->)|(k & -> & Hk & Ha & Hwf & V1 & R1)]; cbn [fst snd].
  { rewrite Z.eqb_refl. fwp_step. by apply frel_refl. }
  destruct (Z.eqb_spec k 0); [lia|]. fwp_step. fwp_step.
  destruct (rest_fixed _ _ _ R1 V1) as [F1 E1]. pose proof (f_equal v_retx V1) as Hr1. cbn in Hr1. rewrite Hr1, Erx.
  pose proof (f_equal v_next V1) as Hn1. cbn in Hn1.
  destruct (sl_takeFront_spec sp r k Hrw ltac:(lia)) as (rx & -> & Wrx & Srx).
  fwp_step. fwp_step. wp_step. set (s2 := set_s_send _ s1).
  assert (fixed s2 = fixed s) as F2 by (rewrite <- F1; done).
  assert (sNext (s_send s2) = sNext (s_send s)) as N2 by done.
  assert (SInv T (viewOf s2)) as I2.
  { pose proof (SInv_sent (sNext (s_send s)) (viewOf s) l (sp_off sp) k rx Hv) as HS.
    rewrite (Z.max_l (sNext (s_send s)) (sp_off sp + k)) in HS by lia.
    replace (viewOf s2) with (set_v_next (sNext (s_send s))
      (set_v_retx rx (set_v_infl (alter (λ c, sl_add c (sp_off sp) k) l (v_infl (viewOf s))) (viewOf s)))).
    - apply HS; [cbn; by rewrite length_fmap|cbn; lia|lia|cbn; lia|cbn; lia|done|..]; cbn; rewrite Erx, Srx;
        intros x; rewrite ?elem_of_difference, ?elem_of_range; [tauto|]. destruct (decide (sp_off sp ≤ x < sp_off sp + k)); tauto.
    - change (viewOf s2) with (set_v_retx rx (viewOf s1)). by rewrite V1. }
  destruct (frel_data (sNext (s_send s)) b s (sNext (s_send s)) b1 s2 l (sp_off sp) k true) as [R2 L2]; try done; try lia.
  { change (SInv T (set_v_next (sNext (s_send s2)) (viewOf s2))) in I2. by rewrite <- N2. }
  destruct (fixed_inv _ _ F2) as (_ & _ & _ & _ & _ & _ & _ & Hhd & Hlen).
  eapply fwp_mono; [apply IH; [apply R2|done|by rewrite Hhd|by rewrite Hlen|lia]|].
  intros [] b3 s3 R3. rewrite N2 in R3. by eapply frel_trans.
Qed.

(** ** The rescue duplicate *)

Lemma rescueLoop_fwp l : ∀ fuel sp left sent b s,
  BInv b → SInv T (viewOf s) → handle_ok (Handle (lane_at s l)) → (l < length (heap s))%nat →
  MaxBatchFrames - Len b < Z.of_nat fuel →
  0 ≤ sp_n sp → sBase (s_send s) ≤ sp_off sp → sp_off sp + sp_n sp ≤ sNext (s_send s) →
  fwp (rescueLoop fuel l sp left sent) (λ x b' s', frel (sNext (s_send s)) b s (sNext (s_send s')) b' s' ∧
    sNext (s_send s') = sNext (s_send s) ∧
    0 ≤ sp_n x.1.1 ∧ sBase (s_send s) ≤ sp_off x.1.1 ∧ sp_off x.1.1 + sp_n x.1.1 ≤ sNext (s_send s)) b s.
Proof.
  induction fuel as [|fuel IH]; intros sp left sent b s Hb Hv Hh Hl Hf S1 S2 S3.
  { pose proof (bi_n _ Hb). lia. }
  pose proof (SInv_bounds _ _ Hv) as Hbd. cbn in Hbd. cbn [rescueLoop].
  assert (set_v_next (sNext (s_send s)) (viewOf s) = viewOf s) as Hid by done.
  destruct (Z.ltb_spec 0 (sp_n sp)) as [Hpos|]; [|fwp_step; split_and!; try done; by apply frel_refl].
  fwp_step. eapply fwp_mono; [apply (addData_fwp (sNext (s_send s))); try done; try lia|].
  intros x b1 s1 [(-> & -> & ->)|(k & -> & Hk & Ha & Hwf & V1 & R1)]; cbn [fst snd].
  { rewrite Z.eqb_refl. fwp_step. split_and!; try done. by apply frel_refl. }
  destruct (Z.eqb_spec k 0); [lia|]. destruct (rest_fixed _ _ _ R1 V1) as [F1 E1].
  pose proof (f_equal v_next V1) as Hn1. cbn in Hn1.
  rewrite !wrap_small by (unfold fits; lia).
  assert (SInv T (viewOf s1)) as I1.
  { pose proof (SInv_sent (sNext (s_send s)) (viewOf s) l (sp_off sp) k (v_retx (viewOf s)) Hv) as HS.
    rewrite (Z.max_l (sNext (s_send s)) (sp_off sp + k)) in HS by lia. rewrite V1.
    apply HS; [cbn; by rewrite length_fmap|cbn; lia|lia|cbn; lia|cbn; lia|apply (si_retx _ _ Hv)|done|by left]. }
  destruct (frel_data (sNext (s_send s)) b s (sNext (s_send s)) b1 s1 l (sp_off sp) k true) as [R2 L2]; try done; try lia.
  { change (SInv T (set_v_next (sNext (s_send s1)) (viewOf s1))) in I1. by rewrite <- Hn1. }
  destruct (fixed_inv _ _ F1) as (_ & Hba & _ & _ & _ & _ & _ & Hhd & Hlen).
  eapply fwp_mono; [apply IH; [apply R2|done|by rewrite Hhd|by rewrite Hlen|lia|cbn; lia|cbn; lia|cbn; lia]|].
  intros y b3 s3 (R3 & N3 & Q1 & Q2 & Q3). rewrite Hn1 in *. rewrite Hba in Q2. split_and!; try done. by eapply frel_trans.
Qed.

(** ** DATA of one Fill *)

(** A step that places nothing. *)
Lemma frel_step N b s N' b' s' :
  BInv b' → frames_of b' = frames_of b → SInv T (set_v_next N' (viewOf s')) → fixed s' = fixed s → N ≤ N' →
  rightEdge (s_recv s) ≤ rightEdge (s_recv s') → frel N b s N' b' s'.
Proof. intros H1 H2 H3 H4 H5 H6. constructor; try done. exists []. split_and!; try done. by rewrite app_nil_r. Qed.

(** The same, on the session alone, when the view is kept. *)
Lemma frel_keep b s s' :
  BInv b → SInv T (viewOf s) → viewOf s' = viewOf s → fixed s' = fixed s → rightEdge (s_recv s) ≤ rightEdge (s_recv s') →
  frel (sNext (s_send s)) b s (sNext (s_send s')) b s'.
Proof.
  intros Hb Hv V F E. pose proof (f_equal v_next V) as Hn. cbn in Hn. rewrite Hn.
  apply frel_step; try done. rewrite V. exact Hv.
Qed.

Lemma frel_SInv N b s b' s' : frel N b s (sNext (s_send s')) b' s' → SInv T (viewOf s').
Proof. intros H. exact (fr_s _ _ _ _ _ _ H). Qed.

Lemma markCap_keeps b : BInv b → BInv (MarkCapBlocked b) ∧ frames_of (MarkCapBlocked b) = frames_of b.
Proof. unfold MarkCapBlocked. destruct (b_ctlOnly b); [done|]. intros []. split; [|done]. by constructor. Qed.

Lemma wakeAt_keeps t b : BInv b → BInv (WakeAt t b) ∧ frames_of (WakeAt t b) = frames_of b.
Proof. unfold WakeAt. case_match; [|done]. intros []. split; [|done]. by constructor. Qed.

(** What a Fill needs of its lane. *)
Definition lane_ok (s : Session) (l : nat) : Prop := handle_ok (Handle (lane_at s l)) ∧ (l < length (heap s))%nat.

Lemma lane_ok_frel N b s N' b' s' l : frel N b s N' b' s' → lane_ok s l → lane_ok s' l.
Proof.
  intros H [H1 H2]. destruct (fixed_inv _ _ (fr_fixed _ _ _ _ _ _ H)) as (_ & _ & _ & _ & _ & _ & _ & Hh & Hl).
  split; [by rewrite Hh|by rewrite Hl].
Qed.

Lemma fuel_ok b : BInv b → MaxBatchFrames - Len b < Z.of_nat fillFuel.
Proof. intros _. pose proof (len_nonneg (b_frames b)). unfold Len. change MaxBatchFrames with 64. unfold fillFuel. lia. Qed.

Lemma fillData_fwp l b s :
  BInv b → SInv T (viewOf s) → lane_ok s l →
  fwp (fillDataLocked l) (λ _ b' s', frel (sNext (s_send s)) b s (sNext (s_send s')) b' s') b s.
Proof.
  intros Hb Hv Hl. unfold fillDataLocked. fwp_step. fwp_step. wp_step.
  match goal with |- fwp _ _ _ ?x => set (s1 := x) end.
  assert (viewOf s1 = viewOf s ∧ fixed s1 = fixed s ∧ s_recv s1 = s_recv s) as (V1 & F1 & E1).
  { subst s1. destruct (_ =? _) eqn:Eq; unfold viewOf, fixed; cbn; rewrite ?Eq; done. }
  clearbody s1. assert (frel (sNext (s_send s)) b s (sNext (s_send s1)) b s1) as R1 by (apply frel_keep; try done; by rewrite E1).
  assert (∀ x b2 s2, frel (sNext (s_send s)) b s (sNext (s_send s2)) b2 s2 →
    fwp (doB x <- retxLoop fillFuel l x.1 x.2;
         doB x <- newLoop fillFuel l x.1 x.2;
         doB s <- lift get;
         runB lift (when (is_bond (p_Mode (s_p s)) && x.2 && negb (interleaved (s_send s)) && otherDataLaneLocked s l)
                      (upd_send (set_interleaved true)));
         doB s <- lift get;
         fwhen ((x.1 <=? 0) && ((0 <? pullableLocked s) || (re_set (rescue (s_send s)) && rescueSenderLocked s l)))
           (modB MarkCapBlocked))
      (λ _ b' s', frel (sNext (s_send s)) b s (sNext (s_send s')) b' s') b2 s2) as Hgo.
  { intros x b2 s2 R2. pose proof (fr_b _ _ _ _ _ _ R2) as B2. destruct (lane_ok_frel _ _ _ _ _ _ _ R2 Hl) as [H2 L2].
    fwp_step. eapply fwp_mono; [apply retxLoop_fwp; [done|by eapply frel_SInv|done|done|by apply fuel_ok]|].
    intros y b3 s3 R3'. assert (frel (sNext (s_send s)) b s (sNext (s_send s3)) b3 s3) as R3 by (by eapply frel_trans).
    pose proof (fr_b _ _ _ _ _ _ R3) as B3. destruct (lane_ok_frel _ _ _ _ _ _ _ R3 Hl) as [H3 L3].
    fwp_step. eapply fwp_mono; [apply newLoop_fwp; [done|by eapply frel_SInv|done|done|by apply fuel_ok]|].
    intros z b4 s4 R4'. assert (frel (sNext (s_send s)) b s (sNext (s_send s4)) b4 s4) as R4 by (by eapply frel_trans).
    fwp_step. fwp_step. fwp_step. fwp_step.
    assert (∀ s5, viewOf s5 = viewOf s4 → fixed s5 = fixed s4 → s_recv s5 = s_recv s4 →
      frel (sNext (s_send s)) b s (sNext (s_send s5)) b4 s5) as Hk.
    { intros s5 V5 F5 E5. eapply frel_trans; [exact R4|]. apply frel_keep; try done; [apply R4|by eapply frel_SInv|by rewrite E5]. }
    assert (∀ s5 c, frel (sNext (s_send s)) b s (sNext (s_send s5)) b4 s5 →
      fwp (fwhen c (modB MarkCapBlocked)) (λ _ b' s', frel (sNext (s_send s)) b s (sNext (s_send s')) b' s') b4 s5) as Hm.
    { intros s5 c R5. apply fwp_fwhen; intros _; [fwp_step|done]. destruct (markCap_keeps b4 (fr_b _ _ _ _ _ _ R5)) as [M1 M2].
      destruct R5 as [P1 P2 P3 P4 P5 P6]. constructor; try done. by rewrite M2. }
    apply wp_when; intros _; [wp_step|]; fwp_step; fwp_step; apply Hm; by apply Hk. }
  fwp_step. fwp_step. fwp_step. fwp_step. cbv zeta. fwp_step.
  destruct (re_set (rescue (s_send s1)) && (0 <? shareOf (lane_at s1 l) b) && rescueSenderLocked s1 l) eqn:Hres; [|fwp_step; by apply Hgo].
  apply andb_prop in Hres as [[Hset _]%andb_prop _].
  pose proof (frel_SInv _ _ _ _ _ R1) as I1. destruct (lane_ok_frel _ _ _ _ _ _ _ R1 Hl) as [H1 L1].
  destruct (si_resc _ _ I1 (re_sp (rescue (s_send s1)))) as ((W1 & W2 & W3) & W4 & W5);
    [cbn; unfold rescueOf; by rewrite Hset|]. cbn in W4, W5.
  fwp_step. eapply fwp_mono; [apply rescueLoop_fwp; [done|done|done|done|by apply fuel_ok|lia|lia|lia]|].
  intros x b2 s2 (R2 & N2 & Q1 & Q2 & Q3).
  pose proof (f_equal v_base V1) as Hb1. cbn in Hb1.
  destruct (fixed_inv _ _ (fr_fixed _ _ _ _ _ _ R2)) as (_ & Hb2 & _).
  fwp_step. fwp_step. wp_step. fwp_step. apply Hgo. eapply frel_trans; [exact R1|]. eapply frel_trans; [exact R2|].
  apply frel_step; try done; [apply R2|]. cbn [sNext s_send set_s_send set_rescue].
  match goal with |- SInv T (set_v_next _ (viewOf (set_s_send (set_rescue ?o _) _))) =>
    change (SInv T (set_v_resc (rescueOf o) (viewOf s2))) end.
  apply SInv_resc; [by eapply frel_SInv|]. intros sp. unfold rescueOf.
  destruct (Z.ltb_spec 0 (sp_n x.1.1)); cbn; [|by destruct (bool_decide _)]. intros [= <-]. unfold sp_wf.
  pose proof (SInv_bounds _ _ I1) as Hbd. cbn in Hbd. split_and!; lia.
Qed.

(** ** Race *)

Lemma raceStep_spec rx from lim :
  sl_wf rx → (∀ x, x ∈ sl_set rx → from ≤ x) → 0 ≤ from < lim → lim < 2 ^ 64 → 0 < (raceStep rx from lim).1 ≤ lim - from.
Proof.
  intros Hw Hx Hf Hl. unfold raceStep. rewrite (wrap_small 64 (lim - from)) by (unfold fits; lia).
  destruct rx as [|sp r]; cbn [fst]; [lia|]. apply sl_wf_cons in Hw as ((W1 & W2 & W3) & _).
  rewrite sp_end_wf by done.
  destruct (Z.leb_spec (sp_off sp) from); cbn [fst].
  - assert (from ≤ sp_off sp) as Hge. { apply Hx. cbn. apply elem_of_union_l, elem_of_range. lia. }
    rewrite wrap_small by (unfold fits; lia). lia.
  - rewrite wrap_small by (unfold fits; lia). lia.
Qed.

Lemma SInv_race_retx N v rx :
  SInv T (set_v_next N v) → is_race (p_Mode (v_p v)) = true → sl_wf rx → (∀ x, x ∈ sl_set rx → x ∈ sl_set (v_retx v)) →
  SInv T (set_v_next N (set_v_retx rx v)).
Proof.
  intros [] Hr Hw Hx. constructor; cbn in *; try done.
  - split; [done|]. intros x Hin. apply si_retx. by apply Hx.
  - congruence.
Qed.

Lemma raceLoop_fwp l lim : ∀ fuel from left sent b s,
  BInv b → SInv T (set_v_next (Z.max (sNext (s_send s)) from) (viewOf s)) → lane_ok s l →
  MaxBatchFrames - Len b < Z.of_nat fuel → is_race (p_Mode (s_p s)) = true →
  sBase (s_send s) ≤ from → lim = Z.min (s_end (s_send s)) (peerLimit (s_send s)) →
  fwp (raceLoop fuel l from lim left sent) (λ x b' s',
    frel (Z.max (sNext (s_send s)) from) b s (Z.max (sNext (s_send s')) x.1) b' s' ∧ from ≤ x.1 ∧
    sNext (s_send s') = sNext (s_send s)) b s.
Proof.
  induction fuel as [|fuel IH]; intros from left sent b s Hb Hv Hl Hf Hr Hbase Hlim.
  { pose proof (bi_n _ Hb). lia. }
  pose proof (SInv_bounds _ _ Hv) as Hbd. cbn in Hbd. cbn [raceLoop]. set (N := Z.max (sNext (s_send s)) from) in *.
  destruct ((0 <? left) && (from <? lim)) eqn:Hgo; [|fwp_step; split_and!; try done; by apply frel_refl].
  apply andb_prop in Hgo as [_ Hlt%Z.ltb_lt].
  fwp_step. fwp_step. wp_step. set (s1 := set_s_send _ s). fwp_step. fwp_step. cbv zeta.
  pose proof (si_retx _ _ Hv) as [Hrw Hrx]. cbn in Hrw, Hrx.
  destruct (sl_trimBelow_spec (retx (s_send s)) from Hrw ltac:(lia)) as [Tw Ts].
  assert (SInv T (set_v_next N (viewOf s1))) as I1.
  { change (SInv T (set_v_next N (set_v_retx (sl_trimBelow (retx (s_send s)) from) (viewOf s)))).
    apply SInv_race_retx; try done. intros x. cbn. rewrite Ts, elem_of_filter. tauto. }
  assert (frel N b s N b s1) as R1 by (apply frel_step; try done; lia).
  assert (retx (s_send s1) = sl_trimBelow (retx (s_send s)) from) as Erx by done.
  assert (0 < (raceStep (retx (s_send s1)) from lim).1 ≤ lim - from) as Hn.
  { rewrite Erx. apply raceStep_spec; try done; try lia. intros x. rewrite Ts, elem_of_filter. tauto. }
  set (nr := raceStep (retx (s_send s1)) from lim) in *. clearbody nr.
  assert (lane_ok s1 l) as [Hh1 Hl1] by done.
  fwp_step. eapply fwp_mono; [apply (addData_fwp N); try done; cbn; try lia|].
  intros x b2 s2 [(-> & -> & ->)|(k & -> & Hk & Ha & Hwf & V2 & Rst2)]; cbn [fst snd].
  { rewrite Z.eqb_refl. fwp_step. split_and!; try done. }
  destruct (Z.eqb_spec k 0); [lia|]. destruct (rest_fixed _ _ _ Rst2 V2) as [F2 E2].
  fwp_step. fwp_step. wp_step. rewrite wrap_small by (unfold fits; lia).
  match goal with |- fwp _ _ _ ?x => set (s3 := x) end.
  set (rx := if nr.2 then sl_trimBelow (retx (s_send s1)) (from + k) else retx (s_send s1)).
  pose proof (f_equal v_retx V2) as Hr2. cbn -[s1] in Hr2.
  assert (viewOf s3 = set_v_retx rx (set_v_infl (alter (λ c, sl_add c from k) l (v_infl (viewOf s1))) (viewOf s1))) as V3.
  { rewrite <- V2. subst s3 rx. rewrite <- Hr2. destruct nr.2; [done|]. by destruct (from <? sNext (s_send s2)); unfold viewOf. }
  assert (fixed s3 = fixed s1 ∧ s_recv s3 = s_recv s1 ∧ sNext (s_send s3) = sNext (s_send s)) as (F3 & E3 & N3).
  { pose proof (f_equal v_next V2) as Hn2. cbn -[s1] in Hn2. rewrite <- F2, <- E2. subst s3.
    destruct nr.2; [|destruct (from <? sNext (s_send s2))]; done. }
  assert (sl_wf rx ∧ ∀ x, x ∈ sl_set rx → x ∈ sl_set (v_retx (viewOf s1))) as [Wx Sx].
  { destruct (si_retx _ _ I1) as [Hw1 _]. cbn -[s1] in Hw1. subst rx. destruct nr.2; [|done].
    destruct (sl_trimBelow_spec (retx (s_send s1)) (from + k) Hw1 ltac:(lia)) as [Q1 Q2]. split; [done|].
    intros x. rewrite Q2, elem_of_filter. tauto. }
  set (N' := Z.max (sNext (s_send s)) (from + k)). assert (Z.max N (from + k) = N') as HN' by (unfold N, N'; lia).
  assert (SInv T (set_v_next N' (viewOf s3))) as I3.
  { rewrite V3, <- HN'. apply SInv_sent; try done; cbn -[s1]; try lia; [by rewrite length_fmap|cbn; lia|cbn; lia|cbn; lia|].
    intros x _. by right; right. }
  destruct (frel_data N b s1 N' b2 s3 l from k nr.2) as [R3 L3]; try done; try lia.
  assert (frel N b s N' b2 s3) as R3' by (by eapply frel_trans).
  pose proof (fr_fixed _ _ _ _ _ _ R3') as F3'. destruct (fixed_inv _ _ F3') as (P1 & P2 & P3 & P4 & _).
  eapply fwp_mono; [apply IH|].
  - apply R3.
  - rewrite N3. exact I3.
  - by eapply lane_ok_frel.
  - lia.
  - by rewrite P1.
  - rewrite P2. lia.
  - by rewrite P3, P4.
  - intros x b4 s4 (R4 & Hle & N4). rewrite N3 in R4. fold N' in R4. split_and!; [by eapply frel_trans|lia|congruence].
Qed.

Lemma raceFillData_fwp l b s :
  BInv b → SInv T (viewOf s) → lane_ok s l → is_race (p_Mode (s_p s)) = true →
  fwp (raceFillDataLocked l) (λ _ b' s', frel (sNext (s_send s)) b s (sNext (s_send s')) b' s') b s.
Proof.
  intros Hb Hv Hl Hr. pose proof (SInv_bounds _ _ Hv) as Hbd. cbn in Hbd. unfold raceFillDataLocked.
  fwp_step. fwp_step. fwp_step. fwp_step. cbv zeta.
  set (lim := Z.min (s_end (s_send s)) (peerLimit (s_send s))). set (from := Z.max (l_rnext (lane_at s l)) (sBase (s_send s))).
  assert (from ≤ sNext (s_send s)) as Hfrom.
  { unfold from, lane_at. destruct (heap s !! l) as [c|] eqn:E; [|cbn; lia].
    assert (v_rnext (viewOf s) !! l = Some (l_rnext c)) as Hc by (cbn; by rewrite list_lookup_fmap, E).
    apply (si_rnext _ _ Hv) in Hc. cbn in *. lia. }
  fwp_step. eapply fwp_mono; [apply raceLoop_fwp; try done|].
  { rewrite Z.max_l by done. exact Hv. }
  { by apply fuel_ok. }
  { lia. }
  intros x b1 s1 (R1 & Hx & N1). rewrite Z.max_l in R1 by done.
  fwp_step. fwp_step. wp_step. fwp_step. fwp_step. wp_step.
  match goal with |- fwp _ _ _ ?x => set (s2 := x) end. rewrite N1 in R1.
  assert (frel (sNext (s_send s)) b s (sNext (s_send s2)) b1 s2) as R2.
  { eapply frel_trans; [exact R1|].
    assert (sNext (s_send s2) = Z.max (sNext (s_send s)) x.1) as N2 by (subst s2; cbn; by rewrite N1).
    rewrite N2. apply frel_step; [apply R1|done| | |lia|done].
    - assert (viewOf s2 = set_v_next (Z.max (sNext (s_send s)) x.1) (set_v_rnext (alter (λ _, x.1) l (v_rnext (viewOf s1))) (viewOf s1))) as ->.
      { rewrite <- (view_setRnext x.1 l s1). subst s2. unfold viewOf, set_v_next. cbn. by rewrite N1. }
      pose proof (fr_s _ _ _ _ _ _ R1) as []. constructor; cbn in *; try done.
      intros i r Hi. destruct (decide (l = i)) as [->|].
      + rewrite list_lookup_alter_eq in Hi. destruct (_ !! i); [|done]. injection Hi as <-. lia.
      + rewrite list_lookup_alter_ne in Hi by done. eauto.
    - subst s2. unfold fixed. cbn. f_equal. by rewrite (fmap_alter _ _ id), alter_id. }
  apply fwp_fwhen; intros _; [fwp_step|done]. destruct (markCap_keeps b1 (fr_b _ _ _ _ _ _ R2)) as [M1 M2].
  destruct R2 as [P1 P2 P3 P4 P5 P6]. constructor; try done. by rewrite M2.
Qed.

End Fill.
