(* ===== verification/SessFillCtl.v ===== *)
(** * What a Fill places

    The control frames, the ACK and the FIN around the DATA of
    [SessFillProofs], and the whole Fill: it never panics; every frame it
    places is well formed, a FIN names the end of the stream, an ACK the
    delivered offset with a window inside the advertised right edge; a Fill of
    an ended session places control frames only. *)

From Stdlib Require Import ZArith Lia.
From stdpp Require Import base numbers list sorting gmap sets.
From S2P Require Import Prelude Buffers WireConst WireFrame Codec WirePayload GoTime SchedTiming CarrierBuf Spans.
From S2P Require Import RecvSegs RecvProofs SessState SessDuty SessRecv SessFin SessSend CarrierBatch BatchWire.
From S2P Require Import SessFill SessSendInv SessFillProofs.

Open Scope Z_scope.
Open Scope rendr_scope.

(** ** Steps that leave what a Fill reads alone *)

Definition fillK (s : Session) := (viewOf s, fixed s, s_recv s).
Definition ctlK (s : Session) := (s_ctl s, ackFlags (s_ack s)).

Lemma fillK_dataOf s s' : dataOf s' = dataOf s → fillK s' = fillK s.
Proof.
  intros Hd. pose proof (sendOf_dataOf _ _ Hd) as [HV HE]%sendOf_inv. unfold fillK, fixed. rewrite HV, HE.
  unfold dataOf in Hd. injection Hd as H1 H2 H3 H4 H5 _ _ _ H9 _ _. rewrite H1, H2, H3, H4.
  assert (l_handle <$> heap s' = l_handle <$> heap s) as ->; [|done].
  rewrite <- (list_fmap_ext (l_handle ∘ set_l_idle false) l_handle (heap s')), <- (list_fmap_ext (l_handle ∘ set_l_idle false) l_handle (heap s)) by done.
  by rewrite !list_fmap_compose, H9.
Qed.

Lemma fk_dataOf {A} (m : M A) : keeps dataOf m → keeps fillK m.
Proof. intros H s. by apply fillK_dataOf. Qed.

(** Lane fields other than the spans, the cursor and the handle. *)
Lemma fk_updLane i f :
  (∀ l, l_infl (f l) = l_infl l) → (∀ l, l_rnext (f l) = l_rnext l) → (∀ l, l_handle (f l) = l_handle l) →
  keeps fillK (updLane i f) ∧ keeps ctlK (updLane i f).
Proof.
  intros H1 H2 H3. split; [|done]. intros s. pose proof (sk_updLane i f H1 H2 s) as [HV _]%sendOf_inv. unfold fillK. rewrite HV.
  assert (l_handle <$> alter f i (heap s) = l_handle <$> heap s) as Hh.
  { rewrite (fmap_alter _ _ id) by (intros; apply H3). apply alter_id. }
  unfold fixed. cbn. by rewrite Hh.
Qed.

Create HintDb fillk.
#[export] Hint Resolve keeps_ret keeps_get keeps_gets : fillk.
#[export] Hint Extern 2 (keeps fillK (updLane _ _)) => (apply fk_updLane; intros; reflexivity) : fillk.
#[export] Hint Extern 3 (keeps fillK _) => (intros ?; reflexivity) : fillk.
#[export] Hint Extern 3 (keeps ctlK _) => (intros ?; reflexivity) : fillk.
#[export] Hint Extern 4 (keeps fillK _) => (apply fk_dataOf; solve [eauto with keeps]) : fillk.

Ltac fkeeps := keeps_by ltac:(eauto 3 with fillk).

Lemma ck_ensureAckLane : keeps ctlK ensureAckLaneLocked.
Proof. unfold ensureAckLaneLocked, chooseAckLaneLocked, refreshOrderLocked. fkeeps. Qed.

Lemma ck_raceWakeAck : keeps ctlK raceWakeAckLocked.
Proof. unfold raceWakeAckLocked, wakeLane. fkeeps. Qed.

Lemma fk_maybeDone : keeps fillK maybeDoneLocked.
Proof. unfold maybeDoneLocked. fkeeps. Qed.
#[export] Hint Resolve ck_ensureAckLane ck_raceWakeAck fk_maybeDone : fillk.

(** ** Frames that carry neither the stream nor its acknowledgement *)

Definition ctlOp (o : bop) : Prop :=
  match o with
  | OpOpenAck _ _ | OpJoinAck _ _ | OpRst _ _ | OpSched _ _ _ => True
  | _ => False
  end.

Record idle (b : Batch) (s : Session) (b' : Batch) (s' : Session) : Prop := {
  id_b : BInv b';
  id_keep : fillK s' = fillK s;
  id_ctl : ctlK s' = ctlK s;
  id_ops : ∃ os, frames_of b' = frames_of b ++ (op_frame 0 <$> os) ∧ Forall op_wf os ∧ Forall ctlOp os
}.

Lemma idle_refl b s : BInv b → idle b s b s.
Proof. intros Hb. constructor; try done. exists []. by rewrite app_nil_r. Qed.

Lemma idle_trans b1 s1 b2 s2 b3 s3 : idle b1 s1 b2 s2 → idle b2 s2 b3 s3 → idle b1 s1 b3 s3.
Proof.
  intros [A1 A2 A3 (os1 & A4 & A5 & A6)] [B1 B2 B3 (os2 & B4 & B5 & B6)]. constructor; [done|congruence..|].
  exists (os1 ++ os2). rewrite B4, A4, fmap_app, app_assoc. split_and!; [done|by apply Forall_app|by apply Forall_app].
Qed.

Lemma fwp_idle {A} (m : M A) (Q : A → Batch → Session → Prop) b0 s0 b s :
  keeps fillK m → keeps ctlK m → idle b0 s0 b s → (∀ a s', idle b0 s0 b s' → Q a b s') → fwp (lift m) Q b s.
Proof.
  intros H1 H2 [B K C O] HQ. apply HQ. constructor; try done; [rewrite <- K; apply H1|rewrite <- C; apply H2].
Qed.

Lemma idle_op b0 s0 b s o ok b' :
  idle b0 s0 b s → op_wf o → ctlOp o → added b (op_frame 0 o) ok b' → idle b0 s0 b' s.
Proof.
  intros I Hw Ho (B1 & B2 & _). eapply idle_trans; [exact I|]. constructor; try done. exists (if ok then [o] else []).
  split; [rewrite B2; by destruct ok|]. destruct ok; [|by split]. split; constructor; done.
Qed.

(** A control frame, then a mark on the lane. *)
Lemma place_idle o (m : bool → M unit) b0 s0 b s :
  idle b0 s0 b s → op_wf o → ctlOp o → (∀ ok, keeps fillK (m ok)) → (∀ ok, keeps ctlK (m ok)) →
  fwp (doB ok <- add (op_apply o); lift (m ok)) (λ _ b' s', idle b0 s0 b' s') b s.
Proof.
  intros R Hw Hs H1 H2. fwp_step. apply fwp_add; [apply R|done|]. intros ok b' Ha.
  apply (fwp_idle _ _ b0 s0); [apply H1|apply H2|by eapply idle_op|done].
Qed.

Lemma fillK_inv s s' : fillK s' = fillK s → viewOf s' = viewOf s ∧ fixed s' = fixed s ∧ s_recv s' = s_recv s.
Proof.
  intros HK. unfold fillK in HK. split_and!; [exact (f_equal (fst ∘ fst) HK)|exact (f_equal (snd ∘ fst) HK)|exact (f_equal snd HK)].
Qed.

Lemma idle_inv b s b' s' : idle b s b' s' → viewOf s' = viewOf s ∧ fixed s' = fixed s ∧ s_recv s' = s_recv s.
Proof. intros [_ K _ _]. by apply fillK_inv. Qed.

Section FillControl.
Context (T : Z → Z).
Context (HT : ∀ x, is_u8 (T x)).

(** A session step between the placements. *)
Lemma fwp_keep {A} (m : M A) (Q : A → Batch → Session → Prop) b s :
  keeps fillK m → (∀ a s', fillK s' = fillK s → Q a b s') → fwp (lift m) Q b s.
Proof. intros Hk HQ. apply HQ, Hk. Qed.

Lemma frel_fillK N b s b' s' s'' :
  frel T N b s (sNext (s_send s')) b' s' → fillK s'' = fillK s' → frel T N b s (sNext (s_send s'')) b' s''.
Proof.
  intros R (HV & HF & HR)%fillK_inv.
  eapply frel_trans; [exact R|]. apply frel_keep; [apply R|by eapply frel_SInv|done|done|by rewrite HR].
Qed.

(** A frame other than DATA, placed or refused. *)
Lemma frel_op N b s o ok b' :
  SInv T (set_v_next N (viewOf s)) → op_wf o → opSound T s N (rightEdge (s_recv s)) o →
  added b (op_frame 0 o) ok b' → frel T N b s N b' s.
Proof.
  intros Hv Hw Hs (B1 & B2 & _). constructor; try done; try lia. exists (if ok then [o] else []).
  split; [rewrite B2; by destruct ok|]. destruct ok; [|by split]. split; constructor; done.
Qed.

(** ** FIN *)

Lemma addFin_fwp l b s :
  BInv b → SInv T (viewOf s) → lane_ok s l → fin_requested (fin (s_fin s)) = true →
  fwp (addFinLocked l) (λ _ b' s', frel T (sNext (s_send s)) b s (sNext (s_send s')) b' s') b s.
Proof.
  intros Hb Hv [Hh Hl] Hf. pose proof (SInv_bounds _ _ Hv) as Hbd. cbn in Hbd. unfold addFinLocked. fwp_step. fwp_step. fwp_step.
  assert (v_fin (viewOf s) = Some (fin_off (fin (s_fin s)))) as Hfin by (cbn; unfold finOf; by rewrite Hf).
  pose proof (si_fin _ _ Hv _ Hfin) as Ho. cbn in Ho.
  assert (op_wf (OpFin (Handle (lane_at s l)) (fin_off (fin (s_fin s))))) as Hw by (split; [done|unfold fits; lia]).
  apply (fwp_add (OpFin (Handle (lane_at s l)) (fin_off (fin (s_fin s))))); [done|done|].
  intros ok b' Ha. fwp_step.
  assert (frel T (sNext (s_send s)) b s (sNext (s_send s)) b' s) as R1 by (by eapply frel_op).
  apply fwp_keep; [unfold finPlaced; fkeeps|]. intros _ s' HK. fwp_step. by eapply frel_fillK.
Qed.

(** ** ACK *)

(** What the receive side promises the ACK. *)
Definition edge_ok (s : Session) : Prop := 0 ≤ rRead (s_recv s) ≤ rightEdge (s_recv s) ∧ rightEdge (s_recv s) < 2 ^ 64.

Lemma raiseEdge_spec s : edge_ok s →
  (raiseEdgeLocked s).1 = rightEdge (s_recv (raiseEdgeLocked s).2) - rRead (s_recv s) ∧
  ∃ e, rightEdge (s_recv s) ≤ e < 2 ^ 64 ∧ (raiseEdgeLocked s).2 = set_s_recv (set_rightEdge e (s_recv s)) s.
Proof.
  intros [H1 H2]. unfold raiseEdgeLocked, bind, get, gets, when. cbv zeta. set (e := u64 (rRead _ + _)).
  assert (0 ≤ e < 2 ^ 64) as He by (apply wrap_fits; lia). clearbody e.
  destruct (Z.ltb_spec (rightEdge (s_recv s)) e); cbn.
  - rewrite wrap_small by (unfold fits; lia). split; [done|]. exists e. split; [lia|done].
  - rewrite wrap_small by (unfold fits; lia). split; [done|]. exists (rightEdge (s_recv s)). split; [lia|].
    by destruct s as [? ? ? [] ? ? ? ? ? ? ? ? ? ? ? ? ?].
Qed.

(** Everything up to the ACK: the receive side and the control state stay. *)
Record quiet (b : Batch) (s : Session) (b' : Batch) (s' : Session) : Prop := {
  qt_rel : frel T (sNext (s_send s)) b s (sNext (s_send s')) b' s';
  qt_ctl : ctlK s' = ctlK s;
  qt_recv : s_recv s' = s_recv s
}.

Lemma quiet_refl b s : BInv b → SInv T (viewOf s) → quiet b s b s.
Proof. intros Hb Hv. constructor; try done. by apply frel_refl. Qed.

Lemma quiet_trans b1 s1 b2 s2 b3 s3 : quiet b1 s1 b2 s2 → quiet b2 s2 b3 s3 → quiet b1 s1 b3 s3.
Proof. intros [] []. constructor; [by eapply frel_trans|congruence|congruence]. Qed.

Lemma quiet_keep {A} (m : M A) b0 s0 b s :
  keeps fillK m → keeps ctlK m → quiet b0 s0 b s → quiet b0 s0 b (m s).2.
Proof.
  intros H1 H2 [R C E]. constructor; [eapply frel_fillK; [exact R|apply H1]|rewrite <- C; apply H2|].
  rewrite <- E. apply (f_equal snd (H1 s)).
Qed.

Lemma fwp_quiet {A} (m : M A) (Q : A → Batch → Session → Prop) b0 s0 b s :
  keeps fillK m → keeps ctlK m → quiet b0 s0 b s → (∀ a s', quiet b0 s0 b s' → Q a b s') → fwp (lift m) Q b s.
Proof. intros H1 H2 R HQ. apply HQ. by apply quiet_keep. Qed.

Lemma quiet_op b0 s0 b s o ok b' :
  quiet b0 s0 b s → op_wf o → opSound T s (sNext (s_send s)) (rightEdge (s_recv s)) o →
  added b (op_frame 0 o) ok b' → quiet b0 s0 b' s.
Proof.
  intros [R C E] Hw Hs Ha. constructor; [|done|done]. eapply frel_trans; [exact R|]. by eapply frel_op; [apply R|..].
Qed.

(** The ACK a session sends: the delivered offset and the window up to the
    right edge. *)
Lemma ack_wf s s' flags h w :
  handle_ok h → edge_ok s → flags_ok TypeAck flags → is_u32 (c_epoch (s_ctl s)) → 0 ≤ w →
  op_wf (OpAck h flags (Ack.mkAck (rRead (s_recv s)) (Z.min w (2 ^ 32 - 1))
    (if is_passive (p_Role (s_p s')) then c_epoch (s_ctl s) else 0))).
Proof.
  intros Hh [He1 He2] Hf Hep Hw. split_and!; try done. unfold Ack.wf. cbn. split_and!; [unfold fits; lia|unfold fits; lia|].
  destruct (is_passive _); [done|unfold fits; lia].
Qed.

Lemma fillAck_fwp l b s :
  BInv b → SInv T (viewOf s) → lane_ok s l → edge_ok s → flags_ok TypeAck (ackFlags (s_ack s)) → is_u32 (c_epoch (s_ctl s)) →
  fwp (fillAckLocked l) (λ _ b' s', frel T (sNext (s_send s)) b s (sNext (s_send s')) b' s') b s.
Proof.
  intros Hb Hv Hl He Hf Hep. unfold fillAckLocked. fwp_step. fwp_step. fwp_step. fwp_step. fwp_step.
  pose proof (quiet_refl b s Hb Hv) as R0.
  eapply (fwp_mono _ (λ _ b1 s1, quiet b s b1 s1)).
  { destruct (IsZero _); [by fwp_step|]. destruct (_ || _); [apply (fwp_quiet _ _ b s); [fkeeps|fkeeps|done|done]|].
    fwp_step. destruct (wakeAt_keeps (ackDelayAt (s_ack s)) b Hb) as [W1 W2].
    constructor; [apply frel_step; done|done|done]. }
  intros [] b1 s1 R1. fwp_step. fwp_step. destruct (_ =? _); [fwp_step; apply R1|].
  destruct R1 as [R1 C1 E1]. pose proof (lane_ok_frel _ _ _ _ _ _ _ _ R1 Hl) as [Hh Hl1].
  assert (edge_ok s1) as He1 by (unfold edge_ok; by rewrite E1).
  destruct (raiseEdge_spec s1 He1) as [Hw (e & Hedge & Hs2)]. cbv zeta. fwp_step. unfold fwp at 1, lift at 1.
  rewrite Hs2 in Hw. rewrite Hs2, Hw. set (s2 := set_s_recv (set_rightEdge e (s_recv s1)) s1).
  pose proof (f_equal fst C1) as Cc. pose proof (f_equal snd C1) as Ca. cbn in Cc, Ca.
  assert (frel T (sNext (s_send s)) b s (sNext (s_send s2)) b1 s2) as R2.
  { eapply frel_trans; [exact R1|]. apply frel_step; try done; [apply R1..|cbn; lia]. }
  cbn [s_recv set_s_recv rightEdge set_rightEdge]. fwp_step.
  set (a := Ack.mkAck _ _ _).
  assert (op_wf (OpAck (Handle (lane_at s1 l)) (ackFlags (s_ack s1)) a)) as Hwf.
  { apply ack_wf; [done|done|by rewrite Ca|by rewrite Cc|unfold edge_ok in He1; cbn; lia]. }
  apply (fwp_add (OpAck (Handle (lane_at s1 l)) (ackFlags (s_ack s1)) a)); [apply R2|done|].
  intros ok b2 Ha. destruct ok; cbn [negb].
  - assert (frel T (sNext (s_send s)) b s (sNext (s_send s2)) b2 s2) as R3.
    { eapply frel_trans; [exact R2|]. eapply frel_op; [apply R2|exact Hwf| |exact Ha]. cbn. split; [done|lia]. }
    clearbody s2 a. apply fwp_keep; [fkeeps|]. intros [] s3 HK. by eapply frel_fillK.
  - destruct Ha as (_ & _ & ->); [|done]. fwp_step. wp_step. eapply frel_trans; [exact R1|].
    apply frel_step; try done; [apply R1|exact (fr_s _ _ _ _ _ _ _ R1)].
Qed.

(** ** The first response and the control frames *)

(** What the control side promises a Fill: payloads in the range of the wire. *)
Definition schedOf (s : Session) : Sched.Sched :=
  let c := s_ctl s in
  if members (p_Mode (s_p s)) then c_set c
  else Sched.mkSched (Sched.Epoch (c_set c)) (c_migDeath c) (c_migQuality c) (c_migExplicit c)
         (Sched.N (c_set c)) (Sched.IDs (c_set c)).

Record ctl_ok (s : Session) : Prop := {
  co_rst : ∀ r, c_rst (s_ctl s) = Some r → is_u32 (Rst.Code r) ∧ Bytes (Rst.Msg r);
  co_epoch : is_u32 (c_epoch (s_ctl s));
  co_sched : 0 < Sched.N (c_set (s_ctl s)) → flags_ok TypeSched (c_cause (s_ctl s)) ∧ Sched.wf (schedOf s);
  co_flags : flags_ok TypeAck (ackFlags (s_ack s))
}.

Definition first_ok (l : lane) : Prop :=
  match l_first l with
  | NoFirst => True
  | FirstOpenAck a => OpenAck.wf a
  | FirstJoinAck a => JoinAck.wf a
  end.

(** What a Fill needs of its lane and of the actor. *)
Record fill_ok (s : Session) (l : nat) : Prop := {
  fo_lane : lane_ok s l;
  fo_first : first_ok (lane_at s l);
  fo_ctl : ctl_ok s
}.

Lemma lane_ok_fixed s s' l : fixed s' = fixed s → lane_ok s l → lane_ok s' l.
Proof. intros (_ & _ & _ & _ & _ & _ & _ & Hh & Hl)%fixed_inv [H1 H2]. split; [by rewrite Hh|by rewrite Hl]. Qed.

Lemma ctl_ok_keep s s' : s_p s' = s_p s → ctlK s' = ctlK s → ctl_ok s → ctl_ok s'.
Proof.
  intros Hp C []. pose proof (f_equal fst C) as Cc. pose proof (f_equal snd C) as Ca. cbn in Cc, Ca.
  constructor; unfold schedOf; rewrite ?Cc, ?Ca, ?Hp; done.
Qed.

Lemma idle_ok b s b' s' l : idle b s b' s' → lane_ok s l → ctl_ok s → lane_ok s' l ∧ ctl_ok s'.
Proof.
  intros I Hl Hc. destruct (idle_inv _ _ _ _ I) as (_ & F & _). split; [by eapply lane_ok_fixed|].
  eapply ctl_ok_keep; [|apply I|done]. by apply fixed_inv in F as (? & _).
Qed.

Lemma fillFirst_fwp l b s :
  BInv b → lane_ok s l → first_ok (lane_at s l) → fwp (fillFirstLocked l) (λ _ b' s', idle b s b' s') b s.
Proof.
  intros Hb Hl Hf. pose proof (idle_refl b s Hb) as R0. unfold fillFirstLocked. fwp_step. fwp_step.
  destruct (_ && _); [|by fwp_step]. fwp_step.
  eapply (fwp_mono _ (λ _ b1 s1, s1 = s ∧ idle b s b1 s)).
  { unfold addFirstLocked, first_ok in *. destruct Hl as [Hh _]. destruct (l_first (lane_at s l)) as [|a|a]; [by fwp_step|..]; fwp_step.
    - apply (fwp_add (OpOpenAck (Handle (lane_at s l)) a)); [done|by split|]. intros ok b1 Ha. fwp_step. split; [done|].
      by eapply idle_op; [exact R0| | |exact Ha].
    - apply (fwp_add (OpJoinAck (Handle (lane_at s l)) a)); [done|by split|]. intros ok b1 Ha. fwp_step. split; [done|].
      by eapply idle_op; [exact R0| | |exact Ha]. }
  intros [ok acc] b1 s1 [-> R1]. cbn [fst snd]. destruct ok; cbn [negb]; [|by fwp_step].
  fwp_step. apply (fwp_idle _ _ b s); [unfold addFact, ringActor; fkeeps..|done|]. intros [] s2 R2.
  destruct acc; cbn [negb]; [|by fwp_step].
  fwp_step. apply (fwp_idle _ _ b s); [fkeeps..|done|]. intros [] s3 R3.
  fwp_step. apply (fwp_idle _ _ b s); [fkeeps..|done|]. intros [] s4 R4. by fwp_step.
Qed.

Lemma rst_clip_wf r :
  is_u32 (Rst.Code r) → Bytes (Rst.Msg r) →
  Rst.wf (Rst.mkRst (Rst.Code r) (take (Z.to_nat (Z.min (len (Rst.Msg r)) MaxMsg)) (Rst.Msg r))).
Proof.
  intros Hc Hm. unfold Rst.wf. cbn. split_and!; [done|by apply Forall_take|].
  unfold len. rewrite length_take. assert (0 ≤ MaxMsg) by done. unfold len. lia.
Qed.

(** The SCHED and the ACK of a live session. *)
Definition fillSchedAck (l : nat) (s : Session) : FM bool :=
  let h := Handle (lane_at s l) in
  let c := s_ctl s in
  runB (if negb (is_passive (p_Role (s_p s))) && negb (l_schedSent (lane_at s l) =? c_epoch c) && (0 <? Sched.N (c_set c)) then
          doB ok <- add (AddSched h (c_cause c) (schedOf s));
          lift (when ok (updLane l (set_l_schedSent (c_epoch c))))
        else fret tt);
  doB b <- getB;
  runB lift (do s <- get;
             when (negb (bool_decide (ackLane (s_ack s) = Some l)) && ackOverdueLocked s l (b_now b))
               (upd_ack (set_ackLane (Some l))));
  doB s <- lift get;
  runB fwhen (bool_decide (ackLane (s_ack s) = Some l) ||
              (bool_decide (gapLane (s_ack s) = Some l) && ackQualifiesLocked s (lane_at s l)) ||
              raceAckDutyLocked s (lane_at s l))
         (fillAckLocked l);
  fret true.

(** fillControlLocked up to the point where the session is neither reset nor
    ended. *)
Lemma fillControl_idle l b s (Q : bool → Batch → Session → Prop) :
  BInv b → lane_ok s l → first_ok (lane_at s l) → ctl_ok s →
  (∀ b' s', idle b s b' s' → Q false b' s') →
  (∀ b' s', idle b s b' s' → ended (s_app s) = false → fwp (fillSchedAck l s') Q b' s') →
  fwp (fillControlLocked l) Q b s.
Proof.
  intros Hb Hl Hf Hc HQ Hgo. unfold fillControlLocked. fwp_step. eapply fwp_mono; [by apply fillFirst_fwp|].
  intros go b1 s1 R1. destruct go; cbn [negb]; [|fwp_step; by apply HQ].
  destruct (idle_ok _ _ _ _ _ R1 Hl Hc) as [[Hh Hl1] Hc1]. fwp_step. fwp_step. cbv zeta.
  destruct (c_rst (s_ctl s1)) as [r|] eqn:Er.
  { fwp_step. eapply (fwp_mono _ (λ _ b2 s2, idle b s b2 s2)); [|intros [] b2 s2 R2; fwp_step; by apply HQ].
    destruct (l_rstSent _); [by fwp_step|]. destruct (co_rst _ Hc1 r Er) as [Hr1 Hr2].
    apply (place_idle (OpRst (Handle (lane_at s1 l)) _) (λ ok, when ok (updLane l (set_l_rstSent true))));
      [done|split; [done|by apply rst_clip_wf]|done|intros; fkeeps|intros; fkeeps]. }
  assert (ended (s_app s1) = ended (s_app s)) as He by (by apply idle_inv in R1 as (_ & (_ & _ & _ & _ & _ & _ & ? & _)%fixed_inv & _)).
  rewrite He. destruct (ended (s_app s)) eqn:E; [fwp_step; by apply HQ|]. by apply Hgo.
Qed.

Lemma idle_quiet b s b' s' : SInv T (viewOf s) → idle b s b' s' → quiet b s b' s'.
Proof.
  intros Hv I. destruct (idle_inv _ _ _ _ I) as (V & F & R). destruct I as [B _ C (os & O1 & O2 & O3)].
  pose proof (f_equal v_next V) as Hn. cbn in Hn. constructor; [|done|done]. rewrite Hn.
  constructor; try done; [by rewrite V|by rewrite R|]. exists os. split_and!; try done.
  eapply Forall_impl; [exact O3|]. by intros [] Ho.
Qed.

Lemma fillControl_fwp l b s :
  BInv b → SInv T (viewOf s) → fill_ok s l → edge_ok s →
  fwp (fillControlLocked l) (λ _ b' s', frel T (sNext (s_send s)) b s (sNext (s_send s')) b' s') b s.
Proof.
  intros Hb Hv [Hl Hf Hc] He. apply fillControl_idle; try done; [intros b1 s1 I; by apply idle_quiet|].
  intros b1 s1 I1 _. destruct (idle_ok _ _ _ _ _ I1 Hl Hc) as [[Hh Hl1] Hc1]. unfold fillSchedAck. cbv zeta. fwp_step.
  eapply (fwp_mono _ (λ _ b2 s2, idle b s b2 s2)).
  { destruct (_ && (0 <? _)) eqn:E; [|by fwp_step]. apply andb_prop in E as [_ HN%Z.ltb_lt].
    destruct (co_sched _ Hc1 HN) as [Hs1 Hs2].
    apply (place_idle (OpSched (Handle (lane_at s1 l)) (c_cause (s_ctl s1)) (schedOf s1))
             (λ ok, when ok (updLane l (set_l_schedSent (c_epoch (s_ctl s1))))));
      [done|done|done|intros; fkeeps|intros; fkeeps]. }
  intros [] b2 s2 R2. fwp_step. fwp_step. fwp_step.
  apply (fwp_idle _ _ b s); [fkeeps|fkeeps|done|]. intros [] s3 R3.
  destruct (idle_ok _ _ _ _ _ R3 Hl Hc) as [Hl3 Hc3]. pose proof (idle_quiet _ _ _ _ Hv R3) as Q3.
  fwp_step. fwp_step. fwp_step. apply fwp_fwhen; intros _; [|fwp_step; apply Q3].
  eapply fwp_mono; [apply fillAck_fwp; [apply R3|eapply frel_SInv, Q3|done|unfold edge_ok; by rewrite (qt_recv _ _ _ _ Q3)|apply Hc3..]|].
  intros [] b4 s4 R4. fwp_step. eapply frel_trans; [apply Q3|exact R4].
Qed.

(** ** The whole Fill *)

Lemma finDue_requested s : finDueLocked s = true → fin_requested (fin (s_fin s)) = true.
Proof. unfold finDueLocked. intros H. by repeat (apply andb_prop in H as [H ?]). Qed.

Lemma raceFinDue_requested s l : raceFinDueLocked s l = true → fin_requested (fin (s_fin s)) = true.
Proof. unfold raceFinDueLocked. intros H. by repeat (apply andb_prop in H as [H ?]). Qed.

(** Steps of a Fill in sequence. *)
Lemma fwp_seq {A} (m : FM A) l b0 s0 b s :
  frel T (sNext (s_send s0)) b0 s0 (sNext (s_send s)) b s → lane_ok s0 l →
  (BInv b → SInv T (viewOf s) → lane_ok s l →
     fwp m (λ _ b' s', frel T (sNext (s_send s)) b s (sNext (s_send s')) b' s') b s) →
  fwp m (λ _ b' s', frel T (sNext (s_send s0)) b0 s0 (sNext (s_send s')) b' s') b s.
Proof.
  intros R Hl Hm. eapply fwp_mono; [apply Hm; [apply R|by eapply frel_SInv|by eapply lane_ok_frel]|].
  intros a b3 s3 R3. by eapply frel_trans.
Qed.

Lemma fwp_when_seq c (m : FM unit) l b0 s0 b s :
  frel T (sNext (s_send s0)) b0 s0 (sNext (s_send s)) b s → lane_ok s0 l →
  (c = true → BInv b → SInv T (viewOf s) → lane_ok s l →
     fwp m (λ _ b' s', frel T (sNext (s_send s)) b s (sNext (s_send s')) b' s') b s) →
  fwp (fwhen c m) (λ _ b' s', frel T (sNext (s_send s0)) b0 s0 (sNext (s_send s')) b' s') b s.
Proof. intros R Hl Hm. apply fwp_fwhen; intros Hc; [|done]. eapply fwp_seq; eauto. Qed.

Lemma dataPath_fwp l ctl s0 b s :
  BInv b → SInv T (viewOf s) → lane_ok s l → s_p s = s_p s0 →
  fwp (if is_race (p_Mode (s_p s0)) then
         runB fwhen (negb ctl) (raceFillDataLocked l);
         doB ok <- raceFinLocked l;
         fret tt
       else
         runB fwhen (negb ctl) (fillDataLocked l);
         doB s <- lift get;
         fwhen (finDueLocked s) (doB ok <- addFinLocked l; fret tt))
    (λ _ b' s', frel T (sNext (s_send s)) b s (sNext (s_send s')) b' s') b s.
Proof.
  intros Hb Hv Hl Hp. pose proof (frel_refl T (sNext (s_send s)) b s Hb Hv) as R0. destruct (is_race _) eqn:Hr.
  - fwp_step. eapply fwp_mono; [eapply fwp_when_seq; [exact R0|exact Hl|intros _ ? ? ?; apply raceFillData_fwp; [done..|by rewrite Hp]]|].
    intros [] b1 s1 R1. fwp_step. eapply fwp_mono; [eapply fwp_seq; [exact R1|exact Hl|]|intros x b2 s2 R2; fwp_step; exact R2].
    intros Hb1 Hv1 Hl1. unfold raceFinLocked. fwp_step. fwp_step. destruct (raceFinDueLocked s1 l) eqn:E; [|fwp_step; by apply frel_refl].
    apply addFin_fwp; try done. by eapply raceFinDue_requested.
  - fwp_step. eapply fwp_mono; [eapply fwp_when_seq; [exact R0|exact Hl|intros _ ? ? ?; by apply fillData_fwp]|].
    intros [] b1 s1 R1. fwp_step. fwp_step. eapply fwp_when_seq; [exact R1|exact Hl|]. intros E Hb1 Hv1 Hl1.
    fwp_step. eapply fwp_mono; [apply addFin_fwp; try done; by apply finDue_requested|]. intros x b2 s2 R2. by fwp_step.
Qed.

Lemma fillLocked_fwp l b s :
  BInv b → SInv T (viewOf s) → fill_ok s l → edge_ok s →
  fwp (fillLocked l) (λ _ b' s', frel T (sNext (s_send s)) b s (sNext (s_send s')) b' s') b s.
Proof.
  intros Hb Hv Ho He. pose proof (fo_lane _ _ Ho) as Hl. unfold fillLocked. fwp_step. fwp_step.
  destruct (is_dead _); [fwp_step; by apply frel_refl|].
  fwp_step. fwp_step. cbv zeta. fwp_step. eapply fwp_mono; [by apply fillControl_fwp|]. intros go b1 s1 R1.
  fwp_step. eapply fwp_mono; [eapply fwp_when_seq; [exact R1|exact Hl|intros _ ? ? ?; apply dataPath_fwp; [done..|]]|].
  { apply (fixed_inv _ _ (fr_fixed _ _ _ _ _ _ _ R1)). }
  intros [] b2 s2 R2. fwp_step. fwp_step. apply fwp_fwhen; intros _; [|done].
  apply fwp_keep; [fkeeps|]. intros [] s3 HK. by eapply frel_fillK.
Qed.

Lemma placeGo_fwp l b s :
  BInv b → SInv T (viewOf s) → lane_ok s l → edge_ok s → fwp (placeGoLocked l) (λ _ b' s', s' = s ∧ quiet b s b' s) b s.
Proof.
  intros Hb Hv [Hh _] He. unfold placeGoLocked. fwp_step. fwp_step. cbv zeta.
  set (w := if rRead (s_recv s) <? rightEdge (s_recv s) then u64 (rightEdge (s_recv s) - rRead (s_recv s)) else 0).
  assert (w = rightEdge (s_recv s) - rRead (s_recv s)) as Hw.
  { subst w. destruct He. destruct (Z.ltb_spec (rRead (s_recv s)) (rightEdge (s_recv s))); [apply wrap_small; unfold fits; lia|lia]. }
  clearbody w. subst w. set (a := Ack.mkAck _ _ _).
  assert (op_wf (OpAck (Handle (lane_at s l)) 0 a)) as Hwf.
  { destruct He. split_and!; try done. unfold Ack.wf. cbn. unfold fits. lia. }
  apply (fwp_add (OpAck (Handle (lane_at s l)) 0 a)); [done|done|]. intros ok b' Ha. split; [done|].
  eapply quiet_op; [by apply quiet_refl|exact Hwf| |exact Ha]. cbn. split; [done|]. lia.
Qed.

Lemma first_ok_updLane f l s : (∀ c, l_first (f c) = l_first c) → first_ok (lane_at s l) → first_ok (lane_at (updLane l f s).2 l).
Proof.
  intros Hf. unfold first_ok, lane_at. cbn. rewrite list_lookup_alter_eq. destruct (heap s !! l); cbn; [|done]. by rewrite Hf.
Qed.

Lemma Fill_fwp l b s :
  BInv b → SInv T (viewOf s) → fill_ok s l → edge_ok s →
  fwp (Fill l) (λ _ b' s', frel T (sNext (s_send s)) b s (sNext (s_send s')) b' s') b s.
Proof.
  intros Hb Hv Ho He. pose proof (quiet_refl b s Hb Hv) as R0. unfold Fill. fwp_step.
  eapply (fwp_mono _ (λ _ b1 s1, quiet b s b1 s1 ∧ fill_ok s1 l)).
  - unfold muxFillLocked. fwp_step. fwp_step. destruct (port_Held _); [by fwp_step|].
    destruct (l_goOwed _); cbn [negb]; [|by fwp_step]. destruct (_ || _); [by fwp_step|].
    fwp_step. eapply fwp_mono; [apply placeGo_fwp; try done; apply Ho|]. intros ok b1 s1 [-> R1].
    destruct ok; cbn [negb]; [|by fwp_step]. fwp_step.
    pose proof (quiet_keep (updLane l (set_l_goOwed false)) b s b1 s ltac:(fkeeps) ltac:(fkeeps) R1) as R2.
    fwp_step. unfold wp. fwp_step. split; [done|]. destruct R2 as [R C _]. destruct Ho as [Hl Hf Hc]. constructor.
    + eapply lane_ok_fixed; [apply R|done].
    + by apply first_ok_updLane.
    + eapply ctl_ok_keep; [|exact C|done]. by destruct (fixed_inv _ _ (fr_fixed _ _ _ _ _ _ _ R)).
  - intros go b1 s1 [R1 Ho1]. eapply fwp_when_seq; [apply R1|apply Ho|]. intros _ B1 V1 L1.
    apply fillLocked_fwp; try done. unfold edge_ok. by rewrite (qt_recv _ _ _ _ R1).
Qed.

End FillControl.

(** A Fill of an ended session: control frames only. *)
Lemma Fill_ended l b s :
  BInv b → ended (s_app s) = true → fill_ok s l → fwp (Fill l) (λ _ b' s', idle b s b' s') b s.
Proof.
  intros Hb He [Hl Hf Hc]. pose proof (idle_refl b s Hb) as R0. unfold Fill. fwp_step.
  assert (fwp (muxFillLocked l) (λ _ b1 s1, b1 = b ∧ s1 = s) b s) as Hm.
  { unfold muxFillLocked. fwp_step. fwp_step. destruct (port_Held _); [by fwp_step|].
    destruct (l_goOwed _); cbn [negb]; [|by fwp_step]. rewrite He, orb_true_r. by fwp_step. }
  eapply fwp_mono; [exact Hm|]. intros go b1 s1 [-> ->]. apply fwp_fwhen; intros _; [|done].
  unfold fillLocked. fwp_step. fwp_step. destruct (is_dead _); [by fwp_step|]. fwp_step. fwp_step. cbv zeta. fwp_step.
  apply fillControl_idle; try done; [|congruence]. intros b1 s1 I1. fwp_step. cbn [andb fwhen]. fwp_step. fwp_step. fwp_step.
  apply fwp_fwhen; intros _; [|done]. apply (fwp_idle _ _ b s); [fkeeps|fkeeps|done|done].
Qed.
