(* ===== verification/SessLink.v ===== *)
(** * What the two ends of a session rely on

    The fields of one end that the other end's correctness depends on, and how
    every step moves them.  Of the receiver: the read position, the advertised
    right edge and the peer's FIN.  Of the sender: the acknowledged front, the
    peer's limit, the end of the written stream and its FIN.  [SessNet]
    composes two ends over these. *)

From Stdlib Require Import ZArith Lia.
From stdpp Require Import base numbers list sorting gmap sets.
From S2P Require Import Prelude Buffers WireConst WireFrame Codec WirePayload GoTime SchedTiming CarrierBuf Spans.
From S2P Require Import RecvSegs RecvProofs RecvFrame SessState SessDuty SessRecv SessRecvProofs SessFin SessSend.
From S2P Require Import CarrierBatch BatchWire SessFill SessStep SessDeliver SessSendInv SessFillProofs SessFillCtl.

Open Scope Z_scope.
Open Scope rendr_scope.

(** ** The receiver *)

Definition edgeOf (s : Session) := (rightEdge (s_recv s), peerFin (s_recv s), peerFinSet (s_recv s)).

Lemma edgeOf_recvOf {A} (m : M A) : keeps recvOf m → keeps edgeOf m.
Proof. intros H s. unfold edgeOf. by destruct (recvOf_inv _ _ (H s)) as (_ & -> & _). Qed.

Lemma edgeOf_dataOf {A} (m : M A) : keeps dataOf m → keeps edgeOf m.
Proof. intros H. by apply edgeOf_recvOf, recvOf_dataOf. Qed.

Create HintDb edgek.
#[export] Hint Resolve keeps_ret keeps_get keeps_gets : edgek.
#[export] Hint Extern 2 (keeps edgeOf _) => (intros ?; reflexivity) : edgek.
#[export] Hint Extern 3 (keeps edgeOf _) => (apply edgeOf_dataOf; solve [eauto with keeps]) : edgek.
#[export] Hint Extern 4 (keeps edgeOf _) => (apply edgeOf_recvOf; solve [eauto with recvk]) : edgek.
Ltac ekeeps := keeps_by ltac:(eauto 3 with edgek).

Lemma ek_peerFinCheck : keeps edgeOf peerFinCheckLocked.
Proof. unfold peerFinCheckLocked. ekeeps. Qed.
#[export] Hint Resolve ek_peerFinCheck : edgek.

Lemma ek_consumeAll : keeps edgeOf consumeAllLocked.
Proof. unfold consumeAllLocked. ekeeps. Qed.
#[export] Hint Resolve ek_consumeAll : edgek.

Lemma ek_recvData off p buf : keeps edgeOf (recvDataLocked off p buf).
Proof. unfold recvDataLocked, recvPlaced, raceDupLocked, upd_rb. ekeeps. Qed.

Lemma ek_close : keeps edgeOf Close.
Proof. unfold Close, closeLocked. ekeeps. Qed.

Lemma ek_end err : keeps edgeOf (endLocked err).
Proof. unfold endLocked. ekeeps. Qed.

Lemma ek_verdict l k0 kw now : keeps edgeOf (earlyVerdictLocked l k0 kw now).
Proof. unfold earlyVerdictLocked. ekeeps. Qed.

Lemma ek_readBegin n : keeps edgeOf (readBegin n).
Proof. unfold readBegin. ekeeps. Qed.

Lemma ek_readCommit n : keeps edgeOf (readCommit n).
Proof. unfold readCommit. ekeeps. Qed.
#[export] Hint Resolve ek_recvData ek_close ek_end ek_verdict ek_readBegin ek_readCommit : edgek.

(** The receiver moves: it reads on, it raises the edge, the peer's FIN stays. *)
Record rup (s s' : Session) : Prop := {
  ru_read : rRead (s_recv s) ≤ rRead (s_recv s');
  ru_edge : rightEdge (s_recv s) ≤ rightEdge (s_recv s');
  ru_fin : peerFinSet (s_recv s') = peerFinSet (s_recv s) ∧ peerFin (s_recv s') = peerFin (s_recv s)
}.

Lemma rup_refl s : rup s s.
Proof. by constructor. Qed.

Lemma edgeOf_inv s s' : edgeOf s' = edgeOf s →
  rightEdge (s_recv s') = rightEdge (s_recv s) ∧ peerFinSet (s_recv s') = peerFinSet (s_recv s) ∧ peerFin (s_recv s') = peerFin (s_recv s).
Proof. by intros [= H1 H2 H3]. Qed.

Lemma rup_edgeOf s s' : edgeOf s' = edgeOf s → rRead (s_recv s) ≤ rRead (s_recv s') → rup s s'.
Proof. intros (H1 & H2 & H3)%edgeOf_inv Hr. constructor; [done|lia|done]. Qed.

Lemma rup_edgeUp s s' : edgeUp s s' → rup s s'.
Proof.
  intros (e & (_ & He & _)%recvOf_inv & Hle & _). constructor; rewrite He; cbn; done.
Qed.

Lemma rup_recvOf s s' : recvOf s' = recvOf s → rup s s'.
Proof. intros H. by apply rup_edgeUp, edgeUp_same. Qed.

Lemma data_edge l off p buf s :
  wp (Data l off p buf) (λ _ s', rightEdge (s_recv s) ≤ rightEdge (s_recv s') ∧
    peerFinSet (s_recv s') = peerFinSet (s_recv s) ∧ peerFin (s_recv s') = peerFin (s_recv s)) s.
Proof.
  set (Q := λ s' : Session, rightEdge (s_recv s) ≤ rightEdge (s_recv s') ∧
    peerFinSet (s_recv s') = peerFinSet (s_recv s) ∧ peerFin (s_recv s') = peerFin (s_recv s)).
  assert (∀ {A} (m : M A) s1, keeps edgeOf m → Q s1 → wp m (λ _ s', Q s') s1) as Hk.
  { intros A m s1 Hm (Q1 & Q2 & Q3). destruct (edgeOf_inv _ _ (Hm s1)) as (E1 & E2 & E3). unfold wp, Q. rewrite E1, E2, E3. done. }
  assert (Q s) as H0 by done. unfold Data. wp_step. wp_step. cbv zeta. wp_step.
  eapply wp_mono with (P := λ _ s', Q s'); [|intros e s1 H1; wp_step; eapply wp_mono; [apply Hk; [ekeeps|done]|intros [] s2 H2; by wp_step]].
  unfold dataLocked. wp_step. wp_step. destruct (ended (s_app s)); [apply Hk; [unfold upd_rb; ekeeps|done]|].
  destruct (pendingLocked s); [|apply Hk; [ekeeps|done]]. unfold earlyDataLocked. wp_step. wp_step. cbv zeta.
  destruct (_ || _ || _); [apply Hk; [unfold upd_rb; ekeeps|done]|]. wp_step.
  assert (∀ s1, Q s1 → wp (do err <- recvDataLocked off p buf;
      run upd_recv (λ r, set_earlyBytes (u64 (rxBytes (rb r) + segs_bytes (ooq (rb r)))) r); ret err) (λ _ s', Q s') s1) as Hgo.
  { intros s1 H1. apply Hk; [ekeeps|done]. }
  apply wp_when; [|intros _; by apply Hgo]. intros Hlt%Z.ltb_lt. wp_step. apply Hgo. unfold Q. cbn. split_and!; [lia|done|done].
Qed.

(** The read position. *)
Definition readOf (s : Session) : Z := rRead (s_recv s).

Lemma readOf_dataOf {A} (m : M A) : keeps dataOf m → keeps readOf m.
Proof. intros H s. unfold readOf. by destruct (dataOf_inv _ _ (H s)) as (_ & _ & -> & _). Qed.
#[export] Hint Resolve keeps_ret keeps_get keeps_gets : edgek.
#[export] Hint Extern 2 (keeps readOf _) => (intros ?; reflexivity) : edgek.
#[export] Hint Extern 3 (keeps readOf _) => (apply readOf_dataOf; solve [eauto with keeps]) : edgek.

Lemma ek_peerFinCheck_read : keeps readOf peerFinCheckLocked.
Proof. unfold peerFinCheckLocked. ekeeps. Qed.
#[export] Hint Resolve ek_peerFinCheck_read : edgek.

(** A FIN is the only frame that sets the peer's FIN, and it sets the offset
    it carries. *)
Lemma control_up l h p s :
  wp (Control l h p) (λ _ s', rRead (s_recv s') = rRead (s_recv s) ∧ rightEdge (s_recv s') = rightEdge (s_recv s) ∧
    (peerFinSet (s_recv s') = peerFinSet (s_recv s) ∧ peerFin (s_recv s') = peerFin (s_recv s) ∨
     h_Type h = TypeFin ∧ Fin.ParseFin p = Ok (peerFin (s_recv s')))) s.
Proof.
  assert (∀ (m : M (option serr)), keeps recvOf m →
    wp m (λ _ s', rRead (s_recv s') = rRead (s_recv s) ∧ rightEdge (s_recv s') = rightEdge (s_recv s) ∧
      (peerFinSet (s_recv s') = peerFinSet (s_recv s) ∧ peerFin (s_recv s') = peerFin (s_recv s) ∨
       h_Type h = TypeFin ∧ Fin.ParseFin p = Ok (peerFin (s_recv s')))) s) as Hk.
  { intros m Hm. destruct (recvOf_inv _ _ (Hm s)) as (_ & E & _). unfold wp. rewrite E. split_and!; try done. by left. }
  unfold Control. wp_step. wp_step. destruct (ended _); [apply Hk; rkeeps|].
  destruct (h_Type h =? TypeRst); [apply Hk; rkeeps|]. destruct (pendingLocked s); [apply Hk; rkeeps|].
  destruct (h_Type h =? TypeAck); [unfold wireErr; apply Hk; rkeeps|].
  destruct (Z.eqb_spec (h_Type h) TypeFin) as [Hf|].
  2:{ destruct (h_Type h =? TypeSched); apply Hk; rkeeps. }
  unfold wireErr. destruct (Fin.ParseFin p) as [off| |]; try (apply Hk; rkeeps; fail).
  unfold finLocked. wp_step. wp_step. cbv zeta. destruct (peerFinSet (s_recv s)) eqn:Hs.
  { destruct (negb _); [wp_step; split_and!; [done..|by left]|]. wp_step. apply wp_when; intros _; [|wp_step; split_and!; [done..|by left]].
    apply wp_keeps; [eauto with keeps|]. intros _ s1 H1. wp_step. apply dataOf_inv in H1 as (_ & _ & -> & _). split_and!; [done..|by left]. }
  destruct (_ <? _); [wp_step; split_and!; [done..|by left]|]. destruct (_ <? _); [wp_step; split_and!; [done..|by left]|].
  wp_step. wp_step. wp_step. wp_step. wp_step.
  set (s1 := set_s_recv _ _). destruct (edgeOf_inv _ _ (ek_peerFinCheck s1)) as (E1 & E2 & E3).
  pose proof (ek_peerFinCheck_read s1) as E4. unfold readOf in E4.
  unfold wp. cbn [ret fst snd]. rewrite E1, E3, E4. split_and!; [done..|]. by right.
Qed.

(** Every call but [Control] moves the receiver up. *)
Definition isControl {A} (c : call A) : bool := match c with CControl _ _ _ => true | _ => false end.

Lemma exec_up {A} S (c : call A) s : sinv S s → callOk s c → isControl c = false → rup s (exec c s).2.
Proof.
  intros Hs Hok Hc. destruct (sendOnly c) eqn:Hso; [by apply rup_recvOf, rk_exec|]. pose proof (rmove_exec S c s Hs Hok) as Hm.
  destruct c; try done; cbn [exec] in *.
  - apply rup_edgeOf; [apply ek_close|apply Hm].
  - apply rup_edgeOf; [apply ek_end|apply Hm].
  - apply rup_edgeUp, openWindow_edge.
  - apply rup_edgeOf; [apply ek_verdict|apply Hm].
  - apply rup_edgeUp, readvertise_edge.
Qed.

Lemma rk_write grant n p k :
  keeps recvOf (writeRoundLocked grant n) ∧ keeps recvOf (writeCopy p) ∧ keeps recvOf (writeCommit k).
Proof.
  split_and!; unfold writeRoundLocked, earlyCapLocked, reserveChunksLocked, writeCopy, writeCommit, commitRoundLocked; rkeeps.
Qed.

Lemma readBegin_up n s : rup s (readBegin n s).2.
Proof.
  apply rup_edgeOf; [apply ek_readBegin|]. assert (keeps readOf (readBegin n)) as Hk by (unfold readBegin; ekeeps).
  assert (rRead (s_recv (readBegin n s).2) = rRead (s_recv s)) as -> by apply (Hk s). done.
Qed.

Lemma readCommit_up n s : 0 ≤ n → 0 ≤ rRead (s_recv s) → rRead (s_recv s) + n < 2 ^ 64 ∨ closed (s_app s) = true → rup s (readCommit n s).2.
Proof.
  intros Hn Hr Hlt. apply rup_edgeOf; [apply ek_readCommit|].
  change (wp (readCommit n) (λ _ s', rRead (s_recv s) ≤ rRead (s_recv s')) s).
  assert (∀ A (m : M A) s1, keeps readOf m → rRead (s_recv s) ≤ rRead (s_recv s1) → wp m (λ _ s', rRead (s_recv s) ≤ rRead (s_recv s')) s1) as Hk.
  { intros A m s1 Hm H1. unfold wp. by assert (rRead (s_recv (m s1).2) = rRead (s_recv s1)) as -> by apply (Hm s1). }
  unfold readCommit. wp_step. wp_step. wp_step. wp_step. destruct (closed (s_app (set_s_recv _ s))) eqn:Hc.
  { apply Hk; [ekeeps|done]. }
  wp_step. wp_step. cbn [set_rcopying set_rRead rRead set_s_recv s_recv].
  destruct Hlt as [Hlt|Hcl]; [|cbn in Hc; congruence].
  apply Hk; [ekeeps|cbn; rewrite wrap_small by (unfold fits; lia); lia].
Qed.

(** ** The sender *)

(** The offsets of the sender that its peer sees, the bytes it holds and its
    FIN. *)
Definition lineOf (s : Session) :=
  (s_p s, sBase (s_send s), s_end (s_send s), resEnd (s_send s), peerLimit (s_send s)).
Definition chunkOf (s : Session) := (chunks (s_send s), cbase (s_send s), ended (s_app s)).
Definition finOfS (s : Session) : option Z := finOf (fin (s_fin s)).

Lemma lineOf_inv s s' : lineOf s' = lineOf s →
  s_p s' = s_p s ∧ sBase (s_send s') = sBase (s_send s) ∧ s_end (s_send s') = s_end (s_send s) ∧
  resEnd (s_send s') = resEnd (s_send s) ∧ peerLimit (s_send s') = peerLimit (s_send s).
Proof. by intros [= H1 H2 H3 H4 H5]. Qed.

Lemma chunkOf_inv s s' : chunkOf s' = chunkOf s →
  chunks (s_send s') = chunks (s_send s) ∧ cbase (s_send s') = cbase (s_send s) ∧ ended (s_app s') = ended (s_app s).
Proof.
  unfold chunkOf. intros H. split_and!; [exact (f_equal (λ x, x.1.1) H)|exact (f_equal (λ x, x.1.2) H)|exact (f_equal snd H)].
Qed.

Lemma out_sendOf {A} (m : M A) : keeps sendOf m → keeps lineOf m ∧ keeps chunkOf m ∧ keeps finOfS m.
Proof.
  intros H. split_and!; intros s; destruct (sendOf_inv _ _ (H s)) as [V E]; unfold lineOf, chunkOf, finOfS.
  - pose proof (f_equal v_p V) as H1. pose proof (f_equal v_base V) as H2. pose proof (f_equal v_end V) as H3.
    pose proof (f_equal v_res V) as H4. pose proof (f_equal v_lim V) as H5. cbn in H1, H2, H3, H4, H5. congruence.
  - pose proof (f_equal v_chunks V) as H1. pose proof (f_equal v_cbase V) as H2. cbn in H1, H2. by rewrite H1, H2, E.
  - exact (f_equal v_fin V).
Qed.

Create HintDb outk.
#[export] Hint Resolve keeps_ret keeps_get keeps_gets : outk.
#[export] Hint Extern 2 (keeps lineOf _) => (intros ?; reflexivity) : outk.
#[export] Hint Extern 2 (keeps chunkOf _) => (intros ?; reflexivity) : outk.
#[export] Hint Extern 2 (keeps finOfS _) => (intros ?; reflexivity) : outk.
#[export] Hint Extern 3 (keeps lineOf _) => (apply out_sendOf; solve [eauto 3 with sendk]) : outk.
#[export] Hint Extern 3 (keeps chunkOf _) => (apply out_sendOf; solve [eauto 3 with sendk]) : outk.
#[export] Hint Extern 3 (keeps finOfS _) => (apply out_sendOf; solve [eauto 3 with sendk]) : outk.
Ltac okeeps := keeps_by ltac:(eauto 3 with outk).

Definition lineKeep {A} (c : call A) : bool :=
  match c with CControl _ _ _ | CPeerWindow _ | CApplyRxNext _ => false | _ => true end.
Definition chunkKeep {A} (c : call A) : bool :=
  match c with CControl _ _ _ | CApplyRxNext _ | CEnd _ => false | _ => true end.
Definition finKeep {A} (c : call A) : bool :=
  match c with CControl _ _ _ | CClose | CCloseWrite => false | _ => true end.

Lemma ok_requeue l : keeps lineOf (requeueLocked l) ∧ keeps chunkOf (requeueLocked l) ∧ keeps finOfS (requeueLocked l).
Proof. split_and!; unfold requeueLocked; okeeps. Qed.

Lemma ok_advance to now : keeps finOfS (advanceSendLocked to now).
Proof. unfold advanceSendLocked, trimLane. okeeps. Qed.

Lemma ok_closeWrite now : keeps lineOf (closeWriteLocked now) ∧ keeps chunkOf (closeWriteLocked now).
Proof. split; unfold closeWriteLocked; okeeps. Qed.
#[export] Hint Resolve ok_advance : outk.
#[export] Hint Extern 1 (keeps _ (requeueLocked _)) => (apply ok_requeue) : outk.
#[export] Hint Extern 1 (keeps _ (closeWriteLocked _)) => (apply ok_closeWrite) : outk.

Ltac okexec c := destruct c; try done; cbn [exec];
  unfold WriteBlocked, readEnter, readWoken, writeWoken, writeEmpty, CloseWrite, setDeadline, deadlineFired, wakeDirLocked,
    peerWindowLocked, applyRxNextLocked, laneGoneLocked, orderRemove, laneAddedLocked, routingChangedLocked, openWindowLocked,
    earlyWindowLocked, bumpAckLocked, takeFactsLocked, rescueLocked, routingChangedLocked, raceAttachLocked, wakeRescueLocked,
    earlyVerdictLocked, readvertiseLocked, Close, closeLocked, endLocked; okeeps.

Lemma line_exec {A} (c : call A) : lineKeep c = true → keeps lineOf (exec c).
Proof. intros Hc. okexec c. Qed.

Lemma chunk_exec {A} (c : call A) : chunkKeep c = true → keeps chunkOf (exec c).
Proof. intros Hc. okexec c. Qed.

Lemma fin_exec {A} (c : call A) : finKeep c = true → keeps finOfS (exec c).
Proof. intros Hc. okexec c. Qed.

Section Send.
Context (T : Z → Z).

(** What the actor guarantees of its calls, beyond [callOk]: a delivered
    offset is not negative, and the early verdict as [verdictOk] says. *)
Definition scallOk {A} (s : Session) (c : call A) : Prop :=
  callOk s c ∧
  match c with
  | CApplyRxNext rx => 0 ≤ rx
  | CEarlyVerdict l k0 kw _ => verdictOk s l k0 kw
  | _ => True
  end.

(** The calls that leave the whole send view alone. *)
Definition viewKeep {A} (c : call A) : bool :=
  match c with
  | CControl _ _ _ | CCloseWrite | CClose | CEnd _ | CPeerWindow _ | CApplyRxNext _ | CRequeue _ | CLaneGone _
  | CRescue _ _ _ | CRaceAttach _ | CEarlyVerdict _ _ _ _ => false
  | _ => true
  end.

Lemma view_exec {A} (c : call A) : viewKeep c = true → keeps sendOf (exec c).
Proof.
  intros Hc. destruct c; try done; cbn [exec];
    unfold WriteBlocked, readEnter, readWoken, writeWoken, writeEmpty, setDeadline, deadlineFired, wakeDirLocked,
      laneAddedLocked, routingChangedLocked, openWindowLocked, earlyWindowLocked, bumpAckLocked, takeFactsLocked,
      wakeRescueLocked, readvertiseLocked; skeeps.
Qed.

Lemma control_W l h p s :
  SInv T (viewOf s) → Bytes p → wp (Control l h p) (λ _ s', SInv T (viewOf s') ∧ ended (s_app s') = ended (s_app s)) s.
Proof.
  intros Hv HB. assert (∀ (m : M (option serr)), keeps sendOf m →
    wp m (λ _ s', SInv T (viewOf s') ∧ ended (s_app s') = ended (s_app s)) s) as Hk.
  { intros m Hm. apply wp_sk; [done|]. by intros _ s' [-> ->]%sendOf_inv. }
  unfold Control. wp_step. wp_step. destruct (ended _) eqn:He; [apply Hk; skeeps|].
  destruct (h_Type h =? TypeRst); [apply Hk; skeeps|]. destruct (pendingLocked s); [apply Hk; skeeps|].
  destruct (h_Type h =? TypeAck).
  { unfold wireErr. destruct (Ack.ParseAck p) as [a| |] eqn:Ea; try (apply Hk; skeeps; fail).
    eapply wp_mono; [apply ack_wp; [done|]|].
    - apply Ack.ack_parse_inv in Ea as [(Hd & _) _]; [|done]. apply Hd.
    - intros [e|] s'; [by intros [-> _]|by intros (? & -> & _)]. }
  destruct (h_Type h =? TypeFin); [unfold wireErr; destruct (Fin.ParseFin p); apply Hk; skeeps|].
  destruct (h_Type h =? TypeSched); apply Hk; skeeps.
Qed.

Lemma end_ends err s : ended (s_app (endLocked err s).2) = true.
Proof.
  unfold endLocked, bind, get. destruct (ended (s_app s)) eqn:E; [done|].
  unfold upd_app, when, upd_send, upd_recv, modify, signalR, signalW, ret.
  repeat match goal with |- context [if ?b then _ else _] => destruct b end; done.
Qed.

Lemma exec_W {A} (c : call A) s :
  SInv T (viewOf s) → scallOk s c → wp (exec c) (λ _ s', ended (s_app s') = false → SInv T (viewOf s')) s.
Proof.
  intros Hv [Hok Hok2]. destruct (viewKeep c) eqn:Hc.
  { apply wp_sk; [by apply view_exec|]. by intros _ s' [-> _]%sendOf_inv. }
  destruct c; try done; cbn [exec].
  - eapply wp_mono; [by apply control_W|]. by intros e s' [].
  - unfold CloseWrite. wp_step. wp_step. wp_step. apply wp_Now. wp_step.
    eapply wp_mono; [by apply closeWrite_wp|]. intros [] s1 (I1 & _). apply wp_sk; [skeeps|]. by intros _ s2 [-> _]%sendOf_inv.
  - unfold Close, closeLocked. wp_step. apply wp_Now. wp_step. wp_step. wp_step. destruct (closed _).
    { wp_step. apply wp_sk; [skeeps|]. by intros _ s2 [-> _]%sendOf_inv. }
    wp_step. wp_step. wp_step. wp_step. wp_step. eapply wp_mono; [by apply closeWrite_wp|]. intros [] s1 (I1 & _).
    apply wp_sk; [skeeps|]. intros [] s2 [V2 _]%sendOf_inv. apply wp_sk; [skeeps|]. intros _ s3 [-> _]%sendOf_inv. by rewrite V2.
  - unfold wp. by rewrite end_ends.
  - eapply wp_mono; [by apply peerWindow_wp|]. by intros e s' [].
  - eapply wp_mono; [by apply applyRxNext_wp|]. by intros e s' [].
  - eapply wp_mono; [by apply requeue_wp|]. by intros e s' [].
  - eapply wp_mono; [by apply laneGone_wp|]. by intros e s' [].
  - eapply wp_mono; [by apply rescue_wp|]. by intros e s' [].
  - eapply wp_mono; [by apply raceAttach_wp|]. by intros e s' [].
  - eapply wp_mono; [by apply verdict_wp|]. by intros e s' [].
Qed.

(** ** A Write in progress *)

(** Between the reservation of a round and its commit the writer copies
    outside the lock. *)
Inductive wphase :=
| WIdle
| WReserved (k : Z)
| WCopied (k : Z).

Definition phaseOk (v : sview) (ph : wphase) : Prop :=
  match ph with
  | WIdle => v_end v = v_res v
  | WReserved k => 0 < k ∧ v_end v + k = v_res v
  | WCopied k => 0 < k ∧ v_end v + k = v_res v ∧
      ∀ x, v_base v ≤ x < v_res v → byteAt (v_chunks v) (v_cbase v) x = Some (T x)
  end.

Lemma phase_bmove v v' ph : bmove v v' → phaseOk v ph → phaseOk v' ph.
Proof.
  intros (_ & H1 & H2 & H3 & H4). destruct ph; cbn; rewrite ?H1, ?H2; [done|done|]. intros (P1 & P2 & P3).
  split_and!; try done. intros x Hx. rewrite H4 by done. apply P3. lia.
Qed.

Lemma bmove_keep s s' : lineOf s' = lineOf s → chunkOf s' = chunkOf s → bmove (viewOf s) (viewOf s').
Proof.
  intros (H0 & H1 & H2 & H3 & H4)%lineOf_inv (C1 & C2 & _)%chunkOf_inv. unfold bmove. cbn. rewrite H0, H1, H2, H3, C1, C2.
  split_and!; done.
Qed.

Lemma bmove_inv s s' : bmove (viewOf s) (viewOf s') →
  s_p s' = s_p s ∧ s_end (s_send s') = s_end (s_send s) ∧ sBase (s_send s) ≤ sBase (s_send s').
Proof. by intros (H0 & H1 & _ & H2 & _). Qed.

Record WInv (s : Session) (ph : wphase) : Prop := {
  wi_live : ended (s_app s) = false → SInv T (viewOf s) ∧ phaseOk (viewOf s) ph;
  wi_first : p_FirstOffset (s_p s) ≤ sBase (s_send s) ∧ p_FirstOffset (s_p s) ≤ s_end (s_send s)
}.

(** ** What a step shows the peer *)

(** A step that acknowledges nothing and opens no window. *)
Record sstay (s s' : Session) : Prop := {
  ss_p : s_p s' = s_p s;
  ss_base : sBase (s_send s') = sBase (s_send s);
  ss_lim : peerLimit (s_send s') = peerLimit (s_send s);
  ss_end : s_end (s_send s) ≤ s_end (s_send s');
  ss_fin : ∀ o, finOfS s = Some o → finOfS s' = Some o
}.

Lemma sstay_line s s' : lineOf s' = lineOf s → finOfS s' = finOfS s → sstay s s'.
Proof. intros (H0 & H1 & H2 & H3 & H4)%lineOf_inv Hf. constructor; try done; [lia|by rewrite Hf]. Qed.

Lemma sstay_keep {A} (m : M A) s : keeps sendOf m → sstay s (m s).2.
Proof. intros (H1 & _ & H3)%out_sendOf. by apply sstay_line. Qed.

Lemma closeWrite_fin now s : wp (closeWriteLocked now) (λ _ s', ∀ o, finOfS s = Some o → finOfS s' = Some o) s.
Proof.
  unfold closeWriteLocked. wp_step. wp_step. destruct (fin_requested (fin (s_fin s))) eqn:E; [by wp_step|].
  unfold wp, finOfS, finOf at 1. by rewrite E.
Qed.

Lemma close_fin s :
  (∀ o, finOfS s = Some o → finOfS (Close s).2 = Some o) ∧ (∀ o, finOfS s = Some o → finOfS (CloseWrite s).2 = Some o).
Proof.
  assert (∀ (m : M unit) (Q : Session → Prop) s1, keeps finOfS m → (∀ s2, finOfS s2 = finOfS s1 → Q s2) → wp m (λ _ s', Q s') s1) as Hk
    by (intros m Q s1 Hm HQ; apply HQ, Hm).
  split.
  - change (wp Close (λ _ s', ∀ o, finOfS s = Some o → finOfS s' = Some o) s). unfold Close, closeLocked.
    wp_step. apply wp_Now. wp_step. wp_step. wp_step. destruct (closed _); [wp_step; apply Hk; [okeeps|by intros s2 ->]|].
    wp_step. wp_step. wp_step. wp_step. wp_step. eapply wp_mono; [apply closeWrite_fin|]. intros [] s1 H1.
    assert (∀ o, finOfS s = Some o → finOfS s1 = Some o) as H1' by exact H1. apply Hk; [okeeps|]. intros s2 H2.
    apply Hk; [okeeps|]. intros s3 H3 o Ho. rewrite H3, H2. auto.
  - change (wp CloseWrite (λ _ s', ∀ o, finOfS s = Some o → finOfS s' = Some o) s). unfold CloseWrite.
    wp_step. wp_step. wp_step. apply wp_Now. wp_step. eapply wp_mono; [apply closeWrite_fin|]. intros [] s1 H1.
    assert (∀ o, finOfS s = Some o → finOfS s1 = Some o) as H1' by exact H1. apply Hk; [okeeps|]. intros s2 H2 o Ho. rewrite H2. auto.
Qed.

Lemma exec_stay {A} (c : call A) s : lineKeep c = true → sstay s (exec c s).2.
Proof.
  intros Hc. destruct (finKeep c) eqn:Hf; [apply sstay_line; [by apply line_exec|by apply fin_exec]|].
  destruct (lineOf_inv _ _ (line_exec c Hc s)) as (H0 & H1 & H2 & H3 & H4). constructor; try done; [lia|].
  destruct c; try done; cbn [exec]; apply close_fin.
Qed.

(** A control frame acknowledges only through an ACK, and what the ACK says. *)
Definition acked (s s' : Session) (a : Ack.Ack) : Prop :=
  s_p s' = s_p s ∧ sBase (s_send s') = Z.max (sBase (s_send s)) (Ack.Delivered a) ∧
  peerLimit (s_send s') = Z.max (peerLimit (s_send s)) (u64 (Ack.Delivered a + Ack.Window a)) ∧
  s_end (s_send s') = s_end (s_send s) ∧ finOfS s' = finOfS s ∧ bmove (viewOf s) (viewOf s').

Lemma control_out l h p s :
  (ended (s_app s) = false → SInv T (viewOf s)) → Bytes p →
  wp (Control l h p) (λ _ s', sstay s s' ∧ bmove (viewOf s) (viewOf s') ∨
    ∃ a, h_Type h = TypeAck ∧ Ack.ParseAck p = Ok a ∧ acked s s' a) s.
Proof.
  intros Hv HB. assert (∀ (m : M (option serr)), keeps sendOf m →
    wp m (λ _ s', sstay s s' ∧ bmove (viewOf s) (viewOf s') ∨ ∃ a, h_Type h = TypeAck ∧ Ack.ParseAck p = Ok a ∧ acked s s' a) s) as Hk.
  { intros m Hm. left. split; [by apply sstay_keep|]. destruct (out_sendOf _ Hm) as (H1 & H2 & _). by apply bmove_keep. }
  unfold Control. wp_step. wp_step. destruct (ended _) eqn:He; [apply Hk; skeeps|].
  destruct (h_Type h =? TypeRst); [apply Hk; skeeps|]. destruct (pendingLocked s); [apply Hk; skeeps|].
  destruct (Z.eqb_spec (h_Type h) TypeAck) as [Ht|].
  { unfold wireErr. destruct (Ack.ParseAck p) as [a| |] eqn:Ea; try (apply Hk; skeeps; fail).
    eapply wp_mono; [apply (ack_wp T); [by apply Hv|]|].
    - apply Ack.ack_parse_inv in Ea as [(Hd & _) _]; [|done]. apply Hd.
    - intros [e|] s'; [intros [-> _]; left; split; [by apply sstay_line|apply bmove_refl]|].
      intros (_ & _ & B1 & B2 & _ & B3 & B4). right. exists a. pose proof B4 as (P0 & P1 & _). cbn in *. by split_and!. }
  destruct (h_Type h =? TypeFin); [unfold wireErr; destruct (Fin.ParseFin p); apply Hk; skeeps|].
  destruct (h_Type h =? TypeSched); apply Hk; skeeps.
Qed.

Lemma acked_stay_p s s' a : acked s s' a → s_p s' = s_p s ∧ sBase (s_send s) ≤ sBase (s_send s') ∧ s_end (s_send s') = s_end (s_send s).
Proof. intros (H0 & H1 & _ & H2 & _). split_and!; [done|lia|done]. Qed.

Lemma exec_ended {A} (c : call A) s :
  ended (s_app s) = true → ended (s_app (exec c s).2) = true ∧ (chunkKeep c = false → lineOf (exec c s).2 = lineOf s).
Proof.
  intros He. destruct (chunkKeep c) eqn:Hc.
  { split; [|done]. by destruct (chunkOf_inv _ _ (chunk_exec c Hc s)) as (_ & _ & ->). }
  destruct c; try done; cbn [exec].
  - unfold Control, bind, get. rewrite He. done.
  - unfold endLocked, bind, get. rewrite He. done.
  - unfold applyRxNextLocked, bind, get. rewrite He, andb_false_r. by destruct (_ <? _).
Qed.

Lemma peerWindow_out w s :
  wp (peerWindowLocked w) (λ _ s', bmove (viewOf s) (viewOf s') ∧ s_p s' = s_p s ∧ sBase (s_send s') = sBase (s_send s) ∧
    s_end (s_send s') = s_end (s_send s) ∧ finOfS s' = finOfS s ∧
    (peerLimit (s_send s') = peerLimit (s_send s) ∨ peerLimit (s_send s') = u64 (sBase (s_send s) + w))) s.
Proof.
  unfold peerWindowLocked. wp_step. wp_step. cbv zeta. apply wp_when; intros _; [|split_and!; try done; by left].
  wp_step. wp_step. set (s1 := set_s_send _ s).
  assert (keeps sendOf (when (sNext (s_send s) <? s_end (s_send s)) (do now <- Now; wakeDataLocked now))) as (K1 & K2 & K3)%out_sendOf by skeeps.
  unfold wp. destruct (lineOf_inv _ _ (K1 s1)) as (H0 & H1 & H2 & H3 & H4). pose proof (K3 s1) as HF.
  split_and!; [|done|done|done|done|by right].
  eapply bmove_trans; [|apply bmove_keep; [apply K1|apply K2]]. unfold bmove. by split_and!.
Qed.

Lemma WInv_exec {A} (c : call A) s ph : WInv s ph → scallOk s c → WInv (exec c s).2 ph.
Proof.
  intros [HL [F1 F2]] Hok.
  assert (p_FirstOffset (s_p (exec c s).2) ≤ sBase (s_send (exec c s).2) ∧ p_FirstOffset (s_p (exec c s).2) ≤ s_end (s_send (exec c s).2) ∧
    (ended (s_app s) = false → ended (s_app (exec c s).2) = false → bmove (viewOf s) (viewOf (exec c s).2))) as (G1 & G2 & G3).
  { destruct (lineKeep c) eqn:Hl.
    - destruct (lineOf_inv _ _ (line_exec c Hl s)) as (-> & -> & -> & _). split_and!; try done. intros He He'.
      destruct (chunkKeep c) eqn:Hc; [apply bmove_keep; [by apply line_exec|by apply chunk_exec]|].
      destruct c; try done. cbn [exec] in He'. by rewrite end_ends in He'.
    - destruct (ended (s_app s)) eqn:He.
      + destruct (chunkKeep c) eqn:Hc.
        * destruct c; try done. cbn [exec]. destruct (peerWindow_out w s) as (_ & -> & -> & -> & _). done.
        * destruct (lineOf_inv _ _ (proj2 (exec_ended c s He) Hc)) as (-> & -> & -> & _). done.
      + destruct (HL eq_refl) as [HI _]. destruct c; try done; cbn [exec].
        * destruct Hok as [HB _]. destruct (control_out l h p s ltac:(done) HB) as [[[] Hb]|(a & _ & _ & HA)].
          -- rewrite ss_p0, ss_base0. split_and!; [done|lia|done].
          -- destruct (acked_stay_p _ _ _ HA) as (-> & ? & ->). split_and!; [lia|done|]. intros _ _. apply HA.
        * destruct (peerWindow_out w s) as (Hb & -> & -> & -> & _). done.
        * destruct Hok as [_ Hrx]. destruct (applyRxNext_wp T rx s HI Hrx) as (_ & _ & Hb & _). destruct (bmove_inv _ _ Hb) as (-> & -> & P2).
          split_and!; [lia|done|done]. }
  constructor; [|done]. intros He'. destruct (ended (s_app s)) eqn:He; [destruct (exec_ended c s He); congruence|].
  destruct (HL eq_refl) as [HI HP]. split; [by apply (exec_W c s HI Hok)|]. eapply phase_bmove; [by apply G3|done].
Qed.

(** Steps that leave the send view alone. *)
Lemma WInv_keep s s' ph : sendOf s' = sendOf s → WInv s ph → WInv s' ph.
Proof.
  intros [V E]%sendOf_inv [HL HF]. constructor; rewrite ?V, ?E; [done|].
  pose proof (f_equal v_p V) as H1. pose proof (f_equal v_base V) as H2. pose proof (f_equal v_end V) as H3. cbn in H1, H2, H3.
  by rewrite H1, H2, H3.
Qed.

(** ** The rounds of a Write *)

Lemma writeBegin_W grant n s :
  WInv s WIdle → 0 < n →
  wp (writeRoundLocked grant n) (λ r s', WInv s' (match r with WRound k _ => WReserved k | _ => WIdle end) ∧ sstay s s') s.
Proof.
  intros [HL [F1 F2]] Hn. assert (keeps finOfS (writeRoundLocked grant n)) as Kf.
  { unfold writeRoundLocked, earlyCapLocked, reserveChunksLocked. okeeps. }
  assert (keeps (λ s, (s_p s, sBase (s_send s), s_end (s_send s), peerLimit (s_send s))) (writeRoundLocked grant n)) as Kl.
  { unfold writeRoundLocked, earlyCapLocked, reserveChunksLocked. keeps_by ltac:(intros ?; reflexivity). }
  specialize (Kl s). specialize (Kf s). injection Kl as L1 L2 L3 L4.
  assert (sstay s (writeRoundLocked grant n s).2) as HS by (constructor; try done; [lia|by rewrite Kf]).
  split; [|done]. constructor; [|rewrite L1, L2, L3; done]. intros He'. destruct (ended (s_app s)) eqn:He.
  { exfalso. assert (ended (s_app (writeRoundLocked grant n s).2) = true) as Hx; [|congruence].
    unfold writeRoundLocked, bind, get. rewrite He. by destruct (_ || _). }
  destruct (HL eq_refl) as [HI HP]. cbn in HP. pose proof (writeRound_wp T grant n s HI Hn ltac:(done)) as Hw. unfold wp in Hw.
  destruct (writeRoundLocked grant n s) as [r s']. cbn [fst snd] in *. destruct Hw as (I & _ & K1 & K2 & K3 & K4).
  cbn in K3, K4. split; [done|]. destruct r; cbn in *; [lia|lia|]. split; [by eapply K2|lia].
Qed.

Lemma writeCopy_W k s :
  WInv s (WReserved k) →
  wp (writeCopy (rng T (s_end (s_send s)) k)) (λ ok s', (ended (s_app s) = false → ok = true) ∧ WInv s' (WCopied k) ∧ sstay s s') s.
Proof.
  intros [HL [F1 F2]]. set (p := rng T (s_end (s_send s)) k).
  assert (keeps lineOf (writeCopy p) ∧ keeps finOfS (writeCopy p) ∧ keeps (ended ∘ s_app) (writeCopy p)) as (Kl & Kf & Ke).
  { unfold writeCopy. split_and!; [okeeps|okeeps|keeps_by ltac:(intros ?; reflexivity)]. }
  pose proof (sstay_line _ _ (Kl s) (Kf s)) as HS. destruct (lineOf_inv _ _ (Kl s)) as (L0 & L1 & L2 & L3 & _).
  assert (ended (s_app (writeCopy p s).2) = ended (s_app s)) as Hen by apply (Ke s).
  destruct (ended (s_app s)) eqn:He.
  { split_and!; [done| |done]. constructor; [by rewrite Hen|]. rewrite L0, L1, L2. done. }
  destruct (HL eq_refl) as [HI [P1 P2]]. cbn in P2. pose proof (writeCopy_wp T k s HI P1 P2) as Hw. fold p in Hw.
  unfold wp in *. destruct (writeCopy p s) as [ok s']. cbn [fst snd] in *. destruct Hw as (-> & I & V & _ & Hb).
  split_and!; [done| |done]. constructor; [|rewrite L0, L1, L2; done]. intros _. split; [done|].
  unfold phaseOk. rewrite V. cbn. split_and!; [done|done|]. exact Hb.
Qed.

Lemma writeCommit_W k s :
  WInv s (WCopied k) →
  wp (writeCommit k) (λ _ s', WInv s' WIdle ∧ sstay s s') s.
Proof.
  intros [HL [F1 F2]]. unfold writeCommit. wp_step.
  eapply (wp_mono _ (λ _ s', WInv s' WIdle ∧ sstay s s')).
  2:{ intros e s1 [W1 S1]. wp_step. assert (keeps sendOf (match e with None => emit TriggerOpen | Some _ => ret tt end)) as Hk by skeeps.
      unfold wp. cbn. split; [by apply (WInv_keep s1)|]. destruct (sstay_keep _ s1 Hk), S1.
      constructor; [congruence|congruence|congruence|lia|auto]. }
  destruct (ended (s_app s)) eqn:He.
  - unfold commitRoundLocked. wp_step. wp_step. wp_step. wp_step. cbn [s_app set_s_send]. rewrite He.
    assert (∀ s1, lineOf s1 = lineOf s → finOfS s1 = finOfS s → ended (s_app s1) = true → WInv s1 WIdle ∧ sstay s s1) as Hgo.
    { intros s1 H1 H2 H3. split; [|by apply sstay_line]. constructor; [by rewrite H3|].
      by apply lineOf_inv in H1 as (-> & -> & -> & _). }
    wp_step. apply wp_when; intros _; wp_steps; by apply Hgo.
  - destruct (HL eq_refl) as [HI (P1 & P2 & P3)]. cbn in P2. pose proof (SInv_bounds _ _ HI) as Hb. cbn in Hb.
    assert (keeps finOfS (commitRoundLocked k)) as K1 by (unfold commitRoundLocked; okeeps).
    pose proof (K1 s) as Hf. pose proof (commit_wp T k s HI He P2 P3) as Hw. unfold wp in *.
    destruct (commitRoundLocked k s) as [e s']. cbn [fst snd] in *. destruct Hw as (_ & I & He' & V).
    pose proof (f_equal v_p V) as Hp. pose proof (f_equal v_base V) as Q1. pose proof (f_equal v_end V) as Q2.
    pose proof (f_equal v_lim V) as Q3. pose proof (f_equal v_res V) as Q4. cbn in Hp, Q1, Q2, Q3, Q4. split.
    + constructor; [intros _; split; [done|cbn; congruence]|]. rewrite Hp, Q1, Q2. lia.
    + constructor; try done; [lia|by rewrite Hf].
Qed.

(** ** The other steps *)

Lemma WInv_env s s' ph : env s s' → WInv s ph → WInv s' ph ∧ sstay s s'.
Proof.
  intros [E1 E2 _ E4 _ [E5 _] _ _ E6 E7] [HL HF].
  assert (viewOf s' = set_v_infl (l_infl <$> heap s') (set_v_rnext (l_rnext <$> heap s') (viewOf s))) as V.
  { unfold viewOf. cbn. by rewrite E1, E2, E4. }
  assert (sstay s s') as HS by (constructor; rewrite ?E1, ?E2; try done; unfold finOfS; by rewrite E4).
  split; [|done]. constructor; [|by rewrite E1, E2]. intros He. rewrite E5 in He. destruct (HL He) as [HI HP]. rewrite V. split.
  - assert (∀ i l, (l_infl <$> heap s') !! i = Some l → l = l_infl (lane_at s i)) as Hi.
    { intros i l. rewrite list_lookup_fmap. intros Hl. rewrite <- E6. unfold lane_at. by destruct (heap s' !! i); cbn in *; congruence. }
    assert (∀ i r, (l_rnext <$> heap s') !! i = Some r → r = l_rnext (lane_at s i)) as Hr.
    { intros i r. rewrite list_lookup_fmap. intros Hl. rewrite <- E7. unfold lane_at. by destruct (heap s' !! i); cbn in *; congruence. }
    pose proof (SInv_bounds _ _ HI) as Hb. pose proof (si_infl _ _ HI) as Q1. pose proof (si_rnext _ _ HI) as Q2.
    pose proof (si_cov _ _ HI) as Q3. cbn in Hb, Q1, Q2, Q3. destruct HI. constructor; cbn; try done.
    + intros i l ->%Hi. unfold lane_at. destruct (heap s !! i) as [c|] eqn:Ec; cbn; [|split; [apply sl_wf_nil|set_solver]].
      apply (Q1 i). by rewrite list_lookup_fmap, Ec.
    + intros i r ->%Hr. unfold lane_at. destruct (heap s !! i) as [c|] eqn:Ec; cbn; [|lia].
      apply (Q2 i). by rewrite list_lookup_fmap, Ec.
    + intros Hm x Hx. destruct (Q3 Hm x Hx) as [?|(i & l & Hl & Hxl)]; [by left|right].
      rewrite list_lookup_fmap in Hl. destruct (heap s !! i) as [c|] eqn:Ec; [|done]. injection Hl as <-.
      pose proof (E6 i) as Hlane. unfold lane_at in Hlane. rewrite Ec in Hlane. cbn in Hlane.
      exists i, (l_infl c). split; [|done]. rewrite list_lookup_fmap. destruct (heap s' !! i) as [c'|]; cbn in *; [by rewrite Hlane|].
      rewrite <- Hlane in Hxl. by set_solver.
  - by destruct ph.
Qed.

(** What a frame that was placed says, by the state after the Fill. *)
Definition sentOk (s : Session) (o : bop) : Prop :=
  match o with
  | OpData _ off body _ => p_FirstOffset (s_p s) ≤ off ∧ body = rng T off (len body) ∧
      off + len body ≤ Z.min (s_end (s_send s)) (peerLimit (s_send s))
  | OpFin _ off => finOfS s = Some off
  | OpAck _ _ a => Ack.Delivered a = rRead (s_recv s) ∧ Ack.Delivered a + Ack.Window a ≤ rightEdge (s_recv s)
  | _ => True
  end.

Lemma Fill_W (HT : ∀ x, is_u8 (T x)) l b s ph :
  WInv s ph → BInv b → fill_ok s l → (ended (s_app s) = false → edge_ok s) →
  fwp (Fill l) (λ _ b' s', WInv s' ph ∧ sstay s s' ∧ BInv b' ∧
    ∃ os, frames_of b' = frames_of b ++ (op_frame 0 <$> os) ∧ Forall op_wf os ∧ Forall (sentOk s') os) b s.
Proof.
  intros [HL [F1 F2]] Hb Ho He. destruct (ended (s_app s)) eqn:Hen.
  - eapply fwp_mono; [by apply Fill_ended|]. intros [] b' s' I. destruct (idle_inv _ _ _ _ I) as (V & F & R).
    destruct (fixed_inv _ _ F) as (P1 & P2 & P3 & P4 & P5 & P6 & P7 & _). cbn in P5.
    destruct I as [B _ _ (os & O1 & O2 & O3)].
    split_and!; [|constructor; [done|done|done|lia|unfold finOfS; by rewrite P5]|done|].
    + constructor; [by rewrite P7, Hen|]. rewrite P1, P2, P3. done.
    + exists os. split_and!; try done. eapply Forall_impl; [exact O3|]. by intros [] Hc.
  - destruct (HL eq_refl) as [HI HP]. eapply fwp_mono; [apply (Fill_fwp T HT l b s Hb HI Ho (He eq_refl))|].
    intros [] b' s' R. pose proof (frel_SInv _ _ _ _ _ _ R) as I'. destruct R as [B _ F HN HE (os & O1 & O2 & O3)].
    destruct (fixed_inv _ _ F) as (P1 & P2 & P3 & P4 & P5 & P6 & P7 & _). cbn in P5.
    pose proof (SInv_bounds _ _ I') as Hb'. pose proof (si_lim _ _ I') as Hl'. cbn in Hb', Hl'.
    split_and!; [|constructor; [done|done|done|lia|unfold finOfS; by rewrite P5]|done|].
    + constructor; [|rewrite P1, P2, P3; done]. intros _. split; [done|]. eapply phase_bmove; [|exact HP].
      unfold fixed in F. injection F as Q1 Q2 Q3 Q4 Q5 Q6 Q7 Q8 Q9 Q10 Q11. unfold bmove. cbn. rewrite Q1, Q2, Q3, Q4, Q10, Q11.
      by split_and!.
    + exists os. split_and!; try done. eapply Forall_impl; [exact O3|]. intros o. destruct o; cbn; try done.
      * intros [D1 D2]. rewrite P6. split; [done|]. destruct (He eq_refl) as [? _]. rewrite D1. lia.
      * unfold finOfS. by rewrite P5.
      * intros (D1 & D2 & D3). rewrite P1. split_and!; [lia|done|lia].
Qed.

End Send.
