(* ===== verification/SessNet.v ===== *)
(** * Two ends of one session

    The two endpoints of a stream session and the network between them: every
    frame a Fill placed may reach the other end at any time, in any order, any
    number of times or never; the windows of OPEN and OPEN_ACK and the
    delivered offsets of JOIN and JOIN_ACK reach the peer the same way.  Each
    end runs the critical sections of [SessStep] in any interleaving.  Shown:
    a Read returns a prefix of what the peer's application has written, EOF
    only at its end; no frame of the peer is refused; and no byte is lost: a
    written byte the peer's application has not read is still held, and it is
    unsent, queued for retransmission or in flight on a lane. *)

From Stdlib Require Import ZArith Lia.
From stdpp Require Import base numbers list sorting gmap sets.
From S2P Require Import Prelude Buffers WireConst WireFrame Codec WirePayload GoTime SchedTiming CarrierBuf Spans.
From S2P Require Import RecvSegs RecvProofs RecvFrame SessState SessDuty SessRecv SessRecvProofs SessFin SessSend.
From S2P Require Import CarrierBatch BatchWire SessFill SessStep SessDeliver SessSendInv SessFillProofs SessFillCtl.
From S2P Require Import WireMsg SessLink.

Open Scope Z_scope.
Open Scope rendr_scope.

(** ** The reader's dispatch of a session frame *)

(** The session frames of handleFrame (carrier/reader.go) on a live view. *)
Definition deliver (l : nat) (h : Header) (p : bytes) (buf : option frameBuf) : M (option serr) :=
  if h_Type h =? TypeData then
    wireErr (Data.ParseDataOffset p) (λ off, Data l off (drop (Z.to_nat DataPrefixLen) p) buf)
  else if Extension (h_Type h) then ret None
  else Control l h p.

(** ** One end *)

Record endpoint := EP {
  ep_s : Session;
  ep_view : option bytes;   (* the bytes a Read copies outside the lock *)
  ep_got : bytes;           (* what Reads have returned *)
  ep_eof : bool;            (* whether a Read returned io.EOF *)
  ep_ph : wphase;           (* the round of a Write in progress *)
  ep_out : list (Header * bytes);   (* the frames placed so far *)
  ep_win : list Z;          (* the windows of its OPEN and OPEN_ACKs *)
  ep_rx : list Z            (* the rxNext of its JOINs and JOIN_ACKs *)
}.

Definition rw (x : endpoint) : rworld := RW (ep_s x) (ep_view x) (ep_got x) (ep_eof x).

Definition at_s (s : Session) (x : endpoint) : endpoint :=
  EP s (ep_view x) (ep_got x) (ep_eof x) (ep_ph x) (ep_out x) (ep_win x) (ep_rx x).
Definition at_ph (ph : wphase) (x : endpoint) : endpoint :=
  EP (ep_s x) (ep_view x) (ep_got x) (ep_eof x) ph (ep_out x) (ep_win x) (ep_rx x).
Definition at_rw (r : rworld) (x : endpoint) : endpoint :=
  EP (rw_s r) (rw_view r) (rw_got r) (rw_eof r) (ep_ph x) (ep_out x) (ep_win x) (ep_rx x).
Definition add_out (fs : list (Header * bytes)) (x : endpoint) : endpoint :=
  EP (ep_s x) (ep_view x) (ep_got x) (ep_eof x) (ep_ph x) (ep_out x ++ fs) (ep_win x) (ep_rx x).
Definition add_win (w : Z) (x : endpoint) : endpoint :=
  EP (ep_s x) (ep_view x) (ep_got x) (ep_eof x) (ep_ph x) (ep_out x) (w :: ep_win x) (ep_rx x).
Definition add_rx (r : Z) (x : endpoint) : endpoint :=
  EP (ep_s x) (ep_view x) (ep_got x) (ep_eof x) (ep_ph x) (ep_out x) (ep_win x) (r :: ep_rx x).

(** The calls of the actor and the application that take nothing from the
    peer; no early data. *)
Definition localCall {A} (c : call A) : bool :=
  match c with
  | CControl _ _ _ | CPeerWindow _ | CApplyRxNext _ => false
  | CEarlyVerdict _ k0 _ _ => k0 =? 0
  | _ => true
  end.

Section Net.

(** One step of the end [x], which writes the stream [T], beside its peer [y]. *)
Inductive half (T : Z → Z) (x y : endpoint) : endpoint → Prop :=
| h_frame l h p buf :
    (h, p) ∈ ep_out y → buf_ok buf (len p - DataPrefixLen) →
    half T x y (at_s (deliver l h p buf (ep_s x)).2 x)
| h_call A (c : call A) :
    localCall c = true → scallOk (ep_s x) c → half T x y (at_s (exec c (ep_s x)).2 x)
| h_peer_window w :
    w ∈ ep_win y → sBase (s_send (ep_s x)) = p_FirstOffset (s_p (ep_s x)) →
    half T x y (at_s (exec (CPeerWindow w) (ep_s x)).2 x)
| h_apply_rx rx :
    rx ∈ ep_rx y → half T x y (at_s (exec (CApplyRxNext rx) (ep_s x)).2 x)
| h_open :
    ended (s_app (ep_s x)) = false →
    half T x y (add_win (exec COpenWindow (ep_s x)).1 (at_s (exec COpenWindow (ep_s x)).2 x))
| h_join : half T x y (add_rx (rRead (s_recv (ep_s x))) x)
| h_fill l b a b' s' :
    BInv b → fill_ok (ep_s x) l → Fill l b (ep_s x) = Ok (a, b', s') →
    half T x y (add_out (drop (length (frames_of b)) (frames_of b')) (at_s s' x))
| h_write_begin grant n :
    ep_ph x = WIdle → 0 < n →
    half T x y (at_ph (match (writeRoundLocked grant n (ep_s x)).1 with WRound k _ => WReserved k | _ => WIdle end)
                      (at_s (writeRoundLocked grant n (ep_s x)).2 x))
| h_write_copy k :
    ep_ph x = WReserved k →
    half T x y (at_ph (WCopied k) (at_s (writeCopy (rng T (s_end (s_send (ep_s x))) k) (ep_s x)).2 x))
| h_write_commit k :
    ep_ph x = WCopied k → half T x y (at_ph WIdle (at_s (writeCommit k (ep_s x)).2 x))
| h_read_begin n :
    ep_view x = None → 0 ≤ n →
    half T x y (at_rw (readWorld (ep_got x) (ep_eof x) (readBegin n (ep_s x)).1 (readBegin n (ep_s x)).2) x)
| h_read_commit v :
    ep_view x = Some v →
    half T x y (at_rw (RW (readCommit (len v) (ep_s x)).2 None
      (match (readCommit (len v) (ep_s x)).1 with inl n => ep_got x ++ take (Z.to_nat n) v | inr _ => ep_got x end) (ep_eof x)) x)
| h_env s' : env (ep_s x) s' → half T x y (at_s s' x).

(** Both ends. *)
Inductive nstep (Ta Tb : Z → Z) : endpoint * endpoint → endpoint * endpoint → Prop :=
| n_a a b a' : half Ta a b a' → nstep Ta Tb (a, b) (a', b)
| n_b a b b' : half Tb b a b' → nstep Ta Tb (a, b) (a, b').

(** ** The invariant of one direction *)

Definition agree (S T : Z → Z) (e : Z) : Prop := ∀ x, x < e → S x = T x.

(** What every frame [x] has placed says, while the peer is at [y]. *)
Definition frameOk (T : Z → Z) (x y : endpoint) (h : Header) (p : bytes) : Prop :=
  Bytes p ∧
  (h_Type h = TypeData → ∃ off n, p = be 8 off ++ rng T off n ∧ 0 < n ∧ Data.wf (off, rng T off n) ∧
     p_FirstOffset (s_p (ep_s x)) ≤ off ∧ off + n ≤ s_end (s_send (ep_s x)) ∧ off + n ≤ rightEdge (s_recv (ep_s y))) ∧
  (h_Type h = TypeFin → ∃ off, Fin.ParseFin p = Ok off ∧ finOfS (ep_s x) = Some off) ∧
  (h_Type h = TypeAck → ∃ a, Ack.ParseAck p = Ok a ∧ Ack.Delivered a ≤ rRead (s_recv (ep_s x)) ∧
     Ack.Delivered a + Ack.Window a ≤ rightEdge (s_recv (ep_s x))).

Record Link (T : Z → Z) (first : Z) (x y : endpoint) : Prop := {
  lk_first : p_FirstOffset (s_p (ep_s x)) = first;
  lk_W : WInv T (ep_s x) (ep_ph x);
  lk_D : ∀ S, agree S T (s_end (s_send (ep_s x))) → DInv S first (rw y);
  lk_out : ∀ h p, (h, p) ∈ ep_out x → frameOk T x y h p;
  lk_lim : peerLimit (s_send (ep_s x)) ≤ rightEdge (s_recv (ep_s y));
  lk_base : sBase (s_send (ep_s x)) ≤ rRead (s_recv (ep_s y));
  lk_win : ∀ w, w ∈ ep_win y → 0 ≤ w ∧ first + w ≤ rightEdge (s_recv (ep_s y));
  lk_rx : ∀ r, r ∈ ep_rx y → 0 ≤ r ≤ rRead (s_recv (ep_s y));
  lk_fin : peerFinSet (s_recv (ep_s y)) = true → finOfS (ep_s x) = Some (peerFin (s_recv (ep_s y)))
}.

Lemma agree_mono S T e e' : e ≤ e' → agree S T e' → agree S T e.
Proof. intros He H x Hx. apply H. lia. Qed.

(** The sender moved: [s'] is its session now, nothing new was placed. *)
Record smove (x : endpoint) (y : endpoint) (s' : Session) : Prop := {
  sm_p : s_p s' = s_p (ep_s x);
  sm_base : sBase (s_send s') ≤ rRead (s_recv (ep_s y));
  sm_lim : peerLimit (s_send s') ≤ rightEdge (s_recv (ep_s y));
  sm_end : s_end (s_send (ep_s x)) ≤ s_end (s_send s');
  sm_fin : ∀ o, finOfS (ep_s x) = Some o → finOfS s' = Some o
}.

Lemma sstay_smove T first x y s' : Link T first x y → sstay (ep_s x) s' → smove x y s'.
Proof. intros L []. pose proof (lk_base _ _ _ _ L). pose proof (lk_lim _ _ _ _ L). constructor; try done; lia. Qed.

(** The read side of the sender only moves up too: its ACKs stay true. *)
Lemma link_send T first x y x' :
  Link T first x y → smove x y (ep_s x') → WInv T (ep_s x') (ep_ph x') → ep_out x' = ep_out x →
  rRead (s_recv (ep_s x)) ≤ rRead (s_recv (ep_s x')) → rightEdge (s_recv (ep_s x)) ≤ rightEdge (s_recv (ep_s x')) →
  Link T first x' y.
Proof.
  intros [L1 L2 L3 L4 L5 L6 L7 L8 L9] [M1 M2 M3 M4 M5] HW Ho Hr He. constructor; try done.
  - by rewrite M1.
  - intros S HS. apply L3. by eapply agree_mono.
  - intros h p. rewrite Ho. intros (F0 & F1 & F2 & F3)%L4. split_and!; [done|..].
    + intros Ht. destruct (F1 Ht) as (off & n & ? & ? & ? & ? & ? & ?). exists off, n. rewrite M1. split_and!; try done. lia.
    + intros Ht. destruct (F2 Ht) as (off & ? & ?). exists off. auto.
    + intros Ht. destruct (F3 Ht) as (a & ? & ? & ?). exists a. split_and!; try done; lia.
  - auto.
Qed.

(** The receiver moved. *)
Lemma link_recv T first x y y' :
  Link T first x y → (∀ S, agree S T (s_end (s_send (ep_s x))) → DInv S first (rw y')) →
  rRead (s_recv (ep_s y)) ≤ rRead (s_recv (ep_s y')) → rightEdge (s_recv (ep_s y)) ≤ rightEdge (s_recv (ep_s y')) →
  (peerFinSet (s_recv (ep_s y')) = true → finOfS (ep_s x) = Some (peerFin (s_recv (ep_s y')))) →
  (∀ w, w ∈ ep_win y' → 0 ≤ w ∧ first + w ≤ rightEdge (s_recv (ep_s y'))) →
  (∀ r, r ∈ ep_rx y' → 0 ≤ r ≤ rRead (s_recv (ep_s y'))) →
  Link T first x y'.
Proof.
  intros [L1 L2 L3 L4 L5 L6 L7 L8 L9] HD Hr He Hf Hw Hx. constructor; try done; try lia.
  intros h p (F0 & F1 & F2 & F3)%L4. split_and!; try done.
  intros Ht. destruct (F1 Ht) as (off & n & ? & ? & ? & ? & ? & ?). exists off, n. split_and!; try done. lia.
Qed.

Lemma link_recv_up T first x y y' :
  Link T first x y → (∀ S, agree S T (s_end (s_send (ep_s x))) → DInv S first (rw y')) → rup (ep_s y) (ep_s y') →
  ep_win y' = ep_win y → ep_rx y' = ep_rx y → Link T first x y'.
Proof.
  intros L HD [U1 U2 [U3 U4]] Hw Hx. pose proof L as []. eapply link_recv; try done.
  - rewrite U3, U4. auto.
  - rewrite Hw. intros w Hin. destruct (lk_win0 w Hin). lia.
  - rewrite Hx. intros r Hin. destruct (lk_rx0 r Hin). lia.
Qed.

Lemma readWorld_s g e r s : rw_s (readWorld g e r s) = s.
Proof. by destruct r as [[]| | |]. Qed.

Lemma rw_at_rw r x : rw (at_rw r x) = r.
Proof. by destruct r. Qed.

(** ** One step keeps both directions *)

Section Step.
Context (Tz Tw : Z → Z) (first : Z) (HTz : ∀ x, is_u8 (Tz x)).
Context (z w : endpoint) (Lz : Link Tz first z w) (Lw : Link Tw first w z).

Lemma own_DInv : DInv Tw first (rw z).
Proof. apply (lk_D _ _ _ _ Lw). by intros x _. Qed.

Lemma own_sinv : sinv Tw (ep_s z).
Proof. exact (DInv_sinv _ _ _ _ _ _ own_DInv). Qed.

Lemma own_edge : ended (s_app (ep_s z)) = false → edge_ok (ep_s z).
Proof.
  intros He. pose proof (d_live _ _ _ own_DInv He) as HR. destruct (RInv_tail _ _ _ HR) as [H1 H2].
  pose proof (ri_edge _ _ _ HR) as [[_ H3] _]. pose proof (ri_read _ _ _ HR). cbn in *. unfold edge_ok. lia.
Qed.

(** A step that places nothing and advertises nothing new. *)
Lemma both z' :
  WInv Tz (ep_s z') (ep_ph z') → smove z w (ep_s z') → rup (ep_s z) (ep_s z') →
  ep_out z' = ep_out z → ep_win z' = ep_win z → ep_rx z' = ep_rx z →
  (∀ S, agree S Tw (s_end (s_send (ep_s w))) → rstep S (rw z) (rw z')) →
  Link Tz first z' w ∧ Link Tw first w z'.
Proof.
  intros HW HM [U1 U2 U3] H1 H2 H3 Hst. split; [by eapply link_send|].
  eapply link_recv_up; try done. intros S HS. eapply rstep_inv; [by apply Hst|by apply (lk_D _ _ _ _ Lw)].
Qed.

Lemma step_call A (c : call A) :
  localCall c = true → scallOk (ep_s z) c →
  Link Tz first (at_s (exec c (ep_s z)).2 z) w ∧ Link Tw first w (at_s (exec c (ep_s z)).2 z).
Proof.
  intros Hl Hok. assert (lineKeep c = true ∧ isControl c = false) as [Hk Hc] by (by destruct c). apply both; try done.
  - apply WInv_exec; [apply Lz|done].
  - eapply sstay_smove; [done|by apply exec_stay].
  - eapply exec_up; [apply own_sinv|apply Hok|done].
  - intros S _. apply st_call, Hok.
Qed.

Lemma step_peer_window n :
  n ∈ ep_win w → sBase (s_send (ep_s z)) = p_FirstOffset (s_p (ep_s z)) →
  Link Tz first (at_s (exec (CPeerWindow n) (ep_s z)).2 z) w ∧ Link Tw first w (at_s (exec (CPeerWindow n) (ep_s z)).2 z).
Proof.
  intros Hn Hb. destruct (lk_win _ _ _ _ Lz n Hn) as [N1 N2]. pose proof (lk_base _ _ _ _ Lz) as B1. pose proof (lk_lim _ _ _ _ Lz) as B2.
  pose proof (lk_first _ _ _ _ Lz) as B3. pose proof (proj1 (d_base _ _ _ own_DInv)) as B4. apply both; try done.
  - by apply WInv_exec; [apply Lz|].
  - cbn [ep_s at_s exec]. destruct (peerWindow_out n (ep_s z)) as (_ & E1 & E2 & E3 & E4 & E5).
    constructor; rewrite ?E1, ?E2, ?E3, ?E4; try done.
    destruct E5 as [->| ->]; [done|]. rewrite Hb, B3. etrans; [apply wrap_le; lia|lia].
  - by eapply exec_up; [apply own_sinv|..].
  - intros S _. by apply st_call.
Qed.

Lemma step_apply_rx rx :
  rx ∈ ep_rx w →
  Link Tz first (at_s (exec (CApplyRxNext rx) (ep_s z)).2 z) w ∧ Link Tw first w (at_s (exec (CApplyRxNext rx) (ep_s z)).2 z).
Proof.
  intros Hn. destruct (lk_rx _ _ _ _ Lz rx Hn) as [N1 N2]. pose proof (lk_base _ _ _ _ Lz) as B1. pose proof (lk_lim _ _ _ _ Lz) as B2.
  apply both; try done.
  - by apply WInv_exec; [apply Lz|].
  - cbn [ep_s at_s]. pose proof (fin_exec (CApplyRxNext rx) eq_refl (ep_s z)) as Hf. destruct (ended (s_app (ep_s z))) eqn:He.
    + destruct (exec_ended (CApplyRxNext rx) (ep_s z) He) as [_ Hl]. eapply sstay_smove; [done|]. apply sstay_line; [by apply Hl|done].
    + destruct (wi_live _ _ _ (lk_W _ _ _ _ Lz) He) as [HI _].
      destruct (applyRxNext_wp Tz rx (ep_s z) HI N1) as (_ & _ & Hb & Hor & Hlim). destruct (bmove_inv _ _ Hb) as (E1 & E2 & _).
      constructor; cbn [exec] in *; rewrite ?E1, ?E2, ?Hlim; try done; [destruct Hor as [->| ->]; lia|by rewrite Hf].
  - by eapply exec_up; [apply own_sinv|..].
  - intros S _. by apply st_call.
Qed.

Lemma step_write ph' s' :
  WInv Tz s' ph' → sstay (ep_s z) s' → recvOf s' = recvOf (ep_s z) → (∀ S, rstep S (rw z) (rw (at_s s' z))) →
  Link Tz first (at_ph ph' (at_s s' z)) w ∧ Link Tw first w (at_ph ph' (at_s s' z)).
Proof.
  intros HW HS HR Hst. apply both; try done; [by eapply sstay_smove|by apply rup_recvOf].
Qed.

Lemma step_env s' :
  env (ep_s z) s' → Link Tz first (at_s s' z) w ∧ Link Tw first w (at_s s' z).
Proof.
  intros He. destruct (WInv_env Tz _ _ _ He (lk_W _ _ _ _ Lz)) as [HW HS]. apply both; try done.
  - by eapply sstay_smove.
  - destruct (env_recv _ _ He) as (used & eo & E). constructor; cbn [ep_s at_s]; rewrite E; done.
  - intros S _. by apply st_env.
Qed.

Lemma step_read_begin n :
  ep_view z = None → 0 ≤ n →
  let z' := at_rw (readWorld (ep_got z) (ep_eof z) (readBegin n (ep_s z)).1 (readBegin n (ep_s z)).2) z in
  Link Tz first z' w ∧ Link Tw first w z'.
Proof.
  intros Hv Hn z'. assert (ep_s z' = (readBegin n (ep_s z)).2) as Hs by apply readWorld_s.
  apply both; try done; rewrite ?Hs.
  - apply (WInv_keep Tz (ep_s z)); [apply sk_read|apply Lz].
  - eapply sstay_smove; [done|]. apply sstay_keep, sk_read.
  - apply readBegin_up.
  - intros S _. assert (rw z = RW (ep_s z) None (ep_got z) (ep_eof z)) as -> by (unfold rw; by rewrite Hv).
    unfold z'. rewrite rw_at_rw.
    by apply st_read_begin.
Qed.

Lemma step_read_commit v :
  ep_view z = Some v →
  let z' := at_rw (RW (readCommit (len v) (ep_s z)).2 None
      (match (readCommit (len v) (ep_s z)).1 with inl n => ep_got z ++ take (Z.to_nat n) v | inr _ => ep_got z end) (ep_eof z)) z in
  Link Tz first z' w ∧ Link Tw first w z'.
Proof.
  intros Hv z'. pose proof own_DInv as HD. destruct (d_base _ _ _ HD) as (B0 & B1 & B2 & _).
  pose proof (d_view _ _ _ HD) as HV. cbn in HV, B1, B2. rewrite Hv in HV. destruct HV as [_ HV]. apply both; try done.
  - apply (WInv_keep Tz (ep_s z)); [apply sk_read|apply Lz].
  - eapply sstay_smove; [done|]. apply sstay_keep, sk_read.
  - apply readCommit_up; [apply len_nonneg|lia|]. destruct (closed (s_app (ep_s z))); [by right|left]. destruct (HV eq_refl). lia.
  - intros S _. assert (rw z = RW (ep_s z) (Some v) (ep_got z) (ep_eof z)) as -> by (unfold rw; by rewrite Hv).
    by apply st_read_commit.
Qed.

(** A window in an OPEN or OPEN_ACK ends at the right edge. *)
Lemma openWindow_win s : edge_ok s →
  wp openWindowLocked (λ n s', 0 ≤ n ∧ rRead (s_recv s) + n ≤ rightEdge (s_recv s')) s.
Proof.
  intros [E1 E2]. unfold openWindowLocked. wp_step.
  eapply (wp_mono _ (λ _ s1, edge_ok s1 ∧ rRead (s_recv s1) = rRead (s_recv s))).
  - unfold earlyWindowLocked. wp_step. wp_step. apply wp_when; [|done]. intros [_ Hlt%Z.ltb_lt]%andb_prop. wp_step.
    unfold edge_ok. cbn. split; [|done]. assert (earlyEnd (s_p s) < 2 ^ 64) by (apply wrap_fits; lia). lia.
  - intros [] s1 [He Hr]. wp_step. destruct (raiseEdge_spec s1 He) as [Hw (e & Hle & Hs)]. unfold wp at 1. rewrite Hw, Hs.
    cbv zeta. wp_steps. cbn. destruct He. lia.
Qed.

Lemma step_open :
  ended (s_app (ep_s z)) = false →
  let z' := add_win (exec COpenWindow (ep_s z)).1 (at_s (exec COpenWindow (ep_s z)).2 z) in
  Link Tz first z' w ∧ Link Tw first w z'.
Proof.
  intros He z'. destruct (step_call _ COpenWindow eq_refl ltac:(done)) as [L1 L2].
  destruct (openWindow_win (ep_s z) (own_edge He)) as [W1 W2]. destruct (d_base _ _ _ own_DInv) as (B0 & B1 & _). cbn in B1.
  split; [destruct L1; by constructor|]. destruct L2. constructor; try done.
  intros n Hn. cbn in Hn. apply elem_of_cons in Hn as [->|Hn]; [|by apply lk_win0]. cbn [z' add_win at_s ep_s exec]. lia.
Qed.

Lemma step_join :
  let z' := add_rx (rRead (s_recv (ep_s z))) z in Link Tz first z' w ∧ Link Tw first w z'.
Proof.
  intros z'. destruct (d_base _ _ _ own_DInv) as (B0 & B1 & _). cbn in B1. pose proof Lz as []. pose proof Lw as [].
  split; constructor; try done. intros r Hr. cbn in Hr. apply elem_of_cons in Hr as [->|Hr]; [cbn; lia|by apply lk_rx1].
Qed.

(** A DATA frame of the peer. *)
Lemma step_data l off n buf :
  0 < n → Data.wf (off, rng Tw off n) → off + n ≤ s_end (s_send (ep_s w)) → buf_ok buf n →
  let s' := (Data l off (rng Tw off n) buf (ep_s z)).2 in
  Link Tz first (at_s s' z) w ∧ Link Tw first w (at_s s' z).
Proof.
  intros Hn (Wo & _ & Wn & Wm) He Hb s'. cbn [fst snd] in Wo, Wn, Wm. rewrite len_rng in Wn, Wm by lia. pose proof Wo as [? _].
  assert (0 ≤ n < 2 ^ 64) as Hn' by lia.
  apply both; try done.
  - apply (WInv_keep Tz (ep_s z)); [apply sk_data|apply Lz].
  - eapply sstay_smove; [done|]. apply sstay_keep, sk_data.
  - destruct (data_edge l off (rng Tw off n) buf (ep_s z)) as (D1 & D2 & D3). constructor; try done.
    apply (rmove_data Tw (ep_s z) l off n buf own_sinv Wo Hn' Hb).
  - intros S HS. unfold s'. assert (rng Tw off n = rng S off n) as ->.
    { apply rng_ext. intros x Hx. symmetry. apply HS. lia. }
    by apply st_data.
Qed.

Lemma step_control l h p :
  frameOk Tw w z h p →
  let s' := (Control l h p (ep_s z)).2 in Link Tz first (at_s s' z) w ∧ Link Tw first w (at_s s' z).
Proof.
  intros (HB & _ & HFin & HAck) s'. assert (scallOk (ep_s z) (CControl l h p)) as Hok by done.
  pose proof (WInv_exec Tz (CControl l h p) _ _ (lk_W _ _ _ _ Lz) Hok) as HW. cbn [exec] in HW. fold s' in HW.
  destruct (control_up l h p (ep_s z)) as (U1 & U2 & U3). fold s' in U1, U2, U3.
  pose proof (control_out Tz l h p (ep_s z) (λ He, proj1 (wi_live _ _ _ (lk_W _ _ _ _ Lz) He)) HB) as HO. unfold wp in HO. fold s' in HO.
  assert (∀ S, rstep S (rw z) (rw (at_s s' z))) as Hst by (intros S; by apply (st_call S _ (CControl l h p))).
  clearbody s'. pose proof (lk_base _ _ _ _ Lz) as B1. pose proof (lk_lim _ _ _ _ Lz) as B2. split.
  - eapply link_send; [exact Lz| |done|done|cbn; lia|cbn; lia].
    destruct HO as [[HS _]|(a & Ht & Ha & (A1 & A2 & A3 & A4 & A5 & _))]; [by eapply sstay_smove|].
    destruct (HAck Ht) as (a' & Ha' & D1 & D2). rewrite Ha in Ha'. injection Ha' as <-.
    assert (0 ≤ Ack.Delivered a ∧ 0 ≤ Ack.Window a) as [P1 P2].
    { destruct (Ack.ack_parse_inv p a HB Ha) as [((? & ?) & (? & ?) & _) _]. done. }
    pose proof (wrap_le 64 (Ack.Delivered a + Ack.Window a) ltac:(lia) ltac:(lia)) as Hwr.
    constructor; cbn [ep_s at_s]; rewrite ?A1, ?A2, ?A3, ?A4, ?A5; try done; lia.
  - pose proof Lw as []. eapply link_recv; try done; cbn [ep_s at_s ep_win ep_rx]; try lia.
    + intros S HS. eapply rstep_inv; [apply Hst|by apply (lk_D _ _ _ _ Lw)].
    + destruct U3 as [[-> ->]|[Ht Hp]]; [done|]. intros _. destruct (HFin Ht) as (off & Ho & ->). rewrite Ho in Hp. by injection Hp as <-.
    + intros n Hn. destruct (lk_win0 n Hn). lia.
    + intros r Hr. destruct (lk_rx0 r Hr). lia.
Qed.

Lemma at_s_id : at_s (ep_s z) z = z.
Proof. by destruct z. Qed.

Lemma step_frame l h p buf :
  (h, p) ∈ ep_out w → buf_ok buf (len p - DataPrefixLen) →
  let s' := (deliver l h p buf (ep_s z)).2 in Link Tz first (at_s s' z) w ∧ Link Tw first w (at_s s' z).
Proof.
  intros Hin Hb. pose proof (lk_out _ _ _ _ Lw h p Hin) as Hf. unfold deliver. destruct (Z.eqb_spec (h_Type h) TypeData) as [Ht|].
  - destruct Hf as (HB & HD & _). destruct (HD Ht) as (off & n & -> & Hn & Hwf & Ho & He & _).
    rewrite len_app, len_be, len_rng in Hb by lia. replace (Z.of_nat 8 + n - DataPrefixLen) with n in Hb by (unfold DataPrefixLen; lia).
    assert (Data.ParseDataOffset (be 8 off ++ rng Tw off n) = Ok off) as -> by (apply Data.data_parse_spec; [done|by eexists]).
    cbn [wireErr]. rewrite drop_app_length' by (pose proof (len_be 8 off); unfold len, DataPrefixLen in *; lia). by apply step_data.
  - destruct (Extension _); [cbn zeta; cbn [ret snd]; by rewrite at_s_id|]. by apply step_control.
Qed.

(** The frames a Fill places. *)
Lemma sent_frameOk x y o :
  op_wf o → sentOk Tz (ep_s x) o → peerLimit (s_send (ep_s x)) ≤ rightEdge (s_recv (ep_s y)) →
  frameOk Tz x y (op_frame 0 o).1 (op_frame 0 o).2.
Proof.
  intros Hw Hs Hl. destruct (op_header_valid 0 o Hw ltac:(unfold fits; lia)) as [_ HB].
  split_and!; [done|..]; destruct o; cbn [op_frame fst snd h_Type op_type]; try done; intros _; cbn [sentOk op_payload] in *.
  - destruct Hs as (S1 & S2 & S3). destruct Hw as [_ Hw]. exists off, (len body). unfold enc_data. cbn [fst snd]. rewrite <- S2.
    split_and!; try done; try lia. destruct Hw as (_ & _ & ? & _). cbn in *. lia.
  - destruct Hw as [_ Hw]. exists off. split; [by apply Fin.fin_parse_enc|done].
  - destruct Hw as (_ & _ & Hw). exists a. split_and!; [by apply Ack.ack_parse_enc|lia|lia].
Qed.

Lemma step_fill l b a b' s' :
  BInv b → fill_ok (ep_s z) l → Fill l b (ep_s z) = Ok (a, b', s') →
  let z' := add_out (drop (length (frames_of b)) (frames_of b')) (at_s s' z) in
  Link Tz first z' w ∧ Link Tw first w z'.
Proof.
  intros Hb Hok E z'. pose proof (Fill_W Tz HTz l b (ep_s z) (ep_ph z) (lk_W _ _ _ _ Lz) Hb Hok own_edge) as HF.
  unfold fwp in HF. rewrite E in HF. destruct HF as (HW & HS & _ & os & O1 & O2 & O3).
  pose proof (fill_edgeUp l b (ep_s z) a b' s' E) as Hup. pose proof (rup_edgeUp _ _ Hup) as Hrup.
  assert (Link Tz first (at_s s' z) w ∧ Link Tw first w (at_s s' z)) as [L1 L2].
  { apply both; try done; [by eapply sstay_smove|]. intros S _. by eapply st_fill. }
  split; [|destruct L2; by constructor]. pose proof (lk_lim _ _ _ _ L1) as Hl. destruct L1. constructor; try done.
  intros h p Hin. cbn in Hin. apply elem_of_app in Hin as [Hin|Hin]; [by apply lk_out0|].
  rewrite O1, drop_app_length in Hin. apply list_elem_of_fmap in Hin as (o & Ho & Hin).
  rewrite Forall_forall in O2, O3. pose proof (sent_frameOk (at_s s' z) w o (O2 o Hin) (O3 o Hin) Hl) as Hf. by rewrite <- Ho in Hf.
Qed.

Lemma half_inv z' : half Tz z w z' → Link Tz first z' w ∧ Link Tw first w z'.
Proof.
  pose proof (lk_W _ _ _ _ Lz) as HW. destruct 1.
  - by apply step_frame.
  - by apply step_call.
  - by apply step_peer_window.
  - by apply step_apply_rx.
  - by apply step_open.
  - by apply step_join.
  - by eapply step_fill.
  - rewrite H in HW. destruct (writeBegin_W Tz grant n (ep_s z) HW H0) as [W1 S1].
    apply step_write; [done|done|apply (rk_write grant n [] 0)|intros S; apply st_write_begin].
  - rewrite H in HW. destruct (writeCopy_W Tz k (ep_s z) HW) as (_ & W1 & S1).
    apply step_write; [done|done|apply (rk_write [] 0 (rng Tz (s_end (s_send (ep_s z))) k) 0)|intros S; apply st_write_copy].
  - rewrite H in HW. destruct (writeCommit_W Tz k (ep_s z) HW) as [W1 S1].
    apply step_write; [done|done|apply (rk_write [] 0 [] k)|intros S; apply st_write_commit].
  - by apply step_read_begin.
  - by apply step_read_commit.
  - by apply step_env.
Qed.

End Step.

(** ** Executions *)

Definition startEP (s : Session) : endpoint := EP s None [] false WIdle [] [] [].

Lemma fresh_W T s : fresh s → params_ok (s_p s) → WInv T s WIdle.
Proof.
  intros (p & g & ctl & bmax & used & clk & -> & Ho & Hw & Hu) Hp. cbn in Hp. pose proof Hp as (P1 & P2 & P3). pose proof chunkSize_pos.
  constructor; [|cbn; lia]. intros _. split; [|done]. constructor; cbn; try done; try lia; [by right|].
  split; [apply sl_wf_nil|set_solver].
Qed.

Lemma link_init T a b :
  fresh a → fresh b → params_ok (s_p a) → p_FirstOffset (s_p b) = p_FirstOffset (s_p a) →
  Link T (p_FirstOffset (s_p a)) (startEP a) (startEP b).
Proof.
  intros Ha Hb Hp Hf. pose proof (fresh_W T a Ha Hp) as HW.
  assert (∀ S, DInv S (p_FirstOffset (s_p a)) (rw (startEP b))) as HD by (intros S; rewrite <- Hf; by apply (fresh_inv S)).
  destruct Ha as (p & g & ctl & bmax & used & clk & -> & _). destruct Hb as (p' & g' & ctl' & bmax' & used' & clk' & -> & _).
  cbn in Hf. constructor; cbn; try done; try lia; set_solver.
Qed.

Section Run.
Context (Ta Tb : Z → Z) (HTa : ∀ x, is_u8 (Ta x)) (HTb : ∀ x, is_u8 (Tb x)).

Lemma nstep_inv first w w' :
  nstep Ta Tb w w' → Link Ta first w.1 w.2 ∧ Link Tb first w.2 w.1 → Link Ta first w'.1 w'.2 ∧ Link Tb first w'.2 w'.1.
Proof.
  destruct 1 as [a b a' H|a b b' H]; cbn; intros [L1 L2].
  - by apply (half_inv Ta Tb first HTa a b L1 L2).
  - apply and_comm. by apply (half_inv Tb Ta first HTb b a L2 L1).
Qed.

Lemma nsteps_inv first w w' :
  rtc (nstep Ta Tb) w w' → Link Ta first w.1 w.2 ∧ Link Tb first w.2 w.1 → Link Ta first w'.1 w'.2 ∧ Link Tb first w'.2 w'.1.
Proof. induction 1; eauto using nstep_inv. Qed.

(** Two fresh ends of one session, and where they can get. *)
Definition ends (a b : Session) : Prop :=
  fresh a ∧ fresh b ∧ params_ok (s_p a) ∧ params_ok (s_p b) ∧ p_FirstOffset (s_p b) = p_FirstOffset (s_p a).

Definition reach (a b : Session) (x y : endpoint) : Prop := rtc (nstep Ta Tb) (startEP a, startEP b) (x, y).

Lemma reach_links a b x y :
  ends a b → reach a b x y → Link Ta (p_FirstOffset (s_p a)) x y ∧ Link Tb (p_FirstOffset (s_p a)) y x.
Proof.
  intros (Fa & Fb & Pa & Pb & Hf) Hr. apply (nsteps_inv _ _ _ Hr). split; [by apply link_init|].
  rewrite <- Hf. by apply link_init.
Qed.
End Run.

(** ** What the ends promise the applications *)

(** [y] has read a prefix of what [x] wrote; EOF came only at its end. *)
Definition delivered (T : Z → Z) (first : Z) (x y : endpoint) : Prop :=
  ∃ k, 0 ≤ k ∧ ep_got y = rng T first k ∧ first + k ≤ s_end (s_send (ep_s x)) ∧
    (ep_eof y = true → finOfS (ep_s x) = Some (first + k)).

Lemma link_delivered T first x y : Link T first x y → delivered T first x y.
Proof.
  intros L. pose proof (lk_D _ _ _ _ L) as HD. set (e := s_end (s_send (ep_s x))) in *.
  assert (first ≤ e) as Hfe by (pose proof (wi_first _ _ _ (lk_W _ _ _ _ L)) as [_ H]; by rewrite (lk_first _ _ _ _ L) in H).
  pose proof (HD T ltac:(done)) as D1. destruct (d_got _ _ _ D1) as (k & K1 & _ & K3 & _). cbn in K3.
  exists k. split_and!; try done.
  - destruct (decide (first + k ≤ e)); [done|exfalso].
    set (S := λ x, if decide (x < e) then T x else T x + 1).
    destruct (d_got _ _ _ (HD S ltac:(intros z Hz; unfold S; by case_decide))) as (k' & K1' & _ & K3' & _). cbn in K3'.
    assert (k' = k) as ->.
    { rewrite K3 in K3'. apply (f_equal len) in K3'. by rewrite !len_rng in K3' by done. }
    rewrite K3 in K3'. pose proof (rng_inj _ _ _ _ e K3' ltac:(lia)) as He. unfold S in He. case_decide; lia.
  - intros He. destruct (d_eof _ _ _ D1 He) as (_ & F1 & F2 & F3). cbn in F1, F2, F3.
    rewrite (lk_fin _ _ _ _ L F1). f_equal. destruct (d_base _ _ _ D1) as (_ & B1 & _). cbn in B1.
    rewrite K3 in F3. apply (f_equal len) in F3. rewrite !len_rng in F3 by lia. lia.
Qed.

(** What keeps a written byte that the peer has not read: [x] holds it, and it
    is unsent, queued for retransmission or in flight on a lane. *)
Definition kept (T : Z → Z) (s : Session) (o : Z) : Prop :=
  byteAt (chunks (s_send s)) (cbase (s_send s)) o = Some (T o) ∧
  (is_race (p_Mode (s_p s)) = false →
     sNext (s_send s) ≤ o ∨ o ∈ sl_set (retx (s_send s)) ∨ ∃ i, o ∈ sl_set (l_infl (lane_at s i))).

Lemma link_kept T first x y :
  Link T first x y → ended (s_app (ep_s x)) = false →
  ∀ o, rRead (s_recv (ep_s y)) ≤ o < s_end (s_send (ep_s x)) → kept T (ep_s x) o.
Proof.
  intros L He o Ho. destruct (wi_live _ _ _ (lk_W _ _ _ _ L) He) as [HI _]. pose proof (lk_base _ _ _ _ L) as Hb. split.
  - apply (si_bytes _ _ HI). cbn. lia.
  - intros Hr. destruct (decide (sNext (s_send (ep_s x)) ≤ o)); [by left|right].
    destruct (si_cov _ _ HI Hr o ltac:(cbn; lia)) as [?|(i & l & Hl & Hx)]; [by left|right]. exists i.
    cbn in Hl. rewrite list_lookup_fmap in Hl. unfold lane_at. destruct (heap (ep_s x) !! i); [|done]. cbn in *. by injection Hl as ->.
Qed.

End Net.
