(* ===== verification/SessEnds.v ===== *)
(** * The stream between two ends

    The theorems of the composition of [SessNet]: what reaches the
    application, what is never lost, what is never refused, what a Fill places
    and what an ACK and the loss of a lane do, in every state that two ends of
    one session can reach; with an execution that shows they are reached. *)

From Stdlib Require Import ZArith Lia.
From stdpp Require Import base numbers list sorting gmap sets.
From S2P Require Import Prelude Buffers WireConst WireFrame Codec WirePayload GoTime SchedTiming CarrierBuf Spans.
From S2P Require Import RecvSegs RecvProofs RecvFrame SessState SessDuty SessRecv SessRecvProofs SessFin SessSend.
From S2P Require Import CarrierBatch BatchWire SessFill SessStep SessDeliver SessSendInv SessFillProofs SessFillCtl.
From S2P Require Import WireMsg SessLink SessNet.

Open Scope Z_scope.
Open Scope rendr_scope.

Section Ends.
Context (Ta Tb : Z → Z) (HTa : ∀ x, is_u8 (Ta x)) (HTb : ∀ x, is_u8 (Tb x)).

(** End to end, in both directions and under any loss, duplication and
    reordering of frames on any number of lanes: the bytes Reads return at one
    end are a prefix of the bytes Writes committed at the other; and when a
    Read returns io.EOF they are all of them: the peer closed its write side
    at exactly that offset. *)
Theorem end_to_end_stream a b x y :
  ends a b → reach Ta Tb a b x y →
  let first := p_FirstOffset (s_p a) in
  delivered Ta first x y ∧ delivered Tb first y x.
Proof.
  intros He Hr first. destruct (reach_links Ta Tb HTa HTb _ _ _ _ He Hr) as [L1 L2]. split; by apply link_delivered.
Qed.

(** No byte is lost: while an end lives it releases only bytes the peer's
    application has read, and every byte it wrote beyond that is still held
    with its value; outside race mode such a byte is unsent, queued for
    retransmission or recorded in flight on some lane. *)
Theorem no_byte_lost a b x y :
  ends a b → reach Ta Tb a b x y → ended (s_app (ep_s x)) = false →
  sBase (s_send (ep_s x)) ≤ rRead (s_recv (ep_s y)) ∧
  ∀ o, rRead (s_recv (ep_s y)) ≤ o < s_end (s_send (ep_s x)) → kept Ta (ep_s x) o.
Proof.
  intros He Hr Hl. destruct (reach_links Ta Tb HTa HTb _ _ _ _ He Hr) as [L1 _]. split; [apply (lk_base _ _ _ _ L1)|]. exact (link_kept _ _ _ _ L1 Hl).
Qed.

(** Flow control is exact: the limit an end sends up to never exceeds the
    right edge its peer has advertised, and no DATA frame it has placed is
    refused, whenever and however often it arrives. *)
Theorem peer_data_accepted a b x y l h p buf :
  ends a b → reach Ta Tb a b x y →
  ended (s_app (ep_s x)) = false → ended (s_app (ep_s y)) = false → pendingLocked (ep_s y) = false →
  (h, p) ∈ ep_out x → h_Type h = TypeData → buf_ok buf (len p - DataPrefixLen) →
  peerLimit (s_send (ep_s x)) ≤ rightEdge (s_recv (ep_s y)) ∧ (deliver l h p buf (ep_s y)).1 = None.
Proof.
  intros He Hr Hx Hy Hp Hin Ht Hb. destruct (reach_links Ta Tb HTa HTb _ _ _ _ He Hr) as [L1 _]. split; [apply (lk_lim _ _ _ _ L1)|].
  pose proof (lk_out _ _ _ _ L1 h p Hin) as (HB & HD & _). destruct (HD Ht) as (off & n & -> & Hn & Hwf & Ho & Hend & Hedge).
  rewrite len_app, len_be, len_rng in Hb by lia. replace (Z.of_nat 8 + n - DataPrefixLen) with n in Hb by (unfold DataPrefixLen; lia).
  unfold deliver. rewrite Ht, Z.eqb_refl.
  assert (Data.ParseDataOffset (be 8 off ++ rng Ta off n) = Ok off) as -> by (apply Data.data_parse_spec; [done|by eexists]).
  cbn [wireErr]. rewrite drop_app_length' by (pose proof (len_be 8 off); unfold len, DataPrefixLen in *; lia).
  pose proof (lk_D _ _ _ _ L1 Ta ltac:(done)) as HDI. pose proof (d_live _ _ _ HDI Hy) as HR. cbn [rw rw_s] in HR.
  destruct (wi_live _ _ _ (lk_W _ _ _ _ L1) Hx) as [HI _]. pose proof (SInv_bounds _ _ HI) as Hbd. cbn in Hbd.
  assert (wp (recvDataLocked off (rng Ta off n) buf) (λ e s', e = None) (ep_s y)) as Hrecv.
  { destruct Hwf as ([? ?] & _). cbn in *. apply (recvData_wp Ta (ep_s y) off n buf HR); try done; try lia.
    intros Hf. pose proof (si_fin _ _ HI _ (lk_fin _ _ _ _ L1 Hf)) as ->. cbn. lia. }
  change (wp (Data l off (rng Ta off n) buf) (λ e _, e = None) (ep_s y)).
  unfold Data. wp_step. wp_step. cbv zeta. wp_step. unfold dataLocked. wp_step. wp_step. rewrite Hy, Hp.
  eapply wp_mono; [exact Hrecv|]. intros e s' ->. wp_step. apply wp_when; intros _; [|by wp_step].
  apply wp_keeps; [apply keeps_gapAck|]. intros _ s2 _. by wp_step.
Qed.

(** What a Fill places, in every reachable state and for every lane the
    carrier may ask: it returns without a panic; every frame it adds to the
    batch is well formed; a DATA frame carries the written bytes of its range,
    at or above the acknowledged front and below the peer's limit; a FIN
    carries the offset where writing stopped; an ACK carries the delivered
    offset and a window that ends inside the advertised right edge. *)
Theorem fill_sound a b x y l bt :
  ends a b → reach Ta Tb a b x y → BInv bt → fill_ok (ep_s x) l →
  ∃ bt' s' os, Fill l bt (ep_s x) = Ok (tt, bt', s') ∧
    frames_of bt' = frames_of bt ++ (op_frame 0 <$> os) ∧ Forall op_wf os ∧ Forall (sentOk Ta s') os.
Proof.
  intros He Hr Hb Hf. destruct (reach_links Ta Tb HTa HTb _ _ _ _ He Hr) as [L1 L2].
  pose proof (Fill_W Ta HTa l bt (ep_s x) (ep_ph x) (lk_W _ _ _ _ L1) Hb Hf (own_edge _ _ _ _ L2)) as HF.
  unfold fwp in HF. destruct (Fill l bt (ep_s x)) as [[[[] bt'] s']| |]; [|done|done].
  destruct HF as (_ & _ & _ & os & O1 & O2 & O3). by exists bt', s', os.
Qed.

(** One ACK: refused (beyond what was sent, behind the lane's last, or a FIN
    acknowledged early) it changes nothing; accepted it moves the front to the
    delivered offset and the limit to delivered + window, neither ever back,
    and the bytes above the front stay held. *)
Theorem ack_applied a b x y l flags k :
  ends a b → reach Ta Tb a b x y → ended (s_app (ep_s x)) = false → Ack.wf k →
  let r := ackLocked l flags k (ep_s x) in
  match r.1 with
  | Some e => r.2 = ep_s x ∧ ∃ v, e = EViolation v
  | None =>
      sBase (s_send r.2) = Z.max (sBase (s_send (ep_s x))) (Ack.Delivered k) ∧
      peerLimit (s_send r.2) = Z.max (peerLimit (s_send (ep_s x))) (u64 (Ack.Delivered k + Ack.Window k)) ∧
      ∀ o, sBase (s_send r.2) ≤ o < s_end (s_send (ep_s x)) →
        byteAt (chunks (s_send r.2)) (cbase (s_send r.2)) o = Some (Ta o)
  end.
Proof.
  intros He Hr Hl Hk r. destruct (reach_links Ta Tb HTa HTb _ _ _ _ He Hr) as [L1 _].
  destruct (wi_live _ _ _ (lk_W _ _ _ _ L1) Hl) as [HI _]. destruct Hk as ([Hd _] & _).
  pose proof (ack_wp Ta l flags k (ep_s x) HI Hd) as HA. unfold wp in HA. fold r in HA. destruct r as [[e|] s']; [done|].
  cbn [fst snd] in *. destruct HA as (I & _ & A1 & A2 & _ & _ & A3). destruct (bmove_inv _ _ A3) as (_ & A4 & _).
  split_and!; [exact A1|exact A2|]. intros o Ho. apply (si_bytes _ _ I). cbn. lia.
Qed.

(** When a lane is gone, what it had in flight is queued again: outside race
    mode every offset of its spans that is not acknowledged is afterwards in
    the retransmission queue, and the lane records nothing. *)
Theorem lane_gone_requeues a b x y l n s' :
  ends a b → reach Ta Tb a b x y → ended (s_app (ep_s x)) = false →
  is_race (p_Mode (s_p (ep_s x))) = false →
  laneGoneLocked l (ep_s x) = (Some n, s') →
  l_infl (lane_at s' l) = [] ∧
  ∀ o, sBase (s_send (ep_s x)) ≤ o → o ∈ sl_set (l_infl (lane_at (ep_s x) l)) → o ∈ sl_set (retx (s_send s')).
Proof.
  intros He Hr Hl Hm E. destruct (reach_links Ta Tb HTa HTb _ _ _ _ He Hr) as [L1 _].
  destruct (wi_live _ _ _ (lk_W _ _ _ _ L1) Hl) as [HI _]. pose proof (laneGone_wp Ta l (ep_s x) HI) as HG.
  unfold wp in HG. rewrite E in HG. destruct HG as (_ & _ & _ & HG). destruct (HG ltac:(done)) as [G1 G2]. split; [done|].
  intros o. by apply G2.
Qed.

End Ends.

(** ** An execution

    The passive end advertises a window, the dialer applies it, writes six
    bytes, gets a lane and fills a batch; the frame arrives and the passive
    end's application reads it. *)

Definition endB0 : Session :=
  initSession (MkParams RolePassive ModeSelector 0 0 0 100 0 7 0 0 0) None demoCtl (2 ^ 30) 0 (λ n, 1000 + Z.of_nat n).
Definition endWin : Z := (exec COpenWindow endB0).1.
Definition endB1 : Session := (exec COpenWindow endB0).2.
Definition endA1 : Session := (exec (CPeerWindow endWin) demo0).2.
Definition endA2 : Session := (writeRoundLocked [(λ _, 0)] 6 endA1).2.
Definition endA3 : Session := (writeCopy (rng demoS 100 6) endA2).2.
Definition endA4 : Session := (writeCommit 6 endA3).2.
Definition endLane : lane :=
  Lane 1 0 5 false LaneActive true NoFirst false false [] 0 0 7 false false true 0 false 0 false false 65536 0 false.
Definition endA5 : Session := set_heap [endLane] endA4.
Definition endBatch : Batch := Reset 2000 (NewBatch 0).
Definition endFill : unit * Batch * Session :=
  match Fill 0 endBatch endA5 with Ok x => x | _ => (tt, endBatch, endA5) end.
Definition endA6 : Session := endFill.2.
Definition endFrame : Header * bytes :=
  (mkHeader TypeData 0 14 0 5, [0; 0; 0; 0; 0; 0; 0; 100; 100; 101; 102; 103; 104; 105]).
Definition endB2 : Session := (deliver 0 endFrame.1 endFrame.2 None endB1).2.
Definition endB3 : Session := (readBegin 10 endB2).2.
Definition endB4 : Session := (readCommit 6 endB3).2.

Definition endX : endpoint := EP endA6 None [] false WIdle [endFrame] [] [].
Definition endY : endpoint := EP endB4 None (rng demoS 100 6) false WIdle [] [endWin] [].

(** Conversion unfolds these names first, so that it need not run the steps. *)
#[local] Strategy expand [endWin endB1 endA1 endA2 endA3 endA4 endA5 endFill endA6 endB2 endB3 endB4 endX endY].

Lemma env_lane s c : heap s = [] → l_infl c = [] → l_rnext c = 0 → env s (set_heap [c] s).
Proof.
  intros Hh Hi Hr. constructor; try done.
  - exists (charged (rb (s_recv s))), (earlyOpen (s_recv s)). by destruct s as [? ? ? [? ? [] ? ? ? ? ? ? ? ? ? ? ?] ? ? ? ? ? ? ? ? ? ? ? ? ?].
  - intros i. unfold lane_at. cbn. rewrite Hh. by destruct i.
  - intros i. unfold lane_at. cbn. rewrite Hh. by destruct i.
Qed.

Lemma end_facts :
  sBase (s_send demo0) = 100 ∧ (writeRoundLocked [(λ _, 0)] 6 endA1).1 = WRound 6 0 ∧ s_end (s_send endA2) = 100 ∧ heap endA4 = [] ∧
  frames_of endBatch = [] ∧ frames_of endFill.1.2 = [endFrame] ∧
  match Fill 0 endBatch endA5 with Ok _ => true | _ => false end = true ∧
  (readBegin 10 endB2).1 = RView (rng demoS 100 6) ∧ (readCommit 6 endB3).1 = inl 6.
Proof. by split_and!; vm_compute. Qed.

Lemma endA5_ctl :
  c_rst (s_ctl endA5) = None ∧ c_epoch (s_ctl endA5) = 7 ∧ Sched.N (c_set (s_ctl endA5)) = 0 ∧ ackFlags (s_ack endA5) = 0 ∧
  ended (s_app endA5) = false.
Proof. by split_and!; vm_compute. Qed.

Lemma fill_ok_lane s c l :
  heap s !! l = Some c → handle_ok (Handle c) → l_first c = NoFirst → c_rst (s_ctl s) = None → is_u32 (c_epoch (s_ctl s)) →
  Sched.N (c_set (s_ctl s)) = 0 → flags_ok TypeAck (ackFlags (s_ack s)) → fill_ok s l.
Proof.
  intros H1 H2 H3 H4 H5 H6 H7. constructor.
  - unfold lane_ok, lane_at. rewrite H1. split; [done|by eapply lookup_lt_Some].
  - unfold first_ok, lane_at. rewrite H1. cbn. by rewrite H3.
  - constructor; [by rewrite H4|done|by rewrite H6|done].
Qed.

Lemma endA5_fill : fill_ok endA5 0.
Proof.
  assert (heap endA5 !! 0%nat = Some endLane) as H0 by (unfold endA5; generalize endA4; reflexivity).
  destruct endA5_ctl as (H1 & H2 & H3 & H4 & _). revert H0 H1 H2 H3 H4. generalize endA5. intros s H0 H1 H2 H3 H4.
  apply (fill_ok_lane _ endLane); [done|done|done|done|by rewrite H2|done|by rewrite H4].
Qed.

Lemma end_params : params_ok (s_p demo0) ∧ params_ok (s_p endB0) ∧ p_FirstOffset (s_p demo0) = 100 ∧ p_FirstOffset (s_p endB0) = 100.
Proof. by split_and!; vm_compute. Qed.

Lemma end_fresh : fresh endB0.
Proof. by repeat eexists. Qed.

Lemma end_ok : ends demo0 endB0.
Proof.
  destruct end_params as (H1 & H2 & H3 & H4). refine (conj demo_fresh (conj end_fresh (conj H1 (conj H2 _)))). by rewrite H3, H4.
Qed.

Lemma end_live : ended (s_app endB0) = false.
Proof. by vm_compute. Qed.

(** One round of a Write, and a lane that the actor adds. *)
Lemma run_write T1 T2 s y grant n k pos c :
  0 < n → (writeRoundLocked grant n s).1 = WRound k pos →
  let s1 := (writeRoundLocked grant n s).2 in
  let s3 := (writeCommit k (writeCopy (rng T1 (s_end (s_send s1)) k) s1).2).2 in
  heap s3 = [] → l_infl c = [] → l_rnext c = 0 →
  rtc (nstep T1 T2) (EP s None [] false WIdle [] [] [], y) (EP (set_heap [c] s3) None [] false WIdle [] [] [], y).
Proof.
  intros Hn Hw s1 s3 Hh Hi Hr.
  eapply rtc_l; [apply n_a, (h_write_begin _ _ _ grant n); [reflexivity|done]|]. cbn [at_s at_ph ep_s ep_view ep_got ep_eof ep_ph ep_out ep_win ep_rx].
  rewrite Hw. cbv iota. fold s1.
  eapply rtc_l; [apply n_a, (h_write_copy _ _ _ k); reflexivity|].
  eapply rtc_l; [apply n_a, (h_write_commit _ _ _ k); reflexivity|].
  apply rtc_once, (n_a _ _ _ _ (at_s (set_heap [c] s3) (EP s3 None [] false WIdle [] [] []))), h_env. by apply env_lane.
Qed.

(** A Fill, the arrival of its one frame and a Read. *)
Lemma run_deliver T1 T2 s win sb bt f v :
  let r := match Fill 0 bt s with Ok x => x | _ => (tt, bt, s) end in
  let sb2 := (deliver 0 f.1 f.2 None sb).2 in
  BInv bt → fill_ok s 0 → match Fill 0 bt s with Ok _ => true | _ => false end = true →
  frames_of bt = [] → frames_of r.1.2 = [f] → buf_ok None (len f.2 - DataPrefixLen) →
  (readBegin 10 sb2).1 = RView v → (readCommit (len v) (readBegin 10 sb2).2).1 = inl (len v) →
  rtc (nstep T1 T2) (EP s None [] false WIdle [] [] [], EP sb None [] false WIdle [] [win] [])
    (EP r.2 None [] false WIdle [f] [] [], EP (readCommit (len v) (readBegin 10 sb2).2).2 None v false WIdle [] [win] []).
Proof.
  intros r sb2 Hb Hf Hok F1 F2 Hbuf Hv Hc. subst r. destruct (Fill 0 bt s) as [[[[] bt'] s']| |] eqn:E; [|done|done]. cbn [fst snd] in *.
  eapply rtc_l; [apply n_a; by eapply (h_fill _ _ _ 0 bt tt bt' s')|]. rewrite F1, F2. destruct f as [h p]. cbn [fst snd] in sb2.
  eapply rtc_l; [apply n_b, (h_frame _ _ _ 0 h p None); [by left|done]|].
  eapply rtc_l; [apply n_b, (h_read_begin _ _ _ 10); [done|lia]|].
  cbn [at_s at_rw ep_s ep_view ep_got ep_eof ep_ph ep_out ep_win ep_rx]. fold sb2. rewrite Hv.
  apply rtc_once. pose proof (h_read_commit T2 (at_rw (readWorld [] false (RView v) (readBegin 10 sb2).2)
    (EP sb2 None [] false WIdle [] [win] [])) (EP s' None [] false WIdle [(h, p)] [] []) v eq_refl) as Hst.
  cbn [at_rw ep_s ep_view ep_got ep_eof ep_ph ep_out ep_win ep_rx readWorld rw_s rw_view rw_got rw_eof] in Hst.
  rewrite Hc in Hst. cbn [app] in Hst. rewrite firstn_all2 in Hst by (unfold len; lia). exact (n_b _ _ _ _ _ Hst).
Qed.

Lemma end_written :
  reach demoS demoS demo0 endB0 (EP endA5 None [] false WIdle [] [] []) (EP endB1 None [] false WIdle [] [endWin] []).
Proof.
  destruct end_facts as (F1 & F2 & F3 & F4 & _). destruct end_params as (_ & _ & P1 & _). pose proof end_live as P2.
  unfold reach, startEP.
  apply rtc_l with (EP demo0 None [] false WIdle [] [] [], EP endB1 None [] false WIdle [] [endWin] []).
  { unfold endB1, endWin. revert P2. generalize endB0. intros s P2. by apply n_b, (h_open _ (EP s None [] false WIdle [] [] [])). }
  apply rtc_l with (EP endA1 None [] false WIdle [] [] [], EP endB1 None [] false WIdle [] [endWin] []).
  { unfold endA1. revert F1 P1. clear. generalize demo0 endWin endB1. intros s n t F1 P1.
    apply n_a, (h_peer_window _ (EP s None [] false WIdle [] [] []) _ n); [by left|]. cbn. congruence. }
  unfold endA5, endA4, endA3, endA2 in *. revert F2 F3 F4. clear. generalize endA1 endB1 endWin. intros s t n F2 F3 F4.
  pose proof (run_write demoS demoS s (EP t None [] false WIdle [] [n] []) [(λ _, 0)] 6 6 0 endLane ltac:(lia) F2) as H.
  cbv zeta in H. rewrite F3 in H. by apply H.
Qed.

Lemma endBatch_ok : BInv endBatch.
Proof. by apply reset_binv. Qed.

Lemma end_run : reach demoS demoS demo0 endB0 endX endY.
Proof.
  destruct end_facts as (_ & _ & _ & _ & F5 & F6 & F7 & F8 & F9). pose proof endA5_fill as Hfo. pose proof endBatch_ok as Hbi.
  unfold reach. etrans; [apply end_written|].
  unfold endX, endY, endA6, endFill, endB4, endB3, endB2 in *.
  revert Hfo F5 F6 F7 F8 F9 Hbi. clear. generalize endA5 endB1 endWin endBatch. intros s t n bt Hfo F5 F6 F7 F8 F9 Hbi.
  by apply (run_deliver demoS demoS s n t bt endFrame (rng demoS 100 6)).
Qed.

Lemma demoS_u8 x : is_u8 (demoS x).
Proof. unfold demoS, fits. pose proof (Z.mod_pos_bound x 251). lia. Qed.

(** What the sessions of the run hold, evaluated once. *)
Lemma endA_state :
  ended (s_app endA5) = false ∧ s_end (s_send endA5) = 106 ∧ rRead (s_recv endB1) = 100 ∧
  ended (s_app endA6) = false ∧ ended (s_app endB4) = false ∧ pendingLocked endB4 = false ∧
  (ackLocked 0 0 (Ack.mkAck 106 1000 0) endA6).1 = None ∧ sBase (s_send endA6) = 100.
Proof. by split_and!; vm_compute. Qed.

Lemma end_to_end_stream_witness :
  rng demoS 100 6 = [100; 101; 102; 103; 104; 105] ∧
  delivered demoS (p_FirstOffset (s_p demo0)) endX endY ∧ delivered demoS (p_FirstOffset (s_p demo0)) endY endX.
Proof. split; [reflexivity|]. exact (end_to_end_stream demoS demoS demoS_u8 demoS_u8 demo0 endB0 endX endY end_ok end_run). Defined.

(** The ends of the run, for any sessions: the witnesses are stated for these. *)
Abbreviation endAt s out := (EP s None [] false WIdle out [] []).
Abbreviation endBt t got := (EP t None got false WIdle [] [endWin] []).

Lemma no_byte_lost_witness : kept demoS endA5 103.
Proof.
  assert (∀ s t, reach demoS demoS demo0 endB0 (endAt s []) (endBt t []) → ended (s_app s) = false → s_end (s_send s) = 106 →
    rRead (s_recv t) = 100 → kept demoS s 103) as G.
  { intros s t Hr H1 H2 H3. destruct (no_byte_lost demoS demoS demoS_u8 demoS_u8 demo0 endB0 _ _ end_ok Hr H1) as [_ Hk].
    apply Hk. cbn. lia. }
  destruct endA_state as (H1 & H2 & H3 & _). exact (G endA5 endB1 end_written H1 H2 H3).
Defined.

Lemma peer_data_accepted_witness : (deliver 0 endFrame.1 endFrame.2 None endB4).1 = None.
Proof.
  assert (∀ s t, reach demoS demoS demo0 endB0 (endAt s [endFrame]) (endBt t (rng demoS 100 6)) → ended (s_app s) = false →
    ended (s_app t) = false → pendingLocked t = false → (deliver 0 endFrame.1 endFrame.2 None t).1 = None) as G.
  { intros s t Hr H1 H2 H3. apply (peer_data_accepted demoS demoS demoS_u8 demoS_u8 demo0 endB0 _ _ 0 endFrame.1 endFrame.2 None end_ok Hr);
      [done|done|done|by left|reflexivity|by vm_compute]. }
  destruct endA_state as (_ & _ & _ & H4 & H5 & H6 & _). exact (G endA6 endB4 end_run H4 H5 H6).
Defined.

Lemma fill_sound_witness :
  ∃ bt' s' os, Fill 0 endBatch endA5 = Ok (tt, bt', s') ∧
    frames_of bt' = frames_of endBatch ++ (op_frame 0 <$> os) ∧ Forall op_wf os ∧ Forall (sentOk demoS s') os.
Proof.
  assert (∀ s t bt, reach demoS demoS demo0 endB0 (endAt s []) (endBt t []) → BInv bt → fill_ok s 0 →
    ∃ bt' s' os, Fill 0 bt s = Ok (tt, bt', s') ∧
      frames_of bt' = frames_of bt ++ (op_frame 0 <$> os) ∧ Forall op_wf os ∧ Forall (sentOk demoS s') os) as G.
  { intros s t bt Hr Hb Hf. exact (fill_sound demoS demoS demoS_u8 demoS_u8 demo0 endB0 _ _ 0 bt end_ok Hr Hb Hf). }
  exact (G endA5 endB1 endBatch end_written endBatch_ok endA5_fill).
Defined.

Lemma ack_applied_witness : sBase (s_send (ackLocked 0 0 (Ack.mkAck 106 1000 0) endA6).2) = 106.
Proof.
  assert (∀ s t, reach demoS demoS demo0 endB0 (endAt s [endFrame]) (endBt t (rng demoS 100 6)) → ended (s_app s) = false →
    (ackLocked 0 0 (Ack.mkAck 106 1000 0) s).1 = None → sBase (s_send s) = 100 →
    sBase (s_send (ackLocked 0 0 (Ack.mkAck 106 1000 0) s).2) = 106) as G.
  { intros s t Hr H1 H2 H3. assert (Ack.wf (Ack.mkAck 106 1000 0)) as Hw by by unfold Ack.wf, fits.
    pose proof (ack_applied demoS demoS demoS_u8 demoS_u8 demo0 endB0 _ _ 0 0 (Ack.mkAck 106 1000 0) end_ok Hr H1 Hw) as H.
    cbv zeta in H. cbn [ep_s] in H. rewrite H2 in H. destruct H as (-> & _). cbn. by rewrite H3. }
  destruct endA_state as (_ & _ & _ & H4 & _ & _ & H7 & H8). exact (G endA6 endB4 end_run H4 H7 H8).
Defined.

(** The lane dies with the frame unacknowledged. *)
Definition endDead (c : lane) : lane := set_l_state LaneDead (set_l_data false c).
Definition endA7 : Session := set_heap (endDead <$> heap endA6) endA6.

Lemma env_dead s : env s (set_heap (endDead <$> heap s) s).
Proof.
  constructor; try done.
  - exists (charged (rb (s_recv s))), (earlyOpen (s_recv s)). by destruct s as [? ? ? [? ? [] ? ? ? ? ? ? ? ? ? ? ?] ? ? ? ? ? ? ? ? ? ? ? ? ?].
  - intros i. unfold lane_at. cbn. rewrite list_lookup_fmap. by destruct (heap s !! i).
  - intros i. unfold lane_at. cbn. rewrite list_lookup_fmap. by destruct (heap s !! i).
Qed.

Lemma endA7_state :
  ended (s_app endA7) = false ∧ is_race (p_Mode (s_p endA7)) = false ∧ (laneGoneLocked 0 endA7).1 = Some 6 ∧
  sBase (s_send endA7) = 100 ∧ l_infl (lane_at endA7 0) = [Span 100 6].
Proof. by split_and!; vm_compute. Qed.

Lemma lane_gone_requeues_witness : 103 ∈ sl_set (retx (s_send (laneGoneLocked 0 endA7).2)).
Proof.
  assert (∀ s t, reach demoS demoS demo0 endB0 (endAt s [endFrame]) (endBt t (rng demoS 100 6)) →
    let s7 := set_heap (endDead <$> heap s) s in
    ended (s_app s7) = false → is_race (p_Mode (s_p s7)) = false → (laneGoneLocked 0 s7).1 = Some 6 →
    sBase (s_send s7) = 100 → l_infl (lane_at s7 0) = [Span 100 6] →
    103 ∈ sl_set (retx (s_send (laneGoneLocked 0 s7).2))) as G.
  { intros s t Hr s7 H1 H2 H3 H4 H5.
    assert (reach demoS demoS demo0 endB0 (endAt s7 [endFrame]) (endBt t (rng demoS 100 6))) as Hr7.
    { eapply rtc_r; [exact Hr|]. apply n_a, (h_env _ (endAt s [endFrame])), env_dead. }
    assert (laneGoneLocked 0 s7 = (Some 6, (laneGoneLocked 0 s7).2)) as E by (rewrite <- H3; by destruct (laneGoneLocked 0 s7)).
    pose proof (lane_gone_requeues demoS demoS demoS_u8 demoS_u8 demo0 endB0 _ _ 0 6 (laneGoneLocked 0 s7).2 end_ok Hr7 H1 H2 E) as [_ H].
    apply H; cbn [ep_s]; [rewrite H4; lia|]. rewrite H5. cbn. apply elem_of_union_l, elem_of_range. cbn. lia. }
  destruct endA7_state as (H1 & H2 & H3 & H4 & H5). exact (G endA6 endB4 end_run H1 H2 H3 H4 H5).
Defined.

(** ** Early data beyond the window

    The network model above runs without early data, because the guarantee of
    [peer_data_accepted] does not extend to it.  The winner of a dial may be a
    fast-path or coalesced view that carried nothing early while the session
    fixed an early span of six bytes: earlyVerdictLocked then requeues the span
    although the passive, which saw no OPEN with the early flag, advertised the
    window its Budget allows, here 0.  The retransmission loop of
    fillDataLocked does not look at the peer's limit, so the span is sent
    beyond it and the passive refuses it. *)

Definition earlyCtl (st : State) : control :=
  SessState.Control st None 7 0 (Sched.mkSched 0 0 0 0 0 []) (Sched.mkSched 0 0 0 0 0 []) 0 false None 0 0 0.

(** The passive's Budget is used up. *)
Definition earlyB0 : Session :=
  initSession (MkParams RolePassive ModeSelector 0 0 0 100 0 7 0 0 0) None (earlyCtl StateOpen) 1000 1000 (λ n, 1000 + Z.of_nat n).
Definition earlyB1 : Session := (exec COpenWindow earlyB0).2.
Definition earlyWin : Z := (exec COpenWindow earlyB0).1.

(** The dialer writes before the verdict, which then applies the window, opens
    the session and attaches the winner's lane. *)
Definition earlyA0 : Session :=
  initSession (MkParams RoleDialer ModeSelector 0 0 0 100 0 7 65536 0 0) None (earlyCtl StatePending) (2 ^ 30) 0 (λ n, 1000 + Z.of_nat n).
Definition earlyA1 : Session :=
  (writeCommit 6 (writeCopy (rng demoS 100 6) (writeRoundLocked [(λ _, 0)] 6 earlyA0).2).2).2.
Definition earlyA2 : Session :=
  set_heap [endLane] (set_s_ctl (earlyCtl StateOpen) (exec (CPeerWindow earlyWin) earlyA1).2).
Definition earlyA3 : Session := (exec (CEarlyVerdict 0 6 0 2000) earlyA2).2.

Lemma early_requeue_beyond_window :
  earlyWin = 0 ∧ rightEdge (s_recv earlyB1) = 100 ∧ peerLimit (s_send earlyA3) = 100 ∧ sNext (s_send earlyA3) = 106 ∧
  match Fill 0 endBatch earlyA3 with Ok (_, b, _) => frames_of b | _ => [] end = [endFrame] ∧
  (deliver 0 endFrame.1 endFrame.2 None earlyB1).1 = Some (EViolation errWindow).
Proof. by split_and!; vm_compute. Qed.
